(* ===== verification/_CoqProject ===== *)
-Q . S2P
Prelude.v
Wire.v
Envelope.v
Records.v
Failure.v
Effects.v
Locator.v
Fiber.v
SessionIndex.v
Schema.v
Floats.v
Typed.v
Derive.v
DeriveChecks.v
DeriveLaws.v
Ownership.v
Container.v
Reader.v
MetaFile.v
Engine.v
Pipeline.v
FileEngine.v
Adapter.v
Scenarios.v
JetStream.v
MemServer.v
NatsEngine.v
NatsQueries.v
NatsLog.v
NatsSession.v
NatsAuthority.v
NatsAdapter.v
NatsScenarios.v
Migration.v
TypedEvents.v
Text.v
Renumber.v
ClosedErrors.v
SpecCoverage.v
Meadows.v
RuledAudit.v
FilePaths.v
FileFixtures.v
NatsFixtures.v
