(* ===== verification/Prelude.v ===== *)
(** * Pardosa: a verified model of its core

    Pardosa stores events in fibers. A writer mints envelopes with a fiber handle,
    each carrying the BLAKE3 commitment of its predecessor; a store validates them
    against the index of its session, frames them with a checksum and hands them
    to a storage engine; opening it again recovers the index from the frames, from
    which handles are handed out again. Two adapters keep an artefact: in a pair
    of files ([src/crates/pardosa/src/file.rs]) or in a pair of JetStream streams
    ([src/crates/pardosa-nats]). Beside the events each keeps ownership records,
    framed in the same format, that say who may write and what the payloads are.
    The repository is kept consistent by tools under [src/scripts/src/bin], which
    check its error types, its specification and the tables that trace one to
    the other.

    ** Files

    Values and formats:
    - [Prelude]: Rust results ([outcome]: [Ok], [Err] and [Panic]), machine
      integers as [Z] with checked, saturating and wrapping operations, bytes,
      slices, little-endian integers, UTF-8, the digests, and the tactics
      [run], [ok_inv], [no_panic], [learn_ranges], [gather] for decoders.
    - [Wire] (encoding.rs, first part): error types; bounded strings and bytes,
      timestamps, identifiers; [codec_laws], the contract of a wire format.
    - [Envelope] (encoding.rs, [EnvelopeHeader] to [EventEnvelope]): codec,
      bounded encoding, commitments, genesis and chaining.
    - [Records] (encoding.rs, [PartitioningRule] to [OwnershipRecord]): the nine
      ownership and migration records.
    - [Failure] (store.rs, [FailureCondition] and its neighbours): the closed
      vocabulary of failures.
    - [Effects]: the state-and-error monad of the adapters and its triples.
    - [Locator] (adapter.rs, [NatsLocator]): names of streams and subjects.
    - [Schema] (schema.rs up to [derive_fiber_id]): descriptor trees, their
      encoder, length calculation, decoder, completeness, admission, identity.
    - [Floats], [Typed] (schema/floats.rs, the rest of schema.rs): canonical
      floats, and the payload types with their codecs and descriptors.
    - [Derive], [DeriveChecks], [DeriveLaws] (pardosa-derive/src/lib.rs): the two
      derive macros as functions from declarations to the code they generate; what
      they accept; the laws of the generated codecs and descriptors.

    Histories:
    - [Fiber] (store.rs [FiberState], [ReopenedStoreBoundary];
      store/fiber_handle.rs): lifecycle, handle and its three operations,
      reconstitution.
    - [SessionIndex] (store/session_index.rs): all fibers of a session,
      validation and commit of envelopes, recovery from frames.
    - [Ownership] (store.rs from [OwnershipStatus] on): open reports, epoch
      fence, claims, creation, strict create and open, event and link admission.
    - [Reader] (store.rs, [ResumeCursor] to [ArtefactReader]): readers over a
      stream of envelopes, with their limits and cursors.

    Storage:
    - [Container], [MetaFile] (file.rs, first part): frames, rolling commitment,
      scan and repair of a file; the records of the metadata file.
    - [Engine] (store/engine.rs): the interface [StorageEngine] between the
      pipeline and its drivers, with the laws a driver owes ([AppendLaws], and
      [EngineLaws] for reads that nobody writes behind).
    - [Pipeline] (store/pipeline.rs): the store, over any engine.
    - [FileEngine], [Adapter] (file.rs): the driver and the adapter over a world
      of two files and a script of outcomes of system calls; [Scenarios] has the
      witnesses.
    - [JetStream], [NatsEngine], [NatsAdapter] (adapter.rs): the client as an
      interface, the driver and the adapter over it; [NatsQueries] says which
      operations only ask the server; [NatsLog], [NatsSession] and
      [NatsAuthority] prove what they keep while others write; [MemServer] is a
      server in memory for the witnesses in [NatsScenarios].
    - [Migration] (migration.rs): the roles of adapters in a migration and the
      manager, which this release disables.
    - [FilePaths] (file.rs, [FileStorageAdapter::new]): the files a base path
      names. [FileFixtures], [NatsFixtures] (file.rs and adapter.rs): the
      operations of the feature [unstable-test-support].
    - [TypedEvents] follows a value from a derived encoder through the handle, the
      store and the engine back to whoever reads it.

    Tools (src/scripts/src/bin; they share nothing with the crates above):
    - [Text]: what they use of [str], of number conversions and of [BTreeMap].
    - [Renumber] (c4-split-renumber.rs): makes room for new clauses of the
      specification by renaming, in the document and in its trace table.
    - [ClosedErrors] (non-exhaustive-check.rs): the gate against public error
      enums that are [#[non_exhaustive]].
    - [SpecCoverage] (spec-coverage.rs): the specification, its trace table and
      the rulings against each other.
    - [Meadows] (meadows-check.rs): the table of rulings by layer.
    - [RuledAudit] (ruled-audit.rs): citations of rulings against their owners.

    ** Correspondence

    Definitions keep the source's names. Methods of one type share a prefix
    where two types have a method of the same name ([FiberHandle_append],
    [EventEnvelope_encode], [nats_create]); enum constructors are prefixed by
    their type. A Rust [&mut self] method takes the state and returns it beside
    the result, so that what a failure leaves behind is visible. A decoder is a
    function from a buffer to the value and the number of bytes consumed. An
    encoder takes the buffer it appends to. Strings and arrays are lists of bytes;
    the invariant of the Rust type (array width, UTF-8, integer range) is the
    [_wf] or [_typed] predicate of the model's type and a hypothesis where needed.
    [HashMap] and [HashSet] are [gmap] and [gset].

    BLAKE3 (plain and keyed derivation) and CRC32C are code of other crates:
    they are the operations of the class [Digests]. [DigestLaws] states the
    widths of their results, all that the theorems rely on; collision
    resistance is never assumed: statements that need it conclude with an
    explicit collision. [toy_digests] is an instance, so that the witnesses
    evaluate. The JetStream client is the class [JetStream]: any call may fail
    and other clients may write during it. [JetStreamLaws] says that streams only
    grow (nothing is deleted or purged while a theorem speaks), that answers are
    true of the server that gave them, and that an acknowledged message stands
    where its publisher expected it.

    Of [syn], which parses Rust for the derive macros, its syntax trees are
    inductive types with the constructors the macros match on, and the two
    functions they call are the class [Syn] with its documented behaviour
    [SynLaws]; [toy_syn] is an instance.

    The tools read documents that are arguments of the model. Their regular
    expressions are the operations of the classes [Regexes] and [Corpus], the
    token parsers of [syn] those of [SynParse], and the command [bd] and its JSON
    those of [Corpus]; each has an instance for the witnesses. A [BTreeMap] is a
    [gmap] that is listed in the order of its keys.

    The operating system is a value too: a [World] of files and of outcomes of
    the calls to come, over which the theorems quantify. A write that fails may
    have written any part of its data.

    [Panic] is a value: a slice out of range, an [expect], an overflowing [+].
    Theorems that a function never panics are stated for buffers of at most
    [isize::MAX] bytes, the longest Rust allocates, on a 64-bit target.

    ** What the theorems show

    - Codecs ([Wire], [Envelope], [Records], [Schema], [Container], [Typed]): what
      is encoded is read back, with anything after it; what is accepted is
      canonical, except where a theorem exhibits the exception; no input
      panics; bounds of the encoder are exact.
    - Fibers: each operation is characterised on every branch; a handle is
      reconstituted exactly from the valid histories; replaying the minted
      envelopes gives the handle back; the handle binds the whole history.
    - Index: rebuilt from frames it stands for the recorded session, with broken
      fibers exactly where the chain or freshness fails, equals the live index of
      a committed session, and agrees with the handles.
    - Readers observe exactly the longest valid prefix of their stream, and are
      refused when it exceeds their limits.
    - Schemas and payload types: admission is exact, the stored record restores
      the descriptor, deriving one fails exactly on the types named; the float
      wrappers are totally ordered. The derive macros accept exactly the
      well-formed declarations, and what they generate keeps the contracts of the
      types written by hand: codecs invert, never panic and type their results;
      descriptors are complete, and within the declared depth unless a variant is
      written with braces or parentheses around nothing. A typed event that lands
      comes back.
    - Ownership: claims serialise and fence; creation follows its order; links are
      admitted exactly when they chain.
    - The pipeline, over any engine that keeps its laws, keeps a log: what it
      reports landed is stored, in order; memory is what recovering the log
      computes; an open landing stops the session. A migration reads whole
      histories, broken ones included.
    - Files: the scan is exact; whatever the system calls do, an append lands
      whole, not at all, or stops the engine with a tail that repair removes; a
      session survives a crash; creation writes its files in order and resumes
      where the code resumes it; opening repairs and recovers. Either file of
      an artefact names it, and every extension of a base path is dropped.
    - JetStream: while other clients write, appends land behind one another, of
      two writers one lands, every append that goes out was authorised by all
      records that stood when it began, sessions keep their log, an artefact is
      created once, and opening admits the epoch on record.
    - Where the code stops short of its documents, a theorem says so: creations
      cut short that nothing completes, committed frames cut behind a corrupted
      length, stream names that two hierarchies share, a claim written between the
      authority check and the landing it should prevent, a derived depth that
      misses a level.
    - Tools: the renaming, done one identifier at a time, is the renaming of all
      at once, of texts that pass the guard; of the enums written out in the
      files it reads, with attributes written out, the gate passes no public error
      enum that is open in a build without tests, and otherwise reports every such
      enum ([cfg_attr] and macros are not read); the checks of the specification and of
      the table of rulings pass exactly the documents their rules describe, over
      the rows of the trace table that parse; the ranges that the audit prints
      read back as the records they came from.

    ** Recursion and bounds

    The descriptor functions recurse on the remaining levels: [levels0] is 17,
    the depth bound 16 of the source and the root, and reaching 0 is the depth
    error the source returns. [scan_loop] takes [S (length buf)] rounds of fuel;
    every round consumes at least eight bytes, and [scan_exact] shows that the
    fuel is never exhausted. [recover_loop] takes as many rounds as
    [chunked_recovery_exact] shows it to need for any chunk size.
    [nats_recover_loop] takes a round per message left, and every round reads one
    at least: [NatsSession] shows it never runs out. [for] loops over a range
    recurse on its length. All other recursion is structural.

    ** What is not modelled

    Diagnostic text, [Display] and [Debug] of the crates; of the tools
    [Meadows] and [ClosedErrors] have reports as data. Of the derive macros the
    parsing of tokens, the text of the generated code, generics, visibility and
    [repr]. Locks beyond whether they are granted, file permissions, symbolic
    links, paths that are not UTF-8; whether reading a file fails is fixed for a
    world, where every other call has an outcome of its own. What a server went
    through during a recovery that failed. The connection to a server, the constructors that make it, the runtime that blocks on
    futures, and stream deletion by others. The writer with a quota of the test
    configuration; its simulation flags are part of the engines' state. Session
    wrappers that only forward to the store. Of the repository the tests, the
    shell scripts and the server that the tests start. *)

From Stdlib Require Export ZArith Lia ZifyBool.
From Stdlib Require Export Strings.Byte.
From stdpp Require Export base numbers list gmap strings.

#[global] Open Scope Z_scope.
#[global] Set Default Goal Selector "!".

(** ** Results of Rust functions

    [Ok] and [Err] are the two constructors of [Result]; [Panic] is the third
    way a Rust call can end: an index out of range, an [expect] on an absent
    value, or an overflowing [+] in a build with overflow checks. *)

Inductive outcome (E A : Type) : Type :=
  | Ok (a : A)
  | Err (e : E)
  | Panic.
Arguments Ok {E A} a.
Arguments Err {E A} e.
Arguments Panic {E A}.

#[global] Instance outcome_ret {E} : MRet (outcome E) := λ A a, Ok a.
#[global] Instance outcome_bind {E} : MBind (outcome E) := λ A B f m,
  match m with Ok a => f a | Err e => Err e | Panic => Panic end.
#[global] Instance outcome_fmap {E} : FMap (outcome E) := λ A B f m,
  match m with Ok a => Ok (f a) | Err e => Err e | Panic => Panic end.

(** [Result::map_err]. *)
Definition map_err {E F A} (f : E → F) (m : outcome E A) : outcome F A :=
  match m with Ok a => Ok a | Err e => Err (f e) | Panic => Panic end.

(** [Option::ok_or]. *)
Definition ok_or {E A} (o : option A) (e : E) : outcome E A :=
  match o with Some a => Ok a | None => Err e end.

Definition is_ok {E A} (m : outcome E A) : bool :=
  match m with Ok _ => true | _ => false end.

#[global] Instance outcome_eq_dec {E A} `{EqDecision E, EqDecision A} :
  EqDecision (outcome E A).
Proof. solve_decision. Defined.

Lemma bind_Ok {E A B} (m : outcome E A) (f : A → outcome E B) b :
  m ≫= f = Ok b ↔ ∃ a, m = Ok a ∧ f a = Ok b.
Proof. destruct m; naive_solver. Qed.

Lemma bind_of_Ok {E A B} (a : A) (f : A → outcome E B) : Ok a ≫= f = f a.
Proof. done. Qed.

Lemma map_err_of_Ok {E F A} (g : E → F) (a : A) : map_err g (Ok a) = Ok a.
Proof. done. Qed.

Lemma bind_Err {E A B} (m : outcome E A) (f : A → outcome E B) e :
  m ≫= f = Err e ↔ m = Err e ∨ ∃ a, m = Ok a ∧ f a = Err e.
Proof. destruct m; naive_solver. Qed.

Lemma bind_not_panic {E A B} (m : outcome E A) (f : A → outcome E B) :
  m ≠ Panic → (∀ a, m = Ok a → f a ≠ Panic) → m ≫= f ≠ Panic.
Proof. destruct m; naive_solver. Qed.

Lemma map_err_Ok {E F A} (g : E → F) (m : outcome E A) a :
  map_err g m = Ok a ↔ m = Ok a.
Proof. destruct m; naive_solver. Qed.

Lemma map_err_not_panic {E F A} (g : E → F) (m : outcome E A) :
  map_err g m ≠ Panic ↔ m ≠ Panic.
Proof. destruct m; naive_solver. Qed.

(** ** Machine integers

    A [w]-bit unsigned integer is a [Z]; [in_u w z] is its range. The target
    has a 64-bit [usize]. *)

Definition in_u (w : Z) (z : Z) : Prop := 0 ≤ z < 2 ^ w.
Abbreviation is_u8 := (in_u 8).
Abbreviation is_u16 := (in_u 16).
Abbreviation is_u32 := (in_u 32).
Abbreviation is_u64 := (in_u 64).

#[global] Instance in_u_dec w z : Decision (in_u w z).
Proof. unfold in_u. apply _. Defined.

Definition u32_max : Z := 4294967295.
Definition u64_max : Z := 18446744073709551615.
Definition usize_max : Z := 18446744073709551615.
(** No Rust allocation is longer than [isize::MAX] bytes. *)
Definition isize_max : Z := 9223372036854775807.

(** [usize::checked_add]. *)
Definition checked_add (a b : Z) : option Z :=
  if a + b <=? usize_max then Some (a + b) else None.

(** The operator [+] on [usize]. *)
Definition uadd {E} (a b : Z) : outcome E Z :=
  if a + b <=? usize_max then Ok (a + b) else Panic.

(** [usize::saturating_add], [saturating_mul] and [saturating_sub]. *)
Definition saturating_add (a b : Z) : Z := Z.min (a + b) usize_max.
Definition saturating_mul (a b : Z) : Z := Z.min (a * b) usize_max.
Definition saturating_sub (a b : Z) : Z := Z.max (a - b) 0.

(** The same on [u64]; [wrapping_add] wraps around. *)
Definition u64_checked_add (a b : Z) : option Z :=
  if a + b <=? u64_max then Some (a + b) else None.
Definition u64_saturating_add (a b : Z) : Z := Z.min (a + b) u64_max.
Definition u64_wrapping_add (a b : Z) : Z := (a + b) mod 2 ^ 64.
Definition u64_add {E} (a b : Z) : outcome E Z :=
  if a + b <=? u64_max then Ok (a + b) else Panic.

(** [u32::try_from] of a [usize]. *)
Definition u32_try_from (z : Z) : option Z :=
  if z <=? u32_max then Some z else None.

Lemma uadd_ok {E} a b : a + b ≤ usize_max → uadd (E:=E) a b = Ok (a + b).
Proof. intros. unfold uadd. by rewrite (proj2 (Z.leb_le _ _)). Qed.

Lemma checked_add_ok a b : a + b ≤ usize_max → checked_add a b = Some (a + b).
Proof. intros. unfold checked_add. by rewrite (proj2 (Z.leb_le _ _)). Qed.

Lemma uadd_Ok {E} a b c : uadd (E:=E) a b = Ok c → c = a + b ∧ a + b ≤ usize_max.
Proof. unfold uadd. case_match; [|done]. intros [= <-]. lia. Qed.

Lemma checked_add_Some a b c : checked_add a b = Some c → c = a + b ∧ a + b ≤ usize_max.
Proof. unfold checked_add. case_match; [|done]. intros [= <-]. lia. Qed.

Lemma u32_try_from_Some z x : u32_try_from z = Some x → x = z ∧ z ≤ u32_max.
Proof. unfold u32_try_from. case_match; [|done]. intros [= <-]. lia. Qed.

Lemma u32_try_from_ok z : z ≤ u32_max → u32_try_from z = Some z.
Proof. intros. unfold u32_try_from. by rewrite (proj2 (Z.leb_le _ _)). Qed.

(** ** Bytes *)

Abbreviation bytes := (list byte).

#[global] Instance byte_eq_dec : EqDecision byte := Byte.byte_eq_dec.
#[global] Program Instance byte_countable : Countable byte :=
  inj_countable Byte.to_N Byte.of_N _.
Next Obligation. intros b. apply Byte.of_to_N. Qed.

Definition byte_to_Z (b : byte) : Z := Z.of_N (Byte.to_N b).

(** Truncation to the low eight bits, the cast [as u8]. *)
Definition byte_of_Z (z : Z) : byte :=
  default x00 (Byte.of_N (Z.to_N (z mod 256))).

Lemma byte_to_Z_range b : 0 ≤ byte_to_Z b < 256.
Proof. unfold byte_to_Z. pose proof (Byte.to_N_bounded b). lia. Qed.

Lemma byte_of_to_Z b : byte_of_Z (byte_to_Z b) = b.
Proof.
  unfold byte_of_Z. rewrite Z.mod_small by apply byte_to_Z_range.
  unfold byte_to_Z. by rewrite N2Z.id, Byte.of_to_N.
Qed.

Lemma byte_to_of_Z z : byte_to_Z (byte_of_Z z) = z mod 256.
Proof.
  unfold byte_of_Z, byte_to_Z.
  pose proof (Z.mod_pos_bound z 256 eq_refl).
  destruct (Byte.of_N (Z.to_N (z mod 256))) as [b|] eqn:Hb; simpl.
  - apply Byte.to_of_N in Hb. lia.
  - apply Byte.of_N_None_iff in Hb. lia.
Qed.

(** The length of a buffer as a [usize]. *)
Definition blen {A} (l : list A) : Z := Z.of_nat (length l).

Lemma blen_nil {A} : blen (@nil A) = 0. Proof. done. Qed.
Lemma blen_cons {A} (x : A) l : blen (x :: l) = 1 + blen l.
Proof. unfold blen. simpl. lia. Qed.
Lemma blen_app {A} (l k : list A) : blen (l ++ k) = blen l + blen k.
Proof. unfold blen. rewrite length_app. lia. Qed.
Lemma blen_nonneg {A} (l : list A) : 0 ≤ blen l.
Proof. unfold blen. lia. Qed.
Lemma blen_replicate {A} n (x : A) : blen (replicate n x) = Z.of_nat n.
Proof. unfold blen. by rewrite length_replicate. Qed.
Lemma blen_0_nil {A} (l : list A) : blen l = 0 → l = [].
Proof. destruct l; [done|]. rewrite blen_cons. pose proof (blen_nonneg l). lia. Qed.

Create HintDb pardosa.
Create Rewrite HintDb blen.
#[export] Hint Rewrite @blen_nil @blen_cons @blen_app @blen_replicate : blen.

(** [is_empty]. *)
Definition is_empty {A} (l : list A) : bool :=
  match l with [] => true | _ => false end.

(** ** Little-endian integers: [to_le_bytes] and [from_le_bytes] *)

Fixpoint le_encode (n : nat) (z : Z) : bytes :=
  match n with
  | O => []
  | S n => byte_of_Z z :: le_encode n (z / 256)
  end.

Fixpoint le_decode (l : bytes) : Z :=
  match l with
  | [] => 0
  | b :: l => byte_to_Z b + 256 * le_decode l
  end.

Abbreviation u16_le := (le_encode 2).
Abbreviation u32_le := (le_encode 4).
Abbreviation u64_le := (le_encode 8).

Lemma length_le_encode n z : length (le_encode n z) = n.
Proof. revert z. induction n; intros; simpl; auto. Qed.

Lemma blen_le_encode n z : blen (le_encode n z) = Z.of_nat n.
Proof. unfold blen. by rewrite length_le_encode. Qed.
#[export] Hint Rewrite blen_le_encode : blen.

Lemma pow256_succ n : 2 ^ (8 * Z.of_nat (S n)) = 256 * 2 ^ (8 * Z.of_nat n).
Proof.
  replace (8 * Z.of_nat (S n)) with (8 + 8 * Z.of_nat n) by lia.
  rewrite Z.pow_add_r by lia. reflexivity.
Qed.

Lemma le_decode_encode n z :
  0 ≤ z < 2 ^ (8 * Z.of_nat n) → le_decode (le_encode n z) = z.
Proof.
  revert z. induction n as [|n IH]; intros z Hz; [simpl in *; lia|].
  rewrite pow256_succ in Hz. cbn [le_encode le_decode].
  rewrite byte_to_of_Z, IH.
  - pose proof (Z.div_mod z 256). lia.
  - split; [apply Z.div_pos; lia|]. apply Z.div_lt_upper_bound; lia.
Qed.

Lemma le_decode_range l : 0 ≤ le_decode l < 2 ^ (8 * blen l).
Proof.
  induction l as [|b l IH]; [simpl; unfold blen; simpl; lia|].
  unfold blen in *. cbn [length le_decode]. rewrite pow256_succ.
  pose proof (byte_to_Z_range b). lia.
Qed.

Lemma le_encode_decode l : le_encode (length l) (le_decode l) = l.
Proof.
  induction l as [|b l IH]; [done|]. cbn [length le_encode le_decode].
  pose proof (byte_to_Z_range b).
  replace (byte_to_Z b + 256 * le_decode l)
    with (le_decode l * 256 + byte_to_Z b) by lia.
  rewrite Z.div_add_l, (Z.div_small (byte_to_Z b)), Z.add_0_r, IH by lia.
  f_equal. rewrite <-(byte_of_to_Z b) at 2. unfold byte_of_Z.
  by rewrite Z.add_comm, Z_mod_plus_full.
Qed.

Lemma le_encode_decode' n l : blen l = Z.of_nat n → le_encode n (le_decode l) = l.
Proof.
  intros Hl. assert (n = length l) as -> by (unfold blen in Hl; lia).
  apply le_encode_decode.
Qed.

Lemma le_decode_in_u (n : nat) l :
  blen l = Z.of_nat n → in_u (8 * Z.of_nat n) (le_decode l).
Proof. intros <-. apply le_decode_range. Qed.

#[global] Opaque le_encode le_decode.
#[global] Arguments Z.pow : simpl never.
#[global] Arguments Z.sub : simpl never.
#[global] Arguments Z.add : simpl never.
#[global] Arguments Z.mul : simpl never.
#[global] Arguments Z.of_nat : simpl never.
#[global] Arguments Z.to_nat : simpl never.
#[global] Arguments Z.leb : simpl never.
#[global] Arguments Z.ltb : simpl never.
#[global] Arguments Z.eqb : simpl never.
#[global] Arguments blen : simpl never.

(** ** Indexing and slicing: out of range panics *)

(** [buf[i]]. *)
Definition byte_at {E} (buf : bytes) (i : Z) : outcome E byte :=
  match buf !! Z.to_nat i with Some b => Ok b | None => Panic end.

(** [&buf[a..b]]. *)
Definition slice {E A} (buf : list A) (a b : Z) : outcome E (list A) :=
  if (0 <=? a) && (a <=? b) && (b <=? blen buf)
  then Ok (take (Z.to_nat (b - a)) (drop (Z.to_nat a) buf)) else Panic.

(** [&buf[a..]]. *)
Definition slice_from {E A} (buf : list A) (a : Z) : outcome E (list A) :=
  slice buf a (blen buf).

(** [uN::from_le_bytes([buf[i], buf[i + 1], ..])] over [n] consecutive bytes. *)
Definition le_at {E} (n : Z) (buf : bytes) (i : Z) : outcome E Z :=
  bs ← slice buf i (i + n); mret (le_decode bs).
Abbreviation u16_at := (le_at 2).
Abbreviation u32_at := (le_at 4).
Abbreviation u64_at := (le_at 8).

Section slices.
Context {E A : Type}.
Implicit Types l k s : list A.

Lemma slice_Ok l a b s :
  slice (E:=E) l a b = Ok s ↔
    0 ≤ a ≤ b ∧ b ≤ blen l ∧ s = take (Z.to_nat (b - a)) (drop (Z.to_nat a) l).
Proof.
  unfold slice. destruct (_ && _) eqn:Hc.
  - apply andb_true_iff in Hc as [[?%Z.leb_le ?%Z.leb_le]%andb_true_iff ?%Z.leb_le].
    naive_solver.
  - split; [done|]. intros (?&?&->). exfalso.
    apply not_true_iff_false in Hc. apply Hc.
    rewrite !andb_true_iff, !Z.leb_le. lia.
Qed.

Lemma slice_in_range l a b :
  0 ≤ a ≤ b → b ≤ blen l →
  slice (E:=E) l a b = Ok (take (Z.to_nat (b - a)) (drop (Z.to_nat a) l)).
Proof. intros. by apply slice_Ok. Qed.

Lemma slice_not_panic l a b :
  0 ≤ a ≤ b → b ≤ blen l → slice (E:=E) l a b ≠ Panic.
Proof. intros. by rewrite slice_in_range. Qed.

Lemma slice_not_err l a b e : slice (E:=E) l a b ≠ Err e.
Proof. unfold slice. by case_match. Qed.

Lemma slice_blen l a b s : slice (E:=E) l a b = Ok s → blen s = b - a.
Proof.
  intros (?&?&->)%slice_Ok. unfold blen in *.
  rewrite length_take, length_drop. lia.
Qed.

(** A slice that starts past a known prefix. *)
Lemma slice_skip l k a b :
  blen l ≤ a → slice (E:=E) (l ++ k) a b = slice k (a - blen l) (b - blen l).
Proof.
  intros Ha. unfold slice. rewrite blen_app.
  replace (0 <=? a - blen l) with true by (symmetry; apply Z.leb_le; lia).
  replace (0 <=? a) with true by (symmetry; apply Z.leb_le; pose proof (blen_nonneg l); lia).
  replace (a - blen l <=? b - blen l) with (a <=? b) by
    (destruct (Z.leb_spec a b), (Z.leb_spec (a - blen l) (b - blen l)); lia).
  replace (b - blen l <=? blen k) with (b <=? blen l + blen k) by
    (destruct (Z.leb_spec b (blen l + blen k)), (Z.leb_spec (b - blen l) (blen k)); lia).
  destruct (_ && _); [|done]. do 2 f_equal; [lia|].
  rewrite drop_app_ge by (unfold blen in *; lia).
  f_equal. unfold blen in *. lia.
Qed.

Lemma slice_cons x k a b :
  1 ≤ a → slice (E:=E) (x :: k) a b = slice k (a - 1) (b - 1).
Proof. intros. apply (slice_skip [x] k a b). done. Qed.

(** A slice that is a known prefix. *)
Lemma slice_here l k a b :
  a = 0 → b = blen l → slice (E:=E) (l ++ k) a b = Ok l.
Proof.
  intros -> ->. rewrite slice_in_range; rewrite ?blen_app;
    [|pose proof (blen_nonneg l); lia|pose proof (blen_nonneg k); lia].
  rewrite drop_0, Z.sub_0_r. unfold blen. by rewrite Nat2Z.id, take_app_length.
Qed.

Lemma slice_all l a b : a = 0 → b = blen l → slice (E:=E) l a b = Ok l.
Proof. intros -> ->. rewrite <-(app_nil_r l) at 1. by apply slice_here. Qed.

(** Consecutive slices make up a prefix. *)
Lemma take_slice l a b p s :
  take (Z.to_nat a) l = p → slice (E:=E) l a b = Ok s →
  take (Z.to_nat b) l = p ++ s.
Proof.
  intros <- (?&?&->)%slice_Ok.
  replace (Z.to_nat b) with (Z.to_nat a + Z.to_nat (b - a))%nat by lia.
  rewrite <-(take_drop (Z.to_nat a) l) at 1.
  assert (length (take (Z.to_nat a) l) = Z.to_nat a) as Hl.
  { rewrite length_take. unfold blen in *. lia. }
  rewrite take_app_ge by lia. f_equal. f_equal. lia.
Qed.
End slices.

Lemma byte_at_skip {E} (l k : bytes) i :
  blen l ≤ i → byte_at (E:=E) (l ++ k) i = byte_at k (i - blen l).
Proof.
  intros. unfold byte_at. rewrite lookup_app_r by (unfold blen in *; lia).
  by replace (Z.to_nat i - length l)%nat with (Z.to_nat (i - blen l))
    by (unfold blen in *; lia).
Qed.

Lemma byte_at_here {E} b (k : bytes) i : i = 0 → byte_at (E:=E) (b :: k) i = Ok b.
Proof. by intros ->. Qed.

Lemma le_at_cons {E} n x (k : bytes) i :
  1 ≤ i → le_at (E:=E) n (x :: k) i = le_at n k (i - 1).
Proof.
  intros. unfold le_at. rewrite slice_cons by done. do 2 f_equal. lia.
Qed.

Lemma byte_at_Ok {E} (l : bytes) i b :
  0 ≤ i → byte_at (E:=E) l i = Ok b → i < blen l ∧ slice (E:=E) l i (i + 1) = Ok [b].
Proof.
  unfold byte_at. intros Hi. case_match eqn:Hb; intros [= ->].
  pose proof (lookup_lt_Some _ _ _ Hb). split; [unfold blen; lia|].
  rewrite slice_in_range by (unfold blen; lia).
  replace (Z.to_nat (i + 1 - i)) with 1%nat by lia.
  by rewrite (drop_S _ _ _ Hb).
Qed.

Lemma byte_at_not_panic {E} (l : bytes) i :
  0 ≤ i < blen l → byte_at (E:=E) l i ≠ Panic.
Proof.
  intros. unfold byte_at. case_match eqn:Hb; [done|].
  apply lookup_ge_None in Hb. unfold blen in *. lia.
Qed.

Lemma le_at_Ok {E} n (buf : bytes) i z :
  le_at (E:=E) n buf i = Ok z ↔ ∃ bs, slice (E:=E) buf i (i + n) = Ok bs ∧ z = le_decode bs.
Proof.
  unfold le_at. rewrite bind_Ok. split.
  - intros (bs&?&[= <-]). eauto.
  - intros (bs&?&->). eauto.
Qed.

Lemma le_at_not_panic {E} n (buf : bytes) i :
  0 ≤ i → 0 ≤ n → i + n ≤ blen buf → le_at (E:=E) n buf i ≠ Panic.
Proof. intros. unfold le_at. rewrite slice_in_range by lia. done. Qed.

Lemma le_at_not_err {E} n (buf : bytes) i e : le_at (E:=E) n buf i ≠ Err e.
Proof. unfold le_at. intros [?%slice_not_err|(?&?&?)]%bind_Err; done. Qed.

Lemma le_at_skip {E} n (l k : bytes) i :
  blen l ≤ i → le_at (E:=E) n (l ++ k) i = le_at n k (i - blen l).
Proof.
  intros. unfold le_at. rewrite slice_skip by done. do 2 f_equal. lia.
Qed.

Lemma le_at_here {E} n (k : nat) z (l : bytes) i :
  i = 0 → n = Z.of_nat k → 0 ≤ z < 2 ^ (8 * n) →
  le_at (E:=E) n (le_encode k z ++ l) i = Ok z.
Proof.
  intros -> -> ?. unfold le_at. rewrite slice_here by (done || by rewrite blen_le_encode).
  simpl. by rewrite le_decode_encode.
Qed.

(** A buffer whose first [b] bytes are [p]. *)
Lemma take_le_at {E} (n : nat) (buf : bytes) a p z :
  take (Z.to_nat a) buf = p → le_at (E:=E) (Z.of_nat n) buf a = Ok z →
  take (Z.to_nat (a + Z.of_nat n)) buf = p ++ le_encode n z.
Proof.
  intros Hp (bs&Hs&->)%le_at_Ok. rewrite le_encode_decode'; [by eapply take_slice|].
  apply slice_blen in Hs. lia.
Qed.

Lemma le_at_range {E} n (buf : bytes) i z :
  0 ≤ n → le_at (E:=E) n buf i = Ok z → 0 ≤ z < 2 ^ (8 * n).
Proof.
  intros Hn (bs&Hs%slice_blen&->)%le_at_Ok.
  replace n with (blen bs) by lia. apply le_decode_range.
Qed.

Lemma take_byte_at {E} (buf : bytes) a p b :
  0 ≤ a → take (Z.to_nat a) buf = p → byte_at (E:=E) buf a = Ok b →
  take (Z.to_nat (a + 1)) buf = p ++ [b].
Proof. intros Ha Hp [? Hs]%byte_at_Ok; [|done]. by eapply take_slice. Qed.

(** ** UTF-8

    [std::str::from_utf8]: the well-formed sequences of the Unicode standard
    (no overlong form, no surrogate, nothing above U+10FFFF). A Rust [String]
    is its bytes; [utf8_valid] is the invariant of the type. *)

Definition in_range (lo hi : Z) (b : byte) : bool :=
  (lo <=? byte_to_Z b) && (byte_to_Z b <=? hi).
Definition is_cont : byte → bool := in_range 0x80 0xBF.

Fixpoint utf8_valid (l : bytes) : bool :=
  match l with
  | [] => true
  | b0 :: l0 =>
    if in_range 0 0x7F b0 then utf8_valid l0 else
    match l0 with
    | [] => false
    | b1 :: l1 =>
      if in_range 0xC2 0xDF b0 then is_cont b1 && utf8_valid l1 else
      match l1 with
      | [] => false
      | b2 :: l2 =>
        if in_range 0xE0 0xEF b0 then
          (if in_range 0xE0 0xE0 b0 then in_range 0xA0 0xBF b1
           else if in_range 0xED 0xED b0 then in_range 0x80 0x9F b1
           else is_cont b1) && is_cont b2 && utf8_valid l2
        else
        match l2 with
        | [] => false
        | b3 :: l3 =>
          in_range 0xF0 0xF4 b0 &&
          (if in_range 0xF0 0xF0 b0 then in_range 0x90 0xBF b1
           else if in_range 0xF4 0xF4 b0 then in_range 0x80 0x8F b1
           else is_cont b1) && is_cont b2 && is_cont b3 && utf8_valid l3
        end
      end
    end
  end.

Definition from_utf8 {E} (e : E) (l : bytes) : outcome E bytes :=
  if utf8_valid l then Ok l else Err e.

Lemma from_utf8_Ok {E} (e : E) l s : from_utf8 e l = Ok s ↔ s = l ∧ utf8_valid l = true.
Proof. unfold from_utf8. case_match; naive_solver. Qed.

Lemma from_utf8_valid {E} (e : E) l : utf8_valid l = true → from_utf8 e l = Ok l.
Proof. unfold from_utf8. by intros ->. Qed.

Lemma utf8_valid_ascii b l : in_range 0 0x7F b = true → utf8_valid (b :: l) = utf8_valid l.
Proof. intros H. cbn [utf8_valid]. by rewrite H. Qed.

Lemma utf8_valid_app l k : utf8_valid l = true → utf8_valid (l ++ k) = utf8_valid k.
Proof.
  assert (∀ n l, (length l ≤ n)%nat → utf8_valid l = true → utf8_valid (l ++ k) = utf8_valid k) as Hn;
    [|by apply (Hn (length l))].
  clear l. induction n as [|n IH]; intros [|b0 l0] Hl; cbn [length] in Hl; try done; [lia|].
  cbn [utf8_valid app]. destruct (in_range 0 0x7F b0); [apply IH; lia|].
  destruct l0 as [|b1 l1]; [done|]. cbn [app length] in *.
  destruct (in_range 0xC2 0xDF b0); [intros [-> H]%andb_prop; apply IH; [lia|done]|].
  destruct l1 as [|b2 l2]; [done|]. cbn [app length] in *.
  destruct (in_range 0xE0 0xEF b0); [intros [-> H]%andb_prop; apply IH; [lia|done]|].
  destruct l2 as [|b3 l3]; [done|]. cbn [app length] in *.
  intros [-> H]%andb_prop. apply IH; [lia|done].
Qed.

(** A string literal as the bytes of a Rust [String]. *)
Definition str (s : string) : bytes := String.list_byte_of_string s.

(** ** Arrays [[u8; n]] *)

Definition zeros (n : nat) : bytes := replicate n x00.
Abbreviation zero16 := (zeros 16).
Abbreviation zero32 := (zeros 32).

Definition is_array (n : Z) (l : bytes) : Prop := blen l = n.
#[global] Instance is_array_dec n l : Decision (is_array n l).
Proof. unfold is_array. apply _. Defined.

(** ** Digests

    The crates [blake3] and [crc32c] are parameters. An incremental
    [blake3::Hasher] is the bytes it has absorbed. *)

Class Digests := {
  blake3 : bytes → bytes;
  blake3_derive_key : bytes → bytes → bytes;
  crc32c : bytes → Z;
}.

(** What the crates document: the width of each digest. *)
Class DigestLaws `{Digests} : Prop := {
  blake3_length : ∀ m, blen (blake3 m) = 32;
  blake3_derive_key_length : ∀ c m, blen (blake3_derive_key c m) = 32;
  crc32c_u32 : ∀ m, is_u32 (crc32c m);
}.

(** A concrete instance, for evaluating the definitions: a polynomial
    checksum in place of each digest. *)
Definition toy_fold (p q : Z) (m : bytes) : Z :=
  fold_left (λ h b, (h * p + byte_to_Z b + 1) mod q) m 7.

Definition toy_digests : Digests := {|
  blake3 := λ m, le_encode 32 (toy_fold 1000003 (2 ^ 256) m);
  blake3_derive_key := λ c m, le_encode 32 (toy_fold 1000003 (2 ^ 256) (c ++ m));
  crc32c := toy_fold 31 (2 ^ 32);
|}.

Lemma toy_digest_laws : @DigestLaws toy_digests.
Proof.
  split; intros.
  - apply (blen_le_encode 32).
  - apply (blen_le_encode 32).
  - change (is_u32 (toy_fold 31 (2 ^ 32) m)). unfold in_u, toy_fold.
    assert (∀ h, 0 ≤ h < 2 ^ 32 → 0 ≤ fold_left (λ h b, (h * 31 + byte_to_Z b + 1) mod 2 ^ 32) m h < 2 ^ 32) as Hi; [|by apply Hi].
    induction m as [|b m IH]; simpl; intros h ?; [done|].
    apply IH. by apply Z.mod_pos_bound.
Qed.

(** ** Automation *)

(** Lengths are not negative. *)
Ltac learn_lengths :=
  repeat match goal with
  | |- context [blen ?l] =>
      lazymatch goal with
      | _ : 0 ≤ blen l |- _ => fail
      | _ => pose proof (blen_nonneg l)
      end
  | H : context [blen ?l] |- _ =>
      lazymatch goal with
      | _ : 0 ≤ blen l |- _ => fail
      | _ => pose proof (blen_nonneg l)
      end
  end.

(** Turn Boolean tests into propositions and reduce lengths, then [lia]. *)
Ltac len :=
  autorewrite with blen in *; learn_lengths;
  unfold in_u, is_array, u32_max, usize_max, isize_max in *; lia.

(** Take an equation [m = Ok _] apart: binds, early returns, matches. *)
Ltac ok_step :=
  match goal with
  | H : Ok _ = Ok _ |- _ => injection H; clear H; intros; subst
  | H : mret _ = Ok _ |- _ => injection H; clear H; intros; subst
  | H : Err _ = Ok _ |- _ => discriminate H
  | H : Panic = Ok _ |- _ => discriminate H
  | H : (_ ≫= _) = Ok _ |- _ =>
      let x := fresh "x" in let Hx := fresh "Hx" in
      apply bind_Ok in H; destruct H as (x & Hx & H); cbv beta in H
  | H : map_err _ _ = Ok _ |- _ => apply map_err_Ok in H
  | H : (_ ≫= _) = Some _ |- _ =>
      let x := fresh "x" in let Hx := fresh "Hx" in
      apply bind_Some in H; destruct H as (x & Hx & H); cbv beta in H
  | H : Some _ = Some _ |- _ => injection H; clear H; intros; subst
  | H : None = Some _ |- _ => discriminate H
  | H : uadd _ _ = Ok _ |- _ => apply uadd_Ok in H; destruct H as [-> H]
  | H : checked_add _ _ = Some _ |- _ => apply checked_add_Some in H; destruct H as [-> H]
  | H : u32_try_from _ = Some _ |- _ => apply u32_try_from_Some in H; destruct H as [-> H]
  | H : ok_or _ _ = Ok _ |- _ => unfold ok_or in H
  | H : from_utf8 _ _ = Ok _ |- _ =>
      let Hu := fresh "Hutf8" in apply from_utf8_Ok in H; destruct H as [-> Hu]
  | H : (let (_, _) := ?x in _) = Ok _ |- _ => destruct x as [??] eqn:?
  | H : (if ?c then _ else _) = Ok _ |- _ => destruct c eqn:?; try discriminate H
  | H : match ?x with _ => _ end = Ok _ |- _ => destruct x eqn:?; try discriminate H
  end.
Ltac ok_inv := repeat ok_step.

(** Ranges of the integers read so far. *)
Ltac learn_ranges :=
  repeat match goal with
  | H : le_at ?n ?buf ?i = Ok ?z |- _ =>
      lazymatch goal with
      | _ : 0 ≤ z < _ |- _ => fail
      | _ => pose proof (le_at_range n buf i z ltac:(lia) H)
      end
  | H : slice ?buf ?a ?b = Ok ?s |- _ =>
      lazymatch goal with
      | _ : blen s = _ |- _ => fail
      | _ => pose proof (slice_blen buf a b s H)
      end
  end.

(** No indexing, slicing or addition of the goal can panic. *)
Ltac no_panic_step :=
  match goal with
  | |- Ok _ ≠ Panic => discriminate
  | |- Err _ ≠ Panic => discriminate
  | |- mret _ ≠ Panic => discriminate
  | |- (_ ≫= _) ≠ Panic => apply bind_not_panic; [|intros; ok_inv]
  | |- map_err _ _ ≠ Panic => apply map_err_not_panic
  | |- slice _ _ _ ≠ Panic => apply slice_not_panic; learn_ranges; len
  | |- slice_from _ _ ≠ Panic => apply slice_not_panic; learn_ranges; len
  | |- byte_at _ _ ≠ Panic => apply byte_at_not_panic; learn_ranges; len
  | |- le_at _ _ _ ≠ Panic => apply le_at_not_panic; learn_ranges; len
  | |- uadd _ _ ≠ Panic => learn_ranges; rewrite uadd_ok by len; discriminate
  | |- from_utf8 _ _ ≠ Panic => unfold from_utf8
  | |- ok_or _ _ ≠ Panic => unfold ok_or
  | |- (let (_, _) := ?x in _) ≠ Panic => destruct x eqn:?
  | |- (if ?c then _ else _) ≠ Panic => destruct c eqn:?
  | |- match ?x with _ => _ end ≠ Panic => destruct x eqn:?
  end.
Ltac no_panic := repeat no_panic_step; auto with pardosa.

(** Evaluate reads of a buffer written as a concatenation. *)
Ltac read_step :=
  match goal with
  | |- context [slice (?l ++ ?k) ?a ?b] =>
      first [ rewrite (slice_here l k a b) by len
            | rewrite (slice_skip l k a b) by len
            | rewrite (slice_all (l ++ k) a b) by len ]
  | |- context [slice (?x :: ?k) ?a ?b] => rewrite (slice_cons x k a b) by len
  | |- context [le_at ?n (?x :: ?k) ?i] => rewrite (le_at_cons n x k i) by len
  | |- context [slice ?l ?a ?b] => rewrite (slice_all l a b) by len
  | |- context [le_at ?n (le_encode ?w ?z ++ ?l) ?i] =>
      rewrite (le_at_here n w z l i) by (first [reflexivity | len])
  | |- context [le_at ?n (?l ++ ?k) ?i] => rewrite (le_at_skip n l k i) by len
  | |- context [byte_at (?b :: ?k) ?i] => rewrite (byte_at_here b k i) by len
  | |- context [byte_at (?l ++ ?k) ?i] => rewrite (byte_at_skip l k i) by len
  end.
(** Put the reads of a buffer, in the order of their offsets, together again. *)
Ltac gather_start buf := pose proof (take_0 buf : take (Z.to_nat 0) buf = []).
Ltac gather_step :=
  match goal with
  | T : take (Z.to_nat ?a) ?buf = ?p, H : slice ?buf ?a ?b = Ok ?s |- _ =>
      apply (take_slice buf a b p s T) in H; clear T
  | T : take (Z.to_nat ?a) ?buf = ?p, H : byte_at ?buf ?a = Ok ?b |- _ =>
      apply (take_byte_at buf a p b ltac:(lia) T) in H; clear T;
      let c := eval cbv in (a + 1) in change (a + 1) with c in H
  | T : take (Z.to_nat ?a) ?buf = ?p, H : le_at ?n ?buf ?a = Ok ?z |- _ =>
      let k := eval cbv in (Z.to_nat n) in
      apply (take_le_at k buf a p z T) in H; clear T;
      let c := eval cbv in (a + n) in change (a + Z.of_nat k) with c in H
  end.
Ltac gather buf := gather_start buf; repeat gather_step.

(** Use the prefix that [gather] has put together. *)
Ltac gathered buf :=
  match goal with T : take _ buf = _ |- _ => rewrite T end.

(** A buffer read in full. *)
Lemma take_full {A} (l p : list A) n : blen l ≤ n → take (Z.to_nat n) l = p → l = p.
Proof. intros Hl <-. symmetry. apply firstn_all2. unfold blen in *. lia. Qed.
Ltac gathered_all buf :=
  match goal with T : take _ buf = _ |- _ => apply take_full in T; [|len] end.

Ltac test_step :=
  match goal with
  | |- context [if ?c then _ else _] =>
      first [ let H := fresh in assert (c = false) as H by len; rewrite H; clear H
            | let H := fresh in assert (c = true) as H by len; rewrite H; clear H ]
  | |- context [uadd ?a ?b] => rewrite (uadd_ok a b) by len
  | |- context [checked_add ?a ?b] => rewrite (checked_add_ok a b) by len
  | |- context [u32_try_from ?z] => rewrite (u32_try_from_ok z) by len
  end.
Ltac run_step :=
  first [ progress (rewrite from_utf8_valid by assumption)
        | progress cbn [mbind outcome_bind option_bind option_ret mret outcome_ret fmap outcome_fmap map_err ok_or]
        | read_step | test_step ].
Ltac run := repeat run_step.

(** Conjunctions of ranges, lengths and hypotheses. *)
Ltac solve_wf := repeat split; first [done | len | idtac].
