(* ===== verification/Wire.v ===== *)
(** * Wire values: [src/crates/pardosa/src/encoding.rs]

    The error vocabulary of the codecs and the bounded wire values
    ([EventString], [NonEmptyEventString], [EventBytes], [EventVec],
    [Timestamp], [Uuid]). The constructor [T::C] of a Rust type is written
    [T_C], the method [T::m] is written [T_m]. The const parameter [MAX] of a
    bounded type is the first argument of its operations. *)

From S2P Require Export Prelude.

(** ** Errors *)

Inductive ValueConstraint :=
  | ValueConstraint_TooLong
  | ValueConstraint_Empty
  | ValueConstraint_NotReal
  | ValueConstraint_InvalidChar
  | ValueConstraint_InvalidUtf8.

#[export] Instance ValueConstraint_eq_dec : EqDecision ValueConstraint.
Proof. solve_decision. Defined.

Inductive DecodeError :=
  | DecodeError_InvalidMagic
  | DecodeError_UnsupportedFormatVersion (version : Z)
  | DecodeError_ChecksumMismatch (computed recorded : Z)
  | DecodeError_TruncatedPayload (expected available : Z)
  | DecodeError_TruncatedHeader (expected available : Z)
  | DecodeError_InvalidBooleanDiscriminant (value : byte)
  | DecodeError_InvalidBoolean (value : byte)
  | DecodeError_LengthExceeded (length max : Z)
  | DecodeError_EmptyNonEmptyString
  | DecodeError_InvalidUtf8
  | DecodeError_ItemCountExceeded (count max : Z)
  | DecodeError_InvalidOptionTag (tag : byte)
  | DecodeError_UnknownVariantDiscriminant (discriminant : Z)
  | DecodeError_InvalidTimestampSentinel
  | DecodeError_UnknownRecordTag (tag : byte)
  | DecodeError_UnknownConstructorTag (tag : byte)
  | DecodeError_UnknownPartitioningRuleTag (tag : byte)
  | DecodeError_InvalidMigrationStatus (status : byte)
  | DecodeError_InvalidRescuePolicy (tag : byte)
  | DecodeError_InvalidDiscriminantWidth (width : byte)
  | DecodeError_CycleDetected (type_name : bytes)
  | DecodeError_UnterminatedDescriptor
  | DecodeError_ValueConstraintViolated (constraint : ValueConstraint)
  | DecodeError_Custom (message : bytes).

#[export] Instance DecodeError_eq_dec : EqDecision DecodeError.
Proof. solve_decision. Defined.

Definition DecodeError_error_kind (e : DecodeError) : string :=
  match e with
  | DecodeError_InvalidMagic => "InvalidMagic"
  | DecodeError_UnsupportedFormatVersion _ => "UnsupportedFormatVersion"
  | DecodeError_ChecksumMismatch _ _ => "ChecksumMismatch"
  | DecodeError_TruncatedPayload _ _ => "TruncatedPayload"
  | DecodeError_TruncatedHeader _ _ => "TruncatedHeader"
  | DecodeError_InvalidBooleanDiscriminant _ => "InvalidBooleanDiscriminant"
  | DecodeError_InvalidBoolean _ => "InvalidBoolean"
  | DecodeError_LengthExceeded _ _ => "LengthExceeded"
  | DecodeError_EmptyNonEmptyString => "EmptyNonEmptyString"
  | DecodeError_InvalidUtf8 => "InvalidUtf8"
  | DecodeError_ItemCountExceeded _ _ => "ItemCountExceeded"
  | DecodeError_InvalidOptionTag _ => "InvalidOptionTag"
  | DecodeError_UnknownVariantDiscriminant _ => "UnknownVariantDiscriminant"
  | DecodeError_InvalidTimestampSentinel => "InvalidTimestampSentinel"
  | DecodeError_UnknownRecordTag _ => "UnknownRecordTag"
  | DecodeError_UnknownConstructorTag _ => "UnknownConstructorTag"
  | DecodeError_UnknownPartitioningRuleTag _ => "UnknownPartitioningRuleTag"
  | DecodeError_InvalidMigrationStatus _ => "InvalidMigrationStatus"
  | DecodeError_InvalidRescuePolicy _ => "InvalidRescuePolicy"
  | DecodeError_InvalidDiscriminantWidth _ => "InvalidDiscriminantWidth"
  | DecodeError_CycleDetected _ => "CycleDetected"
  | DecodeError_UnterminatedDescriptor => "UnterminatedDescriptor"
  | DecodeError_ValueConstraintViolated c =>
      match c with
      | ValueConstraint_TooLong => "LengthExceeded"
      | ValueConstraint_Empty => "EmptyNonEmptyString"
      | ValueConstraint_NotReal => "NotReal"
      | ValueConstraint_InvalidChar => "InvalidChar"
      | ValueConstraint_InvalidUtf8 => "InvalidUtf8"
      end
  | DecodeError_Custom _ => "Custom"
  end.

Inductive EncodeError :=
  | EncodeError_LengthExceeded (length max : Z)
  | EncodeError_EmptyNonEmptyString
  | EncodeError_InvalidTimestampSentinel
  | EncodeError_ItemCountExceeded (count max : Z)
  | EncodeError_DepthExceeded (depth max : Z)
  | EncodeError_ChecksumMismatch (computed recorded : Z)
  | EncodeError_Custom (message : bytes).

#[export] Instance EncodeError_eq_dec : EqDecision EncodeError.
Proof. solve_decision. Defined.

Abbreviation too_long := (DecodeError_ValueConstraintViolated ValueConstraint_TooLong).

(** A wire value is decoded from the head of a buffer, and comes with the
    number of bytes consumed. *)
Abbreviation decoder A := (bytes → outcome DecodeError (A * Z)).

(** ** Length-prefixed text and bytes *)

(** The cast [as u32]. *)
Definition as_u32 (z : Z) : Z := z mod 2 ^ 32.

Definition EventString_new (MAX : Z) (s : bytes) : outcome DecodeError bytes :=
  if u32_max <? MAX then Err too_long else
  if MAX <? blen s then Err (DecodeError_LengthExceeded (blen s) MAX) else
  Ok s.

Definition EventString_encode (s : bytes) (buf : bytes) : bytes :=
  buf ++ u32_le (as_u32 (blen s)) ++ s.

Definition EventString_decode (MAX : Z) : decoder bytes := λ buf,
  if u32_max <? MAX then Err too_long else
  if blen buf <? 4 then Err (DecodeError_TruncatedPayload 4 (blen buf)) else
  len ← u32_at buf 0;
  if MAX <? len then Err (DecodeError_LengthExceeded len MAX) else
  total ← uadd 4 len;
  if blen buf <? total then Err (DecodeError_TruncatedPayload total (blen buf)) else
  body ← slice buf 4 total;
  s ← from_utf8 DecodeError_InvalidUtf8 body;
  Ok (s, total).

Definition NonEmptyEventString_new (MAX : Z) (s : bytes) : outcome DecodeError bytes :=
  if u32_max <? MAX then Err too_long else
  if is_empty s then Err DecodeError_EmptyNonEmptyString else
  if MAX <? blen s then Err (DecodeError_LengthExceeded (blen s) MAX) else
  Ok s.

Definition NonEmptyEventString_encode (s : bytes) (buf : bytes) : bytes :=
  buf ++ u32_le (as_u32 (blen s)) ++ s.

Definition NonEmptyEventString_decode (MAX : Z) : decoder bytes := λ buf,
  if u32_max <? MAX then Err too_long else
  if blen buf <? 4 then Err (DecodeError_TruncatedPayload 4 (blen buf)) else
  len ← u32_at buf 0;
  if len =? 0 then Err DecodeError_EmptyNonEmptyString else
  if MAX <? len then Err (DecodeError_LengthExceeded len MAX) else
  total ← uadd 4 len;
  if blen buf <? total then Err (DecodeError_TruncatedPayload total (blen buf)) else
  body ← slice buf 4 total;
  s ← from_utf8 DecodeError_InvalidUtf8 body;
  Ok (s, total).

Definition EventBytes_new (MAX : Z) (b : bytes) : outcome DecodeError bytes :=
  if u32_max <? MAX then Err too_long else
  if MAX <? blen b then Err (DecodeError_LengthExceeded (blen b) MAX) else
  Ok b.

Definition EventBytes_encode (b : bytes) (buf : bytes) : bytes :=
  buf ++ u32_le (as_u32 (blen b)) ++ b.

Definition EventBytes_decode (MAX : Z) : decoder bytes := λ buf,
  if u32_max <? MAX then Err too_long else
  if blen buf <? 4 then Err (DecodeError_TruncatedPayload 4 (blen buf)) else
  len ← u32_at buf 0;
  if MAX <? len then Err (DecodeError_LengthExceeded len MAX) else
  total ← uadd 4 len;
  if blen buf <? total then Err (DecodeError_TruncatedPayload total (blen buf)) else
  body ← slice buf 4 total;
  Ok (body, total).

Definition EventVec_new {T} (MAX : Z) (items : list T) : outcome DecodeError (list T) :=
  if u32_max <? MAX then Err too_long else
  if MAX <? blen items then Err (DecodeError_ItemCountExceeded (blen items) MAX) else
  Ok items.

(** ** Timestamps and UUIDs *)

Definition Timestamp_new (nanos : Z) : outcome DecodeError Z :=
  if nanos =? 0 then Err DecodeError_InvalidTimestampSentinel else Ok nanos.

Definition Timestamp_encode (t : Z) (buf : bytes) : bytes := buf ++ u64_le t.

Definition Timestamp_decode : decoder Z := λ buf,
  if blen buf <? 8 then Err (DecodeError_TruncatedPayload 8 (blen buf)) else
  nanos ← u64_at buf 0;
  if nanos =? 0 then Err DecodeError_InvalidTimestampSentinel else
  Ok (nanos, 8).

Definition Uuid_encode (u : bytes) (buf : bytes) : bytes := buf ++ u.

Definition Uuid_decode : decoder bytes := λ buf,
  if blen buf <? 16 then Err (DecodeError_TruncatedPayload 16 (blen buf)) else
  b ← slice buf 0 16;
  Ok (b, 16).

(** ** The decode cursor *)

Definition checked_advance (cursor consumed total_len : Z) : outcome DecodeError Z :=
  next_cursor ← ok_or (checked_add cursor consumed)
                  (DecodeError_TruncatedPayload usize_max total_len);
  if total_len <? next_cursor
  then Err (DecodeError_TruncatedPayload next_cursor total_len)
  else Ok next_cursor.

(** ** The type invariants *)

Definition EventString_wf (MAX : Z) (s : bytes) : Prop :=
  MAX ≤ u32_max ∧ blen s ≤ MAX ∧ utf8_valid s = true.
Definition NonEmptyEventString_wf (MAX : Z) (s : bytes) : Prop :=
  EventString_wf MAX s ∧ s ≠ [].
Definition EventBytes_wf (MAX : Z) (b : bytes) : Prop :=
  MAX ≤ u32_max ∧ blen b ≤ MAX.
Definition Timestamp_wf (t : Z) : Prop := is_u64 t ∧ t ≠ 0.

(** ** Laws of a wire format

    [complete]: a value read back from its image followed by anything.
    [sound]: whatever is accepted is the image of the value returned, so no
    two buffers decode to the same value. [total]: no input panics. *)

Record codec_laws {A} (wf : A → Prop) (enc : A → bytes) (dec : decoder A) : Prop := {
  codec_complete : ∀ a rest, wf a →
    dec (enc a ++ rest) = Ok (a, blen (enc a));
  codec_sound : ∀ buf a n, dec buf = Ok (a, n) →
    wf a ∧ 0 ≤ n ≤ blen buf ∧ take (Z.to_nat n) buf = enc a;
  codec_total : ∀ buf, blen buf ≤ isize_max → dec buf ≠ Panic;
}.
Arguments codec_complete {A wf enc dec}.
Arguments codec_sound {A wf enc dec}.
Arguments codec_total {A wf enc dec}.

Section codec_laws.
Context {A : Type} {wf : A → Prop} {enc : A → bytes} {dec : decoder A}.
Context (L : codec_laws wf enc dec).

(** Two well-formed values with the same image are equal. *)
Lemma codec_inj a b : wf a → wf b → enc a = enc b → a = b.
Proof.
  intros Ha Hb Hab. pose proof (codec_complete L a [] Ha) as H1.
  rewrite Hab, (codec_complete L b [] Hb) in H1. congruence.
Qed.

(** Images are prefix-free: concatenations parse in one way. *)
Lemma codec_prefix_free a b r s :
  wf a → wf b → enc a ++ r = enc b ++ s → a = b ∧ r = s.
Proof.
  intros Ha Hb Hab. pose proof (codec_complete L a r Ha) as H1.
  rewrite Hab, (codec_complete L b s Hb) in H1. injection H1 as -> _.
  split; [done|]. by apply app_inv_head in Hab.
Qed.

Lemma codec_consumed buf a n : dec buf = Ok (a, n) → n = blen (enc a).
Proof.
  intros (Hw&Hn&He)%(codec_sound L). rewrite <-He. unfold blen in *.
  rewrite length_take. lia.
Qed.
End codec_laws.

Lemma as_u32_id z : 0 ≤ z ≤ u32_max → as_u32 z = z.
Proof. intros. unfold as_u32. apply Z.mod_small. unfold u32_max in *. lia. Qed.

Lemma blen_take {A} (l : list A) n : 0 ≤ n ≤ blen l → blen (take (Z.to_nat n) l) = n.
Proof. intros. unfold blen in *. rewrite length_take. lia. Qed.

(** The common shape of the length-prefixed decoders. *)
Lemma prefixed_sound buf len body :
  le_at (E:=DecodeError) 4 buf 0 = Ok len →
  slice (E:=DecodeError) buf 4 (4 + len) = Ok body →
  take (Z.to_nat (4 + len)) buf = u32_le (as_u32 (blen body)) ++ body ∧ blen body = len.
Proof.
  intros Hl Hb. learn_ranges. assert (blen body = len) as Hlen by lia.
  split; [|done]. rewrite Hlen, as_u32_id by (unfold u32_max; lia).
  eapply take_slice; [|done]. by apply (take_le_at (E:=DecodeError) 4 buf 0 []).
Qed.

Ltac prefixed :=
  match goal with
  | Hl : le_at 4 ?buf 0 = Ok ?l, Hb : slice ?buf 4 (4 + ?l) = Ok ?b |- _ =>
      destruct (prefixed_sound buf l b Hl Hb)
  end.

Lemma EventString_codec MAX :
  codec_laws (EventString_wf MAX) (λ s, EventString_encode s []) (EventString_decode MAX).
Proof.
  split.
  - intros s rest (HM&Hs&Hu). unfold EventString_encode, EventString_decode.
    rewrite app_nil_l, as_u32_id, <-!app_assoc by len. run. do 2 f_equal. len.
  - intros buf s n H. unfold EventString_decode in H. ok_inv.
    prefixed.
    unfold EventString_wf, EventString_encode. learn_ranges. solve_wf.
  - intros buf Hb. unfold EventString_decode. no_panic.
Qed.

Lemma NonEmptyEventString_codec MAX :
  codec_laws (NonEmptyEventString_wf MAX)
    (λ s, NonEmptyEventString_encode s []) (NonEmptyEventString_decode MAX).
Proof.
  split.
  - intros s rest ((HM&Hs&Hu)&Hne).
    assert (blen s ≠ 0) by (intros ?%blen_0_nil; done).
    unfold NonEmptyEventString_encode, NonEmptyEventString_decode.
    rewrite app_nil_l, as_u32_id, <-!app_assoc by len. run. do 2 f_equal. len.
  - intros buf s n H. unfold NonEmptyEventString_decode in H. ok_inv.
    prefixed.
    unfold NonEmptyEventString_wf, EventString_wf, NonEmptyEventString_encode.
    learn_ranges. solve_wf.
    intros ->. rewrite blen_nil in *. lia.
  - intros buf Hb. unfold NonEmptyEventString_decode. no_panic.
Qed.

Lemma EventBytes_codec MAX :
  codec_laws (EventBytes_wf MAX) (λ s, EventBytes_encode s []) (EventBytes_decode MAX).
Proof.
  split.
  - intros s rest (HM&Hs). unfold EventBytes_encode, EventBytes_decode.
    rewrite app_nil_l, as_u32_id, <-!app_assoc by len. run. do 2 f_equal. len.
  - intros buf s n H. unfold EventBytes_decode in H. ok_inv.
    prefixed.
    unfold EventBytes_wf, EventBytes_encode. learn_ranges. solve_wf.
  - intros buf Hb. unfold EventBytes_decode. no_panic.
Qed.

Lemma Timestamp_codec :
  codec_laws Timestamp_wf (λ t, Timestamp_encode t []) Timestamp_decode.
Proof.
  split.
  - intros t rest [Ht Hn]. unfold Timestamp_encode, Timestamp_decode.
    rewrite app_nil_l. run. done.
  - intros buf t n H. unfold Timestamp_decode in H. ok_inv. learn_ranges.
    unfold Timestamp_wf. solve_wf.
    by apply (take_le_at (E:=DecodeError) 8 buf 0 []).
  - intros buf Hb. unfold Timestamp_decode. no_panic.
Qed.

Lemma Uuid_codec : codec_laws (is_array 16) (λ u, Uuid_encode u []) Uuid_decode.
Proof.
  split.
  - intros u rest Hu. unfold Uuid_encode, Uuid_decode. rewrite app_nil_l. run.
    by rewrite Hu.
  - intros buf u n H. unfold Uuid_decode in H. ok_inv. learn_ranges.
    solve_wf. by eapply (take_slice _ 0).
  - intros buf Hb. unfold Uuid_decode. no_panic.
Qed.

(** The constructors establish the invariants the codecs rely on. *)
Lemma EventString_new_wf MAX s s' :
  utf8_valid s = true → EventString_new MAX s = Ok s' → s' = s ∧ EventString_wf MAX s.
Proof. unfold EventString_new, EventString_wf. intros ? H. ok_inv. split; [done|]. len. Qed.

Lemma checked_advance_Ok cursor consumed total next :
  checked_advance cursor consumed total = Ok next ↔
    next = cursor + consumed ∧ next ≤ total ∧ next ≤ usize_max.
Proof.
  unfold checked_advance. split.
  - intros H. ok_inv. len.
  - intros (->&?&?). rewrite checked_add_ok by lia. simpl.
    by rewrite (proj2 (Z.ltb_ge _ _)) by lia.
Qed.

Lemma checked_advance_not_panic cursor consumed total :
  checked_advance cursor consumed total ≠ Panic.
Proof. unfold checked_advance. no_panic. Qed.
#[export] Hint Resolve checked_advance_not_panic : pardosa.

(** Each bounded wire value has an exact codec, for every bound [MAX] (a
    [u32], as the constructors demand): a value satisfying its type's invariant
    (length bound, UTF-8, non-empty, non-zero timestamp, sixteen-byte uuid) is
    read back from its image followed by any bytes with the image's length as
    the consumed count; conversely every accepted buffer starts with the image
    of the value returned, which satisfies the invariant; and no buffer makes a
    decoder panic. *)
Theorem bounded_value_codecs MAX :
  codec_laws (EventString_wf MAX) (λ s, EventString_encode s []) (EventString_decode MAX) ∧
  codec_laws (NonEmptyEventString_wf MAX) (λ s, NonEmptyEventString_encode s [])
    (NonEmptyEventString_decode MAX) ∧
  codec_laws (EventBytes_wf MAX) (λ b, EventBytes_encode b []) (EventBytes_decode MAX) ∧
  codec_laws Timestamp_wf (λ t, Timestamp_encode t []) Timestamp_decode ∧
  codec_laws (is_array 16) (λ u, Uuid_encode u []) Uuid_decode.
Proof.
  repeat split_and; [apply EventString_codec|apply NonEmptyEventString_codec
    |apply EventBytes_codec|apply Timestamp_codec|apply Uuid_codec].
Qed.
