(* ===== verification/Envelope.v ===== *)
(** * Event envelopes: [src/crates/pardosa/src/encoding.rs]

    The 81-byte header, the envelope with its length-prefixed payload, the
    BLAKE3 commitment that chains envelopes, and the constructors of genesis
    and chained envelopes. *)

From S2P Require Export Wire.

(** ** Data *)

Record EnvelopeHeader := mk_EnvelopeHeader {
  event_id : bytes;        (* [u8; 16] *)
  fiber_id : bytes;        (* [u8; 16] *)
  detached : bool;
  precursor : bytes;       (* [u8; 16] *)
  precursor_hash : bytes;  (* [u8; 32] *)
}.

Record EventEnvelope := mk_EventEnvelope {
  header : EnvelopeHeader;
  payload : bytes;
}.

(** The borrowed view of the same fields. *)
Record EventEnvelopeRef := mk_EventEnvelopeRef {
  ref_header : EnvelopeHeader;
  ref_payload : bytes;
}.

#[export] Instance EnvelopeHeader_eq_dec : EqDecision EnvelopeHeader.
Proof. solve_decision. Defined.
#[export] Instance EventEnvelope_eq_dec : EqDecision EventEnvelope.
Proof. solve_decision. Defined.

Definition EnvelopeHeader_wf (h : EnvelopeHeader) : Prop :=
  is_array 16 (event_id h) ∧ is_array 16 (fiber_id h) ∧
  is_array 16 (precursor h) ∧ is_array 32 (precursor_hash h).
#[export] Instance EnvelopeHeader_wf_dec h : Decision (EnvelopeHeader_wf h).
Proof. unfold EnvelopeHeader_wf. apply _. Defined.

(** ** Header codec *)

(** [u8::from(bool)]. *)
Definition u8_of_bool (b : bool) : byte := if b then x01 else x00.

Definition EnvelopeHeader_decode : decoder EnvelopeHeader := λ buf,
  if blen buf <? 81 then Err (DecodeError_TruncatedHeader 81 (blen buf)) else
  eid ← slice buf 0 16;
  fid ← slice buf 16 32;
  flag ← byte_at buf 32;
  det ← match flag with
        | x00 => Ok false
        | x01 => Ok true
        | val => Err (DecodeError_InvalidBooleanDiscriminant val)
        end;
  pre ← slice buf 33 49;
  pre_hash ← slice buf 49 81;
  Ok (mk_EnvelopeHeader eid fid det pre pre_hash, 81).

Definition EnvelopeHeader_encode (h : EnvelopeHeader) (buf : bytes) : bytes :=
  buf ++ event_id h ++ fiber_id h ++ [u8_of_bool (detached h)] ++
  precursor h ++ precursor_hash h.

(** ** Envelope codec *)

Definition EventEnvelopeRef_decode (buf : bytes) :
    outcome DecodeError (EventEnvelopeRef * Z) :=
  '(h, header_consumed) ← EnvelopeHeader_decode buf;
  prefix ← uadd header_consumed 4;
  if blen buf <? prefix then Err (DecodeError_TruncatedHeader prefix (blen buf)) else
  payload_len ← u32_at buf header_consumed;
  total_consumed ← ok_or (checked_add header_consumed 4 ≫= λ h, checked_add h payload_len)
                     too_long;
  if blen buf <? total_consumed
  then Err (DecodeError_TruncatedPayload total_consumed (blen buf)) else
  p ← slice buf prefix total_consumed;
  Ok (mk_EventEnvelopeRef h p, total_consumed).

Definition EventEnvelopeRef_to_owned (r : EventEnvelopeRef) : EventEnvelope :=
  mk_EventEnvelope (ref_header r) (ref_payload r).

Definition EventEnvelope_decode : decoder EventEnvelope := λ buf,
  '(env_ref, consumed) ← EventEnvelopeRef_decode buf;
  Ok (EventEnvelopeRef_to_owned env_ref, consumed).

Definition envelope_wire_len (payload_len limit : Z) : outcome DecodeError Z :=
  ok_or
    (len ← checked_add payload_len 85;
     len ← (if len <=? limit then Some len else None);
     u32_try_from len)
    too_long.

Record WireEnvelope := mk_WireEnvelope {
  we_envelope : EventEnvelope;
  we_wire_len : Z;
}.

Definition WireEnvelope_bounded (env : EventEnvelope) (limit : Z) :
    outcome DecodeError WireEnvelope :=
  wire_len ← envelope_wire_len (blen (payload env)) limit;
  Ok (mk_WireEnvelope env wire_len).

Definition WireEnvelope_try_from (env : EventEnvelope) : outcome DecodeError WireEnvelope :=
  WireEnvelope_bounded env u32_max.

(** The [u32] subtraction [wire_len - 85] panics below zero. *)
Definition WireEnvelope_encode {E} (w : WireEnvelope) (buf : bytes) : outcome E bytes :=
  if we_wire_len w <? 85 then Panic else
  Ok (EnvelopeHeader_encode (header (we_envelope w)) buf ++
      u32_le (we_wire_len w - 85) ++ payload (we_envelope w)).

(** The result and the buffer afterwards. *)
Definition EventEnvelope_encode_bounded (env : EventEnvelope) (buf : bytes) (limit : Z) :
    outcome DecodeError unit * bytes :=
  match WireEnvelope_bounded env limit with
  | Ok w =>
      match WireEnvelope_encode (E:=DecodeError) w buf with
      | Ok buf' => (Ok (), buf')
      | Err e => (Err e, buf)
      | Panic => (Panic, buf)
      end
  | Err e => (Err e, buf)
  | Panic => (Panic, buf)
  end.

Definition EventEnvelope_encode (env : EventEnvelope) (buf : bytes) :
    outcome DecodeError unit * bytes :=
  EventEnvelope_encode_bounded env buf u32_max.

(** ** Commitments and chaining *)

Section commitments.
Context `{Digests}.

(** The incremental hasher absorbs the fields in this order. *)
Definition commitment_preimage (h : EnvelopeHeader) (p : bytes) : bytes :=
  event_id h ++ fiber_id h ++ [u8_of_bool (detached h)] ++
  precursor h ++ precursor_hash h ++ p.

Definition compute_envelope_commitment (h : EnvelopeHeader) (p : bytes) : bytes :=
  blake3 (commitment_preimage h p).

Definition EventEnvelope_commitment (env : EventEnvelope) : bytes :=
  compute_envelope_commitment (header env) (payload env).

Definition EventEnvelope_genesis (eid fid p : bytes) : outcome DecodeError EventEnvelope :=
  if bool_decide (eid = zero16)
  then Err (DecodeError_ValueConstraintViolated ValueConstraint_Empty) else
  _ ← envelope_wire_len (blen p) u32_max;
  Ok (mk_EventEnvelope (mk_EnvelopeHeader eid fid false zero16 zero32) p).

Definition EventEnvelope_chain (predecessor : EventEnvelope) (eid p : bytes) :
    outcome DecodeError EventEnvelope :=
  if bool_decide (eid = zero16) || bool_decide (event_id (header predecessor) = zero16)
  then Err (DecodeError_ValueConstraintViolated ValueConstraint_Empty) else
  _ ← envelope_wire_len (blen p) u32_max;
  Ok (mk_EventEnvelope
        (mk_EnvelopeHeader eid (fiber_id (header predecessor)) false
           (event_id (header predecessor)) (EventEnvelope_commitment predecessor)) p).

Definition EventEnvelope_chain_detached (predecessor : EventEnvelope) (eid p : bytes) :
    outcome DecodeError EventEnvelope :=
  if bool_decide (eid = zero16) || bool_decide (event_id (header predecessor) = zero16)
  then Err (DecodeError_ValueConstraintViolated ValueConstraint_Empty) else
  _ ← envelope_wire_len (blen p) u32_max;
  Ok (mk_EventEnvelope
        (mk_EnvelopeHeader eid (fiber_id (header predecessor)) true
           (event_id (header predecessor)) (EventEnvelope_commitment predecessor)) p).

Definition EnvelopeIdentity_current : bytes :=
  blake3 (str "PARDOSA_ENVELOPE_V1:event_id:16,fiber_id:16,detached:1,precursor:16,precursor_hash:32,payload_length:4").
End commitments.

(** ** Lemmas *)

Lemma EnvelopeHeader_codec :
  codec_laws EnvelopeHeader_wf (λ h, EnvelopeHeader_encode h []) EnvelopeHeader_decode.
Proof.
  split.
  - intros [eid fid d pre ph] rest (He&Hf&Hp&Hh). simpl in *.
    unfold EnvelopeHeader_encode, EnvelopeHeader_decode. simpl.
    rewrite <-!app_assoc, <-app_comm_cons, <-app_assoc. run.
    destruct d; simpl; run; do 2 f_equal; len.
  - intros buf h n H. unfold EnvelopeHeader_decode in H. ok_inv.
    all: learn_ranges; gather buf; unfold EnvelopeHeader_wf; simpl; solve_wf.
    all: unfold EnvelopeHeader_encode; simpl; by rewrite Hx4, <-!app_assoc.
  - intros buf Hb. unfold EnvelopeHeader_decode. no_panic.
Qed.

Lemma blen_EnvelopeHeader_encode h :
  EnvelopeHeader_wf h → blen (EnvelopeHeader_encode h []) = 81.
Proof. intros (?&?&?&?). unfold EnvelopeHeader_encode. simpl. len. Qed.

Lemma EnvelopeHeader_encode_app h buf :
  EnvelopeHeader_encode h buf = buf ++ EnvelopeHeader_encode h [].
Proof. done. Qed.

(** The wire image of an envelope. *)
Definition envelope_image (env : EventEnvelope) : bytes :=
  EnvelopeHeader_encode (header env) [] ++ u32_le (blen (payload env)) ++ payload env.

(** The invariant of a decoded envelope, and the stronger one of an envelope
    the encoder accepts: the complete wire size fits a [u32]. *)
Definition EventEnvelope_wf (env : EventEnvelope) : Prop :=
  EnvelopeHeader_wf (header env) ∧ blen (payload env) ≤ u32_max.
Definition fits_wire (env : EventEnvelope) : Prop := 85 + blen (payload env) ≤ u32_max.
#[export] Instance EventEnvelope_wf_dec env : Decision (EventEnvelope_wf env).
Proof. unfold EventEnvelope_wf. apply _. Defined.
#[export] Instance fits_wire_dec env : Decision (fits_wire env).
Proof. unfold fits_wire. apply _. Defined.

Lemma blen_envelope_image env :
  EnvelopeHeader_wf (header env) → blen (envelope_image env) = 85 + blen (payload env).
Proof.
  intros Hw. unfold envelope_image. rewrite !blen_app, blen_EnvelopeHeader_encode by done.
  len.
Qed.

Lemma EventEnvelope_codec :
  codec_laws EventEnvelope_wf envelope_image EventEnvelope_decode.
Proof.
  split.
  - intros [h p] rest [Hh Hp]. unfold EventEnvelope_decode, EventEnvelopeRef_decode.
    rewrite blen_envelope_image by done. unfold envelope_image. simpl in *.
    rewrite <-!app_assoc, (codec_complete EnvelopeHeader_codec) by done.
    pose proof (blen_EnvelopeHeader_encode h Hh) as Hl. run.
    unfold EventEnvelopeRef_to_owned. simpl. do 2 f_equal. len.
  - intros buf env n H. unfold EventEnvelope_decode, EventEnvelopeRef_decode in H. ok_inv.
    pose proof (codec_consumed EnvelopeHeader_codec _ _ _ Hx0) as Hn.
    apply (codec_sound EnvelopeHeader_codec) in Hx0 as (Hw&_&T). cbv beta in Hn, T.
    rewrite blen_EnvelopeHeader_encode in Hn by done. subst. ok_inv.
    learn_ranges. gather_step. change (81 + 4) with 85 in *.
    gather_step. unfold EventEnvelope_wf, EventEnvelopeRef_to_owned, envelope_image. simpl.
    replace (blen x2) with x by lia. destruct Hw as (?&?&?&?). solve_wf.
    by rewrite Hx4, <-app_assoc.
  - intros buf Hb. unfold EventEnvelope_decode, EventEnvelopeRef_decode.
    apply bind_not_panic; [|intros [] ?; done].
    apply bind_not_panic; [by apply (codec_total EnvelopeHeader_codec)|].
    intros [h hc] Hd. pose proof (codec_consumed EnvelopeHeader_codec _ _ _ Hd) as ->.
    apply (codec_sound EnvelopeHeader_codec) in Hd as (Hw&_&_). cbv beta.
    rewrite blen_EnvelopeHeader_encode by done. no_panic.
Qed.

Lemma envelope_wire_len_Ok n limit w :
  0 ≤ n → limit ≤ u32_max →
  envelope_wire_len n limit = Ok w ↔ w = n + 85 ∧ n + 85 ≤ limit.
Proof.
  intros Hn Hl. unfold envelope_wire_len. split.
  - intros H. ok_inv. destruct (_ <=? _) eqn:?; ok_inv. lia.
  - intros [-> ?]. run. simpl. run. done.
Qed.

Lemma envelope_wire_len_cases n limit :
  0 ≤ n → limit ≤ u32_max →
  envelope_wire_len n limit = if n + 85 <=? limit then Ok (n + 85) else Err too_long.
Proof.
  intros Hn Hl. destruct (n + 85 <=? limit) eqn:Hc.
  - apply envelope_wire_len_Ok; lia.
  - unfold envelope_wire_len, checked_add. destruct (_ <=? usize_max); [|done].
    simpl. by rewrite Hc.
Qed.

(** The encoder appends the image, or refuses and leaves the buffer alone. *)
Lemma EventEnvelope_encode_spec env buf :
  EventEnvelope_encode env buf =
    if blen (payload env) + 85 <=? u32_max then (Ok (), buf ++ envelope_image env)
    else (Err too_long, buf).
Proof.
  unfold EventEnvelope_encode, EventEnvelope_encode_bounded, WireEnvelope_bounded.
  pose proof (blen_nonneg (payload env)).
  rewrite envelope_wire_len_cases by lia. destruct (_ <=? _) eqn:Hc; [|done]. simpl.
  unfold WireEnvelope_encode. simpl. test_step.
  rewrite EnvelopeHeader_encode_app, <-app_assoc.
  by replace (blen (payload env) + 85 - 85) with (blen (payload env)) by lia.
Qed.

Section commitment_lemmas.
Context `{Digests}.

Lemma commitment_preimage_inj h1 p1 h2 p2 :
  EnvelopeHeader_wf h1 → EnvelopeHeader_wf h2 →
  commitment_preimage h1 p1 = commitment_preimage h2 p2 → h1 = h2 ∧ p1 = p2.
Proof.
  intros H1 H2 Heq. apply (codec_prefix_free EnvelopeHeader_codec); [done..|].
  unfold EnvelopeHeader_encode. rewrite !app_nil_l, <-!app_assoc. exact Heq.
Qed.

Lemma commitment_length `{!DigestLaws} env : is_array 32 (EventEnvelope_commitment env).
Proof. apply blake3_length. Qed.

Lemma EventEnvelope_genesis_Ok eid fid p env :
  EventEnvelope_genesis eid fid p = Ok env ↔
    eid ≠ zero16 ∧ 85 + blen p ≤ u32_max ∧
    env = mk_EventEnvelope (mk_EnvelopeHeader eid fid false zero16 zero32) p.
Proof.
  unfold EventEnvelope_genesis. pose proof (blen_nonneg p).
  rewrite envelope_wire_len_cases by lia. case_bool_decide; [naive_solver|].
  destruct (_ <=? _) eqn:?; simpl; split.
  - intros [= <-]. solve_wf.
  - intros (?&?&->). done.
  - done.
  - intros (?&?&?). lia.
Qed.
End commitment_lemmas.

(** ** Properties *)

(** C27: Writing an envelope and reading it back: the encoder accepts a
    well-formed envelope exactly when its complete wire size (header, length
    prefix and payload) fits a [u32]; it then appends [85 + |payload|] bytes,
    and decoding those bytes followed by anything returns the envelope and
    their number. When it refuses, the buffer it was given is unchanged. *)
Theorem envelope_wire_roundtrip env buf :
  EventEnvelope_wf env →
  if bool_decide (fits_wire env) then
    ∃ w, EventEnvelope_encode env buf = (Ok (), buf ++ w) ∧
      blen w = 85 + blen (payload env) ∧
      ∀ rest, EventEnvelope_decode (w ++ rest) = Ok (env, blen w)
  else EventEnvelope_encode env buf = (Err too_long, buf).
Proof.
  intros Hw. rewrite EventEnvelope_encode_spec. unfold fits_wire.
  case_bool_decide; destruct (blen (payload env) + 85 <=? u32_max) eqn:?; try lia; [|done].
  exists (envelope_image env). split; [done|]. split; [by apply blen_envelope_image, Hw|].
  intros rest. by apply (codec_complete EventEnvelope_codec).
Qed.

(** Decoding an envelope never panics, and what it accepts is canonical:
    the envelope returned is well-formed, the bytes consumed are exactly
    [85 + |payload|], and whenever the encoder accepts that envelope it
    reproduces those very bytes. *)
Theorem envelope_wire_canonical buf :
  blen buf ≤ isize_max →
  match EventEnvelope_decode buf with
  | Ok (env, n) =>
      EventEnvelope_wf env ∧ n = 85 + blen (payload env) ∧ n ≤ blen buf ∧
      (fits_wire env → EventEnvelope_encode env [] = (Ok (), take (Z.to_nat n) buf))
  | Err _ => True
  | Panic => False
  end.
Proof.
  intros Hb. pose proof (codec_total EventEnvelope_codec buf Hb).
  destruct (EventEnvelope_decode buf) as [[env n]|e|] eqn:Hd; try done.
  pose proof (codec_consumed EventEnvelope_codec _ _ _ Hd) as Hn.
  apply (codec_sound EventEnvelope_codec) in Hd as (Hw&?&Ht).
  rewrite blen_envelope_image in Hn by apply Hw.
  split; [done|]. split; [done|]. split; [lia|]. unfold fits_wire. intros Hf.
  rewrite EventEnvelope_encode_spec, Ht. by destruct (_ <=? _) eqn:? ; [|lia].
Qed.

(** An envelope with a payload of [u32::MAX] bytes is read, and cannot be
    written again: the decoder bounds the payload alone by a [u32], the encoder
    the whole envelope, so every payload longer than [u32::MAX - 85] bytes
    decodes to an envelope the encoder refuses. *)
Theorem decoded_envelope_refused buf env :
  EventEnvelope_wf env → u32_max - 85 < blen (payload env) →
  EventEnvelope_decode (envelope_image env) = Ok (env, blen (envelope_image env)) ∧
  EventEnvelope_encode env buf = (Err too_long, buf).
Proof.
  intros Hw Hp. split.
  - pose proof (codec_complete EventEnvelope_codec env [] Hw) as H. by rewrite app_nil_r in H.
  - rewrite EventEnvelope_encode_spec. by destruct (_ <=? _) eqn:?; [lia|].
Qed.

(** ** The properties at concrete inputs *)

Definition sample_id (b : byte) : bytes := replicate 16 b.
Definition sample_envelope (p : bytes) : EventEnvelope :=
  mk_EventEnvelope (mk_EnvelopeHeader (sample_id x01) (sample_id x02) false zero16 zero32) p.

Lemma sample_envelope_wf p : blen p ≤ u32_max → EventEnvelope_wf (sample_envelope p).
Proof. intros. split; [by repeat split|done]. Qed.

Lemma envelope_wire_roundtrip_witness :
  ∃ w, EventEnvelope_encode (sample_envelope [x2a]) [x07] = (Ok (), [x07] ++ w) ∧
    blen w = 86 ∧ ∀ rest, EventEnvelope_decode (w ++ rest) = Ok (sample_envelope [x2a], blen w).
Proof.
  assert (EventEnvelope_wf (sample_envelope [x2a])) as Hw by by apply sample_envelope_wf.
  exact (envelope_wire_roundtrip (sample_envelope [x2a]) [x07] Hw).
Defined.

Lemma envelope_wire_canonical_witness :
  let buf := envelope_image (sample_envelope [x2a]) ++ [xff] in
  EventEnvelope_wf (sample_envelope [x2a]) ∧ 86 = 85 + blen [x2a] ∧ 86 ≤ blen buf ∧
  (fits_wire (sample_envelope [x2a]) →
   EventEnvelope_encode (sample_envelope [x2a]) [] = (Ok (), take (Z.to_nat 86) buf)).
Proof.
  intros buf. assert (blen buf ≤ isize_max) as Hb by (vm_compute; done).
  exact (envelope_wire_canonical buf Hb).
Defined.

Lemma decoded_envelope_refused_witness :
  let env := sample_envelope (replicate (Z.to_nat u32_max) x00) in
  EventEnvelope_decode (envelope_image env) = Ok (env, blen (envelope_image env)) ∧
  EventEnvelope_encode env [] = (Err too_long, []).
Proof.
  assert (blen (replicate (Z.to_nat u32_max) x00) = u32_max) as Hl.
  { unfold blen. rewrite length_replicate. apply Z2Nat.id. unfold u32_max. lia. }
  apply (decoded_envelope_refused []); cbn [payload sample_envelope].
  - apply sample_envelope_wf. by rewrite Hl.
  - rewrite Hl. unfold u32_max. lia.
Defined.
