(* ===== verification/Records.v ===== *)
(** * Ownership records: [src/crates/pardosa/src/encoding.rs]

    The nine kinds of records of an artefact's [.meta] container and their
    wire format. [OwnershipRecord_decode] dispatches on the tag byte to one
    definition per kind. *)

From S2P Require Export Wire.

(** ** Data *)

Inductive PartitioningRule :=
  | PartitioningRule_StaticModulo (total_draglines : Z)
  | PartitioningRule_ConsistentHash (hash_seed virtual_node_count : Z).

Inductive MigrationStatus :=
  | MigrationStatus_Complete
  | MigrationStatus_Interrupted.

Inductive RescuePolicy :=
  | RescuePolicy_Strict
  | RescuePolicy_DropCorrupted
  | RescuePolicy_HaltOnGap.

Record OwnershipClaimRecord := mk_OwnershipClaimRecord {
  epoch : Z;                  (* u64 *)
  machine_id : bytes;         (* [u8; 16] *)
  boot_id : bytes;            (* [u8; 16] *)
  process_id : Z;             (* u64 *)
  process_start_time_ns : Z;  (* u64 *)
  claim_time_ns : Z;          (* u64 *)
  operator_label : bytes;     (* String *)
}.

Record CleanReleaseRecord := mk_CleanReleaseRecord {
  released_epoch : Z;
  release_time_ns : Z;
}.

Record MigrationStartRecord := mk_MigrationStartRecord {
  start_source_generation : Z;  (* u32 *)
  start_target_generation : Z;  (* u32 *)
  start_time_ns : Z;            (* u64 *)
  rescue_policy_tag : byte;
}.

Record MigrationEndRecord := mk_MigrationEndRecord {
  end_source_generation : Z;
  end_target_generation : Z;
  end_time_ns : Z;
  status : MigrationStatus;
}.

Record InboundPointerRecord := mk_InboundPointerRecord {
  prior_generation_locator_id : bytes;
  prior_generation_epoch : Z;
}.

Record OutboundPointerRecord := mk_OutboundPointerRecord {
  next_generation_locator_id : bytes;
  cutover_epoch : Z;
}.

Record RescuePolicyChoiceRecord := mk_RescuePolicyChoiceRecord {
  policy_tag : byte;
  parameter_payload : bytes;
}.

Record IdentityStructureRecord := mk_IdentityStructureRecord {
  dataset_id : bytes;
  structure_version : Z;
  dragline_id : Z;
  partitioning_rule : PartitioningRule;
}.

Inductive OwnershipRecord :=
  | OwnershipRecord_OwnershipClaim (c : OwnershipClaimRecord)
  | OwnershipRecord_CleanRelease (r : CleanReleaseRecord)
  | OwnershipRecord_MigrationStart (m : MigrationStartRecord)
  | OwnershipRecord_MigrationEnd (m : MigrationEndRecord)
  | OwnershipRecord_InboundPointer (p : InboundPointerRecord)
  | OwnershipRecord_OutboundPointer (p : OutboundPointerRecord)
  | OwnershipRecord_RescuePolicyChoice (p : RescuePolicyChoiceRecord)
  | OwnershipRecord_IdentityStructure (ids : IdentityStructureRecord)
  | OwnershipRecord_SchemaDescriptor (schema_version : Z) (descriptor_bytes : bytes).

#[export] Instance OwnershipClaimRecord_eq_dec : EqDecision OwnershipClaimRecord.
Proof. solve_decision. Defined.

(** ** Partitioning rules *)

Definition PartitioningRule_encode (r : PartitioningRule) (buf : bytes) : bytes :=
  match r with
  | PartitioningRule_StaticModulo total_draglines =>
      buf ++ [x01] ++ u32_le 4 ++ u32_le total_draglines
  | PartitioningRule_ConsistentHash hash_seed virtual_node_count =>
      buf ++ [x02] ++ u32_le 12 ++ u64_le hash_seed ++ u32_le virtual_node_count
  end.

Definition PartitioningRule_decode : decoder PartitioningRule := λ buf,
  if blen buf <? 5 then Err (DecodeError_TruncatedPayload 5 (blen buf)) else
  tag ← byte_at buf 0;
  param_len ← u32_at buf 1;
  total_consumed ← ok_or (checked_add 5 param_len) too_long;
  if blen buf <? total_consumed
  then Err (DecodeError_TruncatedPayload total_consumed (blen buf)) else
  param_bytes ← slice buf 5 total_consumed;
  match tag with
  | x01 =>
      if blen param_bytes <? 4
      then Err (DecodeError_TruncatedPayload 4 (blen param_bytes)) else
      total_draglines ← u32_at param_bytes 0;
      Ok (PartitioningRule_StaticModulo total_draglines, total_consumed)
  | x02 =>
      if blen param_bytes <? 12
      then Err (DecodeError_TruncatedPayload 12 (blen param_bytes)) else
      hash_seed ← u64_at param_bytes 0;
      virtual_node_count ← u32_at param_bytes 8;
      Ok (PartitioningRule_ConsistentHash hash_seed virtual_node_count, total_consumed)
  | other => Err (DecodeError_UnknownPartitioningRuleTag other)
  end.

(** ** Status and policy bytes *)

Definition MigrationStatus_to_u8 (s : MigrationStatus) : byte :=
  match s with
  | MigrationStatus_Complete => x01
  | MigrationStatus_Interrupted => x02
  end.

Definition MigrationStatus_from_u8 (val : byte) : outcome DecodeError MigrationStatus :=
  match val with
  | x01 => Ok MigrationStatus_Complete
  | x02 => Ok MigrationStatus_Interrupted
  | other => Err (DecodeError_InvalidMigrationStatus other)
  end.

Definition RescuePolicy_to_u8 (p : RescuePolicy) : byte :=
  match p with
  | RescuePolicy_Strict => x01
  | RescuePolicy_DropCorrupted => x02
  | RescuePolicy_HaltOnGap => x03
  end.

Definition RescuePolicy_from_u8 (val : byte) : outcome DecodeError RescuePolicy :=
  match val with
  | x01 => Ok RescuePolicy_Strict
  | x02 => Ok RescuePolicy_DropCorrupted
  | x03 => Ok RescuePolicy_HaltOnGap
  | other => Err (DecodeError_InvalidRescuePolicy other)
  end.

(** ** Encoding *)

Definition OwnershipRecord_wire_tag (r : OwnershipRecord) : byte :=
  match r with
  | OwnershipRecord_OwnershipClaim _ => x01
  | OwnershipRecord_CleanRelease _ => x02
  | OwnershipRecord_MigrationStart _ => x03
  | OwnershipRecord_MigrationEnd _ => x04
  | OwnershipRecord_InboundPointer _ => x05
  | OwnershipRecord_OutboundPointer _ => x06
  | OwnershipRecord_RescuePolicyChoice _ => x07
  | OwnershipRecord_IdentityStructure _ => x08
  | OwnershipRecord_SchemaDescriptor _ _ => x09
  end.

(** [u32::try_from(len).expect(..)]. *)
Definition expect_u32 {E} (z : Z) : outcome E Z :=
  match u32_try_from z with Some n => Ok n | None => Panic end.

Definition OwnershipRecord_encode {E} (r : OwnershipRecord) (buf : bytes) :
    outcome E bytes :=
  let buf := buf ++ [OwnershipRecord_wire_tag r] in
  match r with
  | OwnershipRecord_OwnershipClaim c =>
      label_len ← expect_u32 (blen (operator_label c));
      Ok (buf ++ u64_le (epoch c) ++ machine_id c ++ boot_id c ++
          u64_le (process_id c) ++ u64_le (process_start_time_ns c) ++
          u64_le (claim_time_ns c) ++ u32_le label_len ++ operator_label c)
  | OwnershipRecord_CleanRelease r =>
      Ok (buf ++ u64_le (released_epoch r) ++ u64_le (release_time_ns r))
  | OwnershipRecord_MigrationStart m =>
      Ok (buf ++ u32_le (start_source_generation m) ++ u32_le (start_target_generation m) ++
          u64_le (start_time_ns m) ++ [rescue_policy_tag m])
  | OwnershipRecord_MigrationEnd m =>
      Ok (buf ++ u32_le (end_source_generation m) ++ u32_le (end_target_generation m) ++
          u64_le (end_time_ns m) ++ [MigrationStatus_to_u8 (status m)])
  | OwnershipRecord_InboundPointer p =>
      Ok (buf ++ prior_generation_locator_id p ++ u64_le (prior_generation_epoch p))
  | OwnershipRecord_OutboundPointer p =>
      Ok (buf ++ next_generation_locator_id p ++ u64_le (cutover_epoch p))
  | OwnershipRecord_RescuePolicyChoice p =>
      param_len ← expect_u32 (blen (parameter_payload p));
      Ok (buf ++ [policy_tag p] ++ u32_le param_len ++ parameter_payload p)
  | OwnershipRecord_IdentityStructure ids =>
      Ok (PartitioningRule_encode (partitioning_rule ids)
            (buf ++ dataset_id ids ++ u32_le (structure_version ids) ++
             u32_le (dragline_id ids)))
  | OwnershipRecord_SchemaDescriptor schema_version descriptor_bytes =>
      Ok (buf ++ u32_le schema_version ++ descriptor_bytes)
  end.

(** ** Decoding, one definition per tag *)

Definition decode_OwnershipClaim : decoder OwnershipRecord := λ buf,
  let fixed_prefix := 65 in
  if blen buf <? fixed_prefix + 4
  then Err (DecodeError_TruncatedPayload (fixed_prefix + 4) (blen buf)) else
  ep ← u64_at buf 1;
  machine ← slice buf 9 25;
  boot ← slice buf 25 41;
  pid ← u64_at buf 41;
  start ← u64_at buf 49;
  claim_time ← u64_at buf 57;
  label_len ← u32_at buf 65;
  total_len ← ok_or (checked_add fixed_prefix 4 ≫= λ l, checked_add l label_len) too_long;
  if blen buf <? total_len
  then Err (DecodeError_TruncatedPayload total_len (blen buf)) else
  label ← slice buf 69 total_len;
  label ← from_utf8 DecodeError_InvalidUtf8 label;
  Ok (OwnershipRecord_OwnershipClaim
        (mk_OwnershipClaimRecord ep machine boot pid start claim_time label), total_len).

Definition decode_CleanRelease : decoder OwnershipRecord := λ buf,
  let total_len := 1 + 16 in
  if blen buf <? total_len
  then Err (DecodeError_TruncatedPayload total_len (blen buf)) else
  ep ← u64_at buf 1;
  time ← u64_at buf 9;
  Ok (OwnershipRecord_CleanRelease (mk_CleanReleaseRecord ep time), total_len).

Definition decode_MigrationStart : decoder OwnershipRecord := λ buf,
  let total_len := 1 + 4 + 4 + 8 + 1 in
  if blen buf <? total_len
  then Err (DecodeError_TruncatedPayload total_len (blen buf)) else
  source ← u32_at buf 1;
  target ← u32_at buf 5;
  time ← u64_at buf 9;
  policy ← byte_at buf 17;
  Ok (OwnershipRecord_MigrationStart
        (mk_MigrationStartRecord source target time policy), total_len).

Definition decode_MigrationEnd : decoder OwnershipRecord := λ buf,
  let total_len := 1 + 4 + 4 + 8 + 1 in
  if blen buf <? total_len
  then Err (DecodeError_TruncatedPayload total_len (blen buf)) else
  source ← u32_at buf 1;
  target ← u32_at buf 5;
  time ← u64_at buf 9;
  st ← byte_at buf 17;
  st ← MigrationStatus_from_u8 st;
  Ok (OwnershipRecord_MigrationEnd (mk_MigrationEndRecord source target time st), total_len).

Definition decode_InboundPointer : decoder OwnershipRecord := λ buf,
  let total_len := 1 + 16 + 8 in
  if blen buf <? total_len
  then Err (DecodeError_TruncatedPayload total_len (blen buf)) else
  id ← slice buf 1 17;
  ep ← u64_at buf 17;
  Ok (OwnershipRecord_InboundPointer (mk_InboundPointerRecord id ep), total_len).

Definition decode_OutboundPointer : decoder OwnershipRecord := λ buf,
  let total_len := 1 + 16 + 8 in
  if blen buf <? total_len
  then Err (DecodeError_TruncatedPayload total_len (blen buf)) else
  id ← slice buf 1 17;
  ep ← u64_at buf 17;
  Ok (OwnershipRecord_OutboundPointer (mk_OutboundPointerRecord id ep), total_len).

Definition decode_RescuePolicyChoice : decoder OwnershipRecord := λ buf,
  if blen buf <? 1 + 1 + 4
  then Err (DecodeError_TruncatedPayload 6 (blen buf)) else
  tag ← byte_at buf 1;
  param_len ← u32_at buf 2;
  total_len ← ok_or (checked_add 6 param_len) too_long;
  if blen buf <? total_len
  then Err (DecodeError_TruncatedPayload total_len (blen buf)) else
  params ← slice buf 6 total_len;
  Ok (OwnershipRecord_RescuePolicyChoice (mk_RescuePolicyChoiceRecord tag params), total_len).

Definition decode_IdentityStructure : decoder OwnershipRecord := λ buf,
  let prefix_len := 1 + 16 + 4 + 4 in
  if blen buf <? prefix_len
  then Err (DecodeError_TruncatedPayload prefix_len (blen buf)) else
  id ← slice buf 1 17;
  version ← u32_at buf 17;
  dragline ← u32_at buf 21;
  tail ← slice_from buf prefix_len;
  '(rule, rule_consumed) ← PartitioningRule_decode tail;
  total_len ← ok_or (checked_add prefix_len rule_consumed) too_long;
  Ok (OwnershipRecord_IdentityStructure
        (mk_IdentityStructureRecord id version dragline rule), total_len).

Definition decode_SchemaDescriptor : decoder OwnershipRecord := λ buf,
  if blen buf <? 1 + 4
  then Err (DecodeError_TruncatedPayload 5 (blen buf)) else
  version ← u32_at buf 1;
  descriptor_bytes ← slice_from buf 5;
  Ok (OwnershipRecord_SchemaDescriptor version descriptor_bytes, blen buf).

Definition OwnershipRecord_decode : decoder OwnershipRecord := λ buf,
  if is_empty buf then Err (DecodeError_TruncatedPayload 1 0) else
  tag ← byte_at buf 0;
  match tag with
  | x01 => decode_OwnershipClaim buf
  | x02 => decode_CleanRelease buf
  | x03 => decode_MigrationStart buf
  | x04 => decode_MigrationEnd buf
  | x05 => decode_InboundPointer buf
  | x06 => decode_OutboundPointer buf
  | x07 => decode_RescuePolicyChoice buf
  | x08 => decode_IdentityStructure buf
  | x09 => decode_SchemaDescriptor buf
  | other => Err (DecodeError_UnknownRecordTag other)
  end.

(** ** Invariants *)

Definition PartitioningRule_wf (r : PartitioningRule) : Prop :=
  match r with
  | PartitioningRule_StaticModulo n => is_u32 n
  | PartitioningRule_ConsistentHash s n => is_u64 s ∧ is_u32 n
  end.

Definition OwnershipRecord_wf (r : OwnershipRecord) : Prop :=
  match r with
  | OwnershipRecord_OwnershipClaim c =>
      is_u64 (epoch c) ∧ is_array 16 (machine_id c) ∧ is_array 16 (boot_id c) ∧
      is_u64 (process_id c) ∧ is_u64 (process_start_time_ns c) ∧ is_u64 (claim_time_ns c) ∧
      blen (operator_label c) ≤ u32_max ∧ utf8_valid (operator_label c) = true
  | OwnershipRecord_CleanRelease r => is_u64 (released_epoch r) ∧ is_u64 (release_time_ns r)
  | OwnershipRecord_MigrationStart m =>
      is_u32 (start_source_generation m) ∧ is_u32 (start_target_generation m) ∧
      is_u64 (start_time_ns m)
  | OwnershipRecord_MigrationEnd m =>
      is_u32 (end_source_generation m) ∧ is_u32 (end_target_generation m) ∧
      is_u64 (end_time_ns m)
  | OwnershipRecord_InboundPointer p =>
      is_array 16 (prior_generation_locator_id p) ∧ is_u64 (prior_generation_epoch p)
  | OwnershipRecord_OutboundPointer p =>
      is_array 16 (next_generation_locator_id p) ∧ is_u64 (cutover_epoch p)
  | OwnershipRecord_RescuePolicyChoice p => blen (parameter_payload p) ≤ u32_max
  | OwnershipRecord_IdentityStructure ids =>
      is_array 16 (dataset_id ids) ∧ is_u32 (structure_version ids) ∧
      is_u32 (dragline_id ids) ∧ PartitioningRule_wf (partitioning_rule ids)
  | OwnershipRecord_SchemaDescriptor v _ => is_u32 v
  end.

#[export] Instance OwnershipRecord_wf_dec r : Decision (OwnershipRecord_wf r).
Proof.
  destruct r as [| | | | | | |[? ? ? []]|]; simpl; apply _.
Defined.

(** ** Lemmas *)

Lemma MigrationStatus_roundtrip s : MigrationStatus_from_u8 (MigrationStatus_to_u8 s) = Ok s.
Proof. by destruct s. Qed.

Lemma MigrationStatus_from_u8_Ok b s :
  MigrationStatus_from_u8 b = Ok s → MigrationStatus_to_u8 s = b.
Proof. destruct b; intros [= <-]; done. Qed.

Lemma RescuePolicy_roundtrip p : RescuePolicy_from_u8 (RescuePolicy_to_u8 p) = Ok p.
Proof. by destruct p. Qed.

Lemma MigrationStatus_from_u8_not_panic b : MigrationStatus_from_u8 b ≠ Panic.
Proof. by destruct b. Qed.
#[export] Hint Resolve MigrationStatus_from_u8_not_panic : pardosa.

Lemma PartitioningRule_encode_app r buf :
  PartitioningRule_encode r buf = buf ++ PartitioningRule_encode r [].
Proof. by destruct r. Qed.

Lemma PartitioningRule_complete r rest :
  PartitioningRule_wf r →
  PartitioningRule_decode (PartitioningRule_encode r [] ++ rest)
    = Ok (r, blen (PartitioningRule_encode r [])).
Proof.
  destruct r as [n|seed n]; intros Hw; simpl in Hw; unfold PartitioningRule_decode; simpl.
  - rewrite <-!app_assoc. run. rewrite <-(app_nil_r (u32_le n)). by run.
  - destruct Hw. rewrite <-!app_assoc, (app_assoc (u64_le seed)). run.
    rewrite <-(app_nil_r (u32_le n)). by run.
Qed.

(** The rule's parameters may be followed by bytes that the decoder skips:
    the image is a prefix only when nothing follows. *)
Lemma PartitioningRule_sound buf r n :
  PartitioningRule_decode buf = Ok (r, n) →
  PartitioningRule_wf r ∧ blen (PartitioningRule_encode r []) ≤ n ≤ blen buf ∧
  (n = blen (PartitioningRule_encode r []) →
   take (Z.to_nat n) buf = PartitioningRule_encode r []).
Proof.
  unfold PartitioningRule_decode. intros H. ok_inv; simpl; learn_ranges; gather buf.
  - split; [unfold in_u; lia|]. split; [len|]. intros Hn.
    assert (x0 = 4) as -> by len. gathered buf. gather x2. gathered_all x2. by subst x2.
  - split; [split; unfold in_u; lia|]. split; [len|]. intros Hn.
    assert (x0 = 12) as -> by len. gathered buf. gather x2. gathered_all x2. by subst x2.
Qed.

Lemma PartitioningRule_not_panic buf :
  blen buf ≤ isize_max → PartitioningRule_decode buf ≠ Panic.
Proof. intros Hb. unfold PartitioningRule_decode. no_panic. Qed.
#[export] Hint Resolve PartitioningRule_not_panic : pardosa.

(** The image of a record; [encode] appends it or panics on a length above
    [u32::MAX]. *)
Definition record_image (r : OwnershipRecord) : bytes :=
  match OwnershipRecord_encode (E:=DecodeError) r [] with Ok b => b | _ => [] end.

Lemma OwnershipRecord_encode_spec {E} r buf :
  OwnershipRecord_wf r → OwnershipRecord_encode (E:=E) r buf = Ok (buf ++ record_image r).
Proof.
  unfold record_image. destruct r; simpl; intros Hw; try by rewrite <-app_assoc.
  - unfold expect_u32. rewrite u32_try_from_ok by tauto. simpl. by rewrite <-app_assoc.
  - unfold expect_u32. rewrite u32_try_from_ok by tauto. simpl. by rewrite <-app_assoc.
  - rewrite PartitioningRule_encode_app, (PartitioningRule_encode_app _ (_ :: _)).
    rewrite <-!app_assoc. simpl. by rewrite <-!app_assoc.
Qed.

(** Each kind is read back from its image. *)
Ltac complete_kind :=
  unfold record_image; simpl; rewrite <-!app_assoc, <-?app_comm_cons; run;
  do 2 f_equal; len.

Lemma complete_CleanRelease r rest :
  OwnershipRecord_wf (OwnershipRecord_CleanRelease r) →
  decode_CleanRelease (record_image (OwnershipRecord_CleanRelease r) ++ rest)
    = Ok (OwnershipRecord_CleanRelease r, blen (record_image (OwnershipRecord_CleanRelease r))).
Proof. destruct r. intros []. simpl in *. unfold decode_CleanRelease. complete_kind. Qed.

Lemma complete_OwnershipClaim c rest :
  OwnershipRecord_wf (OwnershipRecord_OwnershipClaim c) →
  decode_OwnershipClaim (record_image (OwnershipRecord_OwnershipClaim c) ++ rest)
    = Ok (OwnershipRecord_OwnershipClaim c, blen (record_image (OwnershipRecord_OwnershipClaim c))).
Proof.
  destruct c. intros (?&?&?&?&?&?&?&?). simpl in *. unfold decode_OwnershipClaim.
  unfold record_image; simpl. unfold expect_u32. rewrite u32_try_from_ok by done.
  complete_kind.
Qed.

Lemma complete_MigrationStart m rest :
  OwnershipRecord_wf (OwnershipRecord_MigrationStart m) →
  decode_MigrationStart (record_image (OwnershipRecord_MigrationStart m) ++ rest)
    = Ok (OwnershipRecord_MigrationStart m, blen (record_image (OwnershipRecord_MigrationStart m))).
Proof. destruct m. intros (?&?&?). simpl in *. unfold decode_MigrationStart. complete_kind. Qed.

Lemma complete_MigrationEnd m rest :
  OwnershipRecord_wf (OwnershipRecord_MigrationEnd m) →
  decode_MigrationEnd (record_image (OwnershipRecord_MigrationEnd m) ++ rest)
    = Ok (OwnershipRecord_MigrationEnd m, blen (record_image (OwnershipRecord_MigrationEnd m))).
Proof.
  destruct m as [? ? ? []]; intros (?&?&?); simpl in *; unfold decode_MigrationEnd;
    complete_kind.
Qed.

Lemma complete_InboundPointer p rest :
  OwnershipRecord_wf (OwnershipRecord_InboundPointer p) →
  decode_InboundPointer (record_image (OwnershipRecord_InboundPointer p) ++ rest)
    = Ok (OwnershipRecord_InboundPointer p, blen (record_image (OwnershipRecord_InboundPointer p))).
Proof. destruct p. intros []. simpl in *. unfold decode_InboundPointer. complete_kind. Qed.

Lemma complete_OutboundPointer p rest :
  OwnershipRecord_wf (OwnershipRecord_OutboundPointer p) →
  decode_OutboundPointer (record_image (OwnershipRecord_OutboundPointer p) ++ rest)
    = Ok (OwnershipRecord_OutboundPointer p, blen (record_image (OwnershipRecord_OutboundPointer p))).
Proof. destruct p. intros []. simpl in *. unfold decode_OutboundPointer. complete_kind. Qed.

Lemma complete_RescuePolicyChoice p rest :
  OwnershipRecord_wf (OwnershipRecord_RescuePolicyChoice p) →
  decode_RescuePolicyChoice (record_image (OwnershipRecord_RescuePolicyChoice p) ++ rest)
    = Ok (OwnershipRecord_RescuePolicyChoice p,
          blen (record_image (OwnershipRecord_RescuePolicyChoice p))).
Proof.
  destruct p. simpl. intros Hp. unfold decode_RescuePolicyChoice.
  unfold record_image; simpl. unfold expect_u32. rewrite u32_try_from_ok by done.
  complete_kind.
Qed.

Lemma complete_IdentityStructure ids rest :
  OwnershipRecord_wf (OwnershipRecord_IdentityStructure ids) →
  decode_IdentityStructure (record_image (OwnershipRecord_IdentityStructure ids) ++ rest)
    = Ok (OwnershipRecord_IdentityStructure ids,
          blen (record_image (OwnershipRecord_IdentityStructure ids))).
Proof.
  destruct ids as [id v d rule]. intros (?&?&?&?). simpl in *.
  unfold decode_IdentityStructure, record_image; simpl.
  rewrite PartitioningRule_encode_app. simpl. rewrite <-!app_assoc. unfold slice_from. run.
  rewrite PartitioningRule_complete by done. run.
  assert (blen (PartitioningRule_encode rule []) ≤ 17) by (destruct rule; simpl; len).
  run. do 2 f_equal. len.
Qed.

Lemma complete_SchemaDescriptor v b :
  OwnershipRecord_wf (OwnershipRecord_SchemaDescriptor v b) →
  decode_SchemaDescriptor (record_image (OwnershipRecord_SchemaDescriptor v b))
    = Ok (OwnershipRecord_SchemaDescriptor v b,
          blen (record_image (OwnershipRecord_SchemaDescriptor v b))).
Proof.
  simpl. intros Hv. unfold decode_SchemaDescriptor, record_image, slice_from. simpl.
  by run.
Qed.

(** Every record is read back from its image. A schema descriptor record runs
    to the end of its buffer. *)
Lemma OwnershipRecord_complete r rest :
  OwnershipRecord_wf r →
  (∀ v b, r = OwnershipRecord_SchemaDescriptor v b → rest = []) →
  OwnershipRecord_decode (record_image r ++ rest) = Ok (r, blen (record_image r)).
Proof.
  intros Hw Hd.
  assert (∃ l, record_image r = OwnershipRecord_wire_tag r :: l) as [l Hl].
  { unfold record_image.
    destruct r as [| | | | | | |[? ? ? []]|]; simpl in *; unfold expect_u32;
      rewrite ?u32_try_from_ok by tauto; simpl; by eexists. }
  unfold OwnershipRecord_decode.
  replace (is_empty (record_image r ++ rest)) with false by (by rewrite Hl).
  replace (byte_at (record_image r ++ rest) 0)
    with (Ok (E:=DecodeError) (OwnershipRecord_wire_tag r)) by (by rewrite Hl).
  simpl. clear Hl l. destruct r; simpl.
  - by apply complete_OwnershipClaim.
  - by apply complete_CleanRelease.
  - by apply complete_MigrationStart.
  - by apply complete_MigrationEnd.
  - by apply complete_InboundPointer.
  - by apply complete_OutboundPointer.
  - by apply complete_RescuePolicyChoice.
  - by apply complete_IdentityStructure.
  - rewrite (Hd _ _ eq_refl), app_nil_r. by apply complete_SchemaDescriptor.
Qed.

(** Whatever is accepted is the image of the record returned; an identity
    structure may carry more bytes after its rule's parameters, in which case
    it consumes more than its image. *)
Definition sound_at (buf : bytes) (r : OwnershipRecord) (n : Z) : Prop :=
  OwnershipRecord_wf r ∧ 0 ≤ n ≤ blen buf ∧
  (n = blen (record_image r) → take (Z.to_nat n) buf = record_image r).

Lemma sound_at_intro buf r n :
  OwnershipRecord_wf r → 0 ≤ n ≤ blen buf → take (Z.to_nat n) buf = record_image r →
  sound_at buf r n.
Proof. intros. split; [done|]. split; [done|]. by intros _. Qed.

Ltac sound_kind T :=
  ok_inv; learn_ranges; change 1%nat with (Z.to_nat 1) in T; repeat gather_step;
  apply sound_at_intro; [simpl; solve_wf|len|gathered_prefix];
  unfold record_image; simpl
with gathered_prefix :=
  match goal with T : take (Z.to_nat ?n) ?b = _ |- take (Z.to_nat ?m) ?b = _ =>
    replace m with n by len; rewrite T end.

Lemma expect_u32_is {E} l n : l = n → n ≤ u32_max → expect_u32 (E:=E) l = Ok n.
Proof. intros -> ?. unfold expect_u32. by rewrite u32_try_from_ok. Qed.

Lemma sound_OwnershipClaim buf r n :
  take 1 buf = [x01] → decode_OwnershipClaim buf = Ok (r, n) → sound_at buf r n.
Proof.
  unfold decode_OwnershipClaim. intros T H. sound_kind T.
  rewrite (expect_u32_is _ x5) by len. simpl. by rewrite <-?app_assoc.
Qed.

Lemma sound_CleanRelease buf r n :
  take 1 buf = [x02] → decode_CleanRelease buf = Ok (r, n) → sound_at buf r n.
Proof.
  unfold decode_CleanRelease. intros T H. sound_kind T. by rewrite <-?app_assoc.
Qed.

Lemma sound_MigrationStart buf r n :
  take 1 buf = [x03] → decode_MigrationStart buf = Ok (r, n) → sound_at buf r n.
Proof.
  unfold decode_MigrationStart. intros T H. sound_kind T. by rewrite <-?app_assoc.
Qed.

Lemma sound_MigrationEnd buf r n :
  take 1 buf = [x04] → decode_MigrationEnd buf = Ok (r, n) → sound_at buf r n.
Proof.
  unfold decode_MigrationEnd. intros T H. sound_kind T.
  rewrite <-?app_assoc. by erewrite MigrationStatus_from_u8_Ok.
Qed.

Lemma sound_InboundPointer buf r n :
  take 1 buf = [x05] → decode_InboundPointer buf = Ok (r, n) → sound_at buf r n.
Proof.
  unfold decode_InboundPointer. intros T H. sound_kind T. by rewrite <-?app_assoc.
Qed.

Lemma sound_OutboundPointer buf r n :
  take 1 buf = [x06] → decode_OutboundPointer buf = Ok (r, n) → sound_at buf r n.
Proof.
  unfold decode_OutboundPointer. intros T H. sound_kind T. by rewrite <-?app_assoc.
Qed.

Lemma sound_RescuePolicyChoice buf r n :
  take 1 buf = [x07] → decode_RescuePolicyChoice buf = Ok (r, n) → sound_at buf r n.
Proof.
  unfold decode_RescuePolicyChoice. intros T H. sound_kind T.
  rewrite (expect_u32_is _ x0) by len. simpl. by rewrite <-?app_assoc.
Qed.

Lemma sound_IdentityStructure buf r n :
  take 1 buf = [x08] → decode_IdentityStructure buf = Ok (r, n) → sound_at buf r n.
Proof.
  unfold decode_IdentityStructure. intros T H. ok_inv.
  match goal with Hr : PartitioningRule_decode _ = _ |- _ =>
    apply PartitioningRule_sound in Hr as (Hrw&Hrl&Hr) end.
  unfold slice_from in *. learn_ranges. change 1%nat with (Z.to_nat 1) in T.
  repeat gather_step. apply take_full in Hx2; [|done].
  set (pre := (_ ++ u32_le x1)) in Hx2. assert (blen pre = 25) as Hl by (unfold pre; len).
  assert (0 ≤ z) by len. split; [|split; [len|]].
  { simpl. solve_wf. }
  unfold record_image; simpl. intros Hn.
  rewrite (PartitioningRule_encode_app p (_ :: _)) in Hn |- *.
  rewrite Hx2, take_app_ge by (unfold blen in Hl; lia).
  replace (Z.to_nat _ - _)%nat with (Z.to_nat z) by (unfold blen in Hl; lia).
  rewrite Hx3 by len. unfold pre. cbn [app]. by rewrite <-!app_assoc.
Qed.

Lemma sound_SchemaDescriptor buf r n :
  take 1 buf = [x09] → decode_SchemaDescriptor buf = Ok (r, n) → sound_at buf r n.
Proof.
  unfold decode_SchemaDescriptor, slice_from. intros T H. sound_kind T.
  by rewrite <-?app_assoc.
Qed.

Lemma OwnershipRecord_sound buf r n :
  OwnershipRecord_decode buf = Ok (r, n) → sound_at buf r n.
Proof.
  unfold OwnershipRecord_decode. intros H. destruct buf as [|b buf]; [done|].
  simpl in H. change (byte_at (b :: buf) 0) with (Ok (E:=DecodeError) b) in H. simpl in H.
  assert (take 1 (b :: buf) = [b]) as T by done. revert T H. generalize (b :: buf) as l.
  intros l T H. destruct b; try discriminate H.
  - by apply sound_OwnershipClaim.
  - by apply sound_CleanRelease.
  - by apply sound_MigrationStart.
  - by apply sound_MigrationEnd.
  - by apply sound_InboundPointer.
  - by apply sound_OutboundPointer.
  - by apply sound_RescuePolicyChoice.
  - by apply sound_IdentityStructure.
  - by apply sound_SchemaDescriptor.
Qed.

Ltac total_kind f := intros Hb; unfold f; no_panic.

Lemma total_OwnershipClaim buf : blen buf ≤ isize_max → decode_OwnershipClaim buf ≠ Panic.
Proof. total_kind decode_OwnershipClaim. Qed.
Lemma total_CleanRelease buf : blen buf ≤ isize_max → decode_CleanRelease buf ≠ Panic.
Proof. total_kind decode_CleanRelease. Qed.
Lemma total_MigrationStart buf : blen buf ≤ isize_max → decode_MigrationStart buf ≠ Panic.
Proof. total_kind decode_MigrationStart. Qed.
Lemma total_MigrationEnd buf : blen buf ≤ isize_max → decode_MigrationEnd buf ≠ Panic.
Proof. total_kind decode_MigrationEnd. Qed.
Lemma total_InboundPointer buf : blen buf ≤ isize_max → decode_InboundPointer buf ≠ Panic.
Proof. total_kind decode_InboundPointer. Qed.
Lemma total_OutboundPointer buf : blen buf ≤ isize_max → decode_OutboundPointer buf ≠ Panic.
Proof. total_kind decode_OutboundPointer. Qed.
Lemma total_RescuePolicyChoice buf : blen buf ≤ isize_max → decode_RescuePolicyChoice buf ≠ Panic.
Proof. total_kind decode_RescuePolicyChoice. Qed.
Lemma total_SchemaDescriptor buf : blen buf ≤ isize_max → decode_SchemaDescriptor buf ≠ Panic.
Proof. total_kind decode_SchemaDescriptor. Qed.
Lemma total_IdentityStructure buf : blen buf ≤ isize_max → decode_IdentityStructure buf ≠ Panic.
Proof.
  total_kind decode_IdentityStructure. apply PartitioningRule_not_panic.
  unfold slice_from in *. learn_ranges. len.
Qed.
#[export] Hint Resolve total_OwnershipClaim total_CleanRelease total_MigrationStart
  total_MigrationEnd total_InboundPointer total_OutboundPointer total_RescuePolicyChoice
  total_IdentityStructure total_SchemaDescriptor : pardosa.

Lemma OwnershipRecord_total buf : blen buf ≤ isize_max → OwnershipRecord_decode buf ≠ Panic.
Proof.
  intros Hb. unfold OwnershipRecord_decode. destruct buf as [|b buf]; [done|].
  apply bind_not_panic; [done|]. intros t _. destruct t; try done; by auto with pardosa.
Qed.

(** The descriptor a record carries is no longer than its buffer. *)
Lemma OwnershipRecord_descriptor_blen buf v b n :
  OwnershipRecord_decode buf = Ok (OwnershipRecord_SchemaDescriptor v b, n) →
  blen b ≤ blen buf.
Proof.
  unfold OwnershipRecord_decode. intros H. destruct (is_empty buf); [done|].
  apply bind_Ok in H as (t&_&H).
  destruct t; try discriminate H; revert H;
    unfold decode_OwnershipClaim, decode_CleanRelease, decode_MigrationStart, decode_MigrationEnd,
      decode_InboundPointer, decode_OutboundPointer, decode_RescuePolicyChoice,
      decode_IdentityStructure, decode_SchemaDescriptor, slice_from; intros H; ok_inv.
  all: simplify_eq. learn_ranges. lia.
Qed.

(** ** Properties *)

(** Every ownership record whose fields are in range is written without a
    panic by appending its image, and read back from it: the decoder returns
    the record and the number of bytes of the image. All kinds but the schema
    descriptor are self-delimiting (any bytes may follow); a schema descriptor
    record runs to the end of its buffer. *)
Theorem ownership_record_roundtrip r buf rest :
  OwnershipRecord_wf r →
  (∀ v b, r = OwnershipRecord_SchemaDescriptor v b → rest = []) →
  ∃ w, OwnershipRecord_encode (E:=DecodeError) r buf = Ok (buf ++ w) ∧
    OwnershipRecord_decode (w ++ rest) = Ok (r, blen w).
Proof.
  intros Hw Hr. exists (record_image r). split; [by apply OwnershipRecord_encode_spec|].
  by apply OwnershipRecord_complete.
Qed.

(** No buffer makes the ownership-record decoder panic; an accepted record
    has every field in range and consumes bytes of the buffer only; and if it
    consumed as many bytes as the record's own encoding has, those bytes are
    the encoding. *)
Theorem ownership_record_decode_total buf :
  blen buf ≤ isize_max →
  match OwnershipRecord_decode buf with
  | Ok (r, n) =>
      OwnershipRecord_wf r ∧ 0 ≤ n ≤ blen buf ∧
      ∀ w, OwnershipRecord_encode (E:=DecodeError) r [] = Ok w → n = blen w →
        take (Z.to_nat n) buf = w
  | Err _ => True
  | Panic => False
  end.
Proof.
  intros Hb. pose proof (OwnershipRecord_total buf Hb).
  destruct (OwnershipRecord_decode buf) as [[r n]|e|] eqn:Hd; try done.
  apply OwnershipRecord_sound in Hd as (Hw&Hn&Ht). split; [done|]. split; [done|].
  intros w. rewrite OwnershipRecord_encode_spec by done. intros [= <-]. by apply Ht.
Qed.

(** The identity-structure record is not canonical: the decoder takes the
    length of the partitioning parameters from the buffer and reads only the
    parameters it knows, so extra parameter bytes are dropped and two different
    byte sequences decode, each in full, to the same record. *)
Theorem identity_structure_not_canonical :
  ∃ r b1 b2, b1 ≠ b2 ∧
    OwnershipRecord_decode b1 = Ok (r, blen b1) ∧ OwnershipRecord_decode b2 = Ok (r, blen b2).
Proof.
  pose (pre := x08 :: replicate 16 x01 ++ replicate 4 x02 ++ replicate 4 x03 ++ [x01]).
  pose (pre2 := pre ++ [x04; x00; x00; x00] ++ [x05; x00; x00; x00]).
  pose (pre3 := pre ++ [x05; x00; x00; x00] ++ [x05; x00; x00; x00] ++ [xff]).
  eexists _, pre2, pre3. split; [done|]. split; vm_compute; reflexivity.
Qed.

(** ** The properties at concrete inputs *)

Definition sample_claim (e : Z) : OwnershipClaimRecord :=
  mk_OwnershipClaimRecord e (replicate 16 x01) (replicate 16 x02) 7 8 9 (str "operator").

Lemma ownership_record_roundtrip_witness :
  ∃ w, OwnershipRecord_encode (E:=DecodeError) (OwnershipRecord_OwnershipClaim (sample_claim 3)) [xff]
         = Ok ([xff] ++ w) ∧
    OwnershipRecord_decode (w ++ [xff; x01])
      = Ok (OwnershipRecord_OwnershipClaim (sample_claim 3), blen w).
Proof.
  apply ownership_record_roundtrip.
  - by (apply (bool_decide_unpack _); vm_compute).
  - done.
Defined.

Lemma ownership_record_decode_total_witness :
  let buf := x02 :: u64_le 5 ++ u64_le 6 ++ [xff] in
  let r := OwnershipRecord_CleanRelease (mk_CleanReleaseRecord 5 6) in
  OwnershipRecord_wf r ∧ 0 ≤ 17 ≤ blen buf ∧
  ∀ w, OwnershipRecord_encode (E:=DecodeError) r [] = Ok w → 17 = blen w →
    take (Z.to_nat 17) buf = w.
Proof.
  intros buf r. assert (blen buf ≤ isize_max) as Hb by (vm_compute; done).
  exact (ownership_record_decode_total buf Hb).
Defined.
