(* ===== verification/Failure.v ===== *)
(** * Failure conditions: [src/crates/pardosa/src/store.rs]

    The closed vocabulary of operation failures. An [OperationFailure] is its
    condition: the diagnostic text and the retained backend error are for
    people and no code branches on them. *)

From S2P Require Export Wire.

Inductive CausalChainError :=
  | CausalChainError_PrecursorOutOfRange
  | CausalChainError_PrecursorWrongFiber.

Definition CausalChainError_fmt (e : CausalChainError) : string :=
  match e with
  | CausalChainError_PrecursorOutOfRange => "precursor event ID is outside the artefact"
  | CausalChainError_PrecursorWrongFiber => "precursor event belongs to another fiber"
  end.

Inductive FailureCondition :=
  | FailureCondition_StoreAlreadyExists
  | FailureCondition_NoArtefactExists
  | FailureCondition_ConcurrencyConflict
  | FailureCondition_StaleEpoch
  | FailureCondition_OwnershipUnestablished
  | FailureCondition_OwnershipRecordUnreadable
  | FailureCondition_ExclusionUnavailable
  | FailureCondition_AnotherOwnerHoldsExclusion
  | FailureCondition_MigrationExclusionAbsent
  | FailureCondition_MigrationAlreadyRunning
  | FailureCondition_PrecursorChainBroken (cause : option CausalChainError)
  | FailureCondition_UncoveredPartitionMembership
  | FailureCondition_SchemaMismatch
  | FailureCondition_EnvelopeMismatch
  | FailureCondition_MismatchUndeterminedSubject
  | FailureCondition_ArtefactMismatch
  | FailureCondition_ValueConstraintViolated (constraint : ValueConstraint)
  | FailureCondition_UnrecognisedWireTag (tag : byte)
  | FailureCondition_InvariantBreakingConfiguration
  | FailureCondition_MissingSchemaDescriptor
  | FailureCondition_TransformationRefused
  | FailureCondition_RetiredMigrationSource
  | FailureCondition_TransportUnavailable.

#[export] Instance CausalChainError_eq_dec : EqDecision CausalChainError.
Proof. solve_decision. Defined.
#[export] Instance FailureCondition_eq_dec : EqDecision FailureCondition.
Proof. solve_decision. Defined.

Definition FailureCondition_remedy (c : FailureCondition) : string :=
  match c with
  | FailureCondition_StoreAlreadyExists => "open the existing artefact instead of creating it"
  | FailureCondition_NoArtefactExists => "create the artefact first with strict create"
  | FailureCondition_ConcurrencyConflict =>
      "stop; another writer took ownership by compare-and-set"
  | FailureCondition_StaleEpoch => "stop; writer lost ownership, do not retry with stale epoch"
  | FailureCondition_OwnershipUnestablished =>
      "establish ownership or perform read-only open"
  | FailureCondition_OwnershipRecordUnreadable =>
      "re-establish current authority and determine which events landed before resubmitting"
  | FailureCondition_ExclusionUnavailable =>
      "wait or configure the required platform exclusion mechanism"
  | FailureCondition_AnotherOwnerHoldsExclusion =>
      "wait for other owner to release exclusion or initiate operator takeover"
  | FailureCondition_MigrationExclusionAbsent =>
      "obtain exclusive access to target before starting migration"
  | FailureCondition_MigrationAlreadyRunning => "wait for running migration to finish"
  | FailureCondition_PrecursorChainBroken _ =>
      "enter broken artefact only through explicit call-site migration election"
  | FailureCondition_UncoveredPartitionMembership =>
      "configure explicit partition mapping for the fiber"
  | FailureCondition_SchemaMismatch => "reconcile schema descriptor or migrate payload"
  | FailureCondition_EnvelopeMismatch => "align envelope header shape"
  | FailureCondition_MismatchUndeterminedSubject =>
      "inspect diagnostic detail and provide matching descriptor/envelope"
  | FailureCondition_ArtefactMismatch =>
      "inspect diagnostic detail for pairing check failure and supply matching pair"
  | FailureCondition_ValueConstraintViolated _ => "adjust value to satisfy the constraint"
  | FailureCondition_UnrecognisedWireTag _ => "upgrade reader to recognise the wire tag"
  | FailureCondition_InvariantBreakingConfiguration =>
      "adjust open configuration to respect invariants"
  | FailureCondition_MissingSchemaDescriptor =>
      "supply schema descriptor; no artefact omitting descriptor is admitted"
  | FailureCondition_TransformationRefused =>
      "provide valid payload transformation for migration"
  | FailureCondition_RetiredMigrationSource =>
      "redirect writes to migration target; source append authority is permanently retired"
  | FailureCondition_TransportUnavailable =>
      "inspect network connectivity, cluster health, and authentication credentials; retry operation"
  end.

Record OperationFailure := OperationFailure_new { condition : FailureCondition }.

#[export] Instance OperationFailure_eq_dec : EqDecision OperationFailure.
Proof. solve_decision. Defined.

(** [Err(OperationFailure::new(condition, ..))]. *)
Definition fail {A} (c : FailureCondition) : outcome OperationFailure A :=
  Err (OperationFailure_new c).

Definition is_already_exists (f : OperationFailure) : bool :=
  bool_decide (condition f = FailureCondition_StoreAlreadyExists).
Definition is_not_found (f : OperationFailure) : bool :=
  bool_decide (condition f = FailureCondition_NoArtefactExists).
Definition is_concurrency_conflict (f : OperationFailure) : bool :=
  bool_decide (condition f = FailureCondition_ConcurrencyConflict).
Definition is_stale_epoch (f : OperationFailure) : bool :=
  bool_decide (condition f = FailureCondition_StaleEpoch).

(** Shorthands for the conditions the components report most. *)
Abbreviation violated c := (FailureCondition_ValueConstraintViolated c).
Abbreviation broken := (FailureCondition_PrecursorChainBroken None).
Abbreviation broken_by e := (FailureCondition_PrecursorChainBroken (Some e)).

(** ** Artefacts, modes and proofs *)

Inductive DeathProof :=
  | DeathProof_MachineReboot
  | DeathProof_ProcessAbsence
  | DeathProof_ProcessIdReuse.

Inductive LivenessVerdict :=
  | LivenessVerdict_ProvenDead (proof : DeathProof)
  | LivenessVerdict_Indeterminate.

Record CleanReleaseProof := mk_CleanReleaseProof {
  clean_epoch : Z;            (* u64 *)
  clean_release_time_ns : Z;  (* u64 *)
}.

Inductive MigrationMode :=
  | MigrationMode_Steady
  | MigrationMode_Migrating.
#[export] Instance MigrationMode_eq_dec : EqDecision MigrationMode.
Proof. solve_decision. Defined.

Inductive WriteLandingVerdict (T : Type) :=
  | WriteLandingVerdict_Landed (value : T)
  | WriteLandingVerdict_Undetermined (carried_epoch : Z).
Arguments WriteLandingVerdict_Landed {T}.
Arguments WriteLandingVerdict_Undetermined {T}.

(** A locator is the bytes of its name. *)
Definition ArtefactLocator : Type := bytes.

Inductive IllegalOpenCombination :=
  | IllegalOpenCombination_UnownedMustHaveUnknownGeneration
  | IllegalOpenCombination_UnknownGenerationCannotBeCurrent
  | IllegalOpenCombination_UnownedCannotHoldAppendAuthority
  | IllegalOpenCombination_LockedStateOnReopen
  | IllegalOpenCombination_MigratingModeOnReopen
  | IllegalOpenCombination_RemovedIdentitiesOnReopen.

(** No two conditions share a remedy unless they are the same variant. *)
Definition same_variant (a b : FailureCondition) : Prop :=
  match a, b with
  | FailureCondition_PrecursorChainBroken _, FailureCondition_PrecursorChainBroken _
  | FailureCondition_ValueConstraintViolated _, FailureCondition_ValueConstraintViolated _
  | FailureCondition_UnrecognisedWireTag _, FailureCondition_UnrecognisedWireTag _ => True
  | _, _ => a = b
  end.

Lemma remedy_determines_variant a b :
  FailureCondition_remedy a = FailureCondition_remedy b → same_variant a b.
Proof. destruct a, b; simpl; intros H; first [done | discriminate H]. Qed.
