(* ===== verification/Effects.v ===== *)
(** * Effects: a state that calls act on, and failures

    [eff S A] is a call on a state [S] (the files of an artefact, a server) that
    may fail or panic, a state-and-error monad; [triple] states what a call
    guarantees, and the [_run] lemmas step through one. *)

From S2P Require Export Failure.

Definition eff (S A : Type) : Type := S → outcome OperationFailure A * S.

#[export] Instance eff_ret {S} : MRet (eff S) := λ A a s, (Ok a, s).
#[export] Instance eff_bind {S} : MBind (eff S) := λ A B f m s,
  match m s with
  | (Ok a, s) => f a s
  | (Err err, s) => (Err err, s)
  | (Panic, s) => (Panic, s)
  end.

Definition lift {S A} (o : outcome OperationFailure A) : eff S A := λ s, (o, s).
Definition reading {S A} (f : S → outcome OperationFailure A) : eff S A := λ s, (f s, s).

Section effects.
Context {S : Type}.
Implicit Types (P R : S → Prop) (s : S).

(** From a state in [P], [m] does not panic, and leaves a state in [Q] with its
    result, or in [R] when it fails. *)
Definition triple {A} P (m : eff S A) (Q : A → S → Prop) R : Prop :=
  ∀ s, P s →
    match m s with (Ok a, s') => Q a s' | (Err _, s') => R s' | (Panic, _) => False end.

Lemma triple_weaken {A} P P' (m : eff S A) (Q Q' : A → S → Prop) R R' :
  triple P m Q R → (∀ s, P' s → P s) → (∀ a s, Q a s → Q' a s) → (∀ s, R s → R' s) →
  triple P' m Q' R'.
Proof.
  intros Hm HP HQ HR s Hs. specialize (Hm s (HP s Hs)). destruct (m s) as [[]]; auto.
Qed.

Lemma triple_bind {A B} P (m : eff S A) (f : A → eff S B) Q Q' R R' :
  triple P m Q R → (∀ s, R s → R' s) → (∀ a, triple (Q a) (f a) Q' R') →
  triple P (m ≫= f) Q' R'.
Proof.
  intros Hm HR Hf s Hs. unfold mbind, eff_bind. specialize (Hm s Hs).
  destruct (m s) as [[a|err|] s']; [by apply Hf|auto|done].
Qed.

Lemma triple_lift_bind {A B} P (o : outcome OperationFailure A) (f : A → eff S B) Q R :
  o ≠ Panic → (∀ s, P s → R s) → (∀ a, o = Ok a → triple P (f a) Q R) →
  triple P (lift o ≫= f) Q R.
Proof.
  intros Ho HR Hf s Hs. unfold mbind, eff_bind, lift. destruct o; [by apply Hf|auto|done].
Qed.

Lemma triple_reading_bind {A B} P (g : S → outcome OperationFailure A) (f : A → eff S B) Q R :
  (∀ s, P s → g s ≠ Panic) → (∀ s, P s → R s) →
  (∀ a, triple (λ s, P s ∧ g s = Ok a) (f a) Q R) → triple P (reading g ≫= f) Q R.
Proof.
  intros Hg HR Hf s Hs. unfold mbind, eff_bind, reading. specialize (Hg s Hs).
  destruct (g s) eqn:?; [by apply Hf|auto|done].
Qed.

(** A fact that the precondition implies. *)
Lemma triple_fact {A} P (φ : Prop) (m : eff S A) Q R :
  (∀ s, P s → φ) → (φ → triple P m Q R) → triple P m Q R.
Proof. intros Hφ Hm s Hs. exact (Hm (Hφ s Hs) s Hs). Qed.

Lemma triple_pre {A} P P' (m : eff S A) Q R :
  (∀ s, P' s → P s) → triple P m Q R → triple P' m Q R.
Proof. intros HP Hm s Hs. exact (Hm s (HP s Hs)). Qed.

Lemma triple_ret {A} P (a : A) (Q : A → S → Prop) R :
  (∀ s, P s → Q a s) → triple P (mret a) Q R.
Proof. intros HQ s Hs. by apply HQ. Qed.

Lemma triple_reading {A} P (g : S → outcome OperationFailure A) :
  (∀ s, P s → g s ≠ Panic) → triple P (reading g) (λ a s, P s ∧ g s = Ok a) P.
Proof. intros Hg s Hs. unfold reading. specialize (Hg s Hs). destruct (g s) eqn:?; auto. Qed.

Lemma bind_run {A B} (m : eff S A) (f : A → eff S B) s a s' :
  m s = (Ok a, s') → (m ≫= f) s = f a s'.
Proof. intros Hm. unfold mbind, eff_bind. by rewrite Hm. Qed.

Lemma bind_inv {A B} (m : eff S A) (f : A → eff S B) s b s' :
  (m ≫= f) s = (Ok b, s') → ∃ x s1, m s = (Ok x, s1) ∧ f x s1 = (Ok b, s').
Proof.
  unfold mbind, eff_bind. destruct (m s) as [[x|err|] s1]; [|done..]. by exists x, s1.
Qed.

Lemma lift_inv {A B} (o : outcome OperationFailure A) (f : A → eff S B) s b s' :
  (lift o ≫= f) s = (Ok b, s') → ∃ x, o = Ok x ∧ f x s = (Ok b, s').
Proof. intros (x&s1&[= -> <-]&Hf)%bind_inv. by exists x. Qed.

Lemma lift_run {A B} (o : outcome OperationFailure A) (f : A → eff S B) s a :
  o = Ok a → (lift o ≫= f) s = f a s.
Proof. by intros ->. Qed.

Lemma reading_run {A B} (g : S → outcome OperationFailure A) (f : A → eff S B) s a :
  g s = Ok a → (reading g ≫= f) s = f a s.
Proof. intros Hg. apply bind_run. unfold reading. by rewrite Hg. Qed.
End effects.
