(* ===== verification/Locator.v ===== *)
(** * NATS locators: [src/crates/pardosa-nats/src/adapter.rs], [NatsLocator] and
    [subjects_for_stem]

    A hierarchy of tokens names the two streams of an artefact and their
    subjects. The fields of a locator that [from_tokens] computes are kept as
    the code keeps them. *)

From S2P Require Export Failure.

(** [is_ascii_alphanumeric], or one of the two other bytes allowed. *)
Definition is_nats_safe (b : byte) : bool :=
  in_range 48 57 b || in_range 65 90 b || in_range 97 122 b ||
  bool_decide (b = "_"%byte) || bool_decide (b = "-"%byte).

(** [[String]::join]. *)
Fixpoint join (sep : bytes) (tokens : list bytes) : bytes :=
  match tokens with
  | [] => []
  | [token] => token
  | token :: tokens => token ++ sep ++ join sep tokens
  end.

Record NatsLocator := mk_NatsLocator {
  tokens : list bytes;
  stream_stem : bytes;
  subject_prefix : bytes;
  loc_meta_stream_name : bytes;
  loc_data_stream_name : bytes;
  loc_meta_subject : bytes;
  loc_data_subject : bytes;
}.
#[export] Instance NatsLocator_eq_dec : EqDecision NatsLocator.
Proof. solve_decision. Defined.

Definition verify_token (token : bytes) : outcome OperationFailure unit :=
  if is_empty token then fail (violated ValueConstraint_Empty) else
  if negb (forallb is_nats_safe token) then fail (violated ValueConstraint_InvalidChar) else
  Ok tt.

Fixpoint verify_tokens (tokens : list bytes) : outcome OperationFailure unit :=
  match tokens with
  | [] => Ok tt
  | token :: tokens => _ ← verify_token token; verify_tokens tokens
  end.

Definition from_tokens (tokens : list bytes) : outcome OperationFailure NatsLocator :=
  if is_empty tokens then fail (violated ValueConstraint_Empty) else
  _ ← verify_tokens tokens;
  let subject_prefix := join (str ".") tokens in
  let stream_stem := join (str "-") tokens in
  if 128 <? blen stream_stem then fail (violated ValueConstraint_TooLong) else
  Ok (mk_NatsLocator tokens stream_stem subject_prefix
        (stream_stem ++ str "_meta") (stream_stem ++ str "_data")
        (subject_prefix ++ str ".meta") (subject_prefix ++ str ".data")).

Definition NatsLocator_new (tokens : list bytes) : outcome OperationFailure NatsLocator :=
  from_tokens tokens.
Definition from_stem (stem : bytes) : outcome OperationFailure NatsLocator :=
  NatsLocator_new [stem].
Definition child (l : NatsLocator) (token : bytes) : outcome OperationFailure NatsLocator :=
  from_tokens (tokens l ++ [token]).

Definition legacy_meta_subject (l : NatsLocator) : bytes := stream_stem l ++ str "_meta".
Definition legacy_data_subject (l : NatsLocator) : bytes := stream_stem l ++ str "_data".

(** The [expect] at the end is a panic. *)
Definition from_synthetic_stem {E} (stem : bytes) : outcome E NatsLocator :=
  let sanitized := (λ b, if is_nats_safe b then b else "-"%byte) <$> stem in
  let sanitized := if is_empty sanitized then str "_" else sanitized in
  let sanitized := take 128 sanitized in
  match from_tokens [sanitized] with
  | Ok l => Ok l
  | _ => Panic
  end.

(** The locator and the two subjects of a stem. *)
Definition subjects_for_stem {E} (stem : bytes) : outcome E (NatsLocator * bytes * bytes) :=
  match from_stem stem with
  | Ok locator => Ok (locator, loc_meta_subject locator, loc_data_subject locator)
  | Err _ =>
      locator ← from_synthetic_stem stem;
      Ok (locator, stem ++ str "_meta", stem ++ str "_data")
  | Panic => Panic
  end.

(** ** Specification *)

Definition token_wf (token : bytes) : Prop :=
  token ≠ [] ∧ forallb is_nats_safe token = true.
Definition tokens_wf (ts : list bytes) : Prop :=
  ts ≠ [] ∧ Forall token_wf ts ∧ blen (join (str "-") ts) ≤ 128.
#[export] Instance tokens_wf_dec ts : Decision (tokens_wf ts).
Proof. unfold tokens_wf, token_wf. apply _. Defined.

(** The locator of a hierarchy. *)
Definition locator_of (ts : list bytes) : NatsLocator :=
  mk_NatsLocator ts (join (str "-") ts) (join (str ".") ts)
    (join (str "-") ts ++ str "_meta") (join (str "-") ts ++ str "_data")
    (join (str ".") ts ++ str ".meta") (join (str ".") ts ++ str ".data").

Lemma verify_token_cases token :
  match verify_token token with
  | Ok _ => token_wf token
  | Err _ => ¬ token_wf token
  | Panic => False
  end.
Proof.
  unfold verify_token, token_wf. destruct token as [|b token]; [cbn; naive_solver|].
  cbn [is_empty]. destruct (forallb _ _); cbn; naive_solver.
Qed.

Lemma verify_tokens_cases ts :
  match verify_tokens ts with
  | Ok _ => Forall token_wf ts
  | Err _ => ¬ Forall token_wf ts
  | Panic => False
  end.
Proof.
  induction ts as [|t ts IH]; [constructor|]. cbn [verify_tokens].
  pose proof (verify_token_cases t).
  destruct (verify_token t); cbn; [destruct (verify_tokens ts)| |]; rewrite ?Forall_cons; tauto.
Qed.

Lemma from_tokens_cases ts :
  match from_tokens ts with
  | Ok l => tokens_wf ts ∧ l = locator_of ts
  | Err _ => ¬ tokens_wf ts
  | Panic => False
  end.
Proof.
  unfold from_tokens, tokens_wf. destruct ts as [|t ts]; [cbn; naive_solver|]. cbn [is_empty].
  pose proof (verify_tokens_cases (t :: ts)).
  destruct (verify_tokens (t :: ts)); [|cbn; tauto|done]. rewrite bind_of_Ok. cbv zeta.
  destruct (Z.ltb_spec 128 (blen (join (str "-") (t :: ts)))) as [Hl|Hl].
  - intros (_&_&?). cbn in *. lia.
  - split; [|done]. split; [done|]. split; [done|]. cbn in *. lia.
Qed.

(** A dot is in no token, so a dotted name is cut in one way. *)
Lemma safe_not_dot token : forallb is_nats_safe token = true → "."%byte ∉ token.
Proof.
  rewrite forallb_forall. intros Hf Hin%list_elem_of_In%Hf. by vm_compute in Hin.
Qed.

Lemma cut_at_dot (t1 t2 r1 r2 : bytes) :
  "."%byte ∉ t1 → "."%byte ∉ t2 →
  t1 ++ "."%byte :: r1 = t2 ++ "."%byte :: r2 → t1 = t2 ∧ r1 = r2.
Proof.
  revert t2. induction t1 as [|b t1 IH]; intros [|c t2] H1 H2 He; cbn in He.
  - by injection He.
  - injection He as <- _. destruct H2. by left.
  - injection He as -> _. destruct H1. by left.
  - injection He as -> He. rewrite not_elem_of_cons in H1, H2.
    destruct (IH t2) as [-> ->]; [tauto..|done|done].
Qed.

Lemma join_cons sep t t' ts : join sep (t :: t' :: ts) = t ++ sep ++ join sep (t' :: ts).
Proof. done. Qed.

Lemma join_dot_inj s ts1 : ∀ ts2,
  "."%byte ∉ s → ts1 ≠ [] → ts2 ≠ [] → Forall token_wf ts1 → Forall token_wf ts2 →
  join (str ".") ts1 ++ "."%byte :: s = join (str ".") ts2 ++ "."%byte :: s → ts1 = ts2.
Proof.
  intros ts2 Hs. revert ts2.
  assert (∀ t ts, Forall token_wf (t :: ts) →
    "."%byte ∉ t ∧ ∃ r, join (str ".") (t :: ts) ++ "."%byte :: s = t ++ "."%byte :: r ∧
      (ts = [] → r = s) ∧ (∀ t' ts', ts = t' :: ts' → r = join (str ".") ts ++ "."%byte :: s))
    as Hcut.
  { intros t ts [[_ Ht] _]%Forall_cons. split; [by apply safe_not_dot|].
    destruct ts as [|t' ts].
    - exists s. split; [done|]. split; [done|]. by intros ? ? ?.
    - exists (join (str ".") (t' :: ts) ++ "."%byte :: s). rewrite join_cons.
      split; [by rewrite <-!app_assoc|]. by split. }
  assert (∀ t ts, Forall token_wf (t :: ts) → s ≠ join (str ".") (t :: ts) ++ "."%byte :: s) as Hlen.
  { intros t ts _ He. apply (f_equal length) in He. rewrite length_app in He. cbn in He. lia. }
  induction ts1 as [|t1 ts1 IH]; intros [|t2 ts2] H1 H2 W1 W2 He; try done.
  destruct (Hcut t1 ts1 W1) as (D1&r1&E1&N1&C1), (Hcut t2 ts2 W2) as (D2&r2&E2&N2&C2).
  rewrite E1, E2 in He. apply cut_at_dot in He as [<- <-]; [|done..].
  apply Forall_cons in W1 as [_ W1], W2 as [_ W2]. f_equal.
  destruct ts1 as [|t1' ts1], ts2 as [|t2' ts2]; [done|..].
  - exfalso. apply (Hlen t2' ts2 W2). by rewrite <-(C2 _ _ eq_refl), N1.
  - exfalso. apply (Hlen t1' ts1 W1). by rewrite <-(C1 _ _ eq_refl), N2.
  - apply IH; [done..|]. by rewrite <-(C1 _ _ eq_refl), <-(C2 _ _ eq_refl).
Qed.

Lemma from_tokens_Ok ts l : from_tokens ts = Ok l ↔ tokens_wf ts ∧ l = locator_of ts.
Proof. pose proof (from_tokens_cases ts). destruct (from_tokens ts); naive_solver. Qed.

Lemma synthetic_token_wf stem :
  let sanitized := (λ b, if is_nats_safe b then b else "-"%byte) <$> stem in
  tokens_wf [take 128 (if is_empty sanitized then str "_" else sanitized)].
Proof.
  cbv zeta. split; [done|]. split.
  - apply Forall_singleton. destruct stem as [|b stem]; [done|]. cbn [fmap list_fmap is_empty].
    split; [done|]. apply forallb_forall. intros x Hx%list_elem_of_In.
    assert (x ∈ (λ b, if is_nats_safe b then b else "-"%byte) <$> (b :: stem)) as Hm.
    { rewrite <-(take_drop 128 (_ <$> _)). apply elem_of_app. left. exact Hx. }
    apply list_elem_of_fmap in Hm as (c&->&_).
    by destruct (is_nats_safe c) eqn:?.
  - cbn [join]. unfold blen. rewrite length_take. lia.
Qed.

Lemma from_synthetic_stem_Ok {E} stem :
  ∃ token, token_wf token ∧ from_synthetic_stem (E:=E) stem = Ok (locator_of [token]).
Proof.
  pose proof (synthetic_token_wf stem) as Hw. cbv zeta in Hw. unfold from_synthetic_stem. cbv zeta.
  set (token := take 128 _) in *. exists token.
  destruct Hw as (Hn&Hf&Hl). split; [by rewrite Forall_singleton in Hf|].
  by rewrite (proj2 (from_tokens_Ok _ _) (conj (conj Hn (conj Hf Hl)) eq_refl)).
Qed.

(** Two hierarchies with one stem. *)
Lemma stream_names_collide :
  ∃ l1 l2, NatsLocator_new [str "a-b"] = Ok l1 ∧ NatsLocator_new [str "a"; str "b"] = Ok l2 ∧
    loc_meta_stream_name l1 = loc_meta_stream_name l2 ∧
    loc_data_stream_name l1 = loc_data_stream_name l2 ∧
    loc_meta_subject l1 ≠ loc_meta_subject l2 ∧ loc_data_subject l1 ≠ loc_data_subject l2.
Proof.
  eexists _, _. split; [by vm_compute|]. split; [by vm_compute|]. cbn. repeat split; done.
Qed.

(** ** Properties *)

(** C35: locators name artefacts. A hierarchy is admitted exactly when it has
    tokens, each non-empty and of safe bytes, and a stem of at most 128 bytes;
    its stream names then take at most 133. Hierarchies are told apart by either
    of their subjects, but not by their stream names: a token may hold the dash
    that joins them. And any stem at all gets a locator: the fallback never panics
    and gives one admitted token. *)
Theorem locator_naming :
  (∀ ts l, from_tokens ts = Ok l ↔ tokens_wf ts ∧ l = locator_of ts) ∧
  (∀ ts l, from_tokens ts = Ok l →
     blen (loc_meta_stream_name l) ≤ 133 ∧ blen (loc_data_stream_name l) ≤ 133) ∧
  (∀ ts1 ts2 l1 l2, from_tokens ts1 = Ok l1 → from_tokens ts2 = Ok l2 →
     loc_meta_subject l1 = loc_meta_subject l2 ∨ loc_data_subject l1 = loc_data_subject l2 →
     l1 = l2) ∧
  (∃ l1 l2, NatsLocator_new [str "a-b"] = Ok l1 ∧ NatsLocator_new [str "a"; str "b"] = Ok l2 ∧
     loc_meta_stream_name l1 = loc_meta_stream_name l2 ∧
     loc_data_stream_name l1 = loc_data_stream_name l2 ∧
     loc_meta_subject l1 ≠ loc_meta_subject l2 ∧ loc_data_subject l1 ≠ loc_data_subject l2) ∧
  (∀ stem, ∃ l meta data token, subjects_for_stem (E:=OperationFailure) stem = Ok (l, meta, data) ∧
     token_wf token ∧ l = locator_of [token]).
Proof.
  split; [apply from_tokens_Ok|]. split; [|split; [|split; [exact stream_names_collide|]]].
  - intros ts l [(_&_&Hl) ->]%from_tokens_Ok.
    unfold locator_of; cbn [loc_meta_stream_name loc_data_stream_name]; rewrite !blen_app.
    change (blen (str "_meta")) with 5; change (blen (str "_data")) with 5.
    split; apply Z.le_trans with (128 + 5); lia.
  - intros ts1 ts2 l1 l2 [(N1&W1&_) ->]%from_tokens_Ok [(N2&W2&_) ->]%from_tokens_Ok Hs.
    assert (ts1 = ts2) as ->; [|done]. destruct Hs as [Hs|Hs].
    + apply (join_dot_inj (str "meta")); try done. by apply (bool_decide_unpack _).
    + apply (join_dot_inj (str "data")); try done. by apply (bool_decide_unpack _).
  - intros stem. unfold subjects_for_stem, from_stem, NatsLocator_new.
    pose proof (from_tokens_cases [stem]) as Hc. destruct (from_tokens [stem]) as [l|?|]; [..|done].
    + destruct Hc as [(_&Hf&_) ->]. rewrite Forall_singleton in Hf. by eexists _, _, _, stem.
    + destruct (from_synthetic_stem_Ok (E:=OperationFailure) stem) as (token&Hw&->).
      by eexists _, _, _, token.
Qed.
