(* ===== verification/Fiber.v ===== *)
(** * Fibers: [src/crates/pardosa/src/store.rs], [store/fiber_handle.rs]

    The five-state lifecycle of a fiber, the boundary of a reopened store, and
    the handle that mints the envelopes of one fiber. A method that takes
    [&mut self] returns its result and the handle afterwards. *)

From S2P Require Export Envelope Failure.

(** ** The lifecycle *)

Inductive FiberState :=
  | FiberState_Undefined
  | FiberState_Defined
  | FiberState_Detached
  | FiberState_Purged
  | FiberState_Locked.

Inductive FiberMigrationPolicy :=
  | FiberMigrationPolicy_Keep
  | FiberMigrationPolicy_Purge
  | FiberMigrationPolicy_LockAndPrune.

Inductive LockedRescuePolicy :=
  | LockedRescuePolicy_PreserveAuditTrail
  | LockedRescuePolicy_AcceptDataLoss.

Inductive AttemptedTransition :=
  | AttemptedTransition_Create
  | AttemptedTransition_Update
  | AttemptedTransition_Detach
  | AttemptedTransition_Rescue
  | AttemptedTransition_Migrate (policy : FiberMigrationPolicy).

#[export] Instance FiberState_eq_dec : EqDecision FiberState.
Proof. solve_decision. Defined.
#[export] Instance FiberMigrationPolicy_eq_dec : EqDecision FiberMigrationPolicy.
Proof. solve_decision. Defined.
#[export] Instance AttemptedTransition_eq_dec : EqDecision AttemptedTransition.
Proof. solve_decision. Defined.

Record IllegalStateTransition := mk_IllegalStateTransition {
  from : FiberState;
  attempted : AttemptedTransition;
}.

Definition apply_action (s : FiberState) (action : AttemptedTransition) :
    outcome IllegalStateTransition FiberState :=
  match s, action with
  | FiberState_Defined, AttemptedTransition_Detach => Ok FiberState_Detached
  | FiberState_Detached, AttemptedTransition_Migrate FiberMigrationPolicy_Keep =>
      Ok FiberState_Detached
  | FiberState_Detached, AttemptedTransition_Migrate FiberMigrationPolicy_LockAndPrune =>
      Ok FiberState_Locked
  | (FiberState_Detached | FiberState_Locked),
    AttemptedTransition_Migrate FiberMigrationPolicy_Purge => Ok FiberState_Purged
  | (FiberState_Undefined | FiberState_Purged), AttemptedTransition_Create
  | FiberState_Defined, AttemptedTransition_Update
  | (FiberState_Detached | FiberState_Locked), AttemptedTransition_Rescue =>
      Ok FiberState_Defined
  | _, _ => Err (mk_IllegalStateTransition s action)
  end.

Definition FiberState_create s := apply_action s AttemptedTransition_Create.
Definition FiberState_update s := apply_action s AttemptedTransition_Update.
Definition FiberState_detach s := apply_action s AttemptedTransition_Detach.
Definition FiberState_rescue s := apply_action s AttemptedTransition_Rescue.
Definition FiberState_migrate s policy := apply_action s (AttemptedTransition_Migrate policy).

Definition rescue_locked (s : FiberState) (_ : LockedRescuePolicy) :
    outcome IllegalStateTransition FiberState :=
  match s with
  | FiberState_Locked => Ok FiberState_Defined
  | _ => Err (mk_IllegalStateTransition s AttemptedTransition_Rescue)
  end.

Definition is_reopened_valid (s : FiberState) : bool :=
  match s with FiberState_Locked => false | _ => true end.

(** ** The boundary of a reopened store *)

Inductive ReopenedFiberState :=
  | ReopenedFiberState_Undefined
  | ReopenedFiberState_Defined
  | ReopenedFiberState_Detached
  | ReopenedFiberState_Purged.

Definition to_fiber_state (s : ReopenedFiberState) : FiberState :=
  match s with
  | ReopenedFiberState_Undefined => FiberState_Undefined
  | ReopenedFiberState_Defined => FiberState_Defined
  | ReopenedFiberState_Detached => FiberState_Detached
  | ReopenedFiberState_Purged => FiberState_Purged
  end.

Record ReopenedStoreBoundary := mk_ReopenedStoreBoundary {
  rb_fiber_states : list (bytes * ReopenedFiberState);
  rb_mode : MigrationMode;
}.

Fixpoint reopened_states (raw : list (bytes * FiberState)) :
    outcome IllegalOpenCombination (list (bytes * ReopenedFiberState)) :=
  match raw with
  | [] => Ok []
  | (id, state) :: raw =>
      reopened_state ←
        match state with
        | FiberState_Locked => Err IllegalOpenCombination_LockedStateOnReopen
        | FiberState_Undefined => Ok ReopenedFiberState_Undefined
        | FiberState_Defined => Ok ReopenedFiberState_Defined
        | FiberState_Detached => Ok ReopenedFiberState_Detached
        | FiberState_Purged => Ok ReopenedFiberState_Purged
        end;
      rest ← reopened_states raw;
      Ok ((id, reopened_state) :: rest)
  end.

Definition ReopenedStoreBoundary_validate (raw_fiber_states : list (bytes * FiberState))
    (mode : MigrationMode) (removed_fiber_identities : list bytes) :
    outcome IllegalOpenCombination ReopenedStoreBoundary :=
  if bool_decide (mode = MigrationMode_Migrating)
  then Err IllegalOpenCombination_MigratingModeOnReopen else
  if negb (is_empty removed_fiber_identities)
  then Err IllegalOpenCombination_RemovedIdentitiesOnReopen else
  states ← reopened_states raw_fiber_states;
  Ok (mk_ReopenedStoreBoundary states MigrationMode_Steady).

(** ** The handle *)

Definition MAX_EVENTS_PER_FIBER : Z := 100000.

Record FiberHandle := mk_FiberHandle {
  fh_fiber_id : bytes;        (* [u8; 16] *)
  fh_state : FiberState;
  fh_precursor : bytes;       (* [u8; 16] *)
  fh_precursor_hash : bytes;  (* [u8; 32] *)
  fh_event_count : Z;         (* u64 *)
}.
#[export] Instance FiberHandle_eq_dec : EqDecision FiberHandle.
Proof. solve_decision. Defined.

Definition FiberHandle_new (fid : bytes) : FiberHandle :=
  mk_FiberHandle fid FiberState_Undefined zero16 zero32 0.

Definition FiberHandle_with_state (fid : bytes) (state : FiberState) (pre pre_hash : bytes)
    (count : Z) : outcome OperationFailure FiberHandle :=
  _ ←
    match state with
    | FiberState_Undefined | FiberState_Purged =>
        if bool_decide (pre ≠ zero16) || bool_decide (pre_hash ≠ zero32) || negb (count =? 0)
        then fail FailureCondition_InvariantBreakingConfiguration else Ok ()
    | FiberState_Defined | FiberState_Detached | FiberState_Locked =>
        if bool_decide (pre = zero16) || bool_decide (pre_hash = zero32) || (count =? 0)
           || (MAX_EVENTS_PER_FIBER <? count)
        then fail FailureCondition_InvariantBreakingConfiguration else Ok ()
    end;
  Ok (mk_FiberHandle fid state pre pre_hash count).

Definition is_active h : bool := bool_decide (fh_state h = FiberState_Defined).
Definition is_detached h : bool := bool_decide (fh_state h = FiberState_Detached).
Definition is_locked h : bool := bool_decide (fh_state h = FiberState_Locked).
Definition is_purged h : bool := bool_decide (fh_state h = FiberState_Purged).
Definition is_undefined h : bool := bool_decide (fh_state h = FiberState_Undefined).

Section handle.
Context `{Digests}.

(** The loop over the recorded envelopes. *)
Fixpoint from_envelopes_loop (fid : bytes) (idx : Z) (current_state : FiberState)
    (prev_event_id prev_commitment : bytes) (seen_ids : gset bytes)
    (envelopes : list EventEnvelope) :
    outcome OperationFailure (FiberState * bytes * bytes) :=
  match envelopes with
  | [] => Ok (current_state, prev_event_id, prev_commitment)
  | env :: envelopes =>
      if bool_decide (event_id (header env) = zero16)
      then fail (violated ValueConstraint_Empty) else
      if bool_decide (event_id (header env) ∈ seen_ids) then fail broken else
      if bool_decide (fiber_id (header env) ≠ fid)
      then fail (broken_by CausalChainError_PrecursorWrongFiber) else
      if (if idx =? 0
          then bool_decide (precursor (header env) ≠ zero16) ||
               bool_decide (precursor_hash (header env) ≠ zero32)
          else bool_decide (precursor (header env) ≠ prev_event_id) ||
               bool_decide (precursor_hash (header env) ≠ prev_commitment))
      then fail broken else
      from_envelopes_loop fid (idx + 1)
        (if detached (header env) then FiberState_Detached else FiberState_Defined)
        (event_id (header env)) (EventEnvelope_commitment env)
        ({[event_id (header env)]} ∪ seen_ids) envelopes
  end.

Definition FiberHandle_from_envelopes (fid : bytes) (envelopes : list EventEnvelope) :
    outcome OperationFailure FiberHandle :=
  if is_empty envelopes then Ok (FiberHandle_new fid) else
  if MAX_EVENTS_PER_FIBER <? blen envelopes
  then fail (violated ValueConstraint_TooLong) else
  '(current_state, prev_event_id, prev_commitment) ←
    from_envelopes_loop fid 0 FiberState_Undefined zero16 zero32 ∅ envelopes;
  Ok (mk_FiberHandle fid current_state prev_event_id prev_commitment (blen envelopes)).

Definition FiberHandle_append (h : FiberHandle) (eid p : bytes) :
    outcome OperationFailure EventEnvelope * FiberHandle :=
  if bool_decide (eid = zero16) then (fail (violated ValueConstraint_Empty), h) else
  if bool_decide (eid = fh_precursor h) then (fail broken, h) else
  if MAX_EVENTS_PER_FIBER <=? fh_event_count h
  then (fail (violated ValueConstraint_TooLong), h) else
  let next_count := fh_event_count h + 1 in
  match fh_state h with
  | FiberState_Undefined | FiberState_Purged =>
      match EventEnvelope_genesis eid (fh_fiber_id h) p with
      | Ok envelope =>
          (Ok envelope,
           mk_FiberHandle (fh_fiber_id h) FiberState_Defined eid
             (EventEnvelope_commitment envelope) next_count)
      | Err _ => (fail (violated ValueConstraint_Empty), h)
      | Panic => (Panic, h)
      end
  | FiberState_Defined =>
      let envelope :=
        mk_EventEnvelope
          (mk_EnvelopeHeader eid (fh_fiber_id h) false (fh_precursor h) (fh_precursor_hash h)) p in
      (Ok envelope,
       mk_FiberHandle (fh_fiber_id h) (fh_state h) eid
         (EventEnvelope_commitment envelope) next_count)
  | FiberState_Detached | FiberState_Locked =>
      (fail FailureCondition_InvariantBreakingConfiguration, h)
  end.

Definition FiberHandle_detach (h : FiberHandle) (eid p : bytes) :
    outcome OperationFailure EventEnvelope * FiberHandle :=
  if bool_decide (eid = zero16) then (fail (violated ValueConstraint_Empty), h) else
  if bool_decide (eid = fh_precursor h) then (fail broken, h) else
  if MAX_EVENTS_PER_FIBER <=? fh_event_count h
  then (fail (violated ValueConstraint_TooLong), h) else
  let next_count := fh_event_count h + 1 in
  match fh_state h with
  | FiberState_Defined =>
      let envelope :=
        mk_EventEnvelope
          (mk_EnvelopeHeader eid (fh_fiber_id h) true (fh_precursor h) (fh_precursor_hash h)) p in
      (Ok envelope,
       mk_FiberHandle (fh_fiber_id h) FiberState_Detached eid
         (EventEnvelope_commitment envelope) next_count)
  | FiberState_Undefined | FiberState_Detached | FiberState_Purged | FiberState_Locked =>
      (fail FailureCondition_InvariantBreakingConfiguration, h)
  end.

Definition FiberHandle_rescue (h : FiberHandle) (eid p : bytes) :
    outcome OperationFailure EventEnvelope * FiberHandle :=
  if bool_decide (eid = zero16) then (fail (violated ValueConstraint_Empty), h) else
  if bool_decide (eid = fh_precursor h) then (fail broken, h) else
  if MAX_EVENTS_PER_FIBER <=? fh_event_count h
  then (fail (violated ValueConstraint_TooLong), h) else
  let next_count := fh_event_count h + 1 in
  match fh_state h with
  | FiberState_Detached =>
      let envelope :=
        mk_EventEnvelope
          (mk_EnvelopeHeader eid (fh_fiber_id h) false (fh_precursor h) (fh_precursor_hash h)) p in
      (Ok envelope,
       mk_FiberHandle (fh_fiber_id h) FiberState_Defined eid
         (EventEnvelope_commitment envelope) next_count)
  | FiberState_Locked =>
      match EventEnvelope_genesis eid (fh_fiber_id h) p with
      | Ok envelope =>
          (Ok envelope,
           mk_FiberHandle (fh_fiber_id h) FiberState_Defined eid
             (EventEnvelope_commitment envelope) next_count)
      | Err _ => (fail (violated ValueConstraint_Empty), h)
      | Panic => (Panic, h)
      end
  | FiberState_Undefined | FiberState_Defined | FiberState_Purged =>
      (fail FailureCondition_InvariantBreakingConfiguration, h)
  end.
End handle.

(** ** Specification of the lifecycle: the ten legal transitions *)

Inductive legal : FiberState → AttemptedTransition → FiberState → Prop :=
  | legal_create :
      legal FiberState_Undefined AttemptedTransition_Create FiberState_Defined
  | legal_recreate :
      legal FiberState_Purged AttemptedTransition_Create FiberState_Defined
  | legal_update :
      legal FiberState_Defined AttemptedTransition_Update FiberState_Defined
  | legal_detach :
      legal FiberState_Defined AttemptedTransition_Detach FiberState_Detached
  | legal_rescue :
      legal FiberState_Detached AttemptedTransition_Rescue FiberState_Defined
  | legal_rescue_locked :
      legal FiberState_Locked AttemptedTransition_Rescue FiberState_Defined
  | legal_keep :
      legal FiberState_Detached
        (AttemptedTransition_Migrate FiberMigrationPolicy_Keep) FiberState_Detached
  | legal_lock :
      legal FiberState_Detached
        (AttemptedTransition_Migrate FiberMigrationPolicy_LockAndPrune) FiberState_Locked
  | legal_purge :
      legal FiberState_Detached
        (AttemptedTransition_Migrate FiberMigrationPolicy_Purge) FiberState_Purged
  | legal_purge_locked :
      legal FiberState_Locked
        (AttemptedTransition_Migrate FiberMigrationPolicy_Purge) FiberState_Purged.

(** A lifetime: the actions a fiber went through. *)
Inductive lifetime : FiberState → list AttemptedTransition → FiberState → Prop :=
  | lifetime_nil s : lifetime s [] s
  | lifetime_snoc s acts s' a s'' :
      lifetime s acts s' → legal s' a s'' → lifetime s (acts ++ [a]) s''.

Lemma apply_action_legal s a s' : apply_action s a = Ok s' ↔ legal s a s'.
Proof.
  split.
  - destruct s, a as [| | | |[]]; intros [= <-]; constructor.
  - by destruct 1.
Qed.

Lemma apply_action_not_panic s a : apply_action s a ≠ Panic.
Proof. by destruct s, a as [| | | |[]]. Qed.

Definition is_migration (a : AttemptedTransition) : bool :=
  match a with AttemptedTransition_Migrate _ => true | _ => false end.

(** Outside migration no fiber becomes locked or purged. *)
Lemma steady_lifetime acts s :
  lifetime FiberState_Undefined acts s → Forall (λ a, is_migration a = false) acts →
  is_reopened_valid s = true ∧ s ≠ FiberState_Purged ∧
  (s = FiberState_Undefined ↔ acts = []).
Proof.
  remember FiberState_Undefined as s0 eqn:H0.
  induction 1 as [|s acts s' a s'' Hl IH Ha]; intros Hm; subst; [done|].
  apply Forall_app in Hm as [Hm [Ha' _]%Forall_cons].
  specialize (IH eq_refl Hm) as (?&?&?).
  destruct Ha; simpl in *; try discriminate;
    (split; [done|split; [done|]]); (split; [done|by intros []%app_nil]).
Qed.

(** ** Specification of a recorded fiber *)

Section chains.
Context `{Digests}.
Implicit Types (e p : EventEnvelope) (es l : list EventEnvelope).

Definition tip_state (e : EventEnvelope) : FiberState :=
  if detached (header e) then FiberState_Detached else FiberState_Defined.

(** An envelope extends its predecessor, or starts a fiber. *)
Definition link_ok (prev : option EventEnvelope) (e : EventEnvelope) : Prop :=
  match prev with
  | None => precursor (header e) = zero16 ∧ precursor_hash (header e) = zero32
  | Some p =>
      precursor (header e) = event_id (header p) ∧
      precursor_hash (header e) = EventEnvelope_commitment p
  end.
Definition entry_ok (fid : bytes) (e : EventEnvelope) : Prop :=
  event_id (header e) ≠ zero16 ∧ fiber_id (header e) = fid.

Definition event_ids (es : list EventEnvelope) : list bytes := (event_id ∘ header) <$> es.

(** A history of the fiber [fid]: every envelope belongs to it and links to
    the one before it, and no event identifier occurs twice. *)
Record valid_chain (fid : bytes) (es : list EventEnvelope) : Prop := {
  chain_links : ∀ i e, es !! i = Some e →
    entry_ok fid e ∧ link_ok (match i with O => None | S j => es !! j end) e;
  chain_unique : NoDup (event_ids es);
}.

(** The handle at the tip of a history. *)
Definition handle_of (fid : bytes) (es : list EventEnvelope) : FiberHandle :=
  match last es with
  | None => FiberHandle_new fid
  | Some e =>
      mk_FiberHandle fid (tip_state e) (event_id (header e))
        (EventEnvelope_commitment e) (blen es)
  end.

(** Two envelopes whose commitments collide. *)
Definition collision (e1 e2 : EventEnvelope) : Prop :=
  commitment_preimage (header e1) (payload e1) ≠ commitment_preimage (header e2) (payload e2) ∧
  EventEnvelope_commitment e1 = EventEnvelope_commitment e2.

#[export] Instance link_ok_dec prev e : Decision (link_ok prev e).
Proof. destruct prev; apply _. Defined.
#[export] Instance entry_ok_dec fid e : Decision (entry_ok fid e).
Proof. unfold entry_ok. apply _. Defined.

Fixpoint links (fid : bytes) (prev : option EventEnvelope) (es : list EventEnvelope) : Prop :=
  match es with
  | [] => True
  | e :: es => entry_ok fid e ∧ link_ok prev e ∧ links fid (Some e) es
  end.

Lemma links_lookup fid prev es :
  links fid prev es ↔
    ∀ i e, es !! i = Some e →
      entry_ok fid e ∧ link_ok (match i with O => prev | S j => es !! j end) e.
Proof.
  revert prev. induction es as [|x es IH]; intros prev; simpl; [naive_solver|].
  rewrite IH. split.
  - intros (?&?&Hes) [|i] e He; simpl in He; [naive_solver|].
    destruct (Hes i e He). by destruct i.
  - intros Hes. destruct (Hes 0%nat x eq_refl) as [??].
    split; [done|]. split; [done|]. intros i e He.
    destruct (Hes (S i) e He) as [??]. by destruct i.
Qed.

Lemma valid_chain_iff fid es :
  valid_chain fid es ↔ links fid None es ∧ NoDup (event_ids es).
Proof.
  rewrite links_lookup. split; [by intros []|by intros [??]].
Qed.

(** The predecessor of what comes after [es]. *)
Definition tip_of (prev : option EventEnvelope) (es : list EventEnvelope) :=
  match last es with Some e => Some e | None => prev end.

Lemma tip_of_cons prev e es : tip_of prev (e :: es) = tip_of (Some e) es.
Proof. unfold tip_of. rewrite last_cons. by destruct (last es). Qed.

Lemma tip_of_None es : tip_of None es = last es.
Proof. unfold tip_of. by destruct (last es). Qed.

Lemma links_snoc fid prev es e :
  links fid prev (es ++ [e]) ↔ links fid prev es ∧ entry_ok fid e ∧ link_ok (tip_of prev es) e.
Proof.
  revert prev. induction es as [|x es IH]; intros prev; simpl; [tauto|].
  rewrite IH, tip_of_cons. tauto.
Qed.

Lemma valid_chain_snoc fid es e :
  valid_chain fid (es ++ [e]) ↔
    valid_chain fid es ∧ entry_ok fid e ∧ link_ok (last es) e ∧
    event_id (header e) ∉ event_ids es.
Proof.
  rewrite !valid_chain_iff, links_snoc. unfold event_ids.
  rewrite fmap_app, NoDup_app. simpl.
  rewrite tip_of_None.
  split.
  - intros ((?&?&?)&?&Hn&_). split; [done|]. split; [done|]. split; [done|]. intros Hin.
    by apply (Hn _ Hin), list_elem_of_singleton.
  - intros ((?&?)&?&?&Hn). split; [done|]. split; [done|]. split; [|apply NoDup_singleton].
    by intros x Hx ->%list_elem_of_singleton.
Qed.

Lemma handle_of_count fid es : fh_event_count (handle_of fid es) = blen es.
Proof.
  unfold handle_of. destruct (last es) eqn:Hn; [done|]. by apply last_None in Hn as ->.
Qed.

Lemma handle_of_snoc fid es e :
  handle_of fid (es ++ [e]) =
    mk_FiberHandle fid (tip_state e) (event_id (header e)) (EventEnvelope_commitment e)
      (blen es + 1).
Proof. unfold handle_of. rewrite last_snoc. f_equal. len. Qed.

(** The state of the loop after the envelopes [es]. *)
Lemma from_envelopes_loop_Ok fid es : ∀ prev idx st pid pc seen r,
  0 ≤ idx → (idx = 0 ↔ prev = None) →
  (∀ p, prev = Some p → pid = event_id (header p) ∧ pc = EventEnvelope_commitment p) →
  from_envelopes_loop fid idx st pid pc seen es = Ok r ↔
    links fid prev es ∧ NoDup (event_ids es) ∧ (∀ x, x ∈ event_ids es → x ∉ seen) ∧
    r = match last es with
        | None => (st, pid, pc)
        | Some e => (tip_state e, event_id (header e), EventEnvelope_commitment e)
        end.
Proof.
  induction es as [|e es IH]; intros prev idx st pid pc seen r Hi Hprev Hp; simpl.
  { split; [intros [= <-]|intros (_&_&_&->)]; [|done].
    split; [done|]. split; [constructor|]. split; [|done].
    intros x Hx. by apply not_elem_of_nil in Hx. }
  assert (match prev with None => idx = 0 | Some _ => idx ≠ 0 end) as Hidx
    by (destruct prev; [by intros ?%Hprev|by apply Hprev]).
  assert (∀ b, (if idx =? 0
          then bool_decide (precursor (header e) ≠ zero16) ||
               bool_decide (precursor_hash (header e) ≠ zero32)
          else bool_decide (precursor (header e) ≠ pid) ||
               bool_decide (precursor_hash (header e) ≠ pc)) = b →
          b = negb (bool_decide (link_ok prev e))) as Hlink.
  { intros b <-. destruct prev as [p|].
    - rewrite (proj2 (Z.eqb_neq _ _)) by done. destruct (Hp p eq_refl) as [-> ->].
      simpl. by rewrite bool_decide_and, !bool_decide_not, negb_andb.
    - subst idx. simpl. by rewrite bool_decide_and, !bool_decide_not, negb_andb. }
  rewrite (Hlink _ eq_refl). clear Hlink Hidx. unfold event_ids. simpl.
  rewrite NoDup_cons. unfold fail.
  case_bool_decide as Hz; [split; [done|intros ((?&?)&_); by destruct H0]|].
  case_bool_decide as Hseen.
  { split; [done|]. intros (_&_&Hs&_). destruct (Hs _ (list_elem_of_here _ _)). done. }
  case_bool_decide as Hfid; [split; [done|intros (([_ ?]&_)&_); done]|].
  case_bool_decide as Hl; simpl; [|split; [done|intros ((_&?&_)&_); done]].
  rewrite (IH (Some e)) by (lia || (split; [lia|done]) || by intros ? [= <-]).
  rewrite last_cons.
  assert (entry_ok fid e) by (split; [done|by destruct (decide (fiber_id (header e) = fid))]).
  fold (event_ids es). split.
  - intros (?&?&Hs&->). split; [done|]. split; [split; [|done]|].
    + intros Hin. apply (Hs _ Hin), elem_of_union_l. by apply elem_of_singleton.
    + split; [|by destruct (last es)].
      intros x [->|Hx]%elem_of_cons; [done|]. intros ?. apply (Hs x Hx).
      by apply elem_of_union_r.
  - intros ((_&_&?)&[??]&Hs&->). split; [done|]. split; [done|]. split.
    + intros x Hx [->%elem_of_singleton|Hx']%elem_of_union; [done|].
      by apply (Hs x); [apply elem_of_cons; right|].
    + by destruct (last es).
Qed.

(** A handle is reconstituted exactly from the valid histories of its fiber. *)
Lemma from_envelopes_iff fid es h :
  FiberHandle_from_envelopes fid es = Ok h ↔
    valid_chain fid es ∧ blen es ≤ MAX_EVENTS_PER_FIBER ∧ h = handle_of fid es.
Proof.
  unfold FiberHandle_from_envelopes, handle_of, MAX_EVENTS_PER_FIBER.
  rewrite valid_chain_iff. destruct es as [|e es].
  { simpl. split; [intros [= <-]|by intros (_&_&->)].
    split; [split; [done|constructor]|]. split; [len|done]. }
  simpl is_empty. cbv iota. destruct (_ <? _) eqn:Hlen.
  { split; [done|]. intros (_&?&_). lia. }
  rewrite bind_Ok. split.
  - intros ([[st pid] pc]&Hl%(from_envelopes_loop_Ok _ _ None)&[= <-]); [|done..].
    destruct Hl as (?&?&_&Hr). rewrite last_cons in *. split; [done|]. split; [lia|].
    destruct (last es); simplify_eq/=; done.
  - intros ([??]&?&->). eexists. split.
    + apply (from_envelopes_loop_Ok _ _ None); [done..|]. split; [done|]. split; [done|].
      split; [intros x _; apply not_elem_of_empty|reflexivity].
    + rewrite last_cons. by destruct (last es).
Qed.

(** The tip of a history commits to all of it: two histories of the same
    length and tip are equal, or exhibit a collision. *)
Lemma chain_binding fid l1 : ∀ l2,
  links fid None l1 → links fid None l2 →
  Forall (λ e, EnvelopeHeader_wf (header e)) (l1 ++ l2) →
  length l1 = length l2 →
  EventEnvelope_commitment <$> last l1 = EventEnvelope_commitment <$> last l2 →
  l1 = l2 ∨ ∃ e1 e2, e1 ∈ l1 ∧ e2 ∈ l2 ∧ collision e1 e2.
Proof.
  induction l1 as [|e1 l1 IH] using rev_ind; intros l2 H1 H2 Hw Hlen Htip.
  { left. by destruct l2. }
  destruct l2 as [|e2 l2 _] using rev_ind; [rewrite length_app in Hlen; simpl in Hlen; lia|].
  rewrite !length_app, Nat.add_cancel_r in Hlen. rewrite !last_snoc in Htip.
  injection Htip as Htip. apply links_snoc in H1 as (H1&_&Hl1), H2 as (H2&_&Hl2).
  rewrite !Forall_app, !Forall_singleton in Hw. destruct Hw as [[??][??]].
  destruct (decide (commitment_preimage (header e1) (payload e1) =
                    commitment_preimage (header e2) (payload e2))) as [Heq|Hne].
  - apply commitment_preimage_inj in Heq as [Hh Hp]; [|done..].
    assert (e1 = e2) as <- by (destruct e1, e2; simpl in *; congruence).
    destruct (IH l2) as [->|(x&y&?&?&?)]; [done|done|by apply Forall_app|done|..].
    + unfold tip_of in *. destruct (last l1) as [a|] eqn:Ha, (last l2) as [b|] eqn:Hb;
        simpl in *; [f_equal; by destruct Hl1 as [_ <-], Hl2 as [_ <-]|..|done].
      * apply last_None in Hb as ->. apply nil_length_inv in Hlen as ->. done.
      * apply last_None in Ha as ->. by destruct l2.
    + by left.
    + right. exists x, y. rewrite !elem_of_app. auto.
  - right. exists e1, e2. rewrite !elem_of_app, !list_elem_of_singleton. auto.
    split; [auto|]. split; [auto|]. done.
Qed.
End chains.

(** ** The operations of a handle *)

Inductive fiber_op := op_append | op_detach | op_rescue.

Section operations.
Context `{Digests}.

Definition run_op (op : fiber_op) (h : FiberHandle) (eid p : bytes) :
    outcome OperationFailure EventEnvelope * FiberHandle :=
  match op with
  | op_append => FiberHandle_append h eid p
  | op_detach => FiberHandle_detach h eid p
  | op_rescue => FiberHandle_rescue h eid p
  end.

(** The lifecycle transition an operation attempts. *)
Definition op_action (op : fiber_op) (s : FiberState) : AttemptedTransition :=
  match op, s with
  | op_append, (FiberState_Undefined | FiberState_Purged) => AttemptedTransition_Create
  | op_append, _ => AttemptedTransition_Update
  | op_detach, _ => AttemptedTransition_Detach
  | op_rescue, _ => AttemptedTransition_Rescue
  end.

(** States from which the next envelope starts a new chain. *)
Definition starts_chain (s : FiberState) : bool :=
  match s with
  | FiberState_Undefined | FiberState_Purged | FiberState_Locked => true
  | _ => false
  end.

(** The envelope an operation mints and the handle it leaves. *)
Definition minted (op : fiber_op) (h : FiberHandle) (eid p : bytes) : EventEnvelope :=
  mk_EventEnvelope
    (mk_EnvelopeHeader eid (fh_fiber_id h)
       (match op with op_detach => true | _ => false end)
       (if starts_chain (fh_state h) then zero16 else fh_precursor h)
       (if starts_chain (fh_state h) then zero32 else fh_precursor_hash h)) p.
Definition advanced (h : FiberHandle) (s : FiberState) (e : EventEnvelope) : FiberHandle :=
  mk_FiberHandle (fh_fiber_id h) s (event_id (header e)) (EventEnvelope_commitment e)
    (fh_event_count h + 1).

(** The contract of the three operations: they succeed exactly on a fresh
    identifier, below the event bound, along a legal transition, and for a
    payload that fits when a chain starts; on failure the handle is kept. *)
Definition op_admissible (op : fiber_op) (h : FiberHandle) (eid p : bytes) : Prop :=
  eid ≠ zero16 ∧ eid ≠ fh_precursor h ∧ fh_event_count h < MAX_EVENTS_PER_FIBER ∧
  is_ok (apply_action (fh_state h) (op_action op (fh_state h))) = true ∧
  (starts_chain (fh_state h) = true → 85 + blen p ≤ u32_max).

Lemma genesis_cases eid fid p :
  eid ≠ zero16 →
  EventEnvelope_genesis eid fid p =
    if 85 + blen p <=? u32_max
    then Ok (mk_EventEnvelope (mk_EnvelopeHeader eid fid false zero16 zero32) p)
    else Err too_long.
Proof.
  intros. unfold EventEnvelope_genesis. rewrite bool_decide_eq_false_2 by done.
  rewrite envelope_wire_len_cases by (done || apply blen_nonneg).
  rewrite Z.add_comm. by destruct (_ <=? _).
Qed.

(** The guards the three operations share. *)
Lemma run_op_guards op h eid p :
  run_op op h eid p =
    if bool_decide (eid = zero16) then (fail (violated ValueConstraint_Empty), h) else
    if bool_decide (eid = fh_precursor h) then (fail broken, h) else
    if MAX_EVENTS_PER_FIBER <=? fh_event_count h
    then (fail (violated ValueConstraint_TooLong), h) else run_op op h eid p.
Proof.
  destruct op; simpl; unfold FiberHandle_append, FiberHandle_detach, FiberHandle_rescue;
    repeat case_bool_decide; try done; by destruct (MAX_EVENTS_PER_FIBER <=? _).
Qed.

Lemma run_op_cases op h eid p :
  (op_admissible op h eid p ∧
   ∃ s', apply_action (fh_state h) (op_action op (fh_state h)) = Ok s' ∧
     run_op op h eid p = (Ok (minted op h eid p), advanced h s' (minted op h eid p))) ∨
  (¬ op_admissible op h eid p ∧ ∃ c, run_op op h eid p = (fail c, h)).
Proof.
  rewrite run_op_guards. unfold op_admissible.
  case_bool_decide as Hz; [right; split; [by intros (?&_)|by eexists]|].
  case_bool_decide as Hp; [right; split; [by intros (_&?&_)|by eexists]|].
  destruct (_ <=? _) eqn:Hm; [right; split; [intros; lia|by eexists]|].
  destruct op; simpl; unfold FiberHandle_append, FiberHandle_detach, FiberHandle_rescue;
    unfold minted, advanced; rewrite !bool_decide_eq_false_2, Hm by done;
    destruct (fh_state h) eqn:Hs; rewrite ?genesis_cases by done;
    try destruct (85 + blen p <=? u32_max) eqn:Hfit; simpl;
    first [ right; split; [intros (_&_&_&?&?); (done || naive_solver lia)|by eexists]
          | left; split; [do 3 (split; [done || lia|]); split; [done|intros; lia || done]
                         |eexists; split; reflexivity] ].
Qed.

(** ** The invariant of a handle *)

Definition handle_wf (h : FiberHandle) : Prop :=
  is_array 16 (fh_fiber_id h) ∧ is_array 16 (fh_precursor h) ∧
  is_array 32 (fh_precursor_hash h) ∧
  match fh_state h with
  | FiberState_Undefined | FiberState_Purged =>
      fh_precursor h = zero16 ∧ fh_precursor_hash h = zero32 ∧ fh_event_count h = 0
  | _ => fh_precursor h ≠ zero16 ∧ 1 ≤ fh_event_count h ≤ MAX_EVENTS_PER_FIBER
  end.
#[export] Instance handle_wf_dec h : Decision (handle_wf h).
Proof. unfold handle_wf. destruct (fh_state h); apply _. Defined.

Lemma handle_wf_count h : handle_wf h → 0 ≤ fh_event_count h ≤ MAX_EVENTS_PER_FIBER.
Proof.
  unfold handle_wf, MAX_EVENTS_PER_FIBER. intros (_&_&_&Hs). destruct (fh_state h); lia.
Qed.

Lemma apply_action_defined op s s' :
  apply_action s (op_action op s) = Ok s' →
  s' = match op with op_detach => FiberState_Detached | _ => FiberState_Defined end.
Proof. destruct op, s; simpl; congruence. Qed.

Lemma run_op_wf `{!DigestLaws} op h eid p :
  handle_wf h → is_array 16 eid → handle_wf (run_op op h eid p).2.
Proof.
  intros Hw Heid. pose proof (handle_wf_count h Hw).
  destruct (run_op_cases op h eid p) as [[(Hz&_&Hm&_) (s'&Hs&->)]|[_ [c ->]]]; [|done].
  apply apply_action_defined in Hs as ->. destruct Hw as (?&?&?&_).
  unfold advanced, minted; split; [done|]. split; [done|].
  split; [apply commitment_length|]. simpl. destruct op; solve_wf.
Qed.

(** ** Runs *)

Fixpoint run_ops (h : FiberHandle) (ops : list (fiber_op * bytes * bytes)) :
    FiberHandle * list EventEnvelope :=
  match ops with
  | [] => (h, [])
  | (op, eid, p) :: ops =>
      match run_op op h eid p with
      | (Ok e, h') => let '(h'', log) := run_ops h' ops in (h'', e :: log)
      | (_, h') => run_ops h' ops
      end
  end.

(** An operation on the handle of a history extends the history. *)
Lemma run_op_extends fid es op eid p e h' :
  links fid None es → run_op op (handle_of fid es) eid p = (Ok e, h') →
  h' = handle_of fid (es ++ [e]) ∧ links fid None (es ++ [e]) ∧
  blen (es ++ [e]) ≤ MAX_EVENTS_PER_FIBER.
Proof.
  intros Hl Hr. destruct (run_op_cases op (handle_of fid es) eid p)
    as [[(Hz&_&Hm&_) (s'&Hs&Hr')]|[_ [c Hr']]]; rewrite Hr in Hr'; [|done].
  injection Hr' as -> ->. apply apply_action_defined in Hs as Hs'. subst s'.
  rewrite handle_of_count in Hm. rewrite handle_of_snoc, links_snoc. unfold advanced, minted, tip_state, tip_of, handle_of in *.
  destruct (last es) as [x|] eqn:Hlast; simpl in *.
  - split; [f_equal; by destruct op|]. split; [|len]. split; [done|]. split; [done|].
    assert (starts_chain (tip_state x) = false) as -> by
      (unfold tip_state; by destruct (detached _)). done.
  - apply last_None in Hlast as ->.
    split; [f_equal; by destruct op|]. split; [done|len].
Qed.

Lemma run_ops_history fid ops : ∀ es h log,
  links fid None es → blen es ≤ MAX_EVENTS_PER_FIBER →
  run_ops (handle_of fid es) ops = (h, log) →
  h = handle_of fid (es ++ log) ∧ links fid None (es ++ log) ∧
  blen (es ++ log) ≤ MAX_EVENTS_PER_FIBER.
Proof.
  induction ops as [|[[op eid] p] ops IH]; intros es h log Hl Hm Hr; simpl in Hr.
  { injection Hr as <- <-. by rewrite app_nil_r. }
  destruct (run_op op (handle_of fid es) eid p) as [[e|c|] h'] eqn:Hop.
  - apply run_op_extends in Hop as (->&Hl'&Hm'); [|done].
    destruct (run_ops _ ops) as [h'' log'] eqn:Hrun. injection Hr as <- <-.
    apply IH in Hrun as [-> Hl'']; [|done..].
    rewrite <-app_assoc in *. done.
  - destruct (run_op_cases op (handle_of fid es) eid p) as [[_ (?&_&Hc)]|[_ [? Hc]]];
      rewrite Hop in Hc; [done|]. injection Hc as _ ->. eauto.
  - destruct (run_op_cases op (handle_of fid es) eid p) as [[_ (?&_&Hc)]|[_ [? Hc]]];
      by rewrite Hop in Hc.
Qed.
End operations.

(** ** Properties *)

Section properties.
Context `{Digests}.

(** C14: an operation on a handle succeeds exactly when the event identifier
    is fresh, the event bound is not reached, the transition is one of the
    ten legal ones and a chain-starting payload fits the wire; it then mints
    the envelope linked to the handle's tip and moves the handle along that
    transition. In every other case it reports a condition and the handle is
    unchanged; it never panics. *)
Theorem handle_operation_contract op h eid p :
  (op_admissible op h eid p →
    ∃ s', legal (fh_state h) (op_action op (fh_state h)) s' ∧
      run_op op h eid p = (Ok (minted op h eid p), advanced h s' (minted op h eid p))) ∧
  (¬ op_admissible op h eid p → ∃ c, run_op op h eid p = (fail c, h)).
Proof.
  destruct (run_op_cases op h eid p) as [[Ha (s'&Hs&Hr)]|[Ha Hr]]; split; try done.
  intros _. exists s'. split; [by apply apply_action_legal|done].
Qed.

(** The invariant of a handle (array widths, an empty tip exactly in the
    undefined and purged states, an event count within its bound) holds for
    a new handle, for every handle [with_state] accepts, and after every
    operation, failed or not. *)
Theorem handle_invariant `{!DigestLaws} :
  (∀ fid, is_array 16 fid → handle_wf (FiberHandle_new fid)) ∧
  (∀ fid s pre hash count h,
     is_array 16 fid → is_array 16 pre → is_array 32 hash → 0 ≤ count →
     FiberHandle_with_state fid s pre hash count = Ok h → handle_wf h) ∧
  (∀ op h eid p, handle_wf h → is_array 16 eid → handle_wf (run_op op h eid p).2).
Proof.
  split; [|split].
  - intros. by repeat split.
  - intros fid s pre hash count h ???? Hs. unfold FiberHandle_with_state in Hs.
    unfold MAX_EVENTS_PER_FIBER in Hs.
    destruct s; ok_inv;
      repeat match goal with Hb : _ || _ = false |- _ =>
        apply orb_false_iff in Hb as [? ?] end;
      repeat match goal with Hb : bool_decide _ = false |- _ =>
        apply bool_decide_eq_false_1 in Hb end;
      unfold handle_wf, MAX_EVENTS_PER_FIBER; simpl; do 3 (split; [done|]).
    1,4: split; [by apply dec_stable|]; split; [by apply dec_stable|lia].
    all: split; [done|lia].
  - intros. by apply run_op_wf.
Qed.

(** Reconstitution inverts the handle's own log: running any operations
    on a new handle, failures included, and replaying the envelopes that
    were minted gives the same handle, as long as no identifier is reused. *)
Theorem replay_reconstructs_handle fid ops h log :
  run_ops (FiberHandle_new fid) ops = (h, log) → NoDup (event_ids log) →
  FiberHandle_from_envelopes fid log = Ok h.
Proof.
  intros Hr Hd. apply (run_ops_history fid ops []) in Hr as (->&Hl&Hm); [|done..].
  apply from_envelopes_iff. rewrite valid_chain_iff. done.
Qed.

(** C13: a handle is reconstituted from a sequence of envelopes exactly when
    the sequence is a valid history of the fiber of at most 100,000 events,
    and the handle is then the one at its tip. *)
Theorem reconstitution_exact fid es h :
  FiberHandle_from_envelopes fid es = Ok h ↔
    valid_chain fid es ∧ blen es ≤ MAX_EVENTS_PER_FIBER ∧ h = handle_of fid es.
Proof. apply from_envelopes_iff. Qed.

(** C9: the handle commits to the whole history: two envelope sequences that
    reconstitute the same handle are identical, or two of their envelopes
    exhibit a BLAKE3 collision. *)
Theorem handle_binds_history fid es1 es2 h :
  Forall (λ e, EnvelopeHeader_wf (header e)) (es1 ++ es2) →
  FiberHandle_from_envelopes fid es1 = Ok h → FiberHandle_from_envelopes fid es2 = Ok h →
  es1 = es2 ∨ ∃ e1 e2, e1 ∈ es1 ∧ e2 ∈ es2 ∧ collision e1 e2.
Proof.
  intros Hw (H1&_&->)%from_envelopes_iff (H2&_&Heq)%from_envelopes_iff.
  apply valid_chain_iff in H1 as [H1 _], H2 as [H2 _].
  pose proof (f_equal fh_event_count Heq) as Hn. rewrite !handle_of_count in Hn.
  unfold handle_of in Heq. destruct (last es1) eqn:E1.
  - destruct (last es2) eqn:E2; [|apply last_None in E2 as ->; by apply blen_0_nil in Hn as ->].
    eapply chain_binding; try done; [unfold blen in Hn; lia|].
    rewrite E1, E2. simpl. by injection Heq as _ _ ->.
  - left. apply last_None in E1 as ->. symmetry. by apply blen_0_nil.
Qed.
End properties.

(** ** The lifecycle and the reopened boundary *)

(** A sequence of actions, stopping at the first illegal one. *)
Fixpoint apply_actions (s : FiberState) (acts : list AttemptedTransition) :
    outcome IllegalStateTransition FiberState :=
  match acts with
  | [] => Ok s
  | a :: acts => s' ← apply_action s a; apply_actions s' acts
  end.

Lemma lifetime_cons s a s' acts s'' :
  legal s a s' → lifetime s' acts s'' → lifetime s (a :: acts) s''.
Proof.
  intros Ha. induction 1 as [s'|s' acts t b t' ? IH Hb].
  - apply (lifetime_snoc _ [] s); [constructor|done].
  - apply (lifetime_snoc _ (a :: acts) t); auto.
Qed.

Lemma apply_actions_app s l k :
  apply_actions s (l ++ k) = (s' ← apply_actions s l; apply_actions s' k).
Proof. revert s. induction l as [|a l IH]; intros s; simpl; [done|]. destruct (apply_action s a); simpl; auto. Qed.

Lemma apply_actions_lifetime s acts s' : apply_actions s acts = Ok s' ↔ lifetime s acts s'.
Proof.
  split.
  - revert s. induction acts as [|a acts IH]; intros s H; simpl in H.
    + injection H as <-. constructor.
    + ok_inv. eapply lifetime_cons; [by apply apply_action_legal|eauto].
  - induction 1 as [|s acts t a t' ? IH Ha%apply_action_legal]; [done|].
    rewrite apply_actions_app, IH. simpl. by rewrite Ha.
Qed.

Definition reopen (e : bytes * ReopenedFiberState) : bytes * FiberState :=
  (e.1, to_fiber_state e.2).

Lemma reopened_states_Ok raw l : reopened_states raw = Ok l ↔ raw = reopen <$> l.
Proof.
  revert l. induction raw as [|[id s] raw IH]; intros l; simpl.
  - split; [intros [= <-]; done|]. by destruct l.
  - split.
    + intros H. destruct s; ok_inv; simpl; f_equal; by apply IH.
    + destruct l as [|[id' s'] l]; [done|]. intros [= -> -> ->].
      rewrite (proj2 (IH l) eq_refl). by destruct s'.
Qed.

(** Actions are applied along the ten legal transitions and no others;
    a lifetime without migration never reaches the locked or the purged state,
    and no lifetime returns to the undefined state. *)
Theorem lifecycle_reachability acts s :
  apply_actions FiberState_Undefined acts = Ok s →
  lifetime FiberState_Undefined acts s ∧
  (s = FiberState_Undefined → acts = []) ∧
  (Forall (λ a, is_migration a = false) acts →
   s ≠ FiberState_Locked ∧ s ≠ FiberState_Purged).
Proof.
  intros Hl%apply_actions_lifetime. split; [done|]. split.
  - intros ->. inversion Hl as [|? ? ? ? ? ? Ha]; [done|]. inversion Ha.
  - intros (Hr&?&_)%(steady_lifetime acts s Hl). split; [|done]. by intros ->.
Qed.

(** The boundary of a reopened store admits exactly a steady artefact with
    no removed identities and no locked fiber, and keeps every fiber's
    identifier, state and position. *)
Theorem reopened_boundary_exact raw mode removed b :
  ReopenedStoreBoundary_validate raw mode removed = Ok b ↔
    mode = MigrationMode_Steady ∧ removed = [] ∧ rb_mode b = MigrationMode_Steady ∧
    raw = reopen <$> rb_fiber_states b.
Proof.
  unfold ReopenedStoreBoundary_validate. destruct mode;
    [|rewrite bool_decide_eq_true_2 by done; naive_solver].
  rewrite bool_decide_eq_false_2 by done. destruct removed; [|naive_solver].
  simpl. rewrite bind_Ok. split.
  - intros (l&Hl%reopened_states_Ok&[= <-]). done.
  - intros (_&_&Hm&Hr%reopened_states_Ok). exists (rb_fiber_states b).
    split; [done|]. destruct b. simpl in *. by rewrite Hm.
Qed.

(** A live fiber accepts a payload that cannot be written. On a handle in
    the defined state below its event bound, appending or detaching with a fresh
    identifier and any payload longer than [u32::MAX - 85] bytes succeeds and
    advances the handle, and the envelope minted is one the encoder refuses
    (on a new fiber the same payload is refused and the handle kept). *)
Theorem oversized_append_advances `{Digests} op h eid p :
  op ≠ op_rescue → fh_state h = FiberState_Defined → eid ≠ zero16 → eid ≠ fh_precursor h →
  fh_event_count h < MAX_EVENTS_PER_FIBER → u32_max - 85 < blen p →
  (∃ e h', run_op op h eid p = (Ok e, h') ∧ fh_event_count h' = fh_event_count h + 1 ∧
     fh_precursor h' = eid ∧ ∀ buf, EventEnvelope_encode e buf = (Err too_long, buf)) ∧
  ∃ c, run_op op (FiberHandle_new (fh_fiber_id h)) eid p =
    (fail c, FiberHandle_new (fh_fiber_id h)).
Proof.
  intros Hop Hs Hz Hp Hm Hlen. split.
  - destruct (run_op_cases op h eid p) as [[_ (s'&_&Hr)]|[Hn _]].
    + do 2 eexists. split; [exact Hr|]. do 2 (split; [done|]). intros buf.
      rewrite EventEnvelope_encode_spec. by destruct (blen _ + 85 <=? u32_max) eqn:?; [simpl in *; lia|].
    + destruct Hn. unfold op_admissible. rewrite Hs. do 3 (split; [done|]). by destruct op.
  - destruct (run_op_cases op (FiberHandle_new (fh_fiber_id h)) eid p) as [[Ha _]|[_ Hr]]; [|done].
    destruct Ha as (_&_&_&Hl&Hfit). exfalso. destruct op; simpl in *; [|done|done].
    specialize (Hfit eq_refl). lia.
Qed.

(** ** The properties at concrete inputs *)

Definition sample_chain : list EventEnvelope :=
  let e1 := sample_envelope [x2a] in
  [e1; mk_EventEnvelope (mk_EnvelopeHeader (sample_id x03) (sample_id x02) false (sample_id x01)
         (@EventEnvelope_commitment toy_digests e1)) [x2b]].

Lemma sample_chain_valid : @valid_chain toy_digests (sample_id x02) sample_chain.
Proof.
  apply valid_chain_iff. split; [|by (apply (bool_decide_unpack _); vm_compute)].
  repeat split; vm_compute; done.
Qed.

Definition sample_handle : FiberHandle := FiberHandle_new (sample_id x02).

Lemma handle_operation_contract_witness :
  ∃ s', legal FiberState_Undefined AttemptedTransition_Create s' ∧
    @run_op toy_digests op_append sample_handle (sample_id x01) [x2a] =
      (Ok (sample_envelope [x2a]), @advanced toy_digests sample_handle s' (sample_envelope [x2a])).
Proof.
  apply (@handle_operation_contract toy_digests op_append sample_handle (sample_id x01) [x2a]).
  do 2 (split; [done|]). by vm_compute.
Defined.

Lemma handle_invariant_witness :
  handle_wf (@run_op toy_digests op_append sample_handle (sample_id x01) [x2a]).2.
Proof.
  apply (@handle_invariant toy_digests toy_digest_laws); [|done].
  by apply (@handle_invariant toy_digests toy_digest_laws).
Defined.

Lemma replay_reconstructs_handle_witness :
  @FiberHandle_from_envelopes toy_digests (sample_id x02) sample_chain =
    Ok (@handle_of toy_digests (sample_id x02) sample_chain).
Proof.
  apply (@replay_reconstructs_handle toy_digests (sample_id x02)
    [(op_append, sample_id x01, [x2a]); (op_rescue, sample_id x09, []);
     (op_append, sample_id x03, [x2b])]).
  - by vm_compute.
  - by (apply (bool_decide_unpack _); vm_compute).
Defined.

Lemma handle_binds_history_witness :
  sample_chain = sample_chain ∨
  ∃ e1 e2, e1 ∈ sample_chain ∧ e2 ∈ sample_chain ∧ @collision toy_digests e1 e2.
Proof.
  apply (@handle_binds_history toy_digests (sample_id x02) sample_chain sample_chain
           (@handle_of toy_digests (sample_id x02) sample_chain)); [|by vm_compute..].
  by (apply (bool_decide_unpack _); vm_compute).
Defined.

Lemma lifecycle_reachability_witness :
  let acts := [AttemptedTransition_Create; AttemptedTransition_Detach; AttemptedTransition_Rescue] in
  lifetime FiberState_Undefined acts FiberState_Defined ∧
  (FiberState_Defined = FiberState_Undefined → acts = []) ∧
  (Forall (λ a, is_migration a = false) acts →
   FiberState_Defined ≠ FiberState_Locked ∧ FiberState_Defined ≠ FiberState_Purged).
Proof. intros acts. by apply (lifecycle_reachability acts FiberState_Defined). Defined.

Lemma oversized_append_advances_witness :
  let p := replicate (Z.to_nat u32_max) x00 in
  let h := @handle_of toy_digests (sample_id x02) sample_chain in
  (∃ e h', @run_op toy_digests op_append h (sample_id x04) p = (Ok e, h') ∧
     fh_event_count h' = fh_event_count h + 1 ∧ fh_precursor h' = sample_id x04 ∧
     ∀ buf, EventEnvelope_encode e buf = (Err too_long, buf)) ∧
  ∃ c, @run_op toy_digests op_append (FiberHandle_new (fh_fiber_id h)) (sample_id x04) p =
    (fail c, FiberHandle_new (fh_fiber_id h)).
Proof.
  assert (u32_max - 85 < blen (replicate (Z.to_nat u32_max) x00)) as Hp.
  { unfold blen. rewrite length_replicate, Z2Nat.id by (unfold u32_max; lia).
    unfold u32_max. lia. }
  revert Hp. generalize (replicate (Z.to_nat u32_max) x00) as p. intros p Hp p' h.
  apply (@oversized_append_advances toy_digests op_append h (sample_id x04) p);
    [by vm_compute..|exact Hp].
Defined.
