(* ===== verification/SessionIndex.v ===== *)
(** * The session index: [src/crates/pardosa/src/store/session_index.rs]

    The in-memory index of a session: the tip of every fiber, the event
    identifiers seen, and the fibers found broken during recovery. A broken
    slot's reason string, a diagnostic, is not kept. A method that takes
    [&mut self] returns its result and the index afterwards. *)

From S2P Require Export Fiber.

Definition MAX_ACTIVE_FIBERS : Z := 100000.

Record FiberTip := mk_FiberTip {
  tip_envelope : EventEnvelope;
  tip_event_count : Z;  (* u64 *)
}.

Inductive FiberSlot :=
  | FiberSlot_Active (tip : FiberTip)
  | FiberSlot_Broken (event_count : Z).

#[export] Instance FiberTip_eq_dec : EqDecision FiberTip.
Proof. solve_decision. Defined.
#[export] Instance FiberSlot_eq_dec : EqDecision FiberSlot.
Proof. solve_decision. Defined.

Record SessionIndex := mk_SessionIndex {
  fibers : gmap bytes FiberSlot;
  seen_event_ids : gset bytes;
  si_revision : Z;  (* u64 *)
  si_has_raw_frames : bool;
}.

Definition SessionIndex_new : SessionIndex := mk_SessionIndex ∅ ∅ 0 false.

Definition mark_has_raw_frames (idx : SessionIndex) : SessionIndex :=
  mk_SessionIndex (fibers idx) (seen_event_ids idx)
    (u64_wrapping_add (si_revision idx) 1) true.

(** [HashMap::len] and [HashSet::len]. *)
Definition map_len {A} (m : gmap bytes A) : Z := Z.of_nat (size m).
Definition set_len (s : gset bytes) : Z := Z.of_nat (size s).

Definition slot_count (slot : option FiberSlot) : Z :=
  match slot with
  | Some (FiberSlot_Active tip) => tip_event_count tip
  | Some (FiberSlot_Broken n) => n
  | None => 0
  end.

Definition mark_fiber_broken (idx : SessionIndex) (fid : bytes) :
    outcome OperationFailure unit * SessionIndex :=
  if bool_decide (fibers idx !! fid = None) && (MAX_ACTIVE_FIBERS <=? map_len (fibers idx))
  then (fail (violated ValueConstraint_TooLong), idx) else
  let event_count := slot_count (fibers idx !! fid) in
  (Ok (),
   mk_SessionIndex (<[fid := FiberSlot_Broken event_count]> (fibers idx)) (seen_event_ids idx)
     (u64_wrapping_add (si_revision idx) 1) (si_has_raw_frames idx)).

Definition invalidate_fiber (idx : SessionIndex) (fid : bytes) :
    outcome OperationFailure unit * SessionIndex :=
  mark_fiber_broken idx fid.

Definition is_broken_slot (slot : FiberSlot) : bool :=
  match slot with FiberSlot_Broken _ => true | FiberSlot_Active _ => false end.

Definition has_broken_fibers (idx : SessionIndex) : bool :=
  existsb (λ e, is_broken_slot e.2) (map_to_list (fibers idx)).

Definition SessionIndex_len (idx : SessionIndex) : Z :=
  blen (List.filter (λ e, negb (is_broken_slot e.2)) (map_to_list (fibers idx))).

Definition SessionIndex_is_empty (idx : SessionIndex) : bool := SessionIndex_len idx =? 0.

Definition get_latest (idx : SessionIndex) (fid : bytes) :
    outcome OperationFailure (option EventEnvelope) :=
  if si_has_raw_frames idx then fail FailureCondition_EnvelopeMismatch else
  match fibers idx !! fid with
  | Some (FiberSlot_Active tip) => Ok (Some (tip_envelope tip))
  | Some (FiberSlot_Broken _) => fail broken
  | None => Ok None
  end.

Definition index_event_count (idx : SessionIndex) (fid : bytes) : outcome OperationFailure Z :=
  if si_has_raw_frames idx then fail FailureCondition_EnvelopeMismatch else
  match fibers idx !! fid with
  | Some (FiberSlot_Active tip) => Ok (tip_event_count tip)
  | Some (FiberSlot_Broken _) => fail broken
  | None => Ok 0
  end.

Definition max_seen_events : Z :=
  saturating_mul MAX_ACTIVE_FIBERS MAX_EVENTS_PER_FIBER.

Section index.
Context `{Digests}.

Definition index_fiber (idx : SessionIndex) (fid : bytes) :
    outcome OperationFailure FiberHandle :=
  if si_has_raw_frames idx then fail FailureCondition_EnvelopeMismatch else
  match fibers idx !! fid with
  | Some (FiberSlot_Active tip) =>
      let state :=
        if detached (header (tip_envelope tip))
        then FiberState_Detached else FiberState_Defined in
      FiberHandle_with_state fid state (event_id (header (tip_envelope tip)))
        (EventEnvelope_commitment (tip_envelope tip)) (tip_event_count tip)
  | Some (FiberSlot_Broken _) => fail broken
  | None => Ok (FiberHandle_new fid)
  end.

Definition validate_append (idx : SessionIndex) (env : EventEnvelope) :
    outcome OperationFailure unit :=
  if si_has_raw_frames idx then fail FailureCondition_EnvelopeMismatch else
  if bool_decide (event_id (header env) = zero16)
  then fail (violated ValueConstraint_Empty) else
  if bool_decide (event_id (header env) ∈ seen_event_ids idx) then fail broken else
  if max_seen_events <=? set_len (seen_event_ids idx)
  then fail (violated ValueConstraint_TooLong) else
  match fibers idx !! fiber_id (header env) with
  | Some (FiberSlot_Broken _) => fail FailureCondition_InvariantBreakingConfiguration
  | Some (FiberSlot_Active tip) =>
      if bool_decide (precursor (header env) = zero16) then fail broken else
      if bool_decide (precursor (header env) ≠ event_id (header (tip_envelope tip)))
      then fail broken else
      if bool_decide (precursor_hash (header env) ≠ EventEnvelope_commitment (tip_envelope tip))
      then fail broken else
      if MAX_EVENTS_PER_FIBER <=? tip_event_count tip
      then fail (violated ValueConstraint_TooLong) else
      Ok ()
  | None =>
      if MAX_ACTIVE_FIBERS <=? map_len (fibers idx)
      then fail (violated ValueConstraint_TooLong) else
      if bool_decide (precursor (header env) ≠ zero16) ||
         bool_decide (precursor_hash (header env) ≠ zero32)
      then fail broken else
      Ok ()
  end.

Definition prepare_append (idx : SessionIndex) (env : EventEnvelope) :
    outcome OperationFailure unit :=
  validate_append idx env.

Definition commit_envelope_unchecked (idx : SessionIndex) (env : EventEnvelope) :
    SessionIndex :=
  let fid := fiber_id (header env) in
  let slot :=
    match fibers idx !! fid with
    | Some (FiberSlot_Active tip) =>
        FiberSlot_Active (mk_FiberTip env (tip_event_count tip + 1))
    | _ => FiberSlot_Active (mk_FiberTip env 1)
    end in
  mk_SessionIndex (<[fid := slot]> (fibers idx))
    ({[event_id (header env)]} ∪ seen_event_ids idx)
    (u64_wrapping_add (si_revision idx) 1) (si_has_raw_frames idx).

Definition commit_envelope (idx : SessionIndex) (env : EventEnvelope) :
    outcome OperationFailure unit * SessionIndex :=
  match validate_append idx env with
  | Ok _ => (Ok (), commit_envelope_unchecked idx env)
  | Err e => (Err e, idx)
  | Panic => (Panic, idx)
  end.
End index.

Definition decode_and_validate_frame (frame : bytes) :
    outcome OperationFailure EventEnvelope :=
  '(env, consumed) ←
    map_err (λ _, OperationFailure_new FailureCondition_EnvelopeMismatch)
      (EventEnvelope_decode frame);
  if negb (consumed =? blen frame) then fail FailureCondition_EnvelopeMismatch else
  Ok env.

(** The event count of a broken fiber is advanced before the capacity of the
    seen set is checked. *)
Definition record_broken_event_id (idx : SessionIndex) (fid eid : bytes) :
    outcome OperationFailure unit * SessionIndex :=
  match
    match fibers idx !! fid with
    | Some (FiberSlot_Broken event_count) =>
        next_count ←
          ok_or (u64_checked_add event_count 1)
            (OperationFailure_new (violated ValueConstraint_TooLong));
        if MAX_EVENTS_PER_FIBER <? next_count then fail (violated ValueConstraint_TooLong) else
        Ok (<[fid := FiberSlot_Broken next_count]> (fibers idx))
    | _ => Ok (fibers idx)
    end
  with
  | Ok fs =>
      let idx :=
        mk_SessionIndex fs (seen_event_ids idx) (si_revision idx) (si_has_raw_frames idx) in
      if bool_decide (eid ∉ seen_event_ids idx) then
        if max_seen_events <=? set_len (seen_event_ids idx)
        then (fail (violated ValueConstraint_TooLong), idx) else
        (Ok (),
         mk_SessionIndex fs ({[eid]} ∪ seen_event_ids idx) (si_revision idx)
           (si_has_raw_frames idx))
      else (Ok (), idx)
  | Err e => (Err e, idx)
  | Panic => (Panic, idx)
  end.

Definition is_chain_broken (f : OperationFailure) : bool :=
  match condition f with FailureCondition_PrecursorChainBroken _ => true | _ => false end.

Section recovery.
Context `{Digests}.

Definition process_frame (idx : SessionIndex) (frame : bytes) :
    outcome OperationFailure unit * SessionIndex :=
  if blen frame <? 85 then (fail FailureCondition_EnvelopeMismatch, idx) else
  match
    map_err (λ _, OperationFailure_new FailureCondition_EnvelopeMismatch)
      (decode_and_validate_frame frame)
  with
  | Err e => (Err e, idx)
  | Panic => (Panic, idx)
  | Ok env =>
      match fibers idx !! fiber_id (header env) with
      | Some (FiberSlot_Broken _) =>
          record_broken_event_id idx (fiber_id (header env)) (event_id (header env))
      | _ =>
          match validate_append idx env with
          | Ok _ => (Ok (), commit_envelope_unchecked idx env)
          | Panic => (Panic, idx)
          | Err err =>
              if is_chain_broken err then
                match mark_fiber_broken idx (fiber_id (header env)) with
                | (Ok _, idx) =>
                    record_broken_event_id idx (fiber_id (header env)) (event_id (header env))
                | failed => failed
                end
              else (Err err, idx)
          end
      end
  end.

Fixpoint process_frames (idx : SessionIndex) (frames : list bytes) :
    outcome OperationFailure SessionIndex :=
  match frames with
  | [] => Ok idx
  | frame :: frames =>
      match process_frame idx frame with
      | (Ok _, idx) => process_frames idx frames
      | (Err e, _) => Err e
      | (Panic, _) => Panic
      end
  end.

Definition build_from_frames (frames : list bytes) : outcome OperationFailure SessionIndex :=
  process_frames SessionIndex_new frames.
End recovery.

(** ** Specification: the history an index stands for *)

Section spec.
Context `{Digests}.
Implicit Types (e : EventEnvelope) (es : list EventEnvelope) (idx : SessionIndex).

(** The part of a session that belongs to one fiber. *)
Definition of_fiber (fid : bytes) (es : list EventEnvelope) : list EventEnvelope :=
  filter (λ e, fiber_id (header e) = fid) es.

(** No event of the fiber reuses an identifier seen earlier in the session,
    on this fiber or another. *)
Definition fresh_in (es : list EventEnvelope) (fid : bytes) : Prop :=
  ∀ i e, es !! i = Some e → fiber_id (header e) = fid →
    event_id (header e) ∉ event_ids (take i es).

(** A fiber of a session is sound: its events chain and are fresh. *)
Definition fiber_sound (es : list EventEnvelope) (fid : bytes) : Prop :=
  links fid None (of_fiber fid es) ∧ fresh_in es fid.

Definition slot_rel (es : list EventEnvelope) (fid : bytes) (slot : option FiberSlot) : Prop :=
  match slot with
  | None => of_fiber fid es = []
  | Some (FiberSlot_Active tip) =>
      last (of_fiber fid es) = Some (tip_envelope tip) ∧
      tip_event_count tip = blen (of_fiber fid es) ∧
      tip_event_count tip ≤ MAX_EVENTS_PER_FIBER ∧ fiber_sound es fid
  | Some (FiberSlot_Broken n) =>
      n = blen (of_fiber fid es) ∧ 1 ≤ n ≤ MAX_EVENTS_PER_FIBER ∧ ¬ fiber_sound es fid
  end.

(** The index of the session [es]. *)
Record index_of (es : list EventEnvelope) (idx : SessionIndex) : Prop := {
  index_seen : seen_event_ids idx = list_to_set (event_ids es);
  index_raw : si_has_raw_frames idx = false;
  index_slots : ∀ fid, slot_rel es fid (fibers idx !! fid);
}.

Lemma of_fiber_snoc fid es e :
  of_fiber fid (es ++ [e]) =
    if decide (fiber_id (header e) = fid) then of_fiber fid es ++ [e] else of_fiber fid es.
Proof.
  unfold of_fiber. rewrite list.filter_app, filter_cons, filter_nil.
  case_decide; [done|apply app_nil_r].
Qed.

Lemma fresh_in_snoc es e fid :
  fresh_in (es ++ [e]) fid ↔
    fresh_in es fid ∧ (fiber_id (header e) = fid → event_id (header e) ∉ event_ids es).
Proof.
  unfold fresh_in. split.
  - intros Hf. split.
    + intros i x Hx Hfx. specialize (Hf i x (lookup_app_l_Some _ _ _ _ Hx) Hfx).
      rewrite take_app_le in Hf; [done|]. apply lookup_lt_Some in Hx. lia.
    + intros He. specialize (Hf (length es) e (list_lookup_middle _ _ _ _ eq_refl) He).
      by rewrite take_app_length in Hf.
  - intros [Hf He] i x [Hx|[Hi Hx]]%lookup_app_Some Hfx.
    + rewrite take_app_le; [by apply Hf|]. apply lookup_lt_Some in Hx. lia.
    + apply list_lookup_singleton_Some in Hx as [Hi' <-].
      rewrite take_app_ge by lia.
      replace (i - length es)%nat with 0%nat by lia. rewrite take_0, app_nil_r.
      by apply He.
Qed.

Lemma fiber_sound_snoc es e fid :
  fiber_id (header e) = fid →
  fiber_sound (es ++ [e]) fid ↔
    fiber_sound es fid ∧ entry_ok fid e ∧ link_ok (last (of_fiber fid es)) e ∧
    event_id (header e) ∉ event_ids es.
Proof.
  intros Hf. unfold fiber_sound. rewrite fresh_in_snoc, of_fiber_snoc, decide_True by done.
  rewrite links_snoc, tip_of_None. tauto.
Qed.

Lemma fiber_sound_other es e fid :
  fiber_id (header e) ≠ fid → fiber_sound (es ++ [e]) fid ↔ fiber_sound es fid.
Proof.
  intros Hf. unfold fiber_sound. rewrite fresh_in_snoc, of_fiber_snoc, decide_False by done.
  tauto.
Qed.

Lemma slot_rel_other es e fid slot :
  fiber_id (header e) ≠ fid → slot_rel (es ++ [e]) fid slot ↔ slot_rel es fid slot.
Proof.
  intros Hf. unfold slot_rel.
  rewrite of_fiber_snoc, decide_False by done.
  destruct slot as [[tip|n]|]; [..|done]; by rewrite fiber_sound_other.
Qed.

Lemma event_ids_snoc es e : event_ids (es ++ [e]) = event_ids es ++ [event_id (header e)].
Proof. unfold event_ids. by rewrite fmap_app. Qed.

Lemma index_of_new : index_of [] SessionIndex_new.
Proof. split; [done..|]. intros fid. simpl. by rewrite lookup_empty. Qed.

(** Replacing the slot of the fiber an event belongs to. *)
Lemma index_of_step es idx e slot rev :
  index_of es idx → slot_rel (es ++ [e]) (fiber_id (header e)) (Some slot) →
  index_of (es ++ [e])
    (mk_SessionIndex (<[fiber_id (header e) := slot]> (fibers idx))
       ({[event_id (header e)]} ∪ seen_event_ids idx) rev false).
Proof.
  intros [Hs Hr Hf] Hslot. split; simpl; [|done|].
  - rewrite Hs, event_ids_snoc, list_to_set_app_L. simpl. set_solver.
  - intros fid. destruct (decide (fiber_id (header e) = fid)) as [<-|Hne].
    + by rewrite lookup_insert_eq.
    + rewrite lookup_insert_ne by done. by apply slot_rel_other.
Qed.

(** ** Validation decides soundness *)

(** The capacity bounds of a session. *)
Definition fits idx e : bool :=
  (set_len (seen_event_ids idx) <? max_seen_events) &&
  match fibers idx !! fiber_id (header e) with
  | Some (FiberSlot_Active tip) => tip_event_count tip <? MAX_EVENTS_PER_FIBER
  | Some (FiberSlot_Broken _) => false
  | None => map_len (fibers idx) <? MAX_ACTIVE_FIBERS
  end.

Definition not_broken idx fid : Prop := ∀ n, fibers idx !! fid ≠ Some (FiberSlot_Broken n).

Lemma of_fiber_last_ok fid es tip :
  links fid None (of_fiber fid es) → last (of_fiber fid es) = Some tip →
  event_id (header tip) ≠ zero16.
Proof.
  intros Hl Ht. destruct (of_fiber fid es) as [|x l _] using rev_ind; [done|].
  rewrite last_snoc in Ht. injection Ht as ->. by apply links_snoc in Hl as (_&[? _]&_).
Qed.

(** On a fiber that is not broken, a sound extension is refused for want of
    capacity only, and an unsound one is always refused. *)
Lemma validate_append_sound es idx e :
  index_of es idx → not_broken idx (fiber_id (header e)) →
  fiber_sound (es ++ [e]) (fiber_id (header e)) →
  validate_append idx e =
    if fits idx e then Ok () else fail (violated ValueConstraint_TooLong).
Proof.
  intros [Hs Hr Hf] Hnb (Hsnd&[Hz _]&Hl&Hd)%fiber_sound_snoc; [|done].
  specialize (Hf (fiber_id (header e))). unfold validate_append, fits.
  rewrite Hr, (bool_decide_eq_false_2 _ Hz), bool_decide_eq_false_2
    by (by rewrite Hs, elem_of_list_to_set).
  rewrite Z.leb_antisym. destruct (_ <? max_seen_events); [|done]. simpl.
  destruct (fibers idx !! _) as [[tip|n]|] eqn:Hslot; [|by destruct (Hnb n)|].
  - destruct Hf as (Hlast&_&_&_). rewrite Hlast in Hl. destruct Hl as [Hp Hh].
    assert (event_id (header (tip_envelope tip)) ≠ zero16)
      by (destruct Hsnd; by eapply of_fiber_last_ok).
    rewrite Hp, Hh, !bool_decide_eq_false_2 by naive_solver.
    rewrite Z.leb_antisym. by destruct (_ <? _).
  - simpl in Hf. rewrite Hf in Hl. destruct Hl as [-> ->].
    rewrite Z.leb_antisym. by destruct (_ <? _).
Qed.

Lemma validate_append_Ok es idx e u :
  index_of es idx → not_broken idx (fiber_id (header e)) →
  validate_append idx e = Ok u →
  fiber_sound (es ++ [e]) (fiber_id (header e)) ∧ fits idx e = true.
Proof.
  intros [Hs Hr Hf] Hnb Hv. specialize (Hf (fiber_id (header e))).
  unfold validate_append, fits, fail in *. rewrite Hr in Hv.
  case_bool_decide as Hz; [done|]. case_bool_decide as Hd; [done|].
  rewrite Hs, elem_of_list_to_set in Hd.
  rewrite Z.leb_antisym in Hv. destruct (_ <? max_seen_events); [|done]. simpl in *.
  rewrite fiber_sound_snoc by done.
  destruct (fibers idx !! _) as [[tip|n]|] eqn:Hslot; [|by destruct (Hnb n)|].
  - destruct Hf as (Hlast&_&_&Hsnd). case_bool_decide; [done|].
    case_bool_decide as Hp; [done|]. case_bool_decide as Hh; [done|].
    rewrite Z.leb_antisym in Hv. destruct (_ <? MAX_EVENTS_PER_FIBER); [|done].
    split; [|done]. split; [done|]. split; [done|]. rewrite Hlast. done.
  - simpl in Hf. rewrite Z.leb_antisym in Hv. destruct (_ <? _); [|done]. simpl in Hv.
    case_bool_decide as Hp; [done|]. case_bool_decide as Hh; [done|].
    split; [|done]. unfold fiber_sound. rewrite Hf. split.
    + split; [done|]. intros i x Hi Hfx. exfalso.
      assert (x ∈ of_fiber (fiber_id (header e)) es) as Hx
        by (apply list_elem_of_filter; split; [done|by eapply list_elem_of_lookup_2]).
      rewrite Hf in Hx. by apply not_elem_of_nil in Hx.
    + done.
Qed.

Lemma commit_index_of es idx e :
  index_of es idx → not_broken idx (fiber_id (header e)) →
  fiber_sound (es ++ [e]) (fiber_id (header e)) → fits idx e = true →
  index_of (es ++ [e]) (commit_envelope_unchecked idx e).
Proof.
  intros Hidx Hnb Hsnd Hfits. pose proof (index_slots _ _ Hidx (fiber_id (header e))) as Hf.
  unfold commit_envelope_unchecked. rewrite (index_raw _ _ Hidx).
  unfold fits in Hfits. apply andb_true_iff in Hfits as [_ Hfits].
  destruct (fibers idx !! _) as [[tip|n]|] eqn:Hslot; [|by destruct (Hnb n)|];
    apply index_of_step; try done; simpl in *;
    rewrite of_fiber_snoc, decide_True, last_snoc by done;
    (split; [done|]); (split; [|split; [|done]]).
  - destruct Hf as (_&->&_). len.
  - lia.
  - rewrite Hf. len.
  - unfold MAX_EVENTS_PER_FIBER. lia.
Qed.

(** ** Recovery keeps the invariant *)

Lemma record_broken_Ok idx fid eid n u idx' :
  fibers idx !! fid = Some (FiberSlot_Broken n) →
  record_broken_event_id idx fid eid = (Ok u, idx') →
  n + 1 ≤ MAX_EVENTS_PER_FIBER ∧
  idx' = mk_SessionIndex (<[fid := FiberSlot_Broken (n + 1)]> (fibers idx))
           ({[eid]} ∪ seen_event_ids idx) (si_revision idx) (si_has_raw_frames idx).
Proof.
  unfold record_broken_event_id, u64_checked_add. intros ->.
  destruct (_ <=? _); simpl; [|done]. destruct (_ <? _) eqn:Hm; [done|].
  case_bool_decide as Hin; simpl.
  - destruct (_ <=? _); [done|]. intros [= _ <-]. split; [lia|done].
  - intros [= _ <-]. split; [lia|]. f_equal. symmetry. apply subseteq_union_1_L.
    by apply singleton_subseteq_l.
Qed.

Lemma mark_broken_Ok idx fid u idx' :
  mark_fiber_broken idx fid = (Ok u, idx') →
  idx' = mk_SessionIndex (<[fid := FiberSlot_Broken (slot_count (fibers idx !! fid))]> (fibers idx))
           (seen_event_ids idx) (u64_wrapping_add (si_revision idx) 1) (si_has_raw_frames idx).
Proof. unfold mark_fiber_broken. destruct (_ && _); [done|]. by intros [= _ <-]. Qed.

Lemma slot_count_rel es fid slot :
  slot_rel es fid slot → slot_count slot = blen (of_fiber fid es).
Proof. destruct slot as [[tip|n]|]; simpl; [tauto|tauto|by intros ->]. Qed.

(** A fiber that is broken stays broken and counts its events. *)
Lemma record_broken_index_of es idx e n u idx' :
  index_of es idx → fibers idx !! fiber_id (header e) = Some (FiberSlot_Broken n) →
  record_broken_event_id idx (fiber_id (header e)) (event_id (header e)) = (Ok u, idx') →
  index_of (es ++ [e]) idx'.
Proof.
  intros Hidx Hslot Hr. pose proof (index_slots _ _ Hidx (fiber_id (header e))) as Hf.
  rewrite Hslot in Hf. destruct Hf as (Hn&Hb&Hs).
  apply record_broken_Ok with (n := n) in Hr as [Hm ->]; [|done].
  rewrite (index_raw _ _ Hidx). apply index_of_step; [done|]. simpl.
  rewrite of_fiber_snoc, decide_True, fiber_sound_snoc by done.
  split; [len|]. split; [lia|]. tauto.
Qed.

Lemma break_index_of es idx e u idx1 u' idx' :
  index_of es idx → ¬ fiber_sound (es ++ [e]) (fiber_id (header e)) →
  mark_fiber_broken idx (fiber_id (header e)) = (Ok u, idx1) →
  record_broken_event_id idx1 (fiber_id (header e)) (event_id (header e)) = (Ok u', idx') →
  index_of (es ++ [e]) idx'.
Proof.
  intros Hidx Hs ->%mark_broken_Ok Hr.
  eapply record_broken_Ok in Hr as [Hm ->]; [|apply lookup_insert_eq]. simpl.
  rewrite insert_insert_eq, (index_raw _ _ Hidx). apply index_of_step; [done|].
  rewrite (slot_count_rel _ _ _ (index_slots _ _ Hidx (fiber_id (header e)))) in *. simpl.
  rewrite of_fiber_snoc, decide_True by done. split; [len|]. split; [len|done].
Qed.

(** The branch of [process_frame] for a fiber that is not broken. *)
Lemma process_live_index_of es idx e u idx' :
  index_of es idx → not_broken idx (fiber_id (header e)) →
  match validate_append idx e with
  | Ok _ => (Ok (), commit_envelope_unchecked idx e)
  | Panic => (Panic, idx)
  | Err err =>
      if is_chain_broken err then
        match mark_fiber_broken idx (fiber_id (header e)) with
        | (Ok _, idx) =>
            record_broken_event_id idx (fiber_id (header e)) (event_id (header e))
        | failed => failed
        end
      else (Err err, idx)
  end = (Ok u, idx') →
  index_of (es ++ [e]) idx'.
Proof.
  intros Hidx Hnb Hp. destruct (validate_append idx e) as [v|err|] eqn:Hv; [|..|done].
  - injection Hp as _ <-. apply (validate_append_Ok es) in Hv as [??]; [|done..].
    by apply commit_index_of.
  - destruct (is_chain_broken err) eqn:Hc; [|done].
    destruct (mark_fiber_broken _ _) as [[v|?|] idx1] eqn:Hm; [|done..].
    apply (break_index_of es idx e v idx1 u); [done| |done..]. intros Hs.
    rewrite (validate_append_sound es) in Hv by done.
    destruct (fits idx e); [done|]. by injection Hv as <-.
Qed.

Lemma process_frame_index_of es idx frame u idx' :
  index_of es idx → process_frame idx frame = (Ok u, idx') →
  ∃ e, decode_and_validate_frame frame = Ok e ∧ index_of (es ++ [e]) idx'.
Proof.
  intros Hidx. unfold process_frame. destruct (_ <? 85); [done|].
  destruct (decode_and_validate_frame frame) as [e|err|] eqn:Hd; simpl; [|done..].
  intros Hp. exists e. split; [done|].
  destruct (fibers idx !! fiber_id (header e)) as [[tip|n]|] eqn:Hslot.
  - eapply process_live_index_of; [done| |exact Hp]. intros n. by rewrite Hslot.
  - by eapply record_broken_index_of.
  - eapply process_live_index_of; [done| |exact Hp]. intros n. by rewrite Hslot.
Qed.

Lemma process_frames_index_of frames : ∀ es idx idx',
  index_of es idx → process_frames idx frames = Ok idx' →
  ∃ es', Forall2 (λ f e, decode_and_validate_frame f = Ok e) frames es' ∧
    index_of (es ++ es') idx'.
Proof.
  induction frames as [|f frames IH]; intros es idx idx' Hidx Hp; simpl in Hp.
  { injection Hp as <-. exists []. split; [constructor|]. by rewrite app_nil_r. }
  destruct (process_frame idx f) as [[v|?|] idx1] eqn:Hf; [|done..].
  apply (process_frame_index_of es) in Hf as (e&He&Hidx1); [|done].
  destruct (IH _ _ _ Hidx1 Hp) as (es'&Hes&Hidx').
  exists (e :: es'). split; [by constructor|]. by rewrite <-app_assoc in Hidx'.
Qed.

(** ** A live session *)

Fixpoint commit_all (idx : SessionIndex) (es : list EventEnvelope) :
    outcome OperationFailure SessionIndex :=
  match es with
  | [] => Ok idx
  | e :: es =>
      match commit_envelope idx e with
      | (Ok _, idx) => commit_all idx es
      | (Err err, _) => Err err
      | (Panic, _) => Panic
      end
  end.

Lemma live_not_broken es idx fid :
  index_of es idx → (∀ f, fiber_sound es f) → not_broken idx fid.
Proof.
  intros Hidx Hs n Hn. pose proof (index_slots _ _ Hidx fid) as Hf.
  rewrite Hn in Hf. destruct Hf as (_&_&Hf). by destruct Hf.
Qed.

Lemma commit_live es idx e u idx' :
  index_of es idx → (∀ f, fiber_sound es f) → commit_envelope idx e = (Ok u, idx') →
  index_of (es ++ [e]) idx' ∧ (∀ f, fiber_sound (es ++ [e]) f).
Proof.
  intros Hidx Hs. unfold commit_envelope.
  destruct (validate_append idx e) eqn:Hv; [|done..]. intros [= _ <-].
  pose proof (live_not_broken _ _ (fiber_id (header e)) Hidx Hs).
  apply (validate_append_Ok es) in Hv as [??]; [|done..].
  split; [by apply commit_index_of|]. intros f.
  destruct (decide (fiber_id (header e) = f)) as [<-|?]; [done|]. by apply fiber_sound_other.
Qed.

Lemma commit_all_live new : ∀ es idx idx',
  index_of es idx → (∀ f, fiber_sound es f) → commit_all idx new = Ok idx' →
  index_of (es ++ new) idx' ∧ (∀ f, fiber_sound (es ++ new) f).
Proof.
  induction new as [|e new IH]; intros es idx idx' Hidx Hs Hc; simpl in Hc.
  { injection Hc as <-. by rewrite app_nil_r. }
  destruct (commit_envelope idx e) as [[v|?|] idx1] eqn:He; [|done..].
  apply (commit_live es) in He as [??]; [|done..].
  replace (es ++ e :: new) with ((es ++ [e]) ++ new) by (by rewrite <-app_assoc).
  eauto.
Qed.
End spec.

(** ** Agreement with handles *)

Section agreement.
Context `{Digests}.

Lemma fresh_in_NoDup es fid : fresh_in es fid → NoDup (event_ids (of_fiber fid es)).
Proof.
  induction es as [|e es IH] using rev_ind; intros Hf; [constructor|].
  apply fresh_in_snoc in Hf as [Hf He]. rewrite of_fiber_snoc. case_decide as Hfid; [|auto].
  rewrite event_ids_snoc. apply NoDup_app. split; [auto|].
  split; [|apply NoDup_singleton]. intros x Hx ->%list_elem_of_singleton.
  apply (He Hfid). unfold event_ids, of_fiber in *.
  apply list_elem_of_fmap in Hx as (y&Hy&[_ Hin]%list_elem_of_filter).
  apply list_elem_of_fmap. by exists y.
Qed.

Lemma fiber_sound_valid_chain es fid :
  fiber_sound es fid → valid_chain fid (of_fiber fid es).
Proof. intros [Hl Hf]. rewrite valid_chain_iff. split; [done|]. by apply fresh_in_NoDup. Qed.

Lemma with_state_tip fid e n :
  event_id (header e) ≠ zero16 → 1 ≤ n ≤ MAX_EVENTS_PER_FIBER →
  FiberHandle_with_state fid (if detached (header e) then FiberState_Detached else FiberState_Defined)
    (event_id (header e)) (EventEnvelope_commitment e) n =
  if bool_decide (EventEnvelope_commitment e = zero32)
  then fail FailureCondition_InvariantBreakingConfiguration
  else Ok (mk_FiberHandle fid (tip_state e) (event_id (header e)) (EventEnvelope_commitment e) n).
Proof.
  intros He Hn. unfold FiberHandle_with_state, tip_state.
  rewrite (bool_decide_eq_false_2 _ He). replace (n =? 0) with false by lia.
  replace (MAX_EVENTS_PER_FIBER <? n) with false by lia.
  destruct (detached _); case_bool_decide; done.
Qed.

(** The handle the index hands out is the one at the fiber's tip; only a
    commitment of 32 zero bytes is refused. *)
Lemma index_fiber_spec es idx fid :
  index_of es idx → not_broken idx fid →
  index_fiber idx fid =
    match last (of_fiber fid es) with
    | Some e =>
        if bool_decide (EventEnvelope_commitment e = zero32)
        then fail FailureCondition_InvariantBreakingConfiguration
        else Ok (handle_of fid (of_fiber fid es))
    | None => Ok (handle_of fid (of_fiber fid es))
    end.
Proof.
  intros Hidx Hnb. pose proof (index_slots _ _ Hidx fid) as Hf.
  unfold index_fiber. rewrite (index_raw _ _ Hidx).
  destruct (fibers idx !! fid) as [[tip|n]|] eqn:Hslot; [|by destruct (Hnb n)|].
  - destruct Hf as (Hlast&Hn&Hm&[Hl Hfr]). rewrite Hlast.
    assert (1 ≤ tip_event_count tip).
    { destruct (of_fiber fid es); [done|]. rewrite Hn. len. }
    rewrite with_state_tip; [|by eapply of_fiber_last_ok|lia].
    unfold handle_of. rewrite Hlast, Hn. done.
  - simpl in Hf. rewrite Hf. done.
Qed.

Lemma commit_validated es idx e :
  index_of es idx → not_broken idx (fiber_id (header e)) →
  fiber_sound (es ++ [e]) (fiber_id (header e)) → fits idx e = true →
  commit_envelope idx e = (Ok (), commit_envelope_unchecked idx e).
Proof.
  intros ??? Hfits. unfold commit_envelope. rewrite (validate_append_sound es) by done.
  by rewrite Hfits.
Qed.

Lemma decode_and_validate_image e :
  EventEnvelope_wf e → decode_and_validate_frame (envelope_image e) = Ok e.
Proof.
  intros Hw. unfold decode_and_validate_frame.
  pose proof (codec_complete EventEnvelope_codec e [] Hw) as Hd. rewrite app_nil_r in Hd.
  rewrite Hd. simpl. by rewrite Z.eqb_refl.
Qed.

Lemma decode_and_validate_not_panic frame :
  blen frame ≤ isize_max → decode_and_validate_frame frame ≠ Panic.
Proof.
  intros Hb. unfold decode_and_validate_frame. no_panic.
  by apply (codec_total EventEnvelope_codec).
Qed.

Lemma record_broken_not_panic idx fid eid : (record_broken_event_id idx fid eid).1 ≠ Panic.
Proof.
  unfold record_broken_event_id, u64_checked_add.
  destruct (fibers idx !! fid) as [[?|n]|]; [|destruct (n + 1 <=? _); simpl; [|done]|];
    try destruct (_ <? _); simpl; try done;
    case_bool_decide; try destruct (_ <=? _); done.
Qed.

Lemma validate_append_not_panic idx e : validate_append idx e ≠ Panic.
Proof. unfold validate_append. repeat (case_match || case_bool_decide); done. Qed.

Lemma process_frame_not_panic idx frame :
  blen frame ≤ isize_max → (process_frame idx frame).1 ≠ Panic.
Proof.
  intros Hb. unfold process_frame. destruct (_ <? 85); [done|].
  pose proof (decode_and_validate_not_panic frame Hb).
  destruct (decode_and_validate_frame frame) as [e|?|]; [|done..]. simpl.
  pose proof (validate_append_not_panic idx e).
  assert (∀ i f, (match mark_fiber_broken i f with
    | (Ok _, idx) => record_broken_event_id idx (fiber_id (header e)) (event_id (header e))
    | failed => failed end).1 ≠ Panic).
  { intros i f. unfold mark_fiber_broken. destruct (_ && _); [done|].
    apply record_broken_not_panic. }
  destruct (fibers idx !! _) as [[?|?]|]; [|apply record_broken_not_panic|];
    destruct (validate_append idx e); try done; by destruct (is_chain_broken _).
Qed.

(** ** Properties *)

Lemma process_frames_not_panic idx frames :
  Forall (λ f, blen f ≤ isize_max) frames → process_frames idx frames ≠ Panic.
Proof.
  intros Hb. revert idx. induction Hb as [|f frames Hf Hb IH]; intros idx; [done|]. simpl.
  pose proof (process_frame_not_panic idx f Hf).
  destruct (process_frame idx f) as [[v|?|] idx1]; simpl in *; [apply IH|done|done].
Qed.

(** The events of a fiber that is not broken chain and are fresh. *)
Lemma sound_of_not_broken es idx fid :
  index_of es idx → not_broken idx fid → fiber_sound es fid.
Proof.
  intros Hidx Hnb. pose proof (index_slots _ _ Hidx fid) as Hslot.
  destruct (fibers idx !! fid) as [[tip|n]|] eqn:Hf; [|by destruct (Hnb n)|].
  - by destruct Hslot as (_&_&_&?).
  - simpl in Hslot. split; [by rewrite Hslot|]. intros i x Hx Hfx. exfalso.
    apply list_elem_of_lookup_2 in Hx. assert (x ∈ of_fiber fid es) as Hin
      by (by apply list_elem_of_filter). rewrite Hslot in Hin.
    by apply not_elem_of_nil in Hin.
Qed.

(** The handle the index hands out mints an envelope that extends the session,
    and the index then hands out the handle the operation left. *)
Lemma minted_extends es idx fid h op eid p e h' :
  index_of es idx → not_broken idx fid → index_fiber idx fid = Ok h →
  run_op op h eid p = (Ok e, h') → eid ∉ seen_event_ids idx → fits idx e = true →
  fiber_id (header e) = fid ∧ event_id (header e) = eid ∧ fiber_sound (es ++ [e]) fid ∧
  index_of (es ++ [e]) (commit_envelope_unchecked idx e) ∧
  index_fiber (commit_envelope_unchecked idx e) fid =
    if bool_decide (EventEnvelope_commitment e = zero32)
    then fail FailureCondition_InvariantBreakingConfiguration else Ok h'.
Proof.
  intros Hidx Hnb Hh Hop Hnew Hfits.
  pose proof (sound_of_not_broken _ _ _ Hidx Hnb) as Hs.
  rewrite (index_fiber_spec es) in Hh by done.
  assert (h = handle_of fid (of_fiber fid es)) as -> by (repeat case_match; by simplify_eq).
  destruct Hs as [Hl Hfr]. pose proof (run_op_extends _ _ _ _ _ _ _ Hl Hop) as (->&Hl'&Hm).
  destruct (run_op_cases op (handle_of fid (of_fiber fid es)) eid p)
    as [[_ (s'&_&Hop')]|[_ [c Hop']]]; rewrite Hop in Hop'; [|done].
  assert (event_id (header e) = eid) as He by (injection Hop' as -> _; done).
  assert (fiber_id (header e) = fid) as Hfid
    by (apply links_snoc in Hl' as (_&[_ ?]&_); done).
  assert (fiber_sound (es ++ [e]) fid) as Hs'.
  { apply fiber_sound_snoc; [done|]. apply links_snoc in Hl' as (_&?&Hlink).
    rewrite tip_of_None in Hlink. do 3 (split; [done|]).
    rewrite He. intros Hin. apply Hnew. rewrite (index_seen _ _ Hidx).
    by apply elem_of_list_to_set. }
  subst fid. do 3 (split; [done|]).
  assert (index_of (es ++ [e]) (commit_envelope_unchecked idx e)) as Hidx'
    by (by apply commit_index_of).
  split; [done|]. rewrite (index_fiber_spec (es ++ [e])); [|done|].
  - by rewrite of_fiber_snoc, decide_True, last_snoc by done.
  - intros n. unfold commit_envelope_unchecked. simpl. rewrite lookup_insert_eq.
    by repeat case_match.
Qed.

(** C8: recovery is exact. When the index is rebuilt from frames, every
    frame is one whole envelope and the index stands for that session: the
    seen set is the set of its identifiers, each fiber's slot counts its
    events, and a fiber is broken exactly when its events do not chain or
    reuse an identifier of the session, whatever the other fibers did. *)
Theorem recovery_exact frames idx :
  build_from_frames frames = Ok idx →
  ∃ es, Forall2 (λ f e, decode_and_validate_frame f = Ok e) frames es ∧ index_of es idx.
Proof. intros Hb. by apply (process_frames_index_of frames []) in Hb; [|apply index_of_new]. Qed.

(** Recovery rebuilds the live index. If a session committed a sequence
    of envelopes, rebuilding from their encoded frames yields the very same
    index, revision included. *)
Theorem recovery_rebuilds_live_index es idx :
  Forall EventEnvelope_wf es → commit_all SessionIndex_new es = Ok idx →
  build_from_frames (envelope_image <$> es) = Ok idx.
Proof.
  unfold build_from_frames. intros Hw.
  assert (∀ es0 i, index_of es0 i → (∀ f, fiber_sound es0 f) →
    commit_all i es = Ok idx → process_frames i (envelope_image <$> es) = Ok idx) as Hgen.
  { induction Hw as [|e es He Hw IH]; intros es0 i Hi Hs Hc; simpl in *; [done|].
    destruct (commit_envelope i e) as [[v|?|] i1] eqn:Hce; [|done..].
    pose proof (commit_live es0 i e v i1 Hi Hs Hce) as [Hi1 Hs1].
    unfold process_frame. rewrite decode_and_validate_image by done.
    replace (_ <? 85) with false
      by (destruct He; rewrite blen_envelope_image by done; symmetry; len).
    unfold commit_envelope in Hce. simpl.
    pose proof (live_not_broken _ _ (fiber_id (header e)) Hi Hs) as Hnb.
    destruct (validate_append i e) eqn:Hv; [injection Hce as _ <-|done..].
    destruct (fibers i !! _) as [[?|n]|] eqn:Hslot; [|by destruct (Hnb n)|]; eauto. }
  intros Hc. apply (Hgen []); [apply index_of_new| |done].
  intros f. split; [done|]. intros ? ? [=].
Qed.

(** The index and the handle agree. For a fiber that is not broken the
    index hands out the handle its recorded envelopes reconstitute. *)
Theorem index_handle_agrees es idx fid h :
  index_of es idx → not_broken idx fid → index_fiber idx fid = Ok h →
  FiberHandle_from_envelopes fid (of_fiber fid es) = Ok h.
Proof.
  intros Hidx Hnb Hh. rewrite (index_fiber_spec es) in Hh by done.
  assert (h = handle_of fid (of_fiber fid es)) as -> by (repeat case_match; by simplify_eq).
  clear Hh. pose proof (index_slots _ _ Hidx fid) as Hf.
  apply from_envelopes_iff.
  destruct (fibers idx !! fid) as [[tip|n]|] eqn:Hslot; [|by destruct (Hnb n)|]; simpl in Hf.
  - destruct Hf as (_&Hn&Hm&Hs). split; [by apply fiber_sound_valid_chain|].
    split; [lia|done].
  - rewrite Hf. split; [|split; [done|done]]. by split; [|constructor].
Qed.

(** An envelope minted by the handle the index hands out is accepted by
    the index when its identifier is new to the session and the session has
    room, and the index then hands out the handle the operation left. *)
Theorem minted_envelope_accepted es idx fid h op eid p e h' :
  index_of es idx → not_broken idx fid → index_fiber idx fid = Ok h →
  run_op op h eid p = (Ok e, h') →
  eid ∉ seen_event_ids idx → fits idx e = true →
  EventEnvelope_commitment e ≠ zero32 →
  ∃ idx', commit_envelope idx e = (Ok (), idx') ∧ index_of (es ++ [e]) idx' ∧
    index_fiber idx' fid = Ok h'.
Proof.
  intros Hidx Hnb Hh Hop Hnew Hfits Hz.
  destruct (minted_extends _ _ _ _ _ _ _ _ _ Hidx Hnb Hh Hop Hnew Hfits) as (<-&_&Hs&Hi&Hf).
  rewrite bool_decide_eq_false_2 in Hf by done.
  exists (commit_envelope_unchecked idx e). split; [by apply (commit_validated es)|done].
Qed.

(** Recovery never panics, whatever bytes the frames hold. *)
Theorem recovery_never_panics frames :
  Forall (λ f, blen f ≤ isize_max) frames → build_from_frames frames ≠ Panic.
Proof. apply process_frames_not_panic. Qed.
End agreement.

(** ** The properties at concrete inputs *)

Definition sample_index : SessionIndex :=
  match @commit_all toy_digests SessionIndex_new sample_chain with
  | Ok idx => idx
  | _ => SessionIndex_new
  end.

Lemma sample_index_of : @index_of toy_digests sample_chain sample_index.
Proof.
  apply (@commit_all_live toy_digests sample_chain [] SessionIndex_new sample_index).
  - apply index_of_new.
  - intros f. split; [done|]. intros ? ? [=].
  - by vm_compute.
Qed.

Lemma recovery_exact_witness :
  ∃ es, Forall2 (λ f e, decode_and_validate_frame f = Ok e) (envelope_image <$> sample_chain) es ∧
    @index_of toy_digests es sample_index.
Proof. apply (@recovery_exact toy_digests). by vm_compute. Defined.

Lemma recovery_rebuilds_live_index_witness :
  @build_from_frames toy_digests (envelope_image <$> sample_chain) = Ok sample_index.
Proof.
  apply (@recovery_rebuilds_live_index toy_digests); [|by vm_compute].
  by (apply (bool_decide_unpack _); vm_compute).
Defined.

Lemma index_handle_agrees_witness :
  @FiberHandle_from_envelopes toy_digests (sample_id x02) (of_fiber (sample_id x02) sample_chain)
    = Ok (@handle_of toy_digests (sample_id x02) sample_chain).
Proof.
  apply (@index_handle_agrees toy_digests sample_chain sample_index).
  - apply sample_index_of.
  - intros n. by vm_compute.
  - by vm_compute.
Defined.

Lemma minted_envelope_accepted_witness :
  let h := @handle_of toy_digests (sample_id x02) sample_chain in
  let e := minted op_detach h (sample_id x04) [] in
  ∃ idx', @commit_envelope toy_digests sample_index e = (Ok (), idx') ∧
    @index_of toy_digests (sample_chain ++ [e]) idx' ∧
    @index_fiber toy_digests idx' (sample_id x02) =
      Ok (@advanced toy_digests h FiberState_Detached e).
Proof.
  intros h e.
  apply (@minted_envelope_accepted toy_digests sample_chain sample_index (sample_id x02)
           h op_detach (sample_id x04) []).
  - apply sample_index_of.
  - intros n. by vm_compute.
  - by vm_compute.
  - by vm_compute.
  - by (apply (bool_decide_unpack _); vm_compute).
  - by vm_compute.
  - by (apply (bool_decide_unpack _); vm_compute).
Defined.

Lemma recovery_never_panics_witness :
  @build_from_frames toy_digests [[x00]; envelope_image (sample_envelope [])] ≠ Panic.
Proof.
  apply (@recovery_never_panics toy_digests). by (apply (bool_decide_unpack _); vm_compute).
Defined.
