(* ===== verification/Schema.v ===== *)
(** * Schema descriptors: [src/crates/pardosa/src/schema.rs]

    The constructor tree a payload type declares, its binary format, the
    structural validation, admission and the schema identity.

    The recursive functions carry a depth that may not exceed 16. Here they
    recurse on [levels], the number of depths left: the depth [d] of the code
    is [17 - levels], and the check [depth > 16] is the case of no level left.
    A failed encoding returns no buffer: every caller drops it. *)

From S2P Require Export Records Failure.

Definition MAX_DESCRIPTOR_DEPTH : Z := 16.
Definition MAX_RECURSION_DEPTH : Z := MAX_DESCRIPTOR_DEPTH.
Definition MAX_DESCRIPTOR_RECORD_BYTES : Z := 65536.

(** The levels at depth 0. *)
Definition levels0 : nat := 17.
#[global] Opaque levels0.

(** ** Data *)

Record FieldDescriptor (node : Type) := mk_FieldDescriptor {
  fd_name : bytes;
  fd_node : node;
}.
Record VariantDescriptor (node : Type) := mk_VariantDescriptor {
  vd_discriminant : Z;  (* u32 *)
  vd_name : bytes;
  vd_payload : option node;
}.
Arguments mk_FieldDescriptor {node}.
Arguments fd_name {node}.
Arguments fd_node {node}.
Arguments mk_VariantDescriptor {node}.
Arguments vd_discriminant {node}.
Arguments vd_name {node}.
Arguments vd_payload {node}.

Inductive DescriptorNode :=
  | Node_U8 | Node_U16 | Node_U32 | Node_U64
  | Node_I8 | Node_I16 | Node_I32 | Node_I64
  | Node_Bool
  | Node_EventString (max_bytes : Z)
  | Node_NonEmptyEventString (max_bytes : Z)
  | Node_EventBytes (max_bytes : Z)
  | Node_EventVec (inner : DescriptorNode) (max_items : Z)
  | Node_Option (inner : DescriptorNode)
  | Node_Struct (name : bytes) (fields : list (FieldDescriptor DescriptorNode))
  | Node_Enum (name : bytes) (discriminant_width : byte)
      (variants : list (VariantDescriptor DescriptorNode))
  | Node_Timestamp | Node_Uuid | Node_OrderedF32 | Node_OrderedF64.

Definition constructor_tag (node : DescriptorNode) : byte :=
  match node with
  | Node_U8 => x01 | Node_U16 => x02 | Node_U32 => x03 | Node_U64 => x04
  | Node_I8 => x05 | Node_I16 => x06 | Node_I32 => x07 | Node_I64 => x08
  | Node_Bool => x09
  | Node_EventString _ => x0a
  | Node_NonEmptyEventString _ => x0b
  | Node_EventBytes _ => x0c
  | Node_EventVec _ _ => x0d
  | Node_Option _ => x0e
  | Node_Struct _ _ => x0f
  | Node_Enum _ _ _ => x10
  | Node_Timestamp => x11 | Node_Uuid => x12
  | Node_OrderedF32 => x13 | Node_OrderedF64 => x14
  end.

(** ** The encoded length *)

Definition length_overflow : EncodeError := EncodeError_Custom (str "length overflow").
Definition length_exceeds : EncodeError := EncodeError_Custom (str "length exceeds u32::MAX").
Definition discriminant_exceeds_1 : EncodeError :=
  EncodeError_Custom (str "discriminant exceeds 1-byte width").
Definition discriminant_exceeds_2 : EncodeError :=
  EncodeError_Custom (str "discriminant exceeds 2-byte width").

(** [u32::try_from(len).map_err(..)]. *)
Definition try_u32 (z : Z) : outcome EncodeError Z := ok_or (u32_try_from z) length_exceeds.

Section encoded_len.
Context (node_len : DescriptorNode → outcome EncodeError Z).

Fixpoint fields_len (fields : list (FieldDescriptor DescriptorNode)) (total : Z) :
    outcome EncodeError Z :=
  match fields with
  | [] => Ok total
  | f :: fields =>
      fname_len ← try_u32 (blen (fd_name f));
      fnode_len ← node_len (fd_node f);
      total ← ok_or
        (l ← checked_add total 4; l ← checked_add l fname_len; checked_add l fnode_len)
        length_overflow;
      fields_len fields total
  end.

Fixpoint variants_len (width : byte) (variants : list (VariantDescriptor DescriptorNode))
    (total : Z) : outcome EncodeError Z :=
  match variants with
  | [] => Ok total
  | v :: variants =>
      disc_len ←
        (if bool_decide (width = x01) then
           if 255 <? vd_discriminant v then Err discriminant_exceeds_1 else Ok 1
         else
           if 65535 <? vd_discriminant v then Err discriminant_exceeds_2 else Ok 2);
      vname_len ← try_u32 (blen (vd_name v));
      payload_len ← match vd_payload v with Some payload => node_len payload | None => Ok 1 end;
      total ← ok_or
        (l ← checked_add total disc_len; l ← checked_add l 4;
         l ← checked_add l vname_len; checked_add l payload_len)
        length_overflow;
      variants_len width variants total
  end.
End encoded_len.

Fixpoint encoded_len_recursive (levels : nat) (node : DescriptorNode) : outcome EncodeError Z :=
  match levels with
  | O => Err (EncodeError_DepthExceeded 17 MAX_RECURSION_DEPTH)
  | S levels =>
    let tag_len := 1 in
    match node with
    | Node_U8 | Node_U16 | Node_U32 | Node_U64 | Node_I8 | Node_I16 | Node_I32 | Node_I64
    | Node_Bool | Node_Timestamp | Node_Uuid | Node_OrderedF32 | Node_OrderedF64 => Ok tag_len
    | Node_EventString _ | Node_NonEmptyEventString _ | Node_EventBytes _ =>
        ok_or (checked_add tag_len 4) length_overflow
    | Node_EventVec inner _ =>
        inner_len ← encoded_len_recursive levels inner;
        ok_or (l ← checked_add tag_len inner_len; checked_add l 4) length_overflow
    | Node_Option inner =>
        inner_len ← encoded_len_recursive levels inner;
        ok_or (checked_add tag_len inner_len) length_overflow
    | Node_Struct name fields =>
        name_len ← try_u32 (blen name);
        total ← ok_or
          (l ← checked_add tag_len 4; l ← checked_add l name_len; checked_add l 4)
          length_overflow;
        _ ← try_u32 (blen fields);
        fields_len (encoded_len_recursive levels) fields total
    | Node_Enum name discriminant_width variants =>
        name_len ← try_u32 (blen name);
        total ← ok_or
          (l ← checked_add tag_len 4; l ← checked_add l name_len; l ← checked_add l 1;
           checked_add l 4)
          length_overflow;
        _ ← try_u32 (blen variants);
        variants_len (encoded_len_recursive levels) discriminant_width variants total
    end
  end.

Definition DescriptorNode_encoded_len (node : DescriptorNode) : outcome EncodeError Z :=
  encoded_len_recursive levels0 node.

(** ** Encoding *)

Section encode.
Context (encode_node : DescriptorNode → bytes → outcome EncodeError bytes).

Fixpoint encode_fields (fields : list (FieldDescriptor DescriptorNode)) (buf : bytes) :
    outcome EncodeError bytes :=
  match fields with
  | [] => Ok buf
  | f :: fields =>
      fname_len ← try_u32 (blen (fd_name f));
      buf ← encode_node (fd_node f) (buf ++ u32_le fname_len ++ fd_name f);
      encode_fields fields buf
  end.

Fixpoint encode_variants (width : byte) (variants : list (VariantDescriptor DescriptorNode))
    (buf : bytes) : outcome EncodeError bytes :=
  match variants with
  | [] => Ok buf
  | v :: variants =>
      buf ←
        (if bool_decide (width = x01) then
           if 255 <? vd_discriminant v then Err discriminant_exceeds_1
           else Ok (buf ++ [byte_of_Z (vd_discriminant v)])
         else
           if 65535 <? vd_discriminant v then Err discriminant_exceeds_2
           else Ok (buf ++ u16_le (vd_discriminant v)));
      vname_len ← try_u32 (blen (vd_name v));
      let buf := buf ++ u32_le vname_len ++ vd_name v in
      buf ←
        match vd_payload v with
        | Some payload => encode_node payload buf
        | None => Ok (buf ++ [x00])
        end;
      encode_variants width variants buf
  end.
End encode.

Fixpoint encode_recursive (levels : nat) (node : DescriptorNode) (buf : bytes) :
    outcome EncodeError bytes :=
  match levels with
  | O => Err (EncodeError_DepthExceeded 17 MAX_DESCRIPTOR_DEPTH)
  | S levels =>
    let buf := buf ++ [constructor_tag node] in
    match node with
    | Node_U8 | Node_U16 | Node_U32 | Node_U64 | Node_I8 | Node_I16 | Node_I32 | Node_I64
    | Node_Bool | Node_Timestamp | Node_Uuid | Node_OrderedF32 | Node_OrderedF64 => Ok buf
    | Node_EventString max_bytes | Node_NonEmptyEventString max_bytes
    | Node_EventBytes max_bytes => Ok (buf ++ u32_le max_bytes)
    | Node_EventVec inner max_items =>
        buf ← encode_recursive levels inner buf;
        Ok (buf ++ u32_le max_items)
    | Node_Option inner => encode_recursive levels inner buf
    | Node_Struct name fields =>
        name_len ← try_u32 (blen name);
        let buf := buf ++ u32_le name_len ++ name in
        count ← try_u32 (blen fields);
        encode_fields (encode_recursive levels) fields (buf ++ u32_le count)
    | Node_Enum name discriminant_width variants =>
        name_len ← try_u32 (blen name);
        let buf := buf ++ u32_le name_len ++ name ++ [discriminant_width] in
        count ← try_u32 (blen variants);
        encode_variants (encode_recursive levels) discriminant_width variants
          (buf ++ u32_le count)
    end
  end.

Definition DescriptorNode_encode (node : DescriptorNode) (buf : bytes) :
    outcome EncodeError bytes :=
  encode_recursive levels0 node buf.

(** ** Decoding *)

(** A 32-bit count at the cursor, and the cursor after it. *)
Definition decode_count (buf : bytes) (cursor : Z) : outcome DecodeError (Z * Z) :=
  next ← uadd cursor 4;
  if blen buf <? next then Err (DecodeError_TruncatedPayload next (blen buf)) else
  n ← u32_at buf cursor;
  Ok (n, next).

(** A length-prefixed name at the cursor, and the cursor after it. *)
Definition decode_name (buf : bytes) (cursor : Z) : outcome DecodeError (bytes * Z) :=
  '(name_len, cursor) ← decode_count buf cursor;
  next ← uadd cursor name_len;
  if blen buf <? next then Err (DecodeError_TruncatedPayload next (blen buf)) else
  name ← slice buf cursor next;
  name ← from_utf8 DecodeError_InvalidUtf8 name;
  Ok (name, next).

Section decode.
Context (decode_node : decoder DescriptorNode).

(** The node at the cursor, and the cursor after it. *)
Definition decode_node_at (buf : bytes) (cursor : Z) :
    outcome DecodeError (DescriptorNode * Z) :=
  tail ← slice_from buf cursor;
  '(node, consumed) ← decode_node tail;
  next ← uadd cursor consumed;
  Ok (node, next).

Fixpoint decode_fields (count : nat) (buf : bytes) (cursor : Z) :
    outcome DecodeError (list (FieldDescriptor DescriptorNode) * Z) :=
  match count with
  | O => Ok ([], cursor)
  | S count =>
      '(fname, cursor) ← decode_name buf cursor;
      '(fnode, cursor) ← decode_node_at buf cursor;
      '(fields, cursor) ← decode_fields count buf cursor;
      Ok (mk_FieldDescriptor fname fnode :: fields, cursor)
  end.

Definition decode_discriminant (width : byte) (buf : bytes) (cursor : Z) :
    outcome DecodeError (Z * Z) :=
  next ← uadd cursor (byte_to_Z width);
  if blen buf <? next then Err (DecodeError_TruncatedPayload next (blen buf)) else
  if bool_decide (width = x01) then
    d ← byte_at buf cursor;
    Ok (byte_to_Z d, cursor + 1)
  else
    d ← u16_at buf cursor;
    Ok (d, cursor + 2).

Definition decode_payload_node (buf : bytes) (cursor : Z) :
    outcome DecodeError (option DescriptorNode * Z) :=
  next ← uadd cursor 1;
  if blen buf <? next then Err (DecodeError_TruncatedPayload next (blen buf)) else
  b ← byte_at buf cursor;
  if bool_decide (b = x00) then Ok (None, next) else
  '(pnode, cursor) ← decode_node_at buf cursor;
  Ok (Some pnode, cursor).

Fixpoint decode_variants (width : byte) (count : nat) (buf : bytes) (cursor : Z) :
    outcome DecodeError (list (VariantDescriptor DescriptorNode) * Z) :=
  match count with
  | O => Ok ([], cursor)
  | S count =>
      '(discriminant, cursor) ← decode_discriminant width buf cursor;
      '(vname, cursor) ← decode_name buf cursor;
      '(payload, cursor) ← decode_payload_node buf cursor;
      '(variants, cursor) ← decode_variants width count buf cursor;
      Ok (mk_VariantDescriptor discriminant vname payload :: variants, cursor)
  end.

Definition decode_EventVec : decoder DescriptorNode := λ buf,
  '(inner, total_before_max) ← decode_node_at buf 1;
  next ← uadd total_before_max 4;
  if blen buf <? next then Err (DecodeError_TruncatedPayload next (blen buf)) else
  max_items ← u32_at buf total_before_max;
  Ok (Node_EventVec inner max_items, next).

Definition decode_Option : decoder DescriptorNode := λ buf,
  '(inner, total) ← decode_node_at buf 1;
  Ok (Node_Option inner, total).

Definition decode_Struct : decoder DescriptorNode := λ buf,
  '(name, cursor) ← decode_name buf 1;
  '(field_count, cursor) ← decode_count buf cursor;
  let remaining := saturating_sub (blen buf) cursor in
  let min_bytes_per_field := 5 in
  if remaining / min_bytes_per_field <? field_count then
    Err (DecodeError_TruncatedPayload
           (saturating_add cursor (saturating_mul field_count min_bytes_per_field)) (blen buf))
  else
  '(fields, cursor) ← decode_fields (Z.to_nat field_count) buf cursor;
  Ok (Node_Struct name fields, cursor).

Definition decode_Enum : decoder DescriptorNode := λ buf,
  '(name, cursor) ← decode_name buf 1;
  next ← uadd cursor 1;
  if blen buf <? next then Err (DecodeError_TruncatedPayload next (blen buf)) else
  width ← byte_at buf cursor;
  let cursor := next in
  if negb (bool_decide (width = x01)) && negb (bool_decide (width = x02))
  then Err (DecodeError_InvalidDiscriminantWidth width) else
  '(variant_count, cursor) ← decode_count buf cursor;
  let remaining := saturating_sub (blen buf) cursor in
  let min_bytes_per_variant := saturating_add (byte_to_Z width) 5 in
  if remaining / min_bytes_per_variant <? variant_count then
    Err (DecodeError_TruncatedPayload
           (saturating_add cursor (saturating_mul variant_count min_bytes_per_variant))
           (blen buf))
  else
  '(variants, cursor) ← decode_variants width (Z.to_nat variant_count) buf cursor;
  Ok (Node_Enum name width variants, cursor).

(** The [max_bytes] of a bounded leaf. *)
Definition decode_bound (mk : Z → DescriptorNode) : decoder DescriptorNode := λ buf,
  if blen buf <? 5 then Err (DecodeError_TruncatedPayload 5 (blen buf)) else
  max_bytes ← u32_at buf 1;
  Ok (mk max_bytes, 5).
End decode.

Definition cycle_detected : DecodeError :=
  DecodeError_CycleDetected (str "maximum recursion depth exceeded").

Fixpoint decode_recursive (levels : nat) (buf : bytes) :
    outcome DecodeError (DescriptorNode * Z) :=
  match levels with
  | O => Err cycle_detected
  | S levels =>
    if is_empty buf then Err (DecodeError_TruncatedPayload 1 0) else
    tag ← byte_at buf 0;
    match tag with
    | x01 => Ok (Node_U8, 1)
    | x02 => Ok (Node_U16, 1)
    | x03 => Ok (Node_U32, 1)
    | x04 => Ok (Node_U64, 1)
    | x05 => Ok (Node_I8, 1)
    | x06 => Ok (Node_I16, 1)
    | x07 => Ok (Node_I32, 1)
    | x08 => Ok (Node_I64, 1)
    | x09 => Ok (Node_Bool, 1)
    | x0a => decode_bound Node_EventString buf
    | x0b => decode_bound Node_NonEmptyEventString buf
    | x0c => decode_bound Node_EventBytes buf
    | x0d => decode_EventVec (decode_recursive levels) buf
    | x0e => decode_Option (decode_recursive levels) buf
    | x0f => decode_Struct (decode_recursive levels) buf
    | x10 => decode_Enum (decode_recursive levels) buf
    | x11 => Ok (Node_Timestamp, 1)
    | x12 => Ok (Node_Uuid, 1)
    | x13 => Ok (Node_OrderedF32, 1)
    | x14 => Ok (Node_OrderedF64, 1)
    | other => Err (DecodeError_UnknownConstructorTag other)
    end
  end.

Definition DescriptorNode_decode : decoder DescriptorNode := decode_recursive levels0.

(** ** Structural validation *)

Section validate.
Context (validate_node : DescriptorNode → outcome OperationFailure unit).

Fixpoint validate_fields (fields : list (FieldDescriptor DescriptorNode)) :
    outcome OperationFailure unit :=
  match fields with
  | [] => Ok ()
  | f :: fields =>
      if is_empty (fd_name f) then fail (violated ValueConstraint_Empty) else
      _ ← validate_node (fd_node f);
      validate_fields fields
  end.

Fixpoint validate_variants (width : byte) (seen_discriminants : gset Z)
    (variants : list (VariantDescriptor DescriptorNode)) : outcome OperationFailure unit :=
  match variants with
  | [] => Ok ()
  | v :: variants =>
      if is_empty (vd_name v) then fail (violated ValueConstraint_Empty) else
      if bool_decide (width = x01) && (255 <? vd_discriminant v)
      then fail (violated ValueConstraint_TooLong) else
      if bool_decide (width = x02) && (65535 <? vd_discriminant v)
      then fail (violated ValueConstraint_TooLong) else
      if bool_decide (vd_discriminant v ∈ seen_discriminants)
      then fail (violated ValueConstraint_NotReal) else
      _ ← match vd_payload v with Some payload => validate_node payload | None => Ok () end;
      validate_variants width ({[vd_discriminant v]} ∪ seen_discriminants) variants
  end.
End validate.

Fixpoint validate_recursive (levels : nat) (node : DescriptorNode) :
    outcome OperationFailure unit :=
  match levels with
  | O => fail (violated ValueConstraint_TooLong)
  | S levels =>
    match node with
    | Node_U8 | Node_U16 | Node_U32 | Node_U64 | Node_I8 | Node_I16 | Node_I32 | Node_I64
    | Node_Bool | Node_Timestamp | Node_Uuid | Node_OrderedF32 | Node_OrderedF64 => Ok ()
    | Node_EventString max_bytes | Node_NonEmptyEventString max_bytes
    | Node_EventBytes max_bytes =>
        if max_bytes =? 0 then fail (violated ValueConstraint_Empty) else Ok ()
    | Node_EventVec inner max_items =>
        if max_items =? 0 then fail (violated ValueConstraint_Empty)
        else validate_recursive levels inner
    | Node_Option inner => validate_recursive levels inner
    | Node_Struct _ fields => validate_fields (validate_recursive levels) fields
    | Node_Enum _ discriminant_width variants =>
        if is_empty variants then fail (violated ValueConstraint_Empty) else
        if negb (bool_decide (discriminant_width = x01)) &&
           negb (bool_decide (discriminant_width = x02))
        then fail (violated ValueConstraint_NotReal) else
        validate_variants (validate_recursive levels) discriminant_width ∅ variants
    end
  end.

Definition DescriptorNode_validate (node : DescriptorNode) : outcome OperationFailure unit :=
  validate_recursive levels0 node.

(** ** Descriptors and admission *)

Record SchemaDescriptor := mk_SchemaDescriptor {
  version : Z;  (* u32 *)
  root : DescriptorNode;
}.

Definition SchemaDescriptor_encode (d : SchemaDescriptor) (buf : bytes) :
    outcome EncodeError bytes :=
  DescriptorNode_encode (root d) (buf ++ u32_le (version d)).

Definition encoded_record_len (d : SchemaDescriptor) : outcome EncodeError Z :=
  root_len ← DescriptorNode_encoded_len (root d);
  ok_or (prefix ← checked_add 1 4; checked_add prefix root_len) length_overflow.

Definition SchemaDescriptor_decode : decoder SchemaDescriptor := λ buf,
  if blen buf <? 4 then Err (DecodeError_TruncatedPayload 4 (blen buf)) else
  v ← u32_at buf 0;
  tail ← slice_from buf 4;
  '(r, consumed) ← DescriptorNode_decode tail;
  total ← uadd 4 consumed;
  Ok (mk_SchemaDescriptor v r, total).

Definition SchemaDescriptor_validate (d : SchemaDescriptor) : outcome OperationFailure unit :=
  if version d =? 0 then fail FailureCondition_MissingSchemaDescriptor else
  DescriptorNode_validate (root d).

Record AdmittedDescriptor := mk_AdmittedDescriptor {
  descriptor : SchemaDescriptor;
  encoded_record : bytes;
  schema_identity : bytes;  (* [u8; 32] *)
}.

Section admission.
Context `{Digests}.

Definition too_long_failure (_ : EncodeError) : OperationFailure :=
  OperationFailure_new (violated ValueConstraint_TooLong).

Definition try_from_descriptor (d : SchemaDescriptor) :
    outcome OperationFailure AdmittedDescriptor :=
  _ ← SchemaDescriptor_validate d;
  record_len ← map_err too_long_failure (encoded_record_len d);
  if MAX_DESCRIPTOR_RECORD_BYTES <? record_len
  then fail (violated ValueConstraint_TooLong) else
  desc_bytes ← map_err too_long_failure (DescriptorNode_encode (root d) []);
  record ← OwnershipRecord_encode (OwnershipRecord_SchemaDescriptor (version d) desc_bytes) [];
  preimage ← slice_from record 1;
  Ok (mk_AdmittedDescriptor d record (blake3 preimage)).

Definition try_identity (d : SchemaDescriptor) : outcome OperationFailure bytes :=
  admitted ← try_from_descriptor d;
  Ok (schema_identity admitted).

(** [expect]: a failure panics. *)
Definition identity (d : SchemaDescriptor) : outcome OperationFailure bytes :=
  match try_identity d with Ok id => Ok id | _ => Panic end.

(** [SchemaIdentity::try_from_descriptor]. *)
Definition SchemaIdentity_try_from_descriptor (v : Z) (r : DescriptorNode) :
    outcome EncodeError bytes :=
  buf ← DescriptorNode_encode r (u32_le v);
  Ok (blake3 buf).

Definition derive_fiber_id {E} (domain_key : bytes) : outcome E bytes :=
  slice (blake3_derive_key (str "pardosa.fiber_id.v1") domain_key) 0 16.
End admission.

Definition HEX_CHARS : bytes := str "0123456789abcdef".

Definition hex_digit (n : Z) : byte := default x00 (HEX_CHARS !! Z.to_nat n).

Definition to_hex (id : bytes) : bytes :=
  mjoin ((λ b, [hex_digit (Z.shiftr (byte_to_Z b) 4); hex_digit (Z.land (byte_to_Z b) 15)]) <$> id).

(** ** Equality of descriptors: [PartialEq] *)

Definition list_eqb {A} (eqb : A → A → bool) : list A → list A → bool :=
  fix go l1 l2 :=
    match l1, l2 with
    | [], [] => true
    | x :: l1, y :: l2 => eqb x y && go l1 l2
    | _, _ => false
    end.

Fixpoint node_eqb (a b : DescriptorNode) {struct a} : bool :=
  match a, b with
  | Node_EventString n, Node_EventString m
  | Node_NonEmptyEventString n, Node_NonEmptyEventString m
  | Node_EventBytes n, Node_EventBytes m => n =? m
  | Node_EventVec x n, Node_EventVec y m => node_eqb x y && (n =? m)
  | Node_Option x, Node_Option y => node_eqb x y
  | Node_Struct n fs, Node_Struct m gs =>
      bool_decide (n = m) &&
      list_eqb (λ f g, bool_decide (fd_name f = fd_name g) && node_eqb (fd_node f) (fd_node g)) fs gs
  | Node_Enum n w vs, Node_Enum m w' us =>
      bool_decide (n = m) && bool_decide (w = w') &&
      list_eqb (λ v u, (vd_discriminant v =? vd_discriminant u) &&
                  bool_decide (vd_name v = vd_name u) &&
                  match vd_payload v, vd_payload u with
                  | Some x, Some y => node_eqb x y
                  | None, None => true
                  | _, _ => false
                  end) vs us
  | _, _ => bool_decide (constructor_tag a = constructor_tag b)
  end.

Lemma list_eqb_spec {A} (eqb : A → A → bool) l1 :
  Forall (λ x, ∀ y, eqb x y = true ↔ x = y) l1 → ∀ l2, list_eqb eqb l1 l2 = true ↔ l1 = l2.
Proof.
  induction 1 as [|x l1 Hx Hl IH]; intros [|y l2]; simpl; try done.
  rewrite andb_true_iff, Hx, IH. split; [by intros [-> ->]|by intros [= -> ->]].
Qed.

Lemma node_eqb_spec : ∀ a b, node_eqb a b = true ↔ a = b.
Proof.
  fix IH 1. intros a b.
  destruct a as [| | | | | | | | |n|n|n|x n|x|n fs|n w vs| | | |],
    b as [| | | | | | | | |m|m|m|y m|y|m gs|m w' us| | | |];
    simpl; try (by split); try (rewrite Z.eqb_eq; split; congruence).
  - rewrite andb_true_iff, IH, Z.eqb_eq. split; [by intros [-> ->]|by intros [= -> ->]].
  - rewrite IH. split; congruence.
  - rewrite andb_true_iff, bool_decide_eq_true, list_eqb_spec;
      [split; [by intros [-> ->]|by intros [= -> ->]]|].
    induction fs as [|[fn nd] fs IHf]; constructor; [|exact IHf].
    intros [gn nd']; simpl. rewrite andb_true_iff, bool_decide_eq_true, IH.
    split; [by intros [-> ->]|by intros [= -> ->]].
  - rewrite !andb_true_iff, !bool_decide_eq_true, list_eqb_spec;
      [split; [by intros [[-> ->] ->]|by intros [= -> -> ->]]|].
    induction vs as [|[d vn pl] vs IHv]; constructor; [|exact IHv].
    intros [d' vn' pl']; simpl. rewrite !andb_true_iff, bool_decide_eq_true, Z.eqb_eq.
    destruct pl as [x|], pl' as [y|]; [rewrite (IH x y)|..]; clear IH; naive_solver.
Qed.

#[export] Instance DescriptorNode_eq_dec : EqDecision DescriptorNode.
Proof.
  intros a b. destruct (node_eqb a b) eqn:He.
  - left. by apply node_eqb_spec.
  - right. intros Hab%node_eqb_spec. congruence.
Defined.
#[export] Instance SchemaDescriptor_eq_dec : EqDecision SchemaDescriptor.
Proof. solve_decision. Defined.

(** ** Specification *)

(** The reference format: the image of a node, lengths written without
    checks. *)
Definition field_image (node_image : DescriptorNode → bytes)
    (f : FieldDescriptor DescriptorNode) : bytes :=
  u32_le (blen (fd_name f)) ++ fd_name f ++ node_image (fd_node f).

Definition disc_image (width : byte) (d : Z) : bytes :=
  if bool_decide (width = x01) then [byte_of_Z d] else u16_le d.

Definition variant_image (node_image : DescriptorNode → bytes) (width : byte)
    (v : VariantDescriptor DescriptorNode) : bytes :=
  disc_image width (vd_discriminant v) ++ u32_le (blen (vd_name v)) ++ vd_name v ++
  match vd_payload v with Some payload => node_image payload | None => [x00] end.

Fixpoint node_image (levels : nat) (node : DescriptorNode) : bytes :=
  match levels with
  | O => []
  | S levels =>
    constructor_tag node ::
    match node with
    | Node_EventString n | Node_NonEmptyEventString n | Node_EventBytes n => u32_le n
    | Node_EventVec inner n => node_image levels inner ++ u32_le n
    | Node_Option inner => node_image levels inner
    | Node_Struct name fields =>
        u32_le (blen name) ++ name ++ u32_le (blen fields) ++
        mjoin (field_image (node_image levels) <$> fields)
    | Node_Enum name width variants =>
        u32_le (blen name) ++ name ++ [width] ++ u32_le (blen variants) ++
        mjoin (variant_image (node_image levels) width <$> variants)
    | _ => []
    end
  end.

(** What the encoder requires: lengths that fit 32 bits, discriminants that
    fit their width, and no more than [levels] levels. *)
Definition disc_max (width : byte) : Z := if bool_decide (width = x01) then 255 else 65535.

Fixpoint encodable (levels : nat) (node : DescriptorNode) : Prop :=
  match levels with
  | O => False
  | S levels =>
    match node with
    | Node_EventVec inner _ | Node_Option inner => encodable levels inner
    | Node_Struct name fields =>
        blen name ≤ u32_max ∧ blen fields ≤ u32_max ∧
        Forall (λ f, blen (fd_name f) ≤ u32_max ∧ encodable levels (fd_node f)) fields
    | Node_Enum name width variants =>
        blen name ≤ u32_max ∧ blen variants ≤ u32_max ∧
        Forall (λ v, vd_discriminant v ≤ disc_max width ∧ blen (vd_name v) ≤ u32_max ∧
                     match vd_payload v with Some p => encodable levels p | None => True end)
          variants
    | _ => True
    end
  end.

(** The invariant of the Rust types: 32-bit integers and UTF-8 names. *)
Fixpoint node_typed (levels : nat) (node : DescriptorNode) : Prop :=
  match levels with
  | O => True
  | S levels =>
    match node with
    | Node_EventString n | Node_NonEmptyEventString n | Node_EventBytes n => is_u32 n
    | Node_EventVec inner n => is_u32 n ∧ node_typed levels inner
    | Node_Option inner => node_typed levels inner
    | Node_Struct name fields =>
        utf8_valid name = true ∧
        Forall (λ f, utf8_valid (fd_name f) = true ∧ node_typed levels (fd_node f)) fields
    | Node_Enum name width variants =>
        utf8_valid name = true ∧
        Forall (λ v, is_u32 (vd_discriminant v) ∧ utf8_valid (vd_name v) = true ∧
                     match vd_payload v with Some p => node_typed levels p | None => True end)
          variants
    | _ => True
    end
  end.

(** What structural completeness asks of a node. *)
Fixpoint complete_node (levels : nat) (node : DescriptorNode) : Prop :=
  match levels with
  | O => False
  | S levels =>
    match node with
    | Node_EventString n | Node_NonEmptyEventString n | Node_EventBytes n => n ≠ 0
    | Node_EventVec inner n => n ≠ 0 ∧ complete_node levels inner
    | Node_Option inner => complete_node levels inner
    | Node_Struct _ fields =>
        Forall (λ f, fd_name f ≠ [] ∧ complete_node levels (fd_node f)) fields
    | Node_Enum _ width variants =>
        variants ≠ [] ∧ (width = x01 ∨ width = x02) ∧
        NoDup (vd_discriminant <$> variants) ∧
        Forall (λ v, vd_name v ≠ [] ∧ vd_discriminant v ≤ disc_max width ∧
                     match vd_payload v with Some p => complete_node levels p | None => True end)
          variants
    | _ => True
    end
  end.

(** Widths the decoder accepts. *)
Fixpoint widths_ok (levels : nat) (node : DescriptorNode) : Prop :=
  match levels with
  | O => True
  | S levels =>
    match node with
    | Node_EventVec inner _ | Node_Option inner => widths_ok levels inner
    | Node_Struct _ fields => Forall (λ f, widths_ok levels (fd_node f)) fields
    | Node_Enum _ width variants =>
        (width = x01 ∨ width = x02) ∧
        Forall (λ v, match vd_payload v with Some p => widths_ok levels p | None => True end)
          variants
    | _ => True
    end
  end.

Definition node_wf (levels : nat) (node : DescriptorNode) : Prop :=
  node_typed levels node ∧ encodable levels node ∧ widths_ok levels node.

(** ** The encoder and the length calculation *)

Lemma try_u32_cases z : try_u32 z = if z <=? u32_max then Ok z else Err length_exceeds.
Proof. unfold try_u32, u32_try_from. by destruct (_ <=? _). Qed.

Lemma Forall_cons_false {A} (P : A → Prop) x l : ¬ P x ∨ ¬ Forall P l → ¬ Forall P (x :: l).
Proof. rewrite Forall_cons. tauto. Qed.

(** [f] appends the image of what it accepts, and accepts [P]. *)
Definition appends {A} (P : A → Prop) (image : A → bytes)
    (f : A → bytes → outcome EncodeError bytes) : Prop :=
  ∀ a buf, match f a buf with
           | Ok b => P a ∧ b = buf ++ image a
           | Err _ => ¬ P a
           | Panic => False
           end.

(** [f] measures the image of what it accepts; it fails outside [P] or when
    the length does not fit a [usize]. *)
Definition measures {A} (P : A → Prop) (image : A → bytes)
    (f : A → outcome EncodeError Z) : Prop :=
  ∀ a, match f a with
       | Ok l => P a ∧ l = blen (image a)
       | Err _ => ¬ P a ∨ usize_max < blen (image a)
       | Panic => False
       end.

Lemma blen_field_image image f :
  blen (field_image image f) = 4 + blen (fd_name f) + blen (image (fd_node f)).
Proof. unfold field_image. len. Qed.

Lemma blen_disc_image width d :
  blen (disc_image width d) = if bool_decide (width = x01) then 1 else 2.
Proof. unfold disc_image. by case_bool_decide. Qed.

Lemma blen_variant_image image width v :
  blen (variant_image image width v) =
    (if bool_decide (width = x01) then 1 else 2) + 4 + blen (vd_name v) +
    match vd_payload v with Some p => blen (image p) | None => 1 end.
Proof.
  unfold variant_image. rewrite !blen_app, blen_disc_image. destruct (vd_payload v); len.
Qed.

Section encoder_lemmas.
Context (P : DescriptorNode → Prop) (image : DescriptorNode → bytes).
Context (enc : DescriptorNode → bytes → outcome EncodeError bytes) (Henc : appends P image enc).
Context (mlen : DescriptorNode → outcome EncodeError Z) (Hlen : measures P image mlen).

Let field_ok (f : FieldDescriptor DescriptorNode) : Prop :=
  blen (fd_name f) ≤ u32_max ∧ P (fd_node f).
Let variant_ok (width : byte) (v : VariantDescriptor DescriptorNode) : Prop :=
  vd_discriminant v ≤ disc_max width ∧ blen (vd_name v) ≤ u32_max ∧
  match vd_payload v with Some p => P p | None => True end.

Lemma encode_fields_spec :
  appends (Forall field_ok) (λ fields, mjoin (field_image image <$> fields))
    (encode_fields enc).
Proof.
  intros fields. induction fields as [|f fields IH]; intros buf; csimpl.
  { by rewrite app_nil_r. }
  rewrite try_u32_cases. destruct (_ <=? _) eqn:Hn; simpl;
    [|apply Forall_cons_false; left; intros [??]; lia].
  pose proof (Henc (fd_node f) (buf ++ u32_le (blen (fd_name f)) ++ fd_name f)) as He.
  destruct (enc _ _) as [b|?|]; simpl; [|apply Forall_cons_false; left; by intros [??]|done].
  destruct He as [Hp ->]. specialize (IH ((buf ++ u32_le (blen (fd_name f)) ++ fd_name f) ++ image (fd_node f))).
  destruct (encode_fields _ _ _); [|by apply Forall_cons_false; right|done].
  destruct IH as [? ->]. split; [constructor; [split; [lia|done]|done]|].
  unfold field_image. by rewrite <-!app_assoc.
Qed.

Lemma encode_variants_spec width :
  appends (Forall (variant_ok width)) (λ vs, mjoin (variant_image image width <$> vs))
    (encode_variants enc width).
Proof.
  intros vs. induction vs as [|v vs IH]; intros buf; csimpl.
  { by rewrite app_nil_r. }
  assert ((if bool_decide (width = x01)
           then if 255 <? vd_discriminant v then Err discriminant_exceeds_1
                else Ok (buf ++ [byte_of_Z (vd_discriminant v)])
           else if 65535 <? vd_discriminant v then Err discriminant_exceeds_2
                else Ok (buf ++ u16_le (vd_discriminant v)))
          = if vd_discriminant v <=? disc_max width
            then Ok (buf ++ disc_image width (vd_discriminant v))
            else Err (if bool_decide (width = x01)
                      then discriminant_exceeds_1 else discriminant_exceeds_2)) as ->.
  { unfold disc_max, disc_image. rewrite Z.leb_antisym.
    case_bool_decide; by destruct (_ <? _). }
  destruct (_ <=? disc_max width) eqn:Hd; simpl;
    [|apply Forall_cons_false; left; intros [??]; lia].
  rewrite try_u32_cases. destruct (_ <=? u32_max) eqn:Hn; simpl;
    [|apply Forall_cons_false; left; intros (?&?&?); lia].
  set (buf1 := (buf ++ disc_image _ _) ++ _).
  assert (match (match vd_payload v with Some payload => enc payload buf1
                 | None => Ok (buf1 ++ [x00]) end) with
          | Ok b => variant_ok width v ∧ b = buf ++ variant_image image width v
          | Err _ => ¬ variant_ok width v
          | Panic => False end) as Hv.
  { unfold variant_ok, variant_image. destruct (vd_payload v) as [p|].
    - pose proof (Henc p buf1) as He. destruct (enc p buf1); [|tauto|done].
      destruct He as [? ->]. split; [split; [lia|split; [lia|done]]|].
      unfold buf1. by rewrite <-!app_assoc.
    - split; [split; [lia|split; [lia|done]]|]. unfold buf1. by rewrite <-!app_assoc. }
  destruct (match vd_payload v with Some _ => _ | None => _ end) as [b|?|]; simpl;
    [|by apply Forall_cons_false; left|done].
  destruct Hv as [? ->]. specialize (IH (buf ++ variant_image image width v)).
  destruct (encode_variants _ _ _ _); [|by apply Forall_cons_false; right|done].
  destruct IH as [? ->]. split; [by constructor|]. by rewrite <-!app_assoc.
Qed.

(** The running totals. *)
Lemma fields_len_spec fields : ∀ total, 0 ≤ total ≤ usize_max →
  match fields_len mlen fields total with
  | Ok l => Forall field_ok fields ∧ l = total + blen (mjoin (field_image image <$> fields))
  | Err _ => ¬ Forall field_ok fields ∨
             usize_max < total + blen (mjoin (field_image image <$> fields))
  | Panic => False
  end.
Proof.
  induction fields as [|f fields IH]; intros total Ht; csimpl; [split; [done|len]|].
  rewrite try_u32_cases. destruct (_ <=? _) eqn:Hn; simpl;
    [|left; apply Forall_cons_false; left; intros [??]; lia].
  pose proof (Hlen (fd_node f)) as Hl. rewrite blen_app, blen_field_image.
  destruct (mlen _) as [l|?|]; simpl;
    [|destruct Hl as [?|?]; [left; apply Forall_cons_false; left; by intros [??]|right; len]|done].
  destruct Hl as [Hp ->]. unfold checked_add.
  destruct (total + 4 <=? _) eqn:?; simpl; [|right; len].
  destruct (total + 4 + _ <=? _) eqn:?; simpl; [|right; len].
  destruct (total + 4 + _ + _ <=? _) eqn:?; simpl; [|right; len].
  specialize (IH (total + 4 + blen (fd_name f) + blen (image (fd_node f))) ltac:(len)).
  destruct (fields_len _ _ _).
  - destruct IH as [? ->]. split; [constructor; [split; [lia|done]|done]|len].
  - destruct IH; [left; by apply Forall_cons_false; right|right; len].
  - done.
Qed.

Lemma variants_len_spec width vs : ∀ total, 0 ≤ total ≤ usize_max →
  match variants_len mlen width vs total with
  | Ok l => Forall (variant_ok width) vs ∧
            l = total + blen (mjoin (variant_image image width <$> vs))
  | Err _ => ¬ Forall (variant_ok width) vs ∨
             usize_max < total + blen (mjoin (variant_image image width <$> vs))
  | Panic => False
  end.
Proof.
  induction vs as [|v vs IH]; intros total Ht; csimpl; [split; [done|len]|].
  set (w := if bool_decide (width = x01) then 1 else 2).
  assert (0 < w) by (unfold w; by case_bool_decide).
  assert ((if bool_decide (width = x01)
           then if 255 <? vd_discriminant v then Err discriminant_exceeds_1 else Ok 1
           else if 65535 <? vd_discriminant v then Err discriminant_exceeds_2 else Ok 2)
          = if vd_discriminant v <=? disc_max width then Ok w
            else Err (if bool_decide (width = x01)
                      then discriminant_exceeds_1 else discriminant_exceeds_2)) as ->.
  { unfold disc_max, w. rewrite Z.leb_antisym. case_bool_decide; by destruct (_ <? _). }
  destruct (_ <=? disc_max width) eqn:Hd; simpl;
    [|left; apply Forall_cons_false; left; intros [??]; lia].
  rewrite try_u32_cases. destruct (_ <=? u32_max) eqn:Hn; simpl;
    [|left; apply Forall_cons_false; left; intros (?&?&?); lia].
  rewrite blen_app, blen_variant_image. fold w.
  assert (match (match vd_payload v with Some payload => mlen payload | None => Ok 1 end) with
          | Ok l => variant_ok width v ∧
                    l = match vd_payload v with Some p => blen (image p) | None => 1 end
          | Err _ => ¬ variant_ok width v ∨
                     usize_max < match vd_payload v with Some p => blen (image p) | None => 1 end
          | Panic => False end) as Hv.
  { unfold variant_ok. destruct (vd_payload v) as [p|].
    - pose proof (Hlen p) as Hl. destruct (mlen p); [|tauto|done].
      destruct Hl as [? ->]. split; [split; [lia|split; [lia|done]]|done].
    - split; [split; [lia|split; [lia|done]]|done]. }
  set (pl := match vd_payload v with Some p => blen (image p) | None => 1 end) in *.
  assert (0 ≤ pl) by (unfold pl; destruct (vd_payload v); len).
  destruct (match vd_payload v with Some payload => mlen payload | None => Ok 1 end)
    as [l|?|]; simpl;
    [|destruct Hv; [left; by apply Forall_cons_false; left|right; len]|done].
  destruct Hv as [Hv ->]. unfold checked_add.
  destruct (total + w <=? _) eqn:?; simpl; [|right; len].
  destruct (total + w + 4 <=? _) eqn:?; simpl; [|right; len].
  destruct (total + w + 4 + _ <=? _) eqn:?; simpl; [|right; len].
  destruct (total + w + 4 + _ + _ <=? _) eqn:?; simpl; [|right; len].
  specialize (IH (total + w + 4 + blen (vd_name v) + pl) ltac:(len)).
  destruct (variants_len _ _ _ _).
  - destruct IH as [? ->]. split; [by constructor|len].
  - destruct IH; [left; by apply Forall_cons_false; right|right; len].
  - done.
Qed.
End encoder_lemmas.

Lemma encode_recursive_spec levels :
  appends (encodable levels) (node_image levels) (encode_recursive levels).
Proof.
  induction levels as [|n IH]; intros node buf; simpl; [tauto|].
  destruct node; simpl; try (by rewrite <-?app_assoc).
  - pose proof (IH node (buf ++ [x0d])) as He. destruct (encode_recursive _ _ _); simpl; try done.
    destruct He as [? ->]. by rewrite <-!app_assoc.
  - pose proof (IH node (buf ++ [x0e])) as He. destruct (encode_recursive _ _ _); simpl; try done.
    destruct He as [? ->]. by rewrite <-!app_assoc.
  - rewrite (try_u32_cases (blen name)). destruct (blen name <=? u32_max) eqn:Hn; simpl; [|intros (?&?&?); lia].
    rewrite (try_u32_cases (blen fields)).
    destruct (blen fields <=? u32_max) eqn:Hc; simpl; [|intros (?&?&?); lia].
    set (buf1 := _ ++ u32_le (blen fields)).
    pose proof (encode_fields_spec _ _ _ IH fields buf1) as He.
    destruct (encode_fields _ _ _); simpl; [|tauto|done]. destruct He as [? ->].
    split; [split; [lia|split; [lia|done]]|]. unfold buf1. by rewrite <-!app_assoc.
  - rewrite (try_u32_cases (blen name)). destruct (blen name <=? u32_max) eqn:Hn; simpl; [|intros (?&?&?); lia].
    rewrite (try_u32_cases (blen variants)).
    destruct (blen variants <=? u32_max) eqn:Hc; simpl; [|intros (?&?&?); lia].
    set (buf1 := _ ++ u32_le (blen variants)).
    pose proof (encode_variants_spec _ _ _ IH discriminant_width variants buf1) as He.
    destruct (encode_variants _ _ _ _); simpl; [|tauto|done]. destruct He as [? ->].
    split; [split; [lia|split; [lia|done]]|]. unfold buf1. by rewrite <-!app_assoc.
Qed.

Lemma encoded_len_spec levels :
  measures (encodable levels) (node_image levels) (encoded_len_recursive levels).
Proof.
  induction levels as [|n IH]; intros node; simpl; [left; tauto|].
  destruct node; simpl; try (split; [done|len]).
  - pose proof (IH node) as He. destruct (encoded_len_recursive _ _); simpl;
      [|destruct He as [?|?]; [by left|right; len]|done].
    destruct He as [? ->]. unfold checked_add. destruct (1 + _ <=? _) eqn:?; simpl; [|right; len].
    destruct (1 + _ + 4 <=? _) eqn:?; simpl; [|right; len]. split; [done|len].
  - pose proof (IH node) as He. destruct (encoded_len_recursive _ _); simpl;
      [|destruct He as [?|?]; [by left|right; len]|done].
    destruct He as [? ->]. unfold checked_add. destruct (1 + _ <=? _) eqn:?; simpl; [|right; len].
    split; [done|len].
  - rewrite (try_u32_cases (blen name)). destruct (blen name <=? u32_max) eqn:Hn; simpl; [|left; intros (?&?&?); lia].
    repeat (rewrite checked_add_ok by len; simpl).
    rewrite (try_u32_cases (blen fields)).
    destruct (blen fields <=? u32_max) eqn:Hc; simpl; [|left; intros (?&?&?); lia].
    pose proof (fields_len_spec _ _ _ IH fields (1 + 4 + blen name + 4) ltac:(len)) as He.
    destruct (fields_len _ _ _); simpl; [|destruct He as [?|?]; [left; tauto|right; len]|done].
    destruct He as [? ->]. split; [split; [lia|split; [lia|done]]|len].
  - rewrite (try_u32_cases (blen name)). destruct (blen name <=? u32_max) eqn:Hn; simpl; [|left; intros (?&?&?); lia].
    repeat (rewrite checked_add_ok by len; simpl).
    rewrite (try_u32_cases (blen variants)).
    destruct (blen variants <=? u32_max) eqn:Hc; simpl; [|left; intros (?&?&?); lia].
    pose proof (variants_len_spec _ _ _ IH discriminant_width variants
                  (1 + 4 + blen name + 1 + 4) ltac:(len)) as He.
    destruct (variants_len _ _ _ _); simpl; [|destruct He as [?|?]; [left; tauto|right; len]|done].
    destruct He as [? ->]. split; [split; [lia|split; [lia|done]]|len].
Qed.

(** ** The decoder reads the reference format *)

Lemma decode_count_at pre n rest cursor :
  cursor = blen pre → 0 ≤ n ≤ u32_max → blen (pre ++ u32_le n ++ rest) ≤ isize_max →
  decode_count (pre ++ u32_le n ++ rest) cursor = Ok (n, cursor + 4).
Proof. intros -> ??. unfold decode_count. by run. Qed.

Lemma decode_name_at pre name rest cursor :
  cursor = blen pre → blen name ≤ u32_max → utf8_valid name = true →
  blen (pre ++ u32_le (blen name) ++ name ++ rest) ≤ isize_max →
  decode_name (pre ++ u32_le (blen name) ++ name ++ rest) cursor
    = Ok (name, cursor + 4 + blen name).
Proof.
  intros -> ???. unfold decode_name. rewrite decode_count_at by len. simpl. by run.
Qed.

Lemma decode_count_eq buf pre n rest cursor :
  buf = pre ++ u32_le n ++ rest → cursor = blen pre → 0 ≤ n ≤ u32_max →
  blen buf ≤ isize_max → decode_count buf cursor = Ok (n, cursor + 4).
Proof. intros -> ???. by apply decode_count_at. Qed.

Lemma decode_name_eq buf pre name rest cursor :
  buf = pre ++ u32_le (blen name) ++ name ++ rest → cursor = blen pre →
  blen name ≤ u32_max → utf8_valid name = true → blen buf ≤ isize_max →
  decode_name buf cursor = Ok (name, cursor + 4 + blen name).
Proof. intros -> ????. by apply decode_name_at. Qed.

(** Two ways to split one buffer. *)
Ltac reassoc img := unfold img; simpl; rewrite <-?app_assoc; simpl; rewrite <-?app_assoc; reflexivity.

Section decoder_complete.
Context (P : DescriptorNode → Prop) (image : DescriptorNode → bytes).
Context (dec : decoder DescriptorNode).
Context (Hdec : ∀ node rest, P node → blen (image node ++ rest) ≤ isize_max →
                  dec (image node ++ rest) = Ok (node, blen (image node))).
Context (Htag : ∀ node, P node → ∃ t l, image node = t :: l ∧ t ≠ x00).

Let field_wf (f : FieldDescriptor DescriptorNode) : Prop :=
  utf8_valid (fd_name f) = true ∧ blen (fd_name f) ≤ u32_max ∧ P (fd_node f).
Let variant_wf (width : byte) (v : VariantDescriptor DescriptorNode) : Prop :=
  0 ≤ vd_discriminant v ≤ disc_max width ∧ utf8_valid (vd_name v) = true ∧
  blen (vd_name v) ≤ u32_max ∧ match vd_payload v with Some p => P p | None => True end.

Lemma decode_node_at_complete pre node rest cursor :
  cursor = blen pre → P node → blen (pre ++ image node ++ rest) ≤ isize_max →
  decode_node_at dec (pre ++ image node ++ rest) cursor
    = Ok (node, cursor + blen (image node)).
Proof.
  intros -> Hp Hb. unfold decode_node_at, slice_from. run.
  rewrite Hdec by (done || len). simpl. by run.
Qed.

Lemma decode_node_eq buf pre node rest cursor :
  buf = pre ++ image node ++ rest → cursor = blen pre → P node → blen buf ≤ isize_max →
  decode_node_at dec buf cursor = Ok (node, cursor + blen (image node)).
Proof. intros -> ???. by apply decode_node_at_complete. Qed.

Lemma decode_fields_complete fields : ∀ pre rest cursor,
  cursor = blen pre → Forall field_wf fields →
  blen (pre ++ mjoin (field_image image <$> fields) ++ rest) ≤ isize_max →
  decode_fields dec (length fields) (pre ++ mjoin (field_image image <$> fields) ++ rest) cursor
    = Ok (fields, cursor + blen (mjoin (field_image image <$> fields))).
Proof.
  induction fields as [|f fields IH]; intros pre rest cursor -> Hw Hb; csimpl in *.
  { by rewrite blen_nil, Z.add_0_r. }
  apply Forall_cons in Hw as [(Hu&Hn&Hp) Hw].
  set (tl := mjoin (field_image image <$> fields)) in *.
  replace (pre ++ (field_image image f ++ tl) ++ rest)
    with (pre ++ u32_le (blen (fd_name f)) ++ fd_name f ++ image (fd_node f) ++ tl ++ rest) in *
    by (unfold field_image; by rewrite <-!app_assoc).
  rewrite decode_name_at by done. simpl.
  replace (pre ++ u32_le (blen (fd_name f)) ++ fd_name f ++ image (fd_node f) ++ tl ++ rest)
    with ((pre ++ u32_le (blen (fd_name f)) ++ fd_name f) ++ image (fd_node f) ++ tl ++ rest) in *
    by (by rewrite <-!app_assoc).
  rewrite decode_node_at_complete by (done || len). simpl.
  rewrite (app_assoc _ (image (fd_node f))) in *. rewrite IH by (done || len). simpl.
  destruct f. do 2 f_equal. rewrite blen_app, blen_field_image. simpl. len.
Qed.

Lemma disc_complete width pre d rest cursor :
  cursor = blen pre → width = x01 ∨ width = x02 → 0 ≤ d ≤ disc_max width →
  blen (pre ++ disc_image width d ++ rest) ≤ isize_max →
  decode_discriminant width (pre ++ disc_image width d ++ rest) cursor
    = Ok (d, cursor + blen (disc_image width d)).
Proof.
  intros -> Hwidth Hd Hb. unfold decode_discriminant, disc_image, disc_max in *.
  destruct Hwidth as [-> | ->].
  - rewrite bool_decide_eq_true_2 in * by done. change (byte_to_Z x01) with 1. run.
    simpl. rewrite Z.sub_diag. simpl. rewrite byte_to_of_Z, Z.mod_small by lia. done.
  - rewrite bool_decide_eq_false_2 in * by done. change (byte_to_Z x02) with 2. by run.
Qed.

Lemma decode_payload_complete pre p rest cursor :
  let img := match p with Some node => image node | None => [x00] end in
  cursor = blen pre → match p with Some node => P node | None => True end →
  blen (pre ++ img ++ rest) ≤ isize_max →
  decode_payload_node dec (pre ++ img ++ rest) cursor = Ok (p, cursor + blen img).
Proof.
  intros img -> Hp Hb. unfold decode_payload_node. destruct p as [node|]; unfold img in *.
  - destruct (Htag node Hp) as (t&l&Hi&Ht). rewrite Hi in *. run. simpl.
    rewrite Z.sub_diag. simpl. rewrite bool_decide_eq_false_2 by done.
    change (t :: l ++ rest) with ((t :: l) ++ rest). rewrite <-Hi in *.
    by rewrite decode_node_at_complete by (done || len).
  - run. simpl. by rewrite Z.sub_diag.
Qed.

Lemma decode_variants_complete width vs : ∀ pre rest cursor,
  width = x01 ∨ width = x02 → cursor = blen pre → Forall (variant_wf width) vs →
  blen (pre ++ mjoin (variant_image image width <$> vs) ++ rest) ≤ isize_max →
  decode_variants dec width (length vs)
    (pre ++ mjoin (variant_image image width <$> vs) ++ rest) cursor
    = Ok (vs, cursor + blen (mjoin (variant_image image width <$> vs))).
Proof.
  intros pre rest cursor Hwidth. revert pre rest cursor.
  induction vs as [|v vs IH]; intros pre rest cursor -> Hw Hb; csimpl in *.
  { by rewrite blen_nil, Z.add_0_r. }
  apply Forall_cons in Hw as [(Hd&Hu&Hn&Hp) Hw].
  set (tl := mjoin (variant_image image width <$> vs)) in *.
  set (img := match vd_payload v with Some node => image node | None => [x00] end).
  set (di := disc_image width (vd_discriminant v)).
  replace (pre ++ (variant_image image width v ++ tl) ++ rest)
    with (pre ++ di ++ u32_le (blen (vd_name v)) ++ vd_name v ++ img ++ tl ++ rest) in *
    by (unfold variant_image, img, di; by rewrite <-!app_assoc).
  rewrite (disc_complete width pre (vd_discriminant v)) by done. fold di. simpl.
  rewrite (app_assoc pre di) in *. rewrite decode_name_at by (done || len). simpl.
  replace ((pre ++ di) ++ u32_le (blen (vd_name v)) ++ vd_name v ++ img ++ tl ++ rest)
    with (((pre ++ di) ++ u32_le (blen (vd_name v)) ++ vd_name v) ++ img ++ tl ++ rest) in *
    by (by rewrite <-!app_assoc).
  rewrite (decode_payload_complete _ (vd_payload v)) by (done || len). fold img. simpl.
  rewrite (app_assoc _ img) in *. rewrite IH by (done || len). simpl.
  destruct v as [d nm p]. do 2 f_equal. rewrite blen_app. unfold variant_image.
  simpl in *. fold img di. len.
Qed.

Lemma image_pos node : P node → 1 ≤ blen (image node).
Proof. intros (t&l&->&_)%Htag. len. Qed.

Lemma blen_fields_ge fields :
  Forall field_wf fields → 5 * blen fields ≤ blen (mjoin (field_image image <$> fields)).
Proof.
  induction 1 as [|f fields (?&?&?%image_pos) _ IH]; csimpl; [len|].
  rewrite blen_app, blen_field_image. len.
Qed.

Lemma blen_variants_ge width vs :
  width = x01 ∨ width = x02 → Forall (variant_wf width) vs →
  (byte_to_Z width + 5) * blen vs ≤ blen (mjoin (variant_image image width <$> vs)).
Proof.
  intros Hwidth. induction 1 as [|v vs (?&?&?&Hp) _ IH]; csimpl; [len|].
  rewrite blen_app, blen_variant_image, blen_cons.
  assert (1 ≤ match vd_payload v with Some p => blen (image p) | None => 1 end)
    by (destruct (vd_payload v); [by apply image_pos|done]).
  destruct Hwidth as [-> | ->]; [change (byte_to_Z x01) with 1 in *|change (byte_to_Z x02) with 2 in *];
    case_bool_decide; try done; pose proof (blen_nonneg (vd_name v)); lia.
Qed.

Lemma decode_Struct_complete name fields rest buf :
  let img := x0f :: u32_le (blen name) ++ name ++ u32_le (blen fields) ++
             mjoin (field_image image <$> fields) in
  buf = img ++ rest →
  utf8_valid name = true → blen name ≤ u32_max → blen fields ≤ u32_max →
  Forall field_wf fields → blen buf ≤ isize_max →
  decode_Struct dec buf = Ok (Node_Struct name fields, blen img).
Proof.
  intros img Hbuf Hu Hn Hc Hf Hb. pose proof (blen_fields_ge fields Hf) as Hge.
  set (pre := x0f :: u32_le (blen name) ++ name). set (fi := mjoin _) in *.
  assert (blen buf = blen pre + 4 + blen fi + blen rest) as Hl
    by (rewrite Hbuf; unfold img, pre; fold fi; len).
  unfold decode_Struct.
  rewrite (decode_name_eq buf [x0f] name (u32_le (blen fields) ++ fi ++ rest)) by
    (done || (rewrite Hbuf; reassoc img)). simpl.
  replace (1 + 4 + blen name) with (blen pre) by (unfold pre; len).
  rewrite (decode_count_eq buf pre (blen fields) (fi ++ rest)) by
    (done || len || (rewrite Hbuf; reassoc img)). simpl.
  replace (saturating_sub (blen buf) (blen pre + 4)) with (blen fi + blen rest)
    by (unfold saturating_sub; len).
  replace ((blen fi + blen rest) / 5 <? blen fields) with false
    by (symmetry; apply Z.ltb_ge, Z.div_le_lower_bound; len).
  replace (Z.to_nat (blen fields)) with (length fields) by (unfold blen; lia).
  assert (buf = (pre ++ u32_le (blen fields)) ++ fi ++ rest) as Hbuf'
    by (rewrite Hbuf; reassoc img).
  rewrite Hbuf' in Hb |- *. unfold fi. rewrite decode_fields_complete by (done || len). simpl.
  do 2 f_equal. fold fi. unfold pre, img. fold fi. len.
Qed.

Lemma decode_Enum_complete name width vs rest buf :
  let img := x10 :: u32_le (blen name) ++ name ++ [width] ++ u32_le (blen vs) ++
             mjoin (variant_image image width <$> vs) in
  buf = img ++ rest →
  utf8_valid name = true → blen name ≤ u32_max → blen vs ≤ u32_max →
  width = x01 ∨ width = x02 →
  Forall (variant_wf width) vs → blen buf ≤ isize_max →
  decode_Enum dec buf = Ok (Node_Enum name width vs, blen img).
Proof.
  intros img Hbuf Hu Hn Hc Hwidth Hf Hb.
  pose proof (blen_variants_ge width vs Hwidth Hf) as Hge.
  set (pre := x10 :: u32_le (blen name) ++ name). set (fi := mjoin _) in *.
  assert (blen buf = blen pre + 5 + blen fi + blen rest) as Hl
    by (rewrite Hbuf; unfold img, pre; fold fi; len).
  unfold decode_Enum.
  rewrite (decode_name_eq buf [x10] name ([width] ++ u32_le (blen vs) ++ fi ++ rest)) by
    (done || (rewrite Hbuf; reassoc img)). simpl.
  replace (1 + 4 + blen name) with (blen pre) by (unfold pre; len).
  rewrite uadd_ok by len. simpl.
  replace (blen buf <? blen pre + 1) with false by len.
  assert (buf = pre ++ width :: u32_le (blen vs) ++ fi ++ rest) as Hbuf2
    by (rewrite Hbuf; reassoc img).
  replace (byte_at buf (blen pre)) with (Ok (E:=DecodeError) width)
    by (by rewrite Hbuf2, byte_at_skip, Z.sub_diag, byte_at_here by done). simpl.
  assert (negb (bool_decide (width = x01)) && negb (bool_decide (width = x02)) = false) as ->
    by (destruct Hwidth as [-> | ->]; done).
  rewrite (decode_count_eq buf (pre ++ [width]) (blen vs) (fi ++ rest)) by
    (done || len || (rewrite Hbuf; reassoc img)). simpl.
  replace (saturating_sub (blen buf) (blen pre + 1 + 4)) with (blen fi + blen rest)
    by (unfold saturating_sub; pose proof (blen_nonneg fi); pose proof (blen_nonneg rest); lia).
  assert (saturating_add (byte_to_Z width) 5 = byte_to_Z width + 5) as ->
    by (destruct Hwidth as [-> | ->]; done).
  assert (0 < byte_to_Z width + 5) by (destruct Hwidth as [-> | ->]; done).
  replace ((blen fi + blen rest) / (byte_to_Z width + 5) <? blen vs) with false
    by (symmetry; apply Z.ltb_ge, Z.div_le_lower_bound; [done|];
        pose proof (blen_nonneg rest); lia).
  replace (Z.to_nat (blen vs)) with (length vs) by (unfold blen; lia).
  assert (buf = ((pre ++ [width]) ++ u32_le (blen vs)) ++ fi ++ rest) as Hbuf'
    by (rewrite Hbuf; reassoc img).
  rewrite Hbuf' in Hb |- *. unfold fi. rewrite decode_variants_complete by (done || len). simpl.
  do 2 f_equal. fold fi. unfold pre, img. fold fi. len.
Qed.
End decoder_complete.

Lemma node_wf_parts levels node :
  node_wf (S levels) node ↔
  match node with
  | Node_EventString n | Node_NonEmptyEventString n | Node_EventBytes n => is_u32 n
  | Node_EventVec inner n => is_u32 n ∧ node_wf levels inner
  | Node_Option inner => node_wf levels inner
  | Node_Struct name fields =>
      utf8_valid name = true ∧ blen name ≤ u32_max ∧ blen fields ≤ u32_max ∧
      Forall (λ f, utf8_valid (fd_name f) = true ∧ blen (fd_name f) ≤ u32_max ∧
                   node_wf levels (fd_node f)) fields
  | Node_Enum name width vs =>
      utf8_valid name = true ∧ blen name ≤ u32_max ∧ blen vs ≤ u32_max ∧
      (width = x01 ∨ width = x02) ∧
      Forall (λ v, 0 ≤ vd_discriminant v ≤ disc_max width ∧ utf8_valid (vd_name v) = true ∧
                   blen (vd_name v) ≤ u32_max ∧
                   match vd_payload v with Some p => node_wf levels p | None => True end) vs
  | _ => True
  end.
Proof.
  unfold node_wf. destruct node as [| | | | | | | | |b|b|b|inner k|inner|name fs|name width vs| | | |];
    simpl; try tauto; rewrite !Forall_forall; [naive_solver|]. split.
  - intros ([? Ht]&(?&?&He)&?&Hw). do 4 (split; [done|]).
    intros v Hv. specialize (Ht v Hv) as ([? _]&?&?). specialize (He v Hv). specialize (Hw v Hv).
    destruct (vd_payload v); naive_solver.
  - intros (?&?&?&?&Hf).
    assert (∀ d, 0 ≤ d ≤ disc_max width → is_u32 d) as Hd
      by (intros d; unfold disc_max, in_u; case_bool_decide; lia).
    split; [|split]; (split; [done|]); [|split; [done|]|]; intros v Hv;
      specialize (Hf v Hv) as (?&?&?&?); specialize (Hd (vd_discriminant v));
      destruct (vd_payload v); naive_solver.
Qed.

Lemma node_image_tag levels node :
  node_wf levels node → ∃ t l, node_image levels node = t :: l ∧ t ≠ x00.
Proof.
  destruct levels as [|n]; [by intros (_&[]&_)|]. intros _.
  do 2 eexists. split; [reflexivity|]. by destruct node.
Qed.

Lemma decode_recursive_complete levels : ∀ node rest,
  node_wf levels node → blen (node_image levels node ++ rest) ≤ isize_max →
  decode_recursive levels (node_image levels node ++ rest)
    = Ok (node, blen (node_image levels node)).
Proof.
  induction levels as [|n IH]; intros node rest Hw Hb; [by destruct Hw as (_&[]&_)|].
  apply node_wf_parts in Hw.
  assert (decode_recursive (S n) (node_image (S n) node ++ rest) =
    let buf := node_image (S n) node ++ rest in
    match node with
    | Node_EventString _ => decode_bound Node_EventString buf
    | Node_NonEmptyEventString _ => decode_bound Node_NonEmptyEventString buf
    | Node_EventBytes _ => decode_bound Node_EventBytes buf
    | Node_EventVec _ _ => decode_EventVec (decode_recursive n) buf
    | Node_Option _ => decode_Option (decode_recursive n) buf
    | Node_Struct _ _ => decode_Struct (decode_recursive n) buf
    | Node_Enum _ _ _ => decode_Enum (decode_recursive n) buf
    | node => Ok (node, 1)
    end) as -> by (by destruct node). cbv zeta.
  destruct node as [| | | | | | | | |b|b|b|inner k|inner|name fields|name width vs| | | |];
    try reflexivity.
  1-3: simpl in *; unfold decode_bound; by run.
  - destruct Hw as [Hk Hw]. set (buf := _ ++ rest) in *. unfold decode_EventVec.
    rewrite (decode_node_eq _ _ _ IH buf [x0d] inner (u32_le k ++ rest)) by
      (done || reassoc buf). simpl.
    assert (buf = (x0d :: node_image n inner) ++ u32_le k ++ rest) as -> by reassoc buf.
    run. simpl. do 2 f_equal. len.
  - unfold decode_Option. set (buf := _ ++ rest) in *.
    rewrite (decode_node_eq _ _ _ IH buf [x0e] inner rest) by (done || reassoc buf). simpl.
    do 2 f_equal. len.
  - destruct Hw as (?&?&?&?). by apply (decode_Struct_complete _ _ _ IH (node_image_tag n) name fields rest).
  - destruct Hw as (?&?&?&?&?).
    by apply (decode_Enum_complete _ _ _ IH (node_image_tag n) name width vs rest).
Qed.

(** ** The decoder accepts the reference format only *)

Lemma decode_count_sound buf c n c' :
  0 ≤ c → decode_count buf c = Ok (n, c') →
  c' = c + 4 ∧ c' ≤ blen buf ∧ is_u32 n ∧
  take (Z.to_nat c') buf = take (Z.to_nat c) buf ++ u32_le n.
Proof.
  intros Hc H. unfold decode_count in H. ok_inv. learn_ranges.
  split; [done|]. split; [lia|]. split; [done|].
  by apply (take_le_at (E:=DecodeError) 4).
Qed.

Lemma decode_name_sound buf c name c' :
  0 ≤ c → decode_name buf c = Ok (name, c') →
  c' = c + 4 + blen name ∧ c' ≤ blen buf ∧ utf8_valid name = true ∧ blen name ≤ u32_max ∧
  take (Z.to_nat c') buf = take (Z.to_nat c) buf ++ u32_le (blen name) ++ name.
Proof.
  intros Hc H. unfold decode_name in H. ok_inv.
  match goal with Hn : decode_count _ _ = _ |- _ =>
    apply decode_count_sound in Hn as (->&?&Hn&T); [|done] end.
  match goal with Hs : slice _ _ _ = _ |- _ =>
    pose proof (slice_blen _ _ _ _ Hs) as Hl; apply (take_slice _ _ _ _ _ T) in Hs as T' end.
  match type of Hl with blen ?x = _ => replace (blen x) with (c + 4 + z - (c + 4)) in * by lia end.
  split; [lia|]. split; [lia|]. split; [done|]. split; [unfold in_u, u32_max in *; lia|].
  rewrite T', <-app_assoc. by replace (c + 4 + z - (c + 4)) with z by lia.
Qed.

Section decoder_sound.
Context (P : DescriptorNode → Prop) (image : DescriptorNode → bytes).
Context (dec : decoder DescriptorNode).
Context (Hdec : ∀ buf node k, dec buf = Ok (node, k) →
  P node ∧ 0 ≤ k ≤ blen buf ∧ take (Z.to_nat k) buf = image node).

Let field_wf (f : FieldDescriptor DescriptorNode) : Prop :=
  utf8_valid (fd_name f) = true ∧ blen (fd_name f) ≤ u32_max ∧ P (fd_node f).
Let variant_wf (width : byte) (v : VariantDescriptor DescriptorNode) : Prop :=
  0 ≤ vd_discriminant v ≤ disc_max width ∧ utf8_valid (vd_name v) = true ∧
  blen (vd_name v) ≤ u32_max ∧ match vd_payload v with Some p => P p | None => True end.

Lemma decode_node_at_sound buf c node c' :
  0 ≤ c → decode_node_at dec buf c = Ok (node, c') →
  P node ∧ c ≤ c' ≤ blen buf ∧
  take (Z.to_nat c') buf = take (Z.to_nat c) buf ++ image node.
Proof.
  intros Hc H. unfold decode_node_at, slice_from in H. ok_inv.
  apply slice_Ok in Hx as (?&?&->).
  match goal with Hd : dec _ = _ |- _ => apply Hdec in Hd as (?&Hk&Ht) end.
  assert (blen (take (Z.to_nat (blen buf - c)) (drop (Z.to_nat c) buf)) = blen buf - c) as Hl
    by (unfold blen in *; rewrite length_take, length_drop; lia).
  rewrite Hl in Hk. split; [done|]. split; [lia|]. rewrite <-Ht.
  rewrite take_take, Nat.min_l by lia. symmetry.
  replace (Z.to_nat (c + z)) with (Z.to_nat c + Z.to_nat z)%nat by lia.
  by rewrite take_take_drop.
Qed.

Lemma decode_fields_sound count buf : ∀ c fields c',
  0 ≤ c ≤ blen buf → decode_fields dec count buf c = Ok (fields, c') →
  length fields = count ∧ c ≤ c' ≤ blen buf ∧ Forall field_wf fields ∧
  take (Z.to_nat c') buf = take (Z.to_nat c) buf ++ mjoin (field_image image <$> fields).
Proof.
  induction count as [|count IH]; intros c fields c' Hc H; simpl in H.
  { injection H as <- <-. csimpl. rewrite app_nil_r. split; [done|]. split; [lia|]. done. }
  apply bind_Ok in H as ([name c1]&Hn&H). apply decode_name_sound in Hn as (?&?&?&?&Hn); [|lia].
  pose proof (blen_nonneg name).
  apply bind_Ok in H as ([node c2]&Hd&H). apply decode_node_at_sound in Hd as (?&?&Hd); [|lia].
  apply bind_Ok in H as ([fs c3]&Hf&H). apply IH in Hf as (?&?&?&Hf); [|lia].
  injection H as <- <-. csimpl. split; [by f_equal|]. split; [lia|]. split; [by constructor|].
  rewrite Hf, Hd, Hn. unfold field_image at 2. simpl. by rewrite <-!app_assoc.
Qed.

Lemma decode_discriminant_sound width buf c d c' :
  0 ≤ c → width = x01 ∨ width = x02 → decode_discriminant width buf c = Ok (d, c') →
  0 ≤ d ≤ disc_max width ∧ c ≤ c' ≤ blen buf ∧
  take (Z.to_nat c') buf = take (Z.to_nat c) buf ++ disc_image width d.
Proof.
  intros Hc Hwidth H. unfold decode_discriminant, disc_image, disc_max in *.
  destruct Hwidth as [-> | ->].
  - rewrite bool_decide_eq_true_2 in * by done. change (byte_to_Z x01) with 1 in H. ok_inv.
    pose proof (byte_to_Z_range x). split; [lia|]. split; [lia|].
    rewrite byte_of_to_Z. by apply (take_byte_at (E:=DecodeError)).
  - rewrite bool_decide_eq_false_2 in * by done. change (byte_to_Z x02) with 2 in H. ok_inv.
    learn_ranges. split; [lia|]. split; [lia|]. by apply (take_le_at (E:=DecodeError) 2).
Qed.

Lemma decode_payload_sound buf c p c' :
  0 ≤ c → decode_payload_node dec buf c = Ok (p, c') →
  match p with Some node => P node | None => True end ∧ c ≤ c' ≤ blen buf ∧
  take (Z.to_nat c') buf =
    take (Z.to_nat c) buf ++ match p with Some node => image node | None => [x00] end.
Proof.
  intros Hc H. unfold decode_payload_node in H. ok_inv.
  - apply bool_decide_eq_true in Heqb0 as ->. split; [done|]. split; [lia|].
    by apply (take_byte_at (E:=DecodeError)).
  - match goal with Hd : decode_node_at _ _ _ = _ |- _ =>
      by apply decode_node_at_sound in Hd end.
Qed.

Lemma decode_variants_sound width count buf : ∀ c vs c',
  width = x01 ∨ width = x02 →
  0 ≤ c ≤ blen buf → decode_variants dec width count buf c = Ok (vs, c') →
  length vs = count ∧ c ≤ c' ≤ blen buf ∧ Forall (variant_wf width) vs ∧
  take (Z.to_nat c') buf =
    take (Z.to_nat c) buf ++ mjoin (variant_image image width <$> vs).
Proof.
  intros c vs c' Hwidth. revert c vs c'.
  induction count as [|count IH]; intros c vs c' Hc H; simpl in H.
  { injection H as <- <-. csimpl. rewrite app_nil_r. split; [done|]. split; [lia|]. done. }
  apply bind_Ok in H as ([d c1]&Hd&H).
  apply decode_discriminant_sound in Hd as (?&?&Hd); [|lia|done].
  apply bind_Ok in H as ([name c2]&Hn&H). apply decode_name_sound in Hn as (?&?&?&?&Hn); [|lia].
  pose proof (blen_nonneg name).
  apply bind_Ok in H as ([p c3]&Hp&H). apply decode_payload_sound in Hp as (?&?&Hp); [|lia].
  apply bind_Ok in H as ([fs c4]&Hf&H). apply IH in Hf as (?&?&?&Hf); [|lia].
  injection H as <- <-. csimpl. split; [by f_equal|]. split; [lia|]. split; [by constructor|].
  rewrite Hf, Hp, Hn, Hd. unfold variant_image at 2. simpl. by rewrite <-!app_assoc.
Qed.

(** A prefix that continues the tag byte is the whole image. *)
Lemma decode_EventVec_sound buf node k :
  take 1 buf = [x0d] → decode_EventVec dec buf = Ok (node, k) →
  0 ≤ k ≤ blen buf ∧ ∃ inner n, node = Node_EventVec inner n ∧ is_u32 n ∧ P inner ∧
    take (Z.to_nat k) buf = x0d :: image inner ++ u32_le n.
Proof.
  intros T H. unfold decode_EventVec in H.
  apply bind_Ok in H as ([inner c]&Hd&H). apply decode_node_at_sound in Hd as (?&?&Hd); [|done].
  ok_inv. learn_ranges. split; [lia|].
  match goal with Hu : le_at _ _ _ = Ok ?z |- _ => exists inner, z end. do 3 (split; [done|]).
  change (Z.to_nat 1) with 1%nat in Hd. rewrite T in Hd.
  match goal with Hu : le_at _ _ _ = _ |- _ =>
    etransitivity; [exact (take_le_at 4 _ _ _ _ Hd Hu)|] end.
  by rewrite <-app_assoc.
Qed.

Lemma decode_Option_sound buf node k :
  take 1 buf = [x0e] → decode_Option dec buf = Ok (node, k) →
  0 ≤ k ≤ blen buf ∧ ∃ inner, node = Node_Option inner ∧ P inner ∧
    take (Z.to_nat k) buf = x0e :: image inner.
Proof.
  intros T H. unfold decode_Option in H.
  apply bind_Ok in H as ([inner c]&Hd&H). apply decode_node_at_sound in Hd as (?&?&Hd); [|done].
  ok_inv. split; [lia|]. exists inner. do 2 (split; [done|]).
  change (Z.to_nat 1) with 1%nat in Hd. by rewrite T in Hd.
Qed.

Lemma decode_Struct_sound buf node k :
  take 1 buf = [x0f] → decode_Struct dec buf = Ok (node, k) →
  0 ≤ k ≤ blen buf ∧ ∃ name fields, node = Node_Struct name fields ∧
    utf8_valid name = true ∧ blen name ≤ u32_max ∧ blen fields ≤ u32_max ∧
    Forall field_wf fields ∧
    take (Z.to_nat k) buf =
      x0f :: u32_le (blen name) ++ name ++ u32_le (blen fields) ++
      mjoin (field_image image <$> fields).
Proof.
  intros T H. unfold decode_Struct in H.
  apply bind_Ok in H as ([name c1]&Hn&H). apply decode_name_sound in Hn as (?&?&?&?&Hn); [|done].
  pose proof (blen_nonneg name).
  apply bind_Ok in H as ([count c2]&Hc&H). apply decode_count_sound in Hc as (?&?&Hu&Hc); [|lia].
  destruct (_ <? count); [done|].
  apply bind_Ok in H as ([fs c3]&Hf&H). apply decode_fields_sound in Hf as (Hl&?&?&Hf); [|lia].
  injection H as <- <-. split; [lia|]. unfold in_u in Hu.
  assert (blen fs = count) as <- by (unfold blen; lia).
  exists name, fs. do 3 (split; [done|]). split; [unfold u32_max; lia|]. split; [done|].
  change (Z.to_nat 1) with 1%nat in Hn.
  rewrite Hf, Hc, Hn, T. simpl. by rewrite <-!app_assoc.
Qed.

Lemma decode_Enum_sound buf node k :
  take 1 buf = [x10] → decode_Enum dec buf = Ok (node, k) →
  0 ≤ k ≤ blen buf ∧ ∃ name width vs, node = Node_Enum name width vs ∧
    utf8_valid name = true ∧ blen name ≤ u32_max ∧ blen vs ≤ u32_max ∧
    (width = x01 ∨ width = x02) ∧ Forall (variant_wf width) vs ∧
    take (Z.to_nat k) buf =
      x10 :: u32_le (blen name) ++ name ++ [width] ++ u32_le (blen vs) ++
      mjoin (variant_image image width <$> vs).
Proof.
  intros T H. unfold decode_Enum in H.
  apply bind_Ok in H as ([name c1]&Hn&H). apply decode_name_sound in Hn as (?&?&?&?&Hn); [|done].
  pose proof (blen_nonneg name).
  apply bind_Ok in H as (next&Hnx&H). apply uadd_Ok in Hnx as [-> _].
  destruct (_ <? c1 + 1) eqn:?; [done|].
  apply bind_Ok in H as (width&Hw&H).
  pose proof (take_byte_at buf c1 _ width ltac:(lia) Hn Hw) as Hw'.
  destruct (negb _ && _) eqn:Hwidth; [done|].
  assert (width = x01 ∨ width = x02) as Hwd.
  { apply andb_false_iff in Hwidth as [Hw1|Hw1];
      apply negb_false_iff, bool_decide_eq_true in Hw1; auto. }
  apply bind_Ok in H as ([count c2]&Hc&H). apply decode_count_sound in Hc as (?&?&Hu&Hc); [|lia].
  destruct (_ <? count); [done|].
  apply bind_Ok in H as ([vs c3]&Hf&H).
  apply decode_variants_sound in Hf as (Hl&?&?&Hf); [|done|lia].
  injection H as <- <-. split; [lia|]. unfold in_u in Hu.
  assert (blen vs = count) as <- by (unfold blen; lia).
  exists name, width, vs. do 3 (split; [done|]). split; [unfold u32_max; lia|].
  do 2 (split; [done|]). change (Z.to_nat 1) with 1%nat in Hw'.
  rewrite Hf, Hc, Hw', T. simpl. by rewrite <-!app_assoc.
Qed.
End decoder_sound.

Lemma decode_recursive_sound levels : ∀ buf node k,
  decode_recursive levels buf = Ok (node, k) →
  node_wf levels node ∧ 0 ≤ k ≤ blen buf ∧ take (Z.to_nat k) buf = node_image levels node.
Proof.
  induction levels as [|n IH]; intros buf node k H; [done|].
  rewrite node_wf_parts.
  destruct buf as [|t buf]; [done|]. simpl in H.
  change (byte_at (t :: buf) 0) with (Ok (E:=DecodeError) t) in H. simpl in H.
  assert (take 1 (t :: buf) = [t]) as T by done. revert T H.
  assert (1 ≤ blen (t :: buf)) as Hb by len. revert Hb. generalize (t :: buf) as l.
  intros l Hb T H. destruct t; try discriminate H.
  all: try (injection H as <- <-; split; [done|]; split; [lia|]; exact T).
  1-3: unfold decode_bound in H; ok_inv; learn_ranges; split; [done|].
  1-3: split; [lia|];
    change 1%nat with (Z.to_nat 1) in T; repeat gather_step; by gathered l.
  - apply (decode_EventVec_sound _ _ _ IH _ _ _ T) in H as (?&inner&m&->&?&?&?). done.
  - apply (decode_Option_sound _ _ _ IH _ _ _ T) in H as (?&inner&->&?&?). done.
  - apply (decode_Struct_sound _ _ _ IH _ _ _ T) in H as (?&name&fs&->&?&?&?&?&?). done.
  - apply (decode_Enum_sound _ _ _ IH _ _ _ T) in H as (?&name&w&vs&->&?&?&?&?&?&?). done.
Qed.

(** ** No input makes the decoder panic *)

Lemma decode_count_total buf c :
  0 ≤ c ≤ blen buf → blen buf ≤ isize_max → decode_count buf c ≠ Panic.
Proof. intros. unfold decode_count. no_panic. Qed.

Lemma decode_name_total buf c :
  0 ≤ c ≤ blen buf → blen buf ≤ isize_max → decode_name buf c ≠ Panic.
Proof.
  intros. unfold decode_name. apply bind_not_panic; [by apply decode_count_total|].
  intros [n c1] (->&?&Hn&_)%decode_count_sound; [|lia]. unfold in_u in Hn. no_panic.
Qed.

Section decoder_total.
Context (P : DescriptorNode → Prop) (image : DescriptorNode → bytes).
Context (dec : decoder DescriptorNode).
Context (Hdec : ∀ buf node k, dec buf = Ok (node, k) →
  P node ∧ 0 ≤ k ≤ blen buf ∧ take (Z.to_nat k) buf = image node).
Context (Htot : ∀ buf, blen buf ≤ isize_max → dec buf ≠ Panic).
Context (buf : bytes) (Hb : blen buf ≤ isize_max).

Lemma decode_node_at_total c : 0 ≤ c ≤ blen buf → decode_node_at dec buf c ≠ Panic.
Proof.
  intros Hc. unfold decode_node_at, slice_from.
  apply bind_not_panic; [apply slice_not_panic; lia|]. intros tail Ht.
  apply slice_blen in Ht. apply bind_not_panic; [apply Htot; lia|].
  intros [node k] (_&?&_)%Hdec. rewrite uadd_ok by len. done.
Qed.

Lemma decode_fields_total count : ∀ c,
  0 ≤ c ≤ blen buf → decode_fields dec count buf c ≠ Panic.
Proof.
  induction count as [|count IH]; intros c Hc; [done|]. simpl.
  apply bind_not_panic; [by apply decode_name_total|].
  intros [name c1] (?&?&_)%decode_name_sound; [|lia]. pose proof (blen_nonneg name).
  apply bind_not_panic; [apply decode_node_at_total; lia|].
  intros [node c2] (_&?&_)%(decode_node_at_sound _ _ _ Hdec); [|lia].
  apply bind_not_panic; [apply IH; lia|]. by intros [??].
Qed.

Lemma decode_discriminant_total width c :
  width = x01 ∨ width = x02 → 0 ≤ c ≤ blen buf → decode_discriminant width buf c ≠ Panic.
Proof.
  intros Hw Hc. unfold decode_discriminant.
  destruct Hw as [-> | ->];
    [rewrite bool_decide_eq_true_2 by done; change (byte_to_Z x01) with 1
    |rewrite bool_decide_eq_false_2 by done; change (byte_to_Z x02) with 2]; no_panic.
Qed.

Lemma decode_payload_total c : 0 ≤ c ≤ blen buf → decode_payload_node dec buf c ≠ Panic.
Proof.
  intros Hc. unfold decode_payload_node. rewrite uadd_ok by len. simpl.
  destruct (_ <? _) eqn:?; [done|]. apply bind_not_panic; [apply byte_at_not_panic; lia|].
  intros b _. case_bool_decide; [done|].
  apply bind_not_panic; [by apply decode_node_at_total|]. by intros [??].
Qed.

Lemma decode_variants_total width count : ∀ c,
  width = x01 ∨ width = x02 → 0 ≤ c ≤ blen buf →
  decode_variants dec width count buf c ≠ Panic.
Proof.
  intros c Hw. revert c. induction count as [|count IH]; intros c Hc; [done|]. simpl.
  apply bind_not_panic; [by apply decode_discriminant_total|].
  intros [d c1] (_&?&_)%decode_discriminant_sound; [|lia|done].
  apply bind_not_panic; [apply decode_name_total; lia|].
  intros [name c2] (?&?&_)%decode_name_sound; [|lia]. pose proof (blen_nonneg name).
  apply bind_not_panic; [apply decode_payload_total; lia|].
  intros [p c3] (_&?&_)%(decode_payload_sound _ _ _ Hdec); [|lia].
  apply bind_not_panic; [apply IH; lia|]. by intros [??].
Qed.

Lemma decode_Struct_total : 1 ≤ blen buf → decode_Struct dec buf ≠ Panic.
Proof.
  intros. unfold decode_Struct. apply bind_not_panic; [apply decode_name_total; lia|].
  intros [name c1] (?&?&_)%decode_name_sound; [|lia]. pose proof (blen_nonneg name).
  apply bind_not_panic; [apply decode_count_total; lia|].
  intros [count c2] (?&?&_)%decode_count_sound; [|lia]. destruct (_ <? count); [done|].
  apply bind_not_panic; [apply decode_fields_total; lia|]. by intros [??].
Qed.

Lemma decode_Enum_total : 1 ≤ blen buf → decode_Enum dec buf ≠ Panic.
Proof.
  intros. unfold decode_Enum. apply bind_not_panic; [apply decode_name_total; lia|].
  intros [name c1] (?&?&_)%decode_name_sound; [|lia]. pose proof (blen_nonneg name).
  rewrite uadd_ok by len. simpl. destruct (_ <? _) eqn:?; [done|].
  apply bind_not_panic; [apply byte_at_not_panic; lia|]. intros width _.
  destruct (negb _ && _) eqn:Hw; [done|].
  assert (width = x01 ∨ width = x02).
  { apply andb_false_iff in Hw as [Hw|Hw]; apply negb_false_iff, bool_decide_eq_true in Hw; auto. }
  apply bind_not_panic; [apply decode_count_total; lia|].
  intros [count c2] (?&?&_)%decode_count_sound; [|lia]. destruct (_ <? count); [done|].
  apply bind_not_panic; [apply decode_variants_total; [done|lia]|]. by intros [??].
Qed.

Lemma decode_EventVec_total : 1 ≤ blen buf → decode_EventVec dec buf ≠ Panic.
Proof.
  intros. unfold decode_EventVec. apply bind_not_panic; [apply decode_node_at_total; lia|].
  intros [inner c1] (_&?&_)%(decode_node_at_sound _ _ _ Hdec); [|lia]. no_panic.
Qed.

Lemma decode_Option_total : 1 ≤ blen buf → decode_Option dec buf ≠ Panic.
Proof.
  intros. unfold decode_Option. apply bind_not_panic; [apply decode_node_at_total; lia|].
  by intros [??].
Qed.
End decoder_total.

Lemma decode_recursive_total levels : ∀ buf,
  blen buf ≤ isize_max → decode_recursive levels buf ≠ Panic.
Proof.
  induction levels as [|n IH]; intros buf Hb; [done|].
  destruct buf as [|t buf]; [done|]. assert (1 ≤ blen (t :: buf)) by len. simpl.
  change (byte_at (t :: buf) 0) with (Ok (E:=DecodeError) t). simpl.
  pose proof (decode_recursive_sound n) as Hs.
  destruct t; try done;
    first [ by (unfold decode_bound; no_panic)
          | by eapply decode_EventVec_total
          | by eapply decode_Option_total
          | by eapply decode_Struct_total
          | by eapply decode_Enum_total ].
Qed.

Lemma DescriptorNode_decode_total buf : blen buf ≤ isize_max → DescriptorNode_decode buf ≠ Panic.
Proof. apply decode_recursive_total. Qed.

(** ** Validation *)

Definition is_Ok_unit (m : outcome OperationFailure unit) (P : Prop) : Prop :=
  match m with Ok _ => P | Err _ => ¬ P | Panic => False end.

Section validation.
Context (P : DescriptorNode → Prop) (val : DescriptorNode → outcome OperationFailure unit).
Context (Hval : ∀ node, is_Ok_unit (val node) (P node)).

Lemma validate_fields_spec fields :
  is_Ok_unit (validate_fields val fields)
    (Forall (λ f, fd_name f ≠ [] ∧ P (fd_node f)) fields).
Proof.
  induction fields as [|f fields IH]; simpl; [done|].
  destruct (fd_name f) as [|b l] eqn:Hn; simpl.
  { apply Forall_cons_false. left. rewrite Hn. by intros [??]. }
  pose proof (Hval (fd_node f)) as Hv. destruct (val _); simpl in *;
    [|apply Forall_cons_false; left; by intros [??]|done].
  destruct (validate_fields val fields); simpl in *;
    [constructor; [split; [by rewrite Hn|done]|done]|by apply Forall_cons_false; right|done].
Qed.

Lemma validate_variants_spec width vs : ∀ seen,
  width = x01 ∨ width = x02 →
  is_Ok_unit (validate_variants val width seen vs)
    (NoDup (vd_discriminant <$> vs) ∧ (∀ d, d ∈ vd_discriminant <$> vs → d ∉ seen) ∧
     Forall (λ v, vd_name v ≠ [] ∧ vd_discriminant v ≤ disc_max width ∧
                  match vd_payload v with Some p => P p | None => True end) vs).
Proof.
  intros seen Hw. revert seen.
  induction vs as [|v vs IH]; intros seen; csimpl.
  { split; [constructor|]. split; [|done]. intros d Hd. by apply not_elem_of_nil in Hd. }
  destruct (vd_name v) as [|b l] eqn:Hn; simpl.
  { intros (_&_&Hf). apply Forall_cons in Hf as [(Hf&_) _]. by rewrite Hn in Hf. }
  assert (bool_decide (width = x01) && (255 <? vd_discriminant v) = false ∧
          bool_decide (width = x02) && (65535 <? vd_discriminant v) = false ↔
          vd_discriminant v ≤ disc_max width) as Hd.
  { unfold disc_max. destruct Hw as [-> | ->]; simpl; lia. }
  destruct (bool_decide (width = x01) && _).
  { intros (_&_&Hf). apply Forall_cons in Hf as [(_&Hf&_) _]. apply Hd in Hf as [? _]. done. }
  destruct (bool_decide (width = x02) && _).
  { intros (_&_&Hf). apply Forall_cons in Hf as [(_&Hf&_) _]. apply Hd in Hf as [_ ?]. done. }
  destruct Hd as [Hd _]. specialize (Hd (conj eq_refl eq_refl)).
  case_bool_decide as Hs.
  { intros (_&Hf&_). apply (Hf (vd_discriminant v)); [apply elem_of_cons; by left|done]. }
  assert (is_Ok_unit (match vd_payload v with Some payload => val payload | None => Ok () end)
            (match vd_payload v with Some p => P p | None => True end)) as Hp
    by (destruct (vd_payload v); [apply Hval|done]).
  destruct (match vd_payload v with Some payload => val payload | None => Ok () end);
    simpl in *; [|rewrite Forall_cons; tauto|done].
  specialize (IH ({[vd_discriminant v]} ∪ seen)).
  destruct (validate_variants _ _ _ _); simpl in *; rewrite ?NoDup_cons, ?Forall_cons;
    [|intros ((Hd1&Hd2)&Hd3&?&?)|done].
  - destruct IH as (?&Hin&?). rewrite Hn. split; [split; [|done]|].
    + intros Hd'. apply (Hin _ Hd'), elem_of_union_l. by apply elem_of_singleton.
    + split; [|done]. intros d [->|Hd']%elem_of_cons; [done|].
      intros ?. apply (Hin d Hd'). by apply elem_of_union_r.
  - apply IH. split; [done|]. split; [|done].
    intros d Hd' [->%elem_of_singleton|?]%elem_of_union; [done|].
    by apply (Hd3 d); [apply elem_of_cons; right|].
Qed.
End validation.

Lemma validate_recursive_spec levels : ∀ node,
  is_Ok_unit (validate_recursive levels node) (complete_node levels node).
Proof.
  induction levels as [|n IH]; intros node; simpl; [tauto|].
  destruct node as [| | | | | | | | |b|b|b|inner k|inner|name fs|name width vs| | | |]; simpl; try done.
  1-3: destruct (b =? 0) eqn:?; simpl; lia.
  - destruct (k =? 0) eqn:?; simpl; [lia|]. specialize (IH inner).
    destruct (validate_recursive n inner); simpl in *; [split; [lia|done]|tauto|done].
  - by apply validate_fields_spec.
  - destruct vs as [|v vs]; [by intros []|]. simpl is_empty. cbv iota.
    destruct (negb _ && _) eqn:Hw.
    { simpl. apply andb_true_iff in Hw as [Hw1 Hw2].
      apply negb_true_iff, bool_decide_eq_false in Hw1, Hw2. tauto. }
    assert (width = x01 ∨ width = x02) as Hwd.
    { apply andb_false_iff in Hw as [Hw|Hw]; apply negb_false_iff, bool_decide_eq_true in Hw; auto. }
    pose proof (validate_variants_spec _ _ IH width (v :: vs) ∅ Hwd) as Hv.
    destruct (validate_variants _ _ _ _); simpl in *; [|intros (?&?&?&?); apply Hv|done].
    + by destruct Hv as (?&_&?).
    + split; [done|]. split; [|done]. intros d _. apply not_elem_of_empty.
Qed.

Lemma complete_widths levels : ∀ node, complete_node levels node → widths_ok levels node.
Proof.
  induction levels as [|n IH]; intros node; simpl; [done|].
  destruct node as [| | | | | | | | |b|b|b|inner k|inner|name fs|name width vs| | | |]; try done.
  - intros [_ ?]. auto.
  - auto.
  - rewrite !Forall_forall. naive_solver.
  - intros (_&Hw&_&Hf). split; [done|]. rewrite Forall_forall in *. intros v Hv.
    specialize (Hf v Hv). destruct (vd_payload v); naive_solver.
Qed.

Lemma encode_Ok levels node buf b :
  encode_recursive levels node buf = Ok b →
  encodable levels node ∧ b = buf ++ node_image levels node.
Proof. intros He. pose proof (encode_recursive_spec levels node buf) as Hs. by rewrite He in Hs. Qed.

Lemma encode_encodable levels node buf :
  encodable levels node → encode_recursive levels node buf = Ok (buf ++ node_image levels node).
Proof.
  intros He. pose proof (encode_recursive_spec levels node buf) as Hs.
  destruct (encode_recursive _ _ _); [by destruct Hs as [_ ->]|done|done].
Qed.

(** The image of a descriptor: what its identity hashes. *)
Definition descriptor_image (d : SchemaDescriptor) : bytes :=
  u32_le (version d) ++ node_image levels0 (root d).
Definition descriptor_typed (d : SchemaDescriptor) : Prop :=
  is_u32 (version d) ∧ node_typed levels0 (root d).

(** What admission asks of a descriptor. *)
Definition admissible (d : SchemaDescriptor) : Prop :=
  version d ≠ 0 ∧ complete_node levels0 (root d) ∧ encodable levels0 (root d) ∧
  1 + blen (descriptor_image d) ≤ MAX_DESCRIPTOR_RECORD_BYTES.

(** The body of [SchemaDescriptor_decode] at any number of levels. *)
Definition decode_version_root (levels : nat) : decoder SchemaDescriptor := λ buf,
  if blen buf <? 4 then Err (DecodeError_TruncatedPayload 4 (blen buf)) else
  v ← u32_at buf 0;
  tail ← slice_from buf 4;
  '(r, consumed) ← decode_recursive levels tail;
  total ← uadd 4 consumed;
  Ok (mk_SchemaDescriptor v r, total).

Lemma decode_version_root_complete levels v r rest :
  is_u32 v → node_wf levels r →
  blen (u32_le v ++ node_image levels r ++ rest) ≤ isize_max →
  decode_version_root levels (u32_le v ++ node_image levels r ++ rest)
    = Ok (mk_SchemaDescriptor v r, 4 + blen (node_image levels r)).
Proof.
  intros Hv Hw Hb. unfold decode_version_root, slice_from. run.
  rewrite decode_recursive_complete by (done || len). simpl. by run.
Qed.

Lemma SchemaDescriptor_decode_image d rest :
  descriptor_typed d → encodable levels0 (root d) → widths_ok levels0 (root d) →
  blen (descriptor_image d ++ rest) ≤ isize_max →
  SchemaDescriptor_decode (descriptor_image d ++ rest) = Ok (d, blen (descriptor_image d)).
Proof.
  destruct d as [v r]. intros [Hv Ht] He Hw Hb. unfold descriptor_image in *.
  rewrite <-app_assoc in *.
  pose proof (decode_version_root_complete levels0 v r rest Hv (conj Ht (conj He Hw)) Hb) as Hd.
  etransitivity; [exact Hd|]. do 2 f_equal. cbn [version root]. len.
Qed.

Lemma encoded_record_len_cases d :
  match encoded_record_len d with
  | Ok l => encodable levels0 (root d) ∧ l = 1 + blen (descriptor_image d)
  | Err _ => ¬ encodable levels0 (root d) ∨ usize_max < 1 + blen (descriptor_image d)
  | Panic => False
  end.
Proof.
  unfold encoded_record_len, DescriptorNode_encoded_len, descriptor_image.
  pose proof (encoded_len_spec levels0 (root d)) as Hl.
  destruct (encoded_len_recursive _ _); simpl; [|destruct Hl; [by left|right; len]|done].
  destruct Hl as [? ->]. unfold checked_add. change (1 + 4 <=? usize_max) with true. simpl.
  destruct (1 + 4 + _ <=? _) eqn:?; simpl; [split; [done|len]|right; len].
Qed.

Lemma schema_record_decode v img :
  is_u32 v →
  OwnershipRecord_decode (x09 :: u32_le v ++ img)
    = Ok (OwnershipRecord_SchemaDescriptor v img, blen (x09 :: u32_le v ++ img)).
Proof.
  intros Hv. pose proof (OwnershipRecord_complete (OwnershipRecord_SchemaDescriptor v img) []) as Hr.
  rewrite app_nil_r in Hr. by apply Hr.
Qed.

Section identities.
Context `{Digests}.

Definition admitted_of (d : SchemaDescriptor) : AdmittedDescriptor :=
  mk_AdmittedDescriptor d (x09 :: descriptor_image d) (blake3 (descriptor_image d)).

(** The last steps of admission, for any encoding of the root. *)
Lemma admission_tail {A} v img (f : bytes → bytes → outcome OperationFailure A) :
  (record ← OwnershipRecord_encode (OwnershipRecord_SchemaDescriptor v img) [];
   preimage ← slice_from record 1;
   f record preimage) = f (x09 :: u32_le v ++ img) (u32_le v ++ img).
Proof.
  simpl. unfold slice_from. rewrite slice_cons by done. by rewrite slice_all by len.
Qed.

Lemma try_from_descriptor_Ok d :
  admissible d → try_from_descriptor d = Ok (admitted_of d).
Proof.
  intros (Hv&Hc&He&Hm). unfold try_from_descriptor, SchemaDescriptor_validate.
  unfold DescriptorNode_validate.
  rewrite (proj2 (Z.eqb_neq _ _)) by done.
  pose proof (validate_recursive_spec levels0 (root d)) as Hval.
  destruct (validate_recursive _ _) as [u|?|]; [|by destruct Hval|done].
  rewrite bind_of_Ok. clear Hval.
  pose proof (encoded_record_len_cases d) as Hl. unfold MAX_DESCRIPTOR_RECORD_BYTES in *.
  destruct (encoded_record_len d) as [l|?|]; [|exfalso|done].
  2:{ destruct Hl; [done|]. unfold usize_max in *. lia. }
  destruct Hl as [_ ->]. rewrite map_err_of_Ok, bind_of_Ok.
  rewrite (proj2 (Z.ltb_ge _ _)) by lia. unfold DescriptorNode_encode.
  rewrite encode_encodable by done. rewrite map_err_of_Ok, bind_of_Ok, app_nil_l.
  apply admission_tail.
Qed.

Lemma try_from_descriptor_cases d :
  match try_from_descriptor d with
  | Ok a => admissible d ∧ a = admitted_of d
  | Err _ => ¬ admissible d
  | Panic => False
  end.
Proof.
  destruct (try_from_descriptor d) as [a|e|] eqn:Ht.
  - assert (admissible d) as Ha; [|split; [done|]; rewrite try_from_descriptor_Ok in Ht by done; congruence].
    unfold try_from_descriptor in Ht. apply bind_Ok in Ht as (u&Hv&Ht).
    apply bind_Ok in Ht as (l&Hl%map_err_Ok&Ht).
    unfold SchemaDescriptor_validate, DescriptorNode_validate in Hv.
    pose proof (validate_recursive_spec levels0 (root d)) as Hval.
    pose proof (encoded_record_len_cases d) as Hlen. rewrite Hl in Hlen.
    destruct Hlen as [He ->].
    destruct (version d =? 0) eqn:Hz; [discriminate|]. rewrite Hv in Hval.
    destruct (MAX_DESCRIPTOR_RECORD_BYTES <? _) eqn:Hm; [discriminate|].
    split; [lia|]. split; [exact Hval|]. split; [exact He|lia].
  - intros Ha. rewrite try_from_descriptor_Ok in Ht by done. discriminate.
  - unfold try_from_descriptor in Ht. revert Ht. apply bind_not_panic.
    { unfold SchemaDescriptor_validate, DescriptorNode_validate.
      pose proof (validate_recursive_spec levels0 (root d)) as Hval.
      destruct (_ =? 0); [done|]. by destruct (validate_recursive _ _). }
    intros u _. apply bind_not_panic.
    { apply map_err_not_panic. pose proof (encoded_record_len_cases d).
      by destruct (encoded_record_len d). }
    intros l _. destruct (_ <? l); [done|]. apply bind_not_panic.
    { apply map_err_not_panic. unfold DescriptorNode_encode.
      pose proof (encode_recursive_spec levels0 (root d) []).
      by destruct (encode_recursive _ _ _). }
    intros img _. by rewrite admission_tail.
Qed.

(** A typed descriptor that the encoder accepts, with widths 1 or 2,
    decodes back from its encoding followed by anything; the encoder appends
    exactly the reference image. *)
Theorem descriptor_roundtrip d buf b rest :
  descriptor_typed d → widths_ok levels0 (root d) →
  SchemaDescriptor_encode d buf = Ok b →
  blen (b ++ rest) ≤ isize_max →
  b = buf ++ descriptor_image d ∧
  SchemaDescriptor_decode (descriptor_image d ++ rest) = Ok (d, blen (descriptor_image d)).
Proof.
  intros Ht Hw [He ->]%encode_Ok Hb. rewrite <-app_assoc in *. split; [done|].
  apply SchemaDescriptor_decode_image; try done.
  unfold descriptor_image in *. len.
Qed.

(** The descriptor format is canonical: whatever bytes the decoder
    accepts are the encoding of the descriptor it returns, which has at most
    17 levels, UTF-8 names and widths 1 or 2. *)
Theorem descriptor_canonical buf d n :
  SchemaDescriptor_decode buf = Ok (d, n) →
  descriptor_typed d ∧ widths_ok levels0 (root d) ∧ 0 ≤ n ≤ blen buf ∧
  SchemaDescriptor_encode d [] = Ok (take (Z.to_nat n) buf).
Proof.
  unfold SchemaDescriptor_decode. intros Hd. ok_inv. learn_ranges.
  unfold DescriptorNode_decode, slice_from in *.
  match goal with Hr : decode_recursive _ _ = _ |- _ =>
    apply decode_recursive_sound in Hr as ((Ht&He&Hw)&?&Hi) end.
  split; [done|]. split; [done|].
  match goal with Hs : slice _ _ _ = _ |- _ =>
    pose proof (slice_blen _ _ _ _ Hs) as Hl; apply slice_Ok in Hs as (_&_&->) end.
  split; [lia|]. unfold SchemaDescriptor_encode, DescriptorNode_encode. simpl.
  rewrite encode_encodable by done. f_equal.
  match goal with Hu : le_at _ _ _ = _ |- _ =>
    pose proof (take_le_at 4 buf 0 [] _ eq_refl Hu) as T end.
  change (0 + Z.of_nat 4) with 4 in T. simpl in T. rewrite <-T, <-Hi.
  rewrite take_take, Nat.min_l by lia.
  replace (Z.to_nat (4 + z)) with (Z.to_nat 4 + Z.to_nat z)%nat by lia.
  by rewrite take_take_drop.
Qed.

(** Decoding a descriptor never panics and always terminates within 17
    levels of nesting, whatever the bytes. *)
Theorem descriptor_decode_total buf :
  blen buf ≤ isize_max → SchemaDescriptor_decode buf ≠ Panic.
Proof.
  intros Hb. unfold SchemaDescriptor_decode, slice_from, DescriptorNode_decode.
  destruct (_ <? 4) eqn:?; [done|].
  apply bind_not_panic; [apply le_at_not_panic; lia|]. intros v _.
  apply bind_not_panic; [apply slice_not_panic; lia|]. intros tail Ht%slice_blen.
  apply bind_not_panic; [apply decode_recursive_total; lia|].
  intros [r k] (_&?&_)%decode_recursive_sound. rewrite uadd_ok by len. done.
Qed.

(** The length calculation is exact: it succeeds with the length of
    the record the encoder writes (a tag byte and the encoding), and fails
    only where the encoder fails or the length exceeds a [usize]. *)
Theorem encoded_record_len_exact d :
  match encoded_record_len d, SchemaDescriptor_encode d [] with
  | Ok l, Ok b => l = 1 + blen b
  | Err _, Ok b => usize_max < 1 + blen b
  | Err _, Err _ => True
  | _, _ => False
  end.
Proof.
  pose proof (encoded_record_len_cases d) as Hl. unfold SchemaDescriptor_encode, DescriptorNode_encode.
  pose proof (encode_recursive_spec levels0 (root d) ([] ++ u32_le (version d))) as He.
  unfold descriptor_image in *.
  destruct (encoded_record_len d), (encode_recursive _ _ _); try tauto.
  - by destruct He as [_ ->], Hl as [_ ->].
  - destruct He as [? ->]. by destruct Hl.
Qed.

(** C24: admission is exact. A descriptor is admitted if and only if its
    version is not zero, its tree is structurally complete, the encoder
    accepts it and its record is at most 64 KiB; what is admitted carries
    the canonical record and its BLAKE3 identity. Admission never panics. *)
Theorem admission_exact d :
  try_from_descriptor d ≠ Panic ∧
  ∀ a, try_from_descriptor d = Ok a ↔ admissible d ∧ a = admitted_of d.
Proof.
  pose proof (try_from_descriptor_cases d) as Hc.
  destruct (try_from_descriptor d) as [a'|?|]; [|by split; [|naive_solver]|done].
  split; [done|]. intros a. destruct Hc as [? ->]. naive_solver.
Qed.

(** The record stored in the metadata container restores the admitted
    descriptor, and the identity computed directly from version and root is
    the admitted one. *)
Theorem admitted_record_restores d a :
  descriptor_typed d → try_from_descriptor d = Ok a →
  OwnershipRecord_decode (encoded_record a) =
    Ok (OwnershipRecord_SchemaDescriptor (version d) (node_image levels0 (root d)),
        blen (encoded_record a)) ∧
  SchemaDescriptor_decode (drop 1 (encoded_record a)) = Ok (d, blen (encoded_record a) - 1) ∧
  SchemaIdentity_try_from_descriptor (version d) (root d) = Ok (schema_identity a).
Proof.
  intros Ht Ha. pose proof (try_from_descriptor_cases d) as Hc. rewrite Ha in Hc.
  destruct Hc as [(Hv&Hcn&He&Hm) ->]. unfold MAX_DESCRIPTOR_RECORD_BYTES in *.
  unfold admitted_of. cbn [encoded_record schema_identity].
  split; [|split].
  - apply schema_record_decode. apply Ht.
  - rewrite skipn_cons, drop_0.
    pose proof (SchemaDescriptor_decode_image d [] Ht He (complete_widths _ _ Hcn)) as Hd.
    rewrite app_nil_r in Hd. rewrite Hd by (unfold isize_max; lia).
    rewrite blen_cons. do 2 f_equal. lia.
  - unfold SchemaIdentity_try_from_descriptor, DescriptorNode_encode.
    rewrite encode_encodable by done. rewrite bind_of_Ok. reflexivity.
Qed.

(** The identity binds the descriptor: two admitted descriptors with
    the same identity are equal, or their images are a BLAKE3 collision. *)
Theorem schema_identity_binds d1 d2 a1 a2 :
  descriptor_typed d1 → descriptor_typed d2 →
  try_from_descriptor d1 = Ok a1 → try_from_descriptor d2 = Ok a2 →
  schema_identity a1 = schema_identity a2 →
  d1 = d2 ∨ (descriptor_image d1 ≠ descriptor_image d2 ∧
             blake3 (descriptor_image d1) = blake3 (descriptor_image d2)).
Proof.
  intros Ht1 Ht2 Ha1 Ha2 Hid.
  pose proof (try_from_descriptor_cases d1) as H1. rewrite Ha1 in H1.
  pose proof (try_from_descriptor_cases d2) as H2. rewrite Ha2 in H2.
  destruct H1 as [(_&Hc1&He1&Hm1) ->], H2 as [(_&Hc2&He2&Hm2) ->]. simpl in Hid.
  unfold MAX_DESCRIPTOR_RECORD_BYTES in *.
  destruct (decide (descriptor_image d1 = descriptor_image d2)) as [Heq|Hne]; [left|by right].
  pose proof (SchemaDescriptor_decode_image d1 [] Ht1 He1 (complete_widths _ _ Hc1)) as D1.
  pose proof (SchemaDescriptor_decode_image d2 [] Ht2 He2 (complete_widths _ _ Hc2)) as D2.
  rewrite app_nil_r in *. rewrite Heq in D1. rewrite D2 in D1 by (unfold isize_max; lia).
  injection D1; [done|]. unfold isize_max. lia.
Qed.
End identities.

(** ** The properties at concrete inputs *)

Definition sample_descriptor : SchemaDescriptor :=
  mk_SchemaDescriptor 3
    (Node_Struct (str "Order") [
       mk_FieldDescriptor (str "id") Node_Uuid;
       mk_FieldDescriptor (str "note") (Node_Option (Node_EventString 64));
       mk_FieldDescriptor (str "state")
         (Node_Enum (str "State") x01
            [mk_VariantDescriptor 0 (str "Open") None;
             mk_VariantDescriptor 1 (str "Closed") (Some Node_Timestamp)])]).

(** A conjunction about a concrete tree. *)
Ltac concrete_tree :=
  repeat (hnf;
    match goal with
    | |- True => exact I
    | |- _ = _ => vm_compute; reflexivity
    | |- _ ∧ _ => split
    | |- Forall _ _ => constructor
    | |- _ → False => vm_compute; discriminate
    | |- _ ∨ _ => left
    end).

Lemma sample_node_typed n : node_typed (S (S (S n))) (root sample_descriptor).
Proof. concrete_tree. Qed.
Lemma sample_node_widths n : widths_ok (S (S (S n))) (root sample_descriptor).
Proof. concrete_tree. Qed.

Lemma sample_descriptor_typed : descriptor_typed sample_descriptor.
Proof. split; [by vm_compute|exact (sample_node_typed 14)]. Qed.

Definition sample_admitted : AdmittedDescriptor := @admitted_of toy_digests sample_descriptor.

Lemma sample_descriptor_widths : widths_ok levels0 (root sample_descriptor).
Proof. exact (sample_node_widths 14). Qed.

Lemma descriptor_roundtrip_witness :
  [x07] ++ descriptor_image sample_descriptor = [x07] ++ descriptor_image sample_descriptor ∧
  SchemaDescriptor_decode (descriptor_image sample_descriptor ++ [xff]) =
    Ok (sample_descriptor, blen (descriptor_image sample_descriptor)).
Proof.
  apply (descriptor_roundtrip sample_descriptor [x07]
           ([x07] ++ descriptor_image sample_descriptor) [xff]).
  - apply sample_descriptor_typed.
  - apply sample_descriptor_widths.
  - vm_compute; reflexivity.
  - vm_compute; done.
Defined.

Lemma descriptor_canonical_witness :
  let buf := descriptor_image sample_descriptor ++ [xff] in
  let n := blen (descriptor_image sample_descriptor) in
  descriptor_typed sample_descriptor ∧ widths_ok levels0 (root sample_descriptor) ∧
  0 ≤ n ≤ blen buf ∧ SchemaDescriptor_encode sample_descriptor [] = Ok (take (Z.to_nat n) buf).
Proof.
  intros buf n. apply (descriptor_canonical buf sample_descriptor n). vm_compute; reflexivity.
Defined.

Lemma descriptor_decode_total_witness :
  SchemaDescriptor_decode (x01 :: descriptor_image sample_descriptor) ≠ Panic.
Proof. apply descriptor_decode_total. vm_compute; done. Defined.

Lemma admitted_record_restores_witness :
  OwnershipRecord_decode (encoded_record sample_admitted) =
    Ok (OwnershipRecord_SchemaDescriptor 3 (node_image levels0 (root sample_descriptor)),
        blen (encoded_record sample_admitted)) ∧
  SchemaDescriptor_decode (drop 1 (encoded_record sample_admitted)) =
    Ok (sample_descriptor, blen (encoded_record sample_admitted) - 1) ∧
  @SchemaIdentity_try_from_descriptor toy_digests 3 (root sample_descriptor) =
    Ok (schema_identity sample_admitted).
Proof.
  apply (@admitted_record_restores toy_digests sample_descriptor sample_admitted).
  - apply sample_descriptor_typed.
  - vm_compute; reflexivity.
Defined.

Lemma schema_identity_binds_witness :
  sample_descriptor = sample_descriptor ∨
  (descriptor_image sample_descriptor ≠ descriptor_image sample_descriptor ∧
   @blake3 toy_digests (descriptor_image sample_descriptor) =
     @blake3 toy_digests (descriptor_image sample_descriptor)).
Proof.
  assert (@try_from_descriptor toy_digests sample_descriptor = Ok sample_admitted) as Ha
    by (vm_compute; reflexivity).
  exact (@schema_identity_binds toy_digests sample_descriptor sample_descriptor
           sample_admitted sample_admitted sample_descriptor_typed sample_descriptor_typed
           Ha Ha eq_refl).
Defined.
