(* ===== verification/Floats.v ===== *)
(** * Floating-point wrappers: [src/crates/pardosa/src/schema/floats.rs]

    A primitive float is its bits; the predicates of the standard library on it
    are predicates on its sign, exponent and mantissa. The two widths of the
    source are the two instances of definitions over the mantissa's and the
    exponent's width. *)

From S2P Require Export Wire.

Section float.
Context (m e : Z).  (* bits of the mantissa and of the exponent *)

Definition mantissa (bits : Z) : Z := Z.land bits (Z.ones m).
Definition exponent (bits : Z) : Z := Z.land (Z.shiftr bits m) (Z.ones e).
Definition negative (bits : Z) : bool := Z.testbit bits (m + e).
Definition magnitude (bits : Z) : Z := Z.land bits (Z.ones (m + e)).

Definition is_nan (v : Z) : bool := (exponent v =? Z.ones e) && negb (mantissa v =? 0).
Definition is_infinite (v : Z) : bool := (exponent v =? Z.ones e) && (mantissa v =? 0).
Definition is_subnormal (v : Z) : bool := (exponent v =? 0) && negb (mantissa v =? 0).
(** [v == 0.0]. *)
Definition is_zero (v : Z) : bool := magnitude v =? 0.
Definition INFINITY : Z := Z.shiftl (Z.ones e) m.
Definition NEG_INFINITY : Z := Z.shiftl (Z.ones (e + 1)) m.

Definition not_real : DecodeError := DecodeError_ValueConstraintViolated ValueConstraint_NotReal.

(** [OrderedF32::try_from] and [OrderedF64::try_from]. *)
Definition Ordered_try_from (v : Z) : outcome DecodeError Z :=
  if is_nan v || is_infinite v || is_subnormal v then Err not_real else
  let normalized := if is_zero v then 0 else v in
  Ok normalized.

(** The cast to the signed integer of the same width. *)
Definition as_signed (bits : Z) : Z :=
  if Z.testbit bits (m + e) then bits - 2 ^ (m + e + 1) else bits.

(** [total_cmp]: the bits below the sign of a negative are flipped. *)
Definition total_key (bits : Z) : Z :=
  let left := as_signed bits in
  Z.lxor left (Z.shiftr (Z.shiftr left (m + e) mod 2 ^ (m + e + 1)) 1).
Definition total_cmp (a b : Z) : comparison := total_key a ?= total_key b.

(** [Ord], [PartialOrd], [PartialEq] and [Hash] of the wrappers. *)
Definition Ordered_cmp (a b : Z) : comparison := total_cmp a b.
Definition Ordered_eq (a b : Z) : bool :=
  match Ordered_cmp a b with Eq => true | _ => false end.

Inductive EventF :=
  | EventF_NaN
  | EventF_NegInf
  | EventF_Finite (v : Z)
  | EventF_PosInf.

(** [from_f32] and [from_f64]. *)
Definition EventF_from (v : Z) : outcome DecodeError EventF :=
  if is_nan v then Ok EventF_NaN else
  if v =? NEG_INFINITY then Ok EventF_NegInf else
  if v =? INFINITY then Ok EventF_PosInf else
  ordered ← Ordered_try_from v;
  Ok (EventF_Finite ordered).

(** [to_f32] and [to_f64]; [NAN] is some not-a-number. *)
Definition EventF_to (NAN : Z) (x : EventF) : Z :=
  match x with
  | EventF_NaN => NAN
  | EventF_NegInf => NEG_INFINITY
  | EventF_Finite v => v
  | EventF_PosInf => INFINITY
  end.

(** [TryFrom<EventF32> for OrderedF32] and its double. *)
Definition Ordered_from_EventF (x : EventF) : outcome DecodeError Z :=
  match x with
  | EventF_Finite inner => Ok inner
  | EventF_NaN | EventF_NegInf | EventF_PosInf => Err not_real
  end.

(** ** Specification *)

(** The values of the wrapper: positive zero, and the normal numbers. *)
Definition Ordered_wf (v : Z) : Prop :=
  0 ≤ v < 2 ^ (m + e + 1) ∧ (v = 0 ∨ 0 < exponent v < Z.ones e).
Definition EventF_wf (x : EventF) : Prop :=
  match x with EventF_Finite v => Ordered_wf v | _ => True end.

(** The number that bits stand for, in units of the smallest normal's last
    place. *)
Definition scaled (mag : Z) : Z :=
  let x := mag / 2 ^ m in
  if x =? 0 then mag else (2 ^ m + mag mod 2 ^ m) * 2 ^ (x - 1).
Definition value (bits : Z) : Z :=
  if negative bits then - scaled (magnitude bits) else scaled (magnitude bits).

Context (Hm : 0 < m) (He : 1 < e).

Lemma magnitude_mod bits : magnitude bits = bits mod 2 ^ (m + e).
Proof. apply Z.land_ones. lia. Qed.
Lemma mantissa_mod bits : mantissa bits = bits mod 2 ^ m.
Proof. apply Z.land_ones. lia. Qed.
Lemma exponent_div bits : exponent bits = (bits / 2 ^ m) mod 2 ^ e.
Proof. unfold exponent. rewrite Z.land_ones, Z.shiftr_div_pow2; lia. Qed.

Lemma magnitude_split bits :
  magnitude bits / 2 ^ m = exponent bits ∧ magnitude bits mod 2 ^ m = mantissa bits.
Proof.
  rewrite magnitude_mod, exponent_div, mantissa_mod, Z.pow_add_r by lia.
  assert (0 < 2 ^ m) by lia. assert (0 < 2 ^ e) by lia.
  rewrite Z.rem_mul_r by lia. split.
  - rewrite Z.mul_comm, Z.div_add, Z.div_small by (try apply Z.mod_pos_bound; lia). lia.
  - rewrite Z.mul_comm, Z.mod_add by lia. apply Z.mod_mod. lia.
Qed.

Lemma bits_split bits :
  0 ≤ bits < 2 ^ (m + e + 1) →
  bits = (if negative bits then 2 ^ (m + e) else 0) + magnitude bits ∧
  0 ≤ magnitude bits < 2 ^ (m + e).
Proof.
  intros Hb. rewrite magnitude_mod. assert (0 < 2 ^ (m + e)) by lia.
  rewrite Z.pow_add_r, Z.pow_1_r in Hb by lia.
  split; [|by apply Z.mod_pos_bound]. unfold negative.
  rewrite Z.testbit_odd, Z.shiftr_div_pow2 by lia.
  pose proof (Z.div_mod bits (2 ^ (m + e))) as Hd.
  assert (0 ≤ bits / 2 ^ (m + e) < 2) as Hq
    by (split; [apply Z.div_pos; lia|apply Z.div_lt_upper_bound; lia]).
  assert (bits / 2 ^ (m + e) = 0 ∨ bits / 2 ^ (m + e) = 1) as [Hx|Hx] by lia;
    rewrite Hx in Hd |- *; simpl; lia.
Qed.

Lemma total_key_spec bits :
  0 ≤ bits < 2 ^ (m + e + 1) →
  total_key bits = if negative bits then -1 - magnitude bits else magnitude bits.
Proof.
  intros Hb. pose proof (bits_split bits Hb) as [Hs Hr].
  unfold total_key, as_signed. change (Z.testbit bits (m + e)) with (negative bits).
  assert (0 < 2 ^ (m + e)) by lia. rewrite Z.pow_add_r, Z.pow_1_r by lia.
  destruct (negative bits).
  - replace (bits - 2 ^ (m + e) * 2) with (magnitude bits + - 2 ^ (m + e)) by lia.
    rewrite (Z.shiftr_div_pow2 _ (m + e)) by lia.
    replace ((magnitude bits + - 2 ^ (m + e)) / 2 ^ (m + e)) with (-1)
      by (apply Z.div_unique with (magnitude bits); lia).
    rewrite Z.shiftr_div_pow2, Z.pow_1_r by lia.
    replace (-1 mod (2 ^ (m + e) * 2) / 2) with (Z.ones (m + e)).
    2:{ rewrite Z.ones_equiv, <-(Z.mod_unique (-1) (2 ^ (m + e) * 2) (-1) (2 ^ (m + e) * 2 - 1))
          by lia.
        apply Z.div_unique with 1; lia. }
    replace (- 2 ^ (m + e)) with (Z.lnot (Z.ones (m + e)))
      by (unfold Z.lnot; rewrite Z.ones_equiv; lia).
    rewrite Z.add_nocarry_lxor.
    2:{ rewrite <-Z.ldiff_land, Z.ldiff_ones_r, Z.shiftr_div_pow2, Z.div_small by lia.
        apply Z.shiftl_0_l. }
    rewrite <-(Z.lxor_m1_r (Z.ones _)), Z.lxor_assoc, (Z.lxor_comm (Z.lxor _ (-1))).
    rewrite <-(Z.lxor_assoc (Z.ones _)), Z.lxor_nilpotent, Z.lxor_0_l, Z.lxor_m1_r.
    unfold Z.lnot, Z.pred. ring.
  - rewrite (Z.shiftr_div_pow2 _ (m + e)), Z.div_small, Z.mod_0_l, Z.shiftr_0_l by lia.
    rewrite Z.lxor_0_r. lia.
Qed.

(** The key orders bits as their sign and magnitude, and determines them. *)
Lemma total_key_inj a b :
  0 ≤ a < 2 ^ (m + e + 1) → 0 ≤ b < 2 ^ (m + e + 1) →
  total_key a = total_key b → a = b.
Proof.
  intros Ha Hb. rewrite !total_key_spec by done.
  pose proof (bits_split a Ha). pose proof (bits_split b Hb).
  destruct (negative a), (negative b); lia.
Qed.

Lemma Ordered_eq_spec a b :
  0 ≤ a < 2 ^ (m + e + 1) → 0 ≤ b < 2 ^ (m + e + 1) →
  Ordered_eq a b = true ↔ a = b.
Proof.
  intros Ha Hb. unfold Ordered_eq, Ordered_cmp, total_cmp. split.
  - destruct (Z.compare_spec (total_key a) (total_key b)); try done.
    intros _. by apply total_key_inj.
  - intros ->. by rewrite Z.compare_refl.
Qed.

(** ** Numbers *)

Lemma scaled_low x f :
  0 ≤ x → 0 ≤ f < 2 ^ m → f ≤ scaled (x * 2 ^ m + f) < 2 ^ m * 2 ^ x.
Proof.
  intros Hx Hf. unfold scaled.
  rewrite Z.div_add_l, (Z.div_small f), Z.add_0_r by lia.
  rewrite Z.add_comm, Z_mod_plus_full, (Z.mod_small f) by lia.
  destruct (Z.eqb_spec x 0) as [->|]; [rewrite Z.mul_0_l, Z.pow_0_r; lia|].
  replace (2 ^ x) with (2 * 2 ^ (x - 1))
    by (rewrite <-Z.pow_succ_r by lia; f_equal; lia).
  assert (0 < 2 ^ (x - 1)) by lia. nia.
Qed.

Lemma scaled_high x f :
  0 < x → 0 ≤ f < 2 ^ m → 2 ^ m * 2 ^ (x - 1) ≤ scaled (x * 2 ^ m + f).
Proof.
  intros Hx Hf. unfold scaled.
  rewrite Z.div_add_l, (Z.div_small f), Z.add_0_r by lia.
  rewrite Z.add_comm, Z_mod_plus_full, (Z.mod_small f) by lia.
  destruct (Z.eqb_spec x 0) as [->|]; [lia|]. assert (0 < 2 ^ (x - 1)) by lia. nia.
Qed.

Lemma scaled_lt a b : 0 ≤ a → a < b → scaled a < scaled b.
Proof.
  intros Ha Hab. assert (0 < 2 ^ m) as Hp by lia.
  pose proof (Z.div_mod a (2 ^ m)) as Da. pose proof (Z.div_mod b (2 ^ m)) as Db.
  pose proof (Z.mod_pos_bound a _ Hp) as Fa. pose proof (Z.mod_pos_bound b _ Hp) as Fb.
  assert (0 ≤ a / 2 ^ m) by (apply Z.div_pos; lia).
  destruct (decide (a / 2 ^ m = b / 2 ^ m)) as [Hx|Hx].
  - unfold scaled. rewrite Hx. destruct (_ =? 0) eqn:E; [lia|].
    assert (0 < 2 ^ (b / 2 ^ m - 1)) by lia. nia.
  - assert (a / 2 ^ m < b / 2 ^ m) as Hlt
      by (pose proof (Z.div_le_mono a b (2 ^ m)); lia).
    pose proof (scaled_low (a / 2 ^ m) (a mod 2 ^ m)) as Hl.
    pose proof (scaled_high (b / 2 ^ m) (b mod 2 ^ m)) as Hh.
    rewrite (Z.mul_comm _ (2 ^ m)), <-Da in Hl by lia.
    rewrite (Z.mul_comm _ (2 ^ m)), <-Db in Hh by lia.
    pose proof (Z.pow_le_mono_r 2 (a / 2 ^ m) (b / 2 ^ m - 1)). nia.
Qed.

Lemma scaled_compare a b : 0 ≤ a → 0 ≤ b → (scaled a ?= scaled b) = (a ?= b).
Proof.
  intros Ha Hb. destruct (Z.compare_spec a b) as [->|Hlt|Hlt].
  - apply Z.compare_refl.
  - apply Z.compare_lt_iff, scaled_lt; lia.
  - apply Z.compare_gt_iff, scaled_lt; lia.
Qed.

Lemma scaled_pos a : 0 < a → 0 < scaled a.
Proof.
  intros Ha. pose proof (scaled_lt 0 a) as H.
  assert (scaled 0 = 0) as H0 by (unfold scaled; by rewrite Z.div_0_l by lia). lia.
Qed.

(** ** Admission *)

Lemma is_zero_split v : is_zero v = (exponent v =? 0) && (mantissa v =? 0).
Proof.
  unfold is_zero. pose proof (magnitude_split v) as [<- <-].
  assert (0 ≤ magnitude v) by (rewrite magnitude_mod; apply Z.mod_pos_bound; lia).
  pose proof (Z.div_mod (magnitude v) (2 ^ m)).
  pose proof (Z.mod_pos_bound (magnitude v) (2 ^ m)).
  destruct (Z.eqb_spec (magnitude v) 0) as [->|].
  - by rewrite Z.div_0_l, Z.mod_0_l by lia.
  - destruct (Z.eqb_spec (magnitude v / 2 ^ m) 0) as [E|]; [rewrite E in *|done].
    destruct (Z.eqb_spec (magnitude v mod 2 ^ m) 0); [lia|done].
Qed.

Lemma exponent_range v : 0 ≤ exponent v ≤ Z.ones e.
Proof.
  rewrite exponent_div, Z.ones_equiv. pose proof (Z.mod_pos_bound (v / 2 ^ m) (2 ^ e)). lia.
Qed.

Lemma ones_e_pos : 0 < Z.ones e.
Proof. rewrite Z.ones_equiv. pose proof (Z.pow_gt_1 2 e). lia. Qed.

Lemma Ordered_try_from_spec v :
  Ordered_try_from v =
    if is_zero v then Ok 0 else
    if (0 <? exponent v) && (exponent v <? Z.ones e) then Ok v else Err not_real.
Proof.
  unfold Ordered_try_from, is_nan, is_infinite, is_subnormal. rewrite is_zero_split.
  pose proof (exponent_range v). pose proof ones_e_pos.
  destruct (Z.eqb_spec (exponent v) (Z.ones e)) as [->|], (Z.eqb_spec (exponent v) 0) as [E|],
    (mantissa v =? 0); simpl; try lia; try done;
    repeat case_match; try done; lia.
Qed.

Lemma zero_wf : Ordered_wf 0.
Proof. split; [lia|by left]. Qed.

Lemma value_zero v : is_zero v = true → value v = 0.
Proof.
  unfold is_zero, value. intros ->%Z.eqb_eq.
  assert (scaled 0 = 0) as -> by (unfold scaled; by rewrite Z.div_0_l by lia).
  by destruct (negative v).
Qed.

Lemma is_zero_0 : is_zero 0 = true.
Proof. unfold is_zero, magnitude. by rewrite Z.land_0_l. Qed.

Lemma Ordered_wf_magnitude v : Ordered_wf v → v ≠ 0 → 0 < magnitude v.
Proof.
  intros [Hr [->|Hx]] Hv; [done|].
  pose proof (bits_split v Hr) as [_ Hm0]. pose proof (magnitude_split v) as [E _].
  destruct (decide (magnitude v = 0)) as [Ez|]; [|lia].
  rewrite Ez, Z.div_0_l in E by lia. lia.
Qed.

Lemma Ordered_try_from_Ok v x :
  0 ≤ v < 2 ^ (m + e + 1) → Ordered_try_from v = Ok x →
  Ordered_wf x ∧ value x = value v ∧ x = (if is_zero v then 0 else v).
Proof.
  intros Hv. rewrite Ordered_try_from_spec. destruct (is_zero v) eqn:Ez.
  - intros [= <-]. repeat split; [lia| |by left|].
    + apply Z.pow_pos_nonneg; lia.
    + by rewrite (value_zero v), (value_zero 0) by (done || apply is_zero_0).
  - destruct (_ && _) eqn:E; [|done]. intros [= <-]. repeat split; [lia..|].
    right. lia.
Qed.

Lemma Ordered_try_from_wf v : Ordered_wf v → Ordered_try_from v = Ok v.
Proof.
  intros [Hr Hx]. rewrite Ordered_try_from_spec. destruct Hx as [->|Hx].
  - by rewrite is_zero_0.
  - rewrite is_zero_split. destruct (Z.eqb_spec (exponent v) 0); [lia|]. simpl.
    by replace ((0 <? exponent v) && (exponent v <? Z.ones e)) with true by lia.
Qed.

Lemma Ordered_cmp_value a b :
  Ordered_wf a → Ordered_wf b → Ordered_cmp a b = (value a ?= value b).
Proof.
  intros Wa Wb. unfold Ordered_cmp, total_cmp, value.
  pose proof (bits_split a (proj1 Wa)) as [Ea Ra].
  pose proof (bits_split b (proj1 Wb)) as [Eb Rb].
  rewrite !total_key_spec by apply Wa || apply Wb.
  assert (∀ v, Ordered_wf v → negative v = true → 0 < scaled (magnitude v)) as Hneg.
  { intros v Wv Hn. apply scaled_pos, Ordered_wf_magnitude; [done|]. intros ->.
    unfold negative in Hn. by rewrite Z.bits_0 in Hn. }
  assert (∀ v, Ordered_wf v → 0 ≤ scaled (magnitude v)) as Hpos.
  { intros v Wv. destruct (decide (v = 0)) as [->|Hv].
    - unfold magnitude. rewrite Z.land_0_l. unfold scaled. by rewrite Z.div_0_l by lia.
    - pose proof (scaled_pos _ (Ordered_wf_magnitude v Wv Hv)). lia. }
  pose proof (Hneg a Wa). pose proof (Hneg b Wb). pose proof (Hpos a Wa). pose proof (Hpos b Wb).
  destruct (negative a), (negative b).
  - rewrite Z.compare_opp, scaled_compare by lia.
    rewrite (Z.compare_sub (-1 - magnitude a)), (Z.compare_sub (magnitude b)). f_equal. lia.
  - transitivity Lt; [|symmetry]; apply Z.compare_lt_iff; lia.
  - transitivity Gt; [|symmetry]; apply Z.compare_gt_iff; lia.
  - by rewrite scaled_compare by lia.
Qed.

(** C34: the wrapper of a primitive float accepts exactly the zeros and the
    normal numbers, for the rest it reports [NotReal]; what it keeps is the same
    number, a negative zero made positive, and is accepted unchanged; on what it
    keeps, comparison is that of the numbers and equality that of the bits. *)
Theorem ordered_floats_total_order :
  (∀ v, 0 ≤ v < 2 ^ (m + e + 1) →
    match Ordered_try_from v with
    | Ok x => Ordered_wf x ∧ value x = value v ∧ Ordered_try_from x = Ok x ∧
        (x ≠ v → is_zero v = true)
    | Err r => r = not_real ∧ (is_nan v || is_infinite v || is_subnormal v = true)
    | Panic => False
    end) ∧
  (∀ a b, Ordered_wf a → Ordered_wf b →
    Ordered_cmp a b = (value a ?= value b) ∧
    (Ordered_eq a b = true ↔ a = b) ∧ (value a = value b ↔ a = b)).
Proof.
  split.
  - intros v Hv. destruct (Ordered_try_from v) as [x|r|] eqn:E.
    + pose proof (Ordered_try_from_Ok v x Hv E) as (Hx & Hval & Hz).
      repeat split; [apply Hx..|done| |by destruct (is_zero v)].
      by apply Ordered_try_from_wf.
    + unfold Ordered_try_from in E. destruct (_ || _); naive_solver.
    + unfold Ordered_try_from in E. by destruct (_ || _).
  - intros a b Wa Wb. pose proof (Ordered_cmp_value a b Wa Wb) as Hc.
    pose proof (Ordered_eq_spec a b (proj1 Wa) (proj1 Wb)) as He'.
    split; [done|]. split; [done|].
    rewrite <-He'. unfold Ordered_eq. rewrite Hc.
    destruct (Z.compare_spec (value a) (value b)); naive_solver lia.
Qed.

(** ** Classification *)

Lemma INFINITY_eq : INFINITY = Z.ones e * 2 ^ m.
Proof. unfold INFINITY. by rewrite Z.shiftl_mul_pow2 by lia. Qed.
Lemma NEG_INFINITY_eq : NEG_INFINITY = 2 ^ (m + e) + INFINITY.
Proof.
  unfold NEG_INFINITY, INFINITY. rewrite !Z.shiftl_mul_pow2, !Z.ones_equiv by lia.
  rewrite !Z.pow_add_r, Z.pow_1_r by lia. lia.
Qed.

Lemma is_infinite_spec v :
  0 ≤ v < 2 ^ (m + e + 1) → is_infinite v = true ↔ v = INFINITY ∨ v = NEG_INFINITY.
Proof.
  intros Hv. pose proof (bits_split v Hv) as [Hs Hr].
  pose proof (magnitude_split v) as [Hd Hf]. pose proof (Z.div_mod (magnitude v) (2 ^ m)) as Hdm.
  rewrite Hd, Hf in Hdm. unfold is_infinite.
  rewrite andb_true_iff, !Z.eqb_eq, NEG_INFINITY_eq, INFINITY_eq. split.
  - intros [Hx Hm0]. rewrite Hx, Hm0 in Hdm. destruct (negative v); lia.
  - intros Hi. assert (magnitude v = Z.ones e * 2 ^ m) as Hmag.
    { assert (Z.ones e * 2 ^ m < 2 ^ (m + e)) by (rewrite Z.ones_equiv, Z.pow_add_r by lia; lia).
      pose proof ones_e_pos. assert (0 < Z.ones e * 2 ^ m) by lia.
      destruct (negative v); lia. }
    rewrite Hmag, Z.div_mul in Hd by lia. rewrite Hmag, Z_mod_mult in Hf. lia.
Qed.

Lemma Ordered_wf_finite v : Ordered_wf v → is_nan v = false ∧ is_infinite v = false.
Proof.
  intros Hv. pose proof (Ordered_try_from_wf v Hv) as Ho. unfold Ordered_try_from in Ho.
  by destruct (is_nan v), (is_infinite v).
Qed.

Lemma INFINITY_range : 0 ≤ INFINITY < 2 ^ (m + e) ∧ NEG_INFINITY < 2 ^ (m + e + 1).
Proof.
  rewrite NEG_INFINITY_eq, INFINITY_eq, Z.ones_equiv, !Z.pow_add_r, Z.pow_1_r by lia.
  assert (0 < 2 ^ m) by lia. assert (0 < 2 ^ e) by lia. nia.
Qed.

Lemma infinite_not_nan v : is_infinite v = true → is_nan v = false.
Proof. unfold is_infinite, is_nan. lia. Qed.

(** An event float classifies every primitive float but the subnormal
    ones, which report [NotReal]; converting back gives the number that was
    classified (a not-a-number for one, a positive zero for a negative one), and
    what is converted back is classified as it was. *)
Theorem event_floats_roundtrip NAN (HNAN : is_nan NAN = true) :
  (∀ v, 0 ≤ v < 2 ^ (m + e + 1) →
    match EventF_from v with
    | Ok x => EventF_wf x ∧
        EventF_to NAN x = (if is_nan v then NAN else if is_zero v then 0 else v)
    | Err r => r = not_real ∧ is_subnormal v = true
    | Panic => False
    end) ∧
  (∀ x, EventF_wf x → EventF_from (EventF_to NAN x) = Ok x).
Proof.
  pose proof INFINITY_range. split.
  - intros v Hv. unfold EventF_from.
    destruct (is_nan v) eqn:En; [done|].
    pose proof (is_infinite_spec v Hv) as Hi.
    assert (is_infinite v = true → is_zero v = false) as Hz.
    { rewrite is_zero_split. unfold is_infinite. pose proof ones_e_pos. lia. }
    destruct (Z.eqb_spec v NEG_INFINITY) as [->|]; [by rewrite Hz by naive_solver|].
    destruct (Z.eqb_spec v INFINITY) as [->|]; [by rewrite Hz by naive_solver|].
    destruct (Ordered_try_from v) as [x|r|] eqn:E; cbn [mbind outcome_bind].
    + by apply Ordered_try_from_Ok in E as (?&_&?).
    + unfold Ordered_try_from in E. destruct (is_nan v); [done|].
      destruct (is_infinite v) eqn:?; [naive_solver|]. destruct (is_subnormal v); naive_solver.
    + unfold Ordered_try_from in E. by destruct (_ || _).
  - intros [| |v|] Hx; unfold EventF_from; cbn [EventF_to].
    + by rewrite HNAN.
    + rewrite infinite_not_nan by (apply is_infinite_spec; [|by right]; rewrite NEG_INFINITY_eq in *; lia).
      by rewrite Z.eqb_refl.
    + destruct (Ordered_wf_finite v Hx) as [-> Hi].
      pose proof (is_infinite_spec v (proj1 Hx)) as Hs. rewrite Hi in Hs.
      destruct (Z.eqb_spec v NEG_INFINITY); [naive_solver|].
      destruct (Z.eqb_spec v INFINITY); [naive_solver|].
      by rewrite Ordered_try_from_wf.
    + rewrite infinite_not_nan
        by (apply is_infinite_spec; [rewrite Z.pow_add_r, Z.pow_1_r by lia; lia|by left]).
      rewrite NEG_INFINITY_eq.
      destruct (Z.eqb_spec INFINITY (2 ^ (m + e) + INFINITY)); [lia|]. by rewrite Z.eqb_refl.
Qed.
End float.
