(* ===== verification/Typed.v ===== *)
(** * Typed payloads: [src/crates/pardosa/src/schema.rs] from [PardosaSchema] on,
    and the payload types of [schema/floats.rs]

    The trait [PardosaType] is a record of its constant and its three methods;
    an [impl] is a value of it, and an [impl] over another type is a function. An
    encoder that fails returns no buffer: what it has written by then is
    dropped by its callers. [TypeCode] is the set of the types that the
    implementations of the crate build. *)

From S2P Require Export Schema Floats.

Record PardosaType (A : Type) := mk_PardosaType {
  TYPE_DEPTH : Z;
  descriptor_node : outcome DecodeError DescriptorNode;  (* [Panic] for a bound above 32 bits *)
  encode_type : A → bytes → outcome EncodeError bytes;
  decode_type : decoder A;
}.
Arguments mk_PardosaType {A}.
Arguments TYPE_DEPTH {A}.
Arguments descriptor_node {A}.
Arguments encode_type {A}.
Arguments decode_type {A}.

(** ** Integers

    The eight implementations differ in the width, in bytes, and in the cast
    between signed and unsigned. *)

Definition uint_encode (n : nat) (v : Z) (buf : bytes) : outcome EncodeError bytes :=
  Ok (buf ++ le_encode n v).
Definition uint_decode (n : nat) : decoder Z := λ buf,
  let w := Z.of_nat n in
  if blen buf <? w then Err (DecodeError_TruncatedPayload w (blen buf)) else
  v ← le_at w buf 0;
  Ok (v, w).
Definition uint_type (n : nat) (node : DescriptorNode) : PardosaType Z :=
  mk_PardosaType 0 (Ok node) (uint_encode n) (uint_decode n).

Definition u8_type : PardosaType Z := uint_type 1 Node_U8.
Definition u16_type : PardosaType Z := uint_type 2 Node_U16.
Definition u32_type : PardosaType Z := uint_type 4 Node_U32.
Definition u64_type : PardosaType Z := uint_type 8 Node_U64.

(** [cast_signed] and [cast_unsigned] at [n] bytes. *)
Definition cast_signed (n : nat) (v : Z) : Z :=
  let w := 8 * Z.of_nat n in if 2 ^ (w - 1) <=? v then v - 2 ^ w else v.
Definition cast_unsigned (n : nat) (v : Z) : Z := v mod 2 ^ (8 * Z.of_nat n).

Definition int_encode (n : nat) (v : Z) (buf : bytes) : outcome EncodeError bytes :=
  Ok (buf ++ le_encode n (cast_unsigned n v)).
Definition int_decode (n : nat) : decoder Z := λ buf,
  let w := Z.of_nat n in
  if blen buf <? w then Err (DecodeError_TruncatedPayload w (blen buf)) else
  v ← le_at w buf 0;
  Ok (cast_signed n v, w).
Definition int_type (n : nat) (node : DescriptorNode) : PardosaType Z :=
  mk_PardosaType 0 (Ok node) (int_encode n) (int_decode n).

Definition i8_type : PardosaType Z := int_type 1 Node_I8.
Definition i16_type : PardosaType Z := int_type 2 Node_I16.
Definition i32_type : PardosaType Z := int_type 4 Node_I32.
Definition i64_type : PardosaType Z := int_type 8 Node_I64.

(** ** Booleans, timestamps, identifiers, bounded text and bytes *)

Definition bool_encode (b : bool) (buf : bytes) : outcome EncodeError bytes :=
  Ok (buf ++ [if b then x01 else x00]).
Definition bool_decode : decoder bool := λ buf,
  if is_empty buf then Err (DecodeError_TruncatedPayload 1 0) else
  tag ← byte_at buf 0;
  match tag with
  | x00 => Ok (false, 1)
  | x01 => Ok (true, 1)
  | other => Err (DecodeError_InvalidBoolean other)
  end.
Definition bool_type : PardosaType bool :=
  mk_PardosaType 0 (Ok Node_Bool) bool_encode bool_decode.

Definition Timestamp_type : PardosaType Z :=
  mk_PardosaType 0 (Ok Node_Timestamp) (λ t buf, Ok (Timestamp_encode t buf)) Timestamp_decode.

Definition Uuid_type : PardosaType bytes :=
  mk_PardosaType 0 (Ok Node_Uuid) (λ u buf, Ok (Uuid_encode u buf)) Uuid_decode.

(** [u32::try_from(MAX).expect(..)]. *)
Definition expect_u32 {E} (MAX : Z) : outcome E Z :=
  match u32_try_from MAX with Some n => Ok n | None => Panic end.

Definition EventString_type (MAX : Z) : PardosaType bytes :=
  mk_PardosaType 0 (max_bytes ← expect_u32 MAX; Ok (Node_EventString max_bytes))
    (λ s buf, Ok (EventString_encode s buf)) (EventString_decode MAX).

Definition NonEmptyEventString_type (MAX : Z) : PardosaType bytes :=
  mk_PardosaType 0 (max_bytes ← expect_u32 MAX; Ok (Node_NonEmptyEventString max_bytes))
    (λ s buf, Ok (NonEmptyEventString_encode s buf)) (NonEmptyEventString_decode MAX).

Definition EventBytes_type (MAX : Z) : PardosaType bytes :=
  mk_PardosaType 0 (max_bytes ← expect_u32 MAX; Ok (Node_EventBytes max_bytes))
    (λ b buf, Ok (EventBytes_encode b buf)) (EventBytes_decode MAX).

(** ** Options and bounded vectors of a payload type *)

Section composite.
Context {A : Type} (T : PardosaType A).

Definition option_encode (v : option A) (buf : bytes) : outcome EncodeError bytes :=
  match v with
  | None => Ok (buf ++ [x00])
  | Some inner => encode_type T inner (buf ++ [x01])
  end.
Definition option_decode : decoder (option A) := λ buf,
  if is_empty buf then Err (DecodeError_TruncatedPayload 1 0) else
  tag ← byte_at buf 0;
  match tag with
  | x00 => Ok (None, 1)
  | x01 =>
      tail ← slice_from buf 1;
      '(val, consumed) ← decode_type T tail;
      total ← checked_advance 1 consumed (blen buf);
      Ok (Some val, total)
  | other => Err (DecodeError_InvalidOptionTag other)
  end.
Definition option_type : PardosaType (option A) :=
  mk_PardosaType (TYPE_DEPTH T + 1) (inner ← descriptor_node T; Ok (Node_Option inner))
    option_encode option_decode.

Fixpoint encode_items (items : list A) (buf : bytes) : outcome EncodeError bytes :=
  match items with
  | [] => Ok buf
  | item :: items => buf ← encode_type T item buf; encode_items items buf
  end.
Definition EventVec_encode (MAX : Z) (v : list A) (buf : bytes) : outcome EncodeError bytes :=
  let count := blen v in
  if MAX <? count then Err (EncodeError_ItemCountExceeded count MAX) else
  count_u32 ← ok_or (u32_try_from count) (EncodeError_ItemCountExceeded count MAX);
  encode_items v (buf ++ u32_le count_u32).

(** The loop over [0..count]. *)
Fixpoint decode_items (count : nat) (buf : bytes) (cursor : Z) (items : list A) :
    outcome DecodeError (list A * Z) :=
  match count with
  | O => Ok (items, cursor)
  | S count =>
    tail ← slice_from buf cursor;
    '(item, consumed) ← decode_type T tail;
    next_cursor ← ok_or (checked_add cursor consumed)
                    (DecodeError_TruncatedPayload usize_max (blen buf));
    if blen buf <? next_cursor
    then Err (DecodeError_TruncatedPayload next_cursor (blen buf)) else
    decode_items count buf next_cursor (items ++ [item])
  end.
Definition EventVec_decode (MAX : Z) : decoder (list A) := λ buf,
  if u32_max <? MAX then Err too_long else
  if blen buf <? 4 then Err (DecodeError_TruncatedPayload 4 (blen buf)) else
  count ← u32_at buf 0;
  if MAX <? count then Err (DecodeError_ItemCountExceeded count MAX) else
  if count =? 0 then v ← EventVec_new MAX []; Ok (v, 4) else
  '(items, cursor) ← decode_items (Z.to_nat count) buf 4 [];
  v ← EventVec_new MAX items;
  Ok (v, cursor).
Definition EventVec_type (MAX : Z) : PardosaType (list A) :=
  mk_PardosaType (TYPE_DEPTH T + 1)
    (max_items ← expect_u32 MAX; inner ← descriptor_node T; Ok (Node_EventVec inner max_items))
    (EventVec_encode MAX) (EventVec_decode MAX).
End composite.

(** ** Floats: [n] bytes, of which [m] bits of mantissa and [e] of exponent *)

Section float_types.
Context (n : nat) (m e : Z) (node : DescriptorNode) (name : bytes).

Definition Ordered_encode (v : Z) (buf : bytes) : outcome EncodeError bytes :=
  Ok (buf ++ le_encode n v).
Definition Ordered_decode : decoder Z := λ buf,
  let w := Z.of_nat n in
  if blen buf <? w then Err (DecodeError_TruncatedPayload w (blen buf)) else
  raw_bits ← le_at w buf 0;
  ordered ← Ordered_try_from m e raw_bits;
  Ok (ordered, w).
Definition Ordered_type : PardosaType Z :=
  mk_PardosaType 0 (Ok node) Ordered_encode Ordered_decode.

Definition EventF_node : DescriptorNode :=
  Node_Enum name x01 [
    mk_VariantDescriptor 0 (str "NaN") None;
    mk_VariantDescriptor 1 (str "NegInf") None;
    mk_VariantDescriptor 2 (str "Finite") (Some node);
    mk_VariantDescriptor 3 (str "PosInf") None].
Definition EventF_encode (x : EventF) (buf : bytes) : outcome EncodeError bytes :=
  match x with
  | EventF_NaN => Ok (buf ++ [x00])
  | EventF_NegInf => Ok (buf ++ [x01])
  | EventF_Finite ordered => Ordered_encode ordered (buf ++ [x02])
  | EventF_PosInf => Ok (buf ++ [x03])
  end.
Definition EventF_decode : decoder EventF := λ buf,
  if is_empty buf then Err (DecodeError_TruncatedPayload 1 0) else
  tag ← byte_at buf 0;
  match tag with
  | x00 => Ok (EventF_NaN, 1)
  | x01 => Ok (EventF_NegInf, 1)
  | x02 =>
      tail ← slice_from buf 1;
      '(ordered, consumed) ← Ordered_decode tail;
      total ← uadd 1 consumed;
      Ok (EventF_Finite ordered, total)
  | x03 => Ok (EventF_PosInf, 1)
  | other => Err (DecodeError_UnknownVariantDiscriminant (byte_to_Z other))
  end.
Definition EventF_type : PardosaType EventF :=
  mk_PardosaType 1 (Ok EventF_node) EventF_encode EventF_decode.
End float_types.

Definition OrderedF32_type : PardosaType Z := Ordered_type 4 23 8 Node_OrderedF32.
Definition OrderedF64_type : PardosaType Z := Ordered_type 8 52 11 Node_OrderedF64.
Definition EventF32_type : PardosaType EventF :=
  EventF_type 4 23 8 Node_OrderedF32 (str "EventF32").
Definition EventF64_type : PardosaType EventF :=
  EventF_type 8 52 11 Node_OrderedF64 (str "EventF64").

(** ** Declared schemas *)

(** The default [PardosaSchema::schema_identity]: a descriptor that is not
    admitted is a programming error. *)
Definition PardosaSchema_schema_identity `{Digests} (SCHEMA_VERSION : Z)
    (schema_descriptor : DescriptorNode) : outcome OperationFailure bytes :=
  match try_from_descriptor (mk_SchemaDescriptor SCHEMA_VERSION schema_descriptor) with
  | Ok admitted => Ok (schema_identity admitted)
  | _ => Panic
  end.

(** ** Laws of a payload type

    As [codec_laws], but acceptance is weaker: an accepted buffer has the length
    of the image of the value returned; it is the image for the types that are
    [canonical]. *)

Record type_laws {A} (T : PardosaType A) (wf : A → Prop) (image : A → bytes) : Prop := {
  type_encodes : ∀ a buf, wf a → encode_type T a buf = Ok (buf ++ image a);
  type_complete : ∀ a rest, wf a → blen (image a ++ rest) ≤ isize_max →
    decode_type T (image a ++ rest) = Ok (a, blen (image a));
  type_sound : ∀ buf a n, decode_type T buf = Ok (a, n) →
    wf a ∧ n = blen (image a) ∧ 0 ≤ n ≤ blen buf;
  type_total : ∀ buf, blen buf ≤ isize_max → decode_type T buf ≠ Panic;
}.
Arguments type_encodes {A T wf image}.
Arguments type_complete {A T wf image}.
Arguments type_sound {A T wf image}.
Arguments type_total {A T wf image}.

Definition canonical {A} (T : PardosaType A) (image : A → bytes) : Prop :=
  ∀ buf a n, decode_type T buf = Ok (a, n) → take (Z.to_nat n) buf = image a.

(** The values a type reads back from what it writes, and what it writes; a type
    that keeps the laws for some values keeps them for these. *)
Definition image_of {A} (T : PardosaType A) (a : A) : bytes :=
  match encode_type T a [] with Ok buf => buf | _ => [] end.
Definition wf_of {A} (T : PardosaType A) (a : A) : Prop :=
  (∀ buf, encode_type T a buf = Ok (buf ++ image_of T a)) ∧
  (∀ rest, blen (image_of T a ++ rest) ≤ isize_max →
     decode_type T (image_of T a ++ rest) = Ok (a, blen (image_of T a))).

Lemma wf_of_laws {A} {T : PardosaType A} {wf image} (L : type_laws T wf image) a :
  wf a → image_of T a = image a ∧ wf_of T a.
Proof.
  intros Ha. assert (image_of T a = image a) as Hi.
  { unfold image_of. by rewrite (type_encodes L) by done. }
  split; [done|]. split; rewrite Hi; intros; [by apply (type_encodes L)|by apply (type_complete L)].
Qed.

Lemma laws_of {A} {T : PardosaType A} {wf image} (L : type_laws T wf image) :
  type_laws T (wf_of T) (image_of T).
Proof.
  split.
  - intros a buf [He _]. apply He.
  - intros a rest [_ Hd]. apply Hd.
  - intros buf a n H. apply (type_sound L) in H as (Ha&->&?).
    by destruct (wf_of_laws L a Ha) as [-> ?].
  - apply (type_total L).
Qed.

(** One more item read at [cursor]. *)
Lemma canonical_step {A} {T : PardosaType A} {wf image} (L : type_laws T wf image)
    (C : canonical T image) (buf : bytes) cursor tail a k :
  0 ≤ cursor ≤ blen buf → slice_from (E:=DecodeError) buf cursor = Ok tail →
  decode_type T tail = Ok (a, k) →
  take (Z.to_nat (cursor + k)) buf = take (Z.to_nat cursor) buf ++ image a.
Proof.
  intros Hc Ht Hd. pose proof (C _ _ _ Hd) as Hta. apply (type_sound L) in Hd as (_&_&Hk).
  apply slice_Ok in Ht as (_&_&->).
  rewrite (take_ge (drop _ _)) in Hta by (rewrite length_drop; unfold blen; lia).
  replace (Z.to_nat (cursor + k)) with (Z.to_nat cursor + Z.to_nat k)%nat by lia.
  by rewrite <-(take_take_drop buf (Z.to_nat cursor) (Z.to_nat k)), Hta.
Qed.

(** A type whose methods are an exact codec. *)
Lemma codec_type {A} (T : PardosaType A) wf image :
  codec_laws wf image (decode_type T) →
  (∀ a buf, wf a → encode_type T a buf = Ok (buf ++ image a)) →
  type_laws T wf image ∧ canonical T image.
Proof.
  intros L He. split; [split|].
  - done.
  - intros a rest Ha _. by apply (codec_complete L).
  - intros buf a n Hd. pose proof (codec_consumed L _ _ _ Hd) as Hn.
    apply (codec_sound L) in Hd as (?&?&?). repeat split; len || done.
  - apply (codec_total L).
  - intros buf a n Hd. by apply (codec_sound L) in Hd as (?&?&?).
Qed.


(** ** Scalars *)

Definition uint_wf (n : nat) (v : Z) : Prop := 0 ≤ v < 2 ^ (8 * Z.of_nat n).
Definition int_wf (n : nat) (v : Z) : Prop :=
  - 2 ^ (8 * Z.of_nat n - 1) ≤ v < 2 ^ (8 * Z.of_nat n - 1).

Lemma uint_codec n : codec_laws (uint_wf n) (le_encode n) (uint_decode n).
Proof.
  split.
  - intros v rest Hv. unfold uint_wf in Hv. unfold uint_decode. autorewrite with blen. pose proof (blen_nonneg rest).
    rewrite (proj2 (Z.ltb_ge _ _)) by lia. by rewrite (le_at_here _ n v).
  - intros buf v k H. unfold uint_decode in H. cbv zeta in H. ok_inv. learn_lengths.
    split; [by apply (le_at_range (E:=DecodeError) _ buf 0); [lia|]|]. split; [lia|].
    by apply (take_le_at (E:=DecodeError) n buf 0 []).
  - intros buf Hb. unfold uint_decode. cbv zeta. no_panic.
Qed.

Lemma uint_laws n node :
  type_laws (uint_type n node) (uint_wf n) (le_encode n) ∧ canonical (uint_type n node) (le_encode n).
Proof. by apply codec_type; [apply uint_codec|]. Qed.

Section signed.
Context (n : nat) (Hn : (0 < n)%nat).

Lemma width_half : 2 ^ (8 * Z.of_nat n) = 2 * 2 ^ (8 * Z.of_nat n - 1) ∧ 0 < 2 ^ (8 * Z.of_nat n - 1).
Proof. split; [rewrite <-Z.pow_succ_r by lia; f_equal; lia|lia]. Qed.

Lemma cast_roundtrip v : int_wf n v → uint_wf n (cast_unsigned n v) ∧ cast_signed n (cast_unsigned n v) = v.
Proof.
  unfold int_wf, uint_wf, cast_signed, cast_unsigned. pose proof width_half as [Hw Hp]. intros Hv.
  split; [apply Z.mod_pos_bound; lia|].
  destruct (decide (0 ≤ v)).
  - rewrite Z.mod_small by lia. by rewrite (proj2 (Z.leb_gt _ _)) by lia.
  - rewrite <-(Z.mod_add v 1), Z.mod_small by lia.
    rewrite (proj2 (Z.leb_le _ _)) by lia. lia.
Qed.

Lemma cast_back v : uint_wf n v → int_wf n (cast_signed n v) ∧ cast_unsigned n (cast_signed n v) = v.
Proof.
  unfold int_wf, uint_wf, cast_signed, cast_unsigned. pose proof width_half as [Hw Hp]. intros Hv.
  destruct (Z.leb_spec (2 ^ (8 * Z.of_nat n - 1)) v).
  - split; [lia|]. rewrite <-(Z.mod_add _ 1), Z.mod_small by lia. lia.
  - split; [lia|]. by apply Z.mod_small.
Qed.

Lemma int_codec : codec_laws (int_wf n) (λ v, le_encode n (cast_unsigned n v)) (int_decode n).
Proof.
  assert (∀ buf, int_decode n buf = '(v, k) ← uint_decode n buf; Ok (cast_signed n v, k)) as Hi.
  { intros buf. unfold int_decode, uint_decode. destruct (_ <? _); [done|].
    by destruct (le_at _ buf 0). }
  split.
  - intros v rest Hv. destruct (cast_roundtrip v Hv) as [Hu Hc].
    rewrite Hi, (codec_complete (uint_codec n)) by done. simpl. by rewrite Hc.
  - intros buf v k. rewrite Hi. intros ([u j]&Hd&[= <- <-])%bind_Ok.
    apply (codec_sound (uint_codec n)) in Hd as (Hu&?&?).
    by destruct (cast_back u Hu) as [? ->].
  - intros buf Hb. rewrite Hi. pose proof (codec_total (uint_codec n) buf Hb).
    by destruct (uint_decode n buf) as [[]| |].
Qed.

Lemma int_laws node :
  type_laws (int_type n node) (int_wf n) (λ v, le_encode n (cast_unsigned n v)) ∧
  canonical (int_type n node) (λ v, le_encode n (cast_unsigned n v)).
Proof. by apply codec_type; [apply int_codec|]. Qed.
End signed.

Definition bool_image (b : bool) : bytes := [if b then x01 else x00].

Lemma bool_laws : type_laws bool_type (λ _, True) bool_image ∧ canonical bool_type bool_image.
Proof.
  apply codec_type; [split|done].
  - by intros [] rest _.
  - intros [|t buf] b k H; [done|]. cbn in H. pose proof (blen_nonneg buf).
    destruct t; try discriminate H; injection H as <- <-; rewrite blen_cons; repeat split; lia || done.
  - intros [|t buf] Hb; [done|]. by destruct t.
Qed.

Lemma Timestamp_laws :
  type_laws Timestamp_type Timestamp_wf (λ t, Timestamp_encode t []) ∧
  canonical Timestamp_type (λ t, Timestamp_encode t []).
Proof. by apply codec_type; [apply Timestamp_codec|]. Qed.

Lemma Uuid_laws :
  type_laws Uuid_type (is_array 16) (λ u, Uuid_encode u []) ∧ canonical Uuid_type (λ u, Uuid_encode u []).
Proof. by apply codec_type; [apply Uuid_codec|]. Qed.

Lemma EventString_laws MAX :
  type_laws (EventString_type MAX) (EventString_wf MAX) (λ s, EventString_encode s []) ∧
  canonical (EventString_type MAX) (λ s, EventString_encode s []).
Proof. by apply codec_type; [apply EventString_codec|]. Qed.

Lemma NonEmptyEventString_laws MAX :
  type_laws (NonEmptyEventString_type MAX) (NonEmptyEventString_wf MAX)
    (λ s, NonEmptyEventString_encode s []) ∧
  canonical (NonEmptyEventString_type MAX) (λ s, NonEmptyEventString_encode s []).
Proof. by apply codec_type; [apply NonEmptyEventString_codec|]. Qed.

Lemma EventBytes_laws MAX :
  type_laws (EventBytes_type MAX) (EventBytes_wf MAX) (λ b, EventBytes_encode b []) ∧
  canonical (EventBytes_type MAX) (λ b, EventBytes_encode b []).
Proof. by apply codec_type; [apply EventBytes_codec|]. Qed.

(** ** Options and vectors *)

Section composite_laws.
Context {A : Type} {T : PardosaType A} {wf : A → Prop} {image : A → bytes}.
Context (L : type_laws T wf image).

Definition option_wf (v : option A) : Prop := match v with Some a => wf a | None => True end.
Definition option_image (v : option A) : bytes :=
  match v with Some a => x01 :: image a | None => [x00] end.

Lemma option_decode_Some buf v n :
  option_decode T buf = Ok (v, n) →
  (∃ rest, buf = x00 :: rest ∧ v = None ∧ n = 1) ∨
  (∃ rest a k, buf = x01 :: rest ∧ v = Some a ∧ n = 1 + k ∧ decode_type T rest = Ok (a, k)).
Proof.
  destruct buf as [|t buf]; [done|]. unfold option_decode. cbn [is_empty].
  rewrite byte_at_here by done. rewrite bind_of_Ok.
  destruct t; try discriminate; [intros [= <- <-]; eauto|].
  unfold slice_from. rewrite slice_cons, slice_all by (rewrite ?blen_cons; lia).
  rewrite bind_of_Ok. intros ([a k]&Hd&H)%bind_Ok.
  apply bind_Ok in H as (total&(->&?&?)%checked_advance_Ok&[= <- <-]).
  right. by exists buf, a, k.
Qed.

Lemma option_laws : type_laws (option_type T) option_wf option_image.
Proof.
  split.
  - intros [a|] buf Ha; [|done]. cbn. rewrite (type_encodes L) by done. by rewrite <-app_assoc.
  - intros [a|] rest Ha Hb; [|done]. cbn [option_image app] in *.
    change (decode_type (option_type T)) with (option_decode T).
    unfold option_decode. cbn [is_empty]. rewrite byte_at_here by done. rewrite bind_of_Ok.
    unfold slice_from. rewrite slice_cons, slice_all by (rewrite ?blen_cons; lia).
    rewrite bind_of_Ok, (type_complete L) by (done || len). rewrite bind_of_Ok.
    assert (checked_advance 1 (blen (image a)) (blen (x01 :: image a ++ rest))
            = Ok (1 + blen (image a))) as -> by (apply checked_advance_Ok; len).
    by rewrite blen_cons.
  - intros buf v n [(rest&->&->&->)|(rest&a&k&->&->&->&Hd)]%option_decode_Some.
    + split; [done|]. cbn [option_image]. len.
    + apply (type_sound L) in Hd as (?&->&?). split; [done|]. cbn [option_image]. len.
  - intros [|t buf] Hb; [done|]. change (decode_type (option_type T)) with (option_decode T).
    unfold option_decode. cbn [is_empty]. rewrite byte_at_here by done. rewrite bind_of_Ok.
    destruct t; try discriminate.
    unfold slice_from. rewrite slice_cons, slice_all by (rewrite ?blen_cons; lia). rewrite bind_of_Ok.
    apply bind_not_panic; [apply (type_total L); len|]. intros [a k] _. no_panic.
Qed.

Lemma option_canonical : canonical T image → canonical (option_type T) option_image.
Proof.
  intros C buf v n [(rest&->&->&->)|(rest&a&k&->&->&->&Hd)]%option_decode_Some; [done|].
  pose proof (C _ _ _ Hd) as Ht. apply (type_sound L) in Hd as (_&_&?).
  replace (Z.to_nat (1 + k)) with (S (Z.to_nat k)) by lia. cbn. by rewrite Ht.
Qed.

(** The elements of a vector, one after the other. *)
Definition items_image (l : list A) : bytes := mjoin (image <$> l).
Definition EventVec_wf (MAX : Z) (l : list A) : Prop :=
  MAX ≤ u32_max ∧ blen l ≤ MAX ∧ Forall wf l.
Definition EventVec_image (l : list A) : bytes := u32_le (blen l) ++ items_image l.

Lemma blen_items_cons a l : blen (items_image (a :: l)) = blen (image a) + blen (items_image l).
Proof. unfold items_image. cbn. apply blen_app. Qed.

Lemma encode_items_spec l : ∀ buf, Forall wf l → encode_items T l buf = Ok (buf ++ items_image l).
Proof.
  induction l as [|a l IH]; intros buf Hl; cbn; [by rewrite app_nil_r|].
  apply Forall_cons in Hl as [Ha Hl]. rewrite (type_encodes L) by done. cbn.
  rewrite IH by done. by rewrite <-app_assoc.
Qed.

Lemma decode_items_complete l : ∀ pre rest items,
  Forall wf l → blen (pre ++ items_image l ++ rest) ≤ isize_max →
  decode_items T (length l) (pre ++ items_image l ++ rest) (blen pre) items =
    Ok (items ++ l, blen pre + blen (items_image l)).
Proof.
  induction l as [|a l IH]; intros pre rest items Hl Hb.
  - cbn. rewrite app_nil_r. do 2 f_equal. unfold items_image. cbn. len.
  - apply Forall_cons in Hl as [Ha Hl]. cbn [length decode_items].
    replace (pre ++ items_image (a :: l) ++ rest)
      with (pre ++ image a ++ items_image l ++ rest) in *
      by (unfold items_image; cbn; by rewrite <-app_assoc).
    unfold slice_from. rewrite slice_skip, slice_all by len. rewrite bind_of_Ok.
    rewrite (type_complete L) by (done || len). rewrite bind_of_Ok.
    rewrite checked_add_ok by len. cbn [ok_or]. rewrite bind_of_Ok.
    rewrite (proj2 (Z.ltb_ge _ _)) by len.
    rewrite (app_assoc pre), <-blen_app, IH by (done || (rewrite <-app_assoc; done)).
    rewrite <-app_assoc, blen_items_cons, blen_app. do 2 f_equal. lia.
Qed.

Lemma decode_items_sound count buf : ∀ cursor items out c',
  0 ≤ cursor ≤ blen buf → decode_items T count buf cursor items = Ok (out, c') →
  ∃ l, out = items ++ l ∧ length l = count ∧ Forall wf l ∧
    c' = cursor + blen (items_image l) ∧ c' ≤ blen buf ∧
    (canonical T image → take (Z.to_nat c') buf = take (Z.to_nat cursor) buf ++ items_image l).
Proof.
  induction count as [|count IH]; intros cursor items out c' Hc H; cbn [decode_items] in H.
  - injection H as <- <-. exists []. unfold items_image. cbn. rewrite !app_nil_r.
    repeat split; [constructor|len|lia].
  - apply bind_Ok in H as (tail&Ht&H). apply bind_Ok in H as ([a k]&Hd&H).
    apply bind_Ok in H as (next&Hn&H). unfold ok_or in Hn.
    destruct (checked_add cursor k) as [x|] eqn:Hk; [|done]. injection Hn as ->.
    apply checked_add_Some in Hk as [-> _].
    destruct (Z.ltb_spec (blen buf) (cursor + k)); [done|].
    pose proof (type_sound L _ _ _ Hd) as (Ha&Hka&Hr).
    apply IH in H as (l&->&Hlen&Hl&->&Hle&Hcan); [|lia].
    exists (a :: l). rewrite <-app_assoc.
    pose proof (blen_items_cons a l).
    repeat split; [cbn; lia|by constructor|lia|done|].
    intros C. rewrite (Hcan C), (canonical_step L C buf cursor tail a k) by done.
    unfold items_image. cbn. by rewrite <-app_assoc.
Qed.

Lemma decode_items_total count buf : ∀ cursor items,
  0 ≤ cursor ≤ blen buf → blen buf ≤ isize_max → decode_items T count buf cursor items ≠ Panic.
Proof.
  induction count as [|count IH]; intros cursor items Hc Hb; cbn [decode_items]; [done|].
  apply bind_not_panic; [by apply slice_not_panic; lia|]. intros tail Ht.
  apply slice_blen in Ht. apply bind_not_panic; [apply (type_total L); lia|]. intros [a k] Hd.
  apply (type_sound L) in Hd as (_&_&?). rewrite checked_add_ok by len. cbn.
  destruct (Z.ltb_spec (blen buf) (cursor + k)); [done|]. apply IH; lia.
Qed.

Lemma EventVec_decode_Ok MAX buf l n :
  EventVec_decode T MAX buf = Ok (l, n) →
  EventVec_wf MAX l ∧ n = blen (EventVec_image l) ∧ 4 ≤ n ≤ blen buf ∧
  (canonical T image → take (Z.to_nat n) buf = EventVec_image l).
Proof.
  unfold EventVec_decode. intros H. ok_inv; cbn [blen length] in *.
  - match goal with Hn : EventVec_new _ _ = Ok _ |- _ => unfold EventVec_new in Hn end. ok_inv.
    assert (x = 0) as -> by lia. unfold EventVec_wf, EventVec_image, items_image. cbn.
    rewrite app_nil_r. repeat split; try constructor; try len.
    intros _. by apply (take_le_at (E:=DecodeError) 4 buf 0 []).
  - match goal with Hn : EventVec_new _ _ = Ok _ |- _ => unfold EventVec_new in Hn end. ok_inv.
    learn_ranges.
    match goal with Hd : decode_items _ _ _ _ _ = _ |- _ =>
      apply decode_items_sound in Hd as (k&->&Hlen&Hk&->&Hle&Hcan); [|lia] end.
    rewrite app_nil_l in *. assert (blen k = x) as Hkx by (unfold blen; lia).
    unfold EventVec_wf, EventVec_image. rewrite Hkx. repeat split; [lia..|done| |len|lia|].
    + len.
    + intros C. rewrite (Hcan C). f_equal. by apply (take_le_at (E:=DecodeError) 4 buf 0 []).
Qed.

Lemma EventVec_new_wf MAX (l : list A) : EventVec_wf MAX l → EventVec_new MAX l = Ok l.
Proof.
  intros (?&?&_). unfold EventVec_new.
  by rewrite (proj2 (Z.ltb_ge u32_max MAX)), (proj2 (Z.ltb_ge MAX _)) by lia.
Qed.

Lemma EventVec_complete MAX l rest :
  EventVec_wf MAX l → blen (EventVec_image l ++ rest) ≤ isize_max →
  EventVec_decode T MAX (EventVec_image l ++ rest) = Ok (l, blen (EventVec_image l)).
Proof.
  intros Hw Hb. pose proof Hw as (HM&Hlen&Hl). unfold EventVec_decode, EventVec_image in *.
  rewrite <-app_assoc in *. run. pose proof (blen_nonneg l).
  destruct (Z.eqb_spec (blen l) 0) as [Hz|Hz].
  - apply blen_0_nil in Hz as ->. rewrite EventVec_new_wf by done. by cbn.
  - pose proof (decode_items_complete l (u32_le (blen l)) rest [] Hl Hb) as Hd.
    replace (Z.to_nat (blen l)) with (length l) by (unfold blen; lia).
    rewrite blen_le_encode in Hd. change (Z.of_nat 4) with 4 in Hd. rewrite Hd. cbn.
    rewrite EventVec_new_wf by done. cbn. do 2 f_equal. len.
Qed.

Lemma EventVec_laws MAX : type_laws (EventVec_type T MAX) (EventVec_wf MAX) EventVec_image.
Proof.
  split.
  - intros l buf (HM&Hlen&Hl). cbn. unfold EventVec_encode.
    rewrite (proj2 (Z.ltb_ge MAX _)), u32_try_from_ok by lia. cbn.
    rewrite encode_items_spec by done. unfold EventVec_image. by rewrite <-app_assoc.
  - intros l rest. apply EventVec_complete.
  - intros buf l n H%EventVec_decode_Ok. naive_solver lia.
  - intros buf Hb. cbn. unfold EventVec_decode.
    repeat no_panic_step; try (apply decode_items_total; lia).
    all: unfold EventVec_new; no_panic.
Qed.

Lemma EventVec_canonical MAX : canonical T image → canonical (EventVec_type T MAX) EventVec_image.
Proof. intros C buf l n H%EventVec_decode_Ok. naive_solver. Qed.
End composite_laws.

(** ** Floats *)

Section float_laws.
Context (n : nat) (m e : Z) (node : DescriptorNode) (name : bytes).
Context (Hn : 8 * Z.of_nat n = m + e + 1) (Hm : 0 < m) (He : 1 < e) (Hn8 : (n ≤ 8)%nat).

Lemma Ordered_wf_uint v : Ordered_wf m e v → uint_wf n v.
Proof. intros [Hr _]. unfold uint_wf. by rewrite Hn. Qed.

Lemma Ordered_decode_uint buf :
  Ordered_decode n m e buf =
    '(v, k) ← uint_decode n buf; ordered ← Ordered_try_from m e v; Ok (ordered, k).
Proof.
  unfold Ordered_decode, uint_decode. destruct (_ <? _); [done|].
  by destruct (le_at _ buf 0).
Qed.

Lemma Ordered_laws : type_laws (Ordered_type n m e node) (Ordered_wf m e) (le_encode n).
Proof.
  split.
  - done.
  - intros v rest Hv _. cbn. rewrite Ordered_decode_uint.
    rewrite (codec_complete (uint_codec n)) by (by apply Ordered_wf_uint). cbn.
    by rewrite Ordered_try_from_wf.
  - intros buf v k H. cbn in H. rewrite Ordered_decode_uint in H.
    apply bind_Ok in H as ([raw j]&Hd&H). pose proof (codec_consumed (uint_codec n) _ _ _ Hd) as Hj.
    apply (codec_sound (uint_codec n)) in Hd as (Hr&?&?). unfold uint_wf in Hr. rewrite Hn in Hr.
    apply bind_Ok in H as (x&Hx&[= -> ->]).
    apply (Ordered_try_from_Ok m e Hm He raw v Hr) in Hx as (?&_&_).
    autorewrite with blen in *. split; [done|]. lia.
  - intros buf Hb. cbn. rewrite Ordered_decode_uint.
    apply bind_not_panic; [by apply (codec_total (uint_codec n))|]. intros [v k] _.
    apply bind_not_panic; [|done]. unfold Ordered_try_from. by destruct (_ || _).
Qed.

Definition EventF_image (x : EventF) : bytes :=
  match x with
  | EventF_NaN => [x00]
  | EventF_NegInf => [x01]
  | EventF_Finite v => x02 :: le_encode n v
  | EventF_PosInf => [x03]
  end.

Lemma EventF_decode_finite buf :
  EventF_decode n m e (x02 :: buf) =
    match Ordered_decode n m e buf with
    | Ok (v, k) => Ok (EventF_Finite v, 1 + k)
    | Err r => Err r
    | Panic => Panic
    end.
Proof.
  unfold EventF_decode. cbn [is_empty]. rewrite byte_at_here by done.
  rewrite bind_of_Ok. unfold slice_from. rewrite slice_cons, slice_all by (rewrite ?blen_cons; lia).
  rewrite bind_of_Ok. destruct (Ordered_decode n m e buf) as [[v k]| |] eqn:Hd; [|done..].
  apply (type_sound Ordered_laws) in Hd as (_&->&_). rewrite bind_of_Ok.
  by rewrite uadd_ok by len.
Qed.

Lemma EventF_laws : type_laws (EventF_type n m e node name) (EventF_wf m e) EventF_image.
Proof.
  split.
  - intros [| |v|] buf Hx; try done. cbn. unfold Ordered_encode. by rewrite <-app_assoc.
  - intros [| |v|] rest Hx Hb; try done. cbn [EventF_image app decode_type EventF_type] in *.
    rewrite EventF_decode_finite.
    pose proof (type_complete Ordered_laws v rest Hx ltac:(len)) as Hd. cbn in Hd. rewrite Hd.
    by rewrite blen_cons.
  - intros [|t buf] x k H; [done|]. cbn [decode_type EventF_type] in H.
    pose proof (blen_nonneg buf). destruct (decide (t = x02)) as [->|Ht].
    + rewrite EventF_decode_finite in H.
      destruct (Ordered_decode n m e buf) as [[v j]| |] eqn:Hd; try done.
      injection H as <- <-. apply (type_sound Ordered_laws) in Hd as (?&->&?).
      split; [done|]. cbn [EventF_image]. len.
    + unfold EventF_decode in H. cbn in H.
      destruct t; try discriminate H; try done; injection H as <- <-;
        (split; [done|cbn [EventF_image]; len]).
  - intros [|t buf] Hb; [done|]. cbn [decode_type EventF_type].
    destruct (decide (t = x02)) as [->|Ht].
    + rewrite EventF_decode_finite. pose proof (type_total Ordered_laws buf ltac:(len)) as Ht.
      cbn in Ht. by destruct (Ordered_decode n m e buf) as [[]| |].
    + unfold EventF_decode. cbn. by destruct t.
Qed.
End float_laws.

(** ** The payload types of the crate *)

Inductive TypeCode :=
  | Code_U8 | Code_U16 | Code_U32 | Code_U64
  | Code_I8 | Code_I16 | Code_I32 | Code_I64
  | Code_Bool | Code_Timestamp | Code_Uuid
  | Code_EventString (MAX : Z)
  | Code_NonEmptyEventString (MAX : Z)
  | Code_EventBytes (MAX : Z)
  | Code_Option (inner : TypeCode)
  | Code_EventVec (inner : TypeCode) (MAX : Z)
  | Code_OrderedF32 | Code_OrderedF64 | Code_EventF32 | Code_EventF64.

Fixpoint denote (c : TypeCode) : Type :=
  match c with
  | Code_Bool => bool
  | Code_Uuid | Code_EventString _ | Code_NonEmptyEventString _ | Code_EventBytes _ => bytes
  | Code_Option inner => option (denote inner)
  | Code_EventVec inner _ => list (denote inner)
  | Code_EventF32 | Code_EventF64 => EventF
  | _ => Z
  end.

(** The implementation a type resolves to. *)
Fixpoint code_type (c : TypeCode) : PardosaType (denote c) :=
  match c with
  | Code_U8 => u8_type | Code_U16 => u16_type | Code_U32 => u32_type | Code_U64 => u64_type
  | Code_I8 => i8_type | Code_I16 => i16_type | Code_I32 => i32_type | Code_I64 => i64_type
  | Code_Bool => bool_type
  | Code_Timestamp => Timestamp_type
  | Code_Uuid => Uuid_type
  | Code_EventString MAX => EventString_type MAX
  | Code_NonEmptyEventString MAX => NonEmptyEventString_type MAX
  | Code_EventBytes MAX => EventBytes_type MAX
  | Code_Option inner => option_type (code_type inner)
  | Code_EventVec inner MAX => EventVec_type (code_type inner) MAX
  | Code_OrderedF32 => OrderedF32_type | Code_OrderedF64 => OrderedF64_type
  | Code_EventF32 => EventF32_type | Code_EventF64 => EventF64_type
  end.

(** The values of a type, and their images. *)
Fixpoint code_wf (c : TypeCode) : denote c → Prop :=
  match c with
  | Code_U8 => uint_wf 1 | Code_U16 => uint_wf 2 | Code_U32 => uint_wf 4 | Code_U64 => uint_wf 8
  | Code_I8 => int_wf 1 | Code_I16 => int_wf 2 | Code_I32 => int_wf 4 | Code_I64 => int_wf 8
  | Code_Bool => λ _, True
  | Code_Timestamp => Timestamp_wf
  | Code_Uuid => is_array 16
  | Code_EventString MAX => EventString_wf MAX
  | Code_NonEmptyEventString MAX => NonEmptyEventString_wf MAX
  | Code_EventBytes MAX => EventBytes_wf MAX
  | Code_Option inner => option_wf (wf:=code_wf inner)
  | Code_EventVec inner MAX => EventVec_wf (wf:=code_wf inner) MAX
  | Code_OrderedF32 => Ordered_wf 23 8 | Code_OrderedF64 => Ordered_wf 52 11
  | Code_EventF32 => EventF_wf 23 8 | Code_EventF64 => EventF_wf 52 11
  end.

Fixpoint code_image (c : TypeCode) : denote c → bytes :=
  match c with
  | Code_U8 => le_encode 1 | Code_U16 => le_encode 2
  | Code_U32 => le_encode 4 | Code_U64 => le_encode 8
  | Code_I8 => λ v, le_encode 1 (cast_unsigned 1 v)
  | Code_I16 => λ v, le_encode 2 (cast_unsigned 2 v)
  | Code_I32 => λ v, le_encode 4 (cast_unsigned 4 v)
  | Code_I64 => λ v, le_encode 8 (cast_unsigned 8 v)
  | Code_Bool => bool_image
  | Code_Timestamp => λ t, Timestamp_encode t []
  | Code_Uuid => λ u, Uuid_encode u []
  | Code_EventString MAX => λ s, EventString_encode s []
  | Code_NonEmptyEventString MAX => λ s, NonEmptyEventString_encode s []
  | Code_EventBytes MAX => λ b, EventBytes_encode b []
  | Code_Option inner => option_image (image:=code_image inner)
  | Code_EventVec inner MAX => EventVec_image (image:=code_image inner)
  | Code_OrderedF32 => le_encode 4 | Code_OrderedF64 => le_encode 8
  | Code_EventF32 => EventF_image 4 | Code_EventF64 => EventF_image 8
  end.

Fixpoint float_free (c : TypeCode) : bool :=
  match c with
  | Code_OrderedF32 | Code_OrderedF64 | Code_EventF32 | Code_EventF64 => false
  | Code_Option inner | Code_EventVec inner _ => float_free inner
  | _ => true
  end.

Lemma code_laws c :
  type_laws (code_type c) (code_wf c) (code_image c) ∧
  (float_free c = true → canonical (code_type c) (code_image c)).
Proof.
  assert (∀ A (T : PardosaType A) wf image (b : bool),
    type_laws T wf image ∧ canonical T image →
    type_laws T wf image ∧ (b = true → canonical T image)) as Hweak by naive_solver.
  induction c as [| | | | | | | | | | |MAX|MAX|MAX|c [L C]|c [L C] MAX| | | |]; cbn [denote code_type code_wf code_image float_free].
  1-4: apply Hweak, uint_laws.
  1-4: by apply Hweak, int_laws; lia.
  1: apply Hweak, bool_laws.
  1: apply Hweak, Timestamp_laws.
  1: apply Hweak, Uuid_laws.
  1: apply Hweak, EventString_laws.
  1: apply Hweak, NonEmptyEventString_laws.
  1: apply Hweak, EventBytes_laws.
  - split; [by apply option_laws|]. intros Hf. by apply (option_canonical L), C.
  - split; [by apply EventVec_laws|]. intros Hf. by apply (EventVec_canonical L), C.
  - split; [apply Ordered_laws; lia|done].
  - split; [apply Ordered_laws; lia|done].
  - split; [apply EventF_laws; lia|done].
  - split; [apply EventF_laws; lia|done].
Qed.

(** Every value takes at least one byte. *)
Lemma code_image_pos c v : code_wf c v → 1 ≤ blen (code_image c v).
Proof.
  destruct c; cbn [denote code_wf code_image]; intros Hv.
  all: unfold bool_image, Timestamp_encode, Uuid_encode, EventString_encode,
         NonEmptyEventString_encode, EventBytes_encode, EventVec_image.
  all: try (len; fail).
  all: destruct v; cbn [option_image EventF_image]; len.
Qed.

(** Every payload type built from the crate's implementations reads back
    what it writes: the encoder accepts each value of the type and appends its
    image, and the decoder returns the value from the image followed by
    anything, consuming the image. *)
Theorem typed_values_roundtrip c (v : denote c) buf rest :
  code_wf c v → blen (code_image c v ++ rest) ≤ isize_max →
  encode_type (code_type c) v buf = Ok (buf ++ code_image c v) ∧
  decode_type (code_type c) (code_image c v ++ rest) = Ok (v, blen (code_image c v)).
Proof.
  intros Hv Hb. destruct (code_laws c) as [L _].
  split; [by apply (type_encodes L)|by apply (type_complete L)].
Qed.

(** C28: decoding is type-safe: on any buffer the decoder of a payload type does
    not panic, and what it returns is a value of the type (in range, within its
    bounds, valid text, an admitted float) whose image has the length consumed,
    at least one byte and no more than there are; without floats, the bytes
    consumed are that image, the only encoding of the value. *)
Theorem typed_decode_sound c buf :
  blen buf ≤ isize_max →
  match decode_type (code_type c) buf with
  | Ok (v, n) => code_wf c v ∧ n = blen (code_image c v) ∧ 1 ≤ n ≤ blen buf ∧
      (float_free c = true → take (Z.to_nat n) buf = code_image c v)
  | Err _ => True
  | Panic => False
  end.
Proof.
  intros Hb. destruct (code_laws c) as [L C].
  pose proof (type_total L buf Hb).
  destruct (decode_type (code_type c) buf) as [[v n]| |] eqn:Hd; [|done..].
  pose proof (type_sound L _ _ _ Hd) as (Hv&Hn&?). pose proof (code_image_pos c v Hv).
  split; [done|]. split; [done|]. split; [lia|]. intros Hf. by apply (C Hf).
Qed.

(** ** Descriptors of payload types *)

(** The [MAX] constants of a type. *)
Fixpoint max_bounds (c : TypeCode) : list Z :=
  match c with
  | Code_EventString MAX | Code_NonEmptyEventString MAX | Code_EventBytes MAX => [MAX]
  | Code_Option inner => max_bounds inner
  | Code_EventVec inner MAX => MAX :: max_bounds inner
  | _ => []
  end.

(** A descriptor [node] as deep as [depth]: it fits [levels] exactly when they
    are more, and is complete exactly if no bound of its type is zero. *)
Definition describes (bounds : list Z) (depth : Z) (node : DescriptorNode) : Prop :=
  0 ≤ depth ∧ ∀ levels,
    node_typed levels node ∧
    (encodable levels node ↔ depth < Z.of_nat levels) ∧
    (complete_node levels node ↔ depth < Z.of_nat levels ∧ Forall (λ MAX, MAX ≠ 0) bounds) ∧
    blen (node_image levels node) ≤ 5 * depth + 64.

(** It is enough to look below the root. *)
Lemma describes_S bounds depth node :
  0 ≤ depth →
  (∀ l, node_typed (S l) node ∧
    (encodable (S l) node ↔ depth ≤ Z.of_nat l) ∧
    (complete_node (S l) node ↔ depth ≤ Z.of_nat l ∧ Forall (λ MAX, MAX ≠ 0) bounds) ∧
    blen (node_image (S l) node) ≤ 5 * depth + 64) →
  describes bounds depth node.
Proof.
  intros Hd H. split; [done|]. intros [|l].
  - cbn [node_typed encodable complete_node node_image]. change (blen (@nil byte)) with 0. intuition lia.
  - destruct (H l) as (?&He&Hc&?). rewrite He, Hc.
    assert (depth < Z.of_nat (S l) ↔ depth ≤ Z.of_nat l) as -> by lia. tauto.
Qed.

Lemma describes_Option bounds depth node :
  describes bounds depth node → describes bounds (depth + 1) (Node_Option node).
Proof.
  intros [Hd H]. apply describes_S; [lia|]. intros l. destruct (H l) as (?&He&Hc&?).
  cbn [node_typed encodable complete_node node_image]. rewrite He, Hc, blen_cons.
  intuition lia.
Qed.

Lemma describes_EventVec bounds depth node MAX :
  0 ≤ MAX ≤ u32_max →
  describes bounds depth node → describes (MAX :: bounds) (depth + 1) (Node_EventVec node MAX).
Proof.
  intros HM [Hd H]. apply describes_S; [lia|]. intros l. destruct (H l) as (?&He&Hc&?).
  cbn [node_typed encodable complete_node node_image]. rewrite He, Hc, Forall_cons.
  autorewrite with blen. assert (is_u32 MAX) by len. intuition lia.
Qed.

Lemma describes_scalar node :
  (∀ l, node_image (S l) node = [constructor_tag node]) →
  (∀ l, node_typed (S l) node ∧ encodable (S l) node ∧ complete_node (S l) node) →
  describes [] 0 node.
Proof.
  intros Hi H. apply describes_S; [lia|]. intros l. destruct (H l) as (?&?&?).
  rewrite Hi, Forall_nil. change (blen [_]) with 1. intuition lia.
Qed.

Lemma describes_bounded node MAX :
  (∀ l, node_image (S l) node = constructor_tag node :: u32_le MAX) →
  (∀ l, (node_typed (S l) node ↔ is_u32 MAX) ∧ encodable (S l) node ∧
        (complete_node (S l) node ↔ MAX ≠ 0)) →
  0 ≤ MAX ≤ u32_max → describes [MAX] 0 node.
Proof.
  intros Hi H HM. apply describes_S; [lia|]. intros l. destruct (H l) as (Ht&?&Hc).
  rewrite Hi, Ht, Hc, Forall_singleton. autorewrite with blen. assert (is_u32 MAX) by len.
  intuition lia.
Qed.

Lemma describes_EventF node name :
  utf8_valid name = true → blen name ≤ 8 → describes [] 0 node →
  (∀ l, blen (node_image l node) ≤ 1) → describes [] 1 (EventF_node node name).
Proof.
  intros Hu Hn [_ H] Hi. apply describes_S; [lia|]. intros l. destruct (H l) as (?&He&Hc&_).
  specialize (Hi l). split; [|split; [|split]].
  - cbn. repeat first [done|constructor].
  - cbn [encodable EventF_node]. rewrite !Forall_cons, Forall_nil. cbn. rewrite He.
    change (disc_max x01) with 255. unfold u32_max, str, blen in *. cbn. lia.
  - cbn [complete_node EventF_node]. rewrite !Forall_cons, !Forall_nil. cbn. rewrite Hc, Forall_nil.
    change (disc_max x01) with 255. unfold str. cbn. assert (NoDup [0; 1; 2; 3]) by (repeat constructor; set_solver).
    intuition (try lia); try done.
  - cbn. unfold variant_image, disc_image. rewrite bool_decide_true by done. cbn.
    autorewrite with blen. unfold str. cbn. autorewrite with blen. lia.
Qed.

Lemma expect_u32_cases {E} MAX :
  expect_u32 (E:=E) MAX = if MAX <=? u32_max then Ok MAX else Panic.
Proof. unfold expect_u32, u32_try_from. by destruct (_ <=? _). Qed.

Lemma code_describes c :
  Forall (λ MAX, 0 ≤ MAX) (max_bounds c) →
  match descriptor_node (code_type c) with
  | Ok node => Forall (λ MAX, MAX ≤ u32_max) (max_bounds c) ∧
      describes (max_bounds c) (TYPE_DEPTH (code_type c)) node
  | Err _ => False
  | Panic => Exists (λ MAX, u32_max < MAX) (max_bounds c)
  end.
Proof.
  assert (∀ f MAX, 0 ≤ MAX → (MAX ≤ u32_max → describes [MAX] 0 (f MAX)) →
    match expect_u32 (E:=DecodeError) MAX ≫= (λ n, Ok (f n)) with
    | Ok node => Forall (λ MAX, MAX ≤ u32_max) [MAX] ∧ describes [MAX] 0 node
    | Err _ => False
    | Panic => Exists (λ MAX, u32_max < MAX) [MAX]
    end) as Hbounded.
  { intros f MAX H0 Hf. rewrite expect_u32_cases. destruct (Z.leb_spec MAX u32_max); cbn.
    - rewrite Forall_singleton. auto.
    - by constructor. }
  induction c as [| | | | | | | | | | |MAX|MAX|MAX|c IH|c IH MAX| | | |];
    cbn [max_bounds code_type]; intros Hb; try (split; [constructor|by apply describes_scalar]).
  1-3: rewrite Forall_singleton in Hb; by apply (Hbounded _ MAX Hb); intros; apply describes_bounded.
  - specialize (IH Hb). cbn. destruct (descriptor_node (code_type c)); cbn; [|done..].
    destruct IH. split; [done|]. by apply describes_Option.
  - apply Forall_cons in Hb as [HM Hb]. specialize (IH Hb). cbn. rewrite expect_u32_cases.
    destruct (Z.leb_spec MAX u32_max); cbn; [|by constructor].
    destruct (descriptor_node (code_type c)); cbn; [|done|by constructor].
    destruct IH. split; [by constructor|]. by apply describes_EventVec.
  - split; [constructor|]. apply describes_EventF; [done..|by apply describes_scalar|].
    intros [|l]; cbn; rewrite ?blen_nil, ?blen_cons, ?blen_nil; lia.
  - split; [constructor|]. apply describes_EventF; [done..|by apply describes_scalar|].
    intros [|l]; cbn; rewrite ?blen_nil, ?blen_cons, ?blen_nil; lia.
Qed.

Section declared.
Context `{Digests}.

Lemma levels0_Z : Z.of_nat levels0 = 17.
Proof. by vm_compute. Qed.

(** C29: the descriptor of a payload type. With bounds of a [usize], deriving it
    panics exactly when some bound exceeds 32 bits; otherwise the descriptor is
    admitted, for a schema version that is not zero, exactly when the type nests
    at most sixteen levels ([TYPE_DEPTH]) and no bound is zero, and then the
    default identity is the admitted one; in the other cases the default
    identity panics. *)
Theorem typed_descriptors_admitted c v :
  is_u32 v → v ≠ 0 → Forall (λ MAX, 0 ≤ MAX) (max_bounds c) →
  match descriptor_node (code_type c) with
  | Ok node =>
      Forall (λ MAX, MAX ≤ u32_max) (max_bounds c) ∧
      let d := mk_SchemaDescriptor v node in
      let fits := TYPE_DEPTH (code_type c) ≤ MAX_DESCRIPTOR_DEPTH ∧
                  Forall (λ MAX, MAX ≠ 0) (max_bounds c) in
      (fits → descriptor_typed d ∧ try_from_descriptor d = Ok (admitted_of d) ∧
         PardosaSchema_schema_identity v node = Ok (blake3 (descriptor_image d))) ∧
      (¬ fits → is_ok (try_from_descriptor d) = false ∧
         PardosaSchema_schema_identity v node = Panic)
  | Err _ => False
  | Panic => Exists (λ MAX, u32_max < MAX) (max_bounds c)
  end.
Proof.
  intros Hu Hv Hb. pose proof (code_describes c Hb) as Hd.
  destruct (descriptor_node (code_type c)) as [node| |]; [|done..].
  destruct Hd as [HM [Hdepth Hd]]. split; [done|]. cbv zeta.
  destruct (Hd levels0) as (Ht&He&Hc&Hlen). rewrite levels0_Z in He, Hc.
  unfold MAX_DESCRIPTOR_DEPTH. unfold PardosaSchema_schema_identity. split.
  - intros [Hdep Hnz].
    assert (try_from_descriptor (mk_SchemaDescriptor v node) =
            Ok (admitted_of (mk_SchemaDescriptor v node))) as Hok.
    { apply try_from_descriptor_Ok. repeat split; cbn [version root]; [done| | |].
      - apply Hc. split; [lia|done].
      - apply He. lia.
      - unfold descriptor_image, MAX_DESCRIPTOR_RECORD_BYTES. cbn [version root]. len. }
    split; [done|]. split; [done|]. by rewrite Hok.
  - intros Hn. destruct (try_from_descriptor _) as [a| |] eqn:Ha; [exfalso|done|done].
    pose proof (try_from_descriptor_cases (mk_SchemaDescriptor v node)) as Hcs.
    rewrite Ha in Hcs. destruct Hcs as [(_&Hcn&_&_) _]. cbn [root] in Hcn.
    apply Hc in Hcn as []. apply Hn. split; [lia|done].
Qed.
End declared.

(** ** The properties at concrete inputs *)

(** [Option<EventVec<EventF32, 4>>]. *)
Definition sample_code : TypeCode := Code_Option (Code_EventVec Code_EventF32 4).
Definition sample_floats : denote sample_code :=
  Some [EventF_NaN; EventF_Finite 0xC1200000; EventF_PosInf].

Lemma sample_floats_wf : code_wf sample_code sample_floats.
Proof.
  split; [by vm_compute|]. split; [by vm_compute|].
  apply Forall_cons; split; [done|]. apply Forall_cons; split; [|by repeat constructor].
  split; [by vm_compute|right; by vm_compute].
Qed.

Lemma typed_values_roundtrip_witness :
  let image := code_image sample_code sample_floats in
  encode_type (code_type sample_code) sample_floats [xaa] = Ok ([xaa] ++ image) ∧
  decode_type (code_type sample_code) (image ++ [xff]) = Ok (sample_floats, blen image).
Proof.
  apply (typed_values_roundtrip sample_code sample_floats [xaa] [xff] sample_floats_wf).
  by vm_compute.
Defined.

Lemma typed_decode_sound_witness :
  let buf := [x01; x02; x00; x00; x00; x05; x00; x06; x00; xff] in
  let c := Code_Option (Code_EventVec Code_U16 3) in
  decode_type (code_type c) buf = Ok (Some [5; 6], 9) ∧
  code_wf c (Some [5; 6]) ∧ 9 = blen (code_image c (Some [5; 6])) ∧ 1 ≤ 9 ≤ blen buf ∧
  (float_free c = true → take (Z.to_nat 9) buf = code_image c (Some [5; 6])).
Proof.
  intros buf c. assert (decode_type (code_type c) buf = Ok (Some [5; 6], 9)) as Hd
    by (vm_compute; reflexivity).
  split; [exact Hd|]. pose proof (typed_decode_sound c buf) as Hs. rewrite Hd in Hs.
  apply Hs. by vm_compute.
Defined.

Lemma typed_descriptors_admitted_witness :
  let node := Node_Option (Node_EventVec (EventF_node Node_OrderedF32 (str "EventF32")) 4) in
  descriptor_node (code_type sample_code) = Ok node ∧
  @PardosaSchema_schema_identity toy_digests 7 node =
    Ok (@blake3 toy_digests (descriptor_image (mk_SchemaDescriptor 7 node))).
Proof.
  intros node. split; [reflexivity|].
  pose proof (@typed_descriptors_admitted toy_digests sample_code 7) as Hd.
  apply Hd.
  - by vm_compute.
  - done.
  - by repeat constructor.
  - split; [by vm_compute|]. by repeat constructor.
Defined.

Lemma ordered_floats_total_order_witness :
  Ordered_try_from 23 8 0x80000000 = Ok 0 ∧ Ordered_try_from 23 8 0x00000001 = Err not_real ∧
  Ordered_cmp 23 8 0xC1200000 0x3F800000 = Lt ∧
  (value 23 8 0xC1200000 ?= value 23 8 0x3F800000) = Lt.
Proof.
  assert (0 < 23) as Hm by done. assert (1 < 8) as He by done.
  destruct (ordered_floats_total_order 23 8 Hm He) as [_ Ho].
  destruct (Ho 0xC1200000 0x3F800000) as (Hc&_&_).
  - split; [by vm_compute|]. right. by vm_compute.
  - split; [by vm_compute|]. right. by vm_compute.
  - rewrite <-Hc. repeat split; by vm_compute.
Defined.

Lemma event_floats_roundtrip_witness :
  EventF_from 52 11 0xFFF0000000000000 = Ok EventF_NegInf ∧
  EventF_from 52 11 (EventF_to 52 11 0x7FF8000000000000 EventF_NaN) = Ok EventF_NaN.
Proof.
  assert (0 < 52) as Hm by done. assert (1 < 11) as He by done.
  destruct (event_floats_roundtrip 52 11 Hm He 0x7FF8000000000000) as [_ Hr]; [by vm_compute|].
  split; [by vm_compute|]. by apply Hr.
Defined.
