(* ===== verification/Derive.v ===== *)
(** * Derived payload types: [src/crates/pardosa-derive/src/lib.rs]

    The two derive macros. A declaration is the part of [syn]'s syntax trees the
    macros match on, and what they call of [syn] is the class [Syn]; each field
    comes with the implementation of [PardosaType] that its type resolves to where
    the generated code is compiled. What a macro expands to is the record of the
    methods it generates: a [Panic] of an expansion is an assertion among the
    generated constants that fails, a program that does not compile. A value of a struct is the tuple of its fields, a value of an enum
    one of the tuples of its variants. Spans, messages and the hygiene of
    generated names are not represented. *)

From stdpp Require Import pretty.
From S2P Require Export Typed.

(** ** Declarations *)

(** A type expression. A path is its last segment, with the arguments in angle
    brackets, [Some] for those that are types. *)
Inductive Ty :=
  | Type_Path (last : option (bytes * list (option Ty)))
  | Type_Reference (elem : Ty)
  | Type_Tuple (elems : list Ty)
  | Type_Array (elem : Ty)
  | Type_Slice (elem : Ty)
  | Type_Paren (elem : Ty)
  | Type_other.

(** A literal integer is its text. *)
Inductive Expr :=
  | Expr_Lit_Int (lit_int : bytes)
  | Expr_other.

(** An entry of a list of attributes: a name with nothing, [= literal] or anything
    else behind it. *)
Inductive MetaTail :=
  | Tail_none
  | Tail_int (lit_int : bytes)
  | Tail_other.
Record Meta := mk_Meta { meta_path : bytes; meta_tail : MetaTail }.
(** [None] for an attribute without a parenthesised list. *)
Record Attribute := mk_Attribute { attr_path : bytes; attr_args : option (list Meta) }.

Record Field := mk_Field {
  field_ident : bytes;  (* not looked at in a tuple *)
  field_ty : Ty;
  field_carrier : Type;
  field_impl : PardosaType field_carrier;
}.
Inductive Fields :=
  | Fields_Unit
  | Fields_Named (named : list Field)
  | Fields_Unnamed (unnamed : list Field).
Record Variant := mk_Variant {
  variant_ident : bytes;
  variant_attrs : list Attribute;
  variant_fields : Fields;
  variant_discriminant : option Expr;
}.
Inductive Data :=
  | Data_Struct (fields : Fields)
  | Data_Enum (variants : list Variant)
  | Data_Union.
Record DeriveInput := mk_DeriveInput {
  input_attrs : list Attribute;
  input_ident : bytes;
  input_data : Data;
}.

(** What a macro refuses, with the error of [syn] for the ill-formed. *)
Inductive DeriveError :=
  | DeriveError_Union
  | DeriveError_StructRoot
  | DeriveError_EmptyEnum
  | DeriveError_MissingDiscriminant
  | DeriveError_DiscriminantTooLarge
  | DeriveError_DuplicateDiscriminant
  | DeriveError_NotALiteral
  | DeriveError_Float
  | DeriveError_UnboundedText
  | DeriveError_UnboundedCollection
  | DeriveError_Cycle
  | DeriveError_MissingTombstone
  | DeriveError_MissingVersion
  | DeriveError_DuplicateVersion
  | DeriveError_VersionZero
  | DeriveError_syn.

(** ** Checks *)

Definition one_of (ident : bytes) (names : list bytes) : bool := bool_decide (ident ∈ names).

Fixpoint check_type_for_issues (enum_name : bytes) (ty : Ty) : outcome DeriveError unit :=
  match ty with
  | Type_Path None => Ok tt
  | Type_Path (Some (ident, args)) =>
      if one_of ident [str "f32"; str "f64"] then Err DeriveError_Float else
      if one_of ident [str "String"; str "str"] then Err DeriveError_UnboundedText else
      if one_of ident [str "Vec"] then Err DeriveError_UnboundedCollection else
      if one_of ident [enum_name; str "Self"] then Err DeriveError_Cycle else
      (fix check_args args :=
         match args with
         | [] => Ok tt
         | Some inner :: args => _ ← check_type_for_issues enum_name inner; check_args args
         | None :: args => check_args args
         end) args
  | Type_Tuple elems =>
      (fix check_elems elems :=
         match elems with
         | [] => Ok tt
         | elem :: elems => _ ← check_type_for_issues enum_name elem; check_elems elems
         end) elems
  | Type_Reference elem | Type_Array elem | Type_Slice elem | Type_Paren elem =>
      check_type_for_issues enum_name elem
  | Type_other => Ok tt
  end.

Fixpoint check_fields (enum_name : bytes) (fs : list Field) : outcome DeriveError unit :=
  match fs with
  | [] => Ok tt
  | f :: fs => _ ← check_type_for_issues enum_name (field_ty f); check_fields enum_name fs
  end.

(** What the macros use of [syn]: the value of a literal as a [u32], and the visit
    of the entries of an attribute. The closure is given what is behind the name
    and returns what it leaves of it. *)
Class Syn := {
  base10_parse : bytes → outcome DeriveError Z;
  parse_nested_meta : ∀ {S : Type}, Attribute →
    (S → Meta → outcome DeriveError (S * MetaTail)) → S → outcome DeriveError S;
}.

(** Every entry must be used up, and the list must be there. *)
Fixpoint each_entry {S} (logic : S → Meta → outcome DeriveError (S * MetaTail)) (metas : list Meta)
    (s : S) : outcome DeriveError S :=
  match metas with
  | [] => Ok s
  | meta :: metas =>
      '(s, rest) ← logic s meta;
      match rest with
      | Tail_none => each_entry logic metas s
      | _ => Err DeriveError_syn
      end
  end.
Class SynLaws `{Syn} : Prop := {
  base10_parse_range lit : match base10_parse lit with
    | Ok v => 0 ≤ v ≤ u32_max
    | Err _ => True
    | Panic => False
    end;
  parse_nested_meta_spec {S} attr (logic : S → Meta → outcome DeriveError (S * MetaTail)) s :
    parse_nested_meta attr logic s =
      match attr_args attr with Some metas => each_entry logic metas s | None => Err DeriveError_syn end;
}.

Section parsing.
Context `{Syn}.

Definition parse_discriminant_value (expr : Expr) : outcome DeriveError Z :=
  match expr with
  | Expr_Lit_Int lit_int => base10_parse lit_int
  | Expr_other => Err DeriveError_NotALiteral
  end.

Definition is_pardosa (attr : Attribute) : bool := bool_decide (attr_path attr = str "pardosa").

(** [meta.value()?] and the parsing of a literal behind it. *)
Definition meta_lit (meta : Meta) : outcome DeriveError bytes :=
  match meta_tail meta with Tail_int lit => Ok lit | _ => Err DeriveError_syn end.

(** The closure of [parse_schema_version]. *)
Definition version_entry (found_version : option Z) (meta : Meta) :
    outcome DeriveError (option Z * MetaTail) :=
  if bool_decide (meta_path meta = str "version") then
    if bool_decide (is_Some found_version) then Err DeriveError_DuplicateVersion else
    lit ← meta_lit meta;
    v ← base10_parse lit;
    if v =? 0 then Err DeriveError_VersionZero else
    Ok (Some v, Tail_none)
  else Ok (found_version, meta_tail meta).

Fixpoint find_version (attrs : list Attribute) (found_version : option Z) :
    outcome DeriveError (option Z) :=
  match attrs with
  | [] => Ok found_version
  | attr :: attrs =>
      if is_pardosa attr then
        found_version ← parse_nested_meta attr version_entry found_version;
        find_version attrs found_version
      else find_version attrs found_version
  end.

Definition parse_schema_version (input : DeriveInput) : outcome DeriveError Z :=
  found_version ← find_version (input_attrs input) None;
  ok_or found_version DeriveError_MissingVersion.

(** The closure of [check_tombstone_attr]. *)
Definition tombstone_entry (is_tombstone : bool) (meta : Meta) : outcome DeriveError (bool * MetaTail) :=
  Ok (if bool_decide (meta_path meta = str "tombstone") then true else is_tombstone, meta_tail meta).

Fixpoint check_tombstone_attr (attrs : list Attribute) : outcome DeriveError bool :=
  match attrs with
  | [] => Ok false
  | attr :: attrs =>
      if is_pardosa attr then
        is_tombstone ← parse_nested_meta attr tombstone_entry false;
        if is_tombstone : bool then Ok true else check_tombstone_attr attrs
      else check_tombstone_attr attrs
  end.

(** The discriminant of one variant, behind those [seen]. *)
Definition variant_disc (seen : list Z) (v : Variant) : outcome DeriveError Z :=
  expr ← ok_or (variant_discriminant v) DeriveError_MissingDiscriminant;
  disc_val ← parse_discriminant_value expr;
  if 65535 <? disc_val then Err DeriveError_DiscriminantTooLarge else
  if bool_decide (disc_val ∈ seen) then Err DeriveError_DuplicateDiscriminant else
  Ok disc_val.
End parsing.

(** ** Generated code: fields *)

Definition fields_list (fields : Fields) : list Field :=
  match fields with
  | Fields_Unit => []
  | Fields_Named fs | Fields_Unnamed fs => fs
  end.
Definition fields_names (fields : Fields) : list bytes :=
  match fields with
  | Fields_Unit => []
  | Fields_Named fs => field_ident <$> fs
  | Fields_Unnamed fs => imap (λ idx _, str (String.append "_" (pretty idx))) fs
  end.

(** A tuple of values. *)
Fixpoint values (fs : list Field) : Type :=
  match fs with
  | [] => unit
  | f :: fs => field_carrier f * values fs
  end%type.

Fixpoint field_descriptors (fs : list (bytes * Field)) :
    outcome DecodeError (list (FieldDescriptor DescriptorNode)) :=
  match fs with
  | [] => Ok []
  | (name, f) :: fs =>
      node ← descriptor_node (field_impl f);
      rest ← field_descriptors fs;
      Ok (mk_FieldDescriptor name node :: rest)
  end.
Definition struct_node (name : bytes) (fields : Fields) : outcome DecodeError DescriptorNode :=
  fds ← field_descriptors (zip (fields_names fields) (fields_list fields));
  Ok (Node_Struct name fds).

Fixpoint encode_body (fs : list Field) : values fs → bytes → outcome EncodeError bytes :=
  match fs with
  | [] => λ _ buf, Ok buf
  | f :: fs => λ '(v, vs) buf,
      buf ← encode_type (field_impl f) v buf;
      encode_body fs vs buf
  end.

Fixpoint decode_body (fs : list Field) (buf : bytes) (cursor : Z) :
    outcome DecodeError (values fs * Z) :=
  match fs with
  | [] => Ok (tt, cursor)
  | f :: fs =>
      tail ← slice_from buf cursor;
      '(v, consumed) ← decode_type (field_impl f) tail;
      cursor ← checked_advance cursor consumed (blen buf);
      '(vs, cursor) ← decode_body fs buf cursor;
      Ok ((v, vs), cursor)
  end.

(** The constant [TYPE_DEPTH], with its assertion. *)
Definition max_depth (depths : list Z) : Z := foldl (λ m d, if m <? d then d else m) 0 depths.
Definition const_depth {E} (depths : list Z) : outcome E Z :=
  let depth := max_depth depths in
  if MAX_DESCRIPTOR_DEPTH <? depth then Panic else Ok depth.

(** The assertion at the head of a generated [descriptor_node]. *)
Definition asserting_depth {E} (depth : Z) (node : outcome E DescriptorNode) :
    outcome E DescriptorNode :=
  if MAX_DESCRIPTOR_DEPTH <? depth then Panic else node.

(** ** [derive(PardosaType)] of a struct *)

Definition expand_pardosa_type_struct (ident : bytes) (fields : Fields) :
    outcome DeriveError (PardosaType (values (fields_list fields))) :=
  let fs := fields_list fields in
  _ ← check_fields ident fs;
  depth ← const_depth ((λ f, TYPE_DEPTH (field_impl f) + 1) <$> fs);
  Ok (mk_PardosaType depth (asserting_depth depth (struct_node ident fields))
        (encode_body fs) (λ buf, decode_body fs buf 0)).

(** ** Generated code: enums *)

(** A variant with its discriminant, as [variant_data] has them. *)
Definition vd_fields (vd : Variant * Z) : list Field := fields_list (variant_fields vd.1).

Fixpoint enum_values (vds : list (Variant * Z)) : Type :=
  match vds with
  | [] => Empty_set
  | vd :: vds => values (vd_fields vd) + enum_values vds
  end%type.

Definition width_of (vds : list (Variant * Z)) : Z :=
  let max_disc := foldl Z.max 0 vds.*2 in if max_disc <=? 255 then 1 else 2.

(** [Struct] around the fields of a variant, except for a single unnamed one. *)
Definition variant_payload (enum_name : bytes) (v : Variant) :
    outcome DecodeError (option DescriptorNode) :=
  match variant_fields v with
  | Fields_Unit => Ok None
  | Fields_Unnamed [f] => node ← descriptor_node (field_impl f); Ok (Some node)
  | fields =>
      node ← struct_node (enum_name ++ str "_" ++ variant_ident v) fields;
      Ok (Some node)
  end.
Fixpoint variant_descriptors (enum_name : bytes) (vds : list (Variant * Z)) :
    outcome DecodeError (list (VariantDescriptor DescriptorNode)) :=
  match vds with
  | [] => Ok []
  | (v, disc_val) :: vds =>
      payload ← variant_payload enum_name v;
      rest ← variant_descriptors enum_name vds;
      Ok (mk_VariantDescriptor disc_val (variant_ident v) payload :: rest)
  end.
Definition enum_node (enum_name : bytes) (vds : list (Variant * Z)) :
    outcome DecodeError DescriptorNode :=
  variants ← variant_descriptors enum_name vds;
  Ok (Node_Enum enum_name (byte_of_Z (width_of vds)) variants).

(** [disc as u8], or [disc as u16] in little-endian order. *)
Definition encode_disc (width disc_val : Z) (buf : bytes) : bytes :=
  if width =? 1 then buf ++ le_encode 1 disc_val else buf ++ le_encode 2 disc_val.
Definition decode_disc (width : Z) (buf : bytes) : outcome DecodeError Z :=
  if width =? 1 then
    if is_empty buf then Err (DecodeError_TruncatedPayload 1 0) else
    b ← byte_at buf 0; Ok (byte_to_Z b)
  else
    if blen buf <? 2 then Err (DecodeError_TruncatedPayload 2 (blen buf)) else
    u16_at buf 0.

(** The [match] on the value. *)
Fixpoint encode_arms (width : Z) (vds : list (Variant * Z)) :
    enum_values vds → bytes → outcome EncodeError bytes :=
  match vds with
  | [] => λ x, match x with end
  | vd :: vds => λ x buf,
      match x with
      | inl vs => encode_body (vd_fields vd) vs (encode_disc width vd.2 buf)
      | inr x => encode_arms width vds x buf
      end
  end.

(** One arm of the [match] on the discriminant. *)
Definition decode_arm (width : Z) (vd : Variant * Z) (buf : bytes) :
    outcome DecodeError (values (vd_fields vd) * Z) :=
  if match variant_fields vd.1 with Fields_Unit => false | _ => blen buf <? width end
  then Err (DecodeError_TruncatedPayload width (blen buf)) else
  decode_body (vd_fields vd) buf width.
Fixpoint decode_arms (width : Z) (vds : list (Variant * Z)) (disc : Z) (buf : bytes) :
    outcome DecodeError (enum_values vds * Z) :=
  match vds with
  | [] => Err (DecodeError_UnknownVariantDiscriminant disc)
  | vd :: vds =>
      if disc =? vd.2 then
        '(vs, cursor) ← decode_arm width vd buf;
        Ok (inl vs, cursor)
      else
        '(x, cursor) ← decode_arms width vds disc buf;
        Ok (inr x, cursor)
  end.

(** ** [derive(PardosaType)] of an enum *)

Fixpoint check_variants `{Syn} (enum_name : bytes) (vs : list Variant) (seen : list Z) :
    outcome DeriveError (list (Variant * Z)) :=
  match vs with
  | [] => Ok []
  | v :: vs =>
      disc_val ← variant_disc seen v;
      _ ← check_fields enum_name (fields_list (variant_fields v));
      rest ← check_variants enum_name vs (disc_val :: seen);
      Ok ((v, disc_val) :: rest)
  end.

(** How much deeper than its type a field of the variant stands. *)
Definition overhead (v : Variant) : Z :=
  match variant_fields v with
  | Fields_Unnamed [_] => 1
  | _ => 2
  end.
Definition variant_depths (v : Variant) : list Z :=
  (λ f, TYPE_DEPTH (field_impl f) + overhead v) <$> fields_list (variant_fields v).

Definition enum_type (ident : bytes) (depth : Z) (vds : list (Variant * Z)) :
    PardosaType (enum_values vds) :=
  mk_PardosaType depth (asserting_depth depth (enum_node ident vds))
    (encode_arms (width_of vds) vds)
    (λ buf,
       disc ← decode_disc (width_of vds) buf;
       decode_arms (width_of vds) vds disc buf).

(** The implementation with the type it is for. *)
Definition expand_pardosa_type_enum `{Syn} (ident : bytes) (variants : list Variant) :
    outcome DeriveError { A & PardosaType A } :=
  if is_empty variants then Err DeriveError_EmptyEnum else
  vds ← check_variants ident variants [];
  depth ← const_depth (mjoin ((λ vd, variant_depths vd.1) <$> vds));
  Ok (existT (enum_values vds) (enum_type ident depth vds)).

Definition expand_pardosa_type `{Syn} (input : DeriveInput) : outcome DeriveError { A & PardosaType A } :=
  match input_data input with
  | Data_Struct fields =>
      T ← expand_pardosa_type_struct (input_ident input) fields;
      Ok (existT _ T)
  | Data_Enum variants => expand_pardosa_type_enum (input_ident input) variants
  | Data_Union => Err DeriveError_Union
  end.

(** ** [derive(PardosaSchema)] *)

Record PardosaSchema (A : Type) := mk_PardosaSchema {
  SCHEMA_VERSION : Z;
  schema_descriptor_node : outcome DecodeError DescriptorNode;
  encode_payload : A → bytes → outcome EncodeError bytes;
  decode_payload : bytes → outcome DecodeError A;
}.
Arguments mk_PardosaSchema {A}.
Arguments SCHEMA_VERSION {A}.
Arguments schema_descriptor_node {A}.
Arguments encode_payload {A}.
Arguments decode_payload {A}.

Fixpoint check_root_variants `{Syn} (enum_name : bytes) (vs : list Variant) (seen : list Z)
    (has_tombstone : bool) : outcome DeriveError (list (Variant * Z) * bool) :=
  match vs with
  | [] => Ok ([], has_tombstone)
  | v :: vs =>
      disc_val ← variant_disc seen v;
      is_tombstone ← check_tombstone_attr (variant_attrs v);
      _ ← check_fields enum_name (fields_list (variant_fields v));
      '(rest, has_tombstone) ← check_root_variants enum_name vs (disc_val :: seen)
                                 (if is_tombstone : bool then true else has_tombstone);
      Ok ((v, disc_val) :: rest, has_tombstone)
  end.

(** The [const] assertions beside the generated implementation. *)
Definition depth_assertions (variants : list Variant) : bool :=
  forallb (λ v, forallb (λ f, TYPE_DEPTH (field_impl f) <=? MAX_DESCRIPTOR_DEPTH - overhead v)
                  (fields_list (variant_fields v))) variants.

(** An arm accepts the payload only whole. *)
Definition decode_whole {A} (r : outcome DecodeError (A * Z)) (buf : bytes) : outcome DecodeError A :=
  '(x, cursor) ← r;
  if negb (cursor =? blen buf)
  then Err (DecodeError_TruncatedPayload cursor (blen buf)) else
  Ok x.

Definition root_schema (version : Z) (enum_name : bytes) (vds : list (Variant * Z)) :
    PardosaSchema (enum_values vds) :=
  mk_PardosaSchema version (enum_node enum_name vds) (encode_arms (width_of vds) vds)
    (λ buf,
       disc ← decode_disc (width_of vds) buf;
       decode_whole (decode_arms (width_of vds) vds disc buf) buf).

Definition expand_pardosa_schema `{Syn} (input : DeriveInput) :
    outcome DeriveError { A & PardosaSchema A } :=
  let enum_name := input_ident input in
  match input_data input with
  | Data_Struct _ => Err DeriveError_StructRoot
  | Data_Union => Err DeriveError_Union
  | Data_Enum variants =>
      schema_version ← parse_schema_version input;
      '(vds, has_tombstone) ← check_root_variants enum_name variants [] false;
      if negb has_tombstone then Err DeriveError_MissingTombstone else
      if depth_assertions variants
      then Ok (existT (enum_values vds) (root_schema schema_version enum_name vds)) else Panic
  end.
