(* ===== verification/DeriveChecks.v ===== *)
(** * What the derive macros accept: [src/crates/pardosa-derive/src/lib.rs]

    The checks of [Derive], against declarative readings of them: the names a type
    expression mentions, the discriminants and the attributes of a declaration. *)

From S2P Require Export Derive.

(** ** What the macros accept *)

(** The names a type expression mentions, in the places the check visits. *)
Fixpoint mentions (ty : Ty) : list bytes :=
  match ty with
  | Type_Path None | Type_other => []
  | Type_Path (Some (ident, args)) =>
      ident :: (fix of_args args :=
                  match args with
                  | [] => []
                  | Some inner :: args => mentions inner ++ of_args args
                  | None :: args => of_args args
                  end) args
  | Type_Tuple elems =>
      (fix of_elems elems :=
         match elems with [] => [] | elem :: elems => mentions elem ++ of_elems elems end) elems
  | Type_Reference elem | Type_Array elem | Type_Slice elem | Type_Paren elem => mentions elem
  end.
Definition excluded (enum_name : bytes) : list bytes :=
  [str "f32"; str "f64"; str "String"; str "str"; str "Vec"; enum_name; str "Self"].
Definition admitted_ty (enum_name : bytes) (ty : Ty) : Prop :=
  Forall (λ name, name ∉ excluded enum_name) (mentions ty).

Section Ty_induction.
Context (P : Ty → Prop).
Context (HPath : ∀ ident args,
  Forall (λ a, match a with Some inner => P inner | None => True end) args →
  P (Type_Path (Some (ident, args)))).
Context (HTuple : ∀ elems, Forall P elems → P (Type_Tuple elems)).
Context (Hnone : P (Type_Path None)) (Hother : P Type_other).
Context (Hinner : ∀ ty, P ty →
  P (Type_Reference ty) ∧ P (Type_Array ty) ∧ P (Type_Slice ty) ∧ P (Type_Paren ty)).

(** Induction with the hypothesis for the types in a list. *)
Lemma Ty_deep_ind : ∀ ty, P ty.
Proof.
  fix IH 1. intros [[[ident args]|]|ty|elems|ty|ty|ty|]; [|done|apply Hinner, IH| |apply Hinner, IH..|done].
  - apply HPath. induction args as [|[inner|] args IHargs]; constructor; done || apply IH.
  - apply HTuple. induction elems as [|elem elems IHelems]; constructor; done || apply IH.
Qed.
End Ty_induction.

Lemma bind_unit {E} (m1 m2 : outcome E unit) (P Q : Prop) :
  (m1 = Ok tt ↔ P) → (m2 = Ok tt ↔ Q) → (m1 ≫= (λ _, m2)) = Ok tt ↔ P ∧ Q.
Proof. intros <- <-. rewrite bind_Ok. split; [intros ([]&?&?); done|intros []; by exists tt]. Qed.

Lemma check_type_not_panic enum_name ty : check_type_for_issues enum_name ty ≠ Panic.
Proof.
  revert ty. apply Ty_deep_ind; [intros ident args IH|intros elems IH|done..|done]; cbn.
  - repeat (destruct (one_of _ _); [done|]).
    induction IH as [|[inner|] args Hi _ IH]; [done|by apply bind_not_panic|done].
  - induction IH as [|elem elems Hi _ IH]; [done|by apply bind_not_panic].
Qed.

Lemma excluded_split ident enum_name :
  ident ∉ excluded enum_name ↔ ident ∉ [str "f32"; str "f64"] ∧
    ident ∉ [str "String"; str "str"] ∧ ident ∉ [str "Vec"] ∧ ident ∉ [enum_name; str "Self"].
Proof. unfold excluded. rewrite !not_elem_of_cons. pose proof (not_elem_of_nil ident). tauto. Qed.

Lemma check_type_spec enum_name ty :
  check_type_for_issues enum_name ty = Ok tt ↔ admitted_ty enum_name ty.
Proof.
  unfold admitted_ty. revert ty.
  apply Ty_deep_ind; [intros ident args IH|intros elems IH| | |done]; cbn.
  - rewrite Forall_cons, excluded_split. unfold one_of.
    repeat (case_bool_decide; [split; [done|tauto]|]).
    match goal with |- _ ↔ _ ∧ ?Q => transitivity Q; [|tauto] end.
    induction IH as [|[inner|] args Hi _ IH]; [split; [constructor|done]| |done].
    rewrite Forall_app. by apply bind_unit.
  - induction IH as [|elem elems Hi _ IH]; [split; [constructor|done]|].
    rewrite Forall_app. by apply bind_unit.
  - split; [constructor|done].
  - split; [constructor|done].
Qed.

Lemma check_fields_spec enum_name fs :
  check_fields enum_name fs = Ok tt ↔ Forall (λ f, admitted_ty enum_name (field_ty f)) fs.
Proof.
  induction fs as [|f fs IH]; cbn; [split; [constructor|done]|].
  rewrite Forall_cons. by apply bind_unit; [apply check_type_spec|].
Qed.

Lemma check_fields_not_panic enum_name fs : check_fields enum_name fs ≠ Panic.
Proof.
  induction fs as [|f fs IH]; cbn; [done|]. by apply bind_not_panic; [apply check_type_not_panic|].
Qed.

Section checks.
Context {syn : Syn} {syn_laws : SynLaws}.

(** A variant written with a literal for the discriminant of its row. *)
Definition declared (vd : Variant * Z) : Prop :=
  ∃ lit, variant_discriminant vd.1 = Some (Expr_Lit_Int lit) ∧
    base10_parse lit = Ok vd.2 ∧ vd.2 ≤ 65535.
Definition admitted_fields (enum_name : bytes) (vd : Variant * Z) : Prop :=
  Forall (λ f, admitted_ty enum_name (field_ty f)) (vd_fields vd).
Definition well_declared (enum_name : bytes) (vds : list (Variant * Z)) : Prop :=
  Forall declared vds ∧ NoDup vds.*2 ∧ Forall (admitted_fields enum_name) vds.

Lemma variant_disc_spec seen v d :
  variant_disc seen v = Ok d ↔ declared (v, d) ∧ d ∉ seen.
Proof.
  unfold variant_disc, declared. cbn.
  destruct (variant_discriminant v) as [[lit|]|]; cbn; [|naive_solver..].
  destruct (base10_parse lit) as [n| |] eqn:Hl; cbn;
    [|split; [done|]; intros [(?&[= <-]&Hd&?) ?]; by rewrite Hl in Hd..].
  destruct (Z.ltb_spec 65535 n); [|case_bool_decide].
  - split; [done|]. intros [(?&[= <-]&Hd&?) _]. rewrite Hl in Hd. injection Hd as ->. lia.
  - split; [done|]. intros [(?&[= <-]&Hd&?) ?]. rewrite Hl in Hd. by injection Hd as ->.
  - split; [intros [= <-]; eauto|]. intros [(?&[= <-]&Hd&?) ?]. by rewrite Hl in Hd.
Qed.

Lemma check_variants_spec enum_name vs : ∀ seen vds,
  check_variants enum_name vs seen = Ok vds ↔
  vds.*1 = vs ∧ well_declared enum_name vds ∧ (∀ d, d ∈ seen → d ∉ vds.*2).
Proof.
  unfold well_declared. induction vs as [|v vs IH]; intros seen vds; cbn [check_variants].
  - split.
    + intros [= <-]. repeat split; try constructor. set_solver.
    + intros [Hn%fmap_nil_inv _]. by subst.
  - split.
    + intros (d&[Hd Hs]%variant_disc_spec&Hk)%bind_Ok.
      apply bind_Ok in Hk as ([]&Hf%check_fields_spec&Hk).
      apply bind_Ok in Hk as (rest&(<-&(?&HN&?)&Hr)%IH&[= <-]).
      change (admitted_fields enum_name (v, d)) in Hf. assert (d ∉ rest.*2) by (apply Hr; by left).
      cbn. rewrite !Forall_cons, NoDup_cons. split; [done|]. split; [tauto|].
      intros d' Hd'. apply not_elem_of_cons. split; [by intros ->|apply Hr; by right].
    + destruct vds as [|[w d] vds]; [intros [[=] _]|].
      cbn. rewrite !Forall_cons, NoDup_cons. intros ([= -> <-]&([Hd ?]&[Hn ?]&[Hf ?])&Hs).
      assert (d ∉ seen) as Hns by (intros Hi; apply (Hs d Hi); by left).
      rewrite (proj2 (variant_disc_spec seen v d)) by done. rewrite bind_of_Ok.
      rewrite (proj2 (check_fields_spec _ _)) by done. rewrite bind_of_Ok.
      rewrite (proj2 (IH (d :: seen) vds)); [done|]. split; [done|]. split; [done|].
      intros d' [->|Hd']%elem_of_cons; [done|]. intros Hi. apply (Hs d' Hd'). by right.
Qed.

(** *** Attributes *)

(** The lists behind [#[pardosa(..)]]. *)
Fixpoint pardosa_args (attrs : list Attribute) : list (option (list Meta)) :=
  match attrs with
  | [] => []
  | attr :: attrs =>
      if is_pardosa attr then attr_args attr :: pardosa_args attrs else pardosa_args attrs
  end.

(** Entries that are names alone. *)
Definition bare (m : Meta) : Prop := meta_tail m = Tail_none.
Definition marks (metas : list Meta) : Prop := str "tombstone" ∈ meta_path <$> metas.

(** Attributes are read up to the first that marks a tombstone. *)
Inductive tombstone_read : list (option (list Meta)) → bool → Prop :=
  | tombstone_none : tombstone_read [] false
  | tombstone_here metas rest :
      Forall bare metas → marks metas → tombstone_read (Some metas :: rest) true
  | tombstone_later metas rest b :
      Forall bare metas → ¬ marks metas → tombstone_read rest b →
      tombstone_read (Some metas :: rest) b.

Lemma tombstone_entries metas : ∀ b b',
  each_entry tombstone_entry metas b = Ok b' ↔
  Forall bare metas ∧ (b' = true ↔ b = true ∨ marks metas).
Proof.
  unfold marks, bare. induction metas as [|m metas IH]; intros b b'; cbn.
  - rewrite elem_of_nil. destruct b, b'; split; intros Hb; try done; intuition try done; by constructor.
  - rewrite Forall_cons, elem_of_cons. destruct (meta_tail m); [|naive_solver..].
    rewrite IH. case_bool_decide as Hm; [rewrite Hm|]; intuition congruence.
Qed.

Lemma check_tombstone_spec attrs : ∀ b,
  check_tombstone_attr attrs = Ok b ↔ tombstone_read (pardosa_args attrs) b.
Proof.
  induction attrs as [|attr attrs IH]; intros b; cbn.
  - split; [intros [= <-]; constructor|by inversion 1].
  - destruct (is_pardosa attr); [|apply IH].
    rewrite parse_nested_meta_spec.
    destruct (attr_args attr) as [metas|]; cbn; [|split; [done|by inversion 1]].
    rewrite bind_Ok. split.
    + intros ([]&[Hb Hm]%tombstone_entries&Hr).
      * injection Hr as <-. constructor; [done|]. by destruct (proj1 Hm eq_refl).
      * apply IH in Hr. constructor; [done| |done]. intros Hk. by assert (false = true) by tauto.
    + inversion 1; subst.
      * exists true. split; [|done]. apply tombstone_entries. tauto.
      * exists false. split; [|by apply IH]. apply tombstone_entries. intuition congruence.
Qed.

(** Closures that do not panic. *)
Lemma each_entry_not_panic {S} (logic : S → Meta → outcome DeriveError (S * MetaTail)) metas :
  (∀ s m, logic s m ≠ Panic) → ∀ s, each_entry logic metas s ≠ Panic.
Proof.
  intros Hl. induction metas as [|m metas IH]; intros s; cbn; [done|].
  apply bind_not_panic; [apply Hl|]. intros [s' []] _; [apply IH|done..].
Qed.

Lemma nested_meta_not_panic {S} (logic : S → Meta → outcome DeriveError (S * MetaTail)) attr s :
  (∀ s m, logic s m ≠ Panic) → parse_nested_meta attr logic s ≠ Panic.
Proof.
  intros Hl. rewrite parse_nested_meta_spec. destruct (attr_args attr); [|done].
  by apply each_entry_not_panic.
Qed.

Lemma check_tombstone_not_panic attrs : check_tombstone_attr attrs ≠ Panic.
Proof.
  induction attrs as [|attr attrs IH]; cbn; [done|]. destruct (is_pardosa attr); [|done].
  apply bind_not_panic; [by apply nested_meta_not_panic|]. by intros [] _.
Qed.

(** Exactly one [version = N] among the entries of all the lists. *)
Definition other_entry (m : Meta) : Prop := meta_path m ≠ str "version" ∧ bare m.
Definition version_declared (attrs : list Attribute) (v : Z) : Prop :=
  ∃ lists pre lit post, pardosa_args attrs = Some <$> lists ∧
    mjoin lists = pre ++ mk_Meta (str "version") (Tail_int lit) :: post ∧
    Forall other_entry pre ∧ Forall other_entry post ∧ base10_parse lit = Ok v ∧ v ≠ 0.

Lemma each_entry_app {S} (logic : S → Meta → outcome DeriveError (S * MetaTail)) l1 l2 : ∀ s,
  each_entry logic (l1 ++ l2) s = each_entry logic l1 s ≫= each_entry logic l2.
Proof.
  induction l1 as [|m l1 IH]; intros s; [done|]. cbn. destruct (logic s m) as [[s' []]| |]; try done.
  apply IH.
Qed.

Lemma version_entry_other found m :
  meta_path m ≠ str "version" → version_entry found m = Ok (found, meta_tail m).
Proof. intros Hm. unfold version_entry. by rewrite bool_decide_false. Qed.

Lemma versions_others l v out :
  each_entry version_entry l (Some v) = Ok out ↔ Forall other_entry l ∧ out = Some v.
Proof.
  unfold other_entry, bare. induction l as [|m l IH]; cbn.
  - split; [intros [= <-]; by split; [constructor|]|by intros [_ ->]].
  - rewrite Forall_cons. destruct (decide (meta_path m = str "version")) as [Hm|Hm].
    + unfold version_entry. rewrite bool_decide_true by done. split; [done|tauto].
    + rewrite version_entry_other by done. cbn.
      destruct (meta_tail m); [rewrite IH; tauto|split; [done|intuition congruence]..].
Qed.

Lemma versions_spec l v :
  each_entry version_entry l None = Ok (Some v) ↔
  ∃ pre lit post, l = pre ++ mk_Meta (str "version") (Tail_int lit) :: post ∧
    Forall other_entry pre ∧ Forall other_entry post ∧ base10_parse lit = Ok v ∧ v ≠ 0.
Proof.
  induction l as [|[p t] l IH]; cbn; [split; [done|by intros ([]&?&?&?&_)]|].
  destruct (decide (p = str "version")) as [->|Hp].
  - unfold version_entry. cbn. split.
    + destruct t as [|lit|]; cbn; try done. destruct (base10_parse lit) as [n| |] eqn:Hl; cbn; try done.
      destruct (Z.eqb_spec n 0); [done|]. cbn. intros [? [= ->]]%versions_others. by exists [], lit, l.
    + intros ([|m pre]&lit&post&Hl&Hpre&Hpost&Hv&Hz).
      * injection Hl as -> ->. cbn. rewrite Hv. cbn. rewrite (proj2 (Z.eqb_neq v 0)) by done.
        by apply versions_others.
      * injection Hl as <- _. apply Forall_cons in Hpre as [[Hm _] _]. done.
  - rewrite version_entry_other by done. cbn. split.
    + destruct t; try done. intros (pre&lit&post&->&?&?)%IH.
      exists (mk_Meta p Tail_none :: pre), lit, post. split; [done|]. split; [by constructor|done].
    + intros ([|m pre]&lit&post&Hl&Hpre&Hpost); [by injection Hl|].
      injection Hl as <- ->. apply Forall_cons in Hpre as [[_ Ht] Hpre]. cbn in Ht. rewrite Ht.
      apply IH. by exists pre, lit, post.
Qed.

Lemma find_version_spec attrs : ∀ found out,
  find_version attrs found = Ok out ↔
  ∃ lists, pardosa_args attrs = Some <$> lists ∧
    each_entry version_entry (mjoin lists) found = Ok out.
Proof.
  induction attrs as [|attr attrs IH]; intros found out; cbn.
  - split; [intros [= <-]; by exists []|]. by intros ([|] & ? & ?).
  - destruct (is_pardosa attr); [|apply IH]. rewrite parse_nested_meta_spec.
    destruct (attr_args attr) as [metas|]; cbn; [|split; [done|by intros ([|] & ? & ?)]].
    rewrite bind_Ok. split.
    + intros (f&Hf&(lists&->&Hl)%IH). exists (metas :: lists). split; [done|].
      cbn. by rewrite each_entry_app, Hf.
    + intros ([|m lists]&Ha&Hl); [done|]. injection Ha as -> Ha. cbn in Hl.
      rewrite each_entry_app in Hl. apply bind_Ok in Hl as (f&Hf&Hl).
      exists f. split; [done|]. apply IH. by exists lists.
Qed.

Lemma parse_schema_version_spec input v :
  parse_schema_version input = Ok v ↔ version_declared (input_attrs input) v.
Proof.
  unfold parse_schema_version, version_declared. rewrite bind_Ok. split.
  - intros ([w|]&(lists&Ha&Hl)%find_version_spec&Hv); [|done]. injection Hv as ->.
    apply versions_spec in Hl as (pre&lit&post&?). by exists lists, pre, lit, post.
  - intros (lists&pre&lit&post&?&?). exists (Some v). split; [|done].
    apply find_version_spec. exists lists. split; [done|].
    apply versions_spec. by exists pre, lit, post.
Qed.

(** *** Declarations *)

Definition tombstone_marked (v : Variant) (b : bool) : Prop :=
  tombstone_read (pardosa_args (variant_attrs v)) b.

Lemma check_root_variants_spec enum_name vs : ∀ seen has vds out,
  check_root_variants enum_name vs seen has = Ok (vds, out) ↔
  check_variants enum_name vs seen = Ok vds ∧
  ∃ marks, Forall2 tombstone_marked vs marks ∧ out = has || existsb id marks.
Proof.
  induction vs as [|v vs IH]; intros seen has vds out; cbn [check_root_variants check_variants].
  - split.
    + intros [= <- <-]. split; [done|]. exists []. by rewrite orb_false_r.
    + intros ([= <-]&marks&->%Forall2_nil_inv_l&->). by rewrite orb_false_r.
  - destruct (variant_disc seen v) as [d| |]; cbn; [|split; [done|by intros []]..].
    rewrite bind_Ok. split.
    + intros (b&Hb%check_tombstone_spec&H). apply bind_Ok in H as ([]&->&H).
      apply bind_Ok in H as ([rest out']&Hr&[= <- <-]).
      apply IH in Hr as (->&marks&Hm&->). split; [done|]. exists (b :: marks).
      split; [by constructor|]. by destruct b, has.
    + intros (H&marks&Hm&->). apply Forall2_cons_inv_l in Hm as (b&marks'&Hb&Hm&->).
      exists b. split; [by apply check_tombstone_spec|].
      apply bind_Ok in H as ([]&->&(rest&Hr&[= <-])%bind_Ok). cbn.
      rewrite (proj2 (IH (d :: seen) (if b then true else has) rest (has || existsb id (b :: marks')))); [done|].
      split; [done|]. exists marks'. split; [done|]. by destruct b, has.
Qed.

Lemma base10_parse_not_panic lit : base10_parse lit ≠ Panic.
Proof. pose proof (base10_parse_range lit). by destruct (base10_parse lit). Qed.

Lemma variant_disc_not_panic seen v : variant_disc seen v ≠ Panic.
Proof.
  unfold variant_disc. destruct (variant_discriminant v) as [[lit|]|]; cbn; [|done..].
  apply bind_not_panic; [apply base10_parse_not_panic|]. intros n _.
  destruct (_ <? _); [done|]. by case_bool_decide.
Qed.

Lemma check_variants_not_panic enum_name vs : ∀ seen, check_variants enum_name vs seen ≠ Panic.
Proof.
  induction vs as [|v vs IH]; intros seen; cbn [check_variants]; [done|].
  apply bind_not_panic; [apply variant_disc_not_panic|]. intros d _.
  apply bind_not_panic; [apply check_fields_not_panic|]. intros _ _. by apply bind_not_panic.
Qed.

Lemma check_root_variants_not_panic enum_name vs : ∀ seen has,
  check_root_variants enum_name vs seen has ≠ Panic.
Proof.
  induction vs as [|v vs IH]; intros seen has; cbn [check_root_variants]; [done|].
  apply bind_not_panic; [apply variant_disc_not_panic|]. intros d _.
  apply bind_not_panic; [apply check_tombstone_not_panic|]. intros b _.
  apply bind_not_panic; [apply check_fields_not_panic|]. intros _ _.
  apply bind_not_panic; [apply IH|]. by intros [].
Qed.

Lemma parse_schema_version_not_panic input : parse_schema_version input ≠ Panic.
Proof.
  assert (∀ s m, version_entry s m ≠ Panic) as Hv.
  { intros s m. unfold version_entry, meta_lit. case_bool_decide; [|done]. case_bool_decide; [done|].
    apply bind_not_panic; [by destruct (meta_tail m)|]. intros lit _.
    apply bind_not_panic; [apply base10_parse_not_panic|]. intros n _. by destruct (_ =? 0). }
  unfold parse_schema_version. apply bind_not_panic; [|by intros [] _].
  generalize (@None Z). induction (input_attrs input) as [|attr attrs IH]; intros found; cbn; [done|].
  destruct (is_pardosa attr); [|done]. by apply bind_not_panic; [apply nested_meta_not_panic|].
Qed.

(** A declaration of a payload type at a root. *)
Record schema_declared (input : DeriveInput) (version : Z) (vds : list (Variant * Z)) : Prop := {
  declared_enum : input_data input = Data_Enum vds.*1;
  declared_version : version_declared (input_attrs input) version;
  declared_variants : well_declared (input_ident input) vds;
  declared_tombstone : ∃ marks, Forall2 tombstone_marked vds.*1 marks ∧ true ∈ marks;
}.

(** The fields of the variants are no deeper than a descriptor may nest. *)
Definition depths_ok (vds : list (Variant * Z)) : Prop :=
  Forall (λ vd, Forall (λ f, TYPE_DEPTH (field_impl f) ≤ MAX_DESCRIPTOR_DEPTH - overhead vd.1)
                  (vd_fields vd)) vds.

Lemma forallb_Forall {A} (p : A → bool) (P : A → Prop) l :
  (∀ x, p x = true ↔ P x) → (forallb p l = true ↔ Forall P l).
Proof.
  intros Hp. induction l as [|x l IH]; cbn; [split; [constructor|done]|].
  rewrite Forall_cons, andb_true_iff, IH, Hp. done.
Qed.

Lemma depth_assertions_spec vds : depth_assertions vds.*1 = true ↔ depths_ok vds.
Proof.
  unfold depth_assertions, depths_ok, vd_fields.
  etransitivity; [|exact (Forall_fmap fst (λ v, Forall (λ f, TYPE_DEPTH (field_impl f) ≤ MAX_DESCRIPTOR_DEPTH - overhead v)
    (fields_list (variant_fields v))) vds)].
  apply forallb_Forall. intros v. apply forallb_Forall. intros f. apply Z.leb_le.
Qed.

Lemma existsb_id marks : existsb id marks = true ↔ true ∈ marks.
Proof. induction marks as [|[] marks IH]; cbn; rewrite ?elem_of_nil, ?elem_of_cons, ?IH; naive_solver. Qed.

(** The checks at the root, without the assertions. *)
Definition read_root (input : DeriveInput) : outcome DeriveError (Z * list (Variant * Z)) :=
  match input_data input with
  | Data_Enum variants =>
      schema_version ← parse_schema_version input;
      '(vds, has_tombstone) ← check_root_variants (input_ident input) variants [] false;
      if negb has_tombstone then Err DeriveError_MissingTombstone else Ok (schema_version, vds)
  | Data_Struct _ => Err DeriveError_StructRoot
  | Data_Union => Err DeriveError_Union
  end.

Lemma read_root_spec input v vds : read_root input = Ok (v, vds) ↔ schema_declared input v vds.
Proof.
  unfold read_root. split.
  - destruct (input_data input) as [|variants|] eqn:Hi; try done.
    intros (w&Hv%parse_schema_version_spec&H)%bind_Ok.
    apply bind_Ok in H as ([vds' []]&(Hc&marks&Hm&Ht)%check_root_variants_spec&[= -> ->]).
    apply check_variants_spec in Hc as (<-&?&_).
    split; [done..|]. exists marks. split; [done|]. by apply existsb_id.
  - intros [-> Hv Hw (marks&Hm&Ht)].
    rewrite (proj2 (parse_schema_version_spec _ v)) by done. rewrite bind_of_Ok.
    rewrite (proj2 (check_root_variants_spec (input_ident input) vds.*1 [] false vds true)); [done|].
    split.
    + apply check_variants_spec. split; [done|]. split; [done|]. by intros d ?%elem_of_nil.
    + exists marks. split; [done|]. symmetry. by apply existsb_id.
Qed.

Lemma expand_schema_read input :
  expand_pardosa_schema input =
    '(v, vds) ← read_root input;
    if depth_assertions vds.*1
    then Ok (existT (enum_values vds) (root_schema v (input_ident input) vds)) else Panic.
Proof.
  unfold expand_pardosa_schema, read_root. destruct (input_data input) as [|variants|]; try done.
  destruct (parse_schema_version input) as [v| |]; cbn; try done.
  destruct (check_root_variants _ _ _ _) as [[vds []]| |] eqn:Hc; cbn; try done.
  apply check_root_variants_spec in Hc as [Hc _]. by apply check_variants_spec in Hc as [<- _].
Qed.

Lemma read_root_not_panic input : read_root input ≠ Panic.
Proof.
  unfold read_root. destruct (input_data input); try done.
  apply bind_not_panic; [apply parse_schema_version_not_panic|]. intros v _.
  apply bind_not_panic; [apply check_root_variants_not_panic|]. by intros [? []] _.
Qed.

(** C32: deriving [PardosaSchema] accepts the declarations of payload roots and no
    others: an enum with one schema version between 1 and [u32::MAX], literal
    discriminants up to 65535 that differ, attributes that parse and at least one
    variant marked as the tombstone, and no field type that mentions a float, an
    unbounded text or collection, or the enum itself. What it generates is the
    schema of the variants in their order; the generated assertions fail, and the
    program does not compile, exactly when a field nests too deeply. *)
Theorem schema_declarations_accepted input :
  match expand_pardosa_schema input with
  | Ok R => ∃ v vds, schema_declared input v vds ∧ depths_ok vds ∧
      R = existT (enum_values vds) (root_schema v (input_ident input) vds)
  | Panic => ∃ v vds, schema_declared input v vds ∧ ¬ depths_ok vds
  | Err _ => ¬ ∃ v vds, schema_declared input v vds
  end.
Proof.
  rewrite expand_schema_read. pose proof (read_root_not_panic input).
  destruct (read_root input) as [[v vds]|e|] eqn:Hr; [|cbn|done].
  - rewrite bind_of_Ok. apply read_root_spec in Hr. pose proof (depth_assertions_spec vds) as Hd.
    destruct (depth_assertions vds.*1); exists v, vds; [naive_solver|].
    split; [done|]. intros Hk. by apply Hd in Hk.
  - intros (v&vds&Hs). apply read_root_spec in Hs. congruence.
Qed.
End checks.

(** ** The property at a concrete input *)

(** A reader of decimal literals, and the visit as it is documented. *)
Fixpoint digits_value (digits : bytes) (acc : Z) : option Z :=
  match digits with
  | [] => Some acc
  | b :: digits =>
      if in_range 0x30 0x39 b then digits_value digits (acc * 10 + (byte_to_Z b - 0x30)) else None
  end.
Definition toy_syn : Syn := {|
  base10_parse lit :=
    match digits_value lit 0 with
    | Some v => if is_empty lit || (u32_max <? v) then Err DeriveError_syn else Ok v
    | None => Err DeriveError_syn
    end;
  parse_nested_meta S attr logic s :=
    match attr_args attr with Some metas => each_entry logic metas s | None => Err DeriveError_syn end;
|}.

Lemma digits_value_nonneg digits : ∀ acc v, 0 ≤ acc → digits_value digits acc = Some v → 0 ≤ v.
Proof.
  induction digits as [|b digits IH]; cbn; intros acc v Ha; [by intros [= <-]|].
  destruct (in_range 48 57 b) eqn:Hb; [|done]. apply andb_prop in Hb as [Hb _].
  apply IH. lia.
Qed.

Lemma toy_syn_laws : @SynLaws toy_syn.
Proof.
  split; [|done]. intros lit. cbn. destruct (digits_value lit 0) as [v|] eqn:Hv; [|done].
  apply digits_value_nonneg in Hv; [|done]. destruct (is_empty lit || (u32_max <? v)) eqn:Hc; [done|].
  apply orb_false_iff in Hc as [_ Hc]. lia.
Qed.

(** A field of one of the payload types of the crate. *)
Definition code_field (ident : bytes) (ty : Ty) (c : TypeCode) : Field :=
  mk_Field ident ty (denote c) (code_type c).
Definition type_path (ident : string) (args : list (option Ty)) : Ty := Type_Path (Some (str ident, args)).

(** [#[pardosa(version = 3)] enum Order] with a tombstone, a variant with named
    fields and one with a single field and a discriminant of two bytes. *)
Definition sample_order : DeriveInput := mk_DeriveInput
  [mk_Attribute (str "derive") (Some []);
   mk_Attribute (str "pardosa") (Some [mk_Meta (str "version") (Tail_int (str "3"))])]
  (str "Order")
  (Data_Enum [
    mk_Variant (str "Gone") [mk_Attribute (str "pardosa") (Some [mk_Meta (str "tombstone") Tail_none])]
      Fields_Unit (Some (Expr_Lit_Int (str "0")));
    mk_Variant (str "Placed") []
      (Fields_Named [
        code_field (str "id") (type_path "u32" []) Code_U32;
        code_field (str "note") (type_path "Option" [Some (type_path "u8" [])]) (Code_Option Code_U8)])
      (Some (Expr_Lit_Int (str "1")));
    mk_Variant (str "Priced") [] (Fields_Unnamed [code_field [] (type_path "u16" []) Code_U16])
      (Some (Expr_Lit_Int (str "300")))]).

Definition sample_rows : list (Variant * Z) :=
  match input_data sample_order with
  | Data_Enum [gone; placed; priced] => [(gone, 0); (placed, 1); (priced, 300)]
  | _ => []
  end.

Lemma schema_declarations_accepted_witness :
  @expand_pardosa_schema toy_syn sample_order =
    Ok (existT (enum_values sample_rows) (root_schema 3 (str "Order") sample_rows)) ∧
  ∃ v vds, @schema_declared toy_syn sample_order v vds ∧ depths_ok vds.
Proof.
  assert (@expand_pardosa_schema toy_syn sample_order =
    Ok (existT (enum_values sample_rows) (root_schema 3 (str "Order") sample_rows))) as Hx by reflexivity.
  split; [exact Hx|].
  pose proof (@schema_declarations_accepted toy_syn toy_syn_laws sample_order) as Hd. rewrite Hx in Hd.
  destruct Hd as (v&vds&Hs&Hok&_). exists v, vds. exact (conj Hs Hok).
Defined.
