(* ===== verification/DeriveLaws.v ===== *)
(** * Laws of the derived implementations: [src/crates/pardosa-derive/src/lib.rs]

    The generated encoders, decoders and descriptors of [Derive] keep the contract
    of a payload type ([Typed.type_laws]), of a schema and of an admitted
    descriptor, whenever the types of the fields do. *)

From stdpp Require Import pretty list_numbers.
From S2P Require Export DeriveChecks.

(** ** Laws of the generated code

    Each field's implementation keeps the contract of a payload type, for the
    values [wf f] and their images [image f]. *)

Section derived_laws.
Context (wf : ∀ f, field_carrier f → Prop) (image : ∀ f, field_carrier f → bytes).

Definition field_laws (f : Field) : Prop := type_laws (field_impl f) (wf f) (image f).
Definition field_canonical (f : Field) : Prop := canonical (field_impl f) (image f).

Fixpoint values_wf (fs : list Field) : values fs → Prop :=
  match fs with
  | [] => λ _, True
  | f :: fs => λ vs, wf f vs.1 ∧ values_wf fs vs.2
  end.
Fixpoint values_image (fs : list Field) : values fs → bytes :=
  match fs with
  | [] => λ _, []
  | f :: fs => λ vs, image f vs.1 ++ values_image fs vs.2
  end.

Lemma encode_body_spec fs : ∀ vs buf, Forall field_laws fs → values_wf fs vs →
  encode_body fs vs buf = Ok (buf ++ values_image fs vs).
Proof.
  induction fs as [|f fs IH]; intros vs buf HL Hw; cbn; [by rewrite app_nil_r|].
  apply Forall_cons in HL as [L HL]. destruct vs as [v vs], Hw as [Hv Hw]. cbn in *.
  rewrite (type_encodes L) by done. rewrite bind_of_Ok, IH by done. by rewrite <-app_assoc.
Qed.

Lemma decode_body_complete fs : ∀ vs pre rest, Forall field_laws fs → values_wf fs vs →
  blen (pre ++ values_image fs vs ++ rest) ≤ isize_max →
  decode_body fs (pre ++ values_image fs vs ++ rest) (blen pre) =
    Ok (vs, blen pre + blen (values_image fs vs)).
Proof.
  induction fs as [|f fs IH]; intros vs pre rest HL Hw Hb.
  - destruct vs. cbn. do 2 f_equal. len.
  - apply Forall_cons in HL as [L HL]. destruct vs as [v vs], Hw as [Hv Hw]. cbn in *.
    rewrite <-app_assoc in *. unfold slice_from. rewrite slice_skip, slice_all by len.
    rewrite bind_of_Ok, (type_complete L) by (done || len). rewrite bind_of_Ok.
    rewrite (proj2 (checked_advance_Ok _ _ _ (blen pre + blen (image f v)))) by len.
    rewrite bind_of_Ok, (app_assoc pre), <-blen_app, IH by (done || (rewrite <-app_assoc; done)).
    cbn. do 2 f_equal. len.
Qed.

Lemma decode_body_sound fs buf : ∀ cursor vs c', Forall field_laws fs →
  0 ≤ cursor ≤ blen buf → decode_body fs buf cursor = Ok (vs, c') →
  values_wf fs vs ∧ c' = cursor + blen (values_image fs vs) ∧ c' ≤ blen buf ∧
  (Forall field_canonical fs →
   take (Z.to_nat c') buf = take (Z.to_nat cursor) buf ++ values_image fs vs).
Proof.
  induction fs as [|f fs IH]; intros cursor vs c' HL Hc H; cbn [decode_body] in H.
  - injection H as <- <-. cbn. rewrite app_nil_r. repeat split; len.
  - apply Forall_cons in HL as [L HL].
    apply bind_Ok in H as (tail&Ht&H). apply bind_Ok in H as ([v k]&Hd&H).
    apply bind_Ok in H as (c&(->&Hle&_)%checked_advance_Ok&H).
    apply bind_Ok in H as ([ws c2]&Hr&[= <- <-]).
    pose proof (type_sound L _ _ _ Hd) as (Hv&Hk&Hkr).
    apply IH in Hr as (Hw&->&Hle2&Hcan); [|done|lia].
    cbn [values_wf values_image fst snd]. rewrite blen_app. split; [done|]. split; [lia|].
    split; [lia|]. intros [C HC]%Forall_cons. rewrite (Hcan HC).
    rewrite (canonical_step L C buf cursor tail v k) by done. by rewrite <-app_assoc.
Qed.

Lemma decode_body_total fs buf : ∀ cursor, Forall field_laws fs →
  0 ≤ cursor ≤ blen buf → blen buf ≤ isize_max → decode_body fs buf cursor ≠ Panic.
Proof.
  induction fs as [|f fs IH]; intros cursor HL Hc Hb; cbn [decode_body]; [done|].
  apply Forall_cons in HL as [L HL].
  apply bind_not_panic; [by apply slice_not_panic; lia|]. intros tail Ht%slice_blen.
  apply bind_not_panic; [apply (type_total L); lia|]. intros [v k] Hd.
  apply (type_sound L) in Hd as (_&_&?).
  apply bind_not_panic; [apply checked_advance_not_panic|].
  intros c (->&?&_)%checked_advance_Ok.
  apply bind_not_panic; [by apply IH; [|lia|]|]. by intros [].
Qed.

(** *** Enums *)

Definition disc_bytes (width disc_val : Z) : bytes := le_encode (Z.to_nat width) disc_val.
Definition width_max (width : Z) : Z := if width =? 1 then 255 else 65535.

Fixpoint enum_wf (vds : list (Variant * Z)) : enum_values vds → Prop :=
  match vds with
  | [] => λ _, True
  | vd :: vds => λ x, match x with inl vs => values_wf (vd_fields vd) vs | inr x => enum_wf vds x end
  end.
Fixpoint enum_disc (vds : list (Variant * Z)) : enum_values vds → Z :=
  match vds with
  | [] => λ _, 0
  | vd :: vds => λ x, match x with inl _ => vd.2 | inr x => enum_disc vds x end
  end.
Fixpoint enum_body (vds : list (Variant * Z)) : enum_values vds → bytes :=
  match vds with
  | [] => λ _, []
  | vd :: vds => λ x,
      match x with inl vs => values_image (vd_fields vd) vs | inr x => enum_body vds x end
  end.
Definition enum_image (width : Z) (vds : list (Variant * Z)) (x : enum_values vds) : bytes :=
  disc_bytes width (enum_disc vds x) ++ enum_body vds x.

Definition variants_laws (vds : list (Variant * Z)) : Prop :=
  Forall (λ vd, Forall field_laws (vd_fields vd)) vds.
Definition variants_canonical (vds : list (Variant * Z)) : Prop :=
  Forall (λ vd, Forall field_canonical (vd_fields vd)) vds.

Lemma encode_disc_bytes width d buf :
  width = 1 ∨ width = 2 → encode_disc width d buf = buf ++ disc_bytes width d.
Proof. by intros [->| ->]. Qed.

Lemma blen_disc_bytes width d : 0 ≤ width → blen (disc_bytes width d) = width.
Proof. intros. unfold disc_bytes. len. Qed.

Lemma decode_disc_complete width d rest :
  width = 1 ∨ width = 2 → 0 ≤ d ≤ width_max width →
  decode_disc width (disc_bytes width d ++ rest) = Ok d.
Proof.
  intros [->| ->] Hd; unfold decode_disc, disc_bytes, width_max in *.
  - change ((b ← byte_at (byte_of_Z d :: rest) 0; Ok (byte_to_Z b)) = Ok (E:=DecodeError) d).
    rewrite byte_at_here by done. change (0 ≤ d ≤ 255) in Hd.
    rewrite bind_of_Ok, byte_to_of_Z, Z.mod_small by lia. done.
  - cbn [Z.eqb Pos.eqb] in *. change (Z.to_nat 2) with 2%nat.
    rewrite (proj2 (Z.ltb_ge _ _)) by len. change (0 ≤ d ≤ 65535) in Hd.
    apply (le_at_here 2 2); [done|done|change (2 ^ (8 * 2)) with 65536; lia].
Qed.

Lemma decode_disc_sound width d buf :
  width = 1 ∨ width = 2 → decode_disc width buf = Ok d →
  width ≤ blen buf ∧ take (Z.to_nat width) buf = disc_bytes width d.
Proof.
  intros [->| ->]; unfold decode_disc, disc_bytes.
  - cbn [Z.eqb Pos.eqb]. intros H. destruct buf as [|b buf]; [done|]. cbn [is_empty] in H.
    rewrite byte_at_here in H by done. injection H as <-. split; [len|].
    change ([b] = [byte_of_Z (byte_to_Z b)]). by rewrite byte_of_to_Z.
  - change (2 =? 1) with false. cbv iota. intros H. ok_inv. split; [lia|].
    by apply (take_le_at (E:=DecodeError) 2 buf 0 []).
Qed.

Lemma decode_disc_total width buf : decode_disc width buf ≠ Panic.
Proof.
  unfold decode_disc. destruct (width =? 1); [|no_panic].
  destruct buf; [done|]. cbn [is_empty]. by rewrite byte_at_here.
Qed.

Lemma encode_arms_spec width vds : ∀ x buf,
  width = 1 ∨ width = 2 → variants_laws vds → enum_wf vds x →
  encode_arms width vds x buf = Ok (buf ++ enum_image width vds x).
Proof.
  unfold enum_image. induction vds as [|vd vds IH]; intros x buf Hw HL Hx; [by destruct x|].
  apply Forall_cons in HL as [L HL]. destruct x as [vs|x]; cbn in *; [|by apply IH].
  rewrite encode_disc_bytes, encode_body_spec by done. by rewrite <-app_assoc.
Qed.

Lemma decode_arm_eq width vd buf :
  width ≤ blen buf → decode_arm width vd buf = decode_body (vd_fields vd) buf width.
Proof.
  intros H. unfold decode_arm. rewrite (proj2 (Z.ltb_ge _ _)) by done.
  by destruct (variant_fields vd.1).
Qed.

Lemma decode_arms_complete width vds : ∀ x pre rest,
  blen pre = width → NoDup vds.*2 → variants_laws vds → enum_wf vds x →
  blen (pre ++ enum_body vds x ++ rest) ≤ isize_max →
  decode_arms width vds (enum_disc vds x) (pre ++ enum_body vds x ++ rest) =
    Ok (x, width + blen (enum_body vds x)).
Proof.
  induction vds as [|vd vds IH]; intros x pre rest Hw HN HL Hx Hb; [by destruct x|].
  apply Forall_cons in HL as [L HL]. cbn [fmap list_fmap] in HN. apply NoDup_cons in HN as [Hni HN].
  destruct x as [vs|x]; cbn [enum_disc enum_body enum_wf decode_arms] in *.
  - rewrite Z.eqb_refl, decode_arm_eq by len. subst width. by rewrite decode_body_complete.
  - assert (enum_disc vds x ≠ vd.2) as Hne.
    { intros E. apply Hni. rewrite <-E. clear. induction vds as [|vd vds IH]; [by destruct x|].
      destruct x as [vs|x]; cbn; [left|right; apply IH]. }
    rewrite (proj2 (Z.eqb_neq _ _)) by done. by rewrite IH.
Qed.

Lemma decode_arms_sound width vds d buf : ∀ x c,
  0 ≤ width ≤ blen buf → variants_laws vds → decode_arms width vds d buf = Ok (x, c) →
  enum_wf vds x ∧ enum_disc vds x = d ∧ c = width + blen (enum_body vds x) ∧ c ≤ blen buf ∧
  (variants_canonical vds → take (Z.to_nat c) buf = take (Z.to_nat width) buf ++ enum_body vds x).
Proof.
  induction vds as [|vd vds IH]; intros x c Hw HL H; [done|]. cbn [decode_arms] in H.
  apply Forall_cons in HL as [L HL]. destruct (Z.eqb_spec d vd.2) as [->|Hne].
  - rewrite decode_arm_eq in H by lia. apply bind_Ok in H as ([vs k]&Hd&[= <- <-]).
    apply decode_body_sound in Hd as (?&?&?&Hcan); [|done|done]. repeat split; [done..|].
    intros [C _]%Forall_cons. by apply Hcan.
  - apply bind_Ok in H as ([y k]&Hd&[= <- <-]). apply IH in Hd as (?&?&?&?&Hcan); [|done|done].
    repeat split; [done..|]. intros [_ C]%Forall_cons. by apply Hcan.
Qed.

Lemma decode_arms_total width vds d buf :
  0 ≤ width ≤ blen buf → blen buf ≤ isize_max → variants_laws vds →
  decode_arms width vds d buf ≠ Panic.
Proof.
  intros Hw Hb. induction vds as [|vd vds IH]; intros HL; [done|]. cbn [decode_arms].
  apply Forall_cons in HL as [L HL]. destruct (d =? vd.2).
  - rewrite decode_arm_eq by lia. apply bind_not_panic; [by apply decode_body_total|]. by intros [].
  - apply bind_not_panic; [by apply IH|]. by intros [].
Qed.

(** The discriminants are distinct and fit the width of the enum. *)
Definition discs_ok (vds : list (Variant * Z)) : Prop :=
  NoDup vds.*2 ∧ Forall (λ d, 0 ≤ d ≤ 65535) vds.*2.

Lemma width_of_cases vds : width_of vds = 1 ∨ width_of vds = 2.
Proof. unfold width_of. destruct (_ <=? _); auto. Qed.

Lemma foldl_max_le l : ∀ m d, d ≤ m ∨ d ∈ l → d ≤ foldl Z.max m l.
Proof.
  induction l as [|a l IH]; intros m d Hd; cbn; [set_solver|].
  apply IH. destruct Hd as [Hd|Hd]; [left; lia|].
  apply elem_of_cons in Hd as [->|Hd]; [left; lia|by right].
Qed.

Lemma width_of_fits vds : discs_ok vds → Forall (λ d, 0 ≤ d ≤ width_max (width_of vds)) vds.*2.
Proof.
  intros [_ H]. apply Forall_forall. intros d Hd. rewrite Forall_forall in H. specialize (H d Hd). cbv beta in H.
  pose proof (foldl_max_le vds.*2 0 d (or_intror Hd)). unfold width_of, width_max.
  destruct (Z.leb_spec (foldl Z.max 0 vds.*2) 255); [change (1 =? 1) with true|change (2 =? 1) with false]; lia.
Qed.

Lemma enum_disc_in vds x : enum_disc vds x ∈ vds.*2.
Proof.
  induction vds as [|vd vds IH]; [by destruct x|].
  destruct x as [vs|x]; cbn; [left|right; apply IH].
Qed.

Section enum.
Context (vds : list (Variant * Z)) (Hok : discs_ok vds) (HL : variants_laws vds).
Let width := width_of vds.
Let decode (buf : bytes) : outcome DecodeError (enum_values vds * Z) :=
  disc ← decode_disc width buf; decode_arms width vds disc buf.

Lemma width_range : 1 ≤ width ≤ 2.
Proof. unfold width. destruct (width_of_cases vds) as [->| ->]; lia. Qed.

Lemma blen_enum_image x : blen (enum_image width vds x) = width + blen (enum_body vds x).
Proof. pose proof width_range. unfold enum_image. rewrite blen_app, blen_disc_bytes; lia. Qed.

Lemma enum_decode_complete x rest :
  enum_wf vds x → blen (enum_image width vds x ++ rest) ≤ isize_max →
  decode (enum_image width vds x ++ rest) = Ok (x, blen (enum_image width vds x)).
Proof.
  intros Hx Hb. pose proof width_range. unfold decode. rewrite blen_enum_image.
  unfold enum_image in *. rewrite <-app_assoc in *.
  rewrite decode_disc_complete by
    (apply width_of_cases || by apply (Forall_forall _ _) with (1 := width_of_fits vds Hok), enum_disc_in).
  rewrite bind_of_Ok. apply decode_arms_complete; [apply blen_disc_bytes; lia|apply Hok|done..].
Qed.

Lemma enum_decode_sound buf x c :
  decode buf = Ok (x, c) →
  enum_wf vds x ∧ c = blen (enum_image width vds x) ∧ 0 ≤ c ≤ blen buf ∧
  (variants_canonical vds → take (Z.to_nat c) buf = enum_image width vds x).
Proof.
  intros (d&Hd&H)%bind_Ok. pose proof width_range. rewrite blen_enum_image.
  apply decode_disc_sound in Hd as [Hw Ht]; [|apply width_of_cases].
  apply decode_arms_sound in H as (?&<-&->&?&Hcan); [|lia|done].
  pose proof (blen_nonneg (enum_body vds x)). repeat split; [done|lia..|].
  intros C. rewrite (Hcan C). unfold enum_image. by rewrite Ht.
Qed.

Lemma enum_decode_total buf : blen buf ≤ isize_max → decode buf ≠ Panic.
Proof.
  intros Hb. apply bind_not_panic; [apply decode_disc_total|]. intros d Hd.
  pose proof width_range. apply decode_disc_sound in Hd as [Hw _]; [|apply width_of_cases].
  apply decode_arms_total; [lia|done..].
Qed.

Lemma enum_laws ident depth :
  type_laws (enum_type ident depth vds) (enum_wf vds) (enum_image width vds) ∧
  (variants_canonical vds → canonical (enum_type ident depth vds) (enum_image width vds)).
Proof.
  split; [split|].
  - intros x buf Hx. apply encode_arms_spec; [apply width_of_cases|done..].
  - intros x rest. apply enum_decode_complete.
  - intros buf x c H%enum_decode_sound. tauto.
  - apply enum_decode_total.
  - intros C buf x c H%enum_decode_sound. tauto.
Qed.
End enum.

Lemma struct_laws depth node fs :
  Forall field_laws fs →
  let T := mk_PardosaType depth node (encode_body fs) (λ buf, decode_body fs buf 0) in
  type_laws T (values_wf fs) (values_image fs) ∧
  (Forall field_canonical fs → canonical T (values_image fs)).
Proof.
  intros HL T.
  assert (∀ buf vs c, decode_body fs buf 0 = Ok (vs, c) →
    values_wf fs vs ∧ c = blen (values_image fs vs) ∧ 0 ≤ c ≤ blen buf ∧
    (Forall field_canonical fs → take (Z.to_nat c) buf = values_image fs vs)) as Hs.
  { intros buf vs c H. pose proof (blen_nonneg buf).
    apply decode_body_sound in H as (?&->&?&Hcan); [|done|lia].
    repeat split; [done|len..|]. intros C. by rewrite (Hcan C). }
  split; [split|].
  - intros vs buf Hw. by apply encode_body_spec.
  - intros vs rest Hw Hb. by apply (decode_body_complete fs vs [] rest).
  - intros buf vs c H%Hs. tauto.
  - intros buf Hb. pose proof (blen_nonneg buf). by apply decode_body_total; [|lia|].
  - intros C buf vs c H%Hs. tauto.
Qed.
End derived_laws.

(** ** Derived implementations *)

Section derivations.
Context {syn : Syn} {syn_laws : SynLaws}.

Lemma well_declared_discs enum_name vds : well_declared enum_name vds → discs_ok vds.
Proof.
  intros (HD&HN&_). split; [done|]. apply Forall_fmap. eapply Forall_impl; [exact HD|].
  intros [v d] (lit&_&Hl&?). pose proof (base10_parse_range lit) as Hr. rewrite Hl in Hr. cbn in *. lia.
Qed.

Definition input_fields (input : DeriveInput) : list Field :=
  match input_data input with
  | Data_Struct fields => fields_list fields
  | Data_Enum variants => mjoin ((λ v, fields_list (variant_fields v)) <$> variants)
  | Data_Union => []
  end.

Lemma Forall_mjoin {A B} (P : B → Prop) (f : A → list B) l :
  Forall P (mjoin (f <$> l)) ↔ Forall (λ x, Forall P (f x)) l.
Proof.
  induction l as [|x l IH]; cbn; [split; constructor|]. by rewrite Forall_app, Forall_cons, IH.
Qed.

Lemma input_fields_variants (P : Field → Prop) input vds :
  input_data input = Data_Enum vds.*1 → Forall P (input_fields input) →
  Forall (λ vd, Forall P (vd_fields vd)) vds.
Proof.
  unfold input_fields, vd_fields. intros -> H%Forall_mjoin. by rewrite Forall_fmap in H.
Qed.

Lemma expand_struct_Ok ident fields T :
  expand_pardosa_type_struct ident fields = Ok T →
  ∃ depth, const_depth (E:=DeriveError) ((λ f, TYPE_DEPTH (field_impl f) + 1) <$> fields_list fields) = Ok depth ∧
    T = mk_PardosaType depth (asserting_depth depth (struct_node ident fields))
          (encode_body (fields_list fields)) (λ buf, decode_body (fields_list fields) buf 0).
Proof.
  unfold expand_pardosa_type_struct. intros (u&_&H)%bind_Ok. apply bind_Ok in H as (depth&Hd&[= <-]).
  by exists depth.
Qed.

Lemma expand_enum_Ok ident variants R :
  expand_pardosa_type_enum ident variants = Ok R →
  ∃ vds depth, variants ≠ [] ∧ vds.*1 = variants ∧ well_declared ident vds ∧
    const_depth (E:=DeriveError) (mjoin ((λ vd, variant_depths vd.1) <$> vds)) = Ok depth ∧
    R = existT (enum_values vds) (enum_type ident depth vds).
Proof.
  unfold expand_pardosa_type_enum. destruct variants as [|v vs]; [done|]. cbn [is_empty].
  intros (vds&(Hvs&Hw&_)%check_variants_spec&H)%bind_Ok. apply bind_Ok in H as (depth&Hd&[= <-]).
  by exists vds, depth.
Qed.

(** C30: a derived [PardosaType] keeps the contract of a payload type whenever the
    types of its fields do: the values are those whose fields are values, the
    image of a struct is the images of its fields in order, that of an enum the
    discriminant, in one byte if all fit and in two otherwise, before them; and
    it is canonical if the fields are. *)
Theorem derived_types_keep_contract (wf : ∀ f, field_carrier f → Prop)
    (image : ∀ f, field_carrier f → bytes) input R :
  expand_pardosa_type input = Ok R → Forall (field_laws wf image) (input_fields input) →
  match input_data input with
  | Data_Struct fields =>
      let fs := fields_list fields in
      ∃ T, R = existT (values fs) T ∧ type_laws T (values_wf wf fs) (values_image image fs) ∧
        (Forall (field_canonical image) fs → canonical T (values_image image fs))
  | Data_Enum variants =>
      ∃ vds T, vds.*1 = variants ∧ well_declared (input_ident input) vds ∧
        R = existT (enum_values vds) T ∧
        type_laws T (enum_wf wf vds) (enum_image image (width_of vds) vds) ∧
        (variants_canonical image vds → canonical T (enum_image image (width_of vds) vds))
  | Data_Union => False
  end.
Proof.
  unfold expand_pardosa_type. intros H HL. destruct (input_data input) as [fields|variants|] eqn:Hi; [| |done].
  - apply bind_Ok in H as (T&HT&[= <-]). apply expand_struct_Ok in HT as (depth&_&HT). exists T. split; [done|].
    unfold input_fields in HL. rewrite Hi in HL. rewrite HT. by apply struct_laws.
  - apply expand_enum_Ok in H as (vds&depth&_&Hv&Hw&_&->). exists vds, (enum_type (input_ident input) depth vds).
    split; [done|]. split; [done|]. split; [done|]. apply enum_laws.
    + by eapply well_declared_discs.
    + apply (input_fields_variants _ input); [congruence|done].
Qed.

Lemma expand_schema_Ok input R :
  expand_pardosa_schema input = Ok R →
  ∃ v vds, schema_declared input v vds ∧ depths_ok vds ∧
    R = existT (enum_values vds) (root_schema v (input_ident input) vds).
Proof.
  rewrite expand_schema_read. intros ([v vds]&Hr%read_root_spec&H)%bind_Ok.
  destruct (depth_assertions vds.*1) eqn:Hd; [|done]. injection H as <-.
  exists v, vds. by apply depth_assertions_spec in Hd.
Qed.

(** What a root writes and reads. *)
Lemma root_schema_laws (wf : ∀ f, field_carrier f → Prop) (image : ∀ f, field_carrier f → bytes)
    v ident vds :
  discs_ok vds → variants_laws wf image vds →
  let S := root_schema v ident vds in
  let written := enum_image image (width_of vds) vds in
  (∀ x buf, enum_wf wf vds x → encode_payload S x buf = Ok (buf ++ written x)) ∧
  (∀ x, enum_wf wf vds x → blen (written x) ≤ isize_max →
     decode_payload S (written x) = Ok x) ∧
  (∀ buf, blen buf ≤ isize_max →
     match decode_payload S buf with
     | Ok x => enum_wf wf vds x ∧ blen (written x) = blen buf ∧
         (variants_canonical image vds → written x = buf)
     | Err _ => True
     | Panic => False
     end).
Proof.
  intros Hok HL. cbv zeta. destruct (enum_laws wf image vds Hok HL ident 0) as [L C].
  assert (∀ buf, decode_payload (root_schema v ident vds) buf =
    decode_whole (decode_type (enum_type ident 0 vds) buf) buf) as Hd.
  { intros buf. cbn. by destruct (decode_disc (width_of vds) buf). }
  split; [|split].
  - intros x buf. apply (type_encodes L).
  - intros x Hx Hb. pose proof (type_complete L x [] Hx) as Hc. rewrite app_nil_r in Hc.
    rewrite Hd, Hc by done. unfold decode_whole. cbn. by rewrite Z.eqb_refl.
  - intros buf Hb. rewrite Hd. pose proof (type_total L buf Hb).
    destruct (decode_type _ buf) as [[x c]| |] eqn:Hx; [|done..]. unfold decode_whole. cbn [mbind outcome_bind].
    destruct (Z.eqb_spec c (blen buf)) as [->|]; [|done]. cbn.
    pose proof (type_sound L _ _ _ Hx) as (?&?&_). split; [done|]. split; [done|].
    intros HC. rewrite <-(C HC _ _ _ Hx). apply firstn_all2. unfold blen. lia.
Qed.

(** C31: a derived payload root writes and reads its values: encoding appends the
    image of the value, and the image alone decodes back to it; decoding never
    panics and accepts a buffer only in full, for a value whose image is as
    long, and is the buffer when the types of the fields are canonical. *)
Theorem derived_schema_roundtrip (wf : ∀ f, field_carrier f → Prop)
    (image : ∀ f, field_carrier f → bytes) input R :
  expand_pardosa_schema input = Ok R → Forall (field_laws wf image) (input_fields input) →
  ∃ vds S, R = existT (enum_values vds) S ∧ input_data input = Data_Enum vds.*1 ∧
    well_declared (input_ident input) vds ∧
    let written := enum_image image (width_of vds) vds in
    (∀ x buf, enum_wf wf vds x → encode_payload S x buf = Ok (buf ++ written x)) ∧
    (∀ x, enum_wf wf vds x → blen (written x) ≤ isize_max →
       decode_payload S (written x) = Ok x) ∧
    (∀ buf, blen buf ≤ isize_max →
       match decode_payload S buf with
       | Ok x => enum_wf wf vds x ∧ blen (written x) = blen buf ∧
           (variants_canonical image vds → written x = buf)
       | Err _ => True
       | Panic => False
       end).
Proof.
  intros (v&vds&[Hi _ Hw _]&_&->)%expand_schema_Ok HL.
  apply (input_fields_variants _ _ vds Hi) in HL.
  exists vds, (root_schema v (input_ident input) vds). do 3 (split; [done|]).
  apply root_schema_laws; [by eapply well_declared_discs|done].
Qed.

(** ** Derived descriptors *)

Definition name_ok (name : bytes) : Prop :=
  name ≠ [] ∧ utf8_valid name = true ∧ blen name ≤ u32_max.

(** [node] nests at most [depth] levels, and is typed and complete. *)
Definition node_fits (depth : Z) (node : DescriptorNode) : Prop :=
  0 ≤ depth ∧ ∀ levels, depth < Z.of_nat levels →
    node_typed levels node ∧ encodable levels node ∧ complete_node levels node.

Lemma node_fits_S depth node :
  0 ≤ depth →
  (∀ l, depth ≤ Z.of_nat l →
     node_typed (S l) node ∧ encodable (S l) node ∧ complete_node (S l) node) →
  node_fits depth node.
Proof. intros Hd H. split; [done|]. intros [|l] Hl; [lia|]. apply H. lia. Qed.

Lemma node_fits_mono depth depth' node : depth ≤ depth' → node_fits depth node → node_fits depth' node.
Proof. intros Hd [? H]. split; [lia|]. intros l Hl. apply H. lia. Qed.

Definition described (f : Field) : Prop :=
  ∃ node, descriptor_node (field_impl f) = Ok node ∧ node_fits (TYPE_DEPTH (field_impl f)) node.

(** Identifiers of sources: not empty, and not as long as to need care. *)
Definition ident_ok (ident : bytes) : Prop :=
  ident ≠ [] ∧ utf8_valid ident = true ∧ blen ident ≤ 65535.
Definition fields_ok (fields : Fields) : Prop :=
  blen (fields_list fields) ≤ 65535 ∧
  match fields with
  | Fields_Named fs => Forall (λ f, ident_ok (field_ident f)) fs
  | _ => True
  end.

Lemma ident_ok_name ident : ident_ok ident → name_ok ident.
Proof. unfold ident_ok, name_ok, u32_max. intuition lia. Qed.

Lemma digit_ascii x : ∃ b, (∀ s, str (String (pretty_N_char x) s) = b :: str s) ∧ in_range 0 0x7F b = true.
Proof. destruct x as [|p]; [by eexists|]. do 4 (destruct p as [p|p|]; try by eexists). Qed.

Lemma pretty_digits x : ∀ s, utf8_valid (str s) = true →
  utf8_valid (str (pretty_N_go x s)) = true ∧ blen (str (pretty_N_go x s)) ≤ Z.of_N x + blen (str s).
Proof.
  induction (N.lt_wf_0 x) as [x _ IH]. intros s Hs. destruct (decide (x = 0)%N) as [->|Hx].
  - rewrite pretty_N_go_0. split; [done|lia].
  - rewrite pretty_N_go_step by lia. destruct (digit_ascii (x mod 10)%N) as (b&Hb&Ha).
    assert (x / 10 < x)%N by (apply N.div_lt; lia).
    destruct (IH (x / 10)%N ltac:(done) (String (pretty_N_char (x mod 10)) s)) as [Hu Hl].
    + by rewrite Hb, utf8_valid_ascii.
    + split; [done|]. rewrite Hb, blen_cons in Hl. lia.
Qed.

Lemma tuple_name_ok idx : Z.of_nat idx ≤ 65535 → name_ok (str (String.append "_" (pretty idx))).
Proof.
  intros Hi. change (str (String.append "_" (pretty idx))) with (x5f :: str (pretty idx)).
  assert (utf8_valid (str (pretty idx)) = true ∧ blen (str (pretty idx)) ≤ Z.of_nat idx + 1) as [Hu Hl].
  { unfold pretty, pretty_nat, pretty, pretty_N. case_decide; [change (blen (str "0")) with 1; split; [done|lia]|].
    destruct (pretty_digits (N.of_nat idx) "" eq_refl) as [? Hl]. split; [done|].
    change (blen (str "")) with 0 in Hl. lia. }
  unfold name_ok, u32_max. rewrite utf8_valid_ascii, blen_cons by done. repeat split; [done..|lia].
Qed.

Lemma fields_names_ok fields : fields_ok fields →
  Forall name_ok (fields_names fields) ∧ length (fields_names fields) = length (fields_list fields).
Proof.
  intros [Hl Hf]. destruct fields as [|fs|fs]; cbn in *; [by split|..].
  - rewrite Forall_fmap, length_fmap. split; [|done]. eapply Forall_impl; [exact Hf|].
    intros f. apply ident_ok_name.
  - rewrite length_imap. split; [|done]. apply Forall_lookup. intros i name.
    rewrite list_lookup_imap, fmap_Some. intros (f&Hi%lookup_lt_Some&->).
    apply tuple_name_ok. unfold blen in Hl. lia.
Qed.

Lemma field_descriptors_spec fs : ∀ names,
  length names = length fs → Forall described fs →
  ∃ fds, field_descriptors (zip names fs) = Ok fds ∧ fd_name <$> fds = names ∧
    Forall2 (λ f fd, node_fits (TYPE_DEPTH (field_impl f)) (fd_node fd)) fs fds.
Proof.
  induction fs as [|f fs IH]; intros [|name names] Hl Hd; try done; cbn in *.
  - by exists [].
  - apply Forall_cons in Hd as [(node&Hn&Hf) Hd]. destruct (IH names ltac:(lia) Hd) as (fds&Hfds&<-&H2).
    rewrite Hn. cbn. rewrite Hfds. exists (mk_FieldDescriptor name node :: fds). cbn. auto.
Qed.

Lemma struct_node_fits name fields depth :
  name_ok name → fields_ok fields → Forall described (fields_list fields) → 0 ≤ depth →
  Forall (λ f, TYPE_DEPTH (field_impl f) + 1 ≤ depth) (fields_list fields) →
  ∃ node, struct_node name fields = Ok node ∧ node_fits depth node.
Proof.
  intros Hname Hok Hd Hdepth Hds. destruct (fields_names_ok _ Hok) as [Hns Hl].
  destruct (field_descriptors_spec (fields_list fields) (fields_names fields) Hl Hd) as (fds&Hfds&Hnames&H2).
  unfold struct_node. rewrite Hfds. eexists. split; [done|]. apply node_fits_S; [done|]. intros l Hl'.
  assert (Forall (λ fd, name_ok (fd_name fd) ∧ node_typed l (fd_node fd) ∧
            encodable l (fd_node fd) ∧ complete_node l (fd_node fd)) fds) as HF.
  { apply Forall_and. split; [by rewrite <-Hnames, Forall_fmap in Hns|].
    apply Forall_lookup. intros i fd Hi. destruct (Forall2_lookup_r _ _ _ _ _ H2 Hi) as (f&Hf&[_ Hfit]).
    apply Hfit. rewrite Forall_lookup in Hds. specialize (Hds i f Hf). cbv beta in Hds. lia. }
  assert (blen fds ≤ u32_max).
  { destruct Hok as [Hlen _]. rewrite <-Hnames, length_fmap in Hl. unfold blen, u32_max in *. lia. }
  destruct Hname as (?&?&?). cbn [node_typed encodable complete_node].
  repeat split; try done; (eapply Forall_impl; [exact HF|]; unfold name_ok; tauto).
Qed.

(** A variant written with braces or parentheses around nothing has a payload
    of its own, one level below the enum. *)
Definition variant_levels (v : Variant) : list Z :=
  match variant_fields v with
  | Fields_Unit => []
  | _ => 1 :: variant_depths v
  end.
Definition variant_ok (v : Variant) : Prop := ident_ok (variant_ident v) ∧ fields_ok (variant_fields v).

Lemma variant_payload_fits enum_name v depth :
  ident_ok enum_name → variant_ok v → Forall described (fields_list (variant_fields v)) →
  0 ≤ depth → Forall (λ d, d ≤ depth) (variant_levels v) →
  ∃ p, variant_payload enum_name v = Ok p ∧
    match p with Some node => node_fits (depth - 1) node | None => True end.
Proof.
  intros (?&He&?) [(?&Hv&?) Hok] Hd Hdepth Hl.
  assert (name_ok (enum_name ++ str "_" ++ variant_ident v)) as Hn.
  { split; [by destruct enum_name|]. split.
    - rewrite utf8_valid_app by done. change (str "_" ++ variant_ident v) with (x5f :: variant_ident v).
      by rewrite utf8_valid_ascii.
    - change (str "_" ++ variant_ident v) with (x5f :: variant_ident v).
      rewrite blen_app, blen_cons. unfold u32_max. lia. }
  assert (∀ fields, fields = variant_fields v → overhead v = 2 → variant_levels v = 1 :: variant_depths v →
    ∃ p, (node ← struct_node (enum_name ++ str "_" ++ variant_ident v) fields; Ok (Some node)) = Ok p ∧
      match p with Some node => node_fits (depth - 1) node | None => True end) as Hstruct.
  { intros fields -> Ho Hvl. rewrite Hvl, Forall_cons in Hl. destruct Hl as [? Hl].
    destruct (struct_node_fits _ _ (depth - 1) Hn Hok Hd) as (node&->&Hf); [lia| |by exists (Some node)].
    unfold variant_depths in Hl. rewrite Ho, Forall_fmap in Hl.
    eapply Forall_impl; [exact Hl|]. cbn. intros. lia. }
  unfold variant_payload. unfold overhead, variant_levels in Hstruct.
  destruct (variant_fields v) as [|fs|[|f [|g fs]]] eqn:Hvf; [by exists None|by apply Hstruct..| |by apply Hstruct].
  cbn in Hd. apply Forall_singleton in Hd as (node&->&Hf). exists (Some node). split; [done|].
  unfold variant_levels, variant_depths, overhead in Hl. rewrite Hvf in Hl. cbn in Hl.
  rewrite !Forall_cons in Hl. eapply node_fits_mono; [|exact Hf]. lia.
Qed.

Lemma variant_descriptors_spec enum_name depth vds :
  ident_ok enum_name → 0 ≤ depth →
  Forall (λ vd, variant_ok vd.1 ∧ Forall described (vd_fields vd) ∧
            Forall (λ d, d ≤ depth) (variant_levels vd.1)) vds →
  ∃ ds, variant_descriptors enum_name vds = Ok ds ∧ vd_discriminant <$> ds = vds.*2 ∧
    Forall (λ d, name_ok (vd_name d) ∧
      match vd_payload d with Some node => node_fits (depth - 1) node | None => True end) ds.
Proof.
  intros He Hd. induction vds as [|[v disc] vds IH]; intros HF; cbn; [by exists []|].
  apply Forall_cons in HF as [(Hv&Hf&Hl) HF]. destruct (IH HF) as (ds&Hds&Hdisc&Hok).
  destruct (variant_payload_fits enum_name v depth He Hv Hf Hd Hl) as (p&Hp&Hfit).
  rewrite Hp, bind_of_Ok, Hds. eexists. split; [done|]. cbn. split; [by f_equal|].
  constructor; [|done]. split; [apply ident_ok_name, Hv|done].
Qed.

Lemma disc_max_width width : width = 1 ∨ width = 2 → disc_max (byte_of_Z width) = width_max width.
Proof. by intros [->| ->]. Qed.

Lemma discs_count vds : discs_ok vds → blen vds ≤ 65536.
Proof.
  intros [HN Hr]. assert (vds.*2 ⊆+ seqZ 0 65536) as Hs%submseteq_length.
  { apply NoDup_submseteq; [done|]. intros d Hd. apply elem_of_seqZ.
    rewrite Forall_forall in Hr. specialize (Hr d Hd). cbv beta in Hr. lia. }
  rewrite length_fmap, length_seqZ in Hs. unfold blen. lia.
Qed.

Lemma enum_node_fits ident vds depth :
  ident_ok ident → vds ≠ [] → discs_ok vds → 0 ≤ depth →
  Forall (λ vd, variant_ok vd.1 ∧ Forall described (vd_fields vd) ∧
            Forall (λ d, d ≤ depth) (variant_levels vd.1)) vds →
  ∃ node, enum_node ident vds = Ok node ∧ node_fits depth node.
Proof.
  intros Hi Hne Hok Hd HF.
  destruct (variant_descriptors_spec ident depth vds Hi Hd HF) as (ds&Hds&Hdisc&Hf).
  unfold enum_node. rewrite Hds, bind_of_Ok. eexists. split; [done|]. apply node_fits_S; [done|]. intros l Hl.
  assert (Forall (λ d, name_ok (vd_name d) ∧ 0 ≤ vd_discriminant d ≤ disc_max (byte_of_Z (width_of vds)) ∧
    match vd_payload d with
    | Some p => node_typed l p ∧ encodable l p ∧ complete_node l p | None => True end) ds) as HA.
  { apply Forall_forall. intros d Hin. rewrite Forall_forall in Hf. destruct (Hf d Hin) as [Hn Hp].
    split; [done|]. split.
    - pose proof (width_of_fits vds Hok) as Hw. rewrite <-Hdisc, Forall_fmap, Forall_forall in Hw.
      rewrite disc_max_width by apply width_of_cases. apply (Hw d Hin).
    - destruct (vd_payload d); [|done]. apply Hp. lia. }
  assert (blen ds ≤ u32_max).
  { assert (length ds = length vds) as Hlen by (rewrite <-(length_fmap vd_discriminant), Hdisc; apply length_fmap).
    pose proof (discs_count vds Hok). unfold blen, u32_max in *. lia. }
  assert (ds ≠ []) by (intros ->; by destruct vds).
  assert (is_u32 65535) by by vm_compute.
  destruct (ident_ok_name _ Hi) as (?&?&?). cbn [node_typed encodable complete_node].
  assert (byte_of_Z (width_of vds) = x01 ∨ byte_of_Z (width_of vds) = x02)
    by (destruct (width_of_cases vds) as [->| ->]; [by left|by right]).
  assert (disc_max (byte_of_Z (width_of vds)) ≤ 65535) by (unfold disc_max; case_bool_decide; lia).
  split; [|split].
  - split; [done|]. eapply Forall_impl; [exact HA|]. cbv beta. intros d (Hn&Hr&Hp). split; [unfold in_u; lia|].
    split; [apply Hn|]. destruct (vd_payload d); tauto.
  - split; [done|]. split; [done|]. eapply Forall_impl; [exact HA|]. cbv beta. intros d (Hn&Hr&Hp).
    split; [lia|]. split; [apply Hn|]. destruct (vd_payload d); tauto.
  - split; [done|]. split; [done|]. split; [rewrite Hdisc; apply Hok|].
    eapply Forall_impl; [exact HA|]. cbv beta. intros d (Hn&Hr&Hp). split; [apply Hn|]. split; [lia|].
    destruct (vd_payload d); tauto.
Qed.

Lemma max_depth_spec l : ∀ m, let d := foldl (λ m d, if m <? d then d else m) m l in
  m ≤ d ∧ Forall (λ x, x ≤ d) l.
Proof.
  induction l as [|a l IH]; intros m; cbn; [split; [lia|constructor]|].
  destruct (IH (if m <? a then a else m)) as [Hm Hl]. rewrite Forall_cons.
  destruct (Z.ltb_spec m a); repeat split; done || lia.
Qed.

Lemma const_depth_Ok {E} depths d :
  const_depth (E:=E) depths = Ok d →
  0 ≤ d ≤ MAX_DESCRIPTOR_DEPTH ∧ Forall (λ x, x ≤ d) depths.
Proof.
  unfold const_depth, max_depth. destruct (max_depth_spec depths 0) as [H0 Hl].
  destruct (Z.ltb_spec MAX_DESCRIPTOR_DEPTH (foldl (λ m d, if m <? d then d else m) 0 depths)); [done|].
  intros [= <-]. by repeat split.
Qed.

Definition names_ok (input : DeriveInput) : Prop :=
  ident_ok (input_ident input) ∧
  match input_data input with
  | Data_Struct fields => fields_ok fields
  | Data_Enum variants => Forall variant_ok variants
  | Data_Union => True
  end.
(** Not [V {}] and not [V()]. *)
Definition solid (v : Variant) : Prop :=
  variant_fields v = Fields_Unit ∨ fields_list (variant_fields v) ≠ [].

Lemma solid_levels v depth :
  solid v → Forall described (fields_list (variant_fields v)) →
  Forall (λ d, d ≤ depth) (variant_depths v) → Forall (λ d, d ≤ depth) (variant_levels v).
Proof.
  unfold solid, variant_levels. intros Hs Hd Hl. destruct (variant_fields v) eqn:Hv; [constructor|..].
  all: apply Forall_cons; split; [|done].
  all: destruct Hs as [?|Hs]; [done|]; unfold variant_depths, overhead in Hl; rewrite Hv in Hl.
  all: cbn in *; destruct named as [|f ?] || destruct unnamed as [|f ?]; [done|].
  all: apply Forall_cons in Hd as [(node&_&?&_) _]; cbn in Hl; apply Forall_cons in Hl as [? _].
  all: try (destruct unnamed); lia.
Qed.

(** Hollow ones among them, one level is enough for the empty structs. *)
Lemma hollow_levels v depth :
  Forall (λ d, d ≤ depth) (variant_depths v) → Forall (λ d, d ≤ Z.max 1 depth) (variant_levels v).
Proof.
  intros Hl. assert (Forall (λ d, d ≤ Z.max 1 depth) (variant_depths v)) as Hmax
    by (eapply Forall_impl; [exact Hl|]; cbn; lia).
  unfold variant_levels. destruct (variant_fields v); [constructor|..]; (constructor; [lia|done]).
Qed.

Lemma root_levels vds :
  depths_ok vds → Forall (λ vd, Forall (λ d, d ≤ MAX_DESCRIPTOR_DEPTH) (variant_levels vd.1)) vds.
Proof.
  intros H. eapply Forall_impl; [exact H|]. intros [v d] Hv. cbn [fst] in *.
  assert (Forall (λ d, d ≤ MAX_DESCRIPTOR_DEPTH) (variant_depths v)).
  { unfold variant_depths. rewrite Forall_fmap. eapply Forall_impl; [exact Hv|]. cbn. intros f ?. lia. }
  unfold variant_levels. destruct (variant_fields v); [constructor|..]; by constructor.
Qed.

Lemma derived_type_described input R :
  expand_pardosa_type input = Ok R → names_ok input → Forall described (input_fields input) →
  TYPE_DEPTH (projT2 R) ≤ MAX_DESCRIPTOR_DEPTH ∧
  ∃ node, descriptor_node (projT2 R) = Ok node ∧ node_fits (Z.max 1 (TYPE_DEPTH (projT2 R))) node ∧
    ((∀ variants, input_data input = Data_Enum variants → Forall solid variants) →
     node_fits (TYPE_DEPTH (projT2 R)) node).
Proof.
  unfold expand_pardosa_type, names_ok. intros H [Hi Hn] Hd.
  destruct (input_data input) as [fields|variants|] eqn:Hin; [| |done].
  - unfold input_fields in Hd. rewrite Hin in Hd. apply bind_Ok in H as (T&HT&[= <-]).
    apply expand_struct_Ok in HT as (depth&[Hr Hl]%const_depth_Ok&->). cbn [projT2 TYPE_DEPTH descriptor_node].
    unfold asserting_depth. rewrite (proj2 (Z.ltb_ge _ _)) by lia. split; [lia|].
    destruct (struct_node_fits (input_ident input) fields depth) as (node&Hnode&Hfit);
      [by apply ident_ok_name|done..|lia|by rewrite Forall_fmap in Hl|].
    exists node. split; [done|]. split; [|done]. eapply node_fits_mono; [|exact Hfit]. lia.
  - apply expand_enum_Ok in H as (vds&depth&Hne&Hvs&Hw&[Hr Hl]%const_depth_Ok&->).
    rewrite <-Hvs in Hn, Hin. rewrite Forall_fmap in Hn. apply (input_fields_variants _ _ vds Hin) in Hd.
    cbn [projT2 TYPE_DEPTH descriptor_node enum_type]. unfold asserting_depth.
    rewrite (proj2 (Z.ltb_ge _ _)) by lia. split; [lia|]. rewrite Forall_mjoin in Hl.
    assert (∀ l, 0 ≤ l → Forall (λ vd, Forall (λ d, d ≤ l) (variant_levels vd.1)) vds →
      ∃ node, enum_node (input_ident input) vds = Ok node ∧ node_fits l node) as Hfits.
    { intros l Hl0 Hlev. apply enum_node_fits; [done|by intros ->|by eapply well_declared_discs|done|].
      rewrite !Forall_forall in *. intros vd Hvd. split; [by apply Hn|]. split; [by apply Hd|by apply Hlev]. }
    destruct (Hfits (Z.max 1 depth)) as (node&Hnode&Hfit); [lia| |].
    { rewrite !Forall_forall in *. intros vd Hvd. by apply hollow_levels, Hl. }
    exists node. split; [done|]. split; [done|]. intros Hs. specialize (Hs _ eq_refl).
    rewrite <-Hvs, Forall_fmap in Hs. destruct (Hfits depth) as (node'&Hnode'&Hfit'); [lia| |congruence].
    rewrite !Forall_forall in *. intros vd Hvd. apply solid_levels; [by apply Hs|by apply Hd|by apply Hl].
Qed.

Section admitted.
Context `{Digests}.

(** C33: derived descriptors are admitted. That of a derived [PardosaType] is
    complete and nests no deeper than its [TYPE_DEPTH], which is at most sixteen,
    if the same holds for the types of the fields and no variant is written with
    braces or parentheses around nothing. With such variants it is complete and
    nests no deeper than the larger of [TYPE_DEPTH] and one: only an enum of depth
    0 understates, by one level; at a root it does no harm. The descriptor of a
    derived payload root is admitted, and the default identity of the schema is
    the admitted one, exactly when its record keeps to 64 KiB. *)
Theorem derived_descriptors_admitted input :
  names_ok input → Forall described (input_fields input) →
  (∀ R, expand_pardosa_type input = Ok R →
    TYPE_DEPTH (projT2 R) ≤ MAX_DESCRIPTOR_DEPTH ∧
    ∃ node, descriptor_node (projT2 R) = Ok node ∧ node_fits (Z.max 1 (TYPE_DEPTH (projT2 R))) node ∧
      ((∀ variants, input_data input = Data_Enum variants → Forall solid variants) →
       node_fits (TYPE_DEPTH (projT2 R)) node)) ∧
  (∀ R, expand_pardosa_schema input = Ok R →
    ∃ node, schema_descriptor_node (projT2 R) = Ok node ∧
      let v := SCHEMA_VERSION (projT2 R) in
      let d := mk_SchemaDescriptor v node in
      descriptor_typed d ∧
      if 1 + blen (descriptor_image d) <=? MAX_DESCRIPTOR_RECORD_BYTES
      then try_from_descriptor d = Ok (admitted_of d) ∧
           PardosaSchema_schema_identity v node = Ok (blake3 (descriptor_image d))
      else is_ok (try_from_descriptor d) = false ∧ PardosaSchema_schema_identity v node = Panic).
Proof.
  intros Hn Hd. split; [intros R HR; by apply derived_type_described|].
  intros R (v&vds&[Hi (_&_&lit&_&_&_&_&_&Hlit&Hv) Hw (marks&Hm&Ht)]&Hdep&->)%expand_schema_Ok.
  destruct Hn as [Hid Hn]. rewrite Hi in Hn. rewrite Forall_fmap in Hn.
  apply (input_fields_variants _ _ vds Hi) in Hd.
  destruct (enum_node_fits (input_ident input) vds MAX_DESCRIPTOR_DEPTH) as (node&Hnode&[_ Hfit]).
  { done. } { intros ->. apply Forall2_nil_inv_l in Hm as ->. by apply elem_of_nil in Ht. }
  { by eapply well_declared_discs. } { done. }
  { apply root_levels in Hdep. apply Forall_forall. intros vd Hvd.
    rewrite !Forall_forall in Hn, Hd, Hdep. repeat split; [apply Hn, Hvd..|by apply Hd|by apply Hdep]. }
  destruct (Hfit levels0) as (Hty&He&Hc); [by vm_compute|].
  exists node. split; [done|]. cbn [projT2 SCHEMA_VERSION root_schema]. cbv zeta.
  pose proof (base10_parse_range lit) as Hr. rewrite Hlit in Hr.
  split; [split; [unfold in_u, u32_max in *; cbn [version]; lia|done]|].
  unfold PardosaSchema_schema_identity.
  pose proof (try_from_descriptor_cases (mk_SchemaDescriptor v node)) as Hcs.
  destruct (Z.leb_spec (1 + blen (descriptor_image (mk_SchemaDescriptor v node))) MAX_DESCRIPTOR_RECORD_BYTES) as [Hle|Hgt].
  - assert (try_from_descriptor (mk_SchemaDescriptor v node) =
            Ok (admitted_of (mk_SchemaDescriptor v node))) as Hok.
    { apply try_from_descriptor_Ok. split; [done|]. by split. }
    split; [done|]. by rewrite Hok.
  - destruct (try_from_descriptor _); [|done..]. destruct Hcs as [(_&_&_&?) _]. lia.
Qed.
End admitted.
End derivations.

(** ** The payload types of the crate as fields *)

(** The families of [Typed.wf_of] and [Typed.image_of]. *)
Abbreviation wf_impl := (λ f : Field, wf_of (field_impl f)).
Abbreviation image_impl := (λ f : Field, image_of (field_impl f)).

Lemma code_field_laws ident ty c : field_laws wf_impl image_impl (code_field ident ty c).
Proof. apply (laws_of (proj1 (code_laws c))). Qed.

Lemma code_described c :
  Forall (λ MAX, 0 < MAX ≤ u32_max) (max_bounds c) →
  ∃ node, descriptor_node (code_type c) = Ok node ∧ node_fits (TYPE_DEPTH (code_type c)) node.
Proof.
  intros Hb. pose proof (code_describes c) as Hd.
  destruct (descriptor_node (code_type c)) as [node| |].
  - exists node. split; [done|]. destruct Hd as [_ [H0 Hd]]; [eapply Forall_impl; [exact Hb|]; cbn; lia|].
    split; [done|]. intros l Hl. destruct (Hd l) as (Ht&He&Hc&_).
    split; [done|]. split; [by apply He|]. apply Hc. split; [done|].
    eapply Forall_impl; [exact Hb|]. cbn. lia.
  - destruct Hd. eapply Forall_impl; [exact Hb|]. cbn. lia.
  - exfalso. assert (Exists (λ MAX, u32_max < MAX) (max_bounds c)) as He
      by (apply Hd; eapply Forall_impl; [exact Hb|]; cbn; lia).
    apply Exists_exists in He as (MAX&Hin&Hgt). rewrite Forall_forall in Hb.
    specialize (Hb MAX Hin). cbv beta in Hb. lia.
Qed.

Lemma code_field_described ident ty c :
  Forall (λ MAX, 0 < MAX ≤ u32_max) (max_bounds c) → described (code_field ident ty c).
Proof. apply code_described. Qed.

(** ** The properties at concrete inputs *)

Lemma sample_order_laws : Forall (field_laws wf_impl image_impl) (input_fields sample_order).
Proof. repeat (apply Forall_cons; split; [apply code_field_laws|]). constructor. Qed.

Lemma sample_order_described : Forall described (input_fields sample_order).
Proof. repeat (apply Forall_cons; split; [apply code_field_described; by repeat constructor|]). constructor. Qed.

Lemma sample_order_names : names_ok sample_order.
Proof. repeat first [split | constructor | done]. Qed.

Lemma derived_types_keep_contract_witness :
  @expand_pardosa_type toy_syn sample_order =
    Ok (existT (enum_values sample_rows) (enum_type (str "Order") 3 sample_rows)) ∧
  ∃ vds T, existT (enum_values sample_rows) (enum_type (str "Order") 3 sample_rows) =
      existT (enum_values vds) T ∧ type_laws T (enum_wf wf_impl vds) (enum_image image_impl (width_of vds) vds).
Proof.
  assert (@expand_pardosa_type toy_syn sample_order =
    Ok (existT (enum_values sample_rows) (enum_type (str "Order") 3 sample_rows))) as H by reflexivity.
  split; [exact H|].
  destruct (@derived_types_keep_contract toy_syn toy_syn_laws wf_impl image_impl sample_order _ H sample_order_laws)
    as (vds&T&_&_&HR&L&_).
  exists vds, T. exact (conj HR L).
Defined.

(** [Placed { id: 7, note: Some(5) }]. *)
Definition sample_placed : enum_values sample_rows := inr (inl (7, (Some 5, tt))).

Lemma derived_schema_roundtrip_witness :
  decode_payload (root_schema 3 (str "Order") sample_rows) [x01; x00; x07; x00; x00; x00; x01; x05] =
    Ok sample_placed ∧
  ∃ vds S, existT (enum_values sample_rows) (root_schema 3 (str "Order") sample_rows) =
      existT (enum_values vds) S ∧
    (∀ buf, blen buf ≤ isize_max → decode_payload S buf ≠ Panic).
Proof.
  assert (@expand_pardosa_schema toy_syn sample_order =
    Ok (existT (enum_values sample_rows) (root_schema 3 (str "Order") sample_rows))) as H by reflexivity.
  split; [reflexivity|].
  destruct (@derived_schema_roundtrip toy_syn toy_syn_laws wf_impl image_impl sample_order _ H sample_order_laws)
    as (vds&S&HR&_&_&_&_&Hd).
  exists vds, S. split; [exact HR|]. intros buf Hb Hp. specialize (Hd buf Hb). rewrite Hp in Hd. exact Hd.
Defined.

Lemma derived_descriptors_admitted_witness :
  ∃ node, enum_node (str "Order") sample_rows = Ok node ∧
    @PardosaSchema_schema_identity toy_digests 3 node =
      Ok (@blake3 toy_digests (descriptor_image (mk_SchemaDescriptor 3 node))).
Proof.
  destruct (@derived_descriptors_admitted toy_syn toy_syn_laws toy_digests sample_order sample_order_names sample_order_described)
    as [_ Hs].
  assert (@expand_pardosa_schema toy_syn sample_order =
    Ok (existT (enum_values sample_rows) (root_schema 3 (str "Order") sample_rows))) as H by reflexivity.
  destruct (Hs _ H) as (node&Hn&_&Hd). exists node. split; [exact Hn|].
  injection Hn as <-. apply Hd.
Defined.

(** ** A depth that is understated

    [TYPE_DEPTH] of an enum takes the depths of the fields: [enum Hollow { V {} =
    0 }] has none and counts as a leaf, though its descriptor has a [Struct] below
    the [Enum]. Fourteen options around it leave the generated assertions of a root
    satisfied, and its descriptor is refused. *)

Definition hollow : DeriveInput := mk_DeriveInput [] (str "Hollow")
  (Data_Enum [mk_Variant (str "V") [] (Fields_Named []) (Some (Expr_Lit_Int (str "0")))]).
Fixpoint options (n : nat) (T : { A & PardosaType A }) : { A & PardosaType A } :=
  match n with
  | O => T
  | S n => let T := options n T in existT (option (projT1 T)) (option_type (projT2 T))
  end.
Definition deep_root (T : { A & PardosaType A }) : DeriveInput := mk_DeriveInput
  [mk_Attribute (str "pardosa") (Some [mk_Meta (str "version") (Tail_int (str "1"))])] (str "Deep")
  (Data_Enum [
    mk_Variant (str "Gone") [mk_Attribute (str "pardosa") (Some [mk_Meta (str "tombstone") Tail_none])]
      Fields_Unit (Some (Expr_Lit_Int (str "0")));
    mk_Variant (str "Held") []
      (Fields_Named [mk_Field (str "inner") (type_path "Inner" []) (projT1 T) (projT2 T)])
      (Some (Expr_Lit_Int (str "1")))]).

Lemma understated_depth_refused :
  match @expand_pardosa_type toy_syn hollow with
  | Ok T =>
      TYPE_DEPTH (projT2 T) = 0 ∧
      match @expand_pardosa_schema toy_syn (deep_root (options 14 T)) with
      | Ok R =>
          match schema_descriptor_node (projT2 R) with
          | Ok node => is_ok (@try_from_descriptor toy_digests (mk_SchemaDescriptor 1 node)) = false
          | _ => False
          end
      | _ => False
      end
  | _ => False
  end.
Proof. by vm_compute. Qed.
