(* ===== verification/Ownership.v ===== *)
(** * Ownership and admission: [src/crates/pardosa/src/store.rs], from
    [OwnershipStatus] to [admit_precursor_link]

    What an opened artefact reports about itself ([QualifiedOpenResult] and its
    builder), the epoch fence and the compare-and-set on ownership claims, the
    ordered creation protocol and its resumption, strict create and open, and
    the admission of events and of precursor links. The adapters persist the
    records; here are the decisions. *)

From stdpp Require Import sorting.
From S2P Require Export Records Fiber Schema.

(** ** What an open reports *)

Inductive OwnershipStatus :=
  | OwnershipStatus_Owned (epoch : Z)
  | OwnershipStatus_Unowned.
Inductive GenerationKnowledge :=
  | GenerationKnowledge_Known (generation : Z)
  | GenerationKnowledge_Unknown.
Inductive SupersessionStatus :=
  | SupersessionStatus_Current
  | SupersessionStatus_Superseded (next_generation : option Z)
  | SupersessionStatus_Unknown.
Inductive MigrationDisagreement :=
  | MigrationDisagreement_None
  | MigrationDisagreement_OutboundWithoutInbound
  | MigrationDisagreement_InboundWithoutOutbound.
Inductive HistoryIntegrity :=
  | HistoryIntegrity_Unanchored
  | HistoryIntegrity_Anchored.
Inductive MigrationCompleteness :=
  | MigrationCompleteness_KnownComplete
  | MigrationCompleteness_KnownIncomplete
  | MigrationCompleteness_Unknown.
Inductive AppendAuthority :=
  | AppendAuthority_HoldsAuthority
  | AppendAuthority_HeldByGeneration (generation : Z)
  | AppendAuthority_Unknown.

Record QualifiedOpenResult := mk_QualifiedOpenResult {
  ownership : OwnershipStatus;
  generation : GenerationKnowledge;
  supersession : SupersessionStatus;
  migration_disagreement : MigrationDisagreement;
  history_integrity : HistoryIntegrity;
  migration_completeness : MigrationCompleteness;
  append_authority : AppendAuthority;
}.

(** The builder has the same seven fields. *)
Record QualifiedOpenResultBuilder := mk_QualifiedOpenResultBuilder {
  b_ownership : OwnershipStatus;
  b_generation : GenerationKnowledge;
  b_supersession : SupersessionStatus;
  b_migration_disagreement : MigrationDisagreement;
  b_history_integrity : HistoryIntegrity;
  b_migration_completeness : MigrationCompleteness;
  b_append_authority : AppendAuthority;
}.

Definition orphan_read : QualifiedOpenResult :=
  mk_QualifiedOpenResult OwnershipStatus_Unowned GenerationKnowledge_Unknown
    SupersessionStatus_Unknown MigrationDisagreement_None HistoryIntegrity_Unanchored
    MigrationCompleteness_Unknown AppendAuthority_Unknown.

Definition QualifiedOpenResultBuilder_new : QualifiedOpenResultBuilder :=
  mk_QualifiedOpenResultBuilder OwnershipStatus_Unowned GenerationKnowledge_Unknown
    SupersessionStatus_Unknown MigrationDisagreement_None HistoryIntegrity_Unanchored
    MigrationCompleteness_Unknown AppendAuthority_Unknown.

Definition with_ownership x b :=
  let 'mk_QualifiedOpenResultBuilder _ g s d h c a := b in
  mk_QualifiedOpenResultBuilder x g s d h c a.
Definition with_generation x b :=
  let 'mk_QualifiedOpenResultBuilder o _ s d h c a := b in
  mk_QualifiedOpenResultBuilder o x s d h c a.
Definition with_supersession x b :=
  let 'mk_QualifiedOpenResultBuilder o g _ d h c a := b in
  mk_QualifiedOpenResultBuilder o g x d h c a.
Definition with_migration_disagreement x b :=
  let 'mk_QualifiedOpenResultBuilder o g s _ h c a := b in
  mk_QualifiedOpenResultBuilder o g s x h c a.
Definition with_history_integrity x b :=
  let 'mk_QualifiedOpenResultBuilder o g s d _ c a := b in
  mk_QualifiedOpenResultBuilder o g s d x c a.
Definition with_migration_completeness x b :=
  let 'mk_QualifiedOpenResultBuilder o g s d h _ a := b in
  mk_QualifiedOpenResultBuilder o g s d h x a.
Definition with_append_authority x b :=
  let 'mk_QualifiedOpenResultBuilder o g s d h c _ := b in
  mk_QualifiedOpenResultBuilder o g s d h c x.

Definition build (b : QualifiedOpenResultBuilder) :
    outcome IllegalOpenCombination QualifiedOpenResult :=
  match b_ownership b, b_generation b, b_supersession b, b_append_authority b with
  | OwnershipStatus_Unowned, GenerationKnowledge_Known _, _, _ =>
      Err IllegalOpenCombination_UnownedMustHaveUnknownGeneration
  | _, GenerationKnowledge_Unknown, SupersessionStatus_Current, _ =>
      Err IllegalOpenCombination_UnknownGenerationCannotBeCurrent
  | OwnershipStatus_Unowned, _, _, AppendAuthority_HoldsAuthority =>
      Err IllegalOpenCombination_UnownedCannotHoldAppendAuthority
  | _, _, _, _ =>
      Ok (mk_QualifiedOpenResult (b_ownership b) (b_generation b) (b_supersession b)
            (b_migration_disagreement b) (b_history_integrity b)
            (b_migration_completeness b) (b_append_authority b))
  end.

(** ** Fencing, claims and takeover *)

Inductive RecordedOwnership :=
  | RecordedOwnership_Claimed (claim : OwnershipClaimRecord)
  | RecordedOwnership_Unowned
  | RecordedOwnership_Unreadable
  | RecordedOwnership_Absent.

Definition fence_write (carried_epoch : Z) (recorded : RecordedOwnership) :
    outcome OperationFailure () :=
  match recorded with
  | RecordedOwnership_Unreadable => fail FailureCondition_OwnershipRecordUnreadable
  | RecordedOwnership_Absent => fail FailureCondition_OwnershipUnestablished
  | RecordedOwnership_Unowned => fail FailureCondition_OwnershipUnestablished
  | RecordedOwnership_Claimed claim =>
      if carried_epoch =? epoch claim then Ok () else fail FailureCondition_StaleEpoch
  end.

Definition evaluate_owner_liveness (death_proof : option DeathProof) : LivenessVerdict :=
  match death_proof with
  | Some proof => LivenessVerdict_ProvenDead proof
  | None => LivenessVerdict_Indeterminate
  end.

Definition evaluate_claim_cas (current_recorded : RecordedOwnership)
    (expected_epoch : option Z) (candidate_claim : OwnershipClaimRecord) :
    outcome OperationFailure Z :=
  match current_recorded with
  | RecordedOwnership_Unreadable => fail FailureCondition_OwnershipRecordUnreadable
  | RecordedOwnership_Absent => fail FailureCondition_OwnershipUnestablished
  | RecordedOwnership_Unowned =>
      if bool_decide (expected_epoch = None) then Ok (epoch candidate_claim)
      else fail FailureCondition_ConcurrencyConflict
  | RecordedOwnership_Claimed existing =>
      if bool_decide (Some (epoch existing) = expected_epoch) &&
         (epoch existing <? epoch candidate_claim)
      then Ok (epoch candidate_claim)
      else fail FailureCondition_ConcurrencyConflict
  end.

Definition validate_name_pairing (ownership_record_name event_data_name : bytes) :
    outcome OperationFailure () :=
  if bool_decide (ownership_record_name = event_data_name) then Ok ()
  else fail FailureCondition_ArtefactMismatch.

Inductive TakeoverProof :=
  | TakeoverProof_CleanRelease (clean : CleanReleaseProof)
  | TakeoverProof_Death (proof : DeathProof).
Inductive TakeoverVerdict :=
  | TakeoverVerdict_Proven
  | TakeoverVerdict_Indeterminate.

Definition evaluate_takeover (current_claim : OwnershipClaimRecord)
    (proof : option TakeoverProof) : TakeoverVerdict :=
  match proof with
  | Some (TakeoverProof_CleanRelease clean) =>
      if epoch current_claim <=? clean_epoch clean then TakeoverVerdict_Proven
      else TakeoverVerdict_Indeterminate
  | Some (TakeoverProof_Death _) => TakeoverVerdict_Proven
  | None => TakeoverVerdict_Indeterminate
  end.

(** ** Creation and opening *)

Inductive ArtefactPresence :=
  | ArtefactPresence_None
  | ArtefactPresence_OwnershipRecordOnly
  | ArtefactPresence_EventDataOnly
  | ArtefactPresence_Both.

Definition admit_create (presence : ArtefactPresence) : outcome OperationFailure () :=
  match presence with
  | ArtefactPresence_None => Ok ()
  | ArtefactPresence_Both
  | ArtefactPresence_OwnershipRecordOnly
  | ArtefactPresence_EventDataOnly => fail FailureCondition_StoreAlreadyExists
  end.

Inductive IncompleteCreationState :=
  | IncompleteCreationState_Unseeded
  | IncompleteCreationState_Claimed (claim : OwnershipClaimRecord).
Inductive CreationProgression :=
  | CreationProgression_UnseededOwnershipRecordCreated
  | CreationProgression_OwnershipClaimSeeded (claim : OwnershipClaimRecord)
  | CreationProgression_Complete.

Definition CreationProgression_presence (p : CreationProgression) : ArtefactPresence :=
  match p with
  | CreationProgression_UnseededOwnershipRecordCreated
  | CreationProgression_OwnershipClaimSeeded _ => ArtefactPresence_OwnershipRecordOnly
  | CreationProgression_Complete => ArtefactPresence_Both
  end.

(** [impl From<IncompleteCreationState> for CreationProgression]. *)
Definition CreationProgression_from (state : IncompleteCreationState) : CreationProgression :=
  match state with
  | IncompleteCreationState_Unseeded => CreationProgression_UnseededOwnershipRecordCreated
  | IncompleteCreationState_Claimed claim => CreationProgression_OwnershipClaimSeeded claim
  end.

Definition CreationPlan_begin (presence : ArtefactPresence) :
    outcome OperationFailure CreationProgression :=
  _ ← admit_create presence;
  Ok CreationProgression_UnseededOwnershipRecordCreated.

Definition seed_claim (progression : CreationProgression) (claim : OwnershipClaimRecord) :
    outcome OperationFailure CreationProgression :=
  match progression with
  | CreationProgression_UnseededOwnershipRecordCreated =>
      Ok (CreationProgression_OwnershipClaimSeeded claim)
  | CreationProgression_OwnershipClaimSeeded _ | CreationProgression_Complete =>
      fail FailureCondition_ConcurrencyConflict
  end.

Definition complete_event_data (progression : CreationProgression) :
    outcome OperationFailure CreationProgression :=
  match progression with
  | CreationProgression_OwnershipClaimSeeded _ => Ok CreationProgression_Complete
  | CreationProgression_UnseededOwnershipRecordCreated =>
      fail FailureCondition_OwnershipUnestablished
  | CreationProgression_Complete => fail FailureCondition_StoreAlreadyExists
  end.

Definition resume_incomplete_creation (presence : ArtefactPresence)
    (claim : option OwnershipClaimRecord) : outcome OperationFailure IncompleteCreationState :=
  match presence with
  | ArtefactPresence_OwnershipRecordOnly =>
      match claim with
      | Some claim => Ok (IncompleteCreationState_Claimed claim)
      | None => Ok IncompleteCreationState_Unseeded
      end
  | ArtefactPresence_None => fail FailureCondition_NoArtefactExists
  | ArtefactPresence_Both => fail FailureCondition_StoreAlreadyExists
  | ArtefactPresence_EventDataOnly => fail FailureCondition_OwnershipUnestablished
  end.

Inductive OpenAdmission :=
  | OpenAdmission_Ready
  | OpenAdmission_IncompleteCreation (state : IncompleteCreationState)
  | OpenAdmission_ReadOnlyOrphan.

Definition admit_open (presence : ArtefactPresence) (claim : option OwnershipClaimRecord)
    (write_intent : bool) : outcome OperationFailure OpenAdmission :=
  match presence with
  | ArtefactPresence_None => fail FailureCondition_NoArtefactExists
  | ArtefactPresence_EventDataOnly =>
      if write_intent then fail FailureCondition_OwnershipUnestablished
      else Ok OpenAdmission_ReadOnlyOrphan
  | ArtefactPresence_OwnershipRecordOnly =>
      let state :=
        match claim with
        | Some claim => IncompleteCreationState_Claimed claim
        | None => IncompleteCreationState_Unseeded
        end in
      Ok (OpenAdmission_IncompleteCreation state)
  | ArtefactPresence_Both => Ok OpenAdmission_Ready
  end.

(** ** Events *)

Inductive EventAdmission :=
  | EventAdmission_Event (descriptor : option SchemaDescriptor)
      (expected_schema actual_schema expected_envelope actual_envelope : bytes)
  | EventAdmission_RecordReaderOnly (descriptor : option SchemaDescriptor)
      (expected_envelope actual_envelope : bytes)
  | EventAdmission_MismatchUndeterminedSubject (detail : bytes).

Definition admit_event (admission : EventAdmission) : outcome OperationFailure () :=
  match admission with
  | EventAdmission_Event descriptor expected_schema actual_schema
      expected_envelope actual_envelope =>
      match descriptor with None => fail FailureCondition_MissingSchemaDescriptor | Some _ =>
      if bool_decide (expected_envelope ≠ actual_envelope)
      then fail FailureCondition_EnvelopeMismatch else
      if bool_decide (expected_schema ≠ actual_schema)
      then fail FailureCondition_SchemaMismatch else
      Ok ()
      end
  | EventAdmission_RecordReaderOnly descriptor expected_envelope actual_envelope =>
      match descriptor with None => fail FailureCondition_MissingSchemaDescriptor | Some _ =>
      if bool_decide (expected_envelope ≠ actual_envelope)
      then fail FailureCondition_EnvelopeMismatch else
      Ok ()
      end
  | EventAdmission_MismatchUndeterminedSubject _ =>
      fail FailureCondition_MismatchUndeterminedSubject
  end.

Record PrecursorLink := mk_PrecursorLink {
  link_envelope : EventEnvelope;
  is_genesis : bool;
}.

Definition classify (envelope : EventEnvelope) : outcome OperationFailure PrecursorLink :=
  let is_zero_precursor := bool_decide (precursor (header envelope) = zero16) in
  let is_zero_hash := bool_decide (precursor_hash (header envelope) = zero32) in
  if is_zero_precursor then
    if is_zero_hash then Ok (mk_PrecursorLink envelope true) else fail broken
  else Ok (mk_PrecursorLink envelope false).

Section admit_link.
Context `{Digests}.

Definition admit_precursor_link (expected_fiber_id : bytes) (link : PrecursorLink)
    (resolve_predecessor : bytes → option EventEnvelope) : outcome OperationFailure () :=
  let h := header (link_envelope link) in
  if bool_decide (fiber_id h ≠ expected_fiber_id)
  then fail (broken_by CausalChainError_PrecursorWrongFiber) else
  if is_genesis link then Ok () else
  let requested_precursor_id := precursor h in
  match resolve_predecessor requested_precursor_id with
  | None => fail (broken_by CausalChainError_PrecursorOutOfRange)
  | Some predecessor =>
      if bool_decide (event_id (header predecessor) ≠ requested_precursor_id)
      then fail (broken_by CausalChainError_PrecursorOutOfRange) else
      if bool_decide (fiber_id (header predecessor) ≠ expected_fiber_id)
      then fail (broken_by CausalChainError_PrecursorWrongFiber) else
      let computed_hash :=
        compute_envelope_commitment (header predecessor) (payload predecessor) in
      if bool_decide (precursor_hash h ≠ computed_hash) then fail broken else
      Ok ()
  end.
End admit_link.

(** ** Specifications *)

(** The combinations of facts that C6.8, C6.14 and C6.15 allow. *)
Definition legal (b : QualifiedOpenResultBuilder) : Prop :=
  (b_ownership b = OwnershipStatus_Unowned →
     b_generation b = GenerationKnowledge_Unknown ∧
     b_append_authority b ≠ AppendAuthority_HoldsAuthority) ∧
  (b_generation b = GenerationKnowledge_Unknown →
     b_supersession b ≠ SupersessionStatus_Current).
Definition facts_of (q : QualifiedOpenResult) : QualifiedOpenResultBuilder :=
  mk_QualifiedOpenResultBuilder (ownership q) (generation q) (supersession q)
    (migration_disagreement q) (history_integrity q) (migration_completeness q)
    (append_authority q).

(** A history of claim attempts on one record, each an expected epoch and a
    candidate: an accepted candidate becomes the recorded claim. The wins are
    listed in order with the expectation and the epoch of each. *)
Fixpoint run_claims (r : RecordedOwnership)
    (attempts : list (option Z * OwnershipClaimRecord)) :
    RecordedOwnership * list (option Z * Z) :=
  match attempts with
  | [] => (r, [])
  | (x, c) :: rest =>
      match evaluate_claim_cas r x c with
      | Ok e =>
          let '(r', wins) := run_claims (RecordedOwnership_Claimed c) rest in
          (r', (x, e) :: wins)
      | _ => run_claims r rest
      end
  end.

(** The claim in force. *)
Definition recorded_epoch (r : RecordedOwnership) : option Z :=
  match r with RecordedOwnership_Claimed c => Some (epoch c) | _ => None end.

Lemma cas_Ok r x c e :
  evaluate_claim_cas r x c = Ok e ↔
    e = epoch c ∧ x = recorded_epoch r ∧
    match r with
    | RecordedOwnership_Claimed c0 => epoch c0 < epoch c
    | RecordedOwnership_Unowned => True
    | _ => False
    end.
Proof.
  destruct r as [c0| | |]; simpl.
  - case_bool_decide; simpl; [|naive_solver]. destruct (_ <? _) eqn:?; simpl; split.
    + intros [= <-]. split; [done|]. split; [done|lia].
    + by intros (->&_).
    + done.
    + intros (_&_&?). lia.
  - case_bool_decide; naive_solver.
  - naive_solver.
  - naive_solver.
Qed.

Lemma cas_no_panic r x c : evaluate_claim_cas r x c ≠ Panic.
Proof. destruct r; simpl; repeat case_match; done. Qed.

Lemma last_cons_default {A} (d x : A) l : default d (last (x :: l)) = default x (last l).
Proof.
  rewrite last_cons. by destruct (last l).
Qed.

(** What the wins satisfy from a claimed record on. *)
Record wins_above (e0 : Z) (wins : list (option Z * Z)) : Prop := {
  wa_sorted : StronglySorted Z.lt wins.*2;
  wa_above : Forall (λ e, e0 < e) wins.*2;
  wa_expected : NoDup wins.*1;
  wa_expected_above : Forall (λ x, ∃ e, x = Some e ∧ e0 ≤ e) wins.*1;
}.

Lemma run_claims_claimed c0 attempts r wins :
  run_claims (RecordedOwnership_Claimed c0) attempts = (r, wins) →
  wins_above (epoch c0) wins ∧
  ∃ c, r = RecordedOwnership_Claimed c ∧ epoch c = default (epoch c0) (last wins.*2).
Proof.
  revert c0 wins. induction attempts as [|[x c] rest IH]; intros c0 wins; cbn [run_claims].
  { intros [= <- <-]. split; [split; constructor|]. by exists c0. }
  destruct (evaluate_claim_cas (RecordedOwnership_Claimed c0) x c) as [e|e|] eqn:Hc;
    [|apply IH..].
  apply cas_Ok in Hc as (->&->&Hlt). simpl.
  destruct (run_claims _ rest) as [r' w] eqn:Hr. intros [= <- <-].
  apply IH in Hr as [[Hs Ha Hn Hx] (c1&->&Hl)]. split.
  - split; csimpl.
    + by constructor.
    + constructor; [done|]. eapply Forall_impl; [exact Ha|]. simpl. lia.
    + constructor; [|done]. intros Hin.
      rewrite Forall_forall in Hx. apply Hx in Hin as (e&[= <-]&?). lia.
    + constructor; [exists (epoch c0); split; [done|lia]|].
      eapply Forall_impl; [exact Hx|]. intros ? (e&->&?). exists e. split; [done|lia].
  - exists c1. split; [done|]. rewrite Hl. csimpl. by rewrite last_cons_default.
Qed.

Inductive creation_op :=
  | SeedClaim (claim : OwnershipClaimRecord)
  | CompleteEventData.
Definition run_creation_op (p : CreationProgression) (op : creation_op) :
    outcome OperationFailure CreationProgression :=
  match op with
  | SeedClaim c => seed_claim p c
  | CompleteEventData => complete_event_data p
  end.
Fixpoint run_creation_ops (p : CreationProgression) (ops : list creation_op) :
    outcome OperationFailure CreationProgression :=
  match ops with
  | [] => Ok p
  | op :: ops => p' ← run_creation_op p op; run_creation_ops p' ops
  end.
Definition run_creation (presence : ArtefactPresence) (ops : list creation_op) :
    outcome OperationFailure CreationProgression :=
  p ← CreationPlan_begin presence; run_creation_ops p ops.

(** The claim that a crash at this step leaves in the ownership record. *)
Definition claim_on_disk (p : CreationProgression) (opened : option OwnershipClaimRecord) :
    option OwnershipClaimRecord :=
  match p with
  | CreationProgression_UnseededOwnershipRecordCreated => None
  | CreationProgression_OwnershipClaimSeeded c => Some c
  | CreationProgression_Complete => opened
  end.

Section link_spec.
Context `{Digests}.

(** What [admit_precursor_link] is meant to establish of an envelope. *)
Definition link_admissible (fid : bytes) (resolve : bytes → option EventEnvelope)
    (env : EventEnvelope) : Prop :=
  fiber_id (header env) = fid ∧
  ((precursor (header env) = zero16 ∧ precursor_hash (header env) = zero32) ∨
   (precursor (header env) ≠ zero16 ∧
    ∃ p, resolve (precursor (header env)) = Some p ∧
      event_id (header p) = precursor (header env) ∧ fiber_id (header p) = fid ∧
      precursor_hash (header env) = EventEnvelope_commitment p)).

(** The admission of one envelope, as a caller composes it. *)
Definition admit_envelope (fid : bytes) (resolve : bytes → option EventEnvelope)
    (env : EventEnvelope) : outcome OperationFailure () :=
  link ← classify env; admit_precursor_link fid link resolve.

(** A resolver over a history. *)
Definition resolve_in (es : list EventEnvelope) (id : bytes) : option EventEnvelope :=
  snd <$> list_find (λ e, event_id (header e) = id) es.

Lemma resolve_in_unique es i e :
  NoDup (event_ids es) → es !! i = Some e → resolve_in es (event_id (header e)) = Some e.
Proof.
  intros Hnd Hi. unfold resolve_in.
  assert (list_find (λ e', event_id (header e') = event_id (header e)) es = Some (i, e))
    as ->; [|done].
  apply list_find_Some. split; [done|]. split; [done|]. intros j y Hj Hlt Hy.
  assert (j = i); [|lia].
  eapply NoDup_lookup; [exact Hnd|..]; unfold event_ids; rewrite list_lookup_fmap.
  - rewrite Hj. simpl. by rewrite Hy.
  - by rewrite Hi.
Qed.

Lemma admit_envelope_iff fid resolve env :
  admit_envelope fid resolve env = Ok () ↔ link_admissible fid resolve env.
Proof.
  unfold admit_envelope, classify, link_admissible.
  case_bool_decide as Hp; [case_bool_decide as Hh|]; simpl.
  - unfold admit_precursor_link. simpl. case_bool_decide; naive_solver.
  - naive_solver.
  - unfold admit_precursor_link. simpl. case_bool_decide; [naive_solver|].
    destruct (resolve _) as [p|]; [|naive_solver].
    do 3 (case_bool_decide; [naive_solver|]). naive_solver.
Qed.
End link_spec.

(** ** Properties *)

(** C20: Claims on one ownership record serialise. Whatever sequence of claim
    attempts is made from whatever record, the winning epochs strictly increase
    and each expected epoch wins at most once (of two claimants that read the
    same record one loses, with a conflict); afterwards the epoch of the last
    winner, and that epoch only, passes the write fence, every other carried
    epoch being reported stale; without a winner the record is unchanged. *)
Theorem claims_serialise r0 attempts :
  let '(r, wins) := run_claims r0 attempts in
  StronglySorted Z.lt wins.*2 ∧ NoDup wins.*1 ∧
  match last wins.*2 with
  | None => r = r0
  | Some e => ∀ carried, fence_write carried r =
      if carried =? e then Ok () else fail FailureCondition_StaleEpoch
  end.
Proof.
  induction attempts as [|[x c] rest IH]; cbn [run_claims]; [repeat split; constructor|].
  destruct (evaluate_claim_cas r0 x c) as [e| |] eqn:Hc; [|exact IH..]. clear IH.
  apply cas_Ok in Hc as (->&->&Hr). destruct (run_claims _ rest) as [r wins] eqn:Hrun.
  apply run_claims_claimed in Hrun as [[Hs Ha Hn Hx] (c1&->&Hl)]. csimpl. split; [|split].
  - by constructor.
  - constructor; [|done]. rewrite Forall_forall in Hx. intros Hin.
    apply Hx in Hin as (e&He&?). destruct r0 as [c0| | |]; try done.
    injection He as <-. lia.
  - replace (last (epoch c :: wins.*2)) with (Some (epoch c1)); [done|].
    rewrite Hl, last_cons. by destruct (last wins.*2).
Qed.

(** Creation follows its order and no other: from the components found in
    storage, a sequence of creation steps succeeds exactly when nothing was
    there and the steps are a prefix of seeding the claim and then creating the
    event data; event data never precede an established claim, and a second
    seeding or completion is refused. *)
Theorem creation_order presence ops p :
  run_creation presence ops = Ok p ↔
    presence = ArtefactPresence_None ∧
    match p with
    | CreationProgression_UnseededOwnershipRecordCreated => ops = []
    | CreationProgression_OwnershipClaimSeeded c => ops = [SeedClaim c]
    | CreationProgression_Complete => ∃ c, ops = [SeedClaim c; CompleteEventData]
    end.
Proof.
  unfold run_creation, CreationPlan_begin. split.
  - destruct presence; simpl; [|done..]. intros H. split; [done|].
    destruct ops as [|[c|] [|[c'|] [|[c''|] ops]]]; simpl in H; naive_solver.
  - intros [-> Hp]. destruct p; naive_solver.
Qed.

(** A creation interrupted after any of its steps resumes where it
    stopped. From the components and the claim that the step left in storage,
    resumption rebuilds the same progression and an open (for reading or for
    writing) reports the same incomplete state, until creation is complete;
    then an open is ready and both resuming and creating again are refused. *)
Theorem creation_resumes p opened write_intent :
  let presence := CreationProgression_presence p in
  let claim := claim_on_disk p opened in
  admit_create presence = fail FailureCondition_StoreAlreadyExists ∧
  match resume_incomplete_creation presence claim with
  | Ok st => p ≠ CreationProgression_Complete ∧ CreationProgression_from st = p ∧
      admit_open presence claim write_intent = Ok (OpenAdmission_IncompleteCreation st)
  | Err f => p = CreationProgression_Complete ∧
      condition f = FailureCondition_StoreAlreadyExists ∧
      admit_open presence claim write_intent = Ok OpenAdmission_Ready
  | Panic => False
  end.
Proof. by destruct p. Qed.

(** The builder of an open report accepts exactly the legal combinations
    of facts (an unowned artefact has an unknown generation and no append
    authority; an unknown generation is not current), keeps all seven facts of
    the one it accepts, and names the rule broken by the one it refuses; and
    every legal combination can be assembled by the setters from [new]. *)
Theorem qualified_build_exact b :
  match build b with
  | Ok q => legal b ∧ facts_of q = b ∧
      build (with_append_authority (append_authority q)
        (with_migration_completeness (migration_completeness q)
        (with_history_integrity (history_integrity q)
        (with_migration_disagreement (migration_disagreement q)
        (with_supersession (supersession q)
        (with_generation (generation q)
        (with_ownership (ownership q) QualifiedOpenResultBuilder_new))))))) = Ok q
  | Err IllegalOpenCombination_UnownedMustHaveUnknownGeneration =>
      b_ownership b = OwnershipStatus_Unowned ∧ b_generation b ≠ GenerationKnowledge_Unknown
  | Err IllegalOpenCombination_UnknownGenerationCannotBeCurrent =>
      b_generation b = GenerationKnowledge_Unknown ∧
      b_supersession b = SupersessionStatus_Current
  | Err IllegalOpenCombination_UnownedCannotHoldAppendAuthority =>
      b_ownership b = OwnershipStatus_Unowned ∧
      b_append_authority b = AppendAuthority_HoldsAuthority
  | _ => False
  end.
Proof. unfold legal. destruct b as [[] [] [] ? ? ? []]; simpl; solve_wf; naive_solver. Qed.

(** Every branch of a link admission. *)
Ltac unfold_admission :=
  unfold admit_envelope, classify, admit_precursor_link, fail;
  repeat (case_match; simpl; try done).

Section link_properties.
Context `{Digests}.

(** Precursor admission decides causal integrity: an envelope passes
    classification and link admission exactly when it belongs to the fiber
    and either is a genesis with zero precursor and zero commitment, or names
    a resolvable predecessor with that event identifier, in the same fiber,
    whose commitment it carries; every refusal reports a broken precursor
    chain. *)
Theorem precursor_admission_exact fid resolve env :
  match admit_envelope fid resolve env with
  | Ok _ => link_admissible fid resolve env
  | Err f => ¬ link_admissible fid resolve env ∧
      ∃ cause, condition f = FailureCondition_PrecursorChainBroken cause
  | Panic => False
  end.
Proof.
  pose proof (admit_envelope_iff fid resolve env) as Hiff.
  destruct (admit_envelope fid resolve env) as [[]|f|] eqn:Ha.
  - by apply Hiff.
  - split; [by rewrite <-Hiff|]. revert Ha. unfold_admission.
    all: intros [= <-]; by eexists.
  - revert Ha. by unfold_admission.
Qed.

(** The fiber handle and the link validator agree: in every history the
    handle can have produced, each envelope is admitted when its predecessor
    is resolved in that history, and only the first is a genesis. *)
Theorem chain_links_admitted fid es i env :
  valid_chain fid es → es !! i = Some env →
  admit_envelope fid (resolve_in es) env = Ok () ∧
  is_genesis <$> classify env = Ok (bool_decide (i = O)).
Proof.
  intros [Hl Hu] Hi. destruct (Hl i env Hi) as [[He Hf] Hlink].
  destruct i as [|j]; simpl in Hlink.
  - destruct Hlink as [Hp Hh]. rewrite admit_envelope_iff. unfold link_admissible, classify.
    split; [tauto|]. by rewrite !bool_decide_true by done.
  - destruct (es !! j) as [p|] eqn:Hj; simpl in Hlink.
    2:{ apply lookup_ge_None in Hj. apply lookup_lt_Some in Hi. lia. }
    destruct Hlink as [Hp Hh]. destruct (Hl j p Hj) as [[Hpe Hpf] _].
    rewrite admit_envelope_iff. unfold link_admissible, classify. split.
    + split; [done|]. right. split; [by rewrite Hp|]. exists p.
      rewrite Hp. split; [by apply resolve_in_unique with j|done].
    + rewrite bool_decide_false by (by rewrite Hp). by rewrite bool_decide_false by lia.
Qed.

(** An admitted link binds its predecessor: if two resolvers have the
    same envelope admitted, its predecessors are the same envelope, or the
    two exhibit a collision of the hash. *)
Theorem precursor_link_binds fid r1 r2 env p1 p2 :
  admit_envelope fid r1 env = Ok () → admit_envelope fid r2 env = Ok () →
  precursor (header env) ≠ zero16 →
  r1 (precursor (header env)) = Some p1 → r2 (precursor (header env)) = Some p2 →
  EnvelopeHeader_wf (header p1) → EnvelopeHeader_wf (header p2) →
  p1 = p2 ∨ collision p1 p2.
Proof.
  intros H1 H2 Hp Hr1 Hr2 Hw1 Hw2. apply admit_envelope_iff in H1 as [_ H1].
  apply admit_envelope_iff in H2 as [_ H2].
  destruct H1 as [[]|(_&q1&Hq1&_&_&Hc1)]; [done|].
  destruct H2 as [[]|(_&q2&Hq2&_&_&Hc2)]; [done|]. simplify_eq.
  destruct (decide (commitment_preimage (header q1) (payload q1) =
                    commitment_preimage (header q2) (payload q2))) as [He|Hne].
  - left. apply commitment_preimage_inj in He as [??]; [|done..].
    destruct q1, q2; simpl in *; congruence.
  - right. split; [done|congruence].
Qed.
End link_properties.

(** ** The properties at concrete inputs *)

Lemma chain_links_admitted_witness :
  let e2 := default (sample_envelope []) (sample_chain !! 1%nat) in
  @admit_envelope toy_digests (sample_id x02) (resolve_in sample_chain) e2 = Ok () ∧
  is_genesis <$> classify e2 = Ok false.
Proof.
  exact (@chain_links_admitted toy_digests (sample_id x02) sample_chain 1 _
           sample_chain_valid eq_refl).
Defined.

Lemma precursor_link_binds_witness :
  let e1 := sample_envelope [x2a] in
  e1 = e1 ∨ @collision toy_digests e1 e1.
Proof.
  apply (@precursor_link_binds toy_digests (sample_id x02) (resolve_in sample_chain)
    (λ _, Some (sample_envelope [x2a])) (default (sample_envelope []) (sample_chain !! 1%nat)));
    first [by vm_compute | by apply sample_envelope_wf].
Defined.
