(* ===== verification/Container.v ===== *)
(** * Containers: [src/crates/pardosa/src/file.rs]

    The 12-byte header, the checksummed frames, the rolling commitment, the
    scan of a container file and the truncation of a torn tail. A file is its
    bytes; the failures of the operating system's calls, which abort these
    operations before anything is decided, are not modelled here. *)

From S2P Require Export Wire Failure.

Definition CONTAINER_MAGIC : bytes := [x50; x41; x52; x44; x4f; x53; x41; x01].
Definition CONTAINER_FORMAT_VERSION : Z := 1.

(** ** The header *)

Record ContainerHeader := mk_ContainerHeader { format_version : Z }.

Definition ContainerHeader_new : ContainerHeader := mk_ContainerHeader CONTAINER_FORMAT_VERSION.

Definition to_bytes (h : ContainerHeader) : bytes :=
  CONTAINER_MAGIC ++ u32_le (format_version h).

Definition ContainerHeader_encode (h : ContainerHeader) (buf : bytes) : bytes :=
  buf ++ to_bytes h.

Definition ContainerHeader_decode : decoder ContainerHeader := λ buf,
  if blen buf <? 8 then Err (DecodeError_TruncatedHeader 12 (blen buf)) else
  magic ← slice buf 0 8;
  if bool_decide (magic ≠ CONTAINER_MAGIC) then Err DecodeError_InvalidMagic else
  if blen buf <? 12 then Err (DecodeError_TruncatedHeader 12 (blen buf)) else
  v ← u32_at buf 8;
  if negb (v =? CONTAINER_FORMAT_VERSION) then Err (DecodeError_UnsupportedFormatVersion v) else
  Ok (mk_ContainerHeader v, 12).

(** ** Frames *)

Record ContainerFrame := mk_ContainerFrame {
  frame_payload : bytes;
  frame_checksum : Z;  (* u32 *)
}.

Section frames.
Context `{Digests}.

Definition ContainerFrame_new (p : bytes) : ContainerFrame :=
  mk_ContainerFrame p (crc32c p).

Definition try_encode_payload (p : bytes) (buf : bytes) : outcome EncodeError bytes :=
  len ← ok_or (u32_try_from (blen p)) (EncodeError_LengthExceeded (blen p) u32_max);
  Ok (buf ++ u32_le len ++ p ++ u32_le (crc32c p)).

Definition encode_payload (p : bytes) (buf : bytes) : outcome EncodeError bytes :=
  try_encode_payload p buf.

Definition ContainerFrame_encode (f : ContainerFrame) (buf : bytes) :
    outcome EncodeError bytes :=
  let computed := crc32c (frame_payload f) in
  if negb (frame_checksum f =? computed)
  then Err (EncodeError_ChecksumMismatch computed (frame_checksum f))
  else encode_payload (frame_payload f) buf.

Definition ContainerFrame_decode : decoder bytes := λ buf,
  if blen buf <? 4 then Err (DecodeError_TruncatedPayload 4 (blen buf)) else
  payload_len ← u32_at buf 0;
  total_frame_len ← ok_or (l ← checked_add 4 payload_len; checked_add l 4) too_long;
  body_end ← uadd 4 payload_len;
  if blen buf <? body_end then Err (DecodeError_TruncatedPayload total_frame_len (blen buf)) else
  if blen buf <? total_frame_len
  then Err (DecodeError_TruncatedPayload total_frame_len (blen buf)) else
  p ← slice buf 4 body_end;
  recorded_checksum ← u32_at buf body_end;
  let computed_checksum := crc32c p in
  if negb (recorded_checksum =? computed_checksum)
  then Err (DecodeError_ChecksumMismatch computed_checksum recorded_checksum) else
  Ok (p, total_frame_len).

Definition decode_frame : decoder ContainerFrame := λ buf,
  '(p, consumed) ← ContainerFrame_decode buf;
  recorded_checksum ← u32_at buf (consumed - 4);
  Ok (mk_ContainerFrame p recorded_checksum, consumed).

(** ** The rolling commitment: the bytes the hasher has absorbed *)

Record RollingCommitment := mk_RollingCommitment {
  hasher : bytes;
  frame_count : Z;  (* u64 *)
}.

Definition RollingCommitment_new : RollingCommitment := mk_RollingCommitment [] 0.

Definition update_frame (r : RollingCommitment) (frame_bytes : bytes) : RollingCommitment :=
  mk_RollingCommitment (hasher r ++ frame_bytes) (u64_saturating_add (frame_count r) 1).

Definition current_commitment (r : RollingCommitment) : bytes := blake3 (hasher r).

(** ** Scanning a container *)

Record TornTailInfo := mk_TornTailInfo {
  torn_valid_len : Z;
  truncated_bytes : Z;
}.

Inductive TailState :=
  | TailState_Clean
  | TailState_TornTail (info : TornTailInfo).

Record ContainerScan := mk_ContainerScan {
  scan_header : ContainerHeader;
  scan_frames : list bytes;
  rolling : RollingCommitment;
  tail_state : TailState;
  valid_len : Z;
}.

Definition broken_frame : OperationFailure := OperationFailure_new broken.

(** The [while] loop. Every round consumes at least 8 bytes, so
    [S (length buf)] rounds are enough; running out of them is [Panic]. *)
Fixpoint scan_loop (fuel : nat) (buf : bytes) (cursor : Z) (frames : list bytes)
    (r : RollingCommitment) :
    outcome OperationFailure (list bytes * RollingCommitment * TailState * Z) :=
  match fuel with
  | O => Panic
  | S fuel =>
      if cursor <? blen buf then
        tail ← slice_from buf cursor;
        match ContainerFrame_decode tail with
        | Ok (p, consumed) =>
            next ← uadd cursor consumed;
            frame_bytes ← slice buf cursor next;
            scan_loop fuel buf next (frames ++ [p]) (update_frame r frame_bytes)
        | Err (DecodeError_TruncatedPayload _ _) =>
            Ok (frames, r, TailState_TornTail (mk_TornTailInfo cursor (blen buf - cursor)), cursor)
        | Err _ => Err broken_frame
        | Panic => Panic
        end
      else Ok (frames, r, TailState_Clean, cursor)
  end.

Definition read_container_frames (buf : bytes) : outcome OperationFailure ContainerScan :=
  if blen buf <? 12 then Err broken_frame else
  '(h, cursor) ← map_err (λ _, broken_frame) (ContainerHeader_decode buf);
  '(frames, r, tail, cursor) ←
    scan_loop (S (length buf)) buf cursor [] RollingCommitment_new;
  Ok (mk_ContainerScan h frames r tail cursor).

(** The file afterwards and what was cut. *)
Definition reconcile_tail_state (file : bytes) (scan : ContainerScan) :
    option TornTailInfo * bytes :=
  match tail_state scan with
  | TailState_Clean => (None, file)
  | TailState_TornTail info => (Some info, take (Z.to_nat (torn_valid_len info)) file)
  end.
End frames.

(** ** Specification: a container is its header and the images of its frames *)

Section container_spec.
Context `{Digests}.

Definition frame_image (p : bytes) : bytes :=
  u32_le (blen p) ++ p ++ u32_le (crc32c p).
Definition frame_wf (p : bytes) : Prop := blen p ≤ u32_max.

Definition frames_image (fs : list bytes) : bytes := mjoin (frame_image <$> fs).
Definition container_image (fs : list bytes) : bytes :=
  to_bytes ContainerHeader_new ++ frames_image fs.

(** The commitment after a run of frames. *)
Definition commit_frames (r : RollingCommitment) (fs : list bytes) : RollingCommitment :=
  fold_left update_frame (frame_image <$> fs) r.

(** Bytes that are no whole frame but could become one. *)
Definition torn (t : bytes) : Prop :=
  t ≠ [] ∧ ∃ a b, ContainerFrame_decode t = Err (DecodeError_TruncatedPayload a b).

Definition tail_of (c : Z) (t : bytes) : TailState :=
  if is_empty t then TailState_Clean else TailState_TornTail (mk_TornTailInfo c (blen t)).

Lemma blen_frame_image p : blen (frame_image p) = 8 + blen p.
Proof. unfold frame_image. len. Qed.

Lemma try_encode_payload_cases p buf :
  try_encode_payload p buf =
    if blen p <=? u32_max then Ok (buf ++ frame_image p)
    else Err (EncodeError_LengthExceeded (blen p) u32_max).
Proof. unfold try_encode_payload, u32_try_from. by destruct (_ <=? _). Qed.

Lemma frames_image_app l k : frames_image (l ++ k) = frames_image l ++ frames_image k.
Proof. unfold frames_image. by rewrite fmap_app, join_app. Qed.

Lemma frames_image_cons p l : frames_image (p :: l) = frame_image p ++ frames_image l.
Proof. done. Qed.

Lemma container_image_snoc fs p :
  container_image (fs ++ [p]) = container_image fs ++ frame_image p.
Proof.
  unfold container_image. rewrite frames_image_app, app_assoc. f_equal.
  unfold frames_image. simpl. by rewrite app_nil_r.
Qed.

Lemma blen_header h : blen (to_bytes h) = 12.
Proof. unfold to_bytes. assert (blen CONTAINER_MAGIC = 8) by done. len. Qed.

Lemma ContainerHeader_decode_image rest :
  ContainerHeader_decode (to_bytes ContainerHeader_new ++ rest) = Ok (ContainerHeader_new, 12).
Proof.
  unfold ContainerHeader_decode, to_bytes. rewrite <-app_assoc.
  assert (blen CONTAINER_MAGIC = 8) by done. run.
  rewrite bool_decide_eq_false_2 by (by intros []). run.
  change (format_version ContainerHeader_new) with 1. by run.
Qed.

Lemma ContainerHeader_decode_sound buf h n :
  ContainerHeader_decode buf = Ok (h, n) →
  h = ContainerHeader_new ∧ n = 12 ∧ 12 ≤ blen buf ∧
  take (Z.to_nat 12) buf = to_bytes ContainerHeader_new.
Proof.
  unfold ContainerHeader_decode. intros Hd. ok_inv.
  apply bool_decide_eq_false, dec_stable in Heqb0 as ->.
  assert (x0 = CONTAINER_FORMAT_VERSION) as -> by lia.
  do 2 (split; [done|]). split; [lia|]. gather buf. by gathered buf.
Qed.

Lemma ContainerFrame_codec `{!DigestLaws} :
  codec_laws frame_wf frame_image ContainerFrame_decode.
Proof.
  split.
  - intros p rest Hp. unfold frame_wf in Hp. pose proof (crc32c_u32 p) as Hc.
    unfold ContainerFrame_decode. rewrite blen_frame_image. unfold frame_image.
    rewrite <-!app_assoc. run. simpl. run. do 2 f_equal. lia.
  - intros buf p n Hd. unfold ContainerFrame_decode in Hd. ok_inv.
    learn_ranges. assert (x2 = crc32c p) as -> by lia.
    assert (blen p = x) as Hl by lia. rewrite <-Hl in *.
    pose proof (take_le_at 4 buf 0 [] _ eq_refl Hx) as T1.
    pose proof (take_slice buf 4 _ _ _ T1 Hx2) as T2.
    pose proof (take_le_at 4 buf _ _ _ T2 Hx3) as T3.
    unfold frame_wf, frame_image. split; [unfold u32_max; lia|]. split; [lia|].
    etransitivity; [exact T3|]. by rewrite <-!app_assoc.
  - intros buf Hb. unfold ContainerFrame_decode. no_panic.
Qed.

(** A proper prefix of a frame is torn. *)
Lemma torn_prefix `{!DigestLaws} p k :
  frame_wf p → 0 < k < blen (frame_image p) → torn (take (Z.to_nat k) (frame_image p)).
Proof.
  unfold frame_wf. intros Hp Hk. rewrite blen_frame_image in Hk.
  set (t := take (Z.to_nat k) (frame_image p)).
  assert (blen t = k) as Hl by (apply blen_take; rewrite blen_frame_image; lia).
  split; [intros Ht; rewrite Ht, blen_nil in Hl; lia|].
  unfold ContainerFrame_decode. rewrite Hl.
  destruct (k <? 4) eqn:Hk4; [by do 2 eexists|].
  assert (t = u32_le (blen p) ++ take (Z.to_nat (k - 4)) (p ++ u32_le (crc32c p))) as ->.
  { unfold t, frame_image. rewrite take_app_ge by (rewrite length_le_encode; lia).
    do 2 f_equal. rewrite length_le_encode. lia. }
  pose proof (blen_nonneg p). run.
  simpl. run. destruct (k <? 4 + blen p); [by do 2 eexists|]. simpl.
  replace (k <? 4 + blen p + 4) with true by lia. by do 2 eexists.
Qed.

(** ** The scan *)

Lemma scan_loop_images `{!DigestLaws} fs : ∀ fuel buf pre t frames r,
  (length fs < fuel)%nat → buf = pre ++ frames_image fs ++ t → blen buf ≤ isize_max →
  Forall frame_wf fs → t = [] ∨ torn t →
  scan_loop fuel buf (blen pre) frames r =
    Ok (frames ++ fs, commit_frames r fs, tail_of (blen pre + blen (frames_image fs)) t,
        blen pre + blen (frames_image fs)).
Proof.
  induction fs as [|p fs IH]; intros fuel buf pre t frames r Hfuel Hbuf Hb Hw Ht;
    (destruct fuel as [|fuel]; [lia|]); simpl.
  - unfold frames_image, commit_frames in *. simpl in *. rewrite app_nil_r, Z.add_0_r.
    unfold tail_of. destruct Ht as [-> | [Hne [a [b Hd]]]].
    + replace (blen pre <? blen buf) with false by (subst; len). done.
    + assert (0 < blen t) by (destruct t; [done|len]).
      replace (blen pre <? blen buf) with true by (subst; len).
      unfold slice_from. subst buf. run. rewrite Hd.
      replace (blen (pre ++ t) - blen pre) with (blen t) by len. by destruct t.
  - apply Forall_cons in Hw as [Hp Hw]. rewrite frames_image_cons in *.
    pose proof (blen_frame_image p) as Hl.
    assert (blen buf = blen pre + blen (frame_image p) + blen (frames_image fs) + blen t) as Hbl
      by (subst; len).
    pose proof (blen_nonneg p). pose proof (blen_nonneg (frames_image fs)).
    pose proof (blen_nonneg t). pose proof (blen_nonneg pre).
    replace (blen pre <? blen buf) with true by lia.
    assert (slice_from (E:=OperationFailure) buf (blen pre)
            = Ok (frame_image p ++ frames_image fs ++ t)) as ->.
    { unfold slice_from. subst buf. rewrite <-app_assoc. by run. }
    rewrite bind_of_Ok, (codec_complete ContainerFrame_codec) by done. cbv beta.
    rewrite uadd_ok by (unfold usize_max, isize_max in *; lia). rewrite bind_of_Ok.
    assert (slice (E:=OperationFailure) buf (blen pre) (blen pre + blen (frame_image p))
            = Ok (frame_image p)) as ->.
    { subst buf. rewrite <-app_assoc. by run. }
    rewrite bind_of_Ok.
    rewrite <-(blen_app pre (frame_image p)).
    rewrite (IH fuel buf (pre ++ frame_image p) t); [|simpl in *; lia| |done..].
    + rewrite <-app_assoc. unfold commit_frames. simpl. rewrite !blen_app.
      do 2 f_equal; [f_equal|]; rewrite ?Z.add_assoc; done.
    + subst buf. by rewrite <-!app_assoc.
Qed.

Lemma read_container_image `{!DigestLaws} fs t :
  Forall frame_wf fs → t = [] ∨ torn t → blen (container_image fs ++ t) ≤ isize_max →
  read_container_frames (container_image fs ++ t) =
    Ok (mk_ContainerScan ContainerHeader_new fs (commit_frames RollingCommitment_new fs)
          (tail_of (blen (container_image fs)) t) (blen (container_image fs))).
Proof.
  intros Hw Ht Hb. unfold read_container_frames, container_image in *.
  pose proof (blen_header ContainerHeader_new) as Hh.
  replace (_ <? 12) with false by (symmetry; apply Z.ltb_ge; len).
  rewrite <-app_assoc in *. rewrite ContainerHeader_decode_image.
  rewrite map_err_of_Ok, bind_of_Ok. rewrite <-Hh at 1.
  rewrite (scan_loop_images fs _ _ _ t); try done.
  - rewrite bind_of_Ok. by rewrite blen_app.
  - assert (∀ l, Z.of_nat (length l) ≤ blen (frames_image l)) as Hge.
    { induction l as [|a l IHl]; [done|]. rewrite frames_image_cons, blen_app, blen_frame_image.
      pose proof (blen_nonneg a). simpl length. lia. }
    specialize (Hge fs). rewrite !length_app. unfold blen in Hge. lia.
Qed.

Lemma drop_slice_from {E A} (l : list A) c s :
  slice_from (E:=E) l c = Ok s → 0 ≤ c ≤ blen l ∧ s = drop (Z.to_nat c) l.
Proof.
  unfold slice_from. intros (?&?&->)%slice_Ok. split; [lia|].
  apply firstn_all2. rewrite length_drop. unfold blen. lia.
Qed.

Lemma take_split {A} (l : list A) n : l = take n l ++ drop n l.
Proof. by rewrite take_drop. Qed.

Lemma scan_loop_sound `{!DigestLaws} fuel buf : ∀ c frames r frames' r' tail c',
  0 ≤ c ≤ blen buf → scan_loop fuel buf c frames r = Ok (frames', r', tail, c') →
  ∃ fs, frames' = frames ++ fs ∧ Forall frame_wf fs ∧ r' = commit_frames r fs ∧
    c ≤ c' ≤ blen buf ∧
    take (Z.to_nat c') buf = take (Z.to_nat c) buf ++ frames_image fs ∧
    tail = tail_of c' (drop (Z.to_nat c') buf) ∧
    (drop (Z.to_nat c') buf = [] ∨ torn (drop (Z.to_nat c') buf)).
Proof.
  induction fuel as [|fuel IH]; intros c frames r frames' r' tail c' Hc Hs; [done|].
  simpl in Hs. destruct (c <? blen buf) eqn:Hlt.
  - apply bind_Ok in Hs as (t&[_ Ht]%drop_slice_from&Hs).
    destruct (ContainerFrame_decode t) as [[p n]|e|] eqn:Hd; [|destruct e; try discriminate Hs|done].
    + pose proof (codec_consumed ContainerFrame_codec _ _ _ Hd) as Hn. cbv beta in Hn.
      apply (codec_sound ContainerFrame_codec) in Hd as (Hp&Hnb&Htk). cbv beta in Htk.
      assert (blen t = blen buf - c) as Hlt'
        by (subst t; unfold blen in *; rewrite length_drop; lia).
      apply bind_Ok in Hs as (next&[-> _]%uadd_Ok&Hs).
      apply bind_Ok in Hs as (fb&Hfb&Hs).
      assert (fb = frame_image p) as ->.
      { apply slice_Ok in Hfb as (_&_&->). rewrite <-Ht, <-Htk. f_equal. lia. }
      apply IH in Hs as (fs&->&Hw&->&Hcc&Htake&Htail&Hdrop); [|lia].
      exists (p :: fs). rewrite <-app_assoc. split; [done|]. split; [by constructor|].
      split; [done|]. split; [lia|]. split; [|done].
      rewrite Htake, frames_image_cons, app_assoc. f_equal.
      by apply (take_slice (E:=OperationFailure) _ c _ _ _ eq_refl).
    + injection Hs as <- <- <- <-. exists []. rewrite !app_nil_r.
      assert (t ≠ []) as Hne.
      { intros ->. symmetry in Ht. apply (f_equal length) in Ht. rewrite length_drop in Ht.
        unfold blen in *. simpl in Ht. lia. }
      do 3 (split; [done|]). split; [lia|]. split; [done|]. rewrite <-Ht. split.
      * unfold tail_of. assert (blen t = blen buf - c) as ->
          by (subst t; unfold blen in *; rewrite length_drop; lia). by destruct t.
      * right. split; [done|]. eauto.
  - injection Hs as <- <- <- <-. exists []. rewrite !app_nil_r.
    assert (c = blen buf) as -> by lia.
    assert (drop (Z.to_nat (blen buf)) buf = []) as -> by (apply drop_ge; unfold blen; lia).
    do 3 (split; [done|]). split; [lia|]. split; [done|]. split; [done|by left].
Qed.

Lemma scan_loop_total `{!DigestLaws} fuel buf : ∀ c frames r,
  0 ≤ c ≤ blen buf → blen buf - c < Z.of_nat fuel → blen buf ≤ isize_max →
  scan_loop fuel buf c frames r ≠ Panic.
Proof.
  induction fuel as [|fuel IH]; intros c frames r Hc Hf Hb; [lia|]. simpl.
  destruct (c <? blen buf) eqn:Hlt; [|done].
  apply bind_not_panic; [apply slice_not_panic; lia|].
  intros t [_ ->]%drop_slice_from.
  assert (blen (drop (Z.to_nat c) buf) = blen buf - c) as Hl
    by (unfold blen in *; rewrite length_drop; lia).
  pose proof (codec_total ContainerFrame_codec (drop (Z.to_nat c) buf) ltac:(lia)) as Hd.
  destruct (ContainerFrame_decode _) as [[p n]|e|] eqn:He; [|by destruct e|done].
  pose proof (codec_consumed ContainerFrame_codec _ _ _ He) as Hn. cbv beta in Hn.
  rewrite blen_frame_image in Hn. pose proof (blen_nonneg p).
  apply (codec_sound ContainerFrame_codec) in He as (_&Hnb&_).
  rewrite uadd_ok by (unfold usize_max, isize_max in *; lia). rewrite bind_of_Ok.
  apply bind_not_panic; [apply slice_not_panic; lia|]. intros fb _. subst n. apply IH; lia.
Qed.

(** Whatever a file holds, the scan ends; what it accepts is a container image
    and perhaps a torn frame. *)
Lemma read_container_total `{!DigestLaws} buf :
  blen buf ≤ isize_max → read_container_frames buf ≠ Panic.
Proof.
  intros Hb. unfold read_container_frames. destruct (_ <? 12) eqn:Hlen; [done|].
  apply bind_not_panic.
  { apply map_err_not_panic. unfold ContainerHeader_decode. no_panic. }
  intros [h c] (_&->&_)%map_err_Ok%ContainerHeader_decode_sound.
  apply bind_not_panic; [|by intros [[[? ?] ?] ?]].
  apply scan_loop_total; [lia|unfold blen; lia|done].
Qed.

Lemma read_container_sound `{!DigestLaws} buf scan :
  read_container_frames buf = Ok scan →
  ∃ fs t, Forall frame_wf fs ∧ (t = [] ∨ torn t) ∧ buf = container_image fs ++ t ∧
    scan = mk_ContainerScan ContainerHeader_new fs (commit_frames RollingCommitment_new fs)
             (tail_of (blen (container_image fs)) t) (blen (container_image fs)).
Proof.
  unfold read_container_frames. intros Hs.
  destruct (_ <? 12) eqn:Hlen; [done|].
  apply bind_Ok in Hs as ([h c]&(->&->&_&Hh)%map_err_Ok%ContainerHeader_decode_sound&Hs).
  apply bind_Ok in Hs as ([[[frames r] tail] c]&Hl&Hs).
  apply scan_loop_sound in Hl as (fs&->&Hw&->&Hc&Htk&->&Ht); [|lia].
  rewrite Hh in Htk. change (_ ++ frames_image fs) with (container_image fs) in Htk.
  assert (c = blen (container_image fs)) as ->
    by (rewrite <-Htk; symmetry; apply blen_take; lia).
  exists fs, (drop (Z.to_nat (blen (container_image fs))) buf).
  split; [done|]. split; [done|]. split; [|by injection Hs as <-].
  rewrite <-Htk at 1. by rewrite take_drop.
Qed.

(** Cutting a run of frames anywhere leaves whole frames and a torn one. *)
Lemma cut_frames `{!DigestLaws} fs : ∀ n,
  Forall frame_wf fs → 0 ≤ n ≤ blen (frames_image fs) →
  ∃ j t, (j ≤ length fs)%nat ∧ take (Z.to_nat n) (frames_image fs) = frames_image (take j fs) ++ t ∧
    (t = [] ∨ torn t) ∧
    blen (frames_image (take j fs)) ≤ n ∧
    (j = length fs ∨ n < blen (frames_image (take (S j) fs))).
Proof.
  induction fs as [|p fs IH]; intros n Hw Hn.
  { assert (blen (frames_image []) = 0) as E by done.
    exists 0%nat, []. simpl take. rewrite E in *. split; [done|].
    split; [by rewrite app_nil_r, firstn_nil|]. split; [by left|].
    split; [lia|by left]. }
  apply Forall_cons in Hw as [Hp Hw]. rewrite frames_image_cons in *.
  rewrite blen_app in Hn. pose proof (blen_frame_image p) as Hl. pose proof (blen_nonneg p).
  destruct (decide (n < blen (frame_image p))) as [Hlt|Hge].
  - exists 0%nat, (take (Z.to_nat n) (frame_image p)).
    split; [simpl; lia|]. split; [by rewrite take_app_le by (unfold blen in *; lia)|].
    simpl take. rewrite take_0, frames_image_cons, blen_app.
    assert (blen (frames_image []) = 0) as -> by done.
    split; [|split; [lia|right; lia]].
    destruct (decide (n = 0)) as [->|?]; [by left|right; apply torn_prefix; [done|lia]].
  - destruct (IH (n - blen (frame_image p))) as (j&t&Hj&Htk&Ht&Hle&Hmax); [done|lia|].
    exists (S j), t. simpl. split; [lia|]. split.
    + rewrite take_app_ge by (unfold blen in *; lia).
      replace (Z.to_nat n - length (frame_image p))%nat
        with (Z.to_nat (n - blen (frame_image p))) by (unfold blen in *; lia).
      rewrite Htk. by rewrite app_assoc.
    + split; [done|]. rewrite !frames_image_cons, !blen_app. split; [lia|].
      destruct Hmax as [->|Hmax]; [by left|right; lia].
Qed.

(** ** Properties *)

(** The frame codec is lossless, canonical and total: a payload of at
    most [u32::MAX] bytes is read back from its frame followed by anything,
    whatever is accepted is the frame of the payload returned (so a frame
    whose checksum is wrong is refused), and no input panics. *)
Theorem frame_codec `{!DigestLaws} p buf rest :
  (blen p ≤ u32_max →
   try_encode_payload p buf = Ok (buf ++ frame_image p) ∧
   ContainerFrame_decode (frame_image p ++ rest) = Ok (p, blen (frame_image p))) ∧
  (∀ n, ContainerFrame_decode buf = Ok (p, n) →
   try_encode_payload p [] = Ok (take (Z.to_nat n) buf)) ∧
  (blen buf ≤ isize_max → ContainerFrame_decode buf ≠ Panic).
Proof.
  split; [|split].
  - intros Hp. rewrite try_encode_payload_cases, (proj2 (Z.leb_le _ _)) by done.
    split; [done|]. by apply (codec_complete ContainerFrame_codec).
  - intros n (Hp&_&->)%(codec_sound ContainerFrame_codec).
    by rewrite try_encode_payload_cases, (proj2 (Z.leb_le _ _)).
  - apply (codec_total ContainerFrame_codec).
Qed.

(** C16: the scan is exact. A file never makes it panic or run forever; it is
    accepted if and only if it is a container header, whole frames and
    possibly one torn frame; the scan returns those frames in order, their
    rolling commitment, and where they end. *)
Theorem scan_exact `{!DigestLaws} buf scan :
  blen buf ≤ isize_max →
  read_container_frames buf ≠ Panic ∧
  (read_container_frames buf = Ok scan ↔
    ∃ fs t, Forall frame_wf fs ∧ (t = [] ∨ torn t) ∧ buf = container_image fs ++ t ∧
      scan = mk_ContainerScan ContainerHeader_new fs (commit_frames RollingCommitment_new fs)
               (tail_of (blen (container_image fs)) t) (blen (container_image fs))).
Proof.
  intros Hb. split; [by apply read_container_total|].
  split; [by apply read_container_sound|].
  by intros (fs&t&?&?&->&->); apply read_container_image.
Qed.

(** A container cut after its header is the container of its whole frames and
    the cut one. *)
Lemma cut_container `{!DigestLaws} fs n :
  Forall frame_wf fs → 12 ≤ n ≤ blen (container_image fs) →
  ∃ j t, take (Z.to_nat n) (container_image fs) = container_image (take j fs) ++ t ∧
    (t = [] ∨ torn t) ∧ (j ≤ length fs)%nat ∧ blen (container_image (take j fs)) ≤ n ∧
    (j = length fs ∨ n < blen (container_image (take (S j) fs))).
Proof.
  intros Hw Hn. pose proof (blen_header ContainerHeader_new) as Hh.
  assert (∀ l, blen (container_image l) = 12 + blen (frames_image l)) as Hc
    by (intros l; unfold container_image; rewrite blen_app; lia).
  rewrite Hc in Hn.
  destruct (cut_frames fs (n - 12)) as (j&t&Hj&Htk&Ht&Hle&Hmax); [done|lia|].
  exists j, t. split; [|split; [done|]]; [|split; [done|]; rewrite !Hc; split; [lia|]].
  - unfold container_image. rewrite take_app_ge by (unfold blen in *; lia).
    replace (Z.to_nat n - length (to_bytes ContainerHeader_new))%nat
      with (Z.to_nat (n - 12)) by (unfold blen in *; lia).
    rewrite Htk. by rewrite app_assoc.
  - destruct Hmax; [by left|right; lia].
Qed.

(** What repairing the tail of a scanned container leaves. *)
Lemma reconcile_image `{!DigestLaws} fs t scan :
  tail_state scan = tail_of (blen (container_image fs)) t →
  (reconcile_tail_state (container_image fs ++ t) scan).2 = container_image fs.
Proof.
  intros Ht. unfold reconcile_tail_state. rewrite Ht. unfold tail_of.
  destruct t as [|b t]; [apply app_nil_r|]. simpl is_empty. cbv iota. cbn [snd torn_valid_len].
  unfold blen. by rewrite Nat2Z.id, take_app_length.
Qed.

(** C5: crash recovery. Cut a container file at any byte after its header:
    the scan returns exactly the whole frames before the cut, reports the
    rest as torn, and reconciling the tail leaves the container of those
    frames, ready to be extended. *)
Theorem crash_recovery `{!DigestLaws} fs n :
  Forall frame_wf fs → 12 ≤ n ≤ blen (container_image fs) →
  blen (container_image fs) ≤ isize_max →
  let file := take (Z.to_nat n) (container_image fs) in
  ∃ j scan, read_container_frames file = Ok scan ∧
    scan_frames scan = take j fs ∧ (j ≤ length fs)%nat ∧
    blen (container_image (take j fs)) ≤ n ∧
    (j = length fs ∨ n < blen (container_image (take (S j) fs))) ∧
    (reconcile_tail_state file scan).2 = container_image (take j fs).
Proof.
  intros Hw Hn Hb file.
  destruct (cut_container fs n Hw Hn) as (j&t&Hfile&Ht&Hj&Hle&Hmax). fold file in Hfile.
  assert (blen file = n) as Hl by (apply blen_take; lia).
  exists j. eexists. rewrite Hfile in Hl |- *.
  split; [apply read_container_image; [by apply Forall_take|done|lia]|].
  do 4 (split; [done|]). by apply reconcile_image.
Qed.

(** A length prefix that claims more bytes than the file holds reads as
    a torn tail wherever it stands: every frame after it, committed or not,
    is dropped by the scan and cut from the file. *)
Theorem oversized_length_drops_committed_frames `{!DigestLaws} fs l rest :
  Forall frame_wf fs → is_u32 l → blen rest < l + 4 →
  blen (container_image fs ++ u32_le l ++ rest) ≤ isize_max →
  ∃ scan, read_container_frames (container_image fs ++ u32_le l ++ rest) = Ok scan ∧
    scan_frames scan = fs ∧
    (reconcile_tail_state (container_image fs ++ u32_le l ++ rest) scan).2 = container_image fs.
Proof.
  intros Hw Hl Hr Hb.
  assert (torn (u32_le l ++ rest)) as Ht.
  { split; [intros Hn; apply (f_equal blen) in Hn; len|].
    unfold ContainerFrame_decode. pose proof (blen_nonneg rest). unfold in_u in Hl. run. simpl. run.
    rewrite blen_app, blen_le_encode. change (Z.of_nat 4) with 4.
    destruct (4 + blen rest <? 4 + l) eqn:?; [by do 2 eexists|]. simpl.
    replace (4 + blen rest <? 4 + l + 4) with true by lia. by do 2 eexists. }
  eexists. split; [apply read_container_image; [done|by right|done]|]. cbn [scan_frames].
  split; [done|]. unfold reconcile_tail_state, tail_of. cbn [tail_state]. destruct Ht as [Hne _].
  destruct (u32_le l ++ rest) as [|b t]; [done|]. simpl is_empty. cbv iota.
  cbn [snd torn_valid_len]. unfold blen. by rewrite Nat2Z.id, take_app_length.
Qed.
End container_spec.

(** ** The properties at concrete inputs *)

Definition sample_frames : list bytes := [str "first"; []; str "third"].
Definition sample_file : bytes := @container_image toy_digests sample_frames.

Lemma frame_codec_witness :
  @try_encode_payload toy_digests (str "p") [x07] =
    Ok ([x07] ++ @frame_image toy_digests (str "p")) ∧
  @ContainerFrame_decode toy_digests (@frame_image toy_digests (str "p") ++ [xff]) =
    Ok (str "p", 9).
Proof. apply (@frame_codec toy_digests toy_digest_laws). vm_compute; done. Defined.

Lemma scan_exact_witness :
  ∃ fs t, Forall frame_wf fs ∧ (t = [] ∨ @torn toy_digests t) ∧
    sample_file ++ [x09] = @container_image toy_digests fs ++ t ∧
    @mk_ContainerScan ContainerHeader_new sample_frames
      (@commit_frames toy_digests RollingCommitment_new sample_frames)
      (tail_of 46 [x09]) 46 =
    mk_ContainerScan ContainerHeader_new fs
      (@commit_frames toy_digests RollingCommitment_new fs)
      (tail_of (blen (@container_image toy_digests fs)) t)
      (blen (@container_image toy_digests fs)).
Proof.
  apply (@scan_exact toy_digests toy_digest_laws (sample_file ++ [x09])).
  all: vm_compute; done.
Defined.

Lemma crash_recovery_witness :
  let file := take (Z.to_nat 30) sample_file in
  ∃ j scan, @read_container_frames toy_digests file = Ok scan ∧
    scan_frames scan = take j sample_frames ∧ (j ≤ length sample_frames)%nat ∧
    blen (@container_image toy_digests (take j sample_frames)) ≤ 30 ∧
    (j = length sample_frames ∨
     30 < blen (@container_image toy_digests (take (S j) sample_frames))) ∧
    (reconcile_tail_state file scan).2 = @container_image toy_digests (take j sample_frames).
Proof.
  apply (@crash_recovery toy_digests toy_digest_laws).
  - by repeat constructor.
  - vm_compute; done.
  - vm_compute; done.
Defined.

Lemma oversized_length_drops_committed_frames_witness :
  let rest := @frame_image toy_digests (str "committed") in
  let file := sample_file ++ u32_le 100 ++ rest in
  ∃ scan, @read_container_frames toy_digests file = Ok scan ∧
    scan_frames scan = sample_frames ∧ (reconcile_tail_state file scan).2 = sample_file.
Proof.
  apply (@oversized_length_drops_committed_frames toy_digests toy_digest_laws).
  - by repeat constructor.
  - vm_compute; done.
  - vm_compute; done.
  - vm_compute; done.
Defined.
