(* ===== verification/Reader.v ===== *)
(** * Readers of an event stream: [src/crates/pardosa/src/store.rs], from
    [ResumeCursor] to [ArtefactReader]

    A reader session takes in a bounded stream of envelopes and observes them
    one by one, checking each against what it has observed. The compile-time
    brand of readers, observations and cursors has no value. A queued envelope
    comes with the capacity of its payload vector, which is what is charged for
    it; a payload copied by a decoder has the capacity of its length. The
    continuation of the [with_] functions is applied to the reader they return
    here. A method of the reader takes its state, the contents of a [RefCell],
    and returns its result and the state afterwards. *)

From S2P Require Export SessionIndex Container.

Definition MAX_STREAM_ITEMS : Z := 65536.
Definition MAX_STREAM_BYTES : Z := 64 * 1024 * 1024.

Record ResumeCursor := mk_ResumeCursor {
  cursor_position : Z;  (* u64 *)
  cursor_event_id : bytes;
  cursor_locator : ArtefactLocator;
}.

Record FiberTracking := mk_FiberTracking {
  last_event_id : bytes;
  last_commitment_hash : bytes;
}.

Record ReaderState := mk_ReaderState {
  observed_position : Z;  (* u64 *)
  tracked_fibers : gmap bytes FiberTracking;
  observed_events : gmap bytes bytes;
  rd_stream : list (EventEnvelope * Z);
  terminally_failed : bool;
  capacity_refused : bool;
  byte_capacity_refused : bool;
  retained_bytes : Z;
}.

Definition mark_terminally_failed (st : ReaderState) : ReaderState :=
  mk_ReaderState (observed_position st) (tracked_fibers st) (observed_events st) []
    true (capacity_refused st) (byte_capacity_refused st) 0.

Record ReaderObservation := mk_ReaderObservation {
  obs_position : Z;
  obs_event_id : bytes;
  obs_fiber_id : bytes;
  obs_locator : ArtefactLocator;
  obs_is_genesis : bool;
}.

Definition observation_cursor (o : ReaderObservation) : ResumeCursor :=
  mk_ResumeCursor (obs_position o) (obs_event_id o) (obs_locator o).

Record ArtefactReader := mk_ArtefactReader {
  reader_locator : ArtefactLocator;
  reader_state : ReaderState;
}.

(** ** Opening *)

(** The ingestion loop: the queue, the two refusals and the bytes charged. *)
Fixpoint ingest (stream : list (EventEnvelope * Z)) (count retained : Z)
    (deque : list (EventEnvelope * Z)) : list (EventEnvelope * Z) * bool * bool * Z :=
  match stream with
  | [] => (deque, false, false, retained)
  | (env, capacity) :: stream =>
    let count := saturating_add count 1 in
    if count <=? MAX_STREAM_ITEMS then
      match checked_add 85 capacity with
      | None => (deque, false, true, retained)
      | Some env_size =>
        match checked_add retained env_size with
        | Some new_retained =>
            if new_retained <=? MAX_STREAM_BYTES
            then ingest stream count new_retained (deque ++ [(env, capacity)])
            else (deque, false, true, retained)
        | None => (deque, false, true, retained)
        end
      end
    else (deque, true, false, retained)
  end.

Definition with_stream (locator : ArtefactLocator) (stream : list (EventEnvelope * Z)) :
    ArtefactReader :=
  let '(deque, refused, byte_refused, retained) := ingest stream 0 0 [] in
  let st := mk_ReaderState 0 ∅ ∅ deque false refused byte_refused retained in
  let st := if capacity_refused st || byte_capacity_refused st
            then mark_terminally_failed st else st in
  mk_ArtefactReader locator st.

Definition with_reader (locator : ArtefactLocator) : ArtefactReader := with_stream locator [].

Section reader.
Context `{Digests}.

Definition too_long_failure_of {A} : outcome OperationFailure A :=
  fail (violated ValueConstraint_TooLong).

(** The loop over the frames: the envelopes decoded, or the first failure. *)
Fixpoint collect_frames (frames : list ContainerFrame) (frame_count total_bytes : Z)
    (envelopes : list (EventEnvelope * Z)) : outcome OperationFailure (list (EventEnvelope * Z)) :=
  match frames with
  | [] => Ok envelopes
  | frame :: frames =>
    match checked_add frame_count 1 with
    | None => too_long_failure_of
    | Some frame_count =>
      if MAX_STREAM_ITEMS <? frame_count then too_long_failure_of else
      match checked_add total_bytes (blen (frame_payload frame)) with
      | None => too_long_failure_of
      | Some b =>
        if negb (b <=? MAX_STREAM_BYTES) then too_long_failure_of else
        if negb (frame_checksum frame =? crc32c (frame_payload frame))
        then fail FailureCondition_EnvelopeMismatch else
        match EventEnvelope_decode (frame_payload frame) with
        | Panic => Panic
        | Err _ => fail FailureCondition_EnvelopeMismatch
        | Ok (env, consumed) =>
          if negb (consumed =? blen (frame_payload frame))
          then fail FailureCondition_EnvelopeMismatch else
          let capacity := blen (payload env) in
          match checked_add 85 capacity with
          | None => too_long_failure_of
          | Some env_size =>
            match checked_add total_bytes env_size with
            | None => too_long_failure_of
            | Some total_bytes =>
              if negb (total_bytes <=? MAX_STREAM_BYTES) then too_long_failure_of else
              collect_frames frames frame_count total_bytes (envelopes ++ [(env, capacity)])
            end
          end
        end
      end
    end
  end.

Definition with_frames (locator : ArtefactLocator) (frames : list ContainerFrame) :
    outcome OperationFailure ArtefactReader :=
  envelopes ← collect_frames frames 0 0 [];
  Ok (with_stream locator envelopes).

(** ** Observing *)

Definition observe_genesis (locator : ArtefactLocator) (st : ReaderState) (env : EventEnvelope) :
    option ReaderObservation * ReaderState :=
  if bool_decide (precursor (header env) ≠ zero16) ||
     bool_decide (precursor_hash (header env) ≠ zero32) then (None, st) else
  if bool_decide (is_Some (observed_events st !! event_id (header env))) then (None, st) else
  if MAX_ACTIVE_FIBERS <=? map_len (tracked_fibers st) then (None, st) else
  if bool_decide (is_Some (tracked_fibers st !! fiber_id (header env))) then (None, st) else
  let position := observed_position st in
  match u64_checked_add position 1 with
  | None => (None, st)
  | Some next_pos =>
      let commitment_hash := compute_envelope_commitment (header env) (payload env) in
      (Some (mk_ReaderObservation position (event_id (header env)) (fiber_id (header env))
               locator true),
       mk_ReaderState next_pos
         (<[fiber_id (header env) := mk_FiberTracking (event_id (header env)) commitment_hash]>
            (tracked_fibers st))
         (<[event_id (header env) := fiber_id (header env)]> (observed_events st))
         (rd_stream st) (terminally_failed st) (capacity_refused st)
         (byte_capacity_refused st) (retained_bytes st))
  end.

Definition observe_event (locator : ArtefactLocator) (st : ReaderState) (env : EventEnvelope) :
    option ReaderObservation * ReaderState :=
  if bool_decide (precursor (header env) = zero16) then (None, st) else
  if bool_decide (is_Some (observed_events st !! event_id (header env))) then (None, st) else
  match tracked_fibers st !! fiber_id (header env) with
  | None => (None, st)
  | Some fiber =>
    if bool_decide (last_event_id fiber ≠ precursor (header env)) then (None, st) else
    if bool_decide (last_commitment_hash fiber ≠ precursor_hash (header env)) then (None, st) else
    let position := observed_position st in
    match u64_checked_add position 1 with
    | None => (None, st)
    | Some next_pos =>
        let commitment_hash := compute_envelope_commitment (header env) (payload env) in
        (Some (mk_ReaderObservation position (event_id (header env)) (fiber_id (header env))
                 locator false),
         mk_ReaderState next_pos
           (<[fiber_id (header env) := mk_FiberTracking (event_id (header env)) commitment_hash]>
              (tracked_fibers st))
           (<[event_id (header env) := fiber_id (header env)]> (observed_events st))
           (rd_stream st) (terminally_failed st) (capacity_refused st)
           (byte_capacity_refused st) (retained_bytes st))
    end
  end.

(** An event is refused and the session ends. *)
Definition refuse (st : ReaderState) (c : FailureCondition) :
    option (outcome OperationFailure ReaderObservation) * ReaderState :=
  (Some (fail c), mark_terminally_failed st).

Definition observed (st : ReaderState) (m : option ReaderObservation * ReaderState) :
    option (outcome OperationFailure ReaderObservation) * ReaderState :=
  match m with
  | (Some obs, st) => (Some (Ok obs), st)
  | (None, st) => refuse st (violated ValueConstraint_TooLong)
  end.

Definition read_genesis (locator : ArtefactLocator) (st : ReaderState) (env : EventEnvelope) :
    option (outcome OperationFailure ReaderObservation) * ReaderState :=
  if bool_decide (precursor_hash (header env) ≠ zero32) then refuse st broken else
  if MAX_ACTIVE_FIBERS <=? map_len (tracked_fibers st)
  then refuse st (violated ValueConstraint_TooLong) else
  if bool_decide (is_Some (tracked_fibers st !! fiber_id (header env))) then refuse st broken else
  observed st (observe_genesis locator st env).

Definition read_chained (locator : ArtefactLocator) (st : ReaderState) (env : EventEnvelope) :
    option (outcome OperationFailure ReaderObservation) * ReaderState :=
  match observed_events st !! precursor (header env) with
  | None => refuse st (broken_by CausalChainError_PrecursorOutOfRange)
  | Some prev_fiber =>
    if bool_decide (prev_fiber ≠ fiber_id (header env))
    then refuse st (broken_by CausalChainError_PrecursorWrongFiber) else
    match tracked_fibers st !! fiber_id (header env) with
    | None => refuse st (broken_by CausalChainError_PrecursorOutOfRange)
    | Some fiber =>
      if bool_decide (last_event_id fiber ≠ precursor (header env)) then refuse st broken else
      if bool_decide (last_commitment_hash fiber ≠ precursor_hash (header env))
      then refuse st broken else
      observed st (observe_event locator st env)
    end
  end.

Definition read_event (locator : ArtefactLocator) (st : ReaderState) :
    option (outcome OperationFailure ReaderObservation) * ReaderState :=
  if capacity_refused st then
    (Some (fail (violated ValueConstraint_TooLong)),
     let st := mark_terminally_failed st in
     mk_ReaderState (observed_position st) (tracked_fibers st) (observed_events st)
       (rd_stream st) (terminally_failed st) false (byte_capacity_refused st)
       (retained_bytes st)) else
  if byte_capacity_refused st then
    (Some (fail (violated ValueConstraint_TooLong)),
     let st := mark_terminally_failed st in
     mk_ReaderState (observed_position st) (tracked_fibers st) (observed_events st)
       (rd_stream st) (terminally_failed st) (capacity_refused st) false
       (retained_bytes st)) else
  if terminally_failed st then (None, st) else
  match rd_stream st with
  | [] => (None, st)
  | (env, capacity) :: rest =>
    let env_size := saturating_add 85 capacity in
    let st :=
      mk_ReaderState (observed_position st) (tracked_fibers st) (observed_events st) rest
        (terminally_failed st) (capacity_refused st) (byte_capacity_refused st)
        (saturating_sub (retained_bytes st) env_size) in
    if bool_decide (is_Some (observed_events st !! event_id (header env))) then refuse st broken else
    if bool_decide (precursor (header env) = zero16)
    then read_genesis locator st env
    else read_chained locator st env
  end.
End reader.

(** ** Cursors *)

Definition resume_from (cursor : ResumeCursor) : Z := cursor_position cursor.

Definition regenerate_cursor_for_migration (r : ArtefactReader) (source_cursor : ResumeCursor)
    (target_observation : ReaderObservation) : option ResumeCursor :=
  if bool_decide (reader_locator r = cursor_locator source_cursor) then None else
  if negb (obs_is_genesis target_observation) then None else
  if bool_decide (obs_event_id target_observation = cursor_event_id source_cursor) then None else
  Some (observation_cursor target_observation).

(** ** Specification *)

Section spec.
Context `{Digests}.
Implicit Types (e : EventEnvelope) (hist es : list EventEnvelope) (st : ReaderState).

(** An envelope continues the events read so far: its identifier is new, and it
    starts a fiber or links to the last event of its own. *)
Definition readable hist e : Prop :=
  event_id (header e) ∉ event_ids hist ∧
  link_ok (last (of_fiber (fiber_id (header e)) hist)) e ∧
  (precursor (header e) = zero16 ↔ of_fiber (fiber_id (header e)) hist = []).
#[export] Instance readable_dec hist e : Decision (readable hist e).
Proof. unfold readable. apply _. Defined.

(** Why an envelope that is not readable is refused. *)
Definition read_cause hist e : option CausalChainError :=
  if decide (event_id (header e) ∈ event_ids hist ∨ precursor (header e) = zero16) then None else
  if decide (precursor (header e) ∉ event_ids hist)
  then Some CausalChainError_PrecursorOutOfRange else
  if decide (precursor (header e) ∉ event_ids (of_fiber (fiber_id (header e)) hist))
  then Some CausalChainError_PrecursorWrongFiber else None.

Definition observation (locator : ArtefactLocator) (i : Z) e : ReaderObservation :=
  mk_ReaderObservation i (event_id (header e)) (fiber_id (header e)) locator
    (bool_decide (precursor (header e) = zero16)).

Definition tracking e : FiberTracking :=
  mk_FiberTracking (event_id (header e)) (EventEnvelope_commitment e).

(** The bytes charged for a queue. *)
Fixpoint charge (q : list (EventEnvelope * Z)) : Z :=
  match q with
  | [] => 0
  | (_, capacity) :: q => 85 + capacity + charge q
  end.
Definition capacities_ok (q : list (EventEnvelope * Z)) : Prop :=
  Forall (λ x, blen (payload x.1) ≤ x.2 ≤ isize_max) q.

(** The state of a session that has observed [hist] and holds [q]. *)
Record reading hist (q : list (EventEnvelope * Z)) st : Prop := {
  rd_position : observed_position st = blen hist;
  rd_tracked : ∀ fid, tracked_fibers st !! fid = tracking <$> last (of_fiber fid hist);
  rd_events : ∀ id fid, observed_events st !! id = Some fid ↔
    ∃ e, e ∈ hist ∧ event_id (header e) = id ∧ fiber_id (header e) = fid;
  rd_unique : NoDup (event_ids hist);
  rd_queue : rd_stream st = q;
  rd_live : terminally_failed st = false ∧ capacity_refused st = false ∧
    byte_capacity_refused st = false;
  rd_charge : retained_bytes st = charge q;
  rd_capacities : capacities_ok q;
  rd_items : blen hist + blen q ≤ MAX_STREAM_ITEMS;
  rd_bytes : charge q ≤ MAX_STREAM_BYTES;
}.

(** A session that has ended. *)
Definition ended st : Prop :=
  terminally_failed st = true ∧ capacity_refused st = false ∧
  byte_capacity_refused st = false ∧ rd_stream st = [] ∧ retained_bytes st = 0.

Lemma charge_nonneg q : capacities_ok q → 0 ≤ charge q.
Proof.
  induction 1 as [|[e c] q Hc _ IH]; cbn in *; [lia|]. pose proof (blen_nonneg (payload e)). lia.
Qed.

Lemma charge_app q q' : charge (q ++ q') = charge q + charge q'.
Proof. induction q as [|[e c] q IH]; cbn in *; lia. Qed.

(** ** Reading one event *)

Lemma event_ids_In id hist : id ∈ event_ids hist ↔ ∃ e, e ∈ hist ∧ event_id (header e) = id.
Proof. unfold event_ids. rewrite list_elem_of_fmap. naive_solver. Qed.

Lemma observed_is_Some hist q st id :
  reading hist q st → is_Some (observed_events st !! id) ↔ id ∈ event_ids hist.
Proof.
  intros R. rewrite event_ids_In. split.
  - intros [fid (e&?&?&?)%(rd_events _ _ _ R)]. by exists e.
  - intros (e&?&?). exists (fiber_id (header e)). apply (rd_events _ _ _ R). by exists e.
Qed.

Lemma size_list_to_set_le (l : list bytes) : (size (list_to_set l : gset bytes) ≤ length l)%nat.
Proof.
  induction l as [|x l IH]; [done|]. cbn [list_to_set length].
  rewrite size_union_alt, size_singleton.
  assert (list_to_set l ∖ {[x]} ⊆@{gset bytes} list_to_set l) as Hl%subseteq_size by set_solver.
  lia.
Qed.

(** Fewer fibers than events: the bound on active fibers is out of reach. *)
Lemma tracked_bound hist q st :
  reading hist q st → (MAX_ACTIVE_FIBERS <=? map_len (tracked_fibers st)) = false.
Proof.
  intros R. assert (dom (tracked_fibers st) ⊆@{gset bytes}
    list_to_set ((fiber_id ∘ header) <$> hist)) as Hd.
  { intros fid Hf. apply elem_of_dom in Hf as [t Ht]. rewrite (rd_tracked _ _ _ R) in Ht.
    destruct (last (of_fiber fid hist)) as [e|] eqn:He; [|done].
    apply last_Some_elem_of, list_elem_of_filter in He as [<- Hin].
    apply elem_of_list_to_set, list_elem_of_fmap. by exists e. }
  apply subseteq_size in Hd. rewrite size_dom in Hd.
  pose proof (size_list_to_set_le ((fiber_id ∘ header) <$> hist)).
  pose proof (rd_items _ _ _ R). unfold map_len, MAX_ACTIVE_FIBERS, MAX_STREAM_ITEMS, blen in *.
  rewrite length_fmap in *. lia.
Qed.

Lemma reading_refused hist q st : reading hist q st → ended (mark_terminally_failed st).
Proof. intros R. by destruct (rd_live _ _ _ R) as (?&?&?). Qed.

Lemma tracked_is_Some hist q st fid :
  reading hist q st → is_Some (tracked_fibers st !! fid) ↔ of_fiber fid hist ≠ [].
Proof.
  intros R. rewrite (rd_tracked _ _ _ R), fmap_is_Some. split.
  - intros [e He] Hn. by rewrite Hn in He.
  - intros Hn. destruct (last (of_fiber fid hist)) eqn:Hl; [by eexists|]. by apply last_None in Hl.
Qed.

(** Recording an event. *)
Lemma reading_snoc hist q st e :
  reading hist q st → event_id (header e) ∉ event_ids hist →
  blen hist + 1 + blen q ≤ MAX_STREAM_ITEMS →
  reading (hist ++ [e]) q
    (mk_ReaderState (blen hist + 1)
       (<[fiber_id (header e) := tracking e]> (tracked_fibers st))
       (<[event_id (header e) := fiber_id (header e)]> (observed_events st))
       (rd_stream st) (terminally_failed st) (capacity_refused st)
       (byte_capacity_refused st) (retained_bytes st)).
Proof.
  intros R Hnew Hi. destruct R as [Hp Ht He Hu Hq Hl Hc Hcap Hit Hb]. split; cbn; try done.
  - len.
  - intros fid. rewrite of_fiber_snoc. case_decide as Hf.
    + by rewrite <-Hf, lookup_insert_eq, last_snoc.
    + by rewrite lookup_insert_ne.
  - intros id fid. rewrite lookup_insert_Some, He. setoid_rewrite elem_of_app.
    setoid_rewrite list_elem_of_singleton. split.
    + intros [[<- <-]|[_ (x&?&?&?)]]; [exists e; auto|exists x; auto].
    + intros (x&[Hx| ->]&Hid&Hfid); [right|by left]. split; [|by exists x].
      intros Heq. apply Hnew. rewrite Heq. apply event_ids_In. by exists x.
  - rewrite event_ids_snoc. apply NoDup_app. split; [done|]. split; [|apply NoDup_singleton].
    by intros x Hx ->%list_elem_of_singleton.
  - len.
Qed.

Section one_event.
Context (locator : ArtefactLocator) (hist : list EventEnvelope) (q : list (EventEnvelope * Z)).
Context (st : ReaderState) (R : reading hist q st) (e : EventEnvelope).
Context (Hnew : event_id (header e) ∉ event_ids hist).
Context (Hi : blen hist + 1 + blen q ≤ MAX_STREAM_ITEMS).

(** What reading [e] does in this state. *)
Definition reads (m : option (outcome OperationFailure ReaderObservation) * ReaderState) : Prop :=
  if decide (readable hist e) then
    ∃ st', m = (Some (Ok (observation locator (blen hist) e)), st') ∧ reading (hist ++ [e]) q st'
  else
    ∃ st', m = (Some (fail (FailureCondition_PrecursorChainBroken (read_cause hist e))), st') ∧
      ended st'.

Lemma reads_refuse c :
  ¬ readable hist e → read_cause hist e = c →
  reads (refuse st (FailureCondition_PrecursorChainBroken c)).
Proof.
  intros Hn <-. unfold reads. rewrite decide_False by done. eexists. split; [done|].
  by eapply reading_refused.
Qed.

Lemma position_advances : u64_checked_add (observed_position st) 1 = Some (blen hist + 1).
Proof.
  rewrite (rd_position _ _ _ R). unfold u64_checked_add.
  rewrite (proj2 (Z.leb_le _ _)); [done|]. pose proof (blen_nonneg q).
  unfold MAX_STREAM_ITEMS, u64_max in *. lia.
Qed.

Lemma event_is_new : bool_decide (is_Some (observed_events st !! event_id (header e))) = false.
Proof. apply bool_decide_eq_false. by rewrite (observed_is_Some _ _ _ _ R). Qed.

Lemma read_genesis_spec : precursor (header e) = zero16 → reads (read_genesis locator st e).
Proof.
  intros Hz. unfold read_genesis.
  assert (read_cause hist e = None) as Hcause by (unfold read_cause; rewrite decide_True; auto).
  case_bool_decide as Hh.
  { apply reads_refuse; [|done]. intros (_&Hl&He). apply proj1 in He. specialize (He Hz).
    rewrite He in Hl. by destruct Hl. }
  rewrite (tracked_bound _ _ _ R). case_bool_decide as Hs.
  { apply reads_refuse; [|done]. intros (_&_&He).
    apply (tracked_is_Some _ _ _ _ R) in Hs. by apply Hs, He. }
  unfold observe_genesis. rewrite (bool_decide_eq_false_2 (precursor _ ≠ _)) by auto.
  rewrite (bool_decide_eq_false_2 (precursor_hash _ ≠ _)) by auto. cbn [orb].
  rewrite event_is_new, (tracked_bound _ _ _ R), (bool_decide_eq_false_2 (is_Some _)) by done.
  cbv zeta. rewrite position_advances. unfold reads.
  rewrite (tracked_is_Some _ _ _ _ R) in Hs. apply dec_stable in Hs. rewrite decide_True.
  - eexists. split; [|by apply reading_snoc]. unfold observed, observation.
    by rewrite (rd_position _ _ _ R), bool_decide_true.
  - split; [done|]. rewrite Hs. done.
Qed.

(** Identifiers are unique: an event of the history is of one fiber. *)
Lemma precursor_of_fiber fid pid :
  observed_events st !! pid = Some fid → ∀ fid',
  pid ∈ event_ids (of_fiber fid' hist) ↔ fid' = fid.
Proof.
  intros Ho fid'. rewrite event_ids_In. unfold of_fiber. setoid_rewrite list_elem_of_filter. split.
  - intros (x&[Hf Hx]&Hid).
    assert (observed_events st !! pid = Some fid') as Ho'
      by (apply (rd_events _ _ _ R); by exists x).
    congruence.
  - intros ->. apply (rd_events _ _ _ R) in Ho as (x&?&?&?). by exists x.
Qed.

Lemma linked_precursor p :
  last (of_fiber (fiber_id (header e)) hist) = Some p →
  event_id (header p) ∈ event_ids (of_fiber (fiber_id (header e)) hist) ∧
  event_id (header p) ∈ event_ids hist.
Proof.
  intros Hl%last_Some_elem_of. split; apply event_ids_In; exists p; [done|].
  by apply list_elem_of_filter in Hl as [_ ?].
Qed.

Lemma read_chained_spec : precursor (header e) ≠ zero16 → reads (read_chained locator st e).
Proof.
  intros Hz. unfold read_chained.
  assert (read_cause hist e =
    if decide (precursor (header e) ∉ event_ids hist)
    then Some CausalChainError_PrecursorOutOfRange else
    if decide (precursor (header e) ∉ event_ids (of_fiber (fiber_id (header e)) hist))
    then Some CausalChainError_PrecursorWrongFiber else None) as Hcause
    by (unfold read_cause; rewrite decide_False; [done|naive_solver]).
  pose proof (linked_precursor) as Hlp. unfold readable in *.
  destruct (observed_events st !! precursor (header e)) as [fid|] eqn:Ho.
  2:{ assert (precursor (header e) ∉ event_ids hist) as Hp.
      { rewrite <-(observed_is_Some _ _ _ _ R), Ho. by intros []. }
      apply reads_refuse; [|by rewrite Hcause, decide_True].
      intros (_&Hl&_). destruct (last _) as [p|] eqn:E; [|by destruct Hl].
      destruct Hl as [Hl _]. rewrite Hl in Hp. naive_solver. }
  pose proof (precursor_of_fiber _ _ Ho) as Hof.
  assert (precursor (header e) ∈ event_ids hist) as Hin
    by (rewrite <-(observed_is_Some _ _ _ _ R), Ho; done).
  rewrite decide_False in Hcause by naive_solver.
  case_bool_decide as Hf.
  { apply reads_refuse; [|rewrite Hcause, decide_True; [done|by rewrite Hof]].
    intros (_&Hl&_). destruct (last _) as [p|] eqn:E; [|by destruct Hl].
    destruct Hl as [Hl _]. destruct (Hlp p eq_refl) as [Hpf _]. rewrite <-Hl, Hof in Hpf.
    naive_solver. }
  subst fid. rewrite decide_False in Hcause by naive_solver.
  rewrite (rd_tracked _ _ _ R).
  destruct (last (of_fiber (fiber_id (header e)) hist)) as [p|] eqn:E; cbn.
  2:{ exfalso. apply last_None in E. specialize (Hof (fiber_id (header e))).
      rewrite E in Hof. apply (not_elem_of_nil (precursor (header e))), Hof. done. }
  case_bool_decide as Hid.
  { apply reads_refuse; [|done]. unfold readable. rewrite E. intros (_&[Hl _]&_). naive_solver. }
  case_bool_decide as Hh.
  { apply reads_refuse; [|done]. unfold readable. rewrite E. intros (_&[_ Hl]&_). naive_solver. }
  unfold observe_event. rewrite bool_decide_false, event_is_new by done.
  rewrite (rd_tracked _ _ _ R), E. cbn. rewrite !bool_decide_false by naive_solver.
  rewrite position_advances. unfold reads. rewrite decide_True.
  - eexists. split; [|by apply reading_snoc]. unfold observed, observation.
    by rewrite (rd_position _ _ _ R), bool_decide_false.
  - unfold readable. rewrite E. split; [done|]. split; [done|]. split; [done|].
    intros Hn. by rewrite Hn in E.
Qed.
End one_event.

Lemma reading_popped hist e c q st :
  reading hist ((e, c) :: q) st →
  reading hist q
    (mk_ReaderState (observed_position st) (tracked_fibers st) (observed_events st) q
       (terminally_failed st) (capacity_refused st) (byte_capacity_refused st)
       (saturating_sub (retained_bytes st) (saturating_add 85 c))) ∧
  blen hist + 1 + blen q ≤ MAX_STREAM_ITEMS.
Proof.
  intros [Hp Ht He Hu Hq Hl Hc Hcap Hit Hb]. apply Forall_cons in Hcap as [Hcap1 Hcap].
  pose proof (charge_nonneg q Hcap). pose proof (blen_nonneg (payload e)). cbn in *.
  rewrite blen_cons in Hit.
  assert (saturating_add 85 c = 85 + c) as Hs
    by (unfold saturating_add, isize_max, usize_max in *; lia).
  split; [|lia]. split; cbn; try done; try lia.
  rewrite Hc, Hs. unfold saturating_sub. lia.
Qed.

(** Reading in a session that has observed [hist]. *)
Lemma read_event_reading locator hist e c q st :
  reading hist ((e, c) :: q) st → reads locator hist q e (read_event locator st).
Proof.
  intros R. pose proof (reading_popped _ _ _ _ _ R) as [Rq Hi].
  unfold read_event. destruct (rd_live _ _ _ R) as (->&->&->).
  rewrite (rd_queue _ _ _ R). cbv zeta. destruct (rd_live _ _ _ R) as (Ht&Hc&Hb).
  rewrite Ht, Hc, Hb in Rq. case_bool_decide as Hd.
  { apply reads_refuse; [done| |].
    - intros [Hn _]. by apply Hn, (observed_is_Some _ _ _ _ R).
    - unfold read_cause. rewrite decide_True; [done|]. left. by apply (observed_is_Some _ _ _ _ R). }
  cbn [observed_events] in Hd. rewrite (observed_is_Some _ _ _ _ R) in Hd.
  case_bool_decide; [by apply read_genesis_spec|by apply read_chained_spec].
Qed.

Lemma read_event_empty locator hist st :
  reading hist [] st → read_event locator st = (None, st).
Proof.
  intros R. unfold read_event. destruct (rd_live _ _ _ R) as (->&->&->).
  by rewrite (rd_queue _ _ _ R).
Qed.

Lemma read_event_ended locator st : ended st → read_event locator st = (None, st).
Proof. intros (Ht&Hc&Hb&_). unfold read_event. by rewrite Hc, Hb, Ht. Qed.

(** ** Opening *)

Definition within_limits (q : list (EventEnvelope * Z)) : Prop :=
  blen q ≤ MAX_STREAM_ITEMS ∧ charge q ≤ MAX_STREAM_BYTES.
#[export] Instance within_limits_dec q : Decision (within_limits q).
Proof. unfold within_limits. apply _. Defined.

Lemma within_limits_app q q' :
  capacities_ok q' → within_limits (q ++ q') → within_limits q.
Proof.
  intros Hc%charge_nonneg [Hi Hb]. rewrite charge_app in Hb. split; [|lia]. len.
Qed.

Lemma ingest_spec stream : ∀ deque,
  capacities_ok stream → capacities_ok deque → within_limits deque →
  let '(q, refused, byte_refused, retained) := ingest stream (blen deque) (charge deque) deque in
  if decide (within_limits (deque ++ stream))
  then (q, refused, byte_refused, retained) = (deque ++ stream, false, false, charge (deque ++ stream))
  else refused = negb byte_refused.
Proof.
  induction stream as [|[e c] stream IH]; intros deque Hs Hd [Hi Hb]; cbn [ingest].
  { rewrite app_nil_r. by rewrite decide_True. }
  pose proof Hs as Hs'. apply Forall_cons in Hs as [Hc Hs]. cbn [fst snd] in Hc.
  pose proof (blen_nonneg (payload e)). pose proof (charge_nonneg _ Hd). pose proof (blen_nonneg deque).
  assert (saturating_add (blen deque) 1 = blen deque + 1) as ->
    by (unfold saturating_add, MAX_STREAM_ITEMS, usize_max in *; lia).
  assert (deque ++ (e, c) :: stream = (deque ++ [(e, c)]) ++ stream) as Happ
    by (by rewrite <-app_assoc).
  assert (capacities_ok (deque ++ [(e, c)])) as Hd'
    by (apply Forall_app; split; [done|by apply Forall_singleton]).
  assert (charge (deque ++ [(e, c)]) = charge deque + (85 + c)) as Hch
    by (rewrite charge_app; cbn; lia).
  assert (blen (deque ++ [(e, c)]) = blen deque + 1) as Hlen by len.
  assert (¬ within_limits (deque ++ [(e, c)]) →
    ¬ within_limits (deque ++ (e, c) :: stream)) as Hout
    by (intros Hn Hw; apply Hn; rewrite Happ in Hw; by apply within_limits_app in Hw).
  unfold within_limits in Hout at 1. rewrite Hch, Hlen in Hout.
  destruct (Z.leb_spec (blen deque + 1) MAX_STREAM_ITEMS).
  2:{ rewrite decide_False by (apply Hout; lia). done. }
  rewrite checked_add_ok by (unfold isize_max, usize_max in *; lia).
  rewrite checked_add_ok by (unfold isize_max, usize_max, MAX_STREAM_BYTES in *; lia).
  destruct (Z.leb_spec (charge deque + (85 + c)) MAX_STREAM_BYTES).
  2:{ rewrite decide_False by (apply Hout; lia). done. }
  rewrite <-Hch, <-Hlen, Happ. apply IH; [done..|]. split; lia.
Qed.

(** A session over a stream: ready within the limits, and otherwise holding
    nothing and about to report the limit. *)
Lemma with_stream_spec locator stream :
  capacities_ok stream →
  if decide (within_limits stream) then reading [] stream (reader_state (with_stream locator stream))
  else ∃ st', (read_event locator (reader_state (with_stream locator stream))) =
         (Some (fail (violated ValueConstraint_TooLong)), st') ∧ ended st'.
Proof.
  intros Hs. unfold with_stream.
  pose proof (ingest_spec stream [] Hs (Forall_nil_2 _)) as Hi. cbn [app charge blen length] in Hi.
  change (blen []) with 0 in Hi. specialize (Hi ltac:(by split)).
  destruct (ingest stream 0 0 []) as [[[q refused] byte_refused] retained]. case_decide as Hw.
  - injection Hi as -> -> -> ->. cbn. destruct Hw. split; cbn; try done.
    + intros id fid. rewrite lookup_empty. split; [done|]. by intros (?&?%not_elem_of_nil&_).
    + constructor.
  - cbn. subst refused. by destruct byte_refused; eexists.
Qed.

(** ** Reading to the end *)

(** A caller that reads until nothing comes. *)
Fixpoint read_all (fuel : nat) (locator : ArtefactLocator) st :
    list (outcome OperationFailure ReaderObservation) * ReaderState :=
  match fuel with
  | O => ([], st)
  | S fuel =>
    match read_event locator st with
    | (None, st) => ([], st)
    | (Some r, st) => let '(rs, st) := read_all fuel locator st in (r :: rs, st)
    end
  end.

Fixpoint readable_from hist es : Prop :=
  match es with
  | [] => True
  | e :: es => readable hist e ∧ readable_from (hist ++ [e]) es
  end.

Fixpoint observations (locator : ArtefactLocator) (i : Z) es : list ReaderObservation :=
  match es with
  | [] => []
  | e :: es => observation locator i e :: observations locator (i + 1) es
  end.

(** What follows the readable events of a stream. *)
Definition stop hist (rest : list EventEnvelope) : list (outcome OperationFailure ReaderObservation) :=
  match rest with
  | [] => []
  | e :: _ => [fail (FailureCondition_PrecursorChainBroken (read_cause hist e))]
  end.

Lemma read_all_ended fuel locator st : ended st → read_all fuel locator st = ([], st).
Proof. intros He. destruct fuel; [done|]. cbn. by rewrite read_event_ended. Qed.

Lemma read_all_reading locator q : ∀ hist st fuel,
  reading hist q st → (length q < fuel)%nat →
  ∃ es rest, q.*1 = es ++ rest ∧ readable_from hist es ∧
    (∀ e rest', rest = e :: rest' → ¬ readable (hist ++ es) e) ∧
    ∃ st', read_all fuel locator st =
             ((Ok <$> observations locator (blen hist) es) ++ stop (hist ++ es) rest, st') ∧
      read_event locator st' = (None, st').
Proof.
  induction q as [|[e c] q IH]; intros hist st [|fuel] R Hf; cbn [length] in Hf; [lia| |lia|].
  { exists [], []. cbn [read_all]. rewrite (read_event_empty _ _ _ R).
    repeat split; [done|]. exists st. split; [done|]. by eapply read_event_empty. }
  pose proof (read_event_reading locator _ _ _ _ _ R) as Hr. unfold reads in Hr. cbn [read_all].
  case_decide as Hd; destruct Hr as (st1&->&R1).
  - destruct (IH _ _ fuel R1 ltac:(lia)) as (es&rest&Hq&Hes&Hstop&st'&->&Hend).
    exists (e :: es), rest. rewrite <-app_assoc in Hstop. cbn. rewrite Hq.
    split; [done|]. split; [done|]. split; [done|]. exists st'. split; [|done].
    rewrite <-app_assoc. cbn. by rewrite blen_app.
  - rewrite read_all_ended by done. exists [], (e :: q.*1). rewrite app_nil_r.
    split; [done|]. split; [done|]. split; [by intros ? ? [= <- _]|].
    exists st1. split; [done|]. by apply read_event_ended.
Qed.

Lemma readable_from_snoc es e : ∀ hist,
  readable_from hist (es ++ [e]) ↔ readable_from hist es ∧ readable (hist ++ es) e.
Proof.
  induction es as [|x es IH]; intros hist; cbn; [rewrite app_nil_r; tauto|].
  rewrite IH, <-app_assoc. cbn. tauto.
Qed.

Lemma readable_from_app es rest : ∀ hist,
  readable_from hist (es ++ rest) ↔ readable_from hist es ∧ readable_from (hist ++ es) rest.
Proof.
  induction es as [|x es IH]; intros hist; cbn; [rewrite app_nil_r; tauto|].
  rewrite IH, <-app_assoc. cbn. tauto.
Qed.

Lemma readable_sound es :
  Forall (λ e, event_id (header e) ≠ zero16) es →
  readable_from [] es ↔ ∀ fid, fiber_sound es fid.
Proof.
  induction es as [|e es IH] using rev_ind; intros Hz.
  { split; [|done]. intros _ fid. split; [done|]. by intros ? ? ?. }
  apply Forall_app in Hz as [Hz He]. rewrite Forall_singleton in He. specialize (IH Hz).
  rewrite readable_from_snoc, IH. cbn. unfold readable. split.
  - intros [Hs (Hnew&Hl&_)] fid. destruct (decide (fiber_id (header e) = fid)) as [<-|Hne].
    + apply fiber_sound_snoc; [done|]. split; [apply Hs|].
      split; [by split; [apply He|]|done].
    + apply fiber_sound_other; [done|]. apply Hs.
  - intros Hs. pose proof (Hs (fiber_id (header e))) as Hse.
    apply fiber_sound_snoc in Hse as (Hsnd&_&Hl&Hnew); [|done]. split.
    + intros fid. destruct (decide (fiber_id (header e) = fid)) as [<-|Hne]; [done|].
      specialize (Hs fid). by apply fiber_sound_other in Hs.
    + split; [done|]. split; [done|].
      destruct (last (of_fiber (fiber_id (header e)) es)) as [p|] eqn:E.
      * destruct Hl as [-> _]. split; [|by intros Hn; rewrite Hn in E].
        destruct Hsnd as [Hlinks _]. intros Hpz. by destruct (of_fiber_last_ok _ _ _ Hlinks E).
      * apply last_None in E. destruct Hl as [-> _]. done.
Qed.

(** ** Opening over frames *)

(** A frame that holds the envelope [e] whole, under its checksum. *)
Definition frame_of (f : ContainerFrame) e : Prop :=
  frame_checksum f = crc32c (frame_payload f) ∧ EventEnvelope_wf e ∧
  frame_payload f = envelope_image e.

(** Envelopes as a decoder allocates them. *)
Definition charged es : list (EventEnvelope * Z) := (λ e, (e, blen (payload e))) <$> es.

Lemma charged_ok es : Forall EventEnvelope_wf es → capacities_ok (charged es).
Proof.
  intros Hw. apply Forall_fmap. eapply Forall_impl; [exact Hw|]. intros e [_ Hp]. cbn.
  unfold u32_max, isize_max in *. lia.
Qed.

Lemma charged_fst es : (charged es).*1 = es.
Proof. unfold charged. rewrite <-list_fmap_compose. apply list_fmap_id. Qed.

Lemma frame_of_decode f e :
  EventEnvelope_decode (frame_payload f) = Ok (e, blen (frame_payload f)) ↔
  EventEnvelope_wf e ∧ frame_payload f = envelope_image e.
Proof.
  split.
  - intros (Hw&_&Ht)%(codec_sound EventEnvelope_codec). split; [done|].
    by apply (take_full _ _ (blen (frame_payload f))).
  - intros [Hw ->]. pose proof (codec_complete EventEnvelope_codec e [] Hw) as Hd.
    by rewrite app_nil_r in Hd.
Qed.

(** One round of the loop goes on exactly for a whole frame that fits. *)
Lemma collect_frames_cons f frames acc :
  blen (frame_payload f) ≤ isize_max → within_limits acc → capacities_ok acc →
  (∃ e, frame_of f e ∧ within_limits (acc ++ charged [e]) ∧
     collect_frames (f :: frames) (blen acc) (charge acc) acc =
       collect_frames frames (blen (acc ++ charged [e])) (charge (acc ++ charged [e]))
         (acc ++ charged [e])) ∨
  ((¬ ∃ e, frame_of f e ∧ within_limits (acc ++ charged [e])) ∧
   ∃ c, collect_frames (f :: frames) (blen acc) (charge acc) acc = fail c).
Proof.
  intros Hf [Hi Hb] Hc%charge_nonneg. pose proof (blen_nonneg (frame_payload f)).
  pose proof (blen_nonneg acc). cbn [collect_frames]. unfold too_long_failure_of, within_limits.
  assert (∀ e, charge (acc ++ charged [e]) = charge acc + (85 + blen (payload e))) as Hch
    by (intros e; rewrite charge_app; cbn; lia).
  assert (∀ e, blen (acc ++ charged [e]) = blen acc + 1) as Hlen by (intros; cbn; len).
  assert (∀ e, frame_of f e → blen (frame_payload f) = 85 + blen (payload e)) as Hfe
    by (intros e (_&[Hw _]&->); by apply blen_envelope_image).
  rewrite checked_add_ok by (unfold MAX_STREAM_ITEMS, usize_max in *; lia).
  destruct (Z.ltb_spec MAX_STREAM_ITEMS (blen acc + 1)).
  { right. split; [|by eexists]. intros (e&_&?&_). rewrite Hlen in *. lia. }
  rewrite checked_add_ok by (unfold MAX_STREAM_BYTES, isize_max, usize_max in *; lia).
  destruct (Z.leb_spec (charge acc + blen (frame_payload f)) MAX_STREAM_BYTES); cbn [negb].
  2:{ right. split; [|by eexists]. intros (e&He&_&?). rewrite Hch in *. apply Hfe in He. lia. }
  destruct (Z.eqb_spec (frame_checksum f) (crc32c (frame_payload f))) as [Hcrc|]; cbn [negb].
  2:{ right. split; [|by eexists]. by intros (e&[? _]&_). }
  destruct (EventEnvelope_decode (frame_payload f)) as [[e k]|?|] eqn:Hd.
  - destruct (Z.eqb_spec k (blen (frame_payload f))) as [->|Hk]; cbn [negb].
    + pose proof (proj1 (frame_of_decode f e) Hd) as [Hw Himg].
      assert (frame_of f e) as He by done. pose proof (Hfe e He). cbv zeta.
      rewrite !checked_add_ok by (unfold MAX_STREAM_BYTES, isize_max, usize_max in *; lia).
      rewrite (proj2 (Z.leb_le _ _)) by lia. cbn [negb]. left. exists e.
      rewrite Hch, Hlen. split; [done|]. split; [lia|]. f_equal; lia.
    + right. split; [|by eexists]. intros (e'&(_&Hw&Himg)&_).
      pose proof (proj2 (frame_of_decode f e') (conj Hw Himg)) as Hd'. congruence.
  - right. split; [|by eexists]. intros (e'&(_&Hw&Himg)&_).
    pose proof (proj2 (frame_of_decode f e') (conj Hw Himg)) as Hd'. congruence.
  - by destruct (codec_total EventEnvelope_codec _ Hf).
Qed.

Lemma collect_frames_spec frames : ∀ acc,
  Forall (λ f, blen (frame_payload f) ≤ isize_max) frames →
  within_limits acc → capacities_ok acc →
  match collect_frames frames (blen acc) (charge acc) acc with
  | Ok q => ∃ es, Forall2 frame_of frames es ∧ within_limits q ∧ q = acc ++ charged es
  | Err _ => ¬ ∃ es, Forall2 frame_of frames es ∧ within_limits (acc ++ charged es)
  | Panic => False
  end.
Proof.
  induction frames as [|f frames IH]; intros acc Hfs Hw Hc.
  { exists []. by rewrite app_nil_r. }
  apply Forall_cons in Hfs as [Hf Hfs].
  destruct (collect_frames_cons f frames acc Hf Hw Hc) as [(e&He&Hw'&->)|[Hno (c&->)]].
  - assert (capacities_ok (acc ++ charged [e])) as Hc'.
    { apply Forall_app. split; [done|]. apply charged_ok, Forall_singleton. apply He. }
    specialize (IH _ Hfs Hw' Hc'). destruct (collect_frames _ _ _ _) as [q|?|]; [| |done].
    + destruct IH as (es&Hes&?&->). exists (e :: es). split; [by constructor|].
      split; [done|]. by rewrite <-app_assoc.
    + intros (es&Hes&Hlim). apply IH. apply Forall2_cons_inv_l in Hes as (e'&es'&He'&Hes&->).
      assert (e' = e) as ->.
      { destruct He as (_&?&Hi), He' as (_&?&Hi'). rewrite Hi in Hi'.
        by apply (codec_inj EventEnvelope_codec). }
      exists es'. split; [done|]. by rewrite <-app_assoc.
  - intros (es&Hes&Hlim). apply Forall2_cons_inv_l in Hes as (e'&es'&He'&Hes&->).
    apply Hno. exists e'. split; [done|]. replace (acc ++ charged (e' :: es'))
      with ((acc ++ charged [e']) ++ charged es') in Hlim by (by rewrite <-app_assoc).
    eapply within_limits_app; [|done]. apply charged_ok.
    eapply Forall2_Forall_r; [exact Hes|]. apply Forall_forall. by intros ? _ ? (_&?&_).
Qed.

Lemma with_frames_spec locator frames :
  Forall (λ f, blen (frame_payload f) ≤ isize_max) frames →
  match with_frames locator frames with
  | Ok r => ∃ es, Forall2 frame_of frames es ∧ within_limits (charged es) ∧
      r = with_stream locator (charged es)
  | Err _ => ¬ ∃ es, Forall2 frame_of frames es ∧ within_limits (charged es)
  | Panic => False
  end.
Proof.
  intros Hf. pose proof (collect_frames_spec frames [] Hf) as Hc.
  unfold with_frames. change (blen []) with 0 in Hc. cbn [charge] in Hc.
  specialize (Hc ltac:(by split) ltac:(constructor)).
  destruct (collect_frames frames 0 0 []); cbn; [|done..].
  destruct Hc as (es&?&?&->). by exists es.
Qed.

Lemma sound_ids es : (∀ fid, fiber_sound es fid) → Forall (λ e, event_id (header e) ≠ zero16) es.
Proof.
  intros Hs. apply Forall_forall. intros e He.
  destruct (Hs (fiber_id (header e))) as [Hl _]. rewrite links_lookup in Hl.
  assert (e ∈ of_fiber (fiber_id (header e)) es) as [i Hi]%list_elem_of_lookup
    by (by apply list_elem_of_filter).
  by destruct (Hl i e Hi) as [[? _] _].
Qed.

Lemma observations_stop locator es es' rest hist : ∀ i,
  (Ok <$> observations locator i es) ++ stop hist rest = Ok <$> observations locator i (es' ++ rest) →
  length es = length es' → rest = [].
Proof.
  revert es'. induction es as [|e es IH]; intros [|e' es'] i Ho Hl; try done.
  - cbn in Ho. destruct rest; [done|]. discriminate Ho.
  - injection Ho as _ Ho. injection Hl as Hl. by apply (IH es' (i + 1)).
Qed.

(** Frames determine the envelopes they hold. *)
Lemma frames_wf fs es : Forall2 frame_of fs es → Forall EventEnvelope_wf es.
Proof. induction 1 as [|f e fs es (_&?&_) _ IH]; by constructor. Qed.

Lemma frames_determine fs es : Forall2 frame_of fs es → ∀ es', Forall2 frame_of fs es' → es' = es.
Proof.
  induction 1 as [|f e fs es (_&Hw&Hi) _ IH]; intros es' Hes'; [by inversion Hes'|].
  apply Forall2_cons_inv_l in Hes' as (e'&es''&(_&Hw'&Hi')&Hes''&->).
  f_equal; [|by apply IH]. rewrite Hi in Hi'. by apply (codec_inj EventEnvelope_codec).
Qed.

Definition framed es : list ContainerFrame := ContainerFrame_new <$> (envelope_image <$> es).

Lemma framed_of es :
  Forall EventEnvelope_wf es →
  Forall2 frame_of (framed es) es ∧ Forall (λ f, blen (frame_payload f) ≤ isize_max) (framed es).
Proof.
  intros Hwf. split; [induction Hwf; by constructor|].
  apply Forall_fmap, Forall_fmap. eapply Forall_impl; [exact Hwf|]. intros e [He Hp].
  change (blen (envelope_image e) ≤ isize_max). rewrite blen_envelope_image by done. unfold u32_max, isize_max in *. lia.
Qed.

(** The observations of a whole stream are what a sound session gives. *)
Lemma read_all_sound locator stream fuel :
  capacities_ok stream → within_limits stream → (length stream < fuel)%nat →
  Forall (λ e, event_id (header e) ≠ zero16) stream.*1 →
  (read_all fuel locator (reader_state (with_stream locator stream))).1 =
    Ok <$> observations locator 0 stream.*1 ↔
  ∀ fid, fiber_sound stream.*1 fid.
Proof.
  intros Hc Hw Hf Hz. pose proof (with_stream_spec locator stream Hc) as R.
  rewrite decide_True in R by done.
  destruct (read_all_reading locator _ _ _ fuel R Hf) as (es&rest&Hq&Hes&Hstop&st'&->&_).
  cbn [fst app] in *. change (blen []) with 0. rewrite <-readable_sound by done. rewrite Hq. split.
  - intros Ho. apply observations_stop in Ho as ->; [|done]. by rewrite app_nil_r.
  - intros [_ Hr]%readable_from_app. destruct rest as [|e rest]; [by rewrite !app_nil_r|].
    destruct Hr as [Hr _]. by destruct (Hstop e rest eq_refl).
Qed.
End spec.

(** ** Properties *)

Section properties.
Context `{Digests}.

(** C22: reading a stream. A reader whose stream keeps the limits observes, in
    order and numbered from zero, exactly its longest prefix in which every
    envelope has a new identifier and starts a fiber or links to the last event
    of its own; it then reports why the next one does not, if there is one, and
    nothing more ever comes. In particular the bounds on active fibers and on
    positions are never met. A stream beyond the limits is refused once, on the
    first read, and ends. *)
Theorem reader_reads_stream locator stream fuel :
  capacities_ok stream → (length stream < fuel)%nat →
  let '(results, st) := read_all fuel locator (reader_state (with_stream locator stream)) in
  read_event locator st = (None, st) ∧
  if decide (within_limits stream) then
    ∃ es rest, stream.*1 = es ++ rest ∧ readable_from [] es ∧
      (∀ e rest', rest = e :: rest' → ¬ readable es e) ∧
      results = (Ok <$> observations locator 0 es) ++ stop es rest
  else results = [fail (violated ValueConstraint_TooLong)].
Proof.
  intros Hc Hf. pose proof (with_stream_spec locator stream Hc) as R. case_decide as Hw.
  - destruct (read_all_reading locator _ _ _ fuel R Hf) as (es&rest&Hq&Hes&Hstop&st'&->&Hend).
    split; [done|]. by exists es, rest.
  - destruct R as (st'&Hr&Hend). destruct fuel as [|fuel]; [lia|]. cbn [read_all].
    rewrite Hr, read_all_ended by done. split; [by apply read_event_ended|done].
Qed.

(** Readers and sessions agree. A reader observes a stream of envelopes
    with proper identifiers to its end if and only if the stream is a sound
    session: every fiber's events chain and no identifier is reused, whatever
    the other fibers do; each fiber's part is then a valid history. *)
Theorem reader_accepts_sound_sessions locator stream fuel :
  capacities_ok stream → within_limits stream → (length stream < fuel)%nat →
  Forall (λ e, event_id (header e) ≠ zero16) stream.*1 →
  ((read_all fuel locator (reader_state (with_stream locator stream))).1 =
     Ok <$> observations locator 0 stream.*1 ↔
   ∀ fid, fiber_sound stream.*1 fid) ∧
  ((∀ fid, fiber_sound stream.*1 fid) → ∀ fid, valid_chain fid (of_fiber fid stream.*1)).
Proof.
  intros Hc Hw Hf Hz. split; [by apply read_all_sound|].
  intros Hs fid. by apply fiber_sound_valid_chain.
Qed.

(** C23: what was committed is read. The envelopes a live session committed,
    framed, open a reader exactly when they keep its limits, which are 65,536
    envelopes and 64 MiB as it charges them; reading then gives every one of them, in order, and then
    nothing. Beyond the limits the reader is refused, whole. *)
Theorem stored_session_readable locator es idx fuel :
  Forall EventEnvelope_wf es → commit_all SessionIndex_new es = Ok idx → (length es < fuel)%nat →
  match with_frames locator (framed es) with
  | Ok r => within_limits (charged es) ∧
      (read_all fuel locator (reader_state r)).1 = Ok <$> observations locator 0 es
  | Err _ => ¬ within_limits (charged es)
  | Panic => False
  end.
Proof.
  intros Hwf Hc Hf. pose proof (charged_ok es Hwf) as Hcap.
  apply (commit_all_live es [] SessionIndex_new idx) in Hc as [_ Hs];
    [cbn in Hs|apply index_of_new|intros f; split; [done|]; by intros ? ? ?].
  destruct (framed_of es Hwf) as [Hframes Hlen].
  pose proof (with_frames_spec locator (framed es) Hlen) as Hw.
  destruct (with_frames locator (framed es)) as [r|?|];
    [|intros Hlim; destruct Hw; by exists es|done].
  destruct Hw as (es'&Hes'&Hlim&->). rewrite (frames_determine _ _ Hframes _ Hes') in *.
  split; [done|]. rewrite <-(charged_fst es) at 2.
  apply read_all_sound; rewrite ?charged_fst; try done; [by unfold charged; rewrite length_fmap|].
  by apply sound_ids.
Qed.

(** Opening over frames is exact: it succeeds if and only if every frame
    holds one whole envelope under its checksum and together they keep the
    limits; the reader then holds those envelopes and is not refused. It never
    panics. *)
Theorem frames_admitted_exactly locator frames :
  Forall (λ f, blen (frame_payload f) ≤ isize_max) frames →
  match with_frames locator frames with
  | Ok r => ∃ es, Forall2 frame_of frames es ∧ within_limits (charged es) ∧
      reading [] (charged es) (reader_state r)
  | Err _ => ¬ ∃ es, Forall2 frame_of frames es ∧ within_limits (charged es)
  | Panic => False
  end.
Proof.
  intros Hf. pose proof (with_frames_spec locator frames Hf) as Hw.
  destruct (with_frames locator frames) as [r|?|]; [|done..].
  destruct Hw as (es&Hes&Hlim&->). exists es. split; [done|]. split; [done|].
  pose proof (with_stream_spec locator (charged es) (charged_ok es (frames_wf _ _ Hes))) as R.
  by rewrite decide_True in R.
Qed.
End properties.

(** ** The properties at concrete inputs *)

(** The sample history, and its first event again. *)
Definition sample_stream : list (EventEnvelope * Z) :=
  charged (sample_chain ++ take 1 sample_chain).

Lemma sample_capacities es : forallb (λ e, blen (payload e) <=? isize_max) es = true →
  capacities_ok (charged es).
Proof.
  intros Hf. apply Forall_fmap, Forall_forall. intros e He. rewrite forallb_forall in Hf.
  specialize (Hf e (proj1 (list_elem_of_In _ _) He)). cbn. lia.
Qed.

Lemma reader_reads_stream_witness :
  let r := with_stream (str "a") sample_stream in
  let '(results, st) := @read_all toy_digests 4 (str "a") (reader_state r) in
  results = [Ok (observation (str "a") 0 (sample_envelope [x2a]));
             Ok (mk_ReaderObservation 1 (sample_id x03) (sample_id x02) (str "a") false);
             fail broken] ∧
  @read_event toy_digests (str "a") st = (None, st).
Proof.
  intros r. pose proof (@reader_reads_stream toy_digests (str "a") sample_stream 4) as Hr.
  destruct (@read_all toy_digests 4 (str "a") (reader_state r)) as [results st] eqn:E.
  assert (capacities_ok sample_stream) as Hc by (apply sample_capacities; vm_compute; reflexivity).
  assert ((length sample_stream < 4)%nat) as Hl by (vm_compute; lia).
  specialize (Hr Hc Hl). subst r. rewrite E in Hr. destruct Hr as [Hend _]. split; [|exact Hend].
  clear Hend. vm_compute in E. injection E as <- _. vm_compute. reflexivity.
Defined.

Lemma reader_accepts_sound_sessions_witness :
  (∀ fid, @fiber_sound toy_digests sample_chain fid) ∧
  (@read_all toy_digests 3 (str "a") (reader_state (with_stream (str "a") (charged sample_chain)))).1 =
    Ok <$> observations (str "a") 0 sample_chain.
Proof.
  assert (∀ fid, @fiber_sound toy_digests sample_chain fid) as Hs.
  { apply (@commit_all_live toy_digests sample_chain [] SessionIndex_new sample_index).
    - apply index_of_new.
    - intros f. split; [done|]. by intros ? ? ?.
    - by vm_compute. }
  split; [exact Hs|].
  destruct (@reader_accepts_sound_sessions toy_digests (str "a") (charged sample_chain) 3)
    as [Hr _].
  - by apply sample_capacities; vm_compute.
  - by (apply (bool_decide_unpack _); vm_compute).
  - vm_compute. lia.
  - rewrite charged_fst. by (apply (bool_decide_unpack _); vm_compute).
  - rewrite charged_fst in Hr. by apply Hr.
Defined.

Lemma stored_session_readable_witness :
  match @with_frames toy_digests (str "a") (@framed toy_digests sample_chain) with
  | Ok r => within_limits (charged sample_chain) ∧
      (@read_all toy_digests 3 (str "a") (reader_state r)).1 =
        Ok <$> observations (str "a") 0 sample_chain
  | _ => False
  end.
Proof.
  pose proof (@stored_session_readable toy_digests (str "a") sample_chain sample_index 3
    ltac:(by (apply (bool_decide_unpack _); vm_compute)) ltac:(by vm_compute)
    ltac:(vm_compute; lia)) as Hr.
  destruct (@with_frames toy_digests (str "a") (@framed toy_digests sample_chain)); [exact Hr| |exact Hr].
  apply Hr. by (apply (bool_decide_unpack _); vm_compute).
Defined.

Lemma frames_admitted_exactly_witness :
  let bad := mk_ContainerFrame (envelope_image (sample_envelope [x2a])) 0 in
  is_ok (@with_frames toy_digests (str "a") [bad]) = false ∧
  ¬ ∃ es, Forall2 (@frame_of toy_digests) [bad] es ∧ within_limits (charged es).
Proof.
  intros bad. split; [by vm_compute|].
  pose proof (@frames_admitted_exactly toy_digests (str "a") [bad]) as Hf.
  assert (@with_frames toy_digests (str "a") [bad] = fail FailureCondition_EnvelopeMismatch) as Hw
    by (vm_compute; reflexivity).
  rewrite Hw in Hf. apply Hf. by (apply (bool_decide_unpack _); vm_compute).
Defined.
