(* ===== verification/MetaFile.v ===== *)
(** * The metadata file: [src/crates/pardosa/src/file.rs], [MetaRecords] to
    [compute_claim_wire_len]

    The ownership records of an artefact are frames of the container format. A
    file is its bytes; [None] is a file that does not exist. *)

From S2P Require Export Container Ownership.

Record MetaRecords := mk_MetaRecords {
  latest_claim : option OwnershipClaimRecord;
  schema_descriptor : option SchemaDescriptor;
  outbound_pointer : option OutboundPointerRecord;
  inbound_pointer : option InboundPointerRecord;
  migration_start : option MigrationStartRecord;
  migration_end : option MigrationEndRecord;
  rescue_policy_choice : option RescuePolicyChoiceRecord;
}.

Definition MetaRecords_default : MetaRecords :=
  mk_MetaRecords None None None None None None None.

(** Every failure to read the file is reported as the record being unreadable. *)
Definition unreadable : OperationFailure :=
  OperationFailure_new FailureCondition_OwnershipRecordUnreadable.

(** The [match record] of the loop. *)
Definition absorb_record (records : MetaRecords) (record : OwnershipRecord) :
    outcome OperationFailure MetaRecords :=
  let 'mk_MetaRecords c d o i s e r := records in
  match record with
  | OwnershipRecord_OwnershipClaim claim => Ok (mk_MetaRecords (Some claim) d o i s e r)
  | OwnershipRecord_SchemaDescriptor v descriptor_bytes =>
      '(root, consumed_desc) ←
        map_err (λ _, unreadable) (DescriptorNode_decode descriptor_bytes);
      if negb (consumed_desc =? blen descriptor_bytes) then Err unreadable else
      let new_desc := mk_SchemaDescriptor v root in
      match d with
      | Some existing =>
          if bool_decide (existing ≠ new_desc) then Err unreadable else Ok records
      | None => Ok (mk_MetaRecords c (Some new_desc) o i s e r)
      end
  | OwnershipRecord_OutboundPointer p => Ok (mk_MetaRecords c d (Some p) i s e r)
  | OwnershipRecord_InboundPointer p => Ok (mk_MetaRecords c d o (Some p) s e r)
  | OwnershipRecord_MigrationStart m => Ok (mk_MetaRecords c d o i (Some m) e r)
  | OwnershipRecord_MigrationEnd m => Ok (mk_MetaRecords c d o i s (Some m) r)
  | OwnershipRecord_RescuePolicyChoice x => Ok (mk_MetaRecords c d o i s e (Some x))
  | OwnershipRecord_CleanRelease _ | OwnershipRecord_IdentityStructure _ => Ok records
  end.

(** The loop over the frames. *)
Fixpoint absorb_frames (records : MetaRecords) (frames : list bytes) :
    outcome OperationFailure MetaRecords :=
  match frames with
  | [] => Ok records
  | frame :: frames =>
      '(record, consumed) ← map_err (λ _, unreadable) (OwnershipRecord_decode frame);
      if negb (consumed =? blen frame) then Err unreadable else
      records ← absorb_record records record;
      absorb_frames records frames
  end.

Section meta.
Context `{Digests}.

Definition read_meta_records (meta : option bytes) : outcome OperationFailure MetaRecords :=
  match meta with
  | None => Ok MetaRecords_default
  | Some file =>
      scan ← map_err (λ _, unreadable) (read_container_frames file);
      match tail_state scan with
      | TailState_TornTail _ => Err unreadable
      | TailState_Clean =>
          if negb (format_version (scan_header scan) =? CONTAINER_FORMAT_VERSION)
          then Err unreadable else
          absorb_frames MetaRecords_default (scan_frames scan)
      end
  end.

(** [encode_payload] into a fresh buffer. *)
Definition framed (record_bytes : bytes) : outcome OperationFailure bytes :=
  map_err (λ _, OperationFailure_new (violated ValueConstraint_TooLong))
    (encode_payload record_bytes []).

(** The frame [append_meta_record] writes at the end of the file. *)
Definition meta_frame (record : OwnershipRecord) : outcome OperationFailure bytes :=
  rec_buf ← OwnershipRecord_encode record [];
  framed rec_buf.

(** A descriptor that is absent or not admissible is missing. *)
Definition require_descriptor (meta : MetaRecords) : outcome OperationFailure unit :=
  d ← ok_or (schema_descriptor meta)
        (OperationFailure_new FailureCondition_MissingSchemaDescriptor);
  _ ← map_err (λ _, OperationFailure_new FailureCondition_MissingSchemaDescriptor)
        (try_from_descriptor d);
  Ok tt.
End meta.

Definition compute_claim_wire_len_bounded (label_len max_wire_len : Z) :
    outcome OperationFailure Z :=
  let too_long := OperationFailure_new (violated ValueConstraint_TooLong) in
  total ← ok_or (checked_add 69 label_len) too_long;
  if max_wire_len <? total then Err too_long else
  ok_or (u32_try_from total) too_long.

Definition compute_claim_wire_len (label_len : Z) : outcome OperationFailure Z :=
  compute_claim_wire_len_bounded label_len u32_max.

(** ** Specification *)

Section meta_spec.
Context `{Digests}.

Lemma require_descriptor_not_panic m : require_descriptor m ≠ Panic.
Proof.
  unfold require_descriptor. destruct (schema_descriptor m) as [d|]; [|done]. simpl.
  pose proof (try_from_descriptor_cases d). by destruct (try_from_descriptor d).
Qed.

Lemma framed_Ok p f : framed p = Ok f → frame_wf p ∧ f = frame_image p.
Proof.
  unfold framed, encode_payload. rewrite try_encode_payload_cases.
  destruct (blen p <=? u32_max) eqn:Hp; [|done]. intros [= <-]. unfold frame_wf. split; [lia|done].
Qed.

Lemma framed_not_panic p : framed p ≠ Panic.
Proof. unfold framed, encode_payload. rewrite try_encode_payload_cases. by destruct (_ <=? _). Qed.

(** The file that holds the given records. *)
Definition meta_image (rs : list OwnershipRecord) : bytes :=
  container_image (record_image <$> rs).

Fixpoint absorb_records (m : MetaRecords) (rs : list OwnershipRecord) :
    outcome OperationFailure MetaRecords :=
  match rs with
  | [] => Ok m
  | r :: rs => m ← absorb_record m r; absorb_records m rs
  end.

(** The records a writer can have put in the file: in range, and no longer
    than a frame. *)
Definition meta_record_wf (r : OwnershipRecord) : Prop :=
  OwnershipRecord_wf r ∧ frame_wf (record_image r).

#[export] Instance meta_record_wf_dec r : Decision (meta_record_wf r).
Proof. unfold meta_record_wf, frame_wf. apply _. Defined.

Lemma absorb_frames_images rs : Forall meta_record_wf rs → ∀ m,
  absorb_frames m (record_image <$> rs) = absorb_records m rs.
Proof.
  induction 1 as [|r rs [Hw Hf] Hrs IH]; intros m; [done|].
  cbn [fmap list_fmap absorb_frames absorb_records].
  pose proof (OwnershipRecord_complete r [] Hw) as Hd. rewrite app_nil_r in Hd.
  rewrite Hd by done. rewrite map_err_of_Ok, bind_of_Ok, Z.eqb_refl. cbn [negb].
  destruct (absorb_record m r) as [m'| |]; simpl; [apply IH|done|done].
Qed.

Lemma read_meta_image `{!DigestLaws} rs :
  Forall meta_record_wf rs → blen (meta_image rs) ≤ isize_max →
  read_meta_records (Some (meta_image rs)) = absorb_records MetaRecords_default rs.
Proof.
  intros Hw Hb. unfold read_meta_records.
  pose proof (read_container_image (record_image <$> rs) []) as Hr.
  rewrite app_nil_r in Hr. unfold meta_image. rewrite Hr; [|..|done].
  - simpl. by apply absorb_frames_images.
  - apply Forall_fmap. eapply Forall_impl; [exact Hw|]. by intros r [].
  - by left.
Qed.

Lemma absorb_records_app m rs1 rs2 :
  absorb_records m (rs1 ++ rs2) = m' ← absorb_records m rs1; absorb_records m' rs2.
Proof.
  revert m. induction rs1 as [|r rs1 IH]; intros m; [done|]. simpl.
  destruct (absorb_record m r) as [m'| |]; simpl; [apply IH|done|done].
Qed.

Lemma meta_frame_image r :
  meta_record_wf r → meta_frame r = Ok (frame_image (record_image r)).
Proof.
  intros [Hw Hf]. unfold meta_frame. rewrite OwnershipRecord_encode_spec by done.
  rewrite bind_of_Ok. unfold framed, encode_payload. rewrite try_encode_payload_cases.
  unfold frame_wf in Hf. by destruct (blen _ <=? u32_max) eqn:?; [|simpl in *; lia].
Qed.

Definition claim_of (r : OwnershipRecord) : option OwnershipClaimRecord :=
  match r with OwnershipRecord_OwnershipClaim c => Some c | _ => None end.
Definition outbound_of (r : OwnershipRecord) : option OutboundPointerRecord :=
  match r with OwnershipRecord_OutboundPointer p => Some p | _ => None end.

Lemma absorb_record_claim m r m' :
  absorb_record m r = Ok m' →
  latest_claim m' = match claim_of r with Some c => Some c | None => latest_claim m end ∧
  outbound_pointer m' =
    match outbound_of r with Some p => Some p | None => outbound_pointer m end.
Proof.
  destruct m as [c d o i s e q], r; simpl; try by intros [= <-].
  intros Ha. apply bind_Ok in Ha as ([root n]&_&Ha). destruct (negb _); [done|].
  destruct d; [|by injection Ha as <-]. case_bool_decide; [done|by injection Ha as <-].
Qed.

Lemma last_cons_option {A} (x : option A) (l : list A) :
  last (match x with Some a => a :: l | None => l end) =
    match last l with Some b => Some b | None => x end.
Proof. destruct x; [|by destruct (last l)]. rewrite last_cons. by destruct (last l). Qed.

Lemma absorb_records_latest rs : ∀ m m', absorb_records m rs = Ok m' →
  latest_claim m' =
    match last (omap claim_of rs) with Some c => Some c | None => latest_claim m end ∧
  outbound_pointer m' =
    match last (omap outbound_of rs) with Some p => Some p | None => outbound_pointer m end.
Proof.
  induction rs as [|r rs IH]; intros m m' Ha; [by injection Ha as <-|].
  cbn [absorb_records] in Ha. apply bind_Ok in Ha as (m1&H1&Ha).
  apply absorb_record_claim in H1 as [Hc Ho]. apply IH in Ha as [Hc' Ho'].
  rewrite Hc', Ho', Hc, Ho. cbn [omap list_omap]. rewrite !last_cons_option.
  by destruct (last (omap claim_of rs)), (last (omap outbound_of rs)).
Qed.

Lemma absorb_record_total m r :
  (∀ v b, r = OwnershipRecord_SchemaDescriptor v b → blen b ≤ isize_max) →
  absorb_record m r ≠ Panic.
Proof.
  intros Hb. destruct m as [c d o i s e q], r as [| | | | | | | |v b]; try done. simpl.
  apply bind_not_panic.
  { by apply map_err_not_panic, DescriptorNode_decode_total, (Hb v). }
  intros [root n] _. destruct (negb _); [done|]. destruct d; [|done]. by case_bool_decide.
Qed.

Lemma absorb_frames_total fs : Forall frame_wf fs → ∀ m, absorb_frames m fs ≠ Panic.
Proof.
  induction 1 as [|f fs Hf Hfs IH]; intros m; [done|]. cbn [absorb_frames].
  assert (blen f ≤ isize_max) by (unfold frame_wf, u32_max, isize_max in *; lia).
  apply bind_not_panic; [by apply map_err_not_panic, OwnershipRecord_total|].
  intros [r n] Hd%map_err_Ok. destruct (negb _); [done|].
  apply bind_not_panic; [|by intros m' _].
  apply absorb_record_total. intros v b ->. apply OwnershipRecord_descriptor_blen in Hd. lia.
Qed.

(** Reading the file ends, whatever it holds. *)
Lemma read_meta_total `{!DigestLaws} file :
  blen file ≤ isize_max → read_meta_records (Some file) ≠ Panic.
Proof.
  intros Hb. unfold read_meta_records.
  apply bind_not_panic; [by apply map_err_not_panic, read_container_total|].
  intros scan Hs%map_err_Ok%read_container_sound.
  destruct Hs as (fs&t&Hw&_&_&->). cbn [tail_state scan_header scan_frames].
  destruct (tail_of _ _); [|done]. destruct (negb _); [done|]. by apply absorb_frames_total.
Qed.
End meta_spec.

(** Metadata is read as the fold of its records. A metadata file made of
    records in range reads as its records absorbed in order: the claim and the
    outbound pointer reported are the last ones written (the ones that decide
    fencing and retirement); a record appended afterwards is absorbed last; and
    a file ending in a torn record is unreadable. *)
Theorem meta_records_exact `{DigestLaws} rs t :
  Forall meta_record_wf rs → blen (meta_image rs ++ t) ≤ isize_max →
  read_meta_records (Some (meta_image rs)) = absorb_records MetaRecords_default rs ∧
  (torn t → read_meta_records (Some (meta_image rs ++ t)) = Err unreadable) ∧
  ∀ m, read_meta_records (Some (meta_image rs)) = Ok m →
    latest_claim m = last (omap claim_of rs) ∧
    outbound_pointer m = last (omap outbound_of rs) ∧
    ∀ r, meta_record_wf r → meta_frame r = Ok t →
      read_meta_records (Some (meta_image rs ++ t)) = absorb_record m r.
Proof.
  intros Hw Hb. rewrite blen_app in Hb. pose proof (blen_nonneg t).
  assert (read_meta_records (Some (meta_image rs)) = absorb_records MetaRecords_default rs)
    as Hread by (apply read_meta_image; [done|lia]).
  assert (Forall frame_wf (record_image <$> rs)) as Hfw
    by (apply Forall_fmap; eapply Forall_impl; [exact Hw|by intros r []]).
  split; [done|]. split.
  - intros Ht. unfold read_meta_records, meta_image in *.
    rewrite read_container_image; [|done|by right|rewrite blen_app; lia].
    unfold tail_of. destruct t; [by destruct Ht|done].
  - intros m Hm. rewrite Hread in Hm. destruct (absorb_records_latest _ _ _ Hm) as [Hc Ho].
    rewrite Hc, Ho. cbn [latest_claim outbound_pointer MetaRecords_default].
    split; [by destruct (last (omap claim_of rs))|].
    split; [by destruct (last (omap outbound_of rs))|].
    intros r Hr Hf. rewrite meta_frame_image in Hf by done. injection Hf as <-.
    assert (meta_image rs ++ frame_image (record_image r) = meta_image (rs ++ [r])) as ->
      by (unfold meta_image; by rewrite fmap_app, <-container_image_snoc).
    rewrite read_meta_image, absorb_records_app, Hm; [simpl|..].
    + by destruct (absorb_record m r).
    + apply Forall_app_2; [done|by apply Forall_singleton].
    + unfold meta_image. rewrite fmap_app. cbn [fmap list_fmap].
      rewrite container_image_snoc, blen_app. fold (meta_image rs). lia.
Qed.
