(* ===== verification/Engine.v ===== *)
(** * The storage engine contract: [src/crates/pardosa/src/store/engine.rs]

    The trait [StorageEngine] as a class whose methods pass the engine's state,
    its provided methods as definitions over the required ones, and the laws a
    driver owes the pipeline: what is stored, and how an append and a read
    relate to it. *)

From S2P Require Export Container Ownership.

(** ** Provided methods, over the methods they call *)

(** The callback gets the position and the frame; [S] is what it captures. *)
Definition FrameRecoveryCallback (S : Type) : Type :=
  Z → bytes → S → outcome OperationFailure unit * S.

(** [read_chunk]: a slice of [read_all]. *)
Definition default_read_chunk {E} (read_all : E → outcome OperationFailure (list bytes) * E)
    (start_index max_items : Z) (e : E) : outcome OperationFailure (list bytes) * E :=
  if max_items =? 0 then (Ok [], e) else
  match read_all e with
  | (Ok all, e) =>
      let start := start_index in
      if blen all <=? start then (Ok [], e) else
      let stop := Z.min (saturating_add start max_items) (blen all) in
      (slice all start stop, e)
  | (Err err, e) => (Err err, e)
  | (Panic, e) => (Panic, e)
  end.

(** [read_block]: the last element of a chunk of one. *)
Definition default_read_block {E}
    (read_chunk : Z → Z → E → outcome OperationFailure (list bytes) * E)
    (index : Z) (e : E) : outcome OperationFailure bytes * E :=
  match read_chunk index 1 e with
  | (Ok chunk, e) =>
      (ok_or (last chunk) (OperationFailure_new (violated ValueConstraint_TooLong)), e)
  | (Err err, e) => (Err err, e)
  | (Panic, e) => (Panic, e)
  end.

(** The [for] over one chunk: the running count, and the callback's state. *)
Fixpoint feed {S} (on_frame : FrameRecoveryCallback S) (total : Z) (chunk : list bytes) (s : S) :
    outcome OperationFailure Z * S :=
  match chunk with
  | [] => (Ok total, s)
  | frame :: chunk =>
      match on_frame total frame s with
      | (Ok _, s) => feed on_frame (u64_saturating_add total 1) chunk s
      | (Err err, s) => (Err err, s)
      | (Panic, s) => (Panic, s)
      end
  end.

(** The [loop] of [recover_frames]; running out of fuel is [Panic]. *)
Fixpoint recover_loop {E S} (fuel : nat)
    (read_chunk : Z → Z → E → outcome OperationFailure (list bytes) * E)
    (chunk_size : Z) (on_frame : FrameRecoveryCallback S) (start_index total_frames : Z)
    (e : E) (s : S) : outcome OperationFailure Z * E * S :=
  match fuel with
  | O => (Panic, e, s)
  | Datatypes.S fuel =>
      match read_chunk start_index chunk_size e with
      | (Err err, e) => (Err err, e, s)
      | (Panic, e) => (Panic, e, s)
      | (Ok chunk, e) =>
          if is_empty chunk then (Ok total_frames, e, s) else
          match feed on_frame total_frames chunk s with
          | (Err err, s) => (Err err, e, s)
          | (Panic, s) => (Panic, e, s)
          | (Ok total_frames, s) =>
              if blen chunk <? chunk_size then (Ok total_frames, e, s) else
              recover_loop fuel read_chunk chunk_size on_frame
                (u64_saturating_add start_index (blen chunk)) total_frames e s
          end
      end
  end.

Definition default_recover_frames {E S} (fuel : nat)
    (read_chunk : Z → Z → E → outcome OperationFailure (list bytes) * E)
    (chunk_size : Z) (on_frame : FrameRecoveryCallback S) (e : E) (s : S) :
    outcome OperationFailure Z * E * S :=
  recover_loop fuel read_chunk (Z.max chunk_size 1) on_frame 0 0 e s.

(** ** The trait

    A [&mut self] method returns the engine it leaves. The diagnostic of an
    uncertain engine is its presence. *)

Class StorageEngine (E : Type) := {
  engine_carried_epoch : E → Z;
  engine_check_authority : E → outcome OperationFailure unit;
  append_block : bytes → E → outcome OperationFailure (WriteLandingVerdict Z) * E;
  engine_read_block : Z → E → outcome OperationFailure bytes * E;
  read_all : E → outcome OperationFailure (list bytes) * E;
  read_chunk : Z → Z → E → outcome OperationFailure (list bytes) * E;
  recover_frames : ∀ {S : Type}, Z → FrameRecoveryCallback S → E → S →
    outcome OperationFailure Z * E * S;
  acquire_exclusion : E → outcome OperationFailure unit * E;
  release_exclusion : E → outcome OperationFailure unit * E;
  engine_is_retired : E → outcome OperationFailure bool;
  engine_sync : E → outcome OperationFailure unit * E;
  engine_set_simulate_indeterminate : bool → E → E;
  engine_uncertain_diagnostic : E → option unit;
  engine_claim : E → option OwnershipClaimRecord;
  engine_admission : E → OpenAdmission;
  engine_schema_descriptor : E → option SchemaDescriptor;
  engine_outbound_pointer : E → option OutboundPointerRecord;
  engine_inbound_pointer : E → option InboundPointerRecord;
  engine_migration_start : E → option MigrationStartRecord;
  engine_migration_end : E → option MigrationEndRecord;
  engine_rescue_policy_choice : E → option RescuePolicyChoiceRecord;
}.

(** ** What a driver owes the pipeline

    [stored] are the frames a driver holds, [engine_wf] its own invariant.
    An append that lands adds its frame; one that fails adds nothing; one whose
    landing is undetermined either added it or did not, and the driver says so
    in its diagnostic. *)
Class AppendLaws (E : Type) `{Digests, StorageEngine E} := {
  stored : E → list bytes;
  engine_wf : E → Prop;
  stored_frames_wf e : engine_wf e → Forall frame_wf (stored e);
  check_authority_law e : engine_wf e → engine_check_authority e ≠ Panic;
  append_block_law e p r e' :
    engine_wf e → frame_wf p → append_block (frame_image p) e = (r, e') →
    engine_wf e' ∧
    match r with
    | Ok (WriteLandingVerdict_Landed _) =>
        stored e' = stored e ++ [p] ∧
        engine_uncertain_diagnostic e' = engine_uncertain_diagnostic e
    | Ok (WriteLandingVerdict_Undetermined _) =>
        (stored e' = stored e ∨ stored e' = stored e ++ [p]) ∧
        engine_uncertain_diagnostic e' = Some tt
    | Err _ => stored e' = stored e
    | Panic => False
    end;
}.

(** Of a driver that nobody writes behind: reads return what is stored or fail; a
    recovery may stop early on a read error, having fed a prefix. *)
Class EngineLaws (E : Type) `{Digests, StorageEngine E, !AppendLaws E} := {
  read_all_law e r e' :
    engine_wf e → read_all e = (r, e') →
    engine_wf e' ∧ stored e' = stored e ∧ (∀ fs, r = Ok fs → fs = stored e) ∧ r ≠ Panic;
  recover_frames_law {S : Type} n (cb : FrameRecoveryCallback S) e s r e' s' :
    engine_wf e → recover_frames n cb e s = (r, e', s') →
    engine_wf e' ∧ stored e' = stored e ∧
    ((r, s') = feed cb 0 (stored e) s ∨
     ∃ k n err, feed cb 0 (take k (stored e)) s = (Ok n, s') ∧ r = Err err);
}.

(** ** Lemmas on feeding *)

Lemma feed_app {S} (cb : FrameRecoveryCallback S) total l1 l2 s :
  feed cb total (l1 ++ l2) s =
    match feed cb total l1 s with
    | (Ok n, s) => feed cb n l2 s
    | r => r
    end.
Proof.
  revert total s. induction l1 as [|f l1 IH]; intros total s; [done|]. simpl.
  destruct (cb total f s) as [[u|e|] s']; [apply IH|done|done].
Qed.

Lemma feed_count {S} (cb : FrameRecoveryCallback S) l : ∀ total s n s',
  feed cb total l s = (Ok n, s') → total + blen l ≤ u64_max → n = total + blen l.
Proof.
  induction l as [|f l IH]; intros total s n s' Hf Hb; [injection Hf; unfold blen; simpl; lia|].
  cbn [feed] in Hf. rewrite blen_cons in *. pose proof (blen_nonneg l).
  destruct (cb total f s) as [[u|e|] s1]; [|done..]. unfold u64_saturating_add in Hf.
  apply IH in Hf; lia.
Qed.

(** Reading in chunks of a driver whose contents do not change feeds every
    frame once and in order. *)
Section chunks.
Context {E S : Type}.
Context (rc : Z → Z → E → outcome OperationFailure (list bytes) * E).
Context (inv : E → Prop) (all : list bytes).
Context (rc_spec : ∀ start n e, inv e → 0 ≤ start → 1 ≤ n → ∃ e',
  rc start n e = (Ok (take (Z.to_nat n) (drop (Z.to_nat start) all)), e') ∧ inv e').
Context (Hall : blen all ≤ u64_max).

Lemma recover_loop_feeds fuel n (cb : FrameRecoveryCallback S) start total e s :
  inv e → 1 ≤ n → 0 ≤ start ≤ blen all → Z.of_nat fuel > blen all - start →
  ∃ e', recover_loop fuel rc n cb start total e s =
    ((feed cb total (drop (Z.to_nat start) all) s).1, e',
     (feed cb total (drop (Z.to_nat start) all) s).2) ∧ inv e'.
Proof.
  revert start total e s. induction fuel as [|fuel IH]; intros start total e s Hi Hn Hs Hf; [lia|].
  cbn [recover_loop]. destruct (rc_spec start n e) as (e'&->&Hi'); [done|lia|lia|].
  set (rest := drop (Z.to_nat start) all).
  assert (blen rest = blen all - start) as Hr by (unfold rest, blen in *; rewrite length_drop; lia).
  pose proof (feed_app cb total (take (Z.to_nat n) rest) (drop (Z.to_nat n) rest) s) as Hsplit.
  rewrite take_drop in Hsplit.
  destruct (is_empty (take (Z.to_nat n) rest)) eqn:He.
  { exists e'. split; [|done]. assert (rest = []) as ->; [|done].
    destruct rest as [|f r]; [done|].
    destruct (Z.to_nat n) eqn:Hz; [lia|done]. }
  rewrite !Hsplit.
  destruct (feed cb total (take (Z.to_nat n) rest) s) as [[m|?|] s1]; [|by exists e'..].
  assert (blen (take (Z.to_nat n) rest) = Z.min n (blen rest)) as Hl
    by (unfold blen; rewrite length_take; lia).
  destruct (blen (take (Z.to_nat n) rest) <? n) eqn:Hc.
  { exists e'. split; [|done]. rewrite drop_ge; [done|]. unfold blen in *. lia. }
  destruct (IH (u64_saturating_add start (blen (take (Z.to_nat n) rest))) m e' s1)
    as (e''&Heq&?); [done|done|unfold u64_saturating_add; lia..|].
  exists e''. split; [|done]. rewrite Heq. unfold u64_saturating_add.
  replace (Z.to_nat (Z.min (start + blen (take (Z.to_nat n) rest)) u64_max))
    with (Z.to_nat start + Z.to_nat n)%nat by lia.
  unfold rest. by rewrite drop_drop.
Qed.
End chunks.

(** C25: The provided [recover_frames] is exact for every chunk size, zero
    included: over a driver whose reads succeed and return the same frames, it
    ends, and hands every frame once, in order and with its position, to the
    callback, stopping at the callback's first error. *)
Theorem chunked_recovery_exact {E S} (ra : E → outcome OperationFailure (list bytes) * E)
    (inv : E → Prop) all n (cb : FrameRecoveryCallback S) e s :
  (∀ e, inv e → ∃ e', ra e = (Ok all, e') ∧ inv e') → inv e →
  0 ≤ n ≤ usize_max → blen all ≤ isize_max →
  ∃ e', default_recover_frames (Datatypes.S (length all)) (default_read_chunk ra) n cb e s =
    ((feed cb 0 all s).1, e', (feed cb 0 all s).2) ∧ inv e'.
Proof.
  intros Hra Hi Hn Hall. unfold default_recover_frames.
  apply (recover_loop_feeds (default_read_chunk ra) inv all);
    [|unfold u64_max, isize_max in *; lia|done|lia|pose proof (blen_nonneg all); lia
     |unfold blen in *; lia].
  clear e Hi. intros start k e Hi Hs Hk. unfold default_read_chunk.
  destruct (k =? 0) eqn:?; [lia|]. destruct (Hra e Hi) as (e'&->&Hi').
  exists e'. split; [|done]. f_equal. destruct (blen all <=? start) eqn:Hge.
  { rewrite drop_ge by (unfold blen in *; lia). by destruct (Z.to_nat k). }
  unfold saturating_add. rewrite slice_in_range by (unfold usize_max, isize_max in *; lia).
  f_equal. destruct (decide (start + k ≤ blen all)).
  - do 2 f_equal. unfold usize_max, isize_max in *. lia.
  - rewrite !take_ge; [done|..]; unfold blen, usize_max, isize_max in *; rewrite length_drop; lia.
Qed.
