(* ===== verification/Pipeline.v ===== *)
(** * The storage pipeline: [src/crates/pardosa/src/store/pipeline.rs]

    [Store] derives the rolling commitment and the session index from what an
    engine recovers, validates each frame against them, hands it to the engine
    and updates them when it landed. Everything is over the interface
    [StorageEngine]; the theorems use [AppendLaws] and, where they read,
    [EngineLaws]. Methods that only forward a getter of the engine are that
    getter. *)

From S2P Require Export SessionIndex Engine.

Record Store (E : Type) := mk_Store {
  engine : E;
  rolling_commitment : RollingCommitment;
  fiber_index : SessionIndex;
  broken_reader_cause : option FailureCondition;
  uncertain : bool;
  store_diagnostic : option unit;  (* [uncertain_diagnostic]: its presence *)
}.
Arguments mk_Store {E}.
Arguments engine {E}.
Arguments rolling_commitment {E}.
Arguments fiber_index {E}.
Arguments broken_reader_cause {E}.
Arguments uncertain {E}.
Arguments store_diagnostic {E}.

Section pipeline.
Context `{Digests} {E : Type} `{!StorageEngine E}.

(** ** Opening *)

(** [ContainerFrame::encode_payload] into a fresh buffer. *)
Definition frame_of (frame : bytes) : outcome OperationFailure bytes :=
  map_err (λ _, OperationFailure_new broken) (encode_payload frame []).

(** The callback of [open_writer]; it captures the rolling commitment and the
    index. *)
Definition writer_callback : FrameRecoveryCallback (RollingCommitment * SessionIndex) :=
  λ _ frame '(rolling, idx),
    match frame_of frame with
    | Ok frame_buf =>
        let rolling := update_frame rolling frame_buf in
        let '(res, idx) := process_frame idx frame in
        (res, (rolling, idx))
    | Err err => (Err err, (rolling, idx))
    | Panic => (Panic, (rolling, idx))
    end.

Definition open_writer (e : E) : outcome OperationFailure (Store E) :=
  let '(res, e, (rolling, idx)) :=
    recover_frames 64 writer_callback e (RollingCommitment_new, SessionIndex_new) in
  _ ← res;
  Ok (mk_Store e rolling idx None false None).

(** The callback of [open_reader] also captures the cause of the break. *)
Definition reader_callback :
    FrameRecoveryCallback (RollingCommitment * SessionIndex * option FailureCondition) :=
  λ _ frame '(rolling, idx, broken_cause),
    match frame_of frame with
    | Ok frame_buf =>
        let rolling := update_frame rolling frame_buf in
        match broken_cause with
        | None =>
            match process_frame idx frame with
            | (Err err, idx) => (Err err, (rolling, idx, Some (condition err)))
            | (Panic, idx) => (Panic, (rolling, idx, broken_cause))
            | (Ok _, idx) => (Ok tt, (rolling, idx, broken_cause))
            end
        | Some _ => (Ok tt, (rolling, idx, broken_cause))
        end
    | Err err => (Err err, (rolling, idx, broken_cause))
    | Panic => (Panic, (rolling, idx, broken_cause))
    end.

(** [open_reader] cannot fail: a broken history is retained as the cause. *)
Definition open_reader (e : E) : outcome OperationFailure (Store E) :=
  let '(res, e, (rolling, idx, broken_cause)) :=
    recover_frames 64 reader_callback e (RollingCommitment_new, SessionIndex_new, None) in
  match res with
  | Panic => Panic
  | _ =>
      match broken_cause with
      | Some cause => Ok (mk_Store e rolling SessionIndex_new (Some cause) false None)
      | None =>
          if has_broken_fibers idx
          then Ok (mk_Store e rolling SessionIndex_new (Some broken) false None) else
          match res with
          | Err err =>
              Ok (mk_Store e RollingCommitment_new SessionIndex_new (Some (condition err)) false None)
          | _ => Ok (mk_Store e rolling idx None false None)
          end
      end
  end.

(** ** Authority and lookups *)

Definition uncertain_diagnostic (st : Store E) : option unit :=
  match store_diagnostic st with
  | Some d => Some d
  | None => engine_uncertain_diagnostic (engine st)
  end.

(** [self.uncertain || self.engine.uncertain_diagnostic().is_some()]. *)
Definition is_uncertain (st : Store E) : bool :=
  uncertain st || bool_decide (is_Some (engine_uncertain_diagnostic (engine st))).

Definition check_session_authority (st : Store E) : outcome OperationFailure unit :=
  if is_uncertain st then fail FailureCondition_OwnershipRecordUnreadable else
  engine_check_authority (engine st).

Definition session_index (st : Store E) : outcome OperationFailure SessionIndex :=
  match broken_reader_cause st with
  | Some cause => fail cause
  | None => Ok (fiber_index st)
  end.

Definition validate_schema_completeness (st : Store E) : outcome OperationFailure unit :=
  match engine_schema_descriptor (engine st) with
  | Some d => SchemaDescriptor_validate d
  | None => fail FailureCondition_MissingSchemaDescriptor
  end.

Definition sync (st : Store E) : outcome OperationFailure unit * Store E :=
  let '(r, e) := engine_sync (engine st) in
  (r, mk_Store e (rolling_commitment st) (fiber_index st) (broken_reader_cause st)
        (uncertain st) (store_diagnostic st)).

Definition set_simulate_indeterminate (simulate : bool) (st : Store E) : Store E :=
  mk_Store (engine_set_simulate_indeterminate simulate (engine st)) (rolling_commitment st)
    (fiber_index st) (broken_reader_cause st) (uncertain st) (store_diagnostic st).

Definition fiber (st : Store E) (fid : bytes) : outcome OperationFailure FiberHandle :=
  if is_uncertain st then fail FailureCondition_OwnershipRecordUnreadable else
  match broken_reader_cause st with
  | Some cause => fail cause
  | None => index_fiber (fiber_index st) fid
  end.

Definition fiber_with_key (st : Store E) (domain_key : bytes) :
    outcome OperationFailure FiberHandle :=
  fid ← derive_fiber_id domain_key; fiber st fid.

Definition store_get_latest (st : Store E) (fid : bytes) :
    outcome OperationFailure (option EventEnvelope) :=
  if is_uncertain st then fail FailureCondition_OwnershipRecordUnreadable else
  match broken_reader_cause st with
  | Some cause => fail cause
  | None => get_latest (fiber_index st) fid
  end.

Definition get_latest_with_key (st : Store E) (domain_key : bytes) :
    outcome OperationFailure (option EventEnvelope) :=
  fid ← derive_fiber_id domain_key; store_get_latest st fid.

(** ** Appending *)

(** [append_frame_verdict] up to the call of the engine, *)
Definition admit_frame (p : bytes) (st : Store E) :
    outcome OperationFailure (EventEnvelope * bytes) :=
  if u32_max <? blen p then fail (violated ValueConstraint_TooLong) else
  _ ← check_session_authority st;
  if blen p <? 85 then fail FailureCondition_EnvelopeMismatch else
  '(env, consumed) ←
    map_err (λ _, OperationFailure_new FailureCondition_EnvelopeMismatch)
      (EventEnvelope_decode p);
  if negb (consumed =? blen p) then fail FailureCondition_EnvelopeMismatch else
  _ ← validate_append (fiber_index st) env;
  frame_buf ←
    map_err (λ _, OperationFailure_new (violated ValueConstraint_TooLong))
      (encode_payload p []);
  Ok (env, frame_buf).

(** and from there on. *)
Definition land_frame (env : EventEnvelope) (frame_buf : bytes) (st : Store E) :
    outcome OperationFailure (WriteLandingVerdict Z) * Store E :=
  let '(verdict, e) := append_block frame_buf (engine st) in
  let st := mk_Store e (rolling_commitment st) (fiber_index st) (broken_reader_cause st)
              (uncertain st) (store_diagnostic st) in
  match verdict with
  | Err err => (Err err, st)
  | Panic => (Panic, st)
  | Ok (WriteLandingVerdict_Landed _) =>
      let rolling := update_frame (rolling_commitment st) frame_buf in
      (Ok (WriteLandingVerdict_Landed (frame_count rolling)),
       mk_Store e rolling (commit_envelope_unchecked (fiber_index st) env)
         (broken_reader_cause st) (uncertain st) (store_diagnostic st))
  | Ok (WriteLandingVerdict_Undetermined carried_epoch) =>
      (Ok (WriteLandingVerdict_Undetermined carried_epoch),
       mk_Store e (rolling_commitment st) (fiber_index st) (broken_reader_cause st)
         true (Some tt))
  end.

Definition append_frame_verdict (p : bytes) (st : Store E) :
    outcome OperationFailure (WriteLandingVerdict Z) * Store E :=
  match admit_frame p st with
  | Ok (env, frame_buf) => land_frame env frame_buf st
  | Err err => (Err err, st)
  | Panic => (Panic, st)
  end.

Definition append_envelope_verdict (envelope : EventEnvelope) (st : Store E) :
    outcome OperationFailure (WriteLandingVerdict Z) * Store E :=
  match
    wire ← map_err (λ _, OperationFailure_new (violated ValueConstraint_TooLong))
             (WireEnvelope_try_from envelope);
    WireEnvelope_encode wire []
  with
  | Ok env_buf => append_frame_verdict env_buf st
  | Err err => (Err err, st)
  | Panic => (Panic, st)
  end.

(** The shape of [append_to_fiber], [detach_fiber] and [rescue_fiber]: an
    operation on the handle of the fiber, then the append of what it minted. *)
Definition through_handle
    (operation : FiberHandle → outcome OperationFailure EventEnvelope * FiberHandle)
    (fid : bytes) (st : Store E) :
    outcome OperationFailure (WriteLandingVerdict EventEnvelope) * Store E :=
  match
    _ ← check_session_authority st;
    handle ← fiber st fid;
    (operation handle).1
  with
  | Err err => (Err err, st)
  | Panic => (Panic, st)
  | Ok envelope =>
      match append_envelope_verdict envelope st with
      | (Ok (WriteLandingVerdict_Landed _), st) => (Ok (WriteLandingVerdict_Landed envelope), st)
      | (Ok (WriteLandingVerdict_Undetermined carried_epoch), st) =>
          (Ok (WriteLandingVerdict_Undetermined carried_epoch), st)
      | (Err err, st) => (Err err, st)
      | (Panic, st) => (Panic, st)
      end
  end.

Definition append_to_fiber (fid eid p : bytes) (st : Store E) :=
  through_handle (λ handle, FiberHandle_append handle eid p) fid st.
Definition detach_fiber (fid eid p : bytes) (st : Store E) :=
  through_handle (λ handle, FiberHandle_detach handle eid p) fid st.
Definition rescue_fiber (fid eid p : bytes) (st : Store E) :=
  through_handle (λ handle, FiberHandle_rescue handle eid p) fid st.

(** ** Reading *)

(** The [for] over the frames: each is framed again and absorbed. *)
Fixpoint absorb (rolling : RollingCommitment) (frames : list bytes) :
    outcome OperationFailure RollingCommitment :=
  match frames with
  | [] => Ok rolling
  | frame :: frames =>
      frame_buf ← frame_of frame;
      absorb (update_frame rolling frame_buf) frames
  end.

Definition with_cause (cause : option FailureCondition) (st : Store E) : Store E :=
  mk_Store (engine st) (rolling_commitment st) (fiber_index st) cause (uncertain st)
    (store_diagnostic st).

Definition read_all_frames (st : Store E) : outcome OperationFailure (list bytes) * Store E :=
  let '(res, e) := read_all (engine st) in
  let st := mk_Store e (rolling_commitment st) (fiber_index st) (broken_reader_cause st)
              (uncertain st) (store_diagnostic st) in
  match res with
  | Err err =>
      (Err err, if is_chain_broken err then with_cause (Some (condition err)) st else st)
  | Panic => (Panic, st)
  | Ok frames =>
      match absorb RollingCommitment_new frames with
      | Ok rolling =>
          (Ok frames,
           mk_Store (engine st) rolling (fiber_index st) (broken_reader_cause st) (uncertain st)
             (store_diagnostic st))
      | Err err => (Err err, st)
      | Panic => (Panic, st)
      end
  end.

Definition with_index (idx : SessionIndex) (st : Store E) : Store E :=
  mk_Store (engine st) (rolling_commitment st) idx (broken_reader_cause st) (uncertain st)
    (store_diagnostic st).

(** [iter().map(decode).collect()]: the first error. *)
Fixpoint decode_frames (frames : list bytes) : outcome OperationFailure (list EventEnvelope) :=
  match frames with
  | [] => Ok []
  | frame :: frames =>
      env ← decode_and_validate_frame frame;
      envs ← decode_frames frames;
      Ok (env :: envs)
  end.

(** The closure of [read_all_envelopes_inner]. *)
Definition read_envelopes_body (for_migration : bool) (st : Store E) :
    outcome OperationFailure (list EventEnvelope) * Store E :=
  match read_all_frames st with
  | (Err err, st) => (Err err, st)
  | (Panic, st) => (Panic, st)
  | (Ok frames, st) =>
      if existsb (λ frame, blen frame <? 85) frames
      then (fail FailureCondition_EnvelopeMismatch, st) else
      match build_from_frames frames with
      | Err err => (Err err, st)
      | Panic => (Panic, st)
      | Ok idx =>
          if negb for_migration && has_broken_fibers idx
          then (fail broken, with_index idx st) else
          match decode_frames frames with
          | Ok envelopes => (Ok envelopes, with_index idx st)
          | Err err => (Err err, st)
          | Panic => (Panic, st)
          end
      end
  end.

Definition read_all_envelopes_inner (for_migration : bool) (st : Store E) :
    outcome OperationFailure (list EventEnvelope) * Store E :=
  match (if for_migration then None else broken_reader_cause st) with
  | Some cause => (fail cause, st)
  | None =>
      match read_envelopes_body for_migration st with
      | (Err err, st) =>
          (Err err, if is_chain_broken err then with_cause (Some (condition err)) st else st)
      | res => res
      end
  end.

Definition read_all_envelopes := read_all_envelopes_inner false.
Definition read_all_envelopes_for_migration := read_all_envelopes_inner true.

(** What the callback of [for_each_envelope] captures; [S] is what the visitor
    captures. *)
Record visit (S : Type) := mk_visit {
  validation_index : SessionIndex;
  visit_rolling : RollingCommitment;
  broken_error : option OperationFailure;
  callback_error : option OperationFailure;
  visitor_state : S;
}.
Arguments mk_visit {S}.
Arguments validation_index {S}.
Arguments visit_rolling {S}.
Arguments broken_error {S}.
Arguments callback_error {S}.
Arguments visitor_state {S}.

Section for_each.
Context {S : Type}.
Context (f : EventEnvelopeRef → S → outcome OperationFailure unit * S).

Definition visit_callback : FrameRecoveryCallback (visit S) := λ _ frame v,
  let '(mk_visit idx rolling broken_err callback_err s) := v in
  let break err := (Err err, mk_visit idx rolling (Some err) callback_err s) in
  if blen frame <? 85 then break (OperationFailure_new FailureCondition_EnvelopeMismatch) else
  match EventEnvelopeRef_decode frame with
  | Panic => (Panic, v)
  | Err _ => break (OperationFailure_new FailureCondition_EnvelopeMismatch)
  | Ok (env_ref, consumed) =>
      if negb (consumed =? blen frame)
      then break (OperationFailure_new FailureCondition_EnvelopeMismatch) else
      let owned_env := EventEnvelopeRef_to_owned env_ref in
      match validate_append idx owned_env with
      | Panic => (Panic, v)
      | Err val_err => break val_err
      | Ok _ =>
          let idx := commit_envelope_unchecked idx owned_env in
          match frame_of frame with
          | Panic => (Panic, mk_visit idx rolling broken_err callback_err s)
          | Err err => (Err err, mk_visit idx rolling broken_err callback_err s)
          | Ok frame_buf =>
              let rolling := update_frame rolling frame_buf in
              match f env_ref s with
              | (Ok _, s) => (Ok tt, mk_visit idx rolling broken_err callback_err s)
              | (Err cb_err, s) =>
                  (Err cb_err, mk_visit idx rolling broken_err (Some cb_err) s)
              | (Panic, s) => (Panic, mk_visit idx rolling broken_err callback_err s)
              end
          end
      end
  end.

(** [matches!(cause, TransportUnavailable)]. *)
Definition is_transport (c : FailureCondition) : bool :=
  bool_decide (c = FailureCondition_TransportUnavailable).

Definition for_each_unbroken (st : Store E) (s : S) :
    outcome OperationFailure unit * Store E * S :=
  if has_broken_fibers (fiber_index st) then (fail broken, st, s) else
  let '(res, e, v) :=
    recover_frames 64 visit_callback (engine st)
      (mk_visit SessionIndex_new RollingCommitment_new None None s) in
  let st := mk_Store e (rolling_commitment st) (fiber_index st) (broken_reader_cause st)
              (uncertain st) (store_diagnostic st) in
  let s := visitor_state v in
  match res with
  | Panic => (Panic, st, s)
  | _ =>
      match callback_error v with
      | Some cb_err => (Err cb_err, st, s)
      | None =>
          match broken_error v with
          | Some err => (Err err, with_cause (Some (condition err)) st, s)
          | None =>
              match res with
              | Err engine_err =>
                  (Err engine_err,
                   if negb (is_transport (condition engine_err))
                   then with_cause (Some (condition engine_err)) st else st, s)
              | _ =>
                  (Ok tt,
                   mk_Store e (visit_rolling v) (validation_index v) None (uncertain st)
                     (store_diagnostic st), s)
              end
          end
      end
  end.

Definition for_each_envelope (st : Store E) (s : S) :
    outcome OperationFailure unit * Store E * S :=
  match broken_reader_cause st with
  | Some cause => if is_transport cause then for_each_unbroken st s else (fail cause, st, s)
  | None => for_each_unbroken st s
  end.
End for_each.

(** The accumulator is taken before the visitor runs and put back after. *)
Definition fold_envelopes {B} (f : B → EventEnvelopeRef → outcome OperationFailure B)
    (init : B) (st : Store E) : outcome OperationFailure B * Store E :=
  let visitor env acc :=
    match acc with
    | None => (Panic, None)
    | Some current =>
        match f current env with
        | Ok acc => (Ok tt, Some acc)
        | Err err => (Err err, None)
        | Panic => (Panic, None)
        end
    end in
  match for_each_envelope visitor st (Some init) with
  | (Ok _, st, Some acc) => (Ok acc, st)
  | (Ok _, st, None) => (Panic, st)
  | (Err err, st, _) => (Err err, st)
  | (Panic, st, _) => (Panic, st)
  end.
End pipeline.
Arguments mk_visit {S}.
Arguments validation_index {S}.
Arguments visit_rolling {S}.
Arguments broken_error {S}.
Arguments callback_error {S}.
Arguments visitor_state {S}.

(** ** Specification *)

Section spec.
Context `{Digests} {E : Type} `{!StorageEngine E} `{!AppendLaws E}.
Implicit Types (st : Store E) (p : bytes) (fs : list bytes).

(** The state in memory is the one that the stored frames determine. *)
Record live st : Prop := {
  live_engine : engine_wf (engine st);
  live_rolling :
    rolling_commitment st = commit_frames RollingCommitment_new (stored (engine st));
  live_index : build_from_frames (stored (engine st)) = Ok (fiber_index st);
}.

(** The part of a store that is not its engine. *)
Definition memory st :=
  (rolling_commitment st, fiber_index st, broken_reader_cause st, uncertain st,
   store_diagnostic st).

Inductive write_op :=
  | write_frame (p : bytes)
  | write_fiber (op : fiber_op) (fid eid p : bytes).

Definition store_op (op : fiber_op) (fid eid p : bytes) st :=
  match op with
  | op_append => append_to_fiber fid eid p st
  | op_detach => detach_fiber fid eid p st
  | op_rescue => rescue_fiber fid eid p st
  end.

(** The result of a write names the frame that landed. *)
Definition naming {A} (frame : A → bytes) (r : outcome OperationFailure (WriteLandingVerdict A)) :
    outcome OperationFailure (WriteLandingVerdict bytes) :=
  (λ v, match v with
        | WriteLandingVerdict_Landed a => WriteLandingVerdict_Landed (frame a)
        | WriteLandingVerdict_Undetermined c => WriteLandingVerdict_Undetermined c
        end) <$> r.

Definition run_write (w : write_op) st :
    outcome OperationFailure (WriteLandingVerdict bytes) * Store E :=
  match w with
  | write_frame p => let '(r, st) := append_frame_verdict p st in (naming (λ _, p) r, st)
  | write_fiber op fid eid p =>
      let '(r, st) := store_op op fid eid p st in (naming envelope_image r, st)
  end.

(** The results of a run of writes and the store after it. *)
Fixpoint run_writes (ws : list write_op) st :
    list (outcome OperationFailure (WriteLandingVerdict bytes)) * Store E :=
  match ws with
  | [] => ([], st)
  | w :: ws =>
      let '(r, st) := run_write w st in
      let '(rs, st) := run_writes ws st in
      (r :: rs, st)
  end.

(** The frames that landed, in order. *)
Definition landed (r : outcome OperationFailure (WriteLandingVerdict bytes)) : option bytes :=
  match r with Ok (WriteLandingVerdict_Landed f) => Some f | _ => None end.
Definition landed_frames rs : list bytes := omap landed rs.

Lemma frame_of_image p : frame_wf p → frame_of p = Ok (frame_image p).
Proof.
  intros Hp. unfold frame_of, encode_payload. rewrite try_encode_payload_cases.
  unfold frame_wf in Hp. by destruct (blen p <=? u32_max) eqn:?; [|lia].
Qed.

Lemma process_frames_app idx fs1 fs2 :
  process_frames idx (fs1 ++ fs2) =
    (idx ← process_frames idx fs1; process_frames idx fs2).
Proof.
  revert idx. induction fs1 as [|f fs1 IH]; intros idx; [done|]. simpl.
  destruct (process_frame idx f) as [[u|e|] idx']; [apply IH|done|done].
Qed.

(** What the index makes of a frame it validated. *)
Lemma process_validated idx p env :
  EventEnvelope_decode p = Ok (env, blen p) → validate_append idx env = Ok () →
  process_frame idx p = (Ok (), commit_envelope_unchecked idx env).
Proof.
  intros Hd Hv. pose proof (codec_consumed EventEnvelope_codec _ _ _ Hd) as Hl.
  pose proof (codec_sound EventEnvelope_codec _ _ _ Hd) as (Hw&_).
  rewrite blen_envelope_image in Hl by apply Hw.
  unfold process_frame, decode_and_validate_frame. pose proof (blen_nonneg (payload env)).
  destruct (blen p <? 85) eqn:?; [lia|]. rewrite Hd. simpl. rewrite Z.eqb_refl. simpl.
  rewrite Hv. revert Hv. unfold validate_append.
  destruct (fibers idx !! fiber_id (header env)) as [[tip|n]|]; [done| |done].
  by repeat case_match.
Qed.

(** Feeding the writer's callback computes both summaries. *)
Lemma feed_writer n fs rolling idx :
  Forall frame_wf fs →
  match process_frames idx fs with
  | Ok idx' => ∃ n', feed writer_callback n fs (rolling, idx) =
      (Ok n', (commit_frames rolling fs, idx'))
  | Err err => ∃ s, feed writer_callback n fs (rolling, idx) = (Err err, s)
  | Panic => ∃ s, feed writer_callback n fs (rolling, idx) = (Panic, s)
  end.
Proof.
  intros Hw. revert n rolling idx. induction Hw as [|f fs Hf Hw IH]; intros n rolling idx;
    [by eexists|]. simpl. rewrite frame_of_image by done.
  destruct (process_frame idx f) as [[[]|e|] idx']; [apply IH|by eexists..].
Qed.

(** ** Opening *)

(** A driver whose reads succeed at this state. *)
Definition recovers (e : E) : Prop :=
  ∀ S n (cb : FrameRecoveryCallback S) s, ∃ e',
    recover_frames n cb e s = ((feed cb 0 (stored e) s).1, e', (feed cb 0 (stored e) s).2).

Lemma open_writer_live `{!EngineLaws E} e st :
  engine_wf e → open_writer e = Ok st →
  live st ∧ stored (engine st) = stored e ∧ broken_reader_cause st = None ∧
  uncertain st = false ∧ store_diagnostic st = None.
Proof.
  intros Hw. unfold open_writer.
  destruct (recover_frames 64 writer_callback e _) as [[r e'] [rolling idx]] eqn:Hr.
  destruct (recover_frames_law _ _ _ _ _ _ _ Hw Hr) as (Hw'&Hs&[Hf|(k&n&err&_&->)]); [|done].
  pose proof (feed_writer 0 (stored e) RollingCommitment_new SessionIndex_new
                (stored_frames_wf e Hw)) as Hfeed.
  fold (build_from_frames (stored e)) in Hfeed. rewrite <-Hf in Hfeed.
  destruct (build_from_frames (stored e)) as [idx'|e0|] eqn:Hb.
  - destruct Hfeed as [n' [= -> -> ->]]. intros [= <-]. cbn [engine broken_reader_cause].
    split; [|done]. by split; simpl; rewrite ?Hs.
  - by destruct Hfeed as [s0 [= -> _]].
  - by destruct Hfeed as [s0 [= -> _]].
Qed.

Lemma open_writer_recovers e idx :
  engine_wf e → recovers e → build_from_frames (stored e) = Ok idx →
  ∃ st, open_writer e = Ok st ∧ fiber_index st = idx ∧
    rolling_commitment st = commit_frames RollingCommitment_new (stored e).
Proof.
  intros Hw Hr Hb. unfold open_writer.
  destruct (Hr _ 64 writer_callback (RollingCommitment_new, SessionIndex_new)) as [e' ->].
  pose proof (feed_writer 0 (stored e) RollingCommitment_new SessionIndex_new
                (stored_frames_wf e Hw)) as Hfeed.
  fold (build_from_frames (stored e)) in Hfeed. rewrite Hb in Hfeed.
  destruct Hfeed as [n' ->]. by eexists.
Qed.

(** ** Appending *)

(** What the guards establish. *)
Definition admitted_frame p st env frame_buf : Prop :=
  is_uncertain st = false ∧ frame_wf p ∧ frame_buf = frame_image p ∧
  EventEnvelope_decode p = Ok (env, blen p) ∧ validate_append (fiber_index st) env = Ok ().

Lemma admit_frame_Ok p st env frame_buf :
  admit_frame p st = Ok (env, frame_buf) → admitted_frame p st env frame_buf.
Proof.
  unfold admit_frame, check_session_authority. intros Ha.
  destruct (u32_max <? blen p) eqn:Hlen; [done|].
  assert (frame_wf p) as Hp by (unfold frame_wf; lia).
  destruct (is_uncertain st) eqn:Hu; [done|].
  apply bind_Ok in Ha as ([]&_&Ha). destruct (blen p <? 85); [done|].
  apply bind_Ok in Ha as ([e c]&Hd%map_err_Ok&Ha).
  destruct (c =? blen p) eqn:Hc; [|done]. simpl negb in Ha. cbv iota in Ha.
  apply Z.eqb_eq in Hc as ->. apply bind_Ok in Ha as ([]&Hv&Ha).
  apply bind_Ok in Ha as (fb&Hf%map_err_Ok&[= -> ->]).
  unfold encode_payload in Hf. rewrite try_encode_payload_cases in Hf.
  destruct (blen p <=? u32_max); [|done]. by injection Hf as <-.
Qed.

Lemma admit_frame_not_panic p st : engine_wf (engine st) → admit_frame p st ≠ Panic.
Proof.
  intros Hw. unfold admit_frame, check_session_authority.
  destruct (u32_max <? blen p) eqn:Hlen; [done|]. destruct (is_uncertain st); [done|].
  apply bind_not_panic; [by apply check_authority_law|]. intros _ _.
  destruct (blen p <? 85); [done|].
  apply bind_not_panic.
  { apply map_err_not_panic, (codec_total EventEnvelope_codec).
    unfold u32_max, isize_max in *. lia. }
  intros [e c] _. destruct (negb _); [done|].
  apply bind_not_panic; [apply validate_append_not_panic|]. intros _ _.
  apply bind_not_panic; [|by intros].
  apply map_err_not_panic. unfold encode_payload. rewrite try_encode_payload_cases.
  by destruct (_ <=? _).
Qed.

Lemma admit_frame_uncertain p st :
  is_uncertain st = true → ∃ c, admit_frame p st = fail c.
Proof.
  intros Hu. unfold admit_frame, check_session_authority.
  destruct (u32_max <? blen p); [by eexists|]. rewrite Hu. by eexists.
Qed.

Lemma live_landed p st e n env fb :
  live st → admitted_frame p st env fb →
  append_block fb (engine st) = (Ok (WriteLandingVerdict_Landed n), e) →
  live (mk_Store e (update_frame (rolling_commitment st) fb)
          (commit_envelope_unchecked (fiber_index st) env) (broken_reader_cause st)
          (uncertain st) (store_diagnostic st)) ∧
  stored e = stored (engine st) ++ [p] ∧
  engine_uncertain_diagnostic e = engine_uncertain_diagnostic (engine st).
Proof.
  intros [Hw Hr Hi] (Hu&Hp&->&Hd&Hv) Ha.
  destruct (append_block_law _ _ _ _ Hw Hp Ha) as (Hw'&Hs&Hdiag).
  split; [|done]. split; simpl; [done|..]; rewrite Hs.
  - rewrite Hr. unfold commit_frames. by rewrite fmap_app, fold_left_app.
  - unfold build_from_frames. rewrite process_frames_app. fold (build_from_frames (stored (engine st))).
    rewrite Hi. simpl. by rewrite (process_validated _ _ _ Hd Hv).
Qed.

Lemma append_frame_cases p st r st' :
  live st → append_frame_verdict p st = (r, st') →
  match r with
  | Ok (WriteLandingVerdict_Landed n) =>
      live st' ∧ stored (engine st') = stored (engine st) ++ [p] ∧
      n = frame_count (rolling_commitment st') ∧
      is_uncertain st = false ∧ is_uncertain st' = false ∧
      broken_reader_cause st' = broken_reader_cause st ∧
      ∃ env, EventEnvelope_decode p = Ok (env, blen p) ∧
        validate_append (fiber_index st) env = Ok () ∧
        fiber_index st' = commit_envelope_unchecked (fiber_index st) env
  | Ok (WriteLandingVerdict_Undetermined _) =>
      is_uncertain st = false ∧ is_uncertain st' = true ∧ engine_wf (engine st') ∧
      (stored (engine st') = stored (engine st) ∨
       stored (engine st') = stored (engine st) ++ [p]) ∧
      rolling_commitment st' = rolling_commitment st ∧ fiber_index st' = fiber_index st
  | Err _ => live st' ∧ stored (engine st') = stored (engine st) ∧ memory st' = memory st
  | Panic => False
  end.
Proof.
  intros Hl. unfold append_frame_verdict.
  pose proof (admit_frame_not_panic p st (live_engine _ Hl)) as Hnp.
  destruct (admit_frame p st) as [[env fb]|e0|] eqn:Ha; [|by intros [= <- <-]|done].
  apply admit_frame_Ok in Ha as Had. pose proof Had as (Hu&Hp&->&Hd&Hv). unfold land_frame.
  destruct (append_block (frame_image p) (engine st)) as [v e] eqn:Hb.
  pose proof (append_block_law _ _ _ _ (live_engine _ Hl) Hp Hb) as (Hw'&Hv').
  destruct v as [[n|c]|err|]; [..|done].
  - intros [= <- <-]. destruct (live_landed _ _ _ _ _ _ Hl Had Hb) as (?&?&Hdiag).
    do 4 (split; [done|]). split; [|split; [done|by exists env]].
    unfold is_uncertain in *. simpl. by rewrite Hdiag.
  - intros [= <- <-]. destruct Hv' as [Hs _]. by repeat (split; [done|]).
  - intros [= <- <-]. destruct Hl as [Hw Hr Hi].
    split; [|done]. by split; simpl; rewrite ?Hv'.
Qed.

(** ** Fiber operations *)

Lemma store_op_through op fid eid p st :
  store_op op fid eid p st = through_handle (λ handle, run_op op handle eid p) fid st.
Proof. by destruct op. Qed.

Lemma append_envelope_spec env st :
  append_envelope_verdict env st =
    if blen (payload env) + 85 <=? u32_max
    then append_frame_verdict (envelope_image env) st
    else (fail (violated ValueConstraint_TooLong), st).
Proof.
  unfold append_envelope_verdict, WireEnvelope_try_from, WireEnvelope_bounded.
  pose proof (blen_nonneg (payload env)). rewrite envelope_wire_len_cases by lia.
  destruct (blen (payload env) + 85 <=? u32_max) eqn:Hc; [|done].
  rewrite bind_of_Ok, map_err_of_Ok, bind_of_Ok. unfold WireEnvelope_encode. cbn [we_wire_len].
  destruct (blen (payload env) + 85 <? 85) eqn:?; [lia|]. cbn [we_envelope].
  by replace (blen (payload env) + 85 - 85) with (blen (payload env)) by lia.
Qed.

(** Without authority or a handle nothing is written; otherwise the envelope
    minted is appended. *)
Lemma store_op_cases op fid eid p st :
  (∃ c, store_op op fid eid p st = (fail c, st)) ∨
  store_op op fid eid p st = (Panic, st) ∧ engine_check_authority (engine st) = Panic ∨
  ∃ h env h', is_uncertain st = false ∧ fiber st fid = Ok h ∧ run_op op h eid p = (Ok env, h') ∧
    store_op op fid eid p st =
      match append_frame_verdict (envelope_image env) st with
      | (Ok (WriteLandingVerdict_Landed _), st) => (Ok (WriteLandingVerdict_Landed env), st)
      | (Ok (WriteLandingVerdict_Undetermined carried_epoch), st) =>
          (Ok (WriteLandingVerdict_Undetermined carried_epoch), st)
      | (Err err, st) => (Err err, st)
      | (Panic, st) => (Panic, st)
      end.
Proof.
  rewrite store_op_through. unfold through_handle.
  unfold check_session_authority. destruct (is_uncertain st) eqn:Hu; [left; by eexists|].
  destruct (engine_check_authority (engine st)) as [[]|[c]|]; [|left; by exists c|by right; left].
  rewrite bind_of_Ok.
  assert (fiber st fid ≠ Panic) as Hnp.
  { unfold fiber, index_fiber, FiberHandle_with_state, fail. rewrite Hu. by repeat case_match. }
  destruct (fiber st fid) as [h|[c]|] eqn:Hf; [|left; by exists c|done].
  rewrite bind_of_Ok. destruct (run_op_cases op h eid p) as [[_ (s'&_&Hr)]|[_ [c Hr]]]; rewrite Hr;
    [|left; by exists c].
  cbn [fst]. rewrite append_envelope_spec. destruct (_ <=? u32_max); [|left; by eexists].
  right; right. by do 3 eexists.
Qed.

Lemma index_of_live st : live st → ∃ es, index_of es (fiber_index st) ∧
  Forall2 (λ f e, decode_and_validate_frame f = Ok e) (stored (engine st)) es.
Proof.
  intros Hl. destruct (process_frames_index_of _ [] _ _ index_of_new (live_index _ Hl))
    as (es&?&?). by exists es.
Qed.

Lemma not_broken_of_fiber st fid h :
  fiber st fid = Ok h → not_broken (fiber_index st) fid ∧ index_fiber (fiber_index st) fid = Ok h.
Proof.
  unfold fiber. destruct (is_uncertain st); [done|].
  destruct (broken_reader_cause st); [done|]. intros Hi. split; [|done].
  intros n Hb. unfold index_fiber in Hi. rewrite Hb in Hi.
  by destruct (si_has_raw_frames (fiber_index st)).
Qed.

(** The store after a session of writes whose log is [fs]: its memory stands
    for the log, and the engine stores the log, or it is uncertain and stores
    perhaps one more frame. *)
Definition session_state fs st : Prop :=
  engine_wf (engine st) ∧ build_from_frames fs = Ok (fiber_index st) ∧
  rolling_commitment st = commit_frames RollingCommitment_new fs ∧
  (stored (engine st) = fs ∨
   is_uncertain st = true ∧ ∃ p, stored (engine st) = fs ++ [p]).

Lemma session_of_live st : live st → session_state (stored (engine st)) st.
Proof. intros [Hw Hr Hi]. by repeat split; [..|left]. Qed.

Lemma uncertain_write w st :
  is_uncertain st = true → ∃ c, run_write w st = (fail c, st).
Proof.
  intros Hu. destruct w as [p|op fid eid p]; simpl.
  - unfold append_frame_verdict. destruct (admit_frame_uncertain p st Hu) as [c ->]. by exists c.
  - rewrite store_op_through. unfold through_handle, check_session_authority. rewrite Hu.
    by eexists.
Qed.

(** One write on a live store. *)
Definition write_outcome st (r : outcome OperationFailure (WriteLandingVerdict bytes)) st' : Prop :=
  r ≠ Panic ∧
  ((live st' ∧ stored (engine st') = stored (engine st) ++ option_list (landed r)) ∨
   (is_uncertain st' = true ∧ landed r = None ∧ session_state (stored (engine st)) st')).

Lemma live_append_frame p st r st' :
  live st → append_frame_verdict p st = (r, st') → write_outcome st (naming (λ _, p) r) st'.
Proof.
  intros Hl Ha. apply append_frame_cases in Ha; [|done].
  destruct r as [[n|c]|err|]; [..|done].
  - destruct Ha as (?&?&_). split; [done|]. by left.
  - destruct Ha as (_&Hu&Hw&Hs&Hro&Hi). split; [done|]. right. split; [done|]. split; [done|].
    destruct Hl as [_ Hro0 Hi0]. split; [done|]. rewrite Hi, Hro. do 2 (split; [done|]).
    destruct Hs as [?|?]; [by left|right]. split; [done|by exists p].
  - destruct Ha as (?&?&_). split; [done|]. left. split; [done|]. simpl. by rewrite app_nil_r.
Qed.

Lemma live_write w st r st' :
  live st → run_write w st = (r, st') → write_outcome st r st'.
Proof.
  intros Hl Hr. destruct w as [p|op fid eid p]; simpl in Hr.
  - destruct (append_frame_verdict p st) as [r0 st0] eqn:Ha. injection Hr as <- <-.
    by apply live_append_frame.
  - destruct (store_op_cases op fid eid p st) as [[c Hc]|[[_ Hc]|(h&env&h'&_&_&_&Hc)]].
    + rewrite Hc in Hr. injection Hr as <- <-. split; [done|]. left. split; [done|].
      simpl. by rewrite app_nil_r.
    + by apply check_authority_law in Hc; [|apply Hl].
    + rewrite Hc in Hr. destruct (append_frame_verdict _ st) as [r0 st0] eqn:Ha.
      apply live_append_frame in Ha; [|done].
      by destruct r0 as [[]| |]; injection Hr as <- <-.
Qed.

Lemma uncertain_writes ws st :
  is_uncertain st = true →
  (run_writes ws st).2 = st ∧ Forall (λ r, ∃ c, r = fail c) (run_writes ws st).1.
Proof.
  intros Hu. induction ws as [|w ws IH]; [by split|]. cbn [run_writes].
  destruct (uncertain_write w st Hu) as [c ->].
  destruct (run_writes ws st) as [rs st'] eqn:Hrun. destruct IH as [IH1 IH2].
  split; [done|]. constructor; [by exists c|done].
Qed.

Lemma landed_failed rs : Forall (λ r, ∃ c, r = fail c) rs → landed_frames rs = [].
Proof. induction 1 as [|r rs [c ->] _ IH]; [done|exact IH]. Qed.

Lemma run_writes_session ws : ∀ st rs st',
  live st → run_writes ws st = (rs, st') →
  Forall (λ r, r ≠ Panic) rs ∧ session_state (stored (engine st) ++ landed_frames rs) st'.
Proof.
  induction ws as [|w ws IH]; intros st rs st' Hl Hr; cbn [run_writes] in Hr.
  { injection Hr as <- <-. split; [constructor|]. simpl. rewrite app_nil_r.
    by apply session_of_live. }
  destruct (run_write w st) as [r st1] eqn:Hw.
  destruct (run_writes ws st1) as [rs1 st2] eqn:Hws. injection Hr as <- <-.
  destruct (live_write _ _ _ _ Hl Hw) as [Hp [[Hl1 Hs1]|(Hu&Hland&Hss)]].
  - destruct (IH st1 rs1 st2 Hl1 Hws) as [Hf Hss]. split; [by constructor|].
    rewrite Hs1, <-app_assoc in Hss. unfold landed_frames in *. cbn [omap list_omap].
    by destruct (landed r).
  - destruct (uncertain_writes ws st1 Hu) as [H1 H2]. rewrite Hws in H1, H2. simpl in H1, H2.
    subst st2. split.
    + constructor; [done|]. eapply Forall_impl; [exact H2|]. by intros ? [c ->].
    + unfold landed_frames. cbn [omap list_omap]. rewrite Hland.
      fold (landed_frames rs1). by rewrite landed_failed, app_nil_r.
Qed.

(** The handles of a live store have arrays of the right width. *)
Lemma live_handle_wf `{!DigestLaws} st fid h :
  live st → fiber st fid = Ok h →
  fh_fiber_id h = fid ∧ is_array 16 (fh_precursor h) ∧ is_array 32 (fh_precursor_hash h).
Proof.
  intros Hl Hf. destruct (index_of_live _ Hl) as (es&Hidx&Hdec).
  destruct (not_broken_of_fiber _ _ _ Hf) as [Hnb Hif].
  rewrite (index_fiber_spec es) in Hif by done.
  assert (h = handle_of fid (of_fiber fid es)) as -> by (repeat case_match; by simplify_eq).
  unfold handle_of. destruct (last (of_fiber fid es)) as [e|] eqn:Hlast; [|done].
  simpl. split; [done|]. split; [|apply commitment_length].
  assert (e ∈ es) as He.
  { apply last_Some_elem_of in Hlast. by apply list_elem_of_filter in Hlast as [_ ?]. }
  apply list_elem_of_lookup_1 in He as [i Hi].
  destruct (Forall2_lookup_r _ _ _ _ _ Hdec Hi) as (f&_&Hd).
  unfold decode_and_validate_frame in Hd. apply bind_Ok in Hd as ([e' c]&Hd'%map_err_Ok&Hd).
  destruct (negb _); [done|]. injection Hd as ->.
  by apply (codec_sound EventEnvelope_codec) in Hd' as [[(?&_) _] _].
Qed.

Lemma minted_wf `{!DigestLaws} op st fid h eid p env h' :
  live st → fiber st fid = Ok h → run_op op h eid p = (Ok env, h') →
  is_array 16 fid → is_array 16 eid → EnvelopeHeader_wf (header env).
Proof.
  intros Hl Hf Hr Hfid Heid. destruct (live_handle_wf _ _ _ Hl Hf) as (Hh&?&?).
  destruct (run_op_cases op h eid p) as [[_ (s'&_&Hr')]|[_ [c Hr']]]; rewrite Hr in Hr'; [|done].
  injection Hr' as -> _. unfold minted. repeat split; simpl; rewrite ?Hh; try done.
  all: by destruct (starts_chain _).
Qed.

Lemma decode_minted env env' :
  EnvelopeHeader_wf (header env) →
  EventEnvelope_decode (envelope_image env) = Ok (env', blen (envelope_image env)) → env' = env.
Proof.
  intros Hw Hd. pose proof (codec_sound EventEnvelope_codec _ _ _ Hd) as ([Hw' Hp]&_&_).
  pose proof (codec_consumed EventEnvelope_codec _ _ _ Hd) as Hn.
  rewrite !blen_envelope_image in Hn by done.
  assert (EventEnvelope_wf env) as Hwf by (split; [done|lia]).
  pose proof (codec_complete EventEnvelope_codec env [] Hwf) as Hc.
  rewrite app_nil_r, Hd in Hc. congruence.
Qed.

Lemma validated_minted es idx fid h op eid p env h' :
  index_of es idx → not_broken idx fid → index_fiber idx fid = Ok h →
  run_op op h eid p = (Ok env, h') → validate_append idx env = Ok () →
  fiber_id (header env) = fid ∧
  index_fiber (commit_envelope_unchecked idx env) fid =
    if bool_decide (EventEnvelope_commitment env = zero32)
    then fail FailureCondition_InvariantBreakingConfiguration else Ok h'.
Proof.
  intros Hidx Hnb Hif Hr Hv.
  assert (event_id (header env) = eid ∧ fiber_id (header env) = fid) as [He Hfid].
  { destruct (run_op_cases op h eid p) as [[_ (s'&_&Hr')]|[_ [c Hr']]]; rewrite Hr in Hr'; [|done].
    injection Hr' as -> _. split; [done|]. simpl. rewrite (index_fiber_spec es) in Hif by done.
    assert (h = handle_of fid (of_fiber fid es)) as -> by (repeat case_match; by simplify_eq).
    unfold handle_of. by destruct (last _). }
  destruct (validate_append_Ok es idx env () Hidx) as [_ Hfits]; [by rewrite Hfid|done|].
  destruct (minted_extends es idx fid h op eid p env h') as (?&_&_&_&?); try done.
  rewrite <-He. revert Hv. unfold validate_append, fail. by repeat case_bool_decide; repeat case_match.
Qed.

(** ** What appends keep, writes keep *)

Section preserved.
Context (P : E → Prop) (HP : ∀ block e, P e → P (append_block block e).2).

Lemma append_frame_keeps p st : P (engine st) → P (engine (append_frame_verdict p st).2).
Proof.
  intros Hst. unfold append_frame_verdict, land_frame.
  destruct (admit_frame p st) as [[env fb]| |]; [|done..].
  pose proof (HP fb _ Hst) as He. by destruct (append_block fb (engine st)) as [[[]| |] e].
Qed.

Lemma run_writes_keeps ws : ∀ st, P (engine st) → P (engine (run_writes ws st).2).
Proof.
  induction ws as [|w ws IH]; intros st Hst; [done|]. cbn [run_writes].
  assert (P (engine (run_write w st).2)) as Hw.
  { destruct w as [p|op fid eid p]; simpl.
    - pose proof (append_frame_keeps p st Hst). by destruct (append_frame_verdict p st).
    - rewrite store_op_through. unfold through_handle.
      destruct (_ ≫= _) as [env| |]; [|done..]. rewrite append_envelope_spec.
      destruct (_ <=? u32_max); [|done]. pose proof (append_frame_keeps (envelope_image env) st Hst).
      by destruct (append_frame_verdict _ st) as [[[]| |] ?]. }
  destruct (run_write w st) as [r st1]. specialize (IH st1 Hw).
  by destruct (run_writes ws st1).
Qed.
End preserved.

(** ** Readers *)

Lemma feed_reader n fs rolling idx :
  Forall frame_wf fs →
  match process_frames idx fs with
  | Ok idx' => ∃ n', feed reader_callback n fs (rolling, idx, None) =
      (Ok n', (commit_frames rolling fs, idx', None))
  | Err err => ∃ r i, feed reader_callback n fs (rolling, idx, None) =
      (Err err, (r, i, Some (condition err)))
  | Panic => True
  end.
Proof.
  intros Hw. revert n rolling idx. induction Hw as [|f fs Hf Hw IH]; intros n rolling idx;
    [by eexists|]. simpl. rewrite frame_of_image by done.
  destruct (process_frame idx f) as [[[]|e|] idx']; [apply IH|by do 2 eexists|done].
Qed.

Lemma stored_total e : engine_wf e → build_from_frames (stored e) ≠ Panic.
Proof.
  intros Hw. apply process_frames_not_panic.
  eapply Forall_impl; [by apply stored_frames_wf|]. intros f Hf.
  unfold frame_wf, u32_max, isize_max in *. lia.
Qed.

Lemma open_writer_not_panic `{!EngineLaws E} e : engine_wf e → open_writer e ≠ Panic.
Proof.
  intros Hw. unfold open_writer.
  destruct (recover_frames 64 writer_callback e _) as [[r e'] [rolling idx]] eqn:Hr.
  destruct (recover_frames_law _ _ _ _ _ _ _ Hw Hr) as (_&_&[Hf|(k&n&err&_&->)]); [|done].
  pose proof (feed_writer 0 (stored e) RollingCommitment_new SessionIndex_new
                (stored_frames_wf e Hw)) as Hfeed.
  fold (build_from_frames (stored e)) in Hfeed. pose proof (stored_total e Hw) as Ht.
  rewrite <-Hf in Hfeed. destruct (build_from_frames (stored e)); [| |done].
  - by destruct Hfeed as [n' [= -> _ _]].
  - by destruct Hfeed as [s [= -> _]].
Qed.

(** ** Visitors *)

Definition ref_of (e : EventEnvelope) : EventEnvelopeRef :=
  mk_EventEnvelopeRef (header e) (payload e).

Section visitors.
Context {S : Type} (f : EventEnvelopeRef → S → outcome OperationFailure unit * S).

(** The visitor run over envelopes, stopping at its first error. *)
Fixpoint visit_all (es : list EventEnvelope) (s : S) : outcome OperationFailure unit * S :=
  match es with
  | [] => (Ok tt, s)
  | e :: es =>
      match f (ref_of e) s with
      | (Ok _, s) => visit_all es s
      | res => res
      end
  end.

Lemma visit_one n frame idx rolling s u v :
  frame_wf frame → visit_callback f n frame (mk_visit idx rolling None None s) = (Ok u, v) →
  ∃ e idx' s', decode_and_validate_frame frame = Ok e ∧ commit_envelope idx e = (Ok tt, idx') ∧
    process_frame idx frame = (Ok tt, idx') ∧ f (ref_of e) s = (Ok tt, s') ∧
    v = mk_visit idx' (update_frame rolling (frame_image frame)) None None s'.
Proof.
  intros Hw Hv. unfold visit_callback in Hv. cbv beta iota zeta in Hv.
  destruct (blen frame <? 85); [done|].
  destruct (EventEnvelopeRef_decode frame) as [[r c]| |] eqn:Hd; [|done..].
  destruct (c =? blen frame) eqn:Hc; [|done]. simpl negb in Hv. cbv iota in Hv.
  apply Z.eqb_eq in Hc as ->.
  assert (EventEnvelope_decode frame = Ok (EventEnvelopeRef_to_owned r, blen frame)) as Hde
    by (unfold EventEnvelope_decode; by rewrite Hd).
  destruct (validate_append idx (EventEnvelopeRef_to_owned r)) as [[]| |] eqn:Hva; [|done..].
  rewrite frame_of_image in Hv by done.
  assert (ref_of (EventEnvelopeRef_to_owned r) = r) as Hr by (by destruct r).
  destruct (f r s) as [[[]| |] s'] eqn:Hf; [|done..]. injection Hv as _ <-.
  exists (EventEnvelopeRef_to_owned r). do 2 eexists. split.
  { unfold decode_and_validate_frame. rewrite Hde. simpl. by rewrite Z.eqb_refl. }
  split; [unfold commit_envelope; by rewrite Hva|].
  split; [by apply process_validated|]. by rewrite Hr, Hf.
Qed.

Lemma feed_visit n fs idx rolling s m v :
  Forall frame_wf fs →
  feed (visit_callback f) n fs (mk_visit idx rolling None None s) = (Ok m, v) →
  ∃ es idx' s', Forall2 (λ fr e, decode_and_validate_frame fr = Ok e) fs es ∧
    commit_all idx es = Ok idx' ∧ process_frames idx fs = Ok idx' ∧
    visit_all es s = (Ok tt, s') ∧ v = mk_visit idx' (commit_frames rolling fs) None None s'.
Proof.
  intros Hw. revert n idx rolling s. induction Hw as [|fr fs Hf Hw IH]; intros n idx rolling s Hv.
  { injection Hv as _ <-. exists []. do 2 eexists. by split; [constructor|]. }
  cbn [feed] in Hv.
  destruct (visit_callback f n fr (mk_visit idx rolling None None s)) as [[u| |] v1] eqn:Hone;
    [|done..].
  apply visit_one in Hone as (e&idx1&s1&Hd&Hc&Hp&Hfs&->); [|done].
  apply IH in Hv as (es&idx'&s'&Hds&Hcs&Hps&Hfss&->).
  exists (e :: es), idx', s'. cbn [commit_all process_frames visit_all]. rewrite Hc, Hp, Hfs.
  by split; [constructor|].
Qed.
End visitors.

(** ** Properties *)

(** C1: The pipeline refines its log. Open a writer over any engine that keeps
    its contract and run any frame and fiber writes: no write panics, and the
    log (the frames found on opening followed by the frames the writes reported
    landed, in order) is what the engine stores, and the index and the rolling
    commitment in memory are exactly those that recovering the log computes;
    only when a landing was undetermined may one more frame be stored, and then
    the store says it is uncertain. *)
Theorem session_refines_log `{!EngineLaws E} e st ws rs st' :
  engine_wf e → open_writer e = Ok st → run_writes ws st = (rs, st') →
  Forall (λ r, r ≠ Panic) rs ∧ session_state (stored e ++ landed_frames rs) st'.
Proof.
  intros Hw Ho Hr. destruct (open_writer_live _ _ Hw Ho) as (Hl&Hs&_). rewrite <-Hs.
  by apply (run_writes_session ws).
Qed.

(** Reopening is faithful. If a writer's store is certain after a session
    of writes and its engine's reads succeed, opening a writer on that engine
    succeeds and yields the same rolling commitment and the same index. *)
Theorem reopen_restores_memory `{!EngineLaws E} e st ws rs st' :
  engine_wf e → open_writer e = Ok st → run_writes ws st = (rs, st') →
  is_uncertain st' = false → recovers (engine st') →
  ∃ st'', open_writer (engine st') = Ok st'' ∧ fiber_index st'' = fiber_index st' ∧
    rolling_commitment st'' = rolling_commitment st'.
Proof.
  intros Hw Ho Hr Hu Hrec. destruct (open_writer_live _ _ Hw Ho) as (Hl&Hs&_).
  destruct (run_writes_session ws st rs st' Hl Hr) as [_ (Hw'&Hb&Hro&Hst)].
  destruct Hst as [Hst|[Hu' _]]; [|congruence]. rewrite <-Hst in Hb, Hro.
  destruct (open_writer_recovers _ _ Hw' Hrec Hb) as (st''&?&?&Hr'). exists st''.
  by rewrite Hr'.
Qed.

(** A landed fiber operation is visible. When an append, detach or rescue on
    a live store lands, it landed the envelope that the fiber's handle mints;
    its encoding is the new last frame; it is the latest envelope of its fiber,
    and the fiber's handle is the one the operation left (unless the
    commitment is all zero, which handles refuse); the store is live again. *)
Theorem landed_operation_visible `{!DigestLaws} op fid eid p st env st' :
  live st → is_array 16 fid → is_array 16 eid →
  store_op op fid eid p st = (Ok (WriteLandingVerdict_Landed env), st') →
  live st' ∧ stored (engine st') = stored (engine st) ++ [envelope_image env] ∧
  store_get_latest st' fid = Ok (Some env) ∧
  ∃ h h', fiber st fid = Ok h ∧ run_op op h eid p = (Ok env, h') ∧
    fiber st' fid = if bool_decide (EventEnvelope_commitment env = zero32)
                    then fail FailureCondition_InvariantBreakingConfiguration else Ok h'.
Proof.
  intros Hl Hfid Heid Hop.
  destruct (store_op_cases op fid eid p st) as [[c Hc]|[[Hc _]|(h&env0&h'&Hu&Hf&Hr&Hc)]];
    rewrite Hc in Hop; [done|done|].
  destruct (append_frame_verdict _ st) as [[[n|]| |] st0] eqn:Ha; try done.
  injection Hop as -> ->. apply append_frame_cases in Ha; [|done].
  destruct Ha as (Hl'&Hs&_&_&Hu'&Hb&env1&Hd&Hv&Hi).
  assert (env1 = env) as ->
    by (by apply (decode_minted env env1 (minted_wf _ _ _ _ _ _ _ _ Hl Hf Hr Hfid Heid))).
  destruct (not_broken_of_fiber _ _ _ Hf) as [Hnb Hif].
  destruct (index_of_live _ Hl) as (es&Hidx&_).
  destruct (validated_minted _ _ _ _ _ _ _ _ _ Hidx Hnb Hif Hr Hv) as (Hfe&Hif').
  split; [done|]. split; [done|]. unfold store_get_latest. rewrite Hu', Hb.
  unfold fiber in Hf |- *. rewrite Hu, ?Hu', Hb in *.
  destruct (broken_reader_cause st) eqn:Hbr; [done|].
  rewrite Hi. split.
  - unfold get_latest, commit_envelope_unchecked. simpl.
    rewrite (index_raw _ _ Hidx), Hfe, lookup_insert_eq. by repeat case_match; simplify_eq/=.
  - by exists h, h'.
Qed.

(** C21: An undetermined landing stops the session. After a frame or fiber write
    whose landing is undetermined, every later write and every lookup of a
    handle or of a latest envelope is refused as unreadable, without a call of
    the engine: the store stays exactly as that write left it. *)
Theorem undetermined_landing_halts p op fid eid q c st st' :
  append_frame_verdict p st = (Ok (WriteLandingVerdict_Undetermined c), st') ∨
  store_op op fid eid q st = (Ok (WriteLandingVerdict_Undetermined c), st') →
  (∀ ws, (run_writes ws st').2 = st' ∧
     Forall (λ r, ∃ c, r = fail c) (run_writes ws st').1) ∧
  (∀ fid, fiber st' fid = fail FailureCondition_OwnershipRecordUnreadable ∧
     store_get_latest st' fid = fail FailureCondition_OwnershipRecordUnreadable).
Proof.
  intros Hw. assert (is_uncertain st' = true) as Hu.
  { assert (∀ p r, append_frame_verdict p st = (r, st') →
      (∃ c, r = Ok (WriteLandingVerdict_Undetermined c)) → is_uncertain st' = true) as Hf.
    { intros p0 r Ha [c0 ->]. unfold append_frame_verdict, land_frame in Ha.
      destruct (admit_frame p0 st) as [[env fb]| |]; [|done..].
      destruct (append_block fb (engine st)) as [[[]| |] e]; try done. by injection Ha as _ <-. }
    destruct Hw as [Ha|Ha]; [by eapply Hf; [exact Ha|eexists]|].
    destruct (store_op_cases op fid eid q st) as [[? Hc]|[[Hc _]|(h&env&h'&_&_&_&Hc)]];
      rewrite Hc in Ha; [done|done|].
    destruct (append_frame_verdict _ st) as [[[]| |] st0] eqn:Hap; try done.
    injection Ha as _ <-. by eapply Hf; [exact Hap|eexists]. }
  split; [intros ws; by apply uncertain_writes|].
  intros fid'. unfold fiber, store_get_latest. by rewrite Hu.
Qed.

(** Opening a reader never fails and reports the history exactly: over an
    engine whose reads succeed, the reader holds the index and the commitment of
    the stored frames when they form sound fibers; otherwise it retains the
    cause (the condition of the first frame that cannot be processed, or a
    broken chain), its index is empty, and while it is so it hands out no
    handle and no latest envelope. *)
Theorem open_reader_exact `{!EngineLaws E} e :
  engine_wf e → recovers e →
  ∃ st, open_reader e = Ok st ∧ uncertain st = false ∧
  (∀ cause fid, broken_reader_cause st = Some cause →
     ¬ is_ok (fiber st fid) ∧ ¬ is_ok (store_get_latest st fid)) ∧
  match build_from_frames (stored e) with
  | Ok idx =>
      if has_broken_fibers idx
      then broken_reader_cause st = Some broken ∧ fiber_index st = SessionIndex_new
      else broken_reader_cause st = None ∧ live st
  | Err err =>
      broken_reader_cause st = Some (condition err) ∧ fiber_index st = SessionIndex_new
  | Panic => False
  end.
Proof.
  intros Hw Hr. unfold open_reader.
  destruct (Hr _ 64 reader_callback (RollingCommitment_new, SessionIndex_new, None)) as [e' He].
  rewrite He. apply recover_frames_law in He as (Hw'&Hs'&_); [|done].
  pose proof (feed_reader 0 (stored e) RollingCommitment_new SessionIndex_new
                (stored_frames_wf e Hw)) as Hfeed.
  fold (build_from_frames (stored e)) in Hfeed. pose proof (stored_total e Hw) as Ht.
  assert (∀ st : Store E, ∀ cause fid, broken_reader_cause st = Some cause →
    ¬ is_ok (fiber st fid) ∧ ¬ is_ok (store_get_latest st fid)) as Hcause.
  { intros st cause fid Hc. unfold fiber, store_get_latest. rewrite Hc.
    destruct (is_uncertain st); simpl; tauto. }
  destruct (build_from_frames (stored e)) as [idx|err|] eqn:Hb; [..|done].
  - destruct Hfeed as [n' ->]. cbn [fst snd].
    destruct (has_broken_fibers idx) eqn:Hbr; eexists; (split; [done|]); (split; [done|]);
      (split; [by apply Hcause|]); split; try done.
    split; cbn [engine rolling_commitment fiber_index]; rewrite ?Hs'; done.
  - destruct Hfeed as (r&i&->). cbn [fst snd]. eexists.
    split; [done|]. split; [done|]. split; [by apply Hcause|done].
Qed.

(** A visitor sees the stored history, whole and in order: when
    [for_each_envelope] succeeds, the visitor ran on exactly the envelopes of
    the stored frames, each one whole frame, and accepted every one; they form
    sound fibers; and the store's index, commitment and health are those of
    the stored frames. When it fails, the index and the commitment in memory
    are unchanged. *)
Theorem for_each_visits_history `{!EngineLaws E} {S} (f : EventEnvelopeRef → S → outcome OperationFailure unit * S)
    st s r st' s' :
  engine_wf (engine st) → for_each_envelope f st s = (r, st', s') →
  stored (engine st') = stored (engine st) ∧
  match r with
  | Ok _ =>
      ∃ es, Forall2 (λ fr e, decode_and_validate_frame fr = Ok e) (stored (engine st)) es ∧
        visit_all f es s = (Ok tt, s') ∧ commit_all SessionIndex_new es = Ok (fiber_index st') ∧
        live st' ∧ broken_reader_cause st' = None
  | _ => rolling_commitment st' = rolling_commitment st ∧ fiber_index st' = fiber_index st
  end.
Proof.
  intros Hw. unfold for_each_envelope.
  assert (∀ res, for_each_unbroken f st s = res → res = (r, st', s') →
    stored (engine st') = stored (engine st) ∧
    match r with
    | Ok _ =>
        ∃ es, Forall2 (λ fr e, decode_and_validate_frame fr = Ok e) (stored (engine st)) es ∧
          visit_all f es s = (Ok tt, s') ∧ commit_all SessionIndex_new es = Ok (fiber_index st') ∧
          live st' ∧ broken_reader_cause st' = None
    | _ => rolling_commitment st' = rolling_commitment st ∧ fiber_index st' = fiber_index st
    end) as Hunb.
  2: { destruct (broken_reader_cause st) as [cause|]; [destruct (is_transport cause)|];
         first [by apply Hunb | by intros [= <- <- <-]]. }
  intros res <-. unfold for_each_unbroken.
  destruct (has_broken_fibers (fiber_index st)); [by intros [= <- <- <-]|].
  destruct (recover_frames 64 _ (engine st) _) as [[r0 e'] v] eqn:Hrec.
  destruct (recover_frames_law _ _ _ _ _ _ _ Hw Hrec) as (Hw'&Hs&Hf).
  destruct r0 as [m|err|]; [| |by intros [= <- <- <-]].
  - destruct Hf as [Hf|(k&n&err&_&[=])]. symmetry in Hf.
    apply feed_visit in Hf as (es&idx'&s1&Hd&Hc&Hp&Hv&->); [|by apply stored_frames_wf].
    intros [= <- <- <-]. split; [done|]. exists es. do 3 (split; [done|]).
    split; [|done]. by split; simpl; rewrite ?Hs.
  - destruct (callback_error v); [by intros [= <- <- <-]|].
    destruct (broken_error v); [by intros [= <- <- <-]|].
    destruct (is_transport (condition err)); by intros [= <- <- <-].
Qed.
End spec.
