(* ===== verification/FileEngine.v ===== *)
(** * The file engine: [src/crates/pardosa/src/file.rs], [FileExclusionPolicy]
    and [FileEngine]

    The driver over the pair of files of an artefact. [World] is what the
    operating system holds: the bytes of the two files, whether they can be
    read and locked, and the outcomes of the system calls to come. A write may
    fail after any number of bytes, and truncation, synchronisation and seeking
    may fail on their own: the theorems hold for every list of outcomes. The
    handle of the container is positioned at its end before a write, so writes
    append; no file grows beyond [i64::MAX] bytes, the limit of file offsets.
    Simulation flags are part of the engine in the source and of the model; the
    quota of the test configuration is not. *)

From S2P Require Export Pipeline MetaFile.

Inductive os_outcome :=
  | os_ok
  | os_err (written : Z).  (* for a write: the bytes that reached the file *)

Record World := mk_World {
  meta_file : option bytes;
  pgno_file : option bytes;
  meta_readable : bool;
  pgno_read_error : option FailureCondition;
  lock_error : option FailureCondition;  (* of [try_lock] *)
  script : list os_outcome;
}.

Definition with_pgno (file : option bytes) (w : World) : World :=
  mk_World (meta_file w) file (meta_readable w) (pgno_read_error w) (lock_error w) (script w).
Definition with_meta (file : option bytes) (w : World) : World :=
  mk_World file (pgno_file w) (meta_readable w) (pgno_read_error w) (lock_error w) (script w).
Definition with_script (s : list os_outcome) (w : World) : World :=
  mk_World (meta_file w) (pgno_file w) (meta_readable w) (pgno_read_error w) (lock_error w) s.

(** The outcome of the next system call; an exhausted script is success. *)
Definition next_outcome (w : World) : os_outcome * World :=
  match script w with
  | [] => (os_ok, w)
  | o :: s => (o, with_script s w)
  end.

(** A call that succeeds or fails: seek, synchronise, unlock. *)
Definition syscall (w : World) : bool * World :=
  match next_outcome w with
  | (os_ok, w) => (true, w)
  | (os_err _, w) => (false, w)
  end.

Definition pgno_bytes (w : World) : bytes := default [] (pgno_file w).

(** [write_all] at the end of the container. *)
Definition write_pgno (data : bytes) (w : World) : bool * World :=
  let file := pgno_bytes w in
  let '(o, w) := next_outcome w in
  if isize_max <? blen file + blen data then (false, w) else
  match o with
  | os_ok => (true, with_pgno (Some (file ++ data)) w)
  | os_err k => (false, with_pgno (Some (file ++ take (Z.to_nat k) data)) w)
  end.

(** [set_len] to a length the file has had. *)
Definition truncate_pgno (len : Z) (w : World) : bool * World :=
  let file := pgno_bytes w in
  match next_outcome w with
  | (os_ok, w) => (true, with_pgno (Some (take (Z.to_nat len) file)) w)
  | (os_err _, w) => (false, w)
  end.

Inductive FileExclusionPolicy :=
  | FileExclusionPolicy_Standard
  | FileExclusionPolicy_SimulateUnavailable
  | FileExclusionPolicy_SimulateHeldByOther.
#[export] Instance FileExclusionPolicy_eq_dec : EqDecision FileExclusionPolicy.
Proof. solve_decision. Defined.

(** [lock_error] is the condition that [WouldBlock] or another error of [try_lock]
    maps to, if any. *)
Definition acquire_file_exclusion (w : World) (policy : FileExclusionPolicy) :
    outcome OperationFailure unit :=
  match policy with
  | FileExclusionPolicy_Standard =>
      match lock_error w with None => Ok tt | Some c => fail c end
  | FileExclusionPolicy_SimulateUnavailable => fail FailureCondition_ExclusionUnavailable
  | FileExclusionPolicy_SimulateHeldByOther => fail FailureCondition_AnotherOwnerHoldsExclusion
  end.

Record FileEngine := mk_FileEngine {
  world : World;
  file_open : bool;  (* [file.is_some()] *)
  carried_epoch : Z;
  claim : option OwnershipClaimRecord;
  admission : OpenAdmission;
  meta_records : MetaRecords;
  exclusion_policy : FileExclusionPolicy;
  locked : bool;
  fe_frame_count : Z;  (* u64 *)
  read_all_count : Z;
  fe_uncertain : bool;
  fe_diagnostic : option unit;
  simulate_indeterminate : bool;
  simulate_sync_error : bool;
  simulate_write_error : bool;
  fail_after_n_blocks : option Z;
  undetermined_after_n_blocks : option Z;
  recovered_tail_truncation : option TornTailInfo;
}.

Definition with_world (w : World) (e : FileEngine) : FileEngine :=
  let 'mk_FileEngine _ f ce c a m x l n r u d si ss sw fa ua t := e in
  mk_FileEngine w f ce c a m x l n r u d si ss sw fa ua t.
Definition with_locked (l : bool) (e : FileEngine) : FileEngine :=
  let 'mk_FileEngine w f ce c a m x _ n r u d si ss sw fa ua t := e in
  mk_FileEngine w f ce c a m x l n r u d si ss sw fa ua t.
Definition with_frame_count (n : Z) (e : FileEngine) : FileEngine :=
  let 'mk_FileEngine w f ce c a m x l _ r u d si ss sw fa ua t := e in
  mk_FileEngine w f ce c a m x l n r u d si ss sw fa ua t.
Definition with_read_all_count (r : Z) (e : FileEngine) : FileEngine :=
  let 'mk_FileEngine w f ce c a m x l n _ u d si ss sw fa ua t := e in
  mk_FileEngine w f ce c a m x l n r u d si ss sw fa ua t.
(** [uncertain = true], with a diagnostic. *)
Definition mark_uncertain (e : FileEngine) : FileEngine :=
  let 'mk_FileEngine w f ce c a m x l n r _ _ si ss sw fa ua t := e in
  mk_FileEngine w f ce c a m x l n r true (Some tt) si ss sw fa ua t.
Definition with_simulate_indeterminate (si : bool) (e : FileEngine) : FileEngine :=
  let 'mk_FileEngine w f ce c a m x l n r u d _ ss sw fa ua t := e in
  mk_FileEngine w f ce c a m x l n r u d si ss sw fa ua t.

Section file_engine.
Context `{Digests}.

(** [read_meta_records(&self.meta_path)]. *)
Definition read_meta (w : World) : outcome OperationFailure MetaRecords :=
  match meta_file w with
  | Some _ => if meta_readable w then read_meta_records (meta_file w) else Err unreadable
  | None => read_meta_records None
  end.

(** [read_container_frames] on the handle of the container; the seeks, the
    length query and the read fail together. *)
Definition scan_pgno (w : World) : outcome OperationFailure ContainerScan :=
  match pgno_read_error w with
  | Some c => fail c
  | None => read_container_frames (pgno_bytes w)
  end.

(** The guard on the lock, which [append_block] repeats. *)
Definition lacks_exclusion (e : FileEngine) : bool :=
  bool_decide (exclusion_policy e = FileExclusionPolicy_Standard) &&
  (negb (file_open e) || negb (locked e)).

Definition check_authority (e : FileEngine) : outcome OperationFailure unit :=
  if fe_uncertain e then fail FailureCondition_OwnershipRecordUnreadable else
  if lacks_exclusion e then fail FailureCondition_AnotherOwnerHoldsExclusion else
  meta ← read_meta (world e);
  match outbound_pointer meta with
  | Some _ => fail FailureCondition_RetiredMigrationSource
  | None =>
      claim ← ok_or (latest_claim meta) unreadable;
      if negb (epoch claim =? carried_epoch e) then fail FailureCondition_StaleEpoch else
      Ok tt
  end.

Definition reached (limit : option Z) (e : FileEngine) : bool :=
  match limit with Some n => n <=? fe_frame_count e | None => false end.

Definition check_append_simulation (e : FileEngine) :
    outcome OperationFailure (option (WriteLandingVerdict Z)) * FileEngine :=
  if simulate_indeterminate e
  then (Ok (Some (WriteLandingVerdict_Undetermined (carried_epoch e))), mark_uncertain e) else
  if reached (undetermined_after_n_blocks e) e
  then (Ok (Some (WriteLandingVerdict_Undetermined (carried_epoch e))), mark_uncertain e) else
  if reached (fail_after_n_blocks e) e then (fail broken, e) else
  (Ok None, e).

(** The rollback of a failed write: it stops at the first call that fails. Its
    outcome is diagnostic. *)
Definition rollback (initial_len : Z) (w : World) : World :=
  let '(truncated, w) := truncate_pgno initial_len w in
  if truncated then
    let '(synced, w) := syscall w in
    if synced then (syscall w).2 else w
  else w.

(** [append_block] from the seek to the end of the file on. *)
Definition write_block (block : bytes) (e : FileEngine) :
    outcome OperationFailure (WriteLandingVerdict Z) * FileEngine :=
  let '(sought, w) := syscall (world e) in
  let e := with_world w e in
  if negb sought then (fail FailureCondition_TransportUnavailable, e) else
  let initial_len := blen (pgno_bytes w) in
  let '(written, w) := if simulate_write_error e then (false, w) else write_pgno block w in
  if negb written then
    (Ok (WriteLandingVerdict_Undetermined (carried_epoch e)),
     mark_uncertain (with_world (rollback initial_len w) e))
  else
    let '(synced, w) := if simulate_sync_error e then (false, w) else syscall w in
    let e := with_world w e in
    if negb synced
    then (Ok (WriteLandingVerdict_Undetermined (carried_epoch e)), mark_uncertain e) else
    match u64_add (fe_frame_count e) 1 with
    | Ok n => (Ok (WriteLandingVerdict_Landed n), with_frame_count n e)
    | Err err => (Err err, e)
    | Panic => (Panic, e)
    end.

Definition file_append_block (block : bytes) (e : FileEngine) :
    outcome OperationFailure (WriteLandingVerdict Z) * FileEngine :=
  match check_authority e with
  | Err err => (Err err, e)
  | Panic => (Panic, e)
  | Ok _ =>
      if lacks_exclusion e then (fail FailureCondition_AnotherOwnerHoldsExclusion, e) else
      match check_append_simulation e with
      | (Err err, e) => (Err err, e)
      | (Panic, e) => (Panic, e)
      | (Ok (Some verdict), e) => (Ok verdict, e)
      | (Ok None, e) =>
          if negb (file_open e) then (fail FailureCondition_OwnershipUnestablished, e) else
          write_block block e
      end
  end.

(** A scan whose tail is clean. *)
Definition clean_frames (w : World) : outcome OperationFailure (list bytes) :=
  scan ← scan_pgno w;
  match tail_state scan with
  | TailState_Clean => Ok (scan_frames scan)
  | TailState_TornTail _ => fail broken
  end.

Definition file_read_all (e : FileEngine) : outcome OperationFailure (list bytes) * FileEngine :=
  let e := with_read_all_count (read_all_count e + 1) e in
  if negb (file_open e) then (Ok [], e) else (clean_frames (world e), e).

(** [recover_frames] scans once, whatever the chunk size. *)
Definition file_recover_frames {S} (_ : Z) (on_frame : FrameRecoveryCallback S)
    (e : FileEngine) (s : S) : outcome OperationFailure Z * FileEngine * S :=
  if negb (file_open e) then (Ok 0, e, s) else
  match clean_frames (world e) with
  | Err err => (Err err, e, s)
  | Panic => (Panic, e, s)
  | Ok frames =>
      let e := with_frame_count (blen frames) e in
      match feed on_frame 0 frames s with
      | (Ok _, s) => (Ok (blen frames), e, s)
      | (Err err, s) => (Err err, e, s)
      | (Panic, s) => (Panic, e, s)
      end
  end.

Definition file_acquire_exclusion (e : FileEngine) : outcome OperationFailure unit * FileEngine :=
  if file_open e then
    match acquire_file_exclusion (world e) (exclusion_policy e) with
    | Ok _ => (Ok tt, with_locked true e)
    | Err err => (Err err, e)
    | Panic => (Panic, e)
    end
  else (Ok tt, e).

Definition file_release_exclusion (e : FileEngine) : outcome OperationFailure unit * FileEngine :=
  if locked e && bool_decide (exclusion_policy e = FileExclusionPolicy_Standard) then
    if file_open e then
      let '(unlocked, w) := syscall (world e) in
      let e := with_world w e in
      if unlocked then (Ok tt, with_locked false e)
      else (fail FailureCondition_ExclusionUnavailable, e)
    else (Ok tt, e)
  else (Ok tt, e).

Definition file_is_retired (e : FileEngine) : outcome OperationFailure bool :=
  meta ← read_meta (world e);
  Ok (bool_decide (is_Some (outbound_pointer meta))).

Definition file_sync (e : FileEngine) : outcome OperationFailure unit * FileEngine :=
  match check_authority e with
  | Err err => (Err err, e)
  | Panic => (Panic, e)
  | Ok _ =>
      if file_open e then
        let '(synced, w) := syscall (world e) in
        let e := with_world w e in
        if synced then (Ok tt, e)
        else (fail FailureCondition_OwnershipRecordUnreadable, mark_uncertain e)
      else (Ok tt, e)
  end.

#[export] Instance FileEngine_engine : StorageEngine FileEngine := {
  engine_carried_epoch := carried_epoch;
  engine_check_authority := check_authority;
  append_block := file_append_block;
  engine_read_block := default_read_block (default_read_chunk file_read_all);
  read_all := file_read_all;
  read_chunk := default_read_chunk file_read_all;
  recover_frames := @file_recover_frames;
  acquire_exclusion := file_acquire_exclusion;
  release_exclusion := file_release_exclusion;
  engine_is_retired := file_is_retired;
  engine_sync := file_sync;
  engine_set_simulate_indeterminate := with_simulate_indeterminate;
  engine_uncertain_diagnostic := fe_diagnostic;
  engine_claim := claim;
  engine_admission := admission;
  engine_schema_descriptor e := schema_descriptor (meta_records e);
  engine_outbound_pointer e := outbound_pointer (meta_records e);
  engine_inbound_pointer e := inbound_pointer (meta_records e);
  engine_migration_start e := migration_start (meta_records e);
  engine_migration_end e := migration_end (meta_records e);
  engine_rescue_policy_choice e := rescue_policy_choice (meta_records e);
}.
End file_engine.

(** ** Specification: a container file and its state *)

Section file_spec.
Context `{Digests}.
Implicit Types (e : FileEngine) (w : World) (fs : list bytes) (p t : bytes).

(** The frames an engine holds. *)
Definition file_frames e : list bytes :=
  if file_open e then
    match read_container_frames (pgno_bytes (world e)) with
    | Ok scan => scan_frames scan
    | _ => []
    end
  else [].

(** The container is whole frames, followed by a torn one only if the engine is
    uncertain, which its diagnostic shows. *)
Definition container_at w fs t : Prop :=
  pgno_bytes w = container_image fs ++ t ∧ Forall frame_wf fs ∧ (t = [] ∨ torn t) ∧
  blen (container_image fs ++ t) ≤ isize_max.
Record file_wf e : Prop := {
  fw_container : file_open e = true → ∃ fs t,
    container_at (world e) fs t ∧ (fe_uncertain e = false → t = []);
  fw_meta : blen (default [] (meta_file (world e))) ≤ isize_max;
  fw_diagnostic : fe_diagnostic e = if fe_uncertain e then Some tt else None;
  fw_count : 0 ≤ fe_frame_count e ≤ blen (file_frames e);
}.

Context `{!DigestLaws}.

Lemma scan_container_at w fs t :
  container_at w fs t →
  read_container_frames (pgno_bytes w) =
    Ok (mk_ContainerScan ContainerHeader_new fs (commit_frames RollingCommitment_new fs)
          (tail_of (blen (container_image fs)) t) (blen (container_image fs))).
Proof. intros (->&Hw&Ht&Hb). by apply read_container_image. Qed.

Lemma file_frames_at e fs t :
  file_open e = true → container_at (world e) fs t → file_frames e = fs.
Proof. intros Ho Hc. unfold file_frames. by rewrite Ho, (scan_container_at _ _ _ Hc). Qed.

Lemma container_count fs : blen fs ≤ blen (container_image fs).
Proof.
  unfold container_image. rewrite blen_app, blen_header.
  assert (blen fs ≤ blen (frames_image fs)); [|lia].
  induction fs as [|p fs IH]; [done|]. rewrite frames_image_cons, blen_app, blen_frame_image.
  rewrite blen_cons. pose proof (blen_nonneg p). lia.
Qed.

(** A container followed by the first bytes of a frame is the container, torn
    or not, or the container extended. *)
Lemma container_partial w fs p k :
  Forall frame_wf fs → frame_wf p →
  blen (container_image fs) + blen (frame_image p) ≤ isize_max →
  pgno_bytes w = container_image fs ++ take k (frame_image p) →
  container_at w fs (take k (frame_image p)) ∨ container_at w (fs ++ [p]) [].
Proof.
  intros Hfs Hp Hb Hw. destruct (decide (length (frame_image p) ≤ k)%nat) as [Hk|Hk].
  - right. rewrite take_ge in Hw by done. unfold container_at.
    rewrite app_nil_r, container_image_snoc, blen_app. split; [done|].
    split; [apply Forall_app_2; [done|by apply Forall_singleton]|]. split; [by left|done].
  - left. split; [done|]. split; [done|]. split.
    + destruct k as [|k]; [by left|right]. rewrite <-(Nat2Z.id (S k)).
      apply torn_prefix; [done|unfold blen; lia].
    + rewrite blen_app. unfold blen in *. rewrite length_take. lia.
Qed.

Lemma next_outcome_pgno w : pgno_bytes (next_outcome w).2 = pgno_bytes w.
Proof. unfold next_outcome. by destruct (script w). Qed.
Lemma syscall_pgno w : pgno_bytes (syscall w).2 = pgno_bytes w.
Proof.
  unfold syscall. pose proof (next_outcome_pgno w). by destruct (next_outcome w) as [[] w'].
Qed.

(** What no call on the container changes. *)
Definition other_files w :=
  (meta_file w, meta_readable w, pgno_read_error w, lock_error w).

Lemma syscall_other w : other_files (syscall w).2 = other_files w.
Proof. by destruct w as [? ? ? ? ? [|[|k] ?]]. Qed.
Lemma write_pgno_other data w : other_files (write_pgno data w).2 = other_files w.
Proof. unfold write_pgno. destruct w as [? ? ? ? ? [|[|k] ?]]; simpl; by destruct (_ <? _). Qed.
Lemma rollback_other n w : other_files (rollback n w) = other_files w.
Proof.
  by destruct w as [? ? ? ? ? [|[|k1] [|[|k2] [|[|k3] ?]]]].
Qed.

Lemma write_pgno_cases data w b w' :
  write_pgno data w = (b, w') → ∃ k, pgno_bytes w' = pgno_bytes w ++ take k data ∧
    (b = true → (length data ≤ k)%nat) ∧
    (take k data = [] ∨ blen (pgno_bytes w) + blen data ≤ isize_max).
Proof.
  unfold write_pgno. pose proof (next_outcome_pgno w) as Hn.
  destruct (next_outcome w) as [o w1]. cbn [snd] in Hn.
  destruct (isize_max <? _) eqn:Hb.
  { intros [= <- <-]. exists 0%nat. rewrite Hn, take_0, app_nil_r. split; [done|]. split; [done|by left]. }
  assert (blen (pgno_bytes w) + blen data ≤ isize_max) by lia.
  destruct o as [|k]; intros [= <- <-].
  - exists (length data). rewrite firstn_all. split; [done|]. split; [done|by right].
  - exists (Z.to_nat k). split; [done|]. split; [done|by right].
Qed.

Lemma rollback_pgno n w :
  pgno_bytes (rollback n w) = pgno_bytes w ∨
  pgno_bytes (rollback n w) = take (Z.to_nat n) (pgno_bytes w).
Proof.
  unfold rollback, truncate_pgno. pose proof (next_outcome_pgno w) as Hn.
  destruct (next_outcome w) as [[|k] w1]; cbn [snd] in Hn; [|by left].
  right. pose proof (syscall_pgno (with_pgno (Some (take (Z.to_nat n) (pgno_bytes w))) w1)) as Hs.
  destruct (syscall _) as [[] w2]; cbn [snd] in Hs; [|done].
  by rewrite syscall_pgno.
Qed.

(** What a write leaves, by its verdict. *)
Definition write_result fs p e (r : outcome OperationFailure (WriteLandingVerdict Z))
    (w' : World) (marked : bool) (count : Z) : Prop :=
  match r with
  | Ok (WriteLandingVerdict_Landed n) =>
      container_at w' (fs ++ [p]) [] ∧ marked = false ∧ n = count ∧ count = fe_frame_count e + 1
  | Ok (WriteLandingVerdict_Undetermined _) =>
      ((∃ t, container_at w' fs t) ∨ container_at w' (fs ++ [p]) []) ∧ marked = true ∧
      count = fe_frame_count e
  | Err _ => container_at w' fs [] ∧ marked = false ∧ count = fe_frame_count e
  | Panic => False
  end.

(** The engine after a write: its world, perhaps the uncertainty mark, and its
    frame count. *)
Definition after_write e w' (marked : bool) (count : Z) : FileEngine :=
  let e' := with_frame_count count (with_world w' e) in
  if marked then mark_uncertain e' else e'.

Lemma container_at_same w w' fs t :
  container_at w fs t → pgno_bytes w' = pgno_bytes w → container_at w' fs t.
Proof. unfold container_at. intros Hc ->. exact Hc. Qed.

Lemma rolled_back_container fs p w w1 k :
  container_at w fs [] → frame_wf p →
  pgno_bytes w1 = pgno_bytes w ++ take k (frame_image p) →
  take k (frame_image p) = [] ∨ blen (pgno_bytes w) + blen (frame_image p) ≤ isize_max →
  (∃ t, container_at (rollback (blen (pgno_bytes w)) w1) fs t) ∨
  container_at (rollback (blen (pgno_bytes w)) w1) (fs ++ [p]) [].
Proof.
  intros Hc Hp Hw1 Hk. pose proof Hc as (Hw&Hfs&_&Hb). rewrite app_nil_r in Hw, Hb.
  assert (∀ w', pgno_bytes w' = pgno_bytes w → container_at w' fs []) as Hsame
    by (intros w'; by apply container_at_same).
  destruct (rollback_pgno (blen (pgno_bytes w)) w1) as [Hr|Hr].
  - destruct Hk as [Hk|Hk].
    + left. exists []. apply Hsame. by rewrite Hr, Hw1, Hk, app_nil_r.
    + rewrite Hw in Hk |- *. rewrite Hw1, Hw in Hr.
      destruct (container_partial _ fs p k Hfs Hp Hk Hr) as [Hx|Hx];
        [left; eexists; exact Hx|right; exact Hx].
  - left. exists []. apply Hsame. rewrite Hr, Hw1. unfold blen. rewrite Nat2Z.id.
    apply take_app_length.
Qed.

Lemma write_block_cases fs p e r e' :
  container_at (world e) fs [] → frame_wf p → 0 ≤ fe_frame_count e ≤ blen fs →
  write_block (frame_image p) e = (r, e') →
  ∃ w' marked count, e' = after_write e w' marked count ∧ write_result fs p e r w' marked count.
Proof.
  intros Hc Hp Hn. destruct e as [w f ce c a m x l n rd u d si ss sw fa ua t].
  cbn [world fe_frame_count] in Hc, Hn. unfold write_block. cbn [world].
  pose proof (syscall_pgno w) as H1. destruct (syscall w) as [sought w1]. cbn [snd] in H1.
  cbn [with_world simulate_write_error carried_epoch simulate_sync_error fe_frame_count].
  destruct sought; cbn [negb].
  2: { intros [= <- <-]. exists w1, false, n. split; [done|].
       split; [by apply (container_at_same w)|done]. }
  assert (container_at w1 fs []) as Hc1 by by apply (container_at_same w).
  destruct (if sw then (false, w1) else write_pgno (frame_image p) w1) as [written w2] eqn:Hwr.
  assert (∃ k, pgno_bytes w2 = pgno_bytes w1 ++ take k (frame_image p) ∧
    (written = true → (length (frame_image p) ≤ k)%nat) ∧
    (take k (frame_image p) = [] ∨ blen (pgno_bytes w1) + blen (frame_image p) ≤ isize_max))
    as (k&Hk1&Hk2&Hk3).
  { destruct sw; [|by apply write_pgno_cases]. injection Hwr as <- <-.
    exists 0%nat. rewrite take_0, app_nil_r. split; [done|]. split; [done|by left]. }
  destruct written; cbn [negb].
  2: { intros [= <- <-]. eexists _, true, n. split; [reflexivity|].
       split; [by apply rolled_back_container with k|done]. }
  assert (container_at w2 (fs ++ [p]) []) as Hc2.
  { pose proof Hc1 as (Hw&Hfs&_&Hb). rewrite app_nil_r in Hw, Hb.
    rewrite take_ge in Hk1, Hk3 by by apply Hk2. rewrite Hw in Hk1, Hk3.
    pose proof (blen_frame_image p). pose proof (blen_nonneg p).
    destruct Hk3 as [Hk3|Hk3]; [rewrite Hk3, blen_nil in *; lia|].
    unfold container_at. rewrite app_nil_r, container_image_snoc, blen_app. split; [done|].
    split; [apply Forall_app_2; [done|by apply Forall_singleton]|]. split; [by left|done]. }
  pose proof (syscall_pgno w2) as H3. destruct (syscall w2) as [synced w3]. cbn [snd] in H3.
  destruct ss; [|destruct synced]; cbn [negb with_world fe_frame_count carried_epoch].
  - intros [= <- <-]. exists w2, true, n. split; [done|]. split; [by right|done].
  - pose proof (container_count fs). pose proof Hc as (_&_&_&Hb). rewrite app_nil_r in Hb.
    unfold u64_add. destruct (n + 1 <=? u64_max) eqn:?; [|unfold u64_max, isize_max in *; lia].
    intros [= <- <-]. exists w3, false, (n + 1). split; [done|].
    split; [by apply (container_at_same w2)|done].
  - intros [= <- <-]. exists w3, true, n. split; [done|].
    split; [right; by apply (container_at_same w2)|done].
Qed.

Lemma write_block_other b e : other_files (world (write_block b e).2) = other_files (world e).
Proof.
  destruct e as [w f ce c a m x l n rd u d si ss sw fa ua t]. unfold write_block. cbn [world].
  pose proof (syscall_other w) as H1. destruct (syscall w) as [[] w1]; cbn [snd] in H1; [|done].
  cbn [negb with_world simulate_write_error carried_epoch simulate_sync_error fe_frame_count].
  pose proof (write_pgno_other b w1) as H2.
  destruct sw; [cbn; by rewrite rollback_other|].
  destruct (write_pgno b w1) as [[] w2]; cbn [snd] in H2; cbn [negb].
  2: { cbn. by rewrite rollback_other, H2. }
  pose proof (syscall_other w2) as H3.
  destruct ss; [cbn; congruence|]. destruct (syscall w2) as [[] w3]; cbn [snd] in H3; cbn [negb].
  - cbn [world with_world fe_frame_count]. destruct (u64_add n 1); cbn; congruence.
  - cbn. congruence.
Qed.

Lemma other_files_meta w w' :
  other_files w' = other_files w → meta_file w' = meta_file w.
Proof. by intros [= -> _ _ _]. Qed.

(** ** The driver keeps the contract of an engine *)

Lemma read_meta_not_panic w :
  blen (default [] (meta_file w)) ≤ isize_max → read_meta w ≠ Panic.
Proof.
  unfold read_meta. destruct (meta_file w); [|done]. destruct (meta_readable w); [|done].
  apply read_meta_total.
Qed.

Lemma check_authority_not_panic e : file_wf e → check_authority e ≠ Panic.
Proof.
  intros Hw. unfold check_authority, fail. destruct (fe_uncertain e); [done|].
  destruct (lacks_exclusion e); [done|].
  apply bind_not_panic; [by apply read_meta_not_panic, Hw|]. intros m _.
  destruct (outbound_pointer m); [done|]. destruct (latest_claim m); [|done]. simpl.
  by destruct (negb _).
Qed.

Lemma check_authority_certain e : check_authority e = Ok tt → fe_uncertain e = false.
Proof. unfold check_authority. by destruct (fe_uncertain e). Qed.

(** An engine whose container and metadata did not change. *)
Lemma file_wf_same e e' :
  file_wf e → pgno_bytes (world e') = pgno_bytes (world e) →
  meta_file (world e') = meta_file (world e) → file_open e' = file_open e →
  (fe_uncertain e' = false → fe_uncertain e = false) →
  fe_diagnostic e' = (if fe_uncertain e' then Some tt else None) →
  (0 ≤ fe_frame_count e' ≤ blen (file_frames e)) →
  file_wf e' ∧ file_frames e' = file_frames e.
Proof.
  intros [Hc Hm Hd Hn] Hp Hm' Ho Hu Hd' Hn'.
  assert (file_frames e' = file_frames e) as Hf by (unfold file_frames; by rewrite Ho, Hp).
  split; [|done]. split; [|by rewrite Hm'|done|by rewrite Hf].
  rewrite Ho. intros Hopen. destruct (Hc Hopen) as (fs&t&Hat&Ht). exists fs, t.
  split; [by apply (container_at_same (world e))|auto].
Qed.

Lemma mark_uncertain_fields e :
  world (mark_uncertain e) = world e ∧ file_open (mark_uncertain e) = file_open e ∧
  fe_uncertain (mark_uncertain e) = true ∧ fe_diagnostic (mark_uncertain e) = Some tt ∧
  fe_frame_count (mark_uncertain e) = fe_frame_count e.
Proof. by destruct e. Qed.

Lemma mark_uncertain_wf e :
  file_wf e → file_wf (mark_uncertain e) ∧ file_frames (mark_uncertain e) = file_frames e.
Proof.
  intros Hw. destruct (mark_uncertain_fields e) as (H1&H2&H3&H4&H5).
  apply file_wf_same; rewrite ?H1, ?H2, ?H3, ?H4, ?H5; try done. apply Hw.
Qed.

(** What an append comes down to. *)
Lemma file_append_cases block e :
  (∃ err, file_append_block block e = (Err err, e)) ∨
  (check_authority e = Panic ∧ file_append_block block e = (Panic, e)) ∨
  file_append_block block e =
    (Ok (WriteLandingVerdict_Undetermined (carried_epoch e)), mark_uncertain e) ∨
  (check_authority e = Ok tt ∧ file_open e = true ∧
   file_append_block block e = write_block block e).
Proof.
  unfold file_append_block. destruct (check_authority e) as [[]|err|] eqn:Ha;
    [|left; by exists err|by right; left].
  destruct (lacks_exclusion e); [left; by eexists|]. unfold check_append_simulation.
  destruct (simulate_indeterminate e); [by right; right; left|].
  destruct (reached (undetermined_after_n_blocks e) e); [by right; right; left|].
  destruct (reached (fail_after_n_blocks e) e); [left; by eexists|].
  destruct (file_open e); [by right; right; right|left; by eexists].
Qed.

Lemma after_write_fields e w' marked count :
  world (after_write e w' marked count) = w' ∧
  file_open (after_write e w' marked count) = file_open e ∧
  fe_frame_count (after_write e w' marked count) = count ∧
  fe_uncertain (after_write e w' marked count) = fe_uncertain e || marked ∧
  fe_diagnostic (after_write e w' marked count) =
    (if marked then Some tt else fe_diagnostic e).
Proof. destruct e, marked; simpl; by rewrite ?orb_true_r, ?orb_false_r. Qed.

Lemma after_write_wf e w' (marked : bool) count fs t :
  file_wf e → file_open e = true → container_at w' fs t → (marked = false → t = []) →
  meta_file w' = meta_file (world e) → 0 ≤ count ≤ blen fs →
  file_wf (after_write e w' marked count) ∧ file_frames (after_write e w' marked count) = fs.
Proof.
  intros Hw Ho Hc Ht Hm Hn. destruct (after_write_fields e w' marked count) as (H1&H2&H3&H4&H5).
  assert (file_frames (after_write e w' marked count) = fs) as Hf
    by (apply (file_frames_at _ _ t); [by rewrite H2|by rewrite H1]).
  split; [|done]. split; rewrite ?Hf, ?H1, ?H2, ?H3, ?H4, ?H5; [|by rewrite Hm; apply Hw|..|done].
  - intros _. exists fs, t. split; [done|]. by intros [_ ?]%orb_false_iff; apply Ht.
  - destruct marked; [by rewrite orb_true_r|]. rewrite orb_false_r. apply Hw.
Qed.

(** An append that reaches the container. *)
Lemma write_block_law e p r e' :
  file_wf e → frame_wf p → check_authority e = Ok tt → file_open e = true →
  write_block (frame_image p) e = (r, e') →
  file_wf e' ∧ ∃ fs w' marked count, container_at (world e) fs [] ∧
    e' = after_write e w' marked count ∧ write_result fs p e r w' marked count ∧
    match r with
    | Ok (WriteLandingVerdict_Landed _) => file_frames e' = fs ++ [p]
    | Ok (WriteLandingVerdict_Undetermined _) =>
        file_frames e' = fs ∨ file_frames e' = fs ++ [p]
    | _ => file_frames e' = fs
    end.
Proof.
  intros Hw Hp Ha Ho Hwr. destruct (fw_container e Hw Ho) as (fs&t&Hc&Ht).
  rewrite (Ht (check_authority_certain e Ha)) in Hc. pose proof (fw_count e Hw) as Hn.
  rewrite (file_frames_at e fs [] Ho Hc) in Hn.
  pose proof (write_block_other (frame_image p) e) as Hother. rewrite Hwr in Hother.
  destruct (write_block_cases fs p e r e' Hc Hp Hn Hwr) as (w'&marked&count&->&Hres).
  assert (meta_file w' = meta_file (world e)) as Hm.
  { cbn [snd] in Hother. by rewrite (proj1 (after_write_fields _ _ _ _)) in Hother;
      apply other_files_meta in Hother. }
  assert (blen (fs ++ [p]) = blen fs + 1) as Hl by (by rewrite blen_app).
  assert (∀ fs' t', container_at w' fs' t' → (marked = false → t' = []) → 0 ≤ count ≤ blen fs' →
    file_wf (after_write e w' marked count) ∧ file_frames (after_write e w' marked count) = fs')
    as Hafter by (intros; by eapply after_write_wf).
  destruct r as [[n|c]|err|]; [| | |done]; pose proof Hres as Hres'.
  - destruct Hres' as (Hc'&->&_&->). destruct (Hafter _ _ Hc') as [? ?]; [done|lia|].
    split; [done|]. by exists fs, w', false, (fe_frame_count e + 1).
  - destruct Hres' as ([[t' Hc']|Hc']&->&->);
      (destruct (Hafter _ _ Hc') as [? ?]; [done|lia|]);
      (split; [done|]); exists fs, w', true, (fe_frame_count e); auto.
  - destruct Hres' as (Hc'&->&->). destruct (Hafter _ _ Hc') as [? ?]; [done|lia|].
    split; [done|]. by exists fs, w', false, (fe_frame_count e).
Qed.

Lemma file_append_law e p r e' :
  file_wf e → frame_wf p → file_append_block (frame_image p) e = (r, e') →
  file_wf e' ∧
  match r with
  | Ok (WriteLandingVerdict_Landed _) =>
      file_frames e' = file_frames e ++ [p] ∧ fe_diagnostic e' = fe_diagnostic e
  | Ok (WriteLandingVerdict_Undetermined _) =>
      (file_frames e' = file_frames e ∨ file_frames e' = file_frames e ++ [p]) ∧
      fe_diagnostic e' = Some tt
  | Err _ => file_frames e' = file_frames e
  | Panic => False
  end.
Proof.
  intros Hw Hp Hr.
  destruct (file_append_cases (frame_image p) e) as [[err Hc]|[[Hc _]|[Hc|(Ha&Ho&Hc)]]].
  - rewrite Hc in Hr. by injection Hr as <- <-.
  - by apply check_authority_not_panic in Hc.
  - rewrite Hc in Hr. injection Hr as <- <-. destruct (mark_uncertain_wf e Hw) as [? ->].
    split; [done|]. split; [by left|]. by destruct e.
  - rewrite Hc in Hr. destruct (write_block_law e p r e' Hw Hp Ha Ho Hr)
      as (Hw'&fs&w'&marked&count&Hat&->&Hres&Hf). split; [done|].
    rewrite (file_frames_at e fs [] Ho Hat).
    destruct (after_write_fields e w' marked count) as (_&_&_&_&Hd).
    destruct r as [[n|c]|err|]; [..|done]; [| |done]; (split; [done|]); rewrite Hd.
    + by destruct Hres as (_&->&_).
    + by destruct Hres as (_&->&_).
Qed.

Lemma clean_frames_law e :
  file_wf e → file_open e = true →
  clean_frames (world e) ≠ Panic ∧ ∀ fs, clean_frames (world e) = Ok fs → fs = file_frames e.
Proof.
  intros Hw Ho. destruct (fw_container e Hw Ho) as (fs&t&Hc&_).
  unfold clean_frames, scan_pgno, file_frames. rewrite Ho.
  destruct (pgno_read_error _); [by split|]. rewrite (scan_container_at _ _ _ Hc). simpl.
  unfold tail_of. destruct (is_empty t); [|by split]. split; [done|]. by intros fs' [= <-].
Qed.

(** The counters of reads leave everything else. *)
Lemma read_count_wf e n :
  file_wf e → file_wf (with_read_all_count n e) ∧
  file_frames (with_read_all_count n e) = file_frames e.
Proof.
  intros Hw. pose proof (fw_diagnostic e Hw). pose proof (fw_count e Hw).
  apply file_wf_same; by destruct e.
Qed.
Lemma frame_count_wf e n :
  file_wf e → 0 ≤ n ≤ blen (file_frames e) →
  file_wf (with_frame_count n e) ∧ file_frames (with_frame_count n e) = file_frames e.
Proof.
  intros Hw Hn. pose proof (fw_diagnostic e Hw). apply file_wf_same; by destruct e.
Qed.

Lemma file_read_all_law e r e' :
  file_wf e → file_read_all e = (r, e') →
  file_wf e' ∧ file_frames e' = file_frames e ∧ (∀ fs, r = Ok fs → fs = file_frames e) ∧ r ≠ Panic.
Proof.
  unfold file_read_all. intros Hw Hr. destruct (read_count_wf e (read_all_count e + 1) Hw) as [Hw' Hf].
  set (e1 := with_read_all_count _ e) in *. assert (file_open e1 = file_open e) as Ho by by destruct e.
  assert (file_open e = false → file_frames e = []) as Hclosed by (unfold file_frames; by intros ->).
  rewrite Ho in Hr. destruct (file_open e) eqn:Hopen; simpl in Hr; injection Hr as <- <-.
  - destruct (clean_frames_law e1 Hw' Ho) as [Hnp Hfs]. rewrite Hf in Hfs. auto.
  - rewrite Hclosed by done. split; [done|]. split; [by rewrite Hf, Hclosed|].
    split; [by intros fs [= <-]|done].
Qed.

Lemma file_recover_law {S} n (cb : FrameRecoveryCallback S) e s r e' s' :
  file_wf e → file_recover_frames n cb e s = (r, e', s') →
  file_wf e' ∧ file_frames e' = file_frames e ∧
  ((r, s') = feed cb 0 (file_frames e) s ∨
   ∃ k n err, feed cb 0 (take k (file_frames e)) s = (Ok n, s') ∧ r = Err err).
Proof.
  unfold file_recover_frames. intros Hw Hr. destruct (file_open e) eqn:Ho; simpl in Hr.
  2: { injection Hr as <- <- <-.
       assert (file_frames e = []) as -> by (unfold file_frames; by rewrite Ho).
       split; [done|]. split; [done|by left]. }
  destruct (clean_frames_law e Hw Ho) as [Hnp Hfs].
  destruct (clean_frames (world e)) as [fs|err|] eqn:Hc; [|injection Hr as <- <- <-|done].
  2: { split; [done|]. split; [done|]. right. exists 0%nat. rewrite take_0. by do 2 eexists. }
  rewrite (Hfs fs eq_refl) in Hr.
  destruct (frame_count_wf e (blen (file_frames e)) Hw) as [Hw' Hf'];
    [pose proof (blen_nonneg (file_frames e)); lia|].
  destruct (fw_container e Hw Ho) as (fs0&t&Hat&_).
  rewrite (file_frames_at e fs0 t Ho Hat) in *. destruct Hat as (_&_&_&Hb).
  pose proof (container_count fs0). pose proof (blen_nonneg t). rewrite blen_app in Hb.
  destruct (feed cb 0 fs0 s) as [[m|err|] s1] eqn:Hfeed; injection Hr as <- <- <-;
    (split; [done|]); (split; [done|]); left; [|done|done].
  apply feed_count in Hfeed; [by rewrite Hfeed|unfold u64_max, isize_max in *; lia].
Qed.

#[export] Instance FileEngine_append_laws : AppendLaws FileEngine.
Proof.
  refine {| stored := file_frames; engine_wf := file_wf |}.
  - intros e Hw. unfold file_frames. destruct (file_open e) eqn:Ho; [|done].
    destruct (fw_container e Hw Ho) as (fs&t&Hc&_). rewrite (scan_container_at _ _ _ Hc). apply Hc.
  - exact check_authority_not_panic.
  - exact file_append_law.
Defined.
#[export] Instance FileEngine_laws : EngineLaws FileEngine.
Proof.
  split.
  - exact file_read_all_law.
  - exact @file_recover_law.
Defined.
End file_spec.

Section file_properties.
Context `{Digests, !DigestLaws}.
Implicit Types (e : FileEngine) (fs : list bytes) (p t : bytes).

(** An engine whose container can be read and has no torn tail recovers. *)
Lemma clean_recovers e fs :
  file_open e = true → pgno_read_error (world e) = None → container_at (world e) fs [] →
  recovers e.
Proof.
  intros Ho Hr Hc S n cb s. simpl. unfold file_recover_frames. rewrite Ho. simpl.
  unfold clean_frames, scan_pgno. rewrite Hr, (scan_container_at _ _ _ Hc). simpl.
  rewrite (file_frames_at e fs [] Ho Hc). destruct Hc as (_&_&_&Hb).
  pose proof (container_count fs). pose proof (blen_nonneg fs). rewrite app_nil_r in Hb.
  destruct (feed cb 0 fs s) as [[m|err|] s1] eqn:Hfeed; eexists; [|done|done].
  apply feed_count in Hfeed; [by rewrite Hfeed|unfold u64_max, isize_max in *; lia].
Qed.

(** Scanning and repairing the container of an engine. *)
Lemma repaired_container w fs t :
  container_at w fs t →
  ∃ scan, read_container_frames (pgno_bytes w) = Ok scan ∧ scan_frames scan = fs ∧
    (reconcile_tail_state (pgno_bytes w) scan).2 = container_image fs.
Proof.
  intros Hc. eexists. split; [by apply scan_container_at|]. split; [done|].
  destruct Hc as (->&_). by apply reconcile_image.
Qed.

Lemma write_block_epoch block e c e' :
  write_block block e = (Ok (WriteLandingVerdict_Undetermined c), e') → c = carried_epoch e.
Proof.
  unfold write_block. destruct e as [w f ce a b m x l n rd u d si ss sw fa ua t]. cbn [world].
  destruct (syscall w) as [[] w1]; [|done].
  cbn [negb with_world simulate_write_error carried_epoch simulate_sync_error fe_frame_count].
  destruct (if sw then _ else _) as [[] w2]; cbn [negb]; [|by intros [= <-]].
  destruct (if ss then _ else _) as [[] w3]; cbn [negb with_world carried_epoch fe_frame_count];
    [|by intros [= <-]]. by destruct (u64_add n 1).
Qed.

Lemma uncertain_refuses block e :
  fe_uncertain e = true →
  file_append_block block e = (fail FailureCondition_OwnershipRecordUnreadable, e).
Proof. intros Hu. unfold file_append_block, check_authority. by rewrite Hu. Qed.

(** C6: An append to the container is crash safe. Whatever the outcomes of the
    seek, the write (which may stop after any byte), the rollback and the
    synchronisation: a landed append left exactly one more frame; a failed one
    left every byte of the container as it was; and after an undetermined one
    the container scans, once its tail is repaired, as the old frames with or
    without the new one, and the engine refuses every later append. No append
    panics. *)
Theorem append_crash_safe e p r e' :
  file_wf e → file_open e = true → fe_uncertain e = false → frame_wf p →
  file_append_block (frame_image p) e = (r, e') →
  let file := pgno_bytes (world e') in
  pgno_bytes (world e) = container_image (file_frames e) ∧
  match r with
  | Ok (WriteLandingVerdict_Landed _) => file = container_image (file_frames e ++ [p])
  | Ok (WriteLandingVerdict_Undetermined c) =>
      c = carried_epoch e ∧
      (∃ scan, read_container_frames file = Ok scan ∧
         ((reconcile_tail_state file scan).2 = container_image (file_frames e) ∨
          (reconcile_tail_state file scan).2 = container_image (file_frames e ++ [p]))) ∧
      ∀ block, file_append_block block e' = (fail FailureCondition_OwnershipRecordUnreadable, e')
  | Err _ => file = pgno_bytes (world e)
  | Panic => False
  end.
Proof.
  intros Hw Ho Hu Hp Hr file. destruct (fw_container e Hw Ho) as (fs&t&Hc&Ht).
  rewrite (Ht Hu) in Hc. rewrite (file_frames_at e fs [] Ho Hc).
  assert (pgno_bytes (world e) = container_image fs) as Hold
    by (by rewrite (proj1 Hc), app_nil_r).
  split; [done|].
  destruct (file_append_cases (frame_image p) e) as [[err Hx]|[[Hx _]|[Hx|(Ha&_&Hx)]]].
  - rewrite Hx in Hr. by injection Hr as <- <-.
  - by apply check_authority_not_panic in Hx.
  - rewrite Hx in Hr. injection Hr as <- <-.
    destruct (mark_uncertain_fields e) as (Hwo&_&Hun&_). unfold file. rewrite Hwo.
    split; [done|]. split; [|intros b; by apply uncertain_refuses].
    destruct (repaired_container _ _ _ Hc) as (scan&?&_&?). exists scan. auto.
  - rewrite Hx in Hr.
    destruct (write_block_law e p r e' Hw Hp Ha Ho Hr) as (_&fs'&w'&m&n&Hc'&->&Hres&_).
    assert (fs' = fs) as -> by
      (by rewrite <-(file_frames_at e fs [] Ho Hc), <-(file_frames_at e fs' [] Ho Hc')).
    destruct (after_write_fields e w' m n) as (Hwo&_&_&Hun&_). unfold file. rewrite Hwo.
    destruct r as [[k|c]|err|]; [..|done].
    + destruct Hres as ((->&_)&_). by rewrite app_nil_r.
    + destruct Hres as (Hcases&->&_).
      rewrite orb_true_r in Hun.
      split; [by apply write_block_epoch in Hr|].
      split; [|intros b; by apply uncertain_refuses].
      destruct Hcases as [[t' Hc2]|Hc2];
        destruct (repaired_container _ _ _ Hc2) as (scan&?&_&?); exists scan; auto.
    + destruct Hres as (Hc2&_). by rewrite Hold, (proj1 Hc2), app_nil_r.
Qed.

(** Only closing a file closes it. *)
Lemma file_append_open block e : file_open e = true → file_open (file_append_block block e).2 = true.
Proof.
  intros Ho. destruct (file_append_cases block e) as [[err ->]|[[_ ->]|[->|(_&_&->)]]]; try done.
  { by destruct e. }
  unfold write_block. destruct e as [w f ce a b m x l n rd u d si ss sw fa ua t]. cbn [world].
  destruct (syscall w) as [[] w1]; [|done].
  cbn [negb with_world simulate_write_error carried_epoch simulate_sync_error fe_frame_count].
  destruct (if sw then _ else _) as [[] w2]; cbn [negb]; [|done].
  destruct (if ss then _ else _) as [[] w3]; cbn [negb with_world fe_frame_count]; [|done].
  by destruct (u64_add n 1).
Qed.

Lemma open_writer_open e st :
  file_open e = true → open_writer e = Ok st → file_open (engine st) = true.
Proof.
  intros Ho. unfold open_writer. simpl. unfold file_recover_frames. rewrite Ho. simpl.
  destruct (clean_frames (world e)) as [fs| |]; [|done..].
  destruct (feed _ _ _ _) as [[n| |] [rolling idx]]; [|done..]. intros [= <-]. by destruct e.
Qed.

(** C10: Fencing is exact, and a fenced writer cannot write. Over a metadata file
    of records in range, an engine that is certain and holds its lock has
    authority exactly when no outbound pointer is recorded and the last claim
    recorded carries the engine's own epoch; otherwise the refusal says which
    failed. And as soon as the last claim has another epoch or an outbound
    pointer exists, whatever the state of the engine, every append and every
    synchronisation is refused and leaves the engine and both files alone. *)
Theorem superseded_writer_fenced e rs c block :
  meta_file (world e) = Some (meta_image rs) → Forall meta_record_wf rs →
  blen (meta_image rs) ≤ isize_max → last (omap claim_of rs) = Some c →
  let retired := bool_decide (is_Some (last (omap outbound_of rs))) in
  let superseded := negb (epoch c =? carried_epoch e) in
  (fe_uncertain e = false → lacks_exclusion e = false → meta_readable (world e) = true →
   is_ok (absorb_records MetaRecords_default rs) →
   check_authority e =
     if retired then fail FailureCondition_RetiredMigrationSource
     else if superseded then fail FailureCondition_StaleEpoch else Ok tt) ∧
  (retired || superseded = true →
   ∃ err, file_append_block block e = (Err err, e) ∧ file_sync e = (Err err, e)).
Proof.
  intros Hm Hw Hb Hc retired superseded.
  assert (∀ m, absorb_records MetaRecords_default rs = Ok m →
    bool_decide (is_Some (outbound_pointer m)) = retired ∧ latest_claim m = Some c) as Hlatest.
  { intros m Ha. destruct (absorb_records_latest _ _ _ Ha) as [Hcl Ho].
    rewrite Hcl, Ho, Hc. split; [|done]. unfold retired.
    by destruct (last (omap outbound_of rs)). }
  assert (∀ m, absorb_records MetaRecords_default rs = Ok m →
    match outbound_pointer m with
    | Some _ => fail FailureCondition_RetiredMigrationSource
    | None =>
        claim ← ok_or (latest_claim m) unreadable;
        if negb (epoch claim =? carried_epoch e) then fail FailureCondition_StaleEpoch else
        Ok tt
    end = if retired then fail FailureCondition_RetiredMigrationSource
          else if superseded then fail FailureCondition_StaleEpoch else Ok tt) as Hexact.
  { intros m Ha. destruct (Hlatest m Ha) as [<- ->]. by destruct (outbound_pointer m). }
  assert (read_meta (world e) =
    if meta_readable (world e) then absorb_records MetaRecords_default rs else Err unreadable)
    as Hread by (unfold read_meta; rewrite Hm; by rewrite read_meta_image).
  split.
  - intros Hu Hl Hmr Hok. unfold check_authority. rewrite Hu, Hl, Hread, Hmr.
    destruct (absorb_records MetaRecords_default rs) as [m| |]; [|done..]. by apply Hexact.
  - intros Hrs. assert (∃ err, check_authority e = Err err) as [err Herr].
    { unfold check_authority. destruct (fe_uncertain e); [by eexists|].
      destruct (lacks_exclusion e); [by eexists|]. rewrite Hread.
      destruct (meta_readable (world e)); [|by eexists].
      pose proof (read_meta_total (meta_image rs) Hb) as Htot.
      rewrite read_meta_image in Htot by done.
      destruct (absorb_records MetaRecords_default rs) as [m| |] eqn:Ha; [|by eexists|done].
      rewrite bind_of_Ok, Hexact by done. destruct retired; [by eexists|].
      destruct superseded; [by eexists|done]. }
    exists err. unfold file_append_block, file_sync. by rewrite Herr.
Qed.

(** C2: Sessions on files are durable. Open a writer over a file engine whose
    container is in order and run any writes, whatever the system calls do:
    the bytes of the container then scan, with their tail repaired, as the log
    of the session (the frames found, then those reported landed, in order),
    or, only if the store says it is uncertain, as the log and one more frame;
    and the index and the commitment in memory are those of the log. *)
Theorem file_session_durable e st ws rs st' :
  file_wf e → file_open e = true → open_writer e = Ok st → run_writes ws st = (rs, st') →
  let file := pgno_bytes (world (engine st')) in
  let log := file_frames e ++ landed_frames rs in
  ∃ scan, read_container_frames file = Ok scan ∧
    (reconcile_tail_state file scan).2 = container_image (scan_frames scan) ∧
    (scan_frames scan = log ∨ is_uncertain st' = true ∧ ∃ p, scan_frames scan = log ++ [p]) ∧
    (is_uncertain st' = false → file = container_image log) ∧
    build_from_frames log = Ok (fiber_index st') ∧
    rolling_commitment st' = commit_frames RollingCommitment_new log.
Proof.
  intros Hw Ho Hopen Hr file log.
  assert (file_open (engine st') = true) as Ho'.
  { pose proof (run_writes_keeps (λ e, file_open e = true) file_append_open ws st) as Hk.
    rewrite Hr in Hk. by apply Hk, (open_writer_open e). }
  destruct (open_writer_live (EngineLaws0:=FileEngine_laws) e st Hw Hopen) as (Hl&Hs&_).
  destruct (run_writes_session ws st rs st' Hl Hr) as [_ (Hw'&Hb&Hro&Hst)].
  rewrite Hs in Hb, Hro, Hst. fold log in Hb, Hro, Hst.
  destruct (fw_container _ Hw' Ho') as (fs&t&Hc&Ht).
  destruct (repaired_container _ _ _ Hc) as (scan&Hscan&Hfs&Hrep). exists scan.
  assert (file_frames (engine st') = fs) as Hff by by apply (file_frames_at _ _ t).
  cbn [stored FileEngine_append_laws] in Hst. rewrite Hff in Hst. rewrite Hfs.
  split; [done|]. split; [done|]. split; [done|]. split; [|done].
  intros Hu. destruct Hst as [->|[? _]]; [|congruence].
  unfold is_uncertain in Hu. apply orb_false_iff in Hu as [_ Hd%bool_decide_eq_false].
  simpl in Hd. rewrite (fw_diagnostic _ Hw') in Hd.
  rewrite Ht in Hc by (destruct (fe_uncertain _); [by destruct Hd|done]).
  unfold file. by rewrite (proj1 Hc), app_nil_r.
Qed.
End file_properties.
