(* ===== verification/Adapter.v ===== *)
(** * The file adapter: [src/crates/pardosa/src/file.rs], [FileStorageAdapter]

    Creation, completion and opening of an artefact: a pair of files, as a
    [World], whose system calls follow the world's script. [io], of [Effects],
    threads the world through calls that may fail; an operation that fails drops
    its handles, so what it leaves is the world. A session that opens keeps the
    world in its engine. The adapter is its exclusion policy and its stem; the paths
    they stand for are in [FilePaths], the operations of the test configuration in
    [FileFixtures]. *)

From S2P Require Export FileEngine Effects.

(** ** Calls on a world *)

Abbreviation io := (eff World).

(** A call that can only fail or succeed. *)
Definition call (c : FailureCondition) : io unit := λ w,
  let '(ok, w) := syscall w in (if ok then Ok tt else fail c, w).

Definition pgno_exists (w : World) : bool := bool_decide (is_Some (pgno_file w)).
Definition meta_exists (w : World) : bool := bool_decide (is_Some (meta_file w)).

(** [Path::exists]: a failed query is [false]. *)
Definition exists_io (f : World → bool) : io bool := λ w,
  let '(ok, w) := syscall w in (Ok (ok && f w), w).

(** [OpenOptions::create_new]. *)
Definition create_meta : io unit := λ w,
  match meta_file w with
  | Some _ => (fail FailureCondition_StoreAlreadyExists, w)
  | None =>
      let '(ok, w) := syscall w in
      if ok then (Ok tt, with_meta (Some []) w)
      else (fail FailureCondition_OwnershipRecordUnreadable, w)
  end.
Definition create_pgno (c : FailureCondition) : io unit := λ w,
  match pgno_file w with
  | Some _ => (fail FailureCondition_StoreAlreadyExists, w)
  | None =>
      let '(ok, w) := syscall w in
      if ok then (Ok tt, with_pgno (Some []) w) else (fail c, w)
  end.

(** [write_all] at the end of the metadata file; no file grows beyond
    [i64::MAX] bytes. *)
Definition write_meta (data : bytes) : io unit := λ w,
  let file := default [] (meta_file w) in
  let '(o, w) := next_outcome w in
  let failed := fail FailureCondition_OwnershipRecordUnreadable in
  if isize_max <? blen file + blen data then (failed, w) else
  match o with
  | os_ok => (Ok tt, with_meta (Some (file ++ data)) w)
  | os_err k => (failed, with_meta (Some (file ++ take (Z.to_nat k) data)) w)
  end.

(** [write_all] on a fresh container. *)
Definition write_container (data : bytes) : io unit := λ w,
  let '(ok, w) := write_pgno data w in (if ok then Ok tt else fail broken, w).

(** ** The adapter *)

Record FileStorageAdapter := mk_FileStorageAdapter {
  stem : bytes;
  adapter_policy : FileExclusionPolicy;
}.

Section adapter.
Context `{Digests}.

Definition locator_id (a : FileStorageAdapter) : bytes := take 16 (blake3 (stem a)).

Definition current_epoch (w : World) : outcome OperationFailure Z :=
  meta ← read_meta w;
  Ok (match latest_claim meta with Some c => epoch c | None => 0 end).

Definition is_retired_source (w : World) : outcome OperationFailure bool :=
  meta ← read_meta w;
  Ok (bool_decide (is_Some (outbound_pointer meta))).

Definition presence_of (meta pgno : option bytes) : ArtefactPresence :=
  match meta, pgno with
  | None, None => ArtefactPresence_None
  | Some _, None => ArtefactPresence_OwnershipRecordOnly
  | None, Some _ => ArtefactPresence_EventDataOnly
  | Some _, Some _ => ArtefactPresence_Both
  end.

Definition try_presence : io ArtefactPresence :=
  _ ← call FailureCondition_OwnershipRecordUnreadable;
  _ ← call FailureCondition_OwnershipRecordUnreadable;
  reading (λ w, Ok (presence_of (meta_file w) (pgno_file w))).

(** [append_meta_record]; its two kinds of error map to one failure. *)
Definition append_meta_record (record : OwnershipRecord) : io unit :=
  _ ← reading (λ w, if meta_exists w then Ok tt else Err unreadable);
  _ ← call FailureCondition_OwnershipRecordUnreadable;
  frame_buf ← lift (meta_frame record);
  _ ← write_meta frame_buf;
  call FailureCondition_OwnershipRecordUnreadable.

(** The engine of a session that just took its lock or none. *)
Definition fresh_engine (w : World) (open : bool) (epoch : Z) (claim : option OwnershipClaimRecord)
    (adm : OpenAdmission) (meta : MetaRecords) (policy : FileExclusionPolicy) (lock : bool)
    (frames : Z) (truncation : option TornTailInfo) : FileEngine :=
  mk_FileEngine w open epoch claim adm meta policy lock frames 0 false None false false false
    None None truncation.

(** [Store::open_writer] on an engine over the current world. *)
Definition start_writer (e : World → FileEngine) : io (Store FileEngine) := λ w,
  match open_writer (e w) with
  | Ok st => (Ok st, world (engine st))
  | Err err => (Err err, w)
  | Panic => (Panic, w)
  end.

(** The header and its synchronisation, on a container just created, and the
    exclusion. *)
Definition seed_container (a : FileStorageAdapter) : io unit :=
  _ ← write_container (to_bytes ContainerHeader_new);
  _ ← call broken;
  reading (λ w, acquire_file_exclusion w (adapter_policy a)).

Definition create_with_limit (a : FileStorageAdapter) (initial_claim : OwnershipClaimRecord)
    (d : AdmittedDescriptor) (max_wire_len : Z) : io (Store FileEngine) :=
  presence ← try_presence;
  _ ← lift (admit_create presence);
  _ ← lift (compute_claim_wire_len_bounded (blen (operator_label initial_claim)) max_wire_len);
  _ ← create_meta;
  _ ← write_meta (to_bytes ContainerHeader_new);
  claim_bytes ← lift (OwnershipRecord_encode (OwnershipRecord_OwnershipClaim initial_claim) []);
  frame_buf ← lift (framed claim_bytes);
  _ ← write_meta frame_buf;
  desc_frame ← lift (framed (encoded_record d));
  _ ← write_meta desc_frame;
  _ ← call FailureCondition_OwnershipRecordUnreadable;
  _ ← create_pgno FailureCondition_NoArtefactExists;
  _ ← seed_container a;
  start_writer (λ w,
    fresh_engine w true (epoch initial_claim) (Some initial_claim) OpenAdmission_Ready
      (mk_MetaRecords (Some initial_claim) (Some (descriptor d)) None None None None None)
      (adapter_policy a) true 0 None).

Definition create (a : FileStorageAdapter) (initial_claim : OwnershipClaimRecord)
    (d : AdmittedDescriptor) : io (Store FileEngine) :=
  create_with_limit a initial_claim d u32_max.

Definition complete_creation (a : FileStorageAdapter) (c : OwnershipClaimRecord) :
    io (Store FileEngine) :=
  presence ← try_presence;
  _ ← lift match presence with
           | ArtefactPresence_OwnershipRecordOnly => Ok tt
           | ArtefactPresence_None => fail FailureCondition_NoArtefactExists
           | ArtefactPresence_EventDataOnly | ArtefactPresence_Both =>
               fail FailureCondition_StoreAlreadyExists
           end;
  meta ← reading read_meta;
  _ ← lift (require_descriptor meta);
  durable_claim ← lift (ok_or (latest_claim meta) unreadable);
  _ ← lift (if bool_decide (durable_claim ≠ c)
            then fail FailureCondition_OwnershipUnestablished else Ok tt);
  _ ← create_pgno FailureCondition_TransportUnavailable;
  _ ← seed_container a;
  start_writer (λ w,
    fresh_engine w true (epoch c) (Some c) OpenAdmission_Ready meta (adapter_policy a) true 0 None).

Definition check_open_write_presence (a : FileStorageAdapter) (carried : Z) :
    io (option (Store FileEngine)) :=
  presence ← try_presence;
  match presence with
  | ArtefactPresence_None => lift (fail FailureCondition_NoArtefactExists)
  | ArtefactPresence_EventDataOnly => lift (fail FailureCondition_OwnershipUnestablished)
  | ArtefactPresence_OwnershipRecordOnly =>
      meta ← reading read_meta;
      _ ← lift (if bool_decide (is_Some (outbound_pointer meta))
                then fail FailureCondition_RetiredMigrationSource else Ok tt);
      c ← lift (ok_or (latest_claim meta)
                  (OperationFailure_new FailureCondition_OwnershipUnestablished));
      _ ← lift (if negb (epoch c =? carried) then fail FailureCondition_StaleEpoch else Ok tt);
      st ← complete_creation a c;
      mret (Some st)
  | ArtefactPresence_Both => mret None
  end.

(** [reconcile_tail_state] on the handle, every call of which may fail. *)
Definition reconcile_pgno (scan : ContainerScan) : io (option TornTailInfo) :=
  match tail_state scan with
  | TailState_Clean => _ ← call broken; mret None
  | TailState_TornTail info =>
      _ ← (λ w, let '(ok, w) := truncate_pgno (torn_valid_len info) w in
                (if ok then Ok tt else fail FailureCondition_TransportUnavailable, w));
      _ ← call FailureCondition_TransportUnavailable;
      _ ← call broken;
      mret (Some info)
  end.

Definition open_write (a : FileStorageAdapter) (carried : Z) : io (Store FileEngine) :=
  completed ← check_open_write_presence a carried;
  match completed with
  | Some st => mret st
  | None =>
      _ ← call FailureCondition_NoArtefactExists;
      _ ← reading (λ w, acquire_file_exclusion w (adapter_policy a));
      meta ← reading read_meta;
      _ ← lift (if bool_decide (is_Some (outbound_pointer meta))
                then fail FailureCondition_RetiredMigrationSource else Ok tt);
      _ ← lift (require_descriptor meta);
      c ← lift (ok_or (latest_claim meta) unreadable);
      _ ← lift (if negb (epoch c =? carried) then fail FailureCondition_StaleEpoch else Ok tt);
      scan ← reading scan_pgno;
      truncation ← reconcile_pgno scan;
      start_writer (λ w,
        fresh_engine w true carried (Some c) OpenAdmission_Ready meta (adapter_policy a) true
          (blen (scan_frames scan)) truncation)
  end.

Definition open_read : io (Store FileEngine) :=
  presence ← try_presence;
  _ ← lift match presence with
           | ArtefactPresence_None => fail FailureCondition_NoArtefactExists
           | _ => Ok tt
           end;
  has_meta ← exists_io meta_exists;
  meta ← (if has_meta : bool then reading read_meta else mret MetaRecords_default);
  adm ← lift (admit_open presence (latest_claim meta) false);
  has_pgno ← exists_io pgno_exists;
  frames ←
    (if has_pgno : bool then
       _ ← call FailureCondition_NoArtefactExists;
       scan ← reading scan_pgno;
       _ ← lift match tail_state scan with
                | TailState_Clean => Ok tt
                | TailState_TornTail _ => fail broken
                end;
       _ ← call broken;
       mret (blen (scan_frames scan))
     else mret 0);
  reading (λ w,
    open_reader
      (fresh_engine w has_pgno (match latest_claim meta with Some c => epoch c | None => 0 end)
         (latest_claim meta) adm meta FileExclusionPolicy_Standard false frames None)).
End adapter.

(** ** Reasoning about calls *)

Definition holds (meta pgno : option bytes) (w : World) : Prop :=
  meta_file w = meta ∧ pgno_file w = pgno.

Lemma next_outcome_files w : holds (meta_file w) (pgno_file w) (next_outcome w).2.
Proof. by destruct w as [? ? ? ? ? []]. Qed.

Lemma syscall_files w : holds (meta_file w) (pgno_file w) (syscall w).2.
Proof. by destruct w as [? ? ? ? ? [|[] ?]]. Qed.

Lemma triple_call m p c : triple (holds m p) (call c) (λ _, holds m p) (holds m p).
Proof.
  intros w [<- <-]. unfold call. pose proof (syscall_files w). by destruct (syscall w) as [[] w'].
Qed.

Lemma triple_try_presence m p :
  triple (holds m p) try_presence (λ x w, holds m p w ∧ x = presence_of m p) (holds m p).
Proof.
  eapply triple_bind; [apply triple_call|done|]. intros [].
  eapply triple_bind; [apply triple_call|done|]. intros [].
  eapply triple_weaken; [apply (triple_reading (holds m p))|..]; try done.
  intros x w [[Hm Hp] [= <-]]. by rewrite Hm, Hp.
Qed.

Lemma triple_exists m p f b :
  (∀ w, holds m p w → f w = b) →
  triple (holds m p) (exists_io f) (λ x w, holds m p w ∧ (x = true → b = true)) (holds m p).
Proof.
  intros Hf w [<- <-]. unfold exists_io. pose proof (syscall_files w) as Hw.
  destruct (syscall w) as [ok w']. split; [done|]. rewrite (Hf w') by done. by destruct ok.
Qed.

Lemma triple_create_meta p :
  triple (holds None p) create_meta (λ _, holds (Some []) p) (holds None p).
Proof.
  intros w [Hm Hp]. unfold create_meta. rewrite Hm. pose proof (syscall_files w) as [Hm' Hp'].
  destruct (syscall w) as [[] w']; (split; [|by rewrite <-Hp, <-Hp'; destruct w']);
    [by destruct w'|by rewrite <-Hm, <-Hm'].
Qed.

Lemma triple_create_pgno m c :
  triple (holds m None) (create_pgno c) (λ _, holds m (Some [])) (holds m None).
Proof.
  intros w [Hm Hp]. unfold create_pgno. rewrite Hp. pose proof (syscall_files w) as [Hm' Hp'].
  destruct (syscall w) as [[] w']; (split; [by rewrite <-Hm, <-Hm'; destruct w'|]);
    [by destruct w'|by rewrite <-Hp, <-Hp'].
Qed.

Lemma triple_write_meta f data p :
  triple (holds (Some f) p) (write_meta data) (λ _, holds (Some (f ++ data)) p)
    (λ w, ∃ k, holds (Some (f ++ take k data)) p w).
Proof.
  intros w [Hm Hp]. unfold write_meta. rewrite Hm. cbn [default].
  pose proof (next_outcome_files w) as [Hm' Hp']. destruct (next_outcome w) as [o w'].
  cbn [snd] in *. rewrite Hm in Hm'. rewrite Hp in Hp'.
  destruct (isize_max <? _); [exists 0%nat; by rewrite take_0, app_nil_r|].
  destruct o as [|k]; [by destruct w'|]. exists (Z.to_nat k). by destruct w'.
Qed.

Lemma triple_write_container m f data :
  triple (holds m (Some f)) (write_container data) (λ _, holds m (Some (f ++ data)))
    (λ w, ∃ k, holds m (Some (f ++ take k data)) w).
Proof.
  intros w [Hm Hp]. unfold write_container, write_pgno, pgno_bytes. rewrite Hp. cbn [default].
  pose proof (next_outcome_files w) as [Hm' Hp']. destruct (next_outcome w) as [o w'].
  cbn [snd] in *. rewrite Hm in Hm'. rewrite Hp in Hp'.
  destruct (isize_max <? _); [exists 0%nat; by rewrite take_0, app_nil_r|].
  destruct o as [|k]; [by destruct w'|]. exists (Z.to_nat k). by destruct w'.
Qed.

(** ** Creation *)

Section creation.
Context `{Digests, !DigestLaws}.

(** The records of a fresh artefact, and its metadata file. *)
Definition creation_records (c : OwnershipClaimRecord) (d : SchemaDescriptor) :
    list OwnershipRecord :=
  [OwnershipRecord_OwnershipClaim c;
   OwnershipRecord_SchemaDescriptor (version d) (node_image levels0 (root d))].
Definition creation_meta c d : bytes := meta_image (creation_records c d).
Definition fresh_records c d : MetaRecords :=
  mk_MetaRecords (Some c) (Some d) None None None None None.

(** The parameters a caller passes: a claim in range whose record fits a frame,
    and an admitted descriptor. *)
Record creatable (c : OwnershipClaimRecord) (d : AdmittedDescriptor) : Prop := {
  cr_claim : OwnershipRecord_wf (OwnershipRecord_OwnershipClaim c);
  cr_length : 69 + blen (operator_label c) ≤ u32_max;
  cr_typed : descriptor_typed (descriptor d);
  cr_admitted : try_from_descriptor (descriptor d) = Ok d;
}.

Lemma blen_claim_image c :
  OwnershipRecord_wf (OwnershipRecord_OwnershipClaim c) →
  blen (record_image (OwnershipRecord_OwnershipClaim c)) = 69 + blen (operator_label c).
Proof.
  intros (_&Hm&Hb&_&_&_&Hl&_). unfold record_image. cbn. unfold expect_u32.
  rewrite u32_try_from_ok by done. simpl. unfold is_array in *. len.
Qed.

Lemma admitted_record d a :
  try_from_descriptor d = Ok a →
  encoded_record a = record_image (OwnershipRecord_SchemaDescriptor (version d) (node_image levels0 (root d))) ∧
  descriptor a = d ∧ blen (encoded_record a) ≤ 65536.
Proof.
  intros Ha. pose proof (try_from_descriptor_cases d) as Hc. rewrite Ha in Hc.
  destruct Hc as [(_&_&_&Hm) ->]. unfold MAX_DESCRIPTOR_RECORD_BYTES in Hm.
  split; [done|]. split; [done|]. unfold admitted_of. cbn [encoded_record]. rewrite blen_cons. lia.
Qed.

Lemma creation_records_wf c d :
  creatable c d → Forall meta_record_wf (creation_records c (descriptor d)).
Proof.
  intros [Hc Hl Ht Ha]. destruct (admitted_record _ _ Ha) as (He&_&Hm).
  constructor; [|constructor; [|constructor]]; (split; [done || apply Ht|]); unfold frame_wf.
  - by rewrite blen_claim_image.
  - rewrite <-He. unfold u32_max. lia.
Qed.

Lemma creation_meta_blen c d : creatable c d → blen (creation_meta c (descriptor d)) ≤ isize_max.
Proof.
  intros [Hc Hl Ht Ha]. destruct (admitted_record _ _ Ha) as (He&_&Hm).
  unfold creation_meta, meta_image, creation_records, container_image. cbn [fmap list_fmap].
  rewrite !frames_image_cons, !blen_app, blen_header, !blen_frame_image, blen_claim_image by done.
  rewrite <-He. change (blen (frames_image [])) with 0. unfold u32_max, isize_max in *. lia.
Qed.

(** The stored descriptor decodes to the one admitted, which is admitted again. *)
Lemma stored_descriptor d a :
  descriptor_typed d → try_from_descriptor d = Ok a →
  DescriptorNode_decode (node_image levels0 (root d)) =
    Ok (root d, blen (node_image levels0 (root d))).
Proof.
  intros Ht Ha. pose proof (try_from_descriptor_cases d) as Hc. rewrite Ha in Hc.
  destruct Hc as [(_&Hcn&He&Hm) _]. unfold MAX_DESCRIPTOR_RECORD_BYTES, descriptor_image in Hm.
  rewrite blen_app in Hm. unfold DescriptorNode_decode.
  pose proof (decode_recursive_complete levels0 (root d) []) as Hd. rewrite app_nil_r in Hd.
  assert (blen (u32_le (version d)) = 4) as Hv by len.
  apply Hd; [|unfold isize_max; lia].
  split; [apply Ht|]. split; [done|by apply complete_widths].
Qed.

Lemma creation_reads_back c d :
  creatable c d →
  read_meta_records (Some (creation_meta c (descriptor d))) = Ok (fresh_records c (descriptor d)).
Proof.
  intros Hc. pose proof (creation_records_wf c d Hc) as Hw.
  unfold creation_meta. rewrite read_meta_image by (done || by apply creation_meta_blen).
  destruct Hc as [_ _ Ht Ha]. cbn [absorb_records creation_records absorb_record MetaRecords_default].
  rewrite bind_of_Ok. cbn [absorb_record].
  rewrite (stored_descriptor _ _ Ht Ha), map_err_of_Ok, bind_of_Ok, Z.eqb_refl. cbn [negb].
  rewrite bind_of_Ok. unfold fresh_records. by destruct (descriptor d).
Qed.

(** ** Starting a session *)

Lemma open_writer_engine (e : FileEngine) st :
  open_writer e = Ok st → ∃ n, engine st = with_frame_count n e.
Proof.
  unfold open_writer. simpl. unfold file_recover_frames. destruct (file_open e); simpl.
  2: { intros [= <-]. exists (fe_frame_count e). by destruct e. }
  destruct (clean_frames (world e)) as [fs| |]; [|done..].
  destruct (feed _ _ _ _) as [[n| |] [rolling idx]]; [|done..]. intros [= <-].
  by exists (blen fs).
Qed.

(** What a session starts from: a live store over the frames of its engine. *)
Definition started (e : World → FileEngine) (st : Store FileEngine) (w : World) : Prop :=
  live st ∧ stored (engine st) = file_frames (e w) ∧ is_uncertain st = false ∧
  ∃ n, engine st = with_frame_count n (e w).

Lemma triple_start_writer P (e : World → FileEngine) :
  (∀ w, P w → file_wf (e w) ∧ world (e w) = w ∧ fe_uncertain (e w) = false) →
  triple P (start_writer e) (λ st w, P w ∧ world (engine st) = w ∧ started e st w) P.
Proof.
  intros He w Hw. destruct (He w Hw) as (Hwf&Hworld&Hu). unfold start_writer.
  pose proof (open_writer_not_panic (EngineLaws0:=FileEngine_laws) (e w) Hwf) as Hnp.
  destruct (open_writer (e w)) as [st|err|] eqn:Ho; [|done|done].
  destruct (open_writer_engine _ _ Ho) as [n Hn].
  assert (world (engine st) = w) as Hws by (rewrite Hn; by destruct (e w)). rewrite Hws.
  destruct (open_writer_live (EngineLaws0:=FileEngine_laws) (e w) st Hwf Ho) as (Hl&Hs&_&Hun&_).
  split; [done|]. split; [done|]. split; [done|]. split; [done|]. split; [|by exists n].
  unfold is_uncertain. rewrite Hun, Hn. simpl.
  assert (fe_diagnostic (with_frame_count n (e w)) = fe_diagnostic (e w)) as -> by by destruct (e w).
  by rewrite (fw_diagnostic _ Hwf), Hu.
Qed.

(** The engine of a session over a container in order. *)
Lemma fresh_engine_wf w epoch claim adm meta policy lock n truncation fs :
  container_at w fs [] → blen (default [] (meta_file w)) ≤ isize_max → 0 ≤ n ≤ blen fs →
  let e := fresh_engine w true epoch claim adm meta policy lock n truncation in
  file_wf e ∧ world e = w ∧ fe_uncertain e = false ∧ file_frames e = fs.
Proof.
  intros Hc Hm Hn e. assert (file_frames e = fs) as Hf by by apply (file_frames_at _ _ []).
  split; [|done]. split; [by intros _; exists fs, []|done|done|by rewrite Hf].
Qed.

(** ** Creating *)

(** The pair of files an interrupted creation leaves. *)
Definition creation_state c d (meta pgno : option bytes) : Prop :=
  (meta = None ∧ pgno = None) ∨
  (∃ f, meta = Some f ∧ f `prefix_of` creation_meta c d ∧ pgno = None) ∨
  (meta = Some (creation_meta c d) ∧
   ∃ h, pgno = Some h ∧ h `prefix_of` to_bytes ContainerHeader_new).

Definition in_creation c d (w : World) : Prop := creation_state c d (meta_file w) (pgno_file w).

Lemma creation_meta_split c d :
  creation_meta c d =
    to_bytes ContainerHeader_new ++
    frame_image (record_image (OwnershipRecord_OwnershipClaim c)) ++
    frame_image (record_image (OwnershipRecord_SchemaDescriptor (version d) (node_image levels0 (root d)))).
Proof.
  unfold creation_meta, meta_image, creation_records, container_image. cbn [fmap list_fmap].
  rewrite !frames_image_cons. change (frames_image []) with (@nil byte). by rewrite app_nil_r.
Qed.

Lemma in_creation_meta c d f g w :
  f ++ g `prefix_of` creation_meta c d → holds (Some f) None w ∨ (∃ k, holds (Some (f ++ take k g)) None w) →
  in_creation c d w.
Proof.
  intros Hp Hw. right; left.
  assert (∀ k, f ++ take k g `prefix_of` creation_meta c d) as Hpre.
  { intros k. etransitivity; [|exact Hp]. apply prefix_app. by exists (drop k g); rewrite take_drop. }
  destruct Hw as [[-> ->]|[k [-> ->]]].
  - exists f. split; [done|]. split; [|done]. specialize (Hpre 0%nat). by rewrite app_nil_r in Hpre.
  - exists (f ++ take k g). auto.
Qed.

Lemma framed_record r : meta_record_wf r → framed (record_image r) = Ok (frame_image (record_image r)).
Proof.
  intros [_ Hf]. unfold framed, encode_payload. rewrite try_encode_payload_cases.
  unfold frame_wf in Hf. by destruct (blen _ <=? u32_max) eqn:?; [|lia].
Qed.

Lemma acquire_not_panic w policy : acquire_file_exclusion w policy ≠ Panic.
Proof. destruct policy; try done. simpl. by destruct (lock_error w). Qed.

Lemma triple_seed_container a m :
  triple (holds m (Some [])) (seed_container a) (λ _, holds m (Some (to_bytes ContainerHeader_new)))
    (λ w, ∃ h, holds m (Some h) w ∧ h `prefix_of` to_bytes ContainerHeader_new).
Proof.
  eapply triple_bind; [apply triple_write_container| |].
  { intros w [k Hk]. eexists. split; [exact Hk|]. simpl. exists (drop k (to_bytes ContainerHeader_new)).
    by rewrite take_drop. }
  intros []. eapply triple_bind; [apply triple_call|by intros w Hw; eexists|]. intros [].
  eapply triple_weaken; [apply (triple_reading (holds m (Some (to_bytes ContainerHeader_new))))|..].
  - intros w _. apply acquire_not_panic.
  - done.
  - by intros _ w [? _].
  - intros w Hw. by eexists.
Qed.

Lemma header_container w : pgno_file w = Some (to_bytes ContainerHeader_new) → container_at w [] [].
Proof.
  intros Hp. unfold container_at, pgno_bytes. rewrite Hp. split; [done|]. split; [done|].
  split; [by left|]. by (apply (bool_decide_unpack _); vm_compute).
Qed.

(** The engine of a fresh artefact starts, whatever its metadata. *)
Lemma triple_start_fresh m epoch claim meta policy :
  blen m ≤ isize_max →
  triple (holds (Some m) (Some (to_bytes ContainerHeader_new)))
    (start_writer (λ w, fresh_engine w true epoch claim OpenAdmission_Ready meta policy true 0 None))
    (λ st w, holds (Some m) (Some (to_bytes ContainerHeader_new)) w ∧ world (engine st) = w ∧
       live st ∧ stored (engine st) = [] ∧ is_uncertain st = false ∧
       carried_epoch (engine st) = epoch)
    (holds (Some m) (Some (to_bytes ContainerHeader_new))).
Proof.
  intros Hb. eapply triple_weaken.
  { apply (triple_start_writer (holds (Some m) (Some (to_bytes ContainerHeader_new)))).
    intros w [Hm Hp]. pose proof (header_container w Hp) as Hc.
    destruct (fresh_engine_wf w epoch claim OpenAdmission_Ready meta policy true 0 None [] Hc)
      as (?&?&?&_); [by rewrite Hm|done|]. split; [done|by split]. }
  - intros w Hw. exact Hw.
  - intros st w (Hw&Hwo&Hl&Hs&Hu&n&Hn). split; [done|]. split; [done|]. split; [done|].
    split; [|split; [done|by rewrite Hn]]. rewrite Hs.
    apply (file_frames_at _ _ []); [done|]. by apply header_container, Hw.
  - intros w Hw. exact Hw.
Qed.

Lemma triple_create a c d max_wire_len :
  creatable c d → max_wire_len ≤ u32_max →
  triple (holds None None) (create_with_limit a c d max_wire_len)
    (λ st w, holds (Some (creation_meta c (descriptor d))) (Some (to_bytes ContainerHeader_new)) w ∧
       world (engine st) = w ∧ live st ∧ stored (engine st) = [] ∧ is_uncertain st = false ∧
       carried_epoch (engine st) = epoch c)
    (in_creation c (descriptor d)).
Proof.
  intros Hc Hmax. pose proof (creation_meta_split c (descriptor d)) as Hsplit.
  pose proof (creation_records_wf c d Hc) as Hrw.
  pose proof (Forall_inv Hrw) as Hclaim. pose proof (Forall_inv (Forall_inv_tail Hrw)) as Hdesc.
  destruct (admitted_record _ _ (cr_admitted _ _ Hc)) as (He&_&_).
  assert (∀ w, holds None None w → in_creation c (descriptor d) w) as Hnone by (intros w [? ?]; by left).
  eapply triple_bind; [apply triple_try_presence|done|]. intros presence.
  apply triple_lift_bind; [by destruct presence|by intros w [? _]; apply Hnone|]. intros [] _.
  apply triple_lift_bind.
  { unfold compute_claim_wire_len_bounded. no_panic. }
  { by intros w [? _]; apply Hnone. }
  intros l _. eapply triple_bind.
  { eapply triple_weaken; [apply triple_create_meta|..]; [by intros w [? _]|done|exact Hnone]. }
  { done. }
  intros []. eapply triple_bind; [apply triple_write_meta| |].
  { intros w Hw. eapply in_creation_meta; [|right; exact Hw]. rewrite Hsplit. by eexists. }
  intros []. apply triple_lift_bind.
  { by rewrite OwnershipRecord_encode_spec by apply Hc. }
  { intros w Hw. eapply (in_creation_meta _ _ _ []); [|left; exact Hw]. rewrite Hsplit, app_nil_r.
    by eexists. }
  intros cb. rewrite OwnershipRecord_encode_spec by apply Hc. intros [= <-].
  simpl app. rewrite framed_record by done.
  apply triple_lift_bind; [done| |].
  { intros w Hw. eapply (in_creation_meta _ _ _ []); [|left; exact Hw]. rewrite Hsplit, app_nil_r.
    by eexists. }
  intros fb [= <-]. eapply triple_bind; [apply triple_write_meta| |].
  { intros w Hw. eapply in_creation_meta; [|right; exact Hw]. rewrite Hsplit.
    apply prefix_app. by eexists. }
  intros []. rewrite He, framed_record by done. apply triple_lift_bind; [done| |].
  { intros w Hw. eapply (in_creation_meta _ _ _ []); [|left; exact Hw].
    rewrite Hsplit, app_nil_r. apply prefix_app. by eexists. }
  intros fb [= <-]. eapply triple_bind; [apply triple_write_meta| |].
  { intros w Hw. eapply in_creation_meta; [|right; exact Hw]. by rewrite Hsplit, <-!app_assoc. }
  intros []. rewrite <-app_assoc, <-Hsplit.
  assert (∀ w, holds (Some (creation_meta c (descriptor d))) None w → in_creation c (descriptor d) w)
    as Hfull by (intros w [? ?]; right; left; by eexists).
  eapply triple_bind; [apply triple_call|exact Hfull|]. intros [].
  eapply triple_bind; [apply triple_create_pgno|exact Hfull|]. intros [].
  eapply triple_bind; [apply triple_seed_container| |].
  { intros w (h&[? ?]&?). right; right. split; [done|by exists h]. }
  intros []. eapply triple_weaken; [apply triple_start_fresh|..].
  - apply creation_meta_blen, Hc.
  - intros w Hw. exact Hw.
  - done.
  - intros w [? ?]. right; right. split; [done|]. by eexists.
Qed.
End creation.

(** ** Opening *)

Section opening.
Context `{Digests, !DigestLaws}.
Implicit Types (w : World) (fs : list bytes).

Lemma triple_reconcile meta fs t scan :
  tail_state scan = tail_of (blen (container_image fs)) t →
  triple (holds meta (Some (container_image fs ++ t))) (reconcile_pgno scan)
    (λ _, holds meta (Some (container_image fs)))
    (λ w, holds meta (Some (container_image fs ++ t)) w ∨ holds meta (Some (container_image fs)) w).
Proof.
  intros Ht. unfold reconcile_pgno. rewrite Ht. unfold tail_of.
  destruct t as [|b t]; simpl is_empty; cbv iota.
  - rewrite app_nil_r. eapply triple_bind; [apply triple_call|by left|]. intros [].
    by apply triple_ret.
  - cbn [torn_valid_len]. eapply (triple_bind _ _ _ (λ _, holds meta (Some (container_image fs)))
      _ (holds meta (Some (container_image fs ++ b :: t)))); [|by left|].
    { intros w [<- Hp]. unfold truncate_pgno, pgno_bytes. rewrite Hp. cbn [default].
      pose proof (next_outcome_files w) as [Hm' Hp']. rewrite Hp in Hp'.
      destruct (next_outcome w) as [[|k] w']; cbn [snd] in *; [|by split].
      unfold blen. rewrite Nat2Z.id. cbn [id].
      rewrite take_app_length. by destruct w'. }
    intros []. eapply triple_bind; [apply triple_call|by right|]. intros [].
    eapply triple_bind; [apply triple_call|by right|]. intros []. by apply triple_ret.
Qed.

Lemma read_meta_Ok w rs m meta :
  meta_file w = Some (meta_image rs) → Forall meta_record_wf rs →
  blen (meta_image rs) ≤ isize_max → absorb_records MetaRecords_default rs = Ok m →
  read_meta w = Ok meta → meta = m.
Proof.
  intros Hm Hw Hb Ha. unfold read_meta. rewrite Hm, read_meta_image, Ha by done.
  destruct (meta_readable w); [|done]. by intros [= <-].
Qed.

Lemma scan_pgno_Ok w fs t scan :
  container_at w fs t → scan_pgno w = Ok scan →
  scan_frames scan = fs ∧ tail_state scan = tail_of (blen (container_image fs)) t.
Proof.
  intros Hc. unfold scan_pgno. destruct (pgno_read_error w); [done|].
  rewrite (scan_container_at _ _ _ Hc). by intros [= <-].
Qed.

Lemma scan_pgno_not_panic w fs t : container_at w fs t → scan_pgno w ≠ Panic.
Proof.
  intros Hc. unfold scan_pgno. destruct (pgno_read_error w); [done|].
  by rewrite (scan_container_at _ _ _ Hc).
Qed.

Lemma holds_container meta fs t w w' :
  container_at w fs t → pgno_file w = pgno_file w' → holds meta (pgno_file w) w' →
  container_at w' fs t.
Proof. intros Hc _ [_ Hp]. apply (container_at_same w); [done|]. unfold pgno_bytes. by rewrite Hp. Qed.

Lemma triple_check_both a carried meta pgno :
  triple (holds (Some meta) (Some pgno)) (check_open_write_presence a carried)
    (λ x w, holds (Some meta) (Some pgno) w ∧ x = None) (holds (Some meta) (Some pgno)).
Proof.
  eapply triple_bind; [apply triple_try_presence|done|]. intros presence w [Hw ->].
  unfold presence_of, mret, eff_ret. by split.
Qed.

(** The metadata lets a writer of this epoch in. *)
Definition writable (m : MetaRecords) (carried : Z) : Prop :=
  outbound_pointer m = None ∧
  (∃ d, schema_descriptor m = Some d ∧ is_ok (try_from_descriptor d)) ∧
  ∃ c, latest_claim m = Some c ∧ epoch c = carried.

Lemma require_descriptor_Ok m u :
  require_descriptor m = Ok u → ∃ d, schema_descriptor m = Some d ∧ is_ok (try_from_descriptor d).
Proof.
  unfold require_descriptor. destruct (schema_descriptor m) as [d|]; [|done]. simpl.
  exists d. split; [done|]. by destruct (try_from_descriptor d).
Qed.

(** A pair of files in order but for the torn frame an interrupted write left. *)
Record sound_files (rs : list OwnershipRecord) (m : MetaRecords) fs (t : bytes) : Prop := {
  so_records : Forall meta_record_wf rs;
  so_meta_blen : blen (meta_image rs) ≤ isize_max;
  so_absorbed : absorb_records MetaRecords_default rs = Ok m;
  so_frames : Forall frame_wf fs;
  so_tail : t = [] ∨ torn t;
  so_blen : blen (container_image fs ++ t) ≤ isize_max;
}.
Definition image_files rs fs t : World → Prop :=
  holds (Some (meta_image rs)) (Some (container_image fs ++ t)).

Lemma image_container rs m fs t w :
  sound_files rs m fs t → image_files rs fs t w → container_at w fs t.
Proof. intros Hs [_ Hp]. split; [by unfold pgno_bytes; rewrite Hp|]. by split; [apply Hs|split; apply Hs]. Qed.

(** What opening a writer leaves: the session and the files it is on. *)
Definition reopened rs m fs carried (st : Store FileEngine) w : Prop :=
  image_files rs fs [] w ∧ world (engine st) = w ∧ live st ∧ stored (engine st) = fs ∧
  is_uncertain st = false ∧ carried_epoch (engine st) = carried ∧ writable m carried.

Lemma start_reopened rs m fs t carried claim meta policy truncation :
  sound_files rs m fs t →
  triple (image_files rs fs [])
    (start_writer (λ w, fresh_engine w true carried claim OpenAdmission_Ready meta policy true
       (blen fs) truncation))
    (λ st w, image_files rs fs [] w ∧ world (engine st) = w ∧ live st ∧ stored (engine st) = fs ∧
       is_uncertain st = false ∧ carried_epoch (engine st) = carried)
    (image_files rs fs []).
Proof.
  intros Hs.
  assert (∀ w, image_files rs fs [] w → container_at w fs []) as Hc.
  { intros w [_ Hp]. split; [by unfold pgno_bytes; rewrite Hp|]. split; [apply Hs|].
    split; [by left|]. pose proof (so_blen _ _ _ _ Hs) as Hb. rewrite blen_app in Hb.
    rewrite app_nil_r. pose proof (blen_nonneg t). lia. }
  eapply triple_weaken.
  { apply (triple_start_writer (image_files rs fs [])). intros w Hw.
    destruct (fresh_engine_wf w carried claim OpenAdmission_Ready meta policy true (blen fs)
                truncation fs (Hc w Hw)) as (?&?&?&_); [|pose proof (blen_nonneg fs); lia|done].
    destruct Hw as [Hm _]. rewrite Hm. apply Hs. }
  - done.
  - intros st w (Hw&Hwo&Hl&Hst&Hu&n&Hn). split; [done|]. split; [done|]. split; [done|].
    split; [|split; [done|by rewrite Hn]]. rewrite Hst.
    apply (file_frames_at _ _ []); [done|by apply Hc].
  - done.
Qed.

Lemma triple_open_write a carried rs m fs t :
  sound_files rs m fs t →
  triple (image_files rs fs t) (open_write a carried) (reopened rs m fs carried)
    (λ w, image_files rs fs t w ∨ image_files rs fs [] w).
Proof.
  intros Hs. assert (∀ w, image_files rs fs t w → read_meta w ≠ Panic) as Hnp.
  { intros w [Hm _]. apply read_meta_not_panic. rewrite Hm. apply Hs. }
  eapply triple_bind; [apply triple_check_both|by left|]. intros completed.
  eapply (triple_fact _ (completed = None)); [by intros w [_ ?]|]. intros ->.
  eapply (triple_pre (image_files rs fs t)); [by intros w [? _]|].
  eapply triple_bind; [apply triple_call|by left|]. intros [].
  apply triple_reading_bind; [intros w _; apply acquire_not_panic|by left|]. intros [].
  eapply (triple_pre (image_files rs fs t)); [by intros w [? _]|].
  apply triple_reading_bind; [exact Hnp|by left|]. intros meta.
  eapply (triple_fact _ (meta = m)).
  { intros w [[Hm _] Hr]. by apply (read_meta_Ok w rs m meta Hm); try apply Hs. }
  intros ->. eapply (triple_pre (image_files rs fs t)); [by intros w [? _]|].
  apply triple_lift_bind; [by case_bool_decide|by left|]. intros [] Hout.
  apply triple_lift_bind; [apply require_descriptor_not_panic|by left|].
  intros [] Hdesc%require_descriptor_Ok.
  apply triple_lift_bind; [by destruct (latest_claim m)|by left|]. intros c Hclaim.
  apply triple_lift_bind; [by destruct (negb _)|by left|]. intros [] Hepoch.
  apply triple_reading_bind.
  { intros w Hw. eapply scan_pgno_not_panic, (image_container rs m fs t w Hs Hw). }
  { by left. }
  intros scan. eapply (triple_fact _ (scan_frames scan = fs ∧
    tail_state scan = tail_of (blen (container_image fs)) t)).
  { intros w [Hw Hr]. by apply (scan_pgno_Ok w); [apply (image_container rs m)|]. }
  intros [Hfs Htail]. eapply (triple_pre (image_files rs fs t)); [by intros w [? _]|].
  eapply triple_bind; [by apply triple_reconcile| |].
  { intros w [?|?]; [by left|right]. unfold image_files. by rewrite app_nil_r. }
  intros truncation. rewrite Hfs.
  assert (writable m carried) as Hwr.
  { split.
    { revert Hout. case_bool_decide as Ho; [done|intros _].
      destruct (outbound_pointer m); [by destruct Ho|done]. }
    split; [done|]. exists c. destruct (latest_claim m); [|done]. injection Hclaim as ->.
    split; [done|]. by destruct (epoch c =? carried) eqn:?; [lia|]. }
  eapply (triple_pre (image_files rs fs [])).
  { intros w Hw. unfold image_files. by rewrite app_nil_r. }
  eapply triple_weaken; [exact (start_reopened rs m fs t _ _ _ _ _ Hs)|intros w Hw; exact Hw| |by right].
  intros st w (?&?&?&?&?&?). done.
Qed.
End opening.
(** ** When no call fails *)

Section calm.
Context `{Digests, !DigestLaws}.
Implicit Types (w : World) (fs : list bytes).

(** Every call succeeds, and nobody else holds the lock. *)
Definition calm w : Prop :=
  script w = [] ∧ meta_readable w = true ∧ pgno_read_error w = None ∧ lock_error w = None.

Lemma call_run {B} c (f : unit → io B) w : calm w → (call c ≫= f) w = f tt w.
Proof.
  intros [Hs _]. apply bind_run. unfold call, syscall, next_outcome. by rewrite Hs.
Qed.

Lemma presence_run {B} (f : ArtefactPresence → io B) w :
  calm w → (try_presence ≫= f) w = f (presence_of (meta_file w) (pgno_file w)) w.
Proof. intros Hc. apply bind_run. unfold try_presence. by rewrite !call_run. Qed.

Lemma acquire_run {B} a (f : unit → io B) w :
  calm w → adapter_policy a = FileExclusionPolicy_Standard →
  (reading (λ w, acquire_file_exclusion w (adapter_policy a)) ≫= f) w = f tt w.
Proof. intros (_&_&_&Hl) Hp. apply reading_run. by rewrite Hp; simpl; rewrite Hl. Qed.

Lemma calm_with_pgno w file : calm w → calm (with_pgno file w).
Proof. by destruct w. Qed.

Lemma create_pgno_run {B} c (f : unit → io B) w :
  calm w → pgno_file w = None → (create_pgno c ≫= f) w = f tt (with_pgno (Some []) w).
Proof.
  intros [Hs _] Hp. apply bind_run. unfold create_pgno, syscall, next_outcome. by rewrite Hp, Hs.
Qed.

Lemma seed_run {B} a (f : unit → io B) w :
  calm w → adapter_policy a = FileExclusionPolicy_Standard → pgno_file w = Some [] →
  (seed_container a ≫= f) w = f tt (with_pgno (Some (to_bytes ContainerHeader_new)) w).
Proof.
  intros Hc Hp Hf. apply bind_run. unfold seed_container.
  assert (write_container (to_bytes ContainerHeader_new) w =
    (Ok tt, with_pgno (Some (to_bytes ContainerHeader_new)) w)) as Hw.
  { unfold write_container, write_pgno, pgno_bytes, next_outcome. destruct Hc as [-> _].
    by rewrite Hf. }
  rewrite (bind_run _ _ _ _ _ Hw), call_run by by apply calm_with_pgno.
  unfold reading. rewrite Hp. simpl. by destruct w, Hc as (_&_&_&->).
Qed.

(** A session starts when its frames form an index. *)
Lemma start_writer_run (e : World → FileEngine) fs idx w :
  file_wf (e w) → world (e w) = w → file_open (e w) = true → container_at w fs [] →
  pgno_read_error w = None → build_from_frames fs = Ok idx →
  ∃ st, start_writer e w = (Ok st, w).
Proof.
  intros Hwf Hwo Ho Hc Hr Hi.
  assert (recovers (e w)) as Hrec.
  { apply (clean_recovers _ fs); [done|by rewrite Hwo|by rewrite Hwo]. }
  assert (stored (e w) = fs) as Hs by (apply (file_frames_at _ _ []); by rewrite ?Hwo).
  destruct (open_writer_recovers (AppendLaws0:=FileEngine_append_laws) (e w) idx Hwf Hrec) as (st&Hst&_);
    [by rewrite Hs|].
  exists st. unfold start_writer. rewrite Hst. destruct (open_writer_engine _ _ Hst) as [n ->].
  assert (world (with_frame_count n (e w)) = world (e w)) as -> by by destruct (e w).
  by rewrite Hwo.
Qed.

Lemma require_descriptor_run m :
  (∃ d, schema_descriptor m = Some d ∧ is_ok (try_from_descriptor d)) →
  require_descriptor m = Ok tt.
Proof.
  intros (d&Hd&Hok). unfold require_descriptor. rewrite Hd. simpl.
  by destruct (try_from_descriptor d).
Qed.

Lemma read_meta_run w rs m :
  calm w → meta_file w = Some (meta_image rs) → Forall meta_record_wf rs →
  blen (meta_image rs) ≤ isize_max → absorb_records MetaRecords_default rs = Ok m →
  read_meta w = Ok m.
Proof.
  intros (_&Hr&_) Hm Hw Hb Ha. unfold read_meta. by rewrite Hm, Hr, read_meta_image.
Qed.

Lemma reconcile_run {B} scan (f : option TornTailInfo → io B) w fs t :
  calm w → pgno_file w = Some (container_image fs ++ t) →
  tail_state scan = tail_of (blen (container_image fs)) t →
  ∃ x w', (reconcile_pgno scan ≫= f) w = f x w' ∧ calm w' ∧ meta_file w' = meta_file w ∧
    pgno_file w' = Some (container_image fs).
Proof.
  intros Hc Hp Ht. unfold reconcile_pgno. rewrite Ht. unfold tail_of.
  destruct t as [|b t]; simpl is_empty; cbv iota.
  - rewrite app_nil_r in Hp. exists None, w. split; [|done].
    apply bind_run. by rewrite call_run.
  - eexists _, (with_pgno (Some (container_image fs)) w).
    split; [|split; [by apply calm_with_pgno|by destruct w]].
    apply bind_run. erewrite bind_run.
    + rewrite !call_run by by apply calm_with_pgno. done.
    + destruct Hc as [Hs _]. unfold truncate_pgno, next_outcome, pgno_bytes. rewrite Hs, Hp.
      change (default [] (Some (container_image fs ++ b :: t))) with (container_image fs ++ b :: t).
      cbn [torn_valid_len]. unfold blen. by rewrite Nat2Z.id, take_app_length.
Qed.

(** Opening a writer on sound files succeeds if the metadata lets it in and the
    whole frames form an index. *)
Lemma open_write_run a carried rs m fs t w idx :
  sound_files rs m fs t → image_files rs fs t w → calm w →
  adapter_policy a = FileExclusionPolicy_Standard → writable m carried →
  build_from_frames fs = Ok idx → ∃ st w', open_write a carried w = (Ok st, w').
Proof.
  intros Hs [Hm Hp] Hc Hpol (Hout&Hdesc&c&Hclaim&Hepoch) Hidx.
  assert (container_at w fs t) as Hat by by apply (image_container rs m).
  unfold open_write. rewrite (bind_run _ _ w None w).
  2: { unfold check_open_write_presence. by rewrite presence_run, Hm, Hp. }
  rewrite call_run, acquire_run by done.
  rewrite (reading_run _ _ _ m) by (apply (read_meta_run w rs); try done; apply Hs).
  rewrite (lift_run _ _ _ tt) by (by rewrite Hout).
  rewrite (lift_run _ _ _ tt) by by apply require_descriptor_run.
  rewrite (lift_run _ _ _ c) by (by rewrite Hclaim).
  rewrite (lift_run _ _ _ tt) by (by rewrite Hepoch, Z.eqb_refl).
  erewrite reading_run.
  2: { unfold scan_pgno. destruct Hc as (_&_&->&_). by apply scan_container_at. }
  match goal with |- context [(reconcile_pgno ?s ≫= ?f) w] =>
    destruct (reconcile_run s f w fs t) as (x&w'&->&Hc'&Hm'&Hp'); [done|exact Hp|done|]
  end.
  cbn [scan_frames].
  assert (container_at w' fs []) as Hat'.
  { destruct Hat as (_&Hf&_&Hb). rewrite blen_app in Hb. pose proof (blen_nonneg t).
    split; [by unfold pgno_bytes; rewrite Hp', app_nil_r|]. split; [done|]. split; [by left|].
    rewrite app_nil_r. lia. }
  destruct (fresh_engine_wf w' carried (Some c) OpenAdmission_Ready m (adapter_policy a) true
              (blen fs) x fs Hat') as (Hwf&Hwo&_&_).
  { rewrite Hm', Hm. apply Hs. }
  { pose proof (blen_nonneg fs). lia. }
  destruct (start_writer_run (λ w, fresh_engine w true carried (Some c) OpenAdmission_Ready m
    (adapter_policy a) true (blen fs) x) fs idx w') as [st Hst]; try done; [by apply Hc'|].
  by exists st, w'.
Qed.
End calm.
(** ** Interrupted creations *)

Section interrupted.
Context `{Digests, !DigestLaws}.

Lemma fresh_writable c d :
  creatable c d → writable (fresh_records c (descriptor d)) (epoch c).
Proof.
  intros Hc. split; [done|]. split; [|by exists c]. exists (descriptor d). split; [done|].
  by rewrite (cr_admitted _ _ Hc).
Qed.

(** Completing a creation whose record is whole. *)
Lemma complete_run a c d w :
  creatable c d → calm w → adapter_policy a = FileExclusionPolicy_Standard →
  holds (Some (creation_meta c (descriptor d))) None w →
  let w' := with_pgno (Some (to_bytes ContainerHeader_new)) w in
  ∃ st, complete_creation a c w = (Ok st, w') ∧ live st ∧ stored (engine st) = [] ∧
    is_uncertain st = false ∧ carried_epoch (engine st) = epoch c.
Proof.
  intros Hc Hcalm Hpol [Hm Hp] w'. unfold complete_creation.
  rewrite presence_run by done. rewrite Hm, Hp. cbn [presence_of].
  rewrite (lift_run _ _ _ tt) by done.
  rewrite (reading_run _ _ _ (fresh_records c (descriptor d))).
  2: { unfold read_meta. destruct Hcalm as (_&->&_). rewrite Hm. by apply creation_reads_back. }
  rewrite (lift_run _ _ _ tt) by (apply require_descriptor_run, (fresh_writable c d Hc)).
  rewrite (lift_run _ _ _ c) by done.
  rewrite (lift_run _ _ _ tt) by (by rewrite bool_decide_eq_false_2 by tauto).
  rewrite create_pgno_run by done.
  rewrite seed_run by (by apply calm_with_pgno || by destruct w).
  replace (with_pgno _ (with_pgno (Some []) w)) with w' by by destruct w.
  assert (holds (Some (creation_meta c (descriptor d))) (Some (to_bytes ContainerHeader_new)) w') as Hw'
    by (by destruct w).
  pose proof (creation_meta_blen c d Hc) as Hb.
  pose proof (header_container w' (proj2 Hw')) as Hat.
  set (e := λ w, fresh_engine w true (epoch c) (Some c) OpenAdmission_Ready
    (fresh_records c (descriptor d)) (adapter_policy a) true 0 None).
  destruct (fresh_engine_wf w' (epoch c) (Some c) OpenAdmission_Ready
    (fresh_records c (descriptor d)) (adapter_policy a) true 0 None [] Hat) as (Hwf&Hwo&_&_);
    [by rewrite (proj1 Hw')|done|].
  destruct (start_writer_run e [] SessionIndex_new w') as [st Hst]; try done.
  { destruct Hcalm as (_&_&?&_). by destruct w. }
  exists st. split; [done|].
  pose proof (triple_start_fresh _ (epoch c) (Some c) (fresh_records c (descriptor d))
    (adapter_policy a) Hb w' Hw') as Hfacts. fold e in Hfacts. rewrite Hst in Hfacts. tauto.
Qed.

(** A record cut short names no descriptor. *)
Lemma cut_creation_meta c d f meta w :
  creatable c d → f `prefix_of` creation_meta c (descriptor d) → f ≠ creation_meta c (descriptor d) →
  meta_file w = Some f → read_meta w = Ok meta → schema_descriptor meta = None.
Proof.
  intros Hc Hpre Hne Hm. unfold read_meta. rewrite Hm. destruct (meta_readable w); [|done].
  pose proof (creation_meta_blen c d Hc) as Hb. pose proof (creation_records_wf c d Hc) as Hrw.
  set (full := creation_meta c (descriptor d)) in *. destruct Hpre as [g Hg].
  assert (f = take (Z.to_nat (blen f)) full) as Hf
    by (rewrite Hg; unfold blen; by rewrite Nat2Z.id, take_app_length).
  assert (blen f < blen full) as Hlt.
  { rewrite Hg, blen_app. destruct g; [by rewrite Hg, app_nil_r in Hne|].
    rewrite blen_cons. pose proof (blen_nonneg g). lia. }
  destruct (decide (blen f < 12)) as [Hs|Hs].
  { unfold read_meta_records, read_container_frames.
    by destruct (blen f <? 12) eqn:?; [|lia]. }
  assert (Forall frame_wf (record_image <$> creation_records c (descriptor d))) as Hfw
    by (apply Forall_fmap; eapply Forall_impl; [exact Hrw|by intros r []]).
  destruct (cut_container (record_image <$> creation_records c (descriptor d)) (blen f) Hfw)
    as (j&t&Hcut&Ht&Hj&Hle&_); [change (12 ≤ blen f ≤ blen full); lia|].
  change (take (Z.to_nat (blen f)) full = container_image (take j (record_image <$>
    creation_records c (descriptor d))) ++ t) in Hcut.
  rewrite <-Hf, <-fmap_take in Hcut. rewrite <-fmap_take in Hle.
  change (f = meta_image (take j (creation_records c (descriptor d))) ++ t) in Hcut.
  assert (Forall meta_record_wf (take j (creation_records c (descriptor d)))) as Hjw
    by by apply Forall_take.
  destruct Ht as [->|Ht].
  - rewrite app_nil_r in Hcut. rewrite Hcut, (read_meta_image _ Hjw); [|unfold meta_image; lia].
    destruct j as [|[|j]]; [by intros [= <-]|by intros [= <-]|]. exfalso.
    rewrite take_ge in Hle by (simpl; lia).
    change (blen full ≤ blen f) in Hle. lia.
  - rewrite Hcut. unfold read_meta_records, meta_image.
    rewrite read_container_image; [| |by right|fold (meta_image (take j
      (creation_records c (descriptor d)))); rewrite <-Hcut; lia].
    + unfold tail_of. destruct t; [by destruct Ht|done].
    + apply Forall_fmap. eapply Forall_impl; [exact Hjw|by intros r []].
Qed.

(** An operation that fails on a pair of files, and leaves them. *)
Definition refuses {A} (meta pgno : option bytes) (op : io A) : Prop :=
  triple (holds meta pgno) op (λ _ _, False) (holds meta pgno).

Lemma refuses_elim {A} meta pgno (op : io A) w :
  refuses meta pgno op → holds meta pgno w → ∃ err w', op w = (Err err, w') ∧ holds meta pgno w'.
Proof.
  intros Hop Hw. specialize (Hop w Hw). destruct (op w) as [[|err|] w']; [done| |done].
  by exists err, w'.
Qed.

Lemma create_refused a c d max_wire_len m p :
  refuses (Some m) p (create_with_limit a c d max_wire_len).
Proof.
  eapply triple_bind; [apply triple_try_presence|done|]. intros presence.
  eapply (triple_fact _ (presence = presence_of (Some m) p)); [by intros w [_ ?]|]. intros ->.
  apply triple_lift_bind; [by destruct p|by intros w [? _]|]. intros []. by destruct p.
Qed.

Lemma complete_refused_present a c m h : refuses (Some m) (Some h) (complete_creation a c).
Proof.
  eapply triple_bind; [apply triple_try_presence|done|]. intros presence.
  eapply (triple_fact _ (presence = ArtefactPresence_Both)); [by intros w [_ ?]|]. intros ->.
  by apply triple_lift_bind; [|intros w [? _]|].
Qed.

Section cut_record.
Context (c : OwnershipClaimRecord) (d : AdmittedDescriptor) (f : bytes) (Hc : creatable c d)
  (Hf : f `prefix_of` creation_meta c (descriptor d)) (Hne : f ≠ creation_meta c (descriptor d)).

Lemma cut_read_not_panic w : holds (Some f) None w → read_meta w ≠ Panic.
Proof.
  intros [Hm _]. apply read_meta_not_panic. rewrite Hm. pose proof (creation_meta_blen c d Hc) as Hb.
  destruct Hf as [g Hg]. rewrite Hg, blen_app in Hb. pose proof (blen_nonneg g). simpl. lia.
Qed.

Lemma complete_refused_cut a c' : refuses (Some f) None (complete_creation a c').
Proof.
  eapply triple_bind; [apply triple_try_presence|done|]. intros presence.
  apply triple_lift_bind; [by destruct presence|by intros w [? _]|]. intros [] _.
  eapply (triple_pre (holds (Some f) None)); [by intros w [? _]|].
  apply triple_reading_bind; [exact cut_read_not_panic|done|]. intros meta.
  eapply (triple_fact _ (schema_descriptor meta = None)).
  { intros w [[Hm _] Hr]. by apply (cut_creation_meta c d f meta w). }
  intros Hnone. unfold require_descriptor. rewrite Hnone.
  by apply triple_lift_bind; [|intros w [? _]|].
Qed.

Lemma open_write_refused_cut a carried : refuses (Some f) None (open_write a carried).
Proof.
  eapply (triple_bind _ _ _ (λ _ _, False)); [|done|by intros x w].
  eapply triple_bind; [apply triple_try_presence|done|]. intros presence.
  eapply (triple_fact _ (presence = ArtefactPresence_OwnershipRecordOnly)); [by intros w [_ ?]|].
  intros ->. eapply (triple_pre (holds (Some f) None)); [by intros w [? _]|].
  apply triple_reading_bind; [exact cut_read_not_panic|done|]. intros meta.
  eapply (triple_pre (holds (Some f) None)); [by intros w [? _]|].
  apply triple_lift_bind; [by case_bool_decide|done|]. intros [] _.
  apply triple_lift_bind; [by destruct (latest_claim meta)|done|]. intros c' _.
  apply triple_lift_bind; [by destruct (negb _)|done|]. intros [] _.
  eapply triple_bind; [apply complete_refused_cut|done|by intros x w].
Qed.
End cut_record.

Lemma open_write_refused_short a carried m h :
  blen m ≤ isize_max → blen h < 12 → refuses (Some m) (Some h) (open_write a carried).
Proof.
  intros Hb Hh. assert (∀ w, holds (Some m) (Some h) w → scan_pgno w ≠ Panic ∧
    ∀ scan, scan_pgno w ≠ Ok scan) as Hscan.
  { intros w [_ Hp]. unfold scan_pgno, read_container_frames, pgno_bytes. rewrite Hp.
    change (default [] (Some h)) with h.
    destruct (pgno_read_error w); [done|]. by destruct (blen h <? 12) eqn:?; [|lia]. }
  eapply triple_bind; [apply triple_check_both|done|]. intros completed.
  eapply (triple_fact _ (completed = None)); [by intros w [_ ?]|]. intros ->.
  eapply (triple_pre (holds (Some m) (Some h))); [by intros w [? _]|].
  eapply triple_bind; [apply triple_call|done|]. intros [].
  apply triple_reading_bind; [intros w _; apply acquire_not_panic|done|]. intros [].
  eapply (triple_pre (holds (Some m) (Some h))); [by intros w [? _]|].
  apply triple_reading_bind; [|done|].
  { intros w [Hm _]. apply read_meta_not_panic. by rewrite Hm. }
  intros meta. eapply (triple_pre (holds (Some m) (Some h))); [by intros w [? _]|].
  apply triple_lift_bind; [by case_bool_decide|done|]. intros [] _.
  apply triple_lift_bind; [apply require_descriptor_not_panic|done|]. intros [] _.
  apply triple_lift_bind; [by destruct (latest_claim meta)|done|]. intros c _.
  apply triple_lift_bind; [by destruct (negb _)|done|]. intros [] _.
  apply triple_reading_bind; [by intros w Hw; apply Hscan|done|]. intros scan w [Hw Hs].
  by destruct (Hscan w Hw) as [_ []%(λ h, h scan)].
Qed.
End interrupted.

(** ** Properties *)

Section adapter_properties.
Context `{Digests, !DigestLaws}.
Implicit Types (w : World) (fs : list bytes).

(** C17: Creation goes record first, data second, whatever the system calls do.
    Creating an artefact where there is none never panics. If it succeeds, the
    metadata file is exactly the claim and the descriptor, the container is
    empty, and the session is live over no frames with the claim's epoch. If it
    fails, the files are those of an interrupted creation: none, a part of the
    metadata file and no container, or the whole metadata file and a part of the
    container's header. *)
Theorem creation_on_disk a c d w :
  creatable c d → holds None None w →
  match create a c d w with
  | (Ok st, w') =>
      holds (Some (creation_meta c (descriptor d))) (Some (to_bytes ContainerHeader_new)) w' ∧
      world (engine st) = w' ∧ live st ∧ stored (engine st) = [] ∧ is_uncertain st = false ∧
      carried_epoch (engine st) = epoch c
  | (Err _, w') => creation_state c (descriptor d) (meta_file w') (pgno_file w')
  | (Panic, _) => False
  end.
Proof. intros Hc Hw. by apply (triple_create a c d u32_max). Qed.

(** An interrupted creation whose record is whole is resumed: when no call
    fails, completing it with its claim, and opening a writer with its epoch,
    both write the container and start the same live session over no frames. *)
Theorem creation_resumes_on_disk a c d w :
  creatable c d → calm w → adapter_policy a = FileExclusionPolicy_Standard →
  holds (Some (creation_meta c (descriptor d))) None w →
  let w' := with_pgno (Some (to_bytes ContainerHeader_new)) w in
  ∃ st, complete_creation a c w = (Ok st, w') ∧ open_write a (epoch c) w = (Ok st, w') ∧
    live st ∧ stored (engine st) = [] ∧ is_uncertain st = false ∧
    carried_epoch (engine st) = epoch c.
Proof.
  intros Hc Hcalm Hpol Hw w'. destruct (complete_run a c d w Hc Hcalm Hpol Hw) as (st&Hst&Hfacts).
  exists st. split; [done|]. split; [|done]. destruct Hw as [Hm Hp].
  unfold open_write. rewrite (bind_run _ _ w (Some st) w'); [done|].
  unfold check_open_write_presence. rewrite presence_run by done. rewrite Hm, Hp. cbn [presence_of].
  rewrite (reading_run _ _ _ (fresh_records c (descriptor d))).
  2: { unfold read_meta. destruct Hcalm as (_&->&_). rewrite Hm. by apply creation_reads_back. }
  rewrite (lift_run _ _ _ tt) by done. rewrite (lift_run _ _ _ c) by done.
  rewrite (lift_run _ _ _ tt) by (by rewrite Z.eqb_refl).
  by rewrite (bind_run _ _ _ _ _ Hst).
Qed.

(** C36: Other interrupted creations are stuck. When the metadata file was cut
    short, or the container before the end of its header, creating, completing
    and opening for writing all fail, for every claim, descriptor, epoch and
    outcome of the calls, and leave the files as they are: nothing claims or
    repairs such an artefact. *)
Theorem interrupted_creation_stuck c d m p a :
  creatable c d →
  (m `prefix_of` creation_meta c (descriptor d) ∧ m ≠ creation_meta c (descriptor d) ∧ p = None) ∨
  (m = creation_meta c (descriptor d) ∧ ∃ h, p = Some h ∧ blen h < 12) →
  (∀ c' d' n, refuses (Some m) p (create_with_limit a c' d' n)) ∧
  (∀ c', refuses (Some m) p (complete_creation a c')) ∧
  (∀ carried, refuses (Some m) p (open_write a carried)).
Proof.
  intros Hc [(Hpre&Hne&->)|(->&h&->&Hh)]; (split; [intros; apply create_refused|]).
  - split; [intros c'; by apply (complete_refused_cut c d)|].
    intros carried. by apply (open_write_refused_cut c d).
  - split; [intros c'; apply complete_refused_present|].
    intros carried. apply open_write_refused_short; [by apply creation_meta_blen|done].
Qed.

(** C7: Opening a writer recovers the whole frames. Over files in order but for
    a torn frame at the end, whatever the calls do, opening never panics, keeps
    the metadata, and leaves the container as it was or cut to its whole frames.
    If it succeeds, the container holds exactly those frames, the session is
    live over them, no outbound pointer was recorded, the last claim has the
    carried epoch and the descriptor is admissible. When these hold, no call
    fails and the frames form an index, it does succeed. *)
Theorem open_write_recovers a carried rs m fs t w :
  sound_files rs m fs t → image_files rs fs t w →
  match open_write a carried w with
  | (Ok st, w') =>
      image_files rs fs [] w' ∧ world (engine st) = w' ∧ live st ∧ stored (engine st) = fs ∧
      is_uncertain st = false ∧ carried_epoch (engine st) = carried ∧ writable m carried
  | (Err _, w') => image_files rs fs t w' ∨ image_files rs fs [] w'
  | (Panic, _) => False
  end ∧
  (∀ idx, calm w → adapter_policy a = FileExclusionPolicy_Standard → writable m carried →
   build_from_frames fs = Ok idx → is_ok (open_write a carried w).1).
Proof.
  intros Hs Hw. split; [exact (triple_open_write a carried rs m fs t Hs w Hw)|].
  intros idx Hcalm Hpol Hwr Hidx.
  by destruct (open_write_run a carried rs m fs t w idx) as (st&w'&->).
Qed.

(** Opening a reader takes a container it cannot see for an absent one. The
    second query for the container turns an error into absence: on an artefact
    with frames, if that query fails and no other call does, a reader opens,
    admitted as ready, over no frames. *)
Theorem unseen_container_reads_empty rs m fs w :
  sound_files rs m fs [] → image_files rs fs [] w →
  script w = [os_ok; os_ok; os_ok; os_err 0] → meta_readable w = true →
  ∃ st w', open_read w = (Ok st, w') ∧ image_files rs fs [] w' ∧
    engine_admission (engine st) = OpenAdmission_Ready ∧ broken_reader_cause st = None ∧
    fiber_index st = SessionIndex_new ∧ stored (engine st) = [].
Proof.
  intros Hs [Hm Hp] Hscript Hr. destruct w as [mf pf mr pe le s]. simpl in *. subst.
  unfold open_read. eexists _, (mk_World _ _ true pe le []).
  erewrite bind_run by reflexivity. cbn [presence_of meta_file pgno_file].
  rewrite (lift_run _ _ _ tt) by done. erewrite bind_run by reflexivity. cbn [negb andb].
  unfold meta_exists. cbn [meta_file]. rewrite bool_decide_eq_true_2 by done.
  rewrite (reading_run _ _ _ m).
  2: { change (read_meta_records (Some (meta_image rs)) = Ok m). rewrite read_meta_image; apply Hs. }
  rewrite (lift_run _ _ _ OpenAdmission_Ready) by done.
  erewrite bind_run by reflexivity. cbn [andb]. erewrite bind_run by reflexivity.
  unfold reading. split; [reflexivity|]. done.
Qed.
End adapter_properties.
