(* ===== verification/Scenarios.v ===== *)
(** * Sessions on concrete files

    The properties of the engine contract, the pipeline, the metadata file and
    the file engine at concrete inputs: a store of two events on a file engine
    over toy digests, whose system calls follow a script. *)

From S2P Require Export Adapter.

#[local] Existing Instance toy_digests.
#[local] Existing Instance toy_digest_laws.

(** ** Samples *)

Definition sample_meta (epochs : list Z) : bytes :=
  meta_image ((λ n, OwnershipRecord_OwnershipClaim (sample_claim n)) <$> epochs).
Definition sample_log : list bytes := envelope_image <$> sample_chain.

Definition sample_engine (epochs : list Z) (calls : list os_outcome) : FileEngine :=
  mk_FileEngine
    (mk_World (Some (sample_meta epochs)) (Some (container_image sample_log)) true None None calls)
    true 3 None OpenAdmission_Ready MetaRecords_default FileExclusionPolicy_Standard true
    0 0 false None false false false None None None.

Definition sample_store (calls : list os_outcome) : Store FileEngine :=
  match open_writer (sample_engine [3] calls) with
  | Ok st => st
  | _ => mk_Store (sample_engine [3] calls) RollingCommitment_new SessionIndex_new None true None
  end.

Definition sample_writes : list write_op :=
  [write_fiber op_append (sample_id x02) (sample_id x05) [x2c]; write_frame [x00];
   write_fiber op_detach (sample_id x02) (sample_id x06) []].

Lemma sample_container epochs calls : container_at (world (sample_engine epochs calls)) sample_log [].
Proof.
  split; [by rewrite app_nil_r|]. split; [by (apply (bool_decide_unpack _); vm_compute)|].
  split; [by left|]. by (apply (bool_decide_unpack _); vm_compute).
Qed.

Lemma sample_engine_wf calls : file_wf (sample_engine [3] calls).
Proof.
  split; [|by (apply (bool_decide_unpack _); vm_compute)|done|].
  - intros _. eexists _, []. split; [apply sample_container|done].
  - by rewrite (file_frames_at (sample_engine [3] calls) _ _ eq_refl (sample_container [3] calls)).
Qed.

Lemma sample_store_opens calls : open_writer (sample_engine [3] calls) = Ok (sample_store calls).
Proof. vm_compute. reflexivity. Qed.

Lemma sample_store_live calls : live (sample_store calls).
Proof. eapply open_writer_live, sample_store_opens. apply sample_engine_wf. Qed.

(** ** The properties at concrete inputs *)

Lemma session_refines_log_witness :
  let r := run_writes sample_writes (sample_store []) in
  Forall (λ r, r ≠ Panic) r.1 ∧ session_state (stored (sample_engine [3] []) ++ landed_frames r.1) r.2.
Proof.
  apply (session_refines_log (sample_engine [3] []) (sample_store []) sample_writes).
  - apply sample_engine_wf.
  - apply sample_store_opens.
  - apply surjective_pairing.
Defined.

(** The write of the second operation stops after five bytes and cannot be
    rolled back. *)
Definition sample_crash : list os_outcome :=
  [os_ok; os_ok; os_ok; os_ok; os_err 5; os_err 0].

Lemma file_session_durable_witness :
  let r := run_writes sample_writes (sample_store sample_crash) in
  let file := pgno_bytes (world (engine r.2)) in
  let log := file_frames (sample_engine [3] sample_crash) ++ landed_frames r.1 in
  ∃ scan, read_container_frames file = Ok scan ∧
    (reconcile_tail_state file scan).2 = container_image (scan_frames scan) ∧
    (scan_frames scan = log ∨ is_uncertain r.2 = true ∧ ∃ p, scan_frames scan = log ++ [p]) ∧
    (is_uncertain r.2 = false → file = container_image log) ∧
    build_from_frames log = Ok (fiber_index r.2) ∧
    rolling_commitment r.2 = commit_frames RollingCommitment_new log.
Proof.
  apply (file_session_durable (sample_engine [3] sample_crash) (sample_store sample_crash)
           sample_writes).
  - apply sample_engine_wf.
  - done.
  - apply sample_store_opens.
  - apply surjective_pairing.
Defined.

Lemma sample_session_torn :
  let r := run_writes sample_writes (sample_store sample_crash) in
  blen (pgno_bytes (world (engine r.2))) =
    blen (container_image (sample_log ++ landed_frames r.1)) + 5 ∧ is_uncertain r.2 = true.
Proof. vm_compute. by split. Qed.

Definition sample_end : Store FileEngine := (run_writes sample_writes (sample_store [])).2.

Lemma reopen_restores_memory_witness :
  ∃ st, open_writer (engine sample_end) = Ok st ∧ fiber_index st = fiber_index sample_end ∧
    rolling_commitment st = rolling_commitment sample_end.
Proof.
  apply (reopen_restores_memory (sample_engine [3] []) (sample_store []) sample_writes
           (run_writes sample_writes (sample_store [])).1).
  - apply sample_engine_wf.
  - apply sample_store_opens.
  - apply surjective_pairing.
  - vm_compute. reflexivity.
  - apply (clean_recovers _
      (sample_log ++ landed_frames (run_writes sample_writes (sample_store [])).1));
      [vm_compute; reflexivity|vm_compute; reflexivity|].
    split; [vm_compute; reflexivity|]. split; [by (apply (bool_decide_unpack _); vm_compute)|].
    split; [by left|]. by (apply (bool_decide_unpack _); vm_compute).
Defined.

Definition sample_landing := store_op op_append (sample_id x02) (sample_id x05) [x2c] (sample_store []).
Definition sample_landed : EventEnvelope :=
  match sample_landing.1 with
  | Ok (WriteLandingVerdict_Landed env) => env
  | _ => sample_envelope []
  end.

Lemma landed_operation_visible_witness :
  live sample_landing.2 ∧
  stored (engine sample_landing.2) = stored (engine (sample_store [])) ++ [envelope_image sample_landed] ∧
  store_get_latest sample_landing.2 (sample_id x02) = Ok (Some sample_landed) ∧
  ∃ h h', fiber (sample_store []) (sample_id x02) = Ok h ∧
    run_op op_append h (sample_id x05) [x2c] = (Ok sample_landed, h') ∧
    fiber sample_landing.2 (sample_id x02) =
      if bool_decide (EventEnvelope_commitment sample_landed = zero32)
      then fail FailureCondition_InvariantBreakingConfiguration else Ok h'.
Proof.
  apply (landed_operation_visible op_append (sample_id x02) (sample_id x05) [x2c] (sample_store [])).
  - apply sample_store_live.
  - done.
  - done.
  - vm_compute. reflexivity.
Defined.

Definition sample_undetermined := append_frame_verdict (envelope_image sample_landed)
  (sample_store [os_ok; os_err 5; os_err 0]).

Lemma undetermined_landing_halts_witness :
  (∀ ws, (run_writes ws sample_undetermined.2).2 = sample_undetermined.2 ∧
     Forall (λ r, ∃ c, r = fail c) (run_writes ws sample_undetermined.2).1) ∧
  (∀ fid, fiber sample_undetermined.2 fid = fail FailureCondition_OwnershipRecordUnreadable ∧
     store_get_latest sample_undetermined.2 fid = fail FailureCondition_OwnershipRecordUnreadable).
Proof.
  apply (undetermined_landing_halts (envelope_image sample_landed) op_append [] [] [] 3
           (sample_store [os_ok; os_err 5; os_err 0])).
  left. vm_compute. reflexivity.
Defined.

Lemma open_reader_exact_witness :
  ∃ st, open_reader (sample_engine [3] []) = Ok st ∧ uncertain st = false ∧
  (∀ cause fid, broken_reader_cause st = Some cause →
     ¬ is_ok (fiber st fid) ∧ ¬ is_ok (store_get_latest st fid)) ∧
  match build_from_frames (stored (sample_engine [3] [])) with
  | Ok idx =>
      if has_broken_fibers idx
      then broken_reader_cause st = Some broken ∧ fiber_index st = SessionIndex_new
      else broken_reader_cause st = None ∧ live st
  | Err err => broken_reader_cause st = Some (condition err) ∧ fiber_index st = SessionIndex_new
  | Panic => False
  end.
Proof.
  apply (open_reader_exact (sample_engine [3] [])).
  - apply sample_engine_wf.
  - apply (clean_recovers _ sample_log); [done|done|apply sample_container].
Defined.

Definition sample_visitor (r : EventEnvelopeRef) (seen : list bytes) :
    outcome OperationFailure unit * list bytes := (Ok tt, seen ++ [ref_payload r]).

Definition sample_visit := for_each_envelope sample_visitor (sample_store []) [].

Lemma for_each_visits_history_witness :
  stored (engine sample_visit.1.2) = stored (engine (sample_store [])) ∧
  ∃ es, Forall2 (λ fr e, decode_and_validate_frame fr = Ok e) (stored (engine (sample_store []))) es ∧
    visit_all sample_visitor es [] = (Ok tt, sample_visit.2) ∧
    commit_all SessionIndex_new es = Ok (fiber_index sample_visit.1.2) ∧
    live sample_visit.1.2 ∧ broken_reader_cause sample_visit.1.2 = None.
Proof.
  apply (for_each_visits_history sample_visitor (sample_store []) [] (Ok tt)).
  - apply sample_store_live.
  - vm_compute. reflexivity.
Defined.

Lemma append_crash_safe_witness :
  let e := sample_engine [3] [os_ok; os_err 5; os_err 0] in
  let p := envelope_image sample_landed in
  let res := file_append_block (frame_image p) e in
  let file := pgno_bytes (world res.2) in
  pgno_bytes (world e) = container_image (file_frames e) ∧ 3 = carried_epoch e ∧
  (∃ scan, read_container_frames file = Ok scan ∧
     ((reconcile_tail_state file scan).2 = container_image (file_frames e) ∨
      (reconcile_tail_state file scan).2 = container_image (file_frames e ++ [p]))) ∧
  ∀ block, file_append_block block res.2 = (fail FailureCondition_OwnershipRecordUnreadable, res.2).
Proof.
  intros e p res file.
  apply (append_crash_safe e p (Ok (WriteLandingVerdict_Undetermined 3)) res.2).
  - apply sample_engine_wf.
  - done.
  - done.
  - vm_compute. done.
  - vm_compute. reflexivity.
Defined.

Lemma superseded_writer_fenced_witness :
  let e := sample_engine [3; 4] [] in
  check_authority e = fail FailureCondition_StaleEpoch ∧
  ∃ err, file_append_block (frame_image [x01]) e = (Err err, e) ∧ file_sync e = (Err err, e).
Proof.
  intros e.
  destruct (superseded_writer_fenced e
    ((λ n, OwnershipRecord_OwnershipClaim (sample_claim n)) <$> [3; 4]) (sample_claim 4)
    (frame_image [x01])) as [Hexact Hfenced].
  - done.
  - by (apply (bool_decide_unpack _); vm_compute).
  - vm_compute. done.
  - done.
  - split; [by apply Hexact|]. by apply Hfenced.
Defined.

Lemma chunked_recovery_exact_witness :
  let on_frame := λ i f seen, (Ok tt, seen ++ [(i, f)]) in
  ∃ e : (), default_recover_frames 4 (default_read_chunk (λ e, (Ok sample_frames, e))) 2 on_frame () []
      = (Ok 3, e, [(0, str "first"); (1, []); (2, str "third")]) ∧ True.
Proof.
  intros on_frame.
  apply (chunked_recovery_exact (λ e : (), (Ok sample_frames, e)) (λ _, True) sample_frames 2
           on_frame () []); try done.
  by intros e _; exists e.
Defined.

Lemma meta_records_exact_witness :
  let rs := [OwnershipRecord_OwnershipClaim (sample_claim 3)] in
  let t := frame_image (record_image (OwnershipRecord_OwnershipClaim (sample_claim 4))) in
  ∃ m m', read_meta_records (Some (meta_image rs)) = Ok m ∧ latest_claim m = Some (sample_claim 3) ∧
    read_meta_records (Some (meta_image rs ++ t)) = Ok m' ∧ latest_claim m' = Some (sample_claim 4).
Proof.
  intros rs t. destruct (meta_records_exact rs t) as (Hread&_&Happend).
  - by (apply (bool_decide_unpack _); vm_compute).
  - vm_compute. done.
  - destruct (Happend _ Hread) as (Hc&_&Hr). eexists _, _. split; [exact Hread|].
    split; [done|]. split; [|shelve].
    rewrite (Hr (OwnershipRecord_OwnershipClaim (sample_claim 4))); [reflexivity|..].
    + by (apply (bool_decide_unpack _); vm_compute).
    + done.
    Unshelve. done.
Defined.

(** ** The adapter *)

Definition sample_adapter : FileStorageAdapter :=
  mk_FileStorageAdapter (str "store") FileExclusionPolicy_Standard.
Definition sample_files (meta pgno : option bytes) (calls : list os_outcome) : World :=
  mk_World meta pgno true None None calls.

Lemma sample_creatable : creatable (sample_claim 3) sample_admitted.
Proof.
  split.
  - by (apply (bool_decide_unpack _); vm_compute).
  - by (apply (bool_decide_unpack _); vm_compute).
  - apply sample_descriptor_typed.
  - vm_compute. reflexivity.
Qed.

(** The write of the claim stops after seven bytes. *)
Lemma creation_on_disk_witness :
  let res := create sample_adapter (sample_claim 3) sample_admitted
    (sample_files None None [os_ok; os_ok; os_ok; os_ok; os_err 7]) in
  res.1 = Err unreadable ∧
  creation_state (sample_claim 3) sample_descriptor (meta_file res.2) (pgno_file res.2).
Proof.
  intros res. split; [vm_compute; reflexivity|].
  pose proof (creation_on_disk sample_adapter (sample_claim 3) sample_admitted
    (sample_files None None [os_ok; os_ok; os_ok; os_ok; os_err 7]) sample_creatable) as Hc.
  change (create _ _ _ _) with res in Hc.
  assert (res = (Err unreadable, res.2)) as Hres by (vm_compute; reflexivity).
  rewrite Hres in Hc. by apply Hc.
Defined.

Definition sample_creation : bytes := creation_meta (sample_claim 3) sample_descriptor.

Lemma creation_resumes_on_disk_witness :
  let w := sample_files (Some sample_creation) None [] in
  let w' := with_pgno (Some (to_bytes ContainerHeader_new)) w in
  ∃ st, complete_creation sample_adapter (sample_claim 3) w = (Ok st, w') ∧
    open_write sample_adapter 3 w = (Ok st, w') ∧
    live st ∧ stored (engine st) = [] ∧ is_uncertain st = false ∧ carried_epoch (engine st) = 3.
Proof.
  intros w w'.
  apply (creation_resumes_on_disk sample_adapter (sample_claim 3) sample_admitted w);
    [apply sample_creatable|done..].
Defined.

Lemma interrupted_creation_stuck_witness :
  let m := take 100 sample_creation in
  (∀ c' d' n, refuses (Some m) None (create_with_limit sample_adapter c' d' n)) ∧
  (∀ c', refuses (Some m) None (complete_creation sample_adapter c')) ∧
  (∀ carried, refuses (Some m) None (open_write sample_adapter carried)).
Proof.
  intros m.
  apply (interrupted_creation_stuck (sample_claim 3) sample_admitted m None sample_adapter).
  - apply sample_creatable.
  - left. split; [exists (drop 100 sample_creation); symmetry; apply take_drop|].
    split; [|done]. vm_compute. done.
Defined.

Definition sample_records : list OwnershipRecord := creation_records (sample_claim 3) sample_descriptor.
Definition sample_meta_records : MetaRecords := fresh_records (sample_claim 3) sample_descriptor.

Lemma sample_sound (t : bytes) :
  t = [] ∨ t = [x09] → sound_files sample_records sample_meta_records sample_log t.
Proof.
  intros Ht. split.
  - apply (creation_records_wf (sample_claim 3) sample_admitted), sample_creatable.
  - apply (creation_meta_blen (sample_claim 3) sample_admitted), sample_creatable.
  - vm_compute. reflexivity.
  - by (apply (bool_decide_unpack _); vm_compute).
  - destruct Ht as [->| ->]; [by left|right]. split; [done|]. eexists _, _. vm_compute. reflexivity.
  - destruct Ht as [->| ->]; by (apply (bool_decide_unpack _); vm_compute).
Qed.

Lemma sample_writable : writable sample_meta_records 3.
Proof.
  split; [done|]. split; [|by exists (sample_claim 3)]. exists sample_descriptor.
  split; [done|]. vm_compute. exact I.
Qed.

Lemma sample_log_index : build_from_frames sample_log = Ok sample_index.
Proof. vm_compute. reflexivity. Qed.

(** A container with a torn byte is opened for writing. *)
Lemma open_write_recovers_witness :
  let w := sample_files (Some (meta_image sample_records)) (Some (container_image sample_log ++ [x09])) [] in
  ∃ st w', open_write sample_adapter 3 w = (Ok st, w') ∧
    pgno_file w' = Some (container_image sample_log ++ []) ∧ stored (engine st) = sample_log.
Proof.
  intros w.
  destruct (open_write_recovers sample_adapter 3 sample_records sample_meta_records sample_log [x09] w)
    as [Hopen Hok].
  - apply sample_sound. by right.
  - done.
  - assert (is_ok (open_write sample_adapter 3 w).1) as Hst.
    { exact (Hok sample_index (conj eq_refl (conj eq_refl (conj eq_refl eq_refl))) eq_refl
               sample_writable sample_log_index). }
    destruct (open_write sample_adapter 3 w) as [[st| |] w']; [|done..]. exists st, w'.
    destruct Hopen as ([_ Hp]&_&_&Hs&_). by split.
Defined.

Lemma unseen_container_reads_empty_witness :
  let w := sample_files (Some (meta_image sample_records)) (Some (container_image sample_log ++ []))
    [os_ok; os_ok; os_ok; os_err 0] in
  ∃ st w', open_read w = (Ok st, w') ∧ image_files sample_records sample_log [] w' ∧
    engine_admission (engine st) = OpenAdmission_Ready ∧ broken_reader_cause st = None ∧
    fiber_index st = SessionIndex_new ∧ stored (engine st) = [].
Proof.
  intros w. apply (unseen_container_reads_empty sample_records sample_meta_records sample_log w);
    [apply sample_sound; by left|done..].
Defined.
