(* ===== verification/JetStream.v ===== *)
(** * The JetStream client: what [src/crates/pardosa-nats/src/adapter.rs] uses

    The client and the server behind it are not part of the repository: they are
    the class [JetStream], whose calls act on an abstract [Server]. Other
    clients act inside any call and any call may fail, as the laws leave open.
    [JetStreamLaws] is what the adapter relies on: streams only grow, an answer
    tells the truth about the server that gave it, and an acknowledged message is
    stored, at the sequence the publisher expected. Nobody deletes or purges a
    stream in the meantime. The decisions the adapter takes on errors are its own
    and are defined here. *)

From S2P Require Export Effects.

(** ** Errors, as far as they are told apart *)

Inductive ErrorCode :=
  | STREAM_NOT_FOUND
  | NO_MESSAGE_FOUND
  | SEQUENCE_NOT_FOUND
  | STREAM_NAME_EXIST
  | STREAM_WRONG_LAST_SEQUENCE
  | STREAM_WRONG_LAST_SEQUENCE_CONSTANT
  | ErrorCode_other.
#[export] Instance ErrorCode_eq_dec : EqDecision ErrorCode.
Proof. solve_decision. Defined.

(** [GetStreamErrorKind], which deletions share, and [CreateStreamErrorKind]. *)
Inductive StreamError :=
  | StreamError_JetStream (code : ErrorCode)
  | StreamError_other.
Inductive RawMessageError :=
  | RawMessageError_NoMessageFound
  | RawMessageError_JetStream (code : ErrorCode)
  | RawMessageError_other.
(** The JetStream error among the sources of a [RequestError]. *)
Definition RequestError : Type := option ErrorCode.
Record PublishError := mk_PublishError {
  kind_is_wrong_last_sequence : bool;
  publish_source : option ErrorCode;
}.

(** ** Calls *)

Record StreamInfo := mk_StreamInfo {
  info_messages : Z;
  info_first_sequence : Z;
  info_last_sequence : Z;
  info_subjects : list bytes;
}.
(** A message with its two expectation headers. *)
Record Publication := mk_Publication {
  pub_subject : bytes;
  expected_last_subject_sequence : option Z;
  expected_stream : bytes;
  pub_payload : bytes;
}.
Record PublishAck := mk_PublishAck { ack_stream : bytes; ack_sequence : Z }.
(** Publishing awaits twice: to send the message, and for its acknowledgement,
    which a timeout may give up on. *)
Inductive PublishOutcome :=
  | publish_refused (err : PublishError)
  | acked (ack : PublishAck)
  | ack_failed (err : PublishError)
  | ack_timed_out.

Class JetStream := {
  Server : Type;
  get_stream : bytes → Server → (unit + StreamError) * Server;
  stream_info : bytes → Server → (StreamInfo + RequestError) * Server;
  get_raw_message : bytes → Z → Server → (bytes + RawMessageError) * Server;
  create_stream : bytes → bytes → Server → (unit + StreamError) * Server;
  delete_stream : bytes → Server → (unit + StreamError) * Server;
  (** The timeout, in nanoseconds, is [None] where the code waits. *)
  publish : option Z → Publication → Server → PublishOutcome * Server;
  flush : Server → bool * Server;
}.

(** ** Decisions on errors *)

Definition is_wrong_last_sequence (err : PublishError) : bool :=
  if kind_is_wrong_last_sequence err then true else
  match publish_source err with
  | Some code =>
      bool_decide (code = STREAM_WRONG_LAST_SEQUENCE) ||
      bool_decide (code = STREAM_WRONG_LAST_SEQUENCE_CONSTANT)
  | None => false
  end.

Definition map_completion_create_error (err : StreamError) : OperationFailure :=
  OperationFailure_new
    match err with
    | StreamError_JetStream STREAM_NAME_EXIST => FailureCondition_StoreAlreadyExists
    | _ => FailureCondition_TransportUnavailable
    end.

Definition map_nats_stream_open_error (err : StreamError) : OperationFailure :=
  OperationFailure_new
    match err with
    | StreamError_JetStream STREAM_NOT_FOUND => FailureCondition_NoArtefactExists
    | _ => FailureCondition_TransportUnavailable
    end.

Definition map_nats_stream_delete_error (err : StreamError) : outcome OperationFailure unit :=
  match err with
  | StreamError_JetStream STREAM_NOT_FOUND => Ok tt
  | _ => fail FailureCondition_TransportUnavailable
  end.

Definition map_nats_info_error (err : RequestError) : OperationFailure :=
  OperationFailure_new
    match err with
    | Some STREAM_NOT_FOUND => FailureCondition_NoArtefactExists
    | _ => FailureCondition_TransportUnavailable
    end.

Definition map_nats_raw_message_error (err : RawMessageError) : OperationFailure :=
  OperationFailure_new
    match err with
    | RawMessageError_NoMessageFound
    | RawMessageError_JetStream NO_MESSAGE_FOUND
    | RawMessageError_JetStream SEQUENCE_NOT_FOUND => broken
    | _ => FailureCondition_TransportUnavailable
    end.

Definition map_meta_raw_message_error (err : RawMessageError) : OperationFailure :=
  let failure := map_nats_raw_message_error err in
  match condition failure with
  | FailureCondition_PrecursorChainBroken _ =>
      OperationFailure_new FailureCondition_OwnershipRecordUnreadable
  | _ => failure
  end.

Section calls.
Context `{JetStream}.

Abbreviation js := (eff Server).

(** A call whose error is mapped. *)
Definition request {A E} (call : Server → (A + E) * Server) (map : E → OperationFailure) : js A :=
  λ s, match call s with
       | (inl a, s) => (Ok a, s)
       | (inr err, s) => (Err (map err), s)
       end.

Definition open_stream (name : bytes) : js unit :=
  request (get_stream name) map_nats_stream_open_error.
Definition query_info (name : bytes) : js StreamInfo :=
  request (stream_info name) map_nats_info_error.
Definition read_message (name : bytes) (seq : Z) : js bytes :=
  request (get_raw_message name seq) map_nats_raw_message_error.

Definition stream_exists (name : bytes) : js bool := λ s,
  match get_stream name s with
  | (inl _, s) => (Ok true, s)
  | (inr err, s) =>
      let failure := map_nats_stream_open_error err in
      if bool_decide (condition failure = FailureCondition_NoArtefactExists)
      then (Ok false, s) else (Err failure, s)
  end.
End calls.

(** ** What the adapter relies on *)

(** A stream: its subjects, its first sequence and its messages from there on; a
    deleted message is [None]. *)
Record Stream := mk_Stream {
  st_subjects : list bytes;
  st_first : Z;
  st_messages : list (option bytes);
}.
#[export] Instance Stream_eq_dec : EqDecision Stream.
Proof. solve_decision. Defined.

Definition last_sequence (st : Stream) : Z := st_first st + blen (st_messages st) - 1.
Definition message (st : Stream) (seq : Z) : option bytes :=
  if seq <? st_first st then None else
  mjoin (st_messages st !! Z.to_nat (seq - st_first st)).
Definition info_of (st : Stream) : StreamInfo :=
  mk_StreamInfo (blen (omap id (st_messages st))) (st_first st) (last_sequence st)
    (st_subjects st).

(** Nothing was purged or deleted. *)
Definition whole (st : Stream) : Prop := st_first st = 1 ∧ Forall is_Some (st_messages st).

(** A stream after messages were appended to it. *)
Definition grown (st st' : Stream) : Prop :=
  st_subjects st' = st_subjects st ∧ st_first st' = st_first st ∧
  ∃ more, st_messages st' = st_messages st ++ (Some <$> more).

Lemma grown_refl st : grown st st.
Proof. split; [done|]. split; [done|]. exists []. by rewrite app_nil_r. Qed.

Lemma grown_trans st1 st2 st3 : grown st1 st2 → grown st2 st3 → grown st1 st3.
Proof.
  intros (Hs1&Hf1&m1&Hm1) (Hs2&Hf2&m2&Hm2). split; [congruence|]. split; [congruence|].
  exists (m1 ++ m2). by rewrite Hm2, Hm1, fmap_app, app_assoc.
Qed.

Lemma grown_whole st st' : grown st st' → whole st → whole st'.
Proof.
  intros (_&Hf&m&Hm) [H1 Hs]. split; [congruence|]. rewrite Hm. apply Forall_app_2; [done|].
  apply Forall_fmap, Forall_true. by eexists.
Qed.

Lemma grown_last st st' : grown st st' → last_sequence st ≤ last_sequence st'.
Proof.
  intros (_&Hf&m&Hm). unfold last_sequence. rewrite Hf, Hm, blen_app.
  pose proof (blen_nonneg (Some <$> m)). lia.
Qed.

Lemma grown_message st st' seq p : grown st st' → message st seq = Some p → message st' seq = Some p.
Proof.
  intros (_&Hf&m&Hm). unfold message. rewrite Hf, Hm. destruct (seq <? st_first st); [done|].
  destruct (st_messages st !! _) as [x|] eqn:Hx; [|done].
  intros Hp. by rewrite (lookup_app_l_Some _ _ _ _ Hx).
Qed.

Lemma last_sequence_whole st : whole st → last_sequence st = blen (st_messages st).
Proof. intros [Hf _]. unfold last_sequence. rewrite Hf. lia. Qed.

(** What time does to the streams of a server. *)
Definition grows_by {S} (at_ : S → bytes → option Stream) (s s' : S) : Prop := ∀ name,
  match at_ s name, at_ s' name with
  | Some st, Some st' => grown st st'
  | Some _, None => False
  | None, Some st' => whole st'
  | None, None => True
  end.

Section growth.
Context {S : Type} (at_ : S → bytes → option Stream).

Lemma grows_refl s : grows_by at_ s s.
Proof. intros name. destruct (at_ s name); [apply grown_refl|done]. Qed.

Lemma grows_trans s1 s2 s3 : grows_by at_ s1 s2 → grows_by at_ s2 s3 → grows_by at_ s1 s3.
Proof.
  intros H1 H2 name. specialize (H1 name). specialize (H2 name).
  destruct (at_ s1 name), (at_ s2 name), (at_ s3 name); try done.
  - by eapply grown_trans.
  - by eapply grown_whole.
Qed.

#[export] Instance grows_preorder : PreOrder (grows_by at_).
Proof. split; [exact grows_refl|exact grows_trans]. Qed.

Lemma grows_stream s s' name st :
  grows_by at_ s s' → at_ s name = Some st → ∃ st', at_ s' name = Some st' ∧ grown st st'.
Proof.
  intros Hg Hs. specialize (Hg name). rewrite Hs in Hg.
  destruct (at_ s' name) as [st'|]; [by exists st'|done].
Qed.

(** A stream that is new since [s] lost nothing. *)
Lemma grows_born s s' name st' :
  grows_by at_ s s' → at_ s name = None → at_ s' name = Some st' → whole st'.
Proof. intros Hg Hn Hs. specialize (Hg name). by rewrite Hn, Hs in Hg. Qed.
End growth.

(** What the answers to calls mean: they speak of the server as the call leaves
    it. *)
Class JetStreamLaws `{JetStream} := {
  stream_at : Server → bytes → option Stream;
  stream_wf s name st :
    stream_at s name = Some st → 1 ≤ st_first st ∧ last_sequence st ≤ u64_max;
  get_stream_law name s r s' : get_stream name s = (r, s') →
    grows_by stream_at s s' ∧
    match r with
    | inl _ => is_Some (stream_at s' name)
    | inr (StreamError_JetStream STREAM_NOT_FOUND) => stream_at s' name = None
    | inr _ => True
    end;
  stream_info_law name s r s' : stream_info name s = (r, s') →
    grows_by stream_at s s' ∧ ∀ i, r = inl i → ∃ st, stream_at s' name = Some st ∧ i = info_of st;
  get_raw_message_law name seq s r s' : get_raw_message name seq s = (r, s') →
    grows_by stream_at s s' ∧
    ∀ p, r = inl p → blen p ≤ isize_max ∧
      ∃ st, stream_at s' name = Some st ∧ message st seq = Some p;
  create_stream_law name subject s r s' : create_stream name subject s = (r, s') →
    grows_by stream_at s s' ∧
    (r = inl tt → ∃ st, stream_at s' name = Some st ∧ st_subjects st = [subject]);
  publish_law timeout m s r s' : publish timeout m s = (r, s') →
    grows_by stream_at s s' ∧
    ∀ ack, r = acked ack → ack_stream ack = expected_stream m ∧
      ∃ st', stream_at s' (ack_stream ack) = Some st' ∧
        message st' (ack_sequence ack) = Some (pub_payload m) ∧
        (∀ st, stream_at s (ack_stream ack) = Some st → last_sequence st < ack_sequence ack) ∧
        (∀ n, expected_last_subject_sequence m = Some n → whole st' →
           st_subjects st' = [pub_subject m] → ack_sequence ack = n + 1);
  flush_law s b s' : flush s = (b, s') → grows_by stream_at s s';
}.

Abbreviation grows := (grows_by stream_at).
