(* ===== verification/MemServer.v ===== *)
(** * A JetStream server in memory

    An instance of [JetStream] that satisfies [JetStreamLaws], on which the
    witnesses evaluate the adapter. Each call takes its turn from a script: it
    succeeds, does not reach the server, is carried out without its answer
    coming back, or comes after a message of another client. *)

From S2P Require Export JetStream.

Inductive turn :=
  | turn_ok
  | turn_down
  | turn_lost
  | turn_other (name p : bytes).

Record MemServer := mk_MemServer {
  mem_streams : gmap bytes Stream;
  mem_script : list turn;
}.

(** Sequences are [u64], and messages fit in memory. *)
Definition sound_stream (st : Stream) : bool :=
  bool_decide (1 ≤ st_first st ∧ last_sequence st ≤ u64_max ∧
               Forall (λ m, blen (default [] m) ≤ isize_max) (st_messages st)).
Definition mem_stream (s : MemServer) (name : bytes) : option Stream :=
  st ← mem_streams s !! name;
  if sound_stream st then Some st else None.

Definition push (st : Stream) (p : bytes) : Stream :=
  mk_Stream (st_subjects st) (st_first st) (st_messages st ++ [Some p]).
Definition mem_put (name : bytes) (st : Stream) (s : MemServer) : MemServer :=
  mk_MemServer (<[name := st]> (mem_streams s)) (mem_script s).
(** The message is stored if its stream exists and has room. *)
Definition mem_push (name p : bytes) (s : MemServer) : MemServer :=
  match mem_stream s name with
  | Some st => if sound_stream (push st p) then mem_put name (push st p) s else s
  | None => s
  end.

(** Whether a call reaches the server, and whether its answer comes back. *)
Definition mem_turn (s : MemServer) : bool * bool * MemServer :=
  match mem_script s with
  | [] => (true, true, s)
  | t :: script =>
      let s := mk_MemServer (mem_streams s) script in
      match t with
      | turn_ok => (true, true, s)
      | turn_down => (false, false, s)
      | turn_lost => (true, false, s)
      | turn_other name p => (true, true, mem_push name p s)
      end
  end.

(** A call that changes nothing. *)
Definition mem_query {A E} (lost : E) (f : MemServer → A + E) (s : MemServer) :
    (A + E) * MemServer :=
  let '(_, answered, s) := mem_turn s in ((if answered : bool then f s else inr lost), s).

Definition mem_get_stream (name : bytes) : MemServer → (unit + StreamError) * MemServer :=
  mem_query StreamError_other (λ s,
    match mem_stream s name with
    | Some _ => inl tt
    | None => inr (StreamError_JetStream STREAM_NOT_FOUND)
    end).
Definition mem_stream_info (name : bytes) : MemServer → (StreamInfo + RequestError) * MemServer :=
  mem_query None (λ s,
    match mem_stream s name with
    | Some st => inl (info_of st)
    | None => inr (Some STREAM_NOT_FOUND)
    end).
Definition mem_get_raw_message (name : bytes) (seq : Z) :
    MemServer → (bytes + RawMessageError) * MemServer :=
  mem_query RawMessageError_other (λ s,
    match mem_stream s name with
    | Some st =>
        match message st seq with
        | Some p => inl p
        | None => inr RawMessageError_NoMessageFound
        end
    | None => inr (RawMessageError_JetStream STREAM_NOT_FOUND)
    end).
(** Creating a stream again as it is succeeds. *)
Definition mem_create_stream (name subject : bytes) (s : MemServer) :
    (unit + StreamError) * MemServer :=
  let '(reached, answered, s) := mem_turn s in
  if negb reached then (inr StreamError_other, s) else
  let '(r, s) :=
    match mem_stream s name with
    | None => (inl tt, mem_put name (mk_Stream [subject] 1 []) s)
    | Some st =>
        if bool_decide (st_subjects st = [subject]) then (inl tt, s)
        else (inr (StreamError_JetStream STREAM_NAME_EXIST), s)
    end in
  ((if answered : bool then r else inr StreamError_other), s).
Definition mem_delete_stream (name : bytes) (s : MemServer) : (unit + StreamError) * MemServer :=
  let '(reached, answered, s) := mem_turn s in
  if negb reached then (inr StreamError_other, s) else
  match mem_stream s name with
  | None => (inr (StreamError_JetStream STREAM_NOT_FOUND), s)
  | Some _ => (inl tt, mk_MemServer (delete name (mem_streams s)) (mem_script s))
  end.

(** The last sequence of a stream in which nothing is missing is that of its
    only subject. *)
Definition as_expected (m : Publication) (st : Stream) : bool :=
  match expected_last_subject_sequence m with
  | Some n => negb (bool_decide (whole st)) || (last_sequence st =? n)
  | None => true
  end.
Definition mem_publish (_ : option Z) (m : Publication) (s : MemServer) :
    PublishOutcome * MemServer :=
  let '(reached, answered, s) := mem_turn s in
  if negb reached then (publish_refused (mk_PublishError false None), s) else
  let '(r, s) :=
    match mem_stream s (expected_stream m) with
    | Some st =>
        if negb (bool_decide (pub_subject m ∈ st_subjects st)) || negb (sound_stream (push st (pub_payload m)))
        then (ack_failed (mk_PublishError false None), s) else
        if as_expected m st
        then (acked (mk_PublishAck (expected_stream m) (last_sequence st + 1)),
              mem_put (expected_stream m) (push st (pub_payload m)) s)
        else (ack_failed (mk_PublishError false (Some STREAM_WRONG_LAST_SEQUENCE)), s)
    | None => (ack_failed (mk_PublishError false None), s)
    end in
  ((if answered : bool then r else ack_timed_out), s).
Definition mem_flush (s : MemServer) : bool * MemServer :=
  let '(_, answered, s) := mem_turn s in (answered, s).

#[export] Instance MemServer_jetstream : JetStream := {
  Server := MemServer;
  get_stream := mem_get_stream;
  stream_info := mem_stream_info;
  get_raw_message := mem_get_raw_message;
  create_stream := mem_create_stream;
  delete_stream := mem_delete_stream;
  publish := mem_publish;
  flush := mem_flush;
}.

(** ** The laws *)

Abbreviation mem_grows := (grows_by mem_stream).

Lemma mem_stream_put name st s name' :
  mem_stream (mem_put name st s) name' =
    if decide (name = name') then (if sound_stream st then Some st else None)
    else mem_stream s name'.
Proof.
  unfold mem_stream, mem_put. cbn [mem_streams]. case_decide as Hn.
  - subst. by rewrite lookup_insert_eq.
  - by rewrite lookup_insert_ne.
Qed.

Lemma mem_grows_put name st s :
  sound_stream st = true →
  match mem_stream s name with Some st0 => grown st0 st | None => whole st end →
  mem_grows s (mem_put name st s).
Proof.
  intros Hs Hg name'. rewrite mem_stream_put, Hs. case_decide as Hn; [subst|exact (grows_refl mem_stream s name')].
  by destruct (mem_stream s name').
Qed.

Lemma grown_push st p : grown st (push st p).
Proof. split; [done|]. split; [done|]. by exists [p]. Qed.

Lemma mem_push_grows name p s : mem_grows s (mem_push name p s).
Proof.
  unfold mem_push. destruct (mem_stream s name) as [st|] eqn:Hs; [|apply (grows_refl mem_stream)].
  destruct (sound_stream (push st p)) eqn:Hp; [|apply (grows_refl mem_stream)].
  apply mem_grows_put; [done|]. rewrite Hs. apply grown_push.
Qed.

Lemma mem_turn_grows s reached answered s' :
  mem_turn s = (reached, answered, s') → mem_grows s s'.
Proof.
  unfold mem_turn. destruct s as [m [|t script]]; [intros [= _ _ <-]; apply (grows_refl mem_stream)|].
  destruct t as [| | |name p]; intros [= _ _ <-];
    [exact (grows_refl mem_stream (mk_MemServer m script))..|].
  exact (mem_push_grows name p (mk_MemServer m script)).
Qed.

Lemma mem_query_cases {A E} (lost : E) (f : MemServer → A + E) s r s' :
  mem_query lost f s = (r, s') → mem_grows s s' ∧ (r = inr lost ∨ r = f s').
Proof.
  unfold mem_query. destruct (mem_turn s) as [[reached answered] s1] eqn:Ht.
  apply mem_turn_grows in Ht. intros [= <- <-]. destruct answered; auto.
Qed.

Lemma message_push st p : sound_stream st = true →
  message (push st p) (last_sequence st + 1) = Some p.
Proof.
  unfold sound_stream. rewrite bool_decide_eq_true. intros (Hf&_&_).
  unfold message, push, last_sequence, blen. cbn [st_first st_messages].
  destruct (_ <? _) eqn:Hlt; [lia|].
  rewrite lookup_app_r by lia.
  replace (Z.to_nat _ - length (st_messages st))%nat with 0%nat by lia. done.
Qed.

Lemma mem_stream_sound s name st : mem_stream s name = Some st → sound_stream st = true.
Proof.
  unfold mem_stream. destruct (mem_streams s !! name) as [st0|]; [|done]. cbn.
  destruct (sound_stream st0) eqn:Hs; [|done]. by intros [= <-].
Qed.

Lemma mem_publish_cases timeout m s r s' :
  mem_publish timeout m s = (r, s') →
  ∃ s1, mem_grows s s1 ∧
    ((s' = s1 ∧ ∀ ack, r ≠ acked ack) ∨
     ∃ st, mem_stream s1 (expected_stream m) = Some st ∧ sound_stream (push st (pub_payload m)) = true ∧
       pub_subject m ∈ st_subjects st ∧ as_expected m st = true ∧
       s' = mem_put (expected_stream m) (push st (pub_payload m)) s1 ∧
       ∀ ack, r = acked ack → ack = mk_PublishAck (expected_stream m) (last_sequence st + 1)).
Proof.
  unfold mem_publish. destruct (mem_turn s) as [[reached answered] s1] eqn:Ht.
  apply mem_turn_grows in Ht. intros Hr. exists s1. split; [done|].
  destruct reached; cbn [negb] in Hr; [|injection Hr as <- <-; by left].
  destruct (mem_stream s1 _) as [st|] eqn:Hst; [|injection Hr as <- <-; left; by destruct answered].
  case_bool_decide as Hsub; [|injection Hr as <- <-; left; by destruct answered].
  destruct (sound_stream (push st _)) eqn:Hp; cbn [negb orb] in Hr;
    [|injection Hr as <- <-; left; by destruct answered].
  destruct (as_expected m st) eqn:He; injection Hr as <- <-;
    [right|left; by destruct answered].
  exists st. do 5 (split; [done|]). destruct answered; [by intros ack [= <-]|done].
Qed.

#[export] Instance MemServer_laws : JetStreamLaws.
Proof.
  refine {| stream_at := mem_stream |}.
  - intros s name st Hs%mem_stream_sound. by apply bool_decide_eq_true in Hs as (?&?&_).
  - intros name s r s' [Hg Hr]%mem_query_cases. split; [done|].
    destruct Hr as [->| ->]; [done|]. by destruct (mem_stream s' name).
  - intros name s r s' [Hg Hr]%mem_query_cases. split; [done|]. intros i Hi.
    destruct Hr as [->| ->]; [done|]. destruct (mem_stream s' name) as [st|]; [|done].
    injection Hi as <-. by exists st.
  - intros name seq s r s' [Hg Hr]%mem_query_cases. split; [done|]. intros p Hp.
    destruct Hr as [->| ->]; [done|]. destruct (mem_stream s' name) as [st|] eqn:Hst; [|done].
    destruct (message st seq) as [m|] eqn:Hm; [injection Hp as ->|done].
    split; [|by exists st]. apply mem_stream_sound, bool_decide_eq_true in Hst as (_&_&Hall).
    unfold message in Hm. destruct (seq <? st_first st); [done|].
    destruct (st_messages st !! _) as [x|] eqn:Hx; [|done]. cbn in Hm. subst x.
    exact (Forall_lookup_1 _ _ _ _ Hall Hx).
  - intros name subject s r s' Hr. cbn in Hr. unfold mem_create_stream in Hr.
    destruct (mem_turn s) as [[reached answered] s1] eqn:Ht.
    apply mem_turn_grows in Ht. destruct reached; cbn [negb] in Hr; [|by injection Hr as <- <-].
    destruct (mem_stream s1 name) as [st|] eqn:Hst.
    + case_bool_decide as Hsub; injection Hr as <- <-; (split; [done|]); destruct answered; try done.
      intros _. by exists st.
    + injection Hr as <- <-. split.
      * apply grows_trans with s1; [done|]. apply mem_grows_put; [done|]. by rewrite Hst.
      * intros _. eexists. split; [by rewrite mem_stream_put, decide_True|done].
  - intros timeout m s r s' Hr. apply mem_publish_cases in Hr as (s1&Hg&Hr).
    destruct Hr as [[-> Hn]|(st&Hst&Hp&Hsub&He&->&Hack)]; [by split; [done|intros ack ->; destruct (Hn ack)]|].
    split; [apply grows_trans with s1; [done|]; apply mem_grows_put; [done|];
            rewrite Hst; apply grown_push|].
    intros ack ->. rewrite (Hack ack eq_refl). cbn [ack_stream ack_sequence]. split; [done|].
    exists (push st (pub_payload m)). split; [by rewrite mem_stream_put, decide_True, Hp|].
    split; [by apply message_push, (mem_stream_sound s1 (expected_stream m))|]. split.
    + intros st0 Hst0. specialize (Hg (expected_stream m)). rewrite Hst0, Hst in Hg.
      apply grown_last in Hg. lia.
    + intros n Hn Hw Hs. unfold as_expected in He. rewrite Hn in He.
      rewrite bool_decide_eq_true_2 in He; [simpl in He; lia|].
      destruct Hw as [Hf Hall]. split; [done|]. cbn in Hall. by apply Forall_app in Hall as [].
  - intros s b s' Hr. cbn in Hr. unfold mem_flush in Hr.
    destruct (mem_turn s) as [[reached answered] s1] eqn:Ht. apply mem_turn_grows in Ht.
    by injection Hr as <- <-.
Defined.
