(* ===== verification/NatsEngine.v ===== *)
(** * The JetStream engine: [src/crates/pardosa-nats/src/adapter.rs]

    Reading the two streams of an artefact, and [NatsEngine], the driver over
    them. The engine holds the server; its calls act on it. Of a [&self] method
    only the answer is kept, as it leaves no engine. Requests the code issues
    concurrently are answered in order, as the code consumes them in order. *)

From S2P Require Export Pipeline MetaFile JetStream.

Section reads.
Context `{Digests, JetStream}.

(** ** Ownership records *)

(** One message of the meta stream: the header at sequence 1, records after. *)
Definition absorb_message (records : MetaRecords) (seq : Z) (raw : bytes) :
    outcome OperationFailure MetaRecords :=
  if seq =? 1 then
    '(header, consumed) ← map_err (λ _, unreadable) (ContainerHeader_decode raw);
    if negb (format_version header =? CONTAINER_FORMAT_VERSION) then Err unreadable else
    if negb (consumed =? blen raw) then Err unreadable else
    Ok records
  else
    '(payload, consumed_frame) ← map_err (λ _, unreadable) (ContainerFrame_decode raw);
    if negb (consumed_frame =? blen raw) then Err unreadable else
    '(record, consumed_record) ← map_err (λ _, unreadable) (OwnershipRecord_decode payload);
    if negb (consumed_record =? blen payload) then Err unreadable else
    absorb_record records record.

(** The [for] over [count] sequences from [seq]. *)
Fixpoint absorb_messages (count : nat) (name : bytes) (seq : Z) (records : MetaRecords) :
    eff Server MetaRecords :=
  match count with
  | O => mret records
  | S count =>
      raw ← request (get_raw_message name seq) map_meta_raw_message_error;
      records ← lift (absorb_message records seq raw);
      absorb_messages count name (seq + 1) records
  end.

(** [read_meta_records_async] on a stream that was opened. *)
Definition read_meta_stream (name : bytes) : eff Server MetaRecords :=
  info ← query_info name;
  if info_messages info =? 0 then lift (Err unreadable) else
  let first := info_first_sequence info in
  let last := info_last_sequence info in
  if 1 <? first then lift (Err unreadable) else
  absorb_messages (Z.to_nat (last - first + 1)) name first MetaRecords_default.

Definition read_meta_records_async (name : bytes) : eff Server MetaRecords := λ s,
  match get_stream name s with
  | (inl _, s) => read_meta_stream name s
  | (inr err, s) =>
      let mapped := map_nats_stream_open_error err in
      if bool_decide (condition mapped = FailureCondition_NoArtefactExists)
      then (Ok MetaRecords_default, s) else (Err mapped, s)
  end.

(** ** Event frames *)

(** The opening of the data stream and of its header. *)
Definition open_data_stream (name : bytes) : eff Server (ContainerHeader * StreamInfo) :=
  _ ← open_stream name;
  info ← query_info name;
  if info_messages info =? 0 then lift (fail broken) else
  if 1 <? info_first_sequence info then lift (Err unreadable) else
  header_raw ← read_message name (info_first_sequence info);
  '(header, consumed) ←
    lift (map_err (λ _, OperationFailure_new broken) (ContainerHeader_decode header_raw));
  if negb (consumed =? blen header_raw) then lift (fail broken) else
  mret (header, info).

(** One message: its bytes and the payload of its frame. *)
Definition read_data_frame (name : bytes) (seq : Z) : eff Server (bytes * bytes) :=
  raw ← read_message name seq;
  '(payload, consumed) ←
    lift (map_err (λ _, OperationFailure_new broken) (ContainerFrame_decode raw));
  if negb (consumed =? blen raw) then lift (fail broken) else
  mret (raw, payload).

Fixpoint read_data_frames (count : nat) (name : bytes) (seq : Z) :
    eff Server (list (bytes * bytes)) :=
  match count with
  | O => mret []
  | S count =>
      frame ← read_data_frame name seq;
      frames ← read_data_frames count name (seq + 1);
      mret (frame :: frames)
  end.

Definition read_data_frames_async (name : bytes) :
    eff Server (ContainerHeader * list bytes * RollingCommitment * Z) :=
  '(header, info) ← open_data_stream name;
  let first := info_first_sequence info in
  let last := info_last_sequence info in
  frames ← (if first <? last then read_data_frames (Z.to_nat (last - first)) name (first + 1)
            else mret []);
  mret (header, frames.*2, fold_left update_frame frames.*1 RollingCommitment_new, last).

Definition read_chunk_async (name : bytes) (start_index max_items : Z)
    (terminal_seq : option Z) : eff Server (list bytes) :=
  if max_items =? 0 then mret [] else
  '(_, info) ← open_data_stream name;
  let last := match terminal_seq with
              | Some t_seq => Z.min (info_last_sequence info) t_seq
              | None => info_last_sequence info
              end in
  match u64_checked_add (info_first_sequence info) 1 ≫= (λ s, u64_checked_add s start_index) with
  | None => mret []
  | Some start_seq =>
      if last <? start_seq then mret [] else
      let end_seq := match u64_checked_add start_seq (saturating_sub max_items 1) with
                     | Some e => Z.min e last
                     | None => last
                     end in
      if end_seq <? start_seq then mret [] else
      frames ← read_data_frames (Z.to_nat (end_seq - start_seq + 1)) name start_seq;
      mret frames.*2
  end.

Definition read_range_async (name : bytes) (from_seq to_seq : Z) : eff Server (list bytes) :=
  if to_seq <? from_seq then mret [] else
  _ ← open_stream name;
  frames ← read_data_frames (Z.to_nat (to_seq - from_seq + 1)) name from_seq;
  mret frames.*2.
End reads.

(** ** The engine *)

Record NatsEngine `{JetStream} := mk_NatsEngine {
  server : Server;
  ne_stem : bytes;
  ne_meta_stream_name : bytes;
  ne_data_stream_name : bytes;
  ne_meta_subject : bytes;
  ne_data_subject : bytes;
  ne_carried_epoch : Z;
  ne_claim : option OwnershipClaimRecord;
  ne_meta_records : MetaRecords;
  ne_admission : OpenAdmission;
  last_data_seq : Z;
  data_events_landed : bool;
  ne_read_all_count : Z;
  publish_timeout : Z;
  ne_simulate_indeterminate : bool;
  ne_uncertain : bool;
  ne_diagnostic : option unit;
}.
Arguments mk_NatsEngine {_}.

Section engine.
Context `{Digests, JetStream}.

Definition with_server (s : Server) (e : NatsEngine) : NatsEngine :=
  let 'mk_NatsEngine _ st mn dn ms ds ce c m a l d r t si u di := e in
  mk_NatsEngine s st mn dn ms ds ce c m a l d r t si u di.
Definition with_last_data_seq (l : Z) (e : NatsEngine) : NatsEngine :=
  let 'mk_NatsEngine s st mn dn ms ds ce c m a _ d r t si u di := e in
  mk_NatsEngine s st mn dn ms ds ce c m a l d r t si u di.
(** A landed event. *)
Definition with_landed (l : Z) (e : NatsEngine) : NatsEngine :=
  let 'mk_NatsEngine s st mn dn ms ds ce c m a _ _ r t si u di := e in
  mk_NatsEngine s st mn dn ms ds ce c m a l true r t si u di.
Definition ne_with_read_all_count (r : Z) (e : NatsEngine) : NatsEngine :=
  let 'mk_NatsEngine s st mn dn ms ds ce c m a l d _ t si u di := e in
  mk_NatsEngine s st mn dn ms ds ce c m a l d r t si u di.
Definition set_publish_timeout (t : Z) (e : NatsEngine) : NatsEngine :=
  let 'mk_NatsEngine s st mn dn ms ds ce c m a l d r _ si u di := e in
  mk_NatsEngine s st mn dn ms ds ce c m a l d r t si u di.
Definition ne_set_simulate_indeterminate (si : bool) (e : NatsEngine) : NatsEngine :=
  let 'mk_NatsEngine s st mn dn ms ds ce c m a l d r t _ u di := e in
  mk_NatsEngine s st mn dn ms ds ce c m a l d r t si u di.
(** [uncertain = true], with a diagnostic. *)
Definition ne_mark_uncertain (e : NatsEngine) : NatsEngine :=
  let 'mk_NatsEngine s st mn dn ms ds ce c m a l d r t si _ _ := e in
  mk_NatsEngine s st mn dn ms ds ce c m a l d r t si true (Some tt).

Definition nats_check_authority (e : NatsEngine) : eff Server unit :=
  if ne_uncertain e then lift (fail FailureCondition_OwnershipRecordUnreadable) else
  meta ← read_meta_records_async (ne_meta_stream_name e);
  match outbound_pointer meta with
  | Some _ => lift (fail FailureCondition_RetiredMigrationSource)
  | None =>
      latest_claim ← lift (ok_or (latest_claim meta) unreadable);
      lift (if negb (epoch latest_claim =? ne_carried_epoch e)
            then fail FailureCondition_StaleEpoch else Ok tt)
  end.

(** [append_block] from the publication on. *)
Definition publish_block (block : bytes) (e : NatsEngine) :
    outcome OperationFailure (WriteLandingVerdict Z) * NatsEngine :=
  let m := mk_Publication (ne_data_subject e) (Some (last_data_seq e)) (ne_data_stream_name e)
             block in
  let undetermined := Ok (WriteLandingVerdict_Undetermined (ne_carried_epoch e)) in
  let '(r, s) := publish (Some (publish_timeout e)) m (server e) in
  let e := with_server s e in
  match r with
  | publish_refused err =>
      if is_wrong_last_sequence err
      then (fail FailureCondition_ConcurrencyConflict, ne_mark_uncertain e)
      else (fail FailureCondition_TransportUnavailable, e)
  | ack_failed err =>
      if is_wrong_last_sequence err
      then (fail FailureCondition_ConcurrencyConflict, ne_mark_uncertain e)
      else (undetermined, ne_mark_uncertain e)
  | ack_timed_out => (undetermined, ne_mark_uncertain e)
  | acked ack =>
      if bool_decide (ack_stream ack ≠ ne_data_stream_name e)
      then (undetermined, ne_mark_uncertain e)
      else (Ok (WriteLandingVerdict_Landed (ack_sequence ack)), with_landed (ack_sequence ack) e)
  end.

Definition diverged (c : FailureCondition) : bool :=
  bool_decide (c = FailureCondition_StaleEpoch) ||
  bool_decide (c = FailureCondition_RetiredMigrationSource).

Definition nats_append_block (block : bytes) (e : NatsEngine) :
    outcome OperationFailure (WriteLandingVerdict Z) * NatsEngine :=
  let '(authority, s) := nats_check_authority e (server e) in
  let e := with_server s e in
  match authority with
  | Err err => (Err err, if diverged (condition err) then ne_mark_uncertain e else e)
  | Panic => (Panic, e)
  | Ok _ =>
      if ne_simulate_indeterminate e
      then (Ok (WriteLandingVerdict_Undetermined (ne_carried_epoch e)), ne_mark_uncertain e) else
      if last_data_seq e =? u64_max then (fail (violated ValueConstraint_TooLong), e) else
      publish_block block e
  end.

(** A call on the server of an engine. *)
Definition on_server {A} (m : eff Server A) (e : NatsEngine) : outcome OperationFailure A * NatsEngine :=
  let '(r, s) := m (server e) in (r, with_server s e).

Definition nats_read_all (e : NatsEngine) : outcome OperationFailure (list bytes) * NatsEngine :=
  let e := ne_with_read_all_count (ne_read_all_count e + 1) e in
  on_server
    ('(_, frames, _, _) ← read_data_frames_async (ne_data_stream_name e); mret frames) e.

Definition nats_read_chunk (start_index max_items : Z) (e : NatsEngine) :
    outcome OperationFailure (list bytes) * NatsEngine :=
  if max_items =? 0 then (Ok [], e) else
  on_server (read_chunk_async (ne_data_stream_name e) start_index max_items None) e.

(** The [for] over one chunk of frames. *)
Fixpoint nats_feed {S} (on_frame : FrameRecoveryCallback S) (total : Z) (frames : list bytes)
    (s : S) : outcome OperationFailure Z * S :=
  match frames with
  | [] => (Ok total, s)
  | frame :: frames =>
      match on_frame total frame s with
      | (Ok _, s) =>
          match u64_add total 1 with
          | Ok total => nats_feed on_frame total frames s
          | Err err => (Err err, s)
          | Panic => (Panic, s)
          end
      | (Err err, s) => (Err err, s)
      | (Panic, s) => (Panic, s)
      end
  end.

(** The chunk of at most [chunk_step] frames at [current_seq]. *)
Definition chunk_end (current_seq chunk_step last : Z) : Z :=
  match u64_checked_add current_seq (saturating_sub chunk_step 1) with
  | Some e => Z.min e last
  | None => last
  end.

(** The loop of [recover_frames]; running out of fuel is [Panic]. *)
Fixpoint nats_recover_loop {S} (fuel : nat) (name : bytes) (chunk_step last : Z)
    (on_frame : FrameRecoveryCallback S) (current_seq total : Z) (sv : Server) (s : S) :
    outcome OperationFailure Z * Server * S :=
  match fuel with
  | O => (Panic, sv, s)
  | Datatypes.S fuel =>
      if last <? current_seq then (Ok total, sv, s) else
      let stop := chunk_end current_seq chunk_step last in
      match read_range_async name current_seq stop sv with
      | (Err err, sv) => (Err err, sv, s)
      | (Panic, sv) => (Panic, sv, s)
      | (Ok frames, sv) =>
          if negb (blen frames =? stop - current_seq + 1) then (fail broken, sv, s) else
          match nats_feed on_frame total frames s with
          | (Err err, s) => (Err err, sv, s)
          | (Panic, s) => (Panic, sv, s)
          | (Ok total, s) =>
              if (stop =? u64_max) || (last <=? stop) then (Ok total, sv, s) else
              nats_recover_loop fuel name chunk_step last on_frame (stop + 1) total sv s
          end
      end
  end.

Definition nats_recover_frames {S} (chunk_size : Z) (on_frame : FrameRecoveryCallback S)
    (e : NatsEngine) (s : S) : outcome OperationFailure Z * NatsEngine * S :=
  let name := ne_data_stream_name e in
  match on_server (open_data_stream name) e with
  | (Err err, e) => (Err err, e, s)
  | (Panic, e) => (Panic, e, s)
  | (Ok (_, info), e) =>
      let last := info_last_sequence info in
      match u64_checked_add (info_first_sequence info) 1 with
      | None => (Ok 0, with_last_data_seq last e, s)
      | Some data_start_seq =>
          if last <? data_start_seq then (Ok 0, with_last_data_seq last e, s) else
          let '(r, sv, s) :=
            nats_recover_loop (Z.to_nat (last - data_start_seq + 1)) name (Z.max chunk_size 1) last
              on_frame data_start_seq 0 (server e) s in
          let e := with_server sv e in
          match r with
          | Ok total => (Ok total, with_last_data_seq last e, s)
          | Err err => (Err err, e, s)
          | Panic => (Panic, e, s)
          end
      end
  end.

Definition nats_is_retired (e : NatsEngine) : eff Server bool :=
  meta ← read_meta_records_async (ne_meta_stream_name e);
  mret (bool_decide (is_Some (outbound_pointer meta))).

Definition nats_sync (e : NatsEngine) : outcome OperationFailure unit * NatsEngine :=
  match on_server (nats_check_authority e) e with
  | (Err err, e) => (Err err, e)
  | (Panic, e) => (Panic, e)
  | (Ok _, e) =>
      let '(flushed, s) := flush (server e) in
      let e := with_server s e in
      if flushed then (Ok tt, e) else (fail broken, ne_mark_uncertain e)
  end.

#[export] Instance NatsEngine_engine : StorageEngine NatsEngine := {
  engine_carried_epoch := ne_carried_epoch;
  engine_check_authority e := (nats_check_authority e (server e)).1;
  append_block := nats_append_block;
  engine_read_block := default_read_block nats_read_chunk;
  read_all := nats_read_all;
  read_chunk := nats_read_chunk;
  recover_frames := @nats_recover_frames;
  acquire_exclusion e := (Ok tt, e);
  release_exclusion e := (Ok tt, e);
  engine_is_retired e := (nats_is_retired e (server e)).1;
  engine_sync := nats_sync;
  engine_set_simulate_indeterminate := ne_set_simulate_indeterminate;
  engine_uncertain_diagnostic := ne_diagnostic;
  engine_claim := ne_claim;
  engine_admission := ne_admission;
  engine_schema_descriptor e := schema_descriptor (ne_meta_records e);
  engine_outbound_pointer e := outbound_pointer (ne_meta_records e);
  engine_inbound_pointer e := inbound_pointer (ne_meta_records e);
  engine_migration_start e := migration_start (ne_meta_records e);
  engine_migration_end e := migration_end (ne_meta_records e);
  engine_rescue_policy_choice e := rescue_policy_choice (ne_meta_records e);
}.
End engine.
