(* ===== verification/NatsQueries.v ===== *)
(** * Queries of a JetStream server: [src/crates/pardosa-nats/src/adapter.rs]

    The calls that only ask: whether a stream exists, what it holds, one of its
    messages. A server that was only asked may differ from what it was, but the
    difference is other clients' doing. [asking] says of an operation that it only
    asks; [JetStreamLaws] then lets streams only grow meanwhile. *)

From S2P Require Export NatsEngine.
From stdpp Require Export relations.

Create HintDb asking.

Section queries.
Context `{Digests, JetStream}.

Inductive query : Server → Server → Prop :=
  | query_stream name s : query s (get_stream name s).2
  | query_stream_info name s : query s (stream_info name s).2
  | query_message name seq s : query s (get_raw_message name seq s).2.

(** The states a client that only asks may find. *)
Definition queried : Server → Server → Prop := rtc query.

Lemma queried_trans s1 s s2 : queried s s1 → queried s1 s2 → queried s s2.
Proof. intros H1 H2. exact (rtc_trans _ _ _ H1 H2). Qed.

Definition asking {A} (m : eff Server A) : Prop := ∀ s, queried s (m s).2.

Lemma asking_ret {A} (a : A) : asking (mret a).
Proof. intros s. apply rtc_refl. Qed.
Lemma asking_lift {A} (o : outcome OperationFailure A) : asking (lift o).
Proof. intros s. apply rtc_refl. Qed.

Lemma asking_bind {A B} (m : eff Server A) (f : A → eff Server B) :
  asking m → (∀ a, asking (f a)) → asking (m ≫= f).
Proof.
  intros Hm Hf s. unfold mbind, eff_bind. specialize (Hm s).
  destruct (m s) as [[a|err|] s1]; [|done..]. by apply (queried_trans s1), Hf.
Qed.

Lemma asking_request {A E} (call : Server → (A + E) * Server) map :
  (∀ s, query s (call s).2) → asking (request call map).
Proof.
  intros Hc s. unfold request. specialize (Hc s). apply rtc_once in Hc.
  by destruct (call s) as [[] s'].
Qed.

Lemma asking_open_stream name : asking (open_stream name).
Proof. apply asking_request. intros s. apply query_stream. Qed.
Lemma asking_query_info name : asking (query_info name).
Proof. apply asking_request. intros s. apply query_stream_info. Qed.
Lemma asking_raw {map} name seq : asking (request (get_raw_message name seq) map).
Proof. apply asking_request. intros s. apply query_message. Qed.
Hint Resolve asking_ret asking_lift asking_open_stream asking_query_info asking_raw : asking.

Lemma asking_stream_exists name : asking (stream_exists name).
Proof.
  intros s. unfold stream_exists. pose proof (rtc_once _ _ (query_stream name s)) as Hq.
  destruct (get_stream name s) as [[[]|err] s']; [done|]. by destruct (bool_decide _).
Qed.
Hint Resolve asking_stream_exists : asking.

Ltac asking := repeat
  match goal with
  | |- asking (_ ≫= _) => apply asking_bind; [|intros ?]
  | |- asking (match ?x with _ => _ end) => destruct x
  | |- _ => progress unfold read_message
  | |- _ => solve [auto with asking]
  end.

Lemma asking_absorb_messages count name : ∀ seq records,
  asking (absorb_messages count name seq records).
Proof. induction count as [|count IH]; intros seq records; cbn [absorb_messages]; asking. Qed.
Lemma asking_read_data_frames count name : ∀ seq, asking (read_data_frames count name seq).
Proof.
  induction count as [|count IH]; intros seq; cbn [read_data_frames]; unfold read_data_frame; asking.
Qed.
Hint Resolve asking_absorb_messages asking_read_data_frames : asking.

Lemma asking_read_meta name : asking (read_meta_records_async name).
Proof.
  intros s. unfold read_meta_records_async. pose proof (rtc_once _ _ (query_stream name s)) as Hq.
  destruct (get_stream name s) as [[[]|err] s1]; [|by destruct (bool_decide _)].
  apply (queried_trans s1); [done|]. clear Hq. revert s1.
  change (asking (read_meta_stream name)). unfold read_meta_stream. asking.
Qed.
Hint Resolve asking_read_meta : asking.

Lemma asking_check_authority e : asking (nats_check_authority e).
Proof. unfold nats_check_authority. asking. Qed.

Lemma asking_open_data_stream name : asking (open_data_stream name).
Proof. unfold open_data_stream. asking. Qed.

Lemma asking_read_range name from to : asking (read_range_async name from to).
Proof. unfold read_range_async. asking. Qed.
End queries.

#[export] Hint Resolve asking_ret asking_lift asking_open_stream asking_query_info asking_raw
  asking_stream_exists asking_read_meta asking_open_data_stream : asking.

Ltac asking := repeat
  match goal with
  | |- asking (_ ≫= _) => apply asking_bind; [|intros ?]
  | |- asking (match ?x with _ => _ end) => destruct x
  | |- _ => progress unfold read_message
  | |- _ => solve [auto with asking]
  end.

(** ** What other clients do meanwhile *)

Section growth.
Context `{Digests, JetStreamLaws}.

Lemma query_grows s s' : query s s' → grows s s'.
Proof.
  intros [name s0|name s0|name seq s0].
  - destruct (get_stream name s0) eqn:Hr. by apply get_stream_law in Hr as [].
  - destruct (stream_info name s0) eqn:Hr. by apply stream_info_law in Hr as [].
  - destruct (get_raw_message name seq s0) eqn:Hr. by apply get_raw_message_law in Hr as [].
Qed.

Lemma queried_grows s s' : queried s s' → grows s s'.
Proof.
  induction 1 as [s|s s1 s' Hq _ IH]; [apply (grows_refl stream_at)|].
  apply (grows_trans _ _ s1); [by apply query_grows|done].
Qed.

Lemma asking_grows {A} (m : eff Server A) : asking m → ∀ s, grows s (m s).2.
Proof. intros Hm s. apply queried_grows, Hm. Qed.

(** Asking alone found [name] no longer to be [strm]: somebody else wrote. *)
Definition overtaken s name strm : Prop := ∃ s1, queried s s1 ∧ stream_at s1 name ≠ Some strm.

(** An operation that either fails having only asked, or whose asking found the
    stream changed. It acts on the server and on a state of its own. *)
Definition heeds {R A} name strm s (m : eff (Server * R) A) : Prop := ∀ x r s' x',
  m (s, x) = (r, (s', x')) → (is_ok r = false ∧ queried s s') ∨ overtaken s name strm.

Lemma overtaken_after s s1 name strm : queried s s1 → overtaken s1 name strm → overtaken s name strm.
Proof. intros Hq (s2&Hq2&Hn). exists s2. split; [by apply (queried_trans s1)|done]. Qed.

Lemma heeds_changed {R A} name strm s (m : eff (Server * R) A) :
  stream_at s name ≠ Some strm → heeds name strm s m.
Proof. intros Hn x r s' x' _. right. exists s. split; [apply rtc_refl|done]. Qed.

(** Rules to follow an operation that threads its own state. *)
Lemma heeds_after {R A} name strm s s1 (m : eff (Server * R) A) x r s' x' :
  queried s s1 → heeds name strm s1 m → m (s1, x) = (r, (s', x')) →
  (is_ok r = false ∧ queried s s') ∨ overtaken s name strm.
Proof.
  intros Hq Hm [[Hr Hq']|Ho]%Hm; [left|right; by apply (overtaken_after s s1)].
  split; [done|by apply (queried_trans s1)].
Qed.

Lemma heeds_lift_bind {R A B} name strm s (o : outcome OperationFailure A)
    (f : A → eff (Server * R) B) :
  (∀ a, o = Ok a → heeds name strm s (f a)) → heeds name strm s (lift o ≫= f).
Proof.
  intros Hf x r s' x'. unfold mbind, eff_bind, lift. destruct o as [a|err|]; [by apply Hf|..];
    intros [= <- <- _]; left; (split; [done|apply rtc_refl]).
Qed.

Lemma heeds_failed {R A} name strm s err : heeds (R:=R) (A:=A) name strm s (lift (Err err)).
Proof. intros x r s' x' [= <- <- _]. left. split; [done|apply rtc_refl]. Qed.
End growth.
