(* ===== verification/NatsLog.v ===== *)
(** * Appends under interference: [src/crates/pardosa-nats/src/adapter.rs]

    What optimistic concurrency control buys: other clients may write to the same
    streams at any time, and an engine still lands its frames one after the other
    behind what it recovered. Nothing is assumed but [JetStreamLaws]. *)

From S2P Require Export NatsQueries MemServer.

Section growing.
Context `{Digests, JetStreamLaws}.

(** ** Every call lets the streams only grow *)

Definition growing {A} (m : eff Server A) : Prop := ∀ s, grows s (m s).2.

Lemma growing_ret {A} (a : A) : growing (mret a).
Proof. intros s. apply (grows_refl stream_at). Qed.
Lemma growing_lift {A} (o : outcome OperationFailure A) : growing (lift o).
Proof. intros s. apply (grows_refl stream_at). Qed.

Lemma growing_bind {A B} (m : eff Server A) (f : A → eff Server B) :
  growing m → (∀ a, growing (f a)) → growing (m ≫= f).
Proof.
  intros Hm Hf s. unfold mbind, eff_bind. specialize (Hm s).
  destruct (m s) as [[a|err|] s1]; [|done..]. by apply (grows_trans _ _ s1), Hf.
Qed.

Lemma growing_request {A E} (call : Server → (A + E) * Server) map :
  (∀ s r s', call s = (r, s') → grows s s') → growing (request call map).
Proof.
  intros Hc s. unfold request. destruct (call s) as [[a|err] s'] eqn:Hr; by apply Hc in Hr.
Qed.

(** While an operation asks, others let the streams grow. *)
Lemma growing_asking {A} (m : eff Server A) : asking m → growing m.
Proof. intros Hm s. by apply asking_grows. Qed.

Lemma growing_absorb_messages count name seq records :
  growing (absorb_messages count name seq records).
Proof. apply growing_asking, asking_absorb_messages. Qed.
Lemma growing_read_data_frames count name seq : growing (read_data_frames count name seq).
Proof. apply growing_asking, asking_read_data_frames. Qed.
Lemma growing_read_meta name : growing (read_meta_records_async name).
Proof. apply growing_asking, asking_read_meta. Qed.
Lemma growing_check_authority e : growing (nats_check_authority e).
Proof. apply growing_asking, asking_check_authority. Qed.

(** ** Which failures the authority check reports *)

Definition never (c : FailureCondition) {A} (o : outcome OperationFailure A) : Prop :=
  ∀ err, o = Err err → condition err ≠ c.
Definition never_on (c : FailureCondition) {A} (m : eff Server A) : Prop := ∀ s, never c (m s).1.
Abbreviation conflict := FailureCondition_ConcurrencyConflict.

Lemma never_map_err {E A} c (f : E → OperationFailure) (o : outcome E A) :
  (∀ err, condition (f err) ≠ c) → never c (map_err f o).
Proof. intros Hf err. destruct o; [done| |done]. by intros [= <-]. Qed.
Lemma never_bind {A B} c (o : outcome OperationFailure A) (f : A → outcome OperationFailure B) :
  never c o → (∀ a, never c (f a)) → never c (o ≫= f).
Proof. intros Ho Hf err [?|(a&_&He)]%bind_Err; [by apply Ho|by apply (Hf a)]. Qed.
Lemma never_on_bind {A B} c (m : eff Server A) (f : A → eff Server B) :
  never_on c m → (∀ a, never_on c (f a)) → never_on c (m ≫= f).
Proof.
  intros Hm Hf s. unfold mbind, eff_bind. specialize (Hm s).
  destruct (m s) as [[a|err|] s1]; [apply Hf| |done].
  intros x [= <-]. by apply Hm.
Qed.
Lemma never_on_lift {A} c (o : outcome OperationFailure A) : never c o → never_on c (lift o).
Proof. by intros Ho s. Qed.
Lemma never_on_request {A E} c (call : Server → (A + E) * Server) map :
  (∀ err, condition (map err) ≠ c) → never_on c (request call map).
Proof. intros Hm s err. unfold request. destruct (call s) as [[]]; by intros [= <-]. Qed.

Ltac never := repeat
  match goal with
  | |- never _ (_ ≫= _) => apply never_bind; [|intros ?]
  | |- never_on _ (_ ≫= _) => apply never_on_bind; [|intros ?]
  | |- never_on _ (lift _) => apply never_on_lift
  | |- never_on _ (request _ _) => apply never_on_request
  | |- never _ (map_err _ _) => apply never_map_err
  | |- never _ (match ?x with _ => _ end) => destruct x
  | |- never_on _ (match ?x with _ => _ end) => destruct x
  | |- never _ _ => solve [by intros ? [=] | by intros ? [= <-]]
  | |- ∀ err, _ ≠ _ => intros []
  | |- condition _ ≠ _ => by repeat match goal with c : ErrorCode |- _ => destruct c end
  end.

Lemma never_absorb_record records r : never conflict (absorb_record records r).
Proof. unfold absorb_record. destruct records. never. Qed.
Lemma never_absorb_message records seq raw : never conflict (absorb_message records seq raw).
Proof. unfold absorb_message. never; apply never_absorb_record. Qed.
Lemma never_absorb_messages count name : ∀ seq records,
  never_on conflict (absorb_messages count name seq records).
Proof.
  induction count as [|count IH]; intros seq records; cbn [absorb_messages]; [by intros s err|].
  never; [apply never_absorb_message|apply IH].
Qed.

Lemma never_read_meta name : never_on conflict (read_meta_records_async name).
Proof.
  intros s. unfold read_meta_records_async. destruct (get_stream name s) as [[[]|err] s1].
  - revert s1. change (never_on conflict (read_meta_stream name)). unfold read_meta_stream, query_info.
    never. apply never_absorb_messages.
  - destruct (bool_decide _); intros x; [done|]. intros [= <-].
    destruct err as [[]|]; discriminate.
Qed.

Lemma authority_errors e : never_on conflict (nats_check_authority e).
Proof.
  unfold nats_check_authority. never; [apply never_read_meta|].
  destruct (latest_claim _); [by intros ? [=]|by intros ? [= <-]].
Qed.

(** ** Appends *)

Implicit Types (e : NatsEngine) (ms ls : list bytes) (block : bytes).

(** What a call on the server or a change of state leaves. *)
Definition identity e :=
  (ne_meta_stream_name e, ne_data_stream_name e, ne_data_subject e, ne_carried_epoch e).

(** The messages of a stream start with [ms]; nothing is missing from it and it
    has one subject. *)
Definition starts_with (s : Server) (name subject : bytes) ms : Prop :=
  ∃ st rest, stream_at s name = Some st ∧ whole st ∧
    st_subjects st = [subject] ∧ st_messages st = (Some <$> ms) ++ rest.

Lemma starts_with_grows s s' name subject ms :
  grows s s' → starts_with s name subject ms → starts_with s' name subject ms.
Proof.
  intros Hg (st&rest&Hst&Hw&Hs&Hm).
  destruct (grows_stream _ _ _ _ _ Hg Hst) as (st'&Hst'&Hgr). exists st'.
  pose proof (grown_whole _ _ Hgr Hw) as Hw'. destruct Hgr as (Hs'&_&more&Hm').
  exists (rest ++ (Some <$> more)). split; [done|]. split; [done|].
  split; [congruence|]. by rewrite Hm', Hm, app_assoc.
Qed.

(** The engine counts on the messages the stream starts with. *)
Definition follows_log e ms : Prop :=
  last_data_seq e = blen ms ∧
  starts_with (server e) (ne_data_stream_name e) (ne_data_subject e) ms.

Lemma follows_log_grows e e' ms :
  follows_log e ms → identity e' = identity e → last_data_seq e' = last_data_seq e →
  grows (server e) (server e') → follows_log e' ms.
Proof.
  intros (Hl&Hst) [= Hmn Hdn Hds Hce] Hl' Hg. split; [congruence|]. rewrite Hdn, Hds.
  by apply (starts_with_grows (server e)).
Qed.

(** An acknowledged message stands behind those its publisher expects. *)
Lemma acked_extends s s' name subject ms timeout p ack :
  starts_with s name subject ms →
  publish timeout (mk_Publication subject (Some (blen ms)) name p) s = (acked ack, s') →
  ack_stream ack = name ∧ ack_sequence ack = blen (ms ++ [p]) ∧
  starts_with s' name subject (ms ++ [p]).
Proof.
  intros (st&rest&Hst&Hw&Hs&Hm) Hp. apply publish_law in Hp as [Hg Hack].
  destruct (Hack ack eq_refl) as (Hn&st'&Hst'&Hmsg&Hlt&Hseq). cbn in Hn, Hmsg, Hseq.
  rewrite Hn in Hst', Hlt. destruct (grows_stream _ _ _ _ _ Hg Hst) as (st''&Hst''&Hgr).
  rewrite Hst' in Hst''. injection Hst'' as <-.
  pose proof (grown_whole _ _ Hgr Hw) as Hw'. destruct Hgr as (Hs'&_&more&Hm').
  assert (ack_sequence ack = blen ms + 1) as Ha by (apply Hseq; [done|done|congruence]).
  split; [done|]. split; [by rewrite blen_app, Ha|].
  specialize (Hlt st Hst). rewrite last_sequence_whole, Ha, Hm, blen_app in Hlt by done.
  assert (rest = []) as ->.
  { destruct rest; [done|]. rewrite blen_cons in Hlt. pose proof (blen_nonneg rest).
    unfold blen in *. rewrite length_fmap in Hlt. lia. }
  rewrite app_nil_r in Hm. exists st'. unfold message in Hmsg. destruct Hw' as [Hf Hall].
  rewrite Hf, Ha, Hm', Hm in Hmsg. pose proof (blen_nonneg ms).
  destruct (_ <? 1) eqn:Hlt'; [lia|].
  rewrite lookup_app_r in Hmsg by (rewrite length_fmap; unfold blen in *; lia).
  rewrite length_fmap in Hmsg.
  replace (Z.to_nat _ - length ms)%nat with 0%nat in Hmsg by (unfold blen; lia).
  destruct more as [|m more]; [done|]. cbn in Hmsg. injection Hmsg as ->.
  exists (Some <$> more). split; [done|]. split; [done|]. split; [congruence|].
  rewrite Hm', Hm, fmap_app. cbn. by rewrite <-app_assoc.
Qed.

(** Fields after the setters. *)
Lemma with_server_fields s e :
  server (with_server s e) = s ∧ identity (with_server s e) = identity e ∧
  last_data_seq (with_server s e) = last_data_seq e ∧
  ne_uncertain (with_server s e) = ne_uncertain e.
Proof. by destruct e. Qed.
Lemma ne_mark_uncertain_fields e :
  server (ne_mark_uncertain e) = server e ∧ identity (ne_mark_uncertain e) = identity e ∧
  last_data_seq (ne_mark_uncertain e) = last_data_seq e ∧ ne_uncertain (ne_mark_uncertain e) = true.
Proof. by destruct e. Qed.
Lemma with_landed_fields n e :
  server (with_landed n e) = server e ∧ identity (with_landed n e) = identity e ∧
  last_data_seq (with_landed n e) = n ∧ ne_uncertain (with_landed n e) = ne_uncertain e.
Proof. by destruct e. Qed.

Lemma publish_block_grows block e r e' :
  publish_block block e = (r, e') → grows (server e) (server e').
Proof.
  unfold publish_block. destruct (publish _ _ _) as [o s] eqn:Hp.
  apply publish_law in Hp as [Hg _]. intros Hr.
  assert (server e' = s) as ->; [|done]. destruct (with_server_fields s e) as (F&_). revert Hr F.
  generalize (with_server s e). intros e1 Hr <-.
  destruct (ne_mark_uncertain_fields e1) as (G&_).
  destruct o as [err|ack|err|]; [destruct (is_wrong_last_sequence err)|case_bool_decide|
    destruct (is_wrong_last_sequence err)|]; injection Hr as _ <-; try done.
  by destruct (with_landed_fields (ack_sequence ack) e1).
Qed.

(** What an append leaves: where it lands, whether the engine stops. *)
Definition append_result e ms block (r : outcome OperationFailure (WriteLandingVerdict Z)) e' :
    Prop :=
  match r with
  | Ok (WriteLandingVerdict_Landed seq) =>
      seq = blen ms + 1 ∧ ne_uncertain e = false ∧ ne_uncertain e' = false ∧
      follows_log e' (ms ++ [block])
  | Ok (WriteLandingVerdict_Undetermined c) =>
      c = ne_carried_epoch e ∧ ne_uncertain e' = true ∧ follows_log e' ms
  | Err err =>
      follows_log e' ms ∧
      ne_uncertain e' =
        (ne_uncertain e || diverged (condition err) ||
         bool_decide (condition err = FailureCondition_ConcurrencyConflict))
  | Panic => follows_log e' ms ∧ ne_uncertain e' = ne_uncertain e
  end.

Lemma publish_block_result e ms block r e' :
  follows_log e ms → ne_uncertain e = false → publish_block block e = (r, e') →
  identity e' = identity e ∧ grows (server e) (server e') ∧ append_result e ms block r e'.
Proof.
  intros Hl Hu. unfold publish_block.
  destruct (publish _ _ _) as [o s'] eqn:Hp. destruct (with_server_fields s' e) as (F1&F2&F3&F4).
  set (e1 := with_server s' e) in *.
  assert (grows (server e) s') as Hg by by apply publish_law in Hp as [].
  assert (follows_log e1 ms) as Hl1 by (apply (follows_log_grows e); rewrite ?F1; done).
  destruct (ne_mark_uncertain_fields e1) as (G1&G2&G3&G4).
  assert (follows_log (ne_mark_uncertain e1) ms) as Hl2
    by (apply (follows_log_grows e1); rewrite ?G1; try done; apply (grows_refl stream_at)).
  assert (ne_carried_epoch e1 = ne_carried_epoch e) as Hc by (injection F2; congruence).
  assert (ne_data_stream_name e1 = ne_data_stream_name e) as Hd by (injection F2; congruence).
  destruct o as [err|ack|err|].
  - destruct (is_wrong_last_sequence err); intros [= <- <-]; simpl;
      rewrite ?G1, ?G2, ?F1, ?F4, ?Hu, ?G4; done.
  - pose proof Hl as [Hseq Hstarts]. rewrite Hseq in Hp.
    destruct (acked_extends _ _ _ _ _ _ _ _ Hstarts Hp) as (Hn&Hq&Hst).
    rewrite bool_decide_eq_false_2 by congruence. intros [= <- <-].
    destruct (with_landed_fields (ack_sequence ack) e1) as (W1&W2&W3&W4).
    rewrite W1, F1, W2, F2. split; [done|]. split; [done|]. simpl. rewrite W4, F4.
    rewrite blen_app in Hq. split; [done|]. split; [done|]. split; [done|].
    split; [by rewrite W3, Hq, blen_app|]. injection W2 as _ W2 W2' _. injection F2 as _ F2 F2' _.
    by rewrite W1, F1, W2, W2', F2, F2'.
  - destruct (is_wrong_last_sequence err); intros [= <- <-]; simpl;
      rewrite ?G1, ?G2, ?F1, ?F4, ?Hu, ?G4; done.
  - intros [= <- <-]; simpl; rewrite ?G1, ?G2, ?F1, ?F4, ?Hu, ?G4; done.
Qed.

Lemma append_block_result e ms block r e' :
  follows_log e ms → nats_append_block block e = (r, e') →
  identity e' = identity e ∧ grows (server e) (server e') ∧ append_result e ms block r e'.
Proof.
  intros Hl. unfold nats_append_block. pose proof (growing_check_authority e (server e)) as Hg.
  destruct (nats_check_authority e (server e)) as [a s1] eqn:Ha. cbn [snd] in Hg.
  destruct (with_server_fields s1 e) as (F1&F2&F3&F4). set (e1 := with_server s1 e) in *.
  assert (follows_log e1 ms) as Hl1 by (apply (follows_log_grows e); rewrite ?F1; done).
  destruct (ne_mark_uncertain_fields e1) as (G1&G2&G3&G4).
  assert (follows_log (ne_mark_uncertain e1) ms) as Hl2
    by (apply (follows_log_grows e1); rewrite ?G1; try done; apply (grows_refl stream_at)).
  destruct a as [[]|err|]; [..|by intros [= <- <-]; simpl; rewrite F1, F2, F4].
  - assert (ne_uncertain e = false) as Hu.
    { unfold nats_check_authority in Ha. by destruct (ne_uncertain e). }
    destruct (ne_simulate_indeterminate e1).
    { intros [= <- <-]. simpl. rewrite G1, G2, F1, F2, G4. injection F2 as _ _ _ ->. done. }
    destruct (last_data_seq e1 =? u64_max).
    { intros [= <- <-]. simpl. by rewrite F1, F2, F4, Hu. }
    intros Hp. destruct (publish_block_result e1 ms block r e' Hl1) as (I&G&R); [congruence|done|].
    split; [congruence|]. split; [rewrite F1 in G; by apply (grows_trans _ _ s1)|].
    unfold append_result in *. rewrite F4 in R. destruct r as [[]| |]; try done.
    injection F2 as _ _ _ <-. done.
  - pose proof (authority_errors e (server e) err) as Hc. rewrite Ha in Hc. specialize (Hc eq_refl).
    destruct (diverged (condition err)) eqn:Hd; intros [= <- <-]; unfold append_result;
      rewrite ?Hd, (bool_decide_eq_false_2 (condition err = conflict)) by done;
      rewrite ?G1, ?G2, ?F1, ?F2; (split; [done|]); (split; [done|]); (split; [done|]).
    + by rewrite G4, orb_true_r.
    + by rewrite F4, !orb_false_r.
Qed.
(** ** Runs *)

(** A run of appends, with what others do to the server in between; the list is
    what was reported landed. *)
Inductive appends : NatsEngine → list bytes → NatsEngine → Prop :=
  | appends_done e : appends e [] e
  | appends_others e s ls e' :
      grows (server e) s → appends (with_server s e) ls e' → appends e ls e'
  | appends_landed e block seq e1 ls e' :
      nats_append_block block e = (Ok (WriteLandingVerdict_Landed seq), e1) →
      appends e1 ls e' → appends e (block :: ls) e'
  | appends_not_landed e block r e1 ls e' :
      nats_append_block block e = (r, e1) → (∀ seq, r ≠ Ok (WriteLandingVerdict_Landed seq)) →
      appends e1 ls e' → appends e ls e'.

Lemma others_act e s ms :
  follows_log e ms → grows (server e) s →
  follows_log (with_server s e) ms ∧ identity (with_server s e) = identity e ∧
  server (with_server s e) = s ∧ ne_uncertain (with_server s e) = ne_uncertain e.
Proof.
  intros Hl Hg. destruct (with_server_fields s e) as (F1&F2&F3&F4).
  split; [apply (follows_log_grows e); rewrite ?F1; done|done].
Qed.

Lemma append_result_uncertain e ms block r e' :
  append_result e ms block r e' → ne_uncertain e = true → ne_uncertain e' = true.
Proof.
  intros Hr Hu. destruct r as [[]| |]; simpl in Hr; rewrite ?Hu in *; [|tauto..].
  by destruct Hr as (_&?&_).
Qed.

Lemma append_result_not_landed e ms block r e' :
  append_result e ms block r e' → (∀ seq, r ≠ Ok (WriteLandingVerdict_Landed seq)) →
  follows_log e' ms.
Proof. intros Hr Hn. destruct r as [[]| |]; simpl in Hr; [by destruct (Hn value)|tauto..]. Qed.

Lemma appends_follow e ls e' : appends e ls e' → ∀ ms, follows_log e ms →
  follows_log e' (ms ++ ls) ∧ identity e' = identity e ∧ grows (server e) (server e') ∧
  (ne_uncertain e = true → ls = [] ∧ ne_uncertain e' = true).
Proof.
  induction 1 as [e|e s ls e' Hg _ IH|e block seq e1 ls e' Ha _ IH|e block r e1 ls e' Ha Hn _ IH];
    intros ms Hl.
  - rewrite app_nil_r. split; [done|]. split; [done|]. split; [apply (grows_refl stream_at)|done].
  - destruct (others_act _ _ _ Hl Hg) as (Hl'&Hi&Hs&Hu). destruct (IH _ Hl') as (?&?&Hg'&Hu').
    rewrite Hs in Hg'. rewrite Hu in Hu'. split; [done|]. split; [congruence|].
    split; [by apply (grows_trans _ _ s)|done].
  - destruct (append_block_result _ _ _ _ _ Hl Ha) as (Hi&Hg&_&Hu&_&Hl1).
    destruct (IH _ Hl1) as (?&?&Hg'&_). rewrite <-app_assoc in *. split; [done|].
    split; [congruence|]. split; [by apply (grows_trans _ _ (server e1))|congruence].
  - destruct (append_block_result _ _ _ _ _ Hl Ha) as (Hi&Hg&Hr).
    pose proof (append_result_not_landed _ _ _ _ _ Hr Hn) as Hl1.
    destruct (IH _ Hl1) as (?&?&Hg'&Hu'). split; [done|]. split; [congruence|].
    split; [by apply (grows_trans _ _ (server e1))|].
    intros Hu. apply Hu'. by apply (append_result_uncertain _ _ _ _ _ Hr).
Qed.

(** Somebody else wrote behind what the engine counts on. *)
Definition overtaken e : Prop := ∃ st, stream_at (server e) (ne_data_stream_name e) = Some st ∧
  whole st ∧ st_subjects st = [ne_data_subject e] ∧ last_data_seq e < last_sequence st.

Lemma overtaken_grows e e' :
  overtaken e → identity e' = identity e → last_data_seq e' = last_data_seq e →
  grows (server e) (server e') → overtaken e'.
Proof.
  intros (st&Hst&Hw&Hs&Hlt) [= Hmn Hdn Hds Hce] Hl Hg. unfold overtaken. rewrite Hdn, Hds, Hl.
  destruct (grows_stream _ _ _ _ _ Hg Hst) as (st'&Hst'&Hgr). exists st'.
  pose proof (grown_last _ _ Hgr). pose proof (grown_whole _ _ Hgr Hw).
  destruct Hgr as (Hs'&_). split; [done|]. split; [done|]. split; [congruence|lia].
Qed.

Lemma overtaken_not_landed e block seq e' :
  overtaken e → nats_append_block block e ≠ (Ok (WriteLandingVerdict_Landed seq), e').
Proof.
  intros Ho Ha. unfold nats_append_block in Ha.
  pose proof (growing_check_authority e (server e)) as Hg.
  destruct (nats_check_authority e (server e)) as [a s1]. cbn [snd] in Hg.
  destruct (with_server_fields s1 e) as (F1&F2&F3&F4). set (e1 := with_server s1 e) in *.
  assert (overtaken e1) as (st&Hst&Hw&Hs&Hlt)
    by (apply (overtaken_grows e); rewrite ?F1; done).
  destruct a as [[]| |]; [|done..]. destruct (ne_simulate_indeterminate e1); [done|].
  destruct (last_data_seq e1 =? u64_max); [done|]. unfold publish_block in Ha.
  destruct (publish _ _ _) as [o s2] eqn:Hp. destruct o as [err|ack|err|];
    [by destruct (is_wrong_last_sequence err)| |by destruct (is_wrong_last_sequence err)|done].
  apply publish_law in Hp as [Hg2 Hack].
  destruct (Hack ack eq_refl) as (Hn&st'&Hst'&_&Hl&Hq). cbn in Hn, Hq. rewrite Hn in Hst', Hl.
  destruct (grows_stream _ _ _ _ _ Hg2 Hst) as (st''&Hst''&Hgr).
  rewrite Hst' in Hst''. injection Hst'' as <-. specialize (Hl st Hst).
  rewrite (Hq _ eq_refl) in Hl; [lia| |].
  - by eapply grown_whole.
  - destruct Hgr as (Hs'&_). congruence.
Qed.

Lemma overtaken_never_lands e ls e' : appends e ls e' → ∀ ms,
  follows_log e ms → overtaken e → ls = [].
Proof.
  induction 1 as [e|e s ls e' Hg _ IH|e block seq e1 ls e' Ha _ IH|e block r e1 ls e' Ha Hn _ IH];
    intros ms Hl Ho; [done|..].
  - destruct (others_act _ _ _ Hl Hg) as (Hl'&Hi&Hs&_). apply (IH ms Hl').
    apply (overtaken_grows e); [done..|by destruct e|by rewrite Hs].
  - by apply overtaken_not_landed in Ha.
  - destruct (append_block_result _ _ _ _ _ Hl Ha) as (Hi&Hg&Hr).
    pose proof (append_result_not_landed _ _ _ _ _ Hr Hn) as Hl1. apply (IH ms Hl1).
    apply (overtaken_grows e); try done. by rewrite (proj1 Hl1), (proj1 Hl).
Qed.
End growing.

Section properties.
Context `{Digests, JetStreamLaws}.

(** C4: Appends to a stream land one behind the other whatever other clients do.
    Let an engine count on the messages [ms] at the head of its stream and append
    any blocks, with other clients writing anything in between: the stream then
    starts with [ms] and the blocks reported landed, in order and with nothing
    between them, and the engine counts on exactly those. One that became
    uncertain lands nothing more and stays uncertain. *)
Theorem nats_appends_contiguous e ms ls e' :
  follows_log e ms → appends e ls e' →
  follows_log e' (ms ++ ls) ∧ grows (server e) (server e') ∧
  (ne_uncertain e = true → ls = [] ∧ ne_uncertain e' = true).
Proof. intros Hl Ha. by destruct (appends_follow e ls e' Ha ms Hl) as (?&_&?&?). Qed.

(** C12: Of two writers that recovered the same log only one can write. Once one
    has landed a frame, nothing the other appends lands, whatever else happens to
    the server. *)
Theorem one_writer_lands e1 e2 ms block ls e1' s' ls2 e2' :
  follows_log e1 ms → follows_log e2 ms → ne_data_stream_name e2 = ne_data_stream_name e1 →
  appends e1 (block :: ls) e1' → grows (server e1') s' → grows (server e2) s' →
  appends (with_server s' e2) ls2 e2' → ls2 = [].
Proof.
  intros Hf1 Hf2 Hn Ha Hg1 Hg2 Ha2. destruct (appends_follow _ _ _ Ha _ Hf1) as ((_&Hf)&Hi&_).
  destruct (others_act _ _ _ Hf2 Hg2) as (Hl2&Hi2&Hs2&_).
  apply (overtaken_never_lands _ _ _ Ha2 ms Hl2).
  destruct Hf as (st&rest&Hst&Hw&_&Hm). injection Hi as _ Hd _ _. injection Hi2 as _ Hd2 Hj2 _.
  destruct (grows_stream _ _ _ _ _ Hg1 Hst) as (st'&Hst'&Hgr).
  destruct Hl2 as (Hq&st2&rest2&Hst2&Hw2&Hs&_). unfold overtaken. rewrite Hs2, Hd2 in *.
  assert (st2 = st') as -> by congruence. exists st'. split; [done|]. split; [done|].
  split; [done|]. rewrite Hq. pose proof (grown_last _ _ Hgr) as Hlast.
  rewrite (last_sequence_whole st), Hm, blen_app in Hlast by done.
  unfold blen in *. rewrite length_fmap, length_app in Hlast. simpl in Hlast. lia.
Qed.
End properties.
