(* ===== verification/NatsSession.v ===== *)
(** * Sessions on JetStream: [src/crates/pardosa-nats/src/adapter.rs]

    What the reads of the engine return, what a recovery leaves, and the engine as
    a driver of the pipeline. Other clients may write to every stream at any
    time. *)

From S2P Require Export NatsLog.

(** The plain [+= 1] of the loop counts as the saturating one of the pipeline. *)
Lemma nats_feed_feed {S} (cb : FrameRecoveryCallback S) frames : ∀ total s,
  0 ≤ total → total + blen frames ≤ u64_max →
  nats_feed cb total frames s = feed cb total frames s.
Proof.
  induction frames as [|f frames IH]; intros total s Hz Hb; [done|]. rewrite blen_cons in Hb.
  pose proof (blen_nonneg frames). cbn [nats_feed feed].
  destruct (cb total f s) as [[u|err|] s1]; [|done..]. unfold u64_add, u64_saturating_add.
  destruct (total + 1 <=? u64_max) eqn:?; [|lia]. rewrite Z.min_l by lia. apply IH; lia.
Qed.

Section reading.
Context `{Digests, !DigestLaws, JetStreamLaws}.
Implicit Types (ps : list bytes) (name : bytes).

(** From [seq] on the stream holds the frames of [ps]. *)
Definition frames_at s name (seq : Z) ps : Prop := ∀ i p, ps !! i = Some p →
  frame_wf p ∧ ∃ st, stream_at s name = Some st ∧
    message st (seq + Z.of_nat i) = Some (frame_image p).

Lemma frames_at_nil s name seq : frames_at s name seq [].
Proof. by intros i p. Qed.

Lemma frames_at_grows s s' name seq ps :
  grows s s' → frames_at s name seq ps → frames_at s' name seq ps.
Proof.
  intros Hg Hf i p Hp. destruct (Hf i p Hp) as (Hw&st&Hst&Hm). split; [done|].
  destruct (grows_stream _ _ _ _ _ Hg Hst) as (st'&?&?). exists st'. split; [done|].
  by apply (grown_message st).
Qed.

Lemma frames_at_app s name seq ps1 ps2 :
  frames_at s name seq ps1 → frames_at s name (seq + blen ps1) ps2 →
  frames_at s name seq (ps1 ++ ps2).
Proof.
  intros Q1 Q2 i p Hp. apply lookup_app_Some in Hp as [Hp|[Hi Hp]]; [by apply Q1|].
  destruct (Q2 _ _ Hp) as (Hw&st&Hst&Hm). split; [done|]. exists st. split; [done|].
  rewrite <-Hm. f_equal. unfold blen. lia.
Qed.

Lemma frames_at_cons s name seq p ps :
  frames_at s name seq [p] → frames_at s name (seq + 1) ps → frames_at s name seq (p :: ps).
Proof. intros Q1 Q2. by apply (frames_at_app _ _ _ [p]). Qed.

Lemma ContainerHeader_total buf : blen buf ≤ isize_max → ContainerHeader_decode buf ≠ Panic.
Proof. intros Hb. unfold ContainerHeader_decode. no_panic. Qed.

Lemma whole_image {A} (wf : A → Prop) enc dec (L : codec_laws wf enc dec) buf a :
  dec buf = Ok (a, blen buf) → wf a ∧ buf = enc a.
Proof.
  intros Hd. destruct (codec_sound L _ _ _ Hd) as (Hw&_&He). split; [done|].
  rewrite <-He, take_ge; [done|]. unfold blen. lia.
Qed.

Lemma read_data_frame_spec name seq s r s' :
  read_data_frame name seq s = (r, s') →
  r ≠ Panic ∧ ∀ x, r = Ok x → frames_at s' name seq [x.2].
Proof.
  unfold read_data_frame, read_message, request, mbind, eff_bind, lift.
  destruct (get_raw_message name seq s) as [[raw|err] s1] eqn:Hm; [|by intros [= <- <-]].
  apply get_raw_message_law in Hm as [_ Hm]. destruct (Hm raw eq_refl) as (Hb&st&Hst&Hmsg).
  pose proof (codec_total ContainerFrame_codec raw Hb) as Ht.
  destruct (ContainerFrame_decode raw) as [[p n]|err|] eqn:Hd; [|by intros [= <- <-]|done].
  cbn [map_err]. destruct (n =? blen raw) eqn:Hn; cbn [negb]; [|by intros [= <- <-]].
  intros [= <- <-]. split; [done|]. intros x [= <-]. cbn [snd].
  apply Z.eqb_eq in Hn. rewrite Hn in Hd.
  apply (whole_image _ _ _ ContainerFrame_codec) in Hd as [Hw ->].
  intros [|i] q Hq; [|done]. injection Hq as <-. split; [done|]. exists st. split; [done|].
  by rewrite Z.add_0_r.
Qed.

Lemma read_data_frames_spec count name : ∀ seq s r s',
  read_data_frames count name seq s = (r, s') →
  r ≠ Panic ∧ ∀ l, r = Ok l → frames_at s' name seq l.*2 ∧ length l = count.
Proof.
  induction count as [|count IH]; intros seq s r s' Hr; cbn [read_data_frames] in Hr.
  { injection Hr as <- <-. split; [done|]. intros l [= <-]. split; [apply frames_at_nil|done]. }
  unfold mbind, eff_bind in Hr. destruct (read_data_frame name seq s) as [r1 s1] eqn:Q1.
  apply read_data_frame_spec in Q1 as [Hp1 Hf1]. destruct r1 as [x|err|]; [|by injection Hr as <- <-|done].
  pose proof (growing_read_data_frames count name (seq + 1) s1) as Hg.
  destruct (read_data_frames count name (seq + 1) s1) as [r2 s2] eqn:Q2.
  apply IH in Q2 as [Hp2 Hf2]. destruct r2 as [l|err|]; [|by injection Hr as <- <-|done].
  injection Hr as <- <-. split; [done|]. intros l' [= <-].
  destruct (Hf2 l eq_refl) as [Hf Hlen]. split; [|by simpl; rewrite Hlen].
  cbn. apply frames_at_cons; [|done]. apply (frames_at_grows s1); [done|]. by apply Hf1.
Qed.

Lemma read_range_spec name from to s r s' :
  from ≤ to → read_range_async name from to s = (r, s') →
  r ≠ Panic ∧ ∀ ps, r = Ok ps → frames_at s' name from ps ∧ blen ps = to - from + 1.
Proof.
  unfold read_range_async. intros Hle. destruct (to <? from) eqn:?; [lia|].
  unfold open_stream, request, mbind, eff_bind.
  destruct (get_stream name s) as [[u|err] s1]; [|by intros [= <- <-]].
  destruct (read_data_frames _ name from s1) as [r2 s2] eqn:Hr.
  apply read_data_frames_spec in Hr as [Hp Hf].
  destruct r2 as [l|err|]; intros [= <- <-]; [|done..]. split; [done|]. intros ps [= <-].
  destruct (Hf l eq_refl) as [Hfr Hlen]. split; [done|].
  unfold blen. rewrite length_fmap, Hlen. lia.
Qed.

Lemma growing_read_range name from to : growing (read_range_async name from to).
Proof. apply growing_asking, asking_read_range. Qed.

(** A stream that opened has the container header at its head. *)
Lemma open_data_stream_spec name s r s' :
  open_data_stream name s = (r, s') →
  grows s s' ∧ r ≠ Panic ∧
  ∀ h info, r = Ok (h, info) →
    info_first_sequence info = 1 ∧ 1 ≤ info_last_sequence info ≤ u64_max ∧ ∃ s1 st, grows s s1 ∧ grows s1 s' ∧
    stream_at s1 name = Some st ∧ info = info_of st ∧
    ∃ st', stream_at s' name = Some st' ∧ message st' 1 = Some (to_bytes ContainerHeader_new).
Proof.
  unfold open_data_stream, open_stream, query_info, read_message, request, mbind, eff_bind, lift.
  destruct (get_stream name s) as [[u|err] s1] eqn:Q1; apply get_stream_law in Q1 as [Hg1 _];
    [|by intros [= <- <-]].
  destruct (stream_info name s1) as [[info|err] s2] eqn:Q2; apply stream_info_law in Q2 as [Hg2 Hi];
    pose proof (grows_trans _ _ _ _ Hg1 Hg2) as Hg12; [|by intros [= <- <-]].
  destruct (Hi info eq_refl) as (st&Hst&->). cbn [info_messages info_first_sequence info_of].
  destruct (blen _ =? 0) eqn:Hne; [by intros [= <- <-]|]. destruct (1 <? st_first st) eqn:Hf; [by intros [= <- <-]|].
  pose proof (stream_wf _ _ _ Hst) as [Hw Hlast]. assert (st_first st = 1) as Hf1 by lia. rewrite Hf1.
  destruct (get_raw_message name 1 s2) as [[raw|err] s3] eqn:Q3;
    apply get_raw_message_law in Q3 as [Hg3 Hm];
    pose proof (grows_trans _ _ _ _ Hg12 Hg3) as Hg; [|by intros [= <- <-]].
  destruct (Hm raw eq_refl) as (Hb&st'&Hst'&Hmsg).
  destruct (ContainerHeader_decode raw) as [[h n]|err|] eqn:Hd; cbn [map_err]; [|by intros [= <- <-]|].
  2: { by apply ContainerHeader_total in Hd. }
  destruct (n =? blen raw) eqn:Hn; cbn [negb]; intros [= <- <-]; [|done].
  split; [done|]. split; [done|]. intros h' info' [= <- <-]. split; [done|].
  assert (1 ≤ last_sequence st) as Hl1.
  { unfold last_sequence. rewrite Hf1. destruct (st_messages st); [done|].
    rewrite blen_cons. pose proof (blen_nonneg l). lia. }
  split; [done|].
  exists s2, st. split; [done|]. split; [done|]. split; [done|]. split; [done|].
  exists st'. split; [done|]. rewrite Hmsg. f_equal.
  apply Z.eqb_eq in Hn. apply ContainerHeader_decode_sound in Hd as (_&Hn12&_&<-).
  rewrite take_ge; [done|]. unfold blen in *. lia.
Qed.

(** ** Recovery *)

Lemma chunk_end_bounds cur step last :
  0 ≤ cur ≤ last → last ≤ u64_max → 1 ≤ step → cur ≤ chunk_end cur step last ≤ last.
Proof.
  unfold chunk_end, u64_checked_add, saturating_sub. intros Hc Hl Hs.
  destruct (_ <=? u64_max) eqn:?; lia.
Qed.

(** What a recovery fed: frames of the stream in order, up to a failed read or
    the callback's own failure. *)
Definition fed {S} name (cb : FrameRecoveryCallback S) (seq total count : Z) (s : S)
    (r : outcome OperationFailure Z) (sv' : Server) (s' : S) : Prop :=
  ∃ ps, frames_at sv' name seq ps ∧ blen ps ≤ count ∧
    ((r, s') = feed cb total ps s ∧ (is_ok r = true → blen ps = count) ∨
     ∃ n err, feed cb total ps s = (Ok n, s') ∧ r = Err err).

Lemma fed_nothing {S} name (cb : FrameRecoveryCallback S) seq total count s err sv' :
  0 ≤ count → fed name cb seq total count s (Err err) sv' s.
Proof.
  intros Hc. exists []. split; [apply frames_at_nil|]. split; [done|]. right. by exists total, err.
Qed.

Lemma fed_chunk {S} name (cb : FrameRecoveryCallback S) seq total count ps s n s1 sv1 sv' r s' :
  frames_at sv1 name seq ps → grows sv1 sv' → feed cb total ps s = (Ok n, s1) →
  fed name cb (seq + blen ps) n (count - blen ps) s1 r sv' s' →
  fed name cb seq total count s r sv' s'.
Proof.
  intros Hf Hg Hok (ps2&Hf2&Hb&Hr). exists (ps ++ ps2). split.
  { apply frames_at_app; [by apply (frames_at_grows sv1)|done]. }
  rewrite blen_app, feed_app, Hok. split; [lia|].
  destruct Hr as [[Hr Hc]|Hr]; [left|by right]. split; [done|]. intros Hx%Hc. lia.
Qed.

Lemma recover_loop_spec {S} name step last (cb : FrameRecoveryCallback S) fuel :
  1 ≤ step → last ≤ u64_max → ∀ cur total sv s r sv' s',
  0 ≤ cur ≤ last → last - cur + 1 ≤ Z.of_nat fuel → 0 ≤ total → total + (last - cur + 1) ≤ u64_max →
  nats_recover_loop fuel name step last cb cur total sv s = (r, sv', s') →
  grows sv sv' ∧ fed name cb cur total (last - cur + 1) s r sv' s'.
Proof.
  intros Hstep Hlast. induction fuel as [|fuel IH]; intros cur total sv s r sv' s' Hcur Hfuel Ht Hb Hr;
    [lia|]. cbn [nats_recover_loop] in Hr. destruct (last <? cur) eqn:?; [lia|].
  pose proof (chunk_end_bounds cur step last Hcur Hlast Hstep) as Hend.
  set (stop := chunk_end cur step last) in *.
  pose proof (growing_read_range name cur stop sv) as Hg.
  destruct (read_range_async name cur stop sv) as [r1 sv1] eqn:Hrange. cbn [snd] in Hg.
  apply read_range_spec in Hrange as [Hp Hok]; [|lia].
  destruct r1 as [ps|err|]; [|injection Hr as <- <- <-; split; [done|apply fed_nothing; lia]|done].
  destruct (Hok ps eq_refl) as [Hf Hlen]. rewrite Hlen, Z.eqb_refl in Hr. cbn [negb] in Hr.
  rewrite nats_feed_feed in Hr by lia.
  destruct (feed cb total ps s) as [r2 s1] eqn:Hfeed.
  assert (fed name cb cur total (last - cur + 1) s r2 sv1 s1 ∨ ∃ n, r2 = Ok n) as Hcase.
  { destruct r2 as [n|err|]; [by right; exists n|left..]; exists ps; (split; [done|]);
      (split; [lia|]); left; by rewrite Hfeed. }
  destruct r2 as [n|err|].
  2,3: injection Hr as <- <- <-; split; [done|]; by destruct Hcase as [?|[? [=]]].
  assert (n = total + blen ps) as -> by (apply (feed_count cb ps total s n s1 Hfeed); lia).
  destruct ((stop =? u64_max) || (last <=? stop)) eqn:Hstop.
  - injection Hr as <- <- <-. split; [done|]. exists ps. split; [done|]. split; [lia|]. left.
    rewrite Hfeed. split; [done|]. intros _. apply orb_true_iff in Hstop. lia.
  - apply orb_false_iff in Hstop as [Hs1 Hs2].
    apply IH in Hr as [Hg2 Hfed]; [|lia..]. split; [by apply (grows_trans _ _ sv1)|].
    apply (fed_chunk _ _ _ _ _ ps _ _ _ sv1 _ _ _ Hf Hg2 Hfeed).
    by replace (cur + blen ps) with (stop + 1) by lia;
      replace (last - cur + 1 - blen ps) with (last - (stop + 1) + 1) by lia.
Qed.

Lemma with_last_data_seq_fields n e :
  server (with_last_data_seq n e) = server e ∧ identity (with_last_data_seq n e) = identity e ∧
  last_data_seq (with_last_data_seq n e) = n ∧
  ne_uncertain (with_last_data_seq n e) = ne_uncertain e ∧
  ne_diagnostic (with_last_data_seq n e) = ne_diagnostic e.
Proof. by destruct e. Qed.

Lemma growing_open_data_stream name : growing (open_data_stream name).
Proof. apply growing_asking, asking_open_data_stream. Qed.

(** What a recovery leaves and fed. *)
Definition recovered {S} (e : NatsEngine) (cb : FrameRecoveryCallback S) (s : S)
    (r : outcome OperationFailure Z) (e' : NatsEngine) (s' : S) : Prop :=
  let name := ne_data_stream_name e in
  identity e' = identity e ∧ ne_uncertain e' = ne_uncertain e ∧
  ne_diagnostic e' = ne_diagnostic e ∧ grows (server e) (server e') ∧
  ∃ ps, frames_at (server e') name 2 ps ∧
    ((r, s') = feed cb 0 ps s ∧
       (is_ok r = true → last_data_seq e' = 1 + blen ps ∧ ∃ st,
          stream_at (server e') name = Some st ∧
          message st 1 = Some (to_bytes ContainerHeader_new)) ∨
     ∃ n err, feed cb 0 ps s = (Ok n, s') ∧ r = Err err).

Lemma nats_recover_spec {S} n (cb : FrameRecoveryCallback S) e s r e' s' :
  nats_recover_frames n cb e s = (r, e', s') → recovered e cb s r e' s'.
Proof.
  unfold nats_recover_frames, on_server, recovered. set (name := ne_data_stream_name e).
  destruct (open_data_stream name (server e)) as [o sv] eqn:Ho.
  apply open_data_stream_spec in Ho as (Hg&Hnp&Hinfo).
  assert (∀ sv1, server (with_server sv1 e) = sv1 ∧ identity (with_server sv1 e) = identity e ∧
    ne_uncertain (with_server sv1 e) = ne_uncertain e ∧
    ne_diagnostic (with_server sv1 e) = ne_diagnostic e) as Hws by by destruct e.
  destruct (Hws sv) as (F1&F2&F3&F4).
  destruct o as [[h info]|err|]; [| |done].
  2: { intros [= <- <- <-]. rewrite F1, F2, F3, F4. do 4 (split; [done|]).
       exists []. split; [apply frames_at_nil|]. right. by exists 0, err. }
  destruct (Hinfo h info eq_refl) as (Hfirst&Hlast&s1&st&_&_&_&_&st'&Hst'&Hhdr).
  rewrite Hfirst. change (u64_checked_add 1 1) with (Some 2). cbv beta iota zeta.
  set (last := info_last_sequence info) in *. destruct (last <? 2) eqn:Hl.
  { intros [= <- <- <-].
    destruct (with_last_data_seq_fields last (with_server sv e)) as (G1&G2&G3&G4&G5).
    rewrite G1, G2, G3, G4, G5, F1, F2, F3, F4. do 4 (split; [done|]).
    exists []. split; [apply frames_at_nil|]. left. split; [done|]. intros _.
    split; [change (blen []) with 0; lia|]. by exists st'. }
  rewrite F1. destruct (nats_recover_loop _ _ _ _ _ _ _ _ _) as [[r1 sv'] s2] eqn:Hloop.
  apply recover_loop_spec in Hloop as [Hg2 (ps&Hf&Hb&Hr)]; [|lia..].
  assert (with_server sv' (with_server sv e) = with_server sv' e) as -> by by destruct e.
  destruct (Hws sv') as (K1&K2&K3&K4).
  destruct (with_last_data_seq_fields last (with_server sv' e)) as (G1&G2&G3&G4&G5).
  pose proof (grows_trans _ _ _ _ Hg Hg2) as Hg3.
  destruct r1 as [total|err|]; intros [= <- <- <-]; rewrite ?G1, ?G2, ?G3, ?G4, ?G5, K1, K2, K3, K4;
    do 4 (split; [done|]); exists ps; (split; [done|]).
  - left. destruct Hr as [[Hr Hc]|(?&?&_&[=])]. split; [done|]. intros _. specialize (Hc eq_refl).
    split; [lia|]. destruct (grows_stream _ _ _ _ _ Hg2 Hst') as (st2&?&?). exists st2.
    split; [done|]. by apply (grown_message st').
  - destruct Hr as [[Hr Hc]|Hr]; [by left|by right].
  - left. by destruct Hr as [[Hr Hc]|(?&?&_&[=])].
Qed.

(** The messages of a stream whose header and frames are known. *)
Definition log_messages ps : list bytes := to_bytes ContainerHeader_new :: (frame_image <$> ps).

Lemma blen_log_messages ps : blen (log_messages ps) = 1 + blen ps.
Proof. unfold log_messages. rewrite blen_cons. unfold blen. rewrite length_fmap. lia. Qed.

Lemma prefix_of_lookup {A} (l k : list A) :
  (∀ i x, l !! i = Some x → k !! i = Some x) → ∃ rest, k = l ++ rest.
Proof.
  revert k. induction l as [|x l IH]; intros k Hl; [by exists k|].
  destruct k as [|y k]; [by specialize (Hl 0%nat x eq_refl)|].
  pose proof (Hl 0%nat x eq_refl) as [= ->].
  destruct (IH k) as [rest ->]; [|by exists rest]. intros i z Hi. exact (Hl (Datatypes.S i) z Hi).
Qed.

Lemma message_lookup st i p : whole st → message st (1 + Z.of_nat i) = Some p →
  st_messages st !! i = Some (Some p).
Proof.
  intros [Hf _]. unfold message. rewrite Hf. destruct (_ <? 1); [done|].
  replace (Z.to_nat _) with i by lia. by destruct (st_messages st !! i) as [x|]; simpl; [intros ->|].
Qed.

Lemma recovered_follows {S} e (cb : FrameRecoveryCallback S) s k e' s' st :
  stream_at (server e) (ne_data_stream_name e) = Some st → whole st →
  st_subjects st = [ne_data_subject e] → recovered e cb s (Ok k) e' s' →
  ∃ ps, follows_log e' (log_messages ps) ∧ Forall frame_wf ps ∧ feed cb 0 ps s = (Ok k, s').
Proof.
  intros Hst Hw Hsub (Hi&_&_&Hg&ps&Hf&[[Hr Hok]|(?&?&_&[=])]). exists ps.
  destruct (Hok eq_refl) as (Hl&st1&Hst1&Hh).
  destruct (grows_stream _ _ _ _ _ Hg Hst) as (st2&Hst2&Hgr).
  assert (st2 = st1) as -> by congruence. pose proof (grown_whole _ _ Hgr Hw) as Hw1.
  assert (∃ rest, st_messages st1 = (Some <$> log_messages ps) ++ rest) as [rest Hrest].
  { apply prefix_of_lookup. intros i x Hx. rewrite list_lookup_fmap in Hx.
    apply fmap_Some in Hx as (m&Hm&->). apply message_lookup; [done|].
    destruct i as [|i]; [by injection Hm as <-|]. change ((frame_image <$> ps) !! i = Some m) in Hm. rewrite list_lookup_fmap in Hm.
    apply fmap_Some in Hm as (p&Hp&->). destruct (Hf i p Hp) as (_&st3&Hst3&Hmsg).
    assert (st3 = st1) as -> by congruence. rewrite <-Hmsg. f_equal. lia. }
  split.
  - split; [by rewrite blen_log_messages|]. injection Hi as _ Hdn Hds _. rewrite Hdn, Hds.
    exists st1, rest. split; [done|]. split; [done|]. split; [|done].
    destruct Hgr as (Hs&_). congruence.
  - split; [|done]. apply Forall_lookup. intros i p Hp. by apply (Hf i p).
Qed.

(** ** The engine as a driver of the pipeline *)

Definition total_on {A} (m : eff Server A) : Prop := ∀ s, (m s).1 ≠ Panic.

Lemma total_on_bind {A B} (m : eff Server A) (f : A → eff Server B) :
  total_on m → (∀ a, total_on (f a)) → total_on (m ≫= f).
Proof.
  intros Hm Hf s. unfold mbind, eff_bind. specialize (Hm s).
  by destruct (m s) as [[a|err|] s1]; [apply Hf|..].
Qed.
Lemma total_on_lift {A} (o : outcome OperationFailure A) : o ≠ Panic → total_on (lift o).
Proof. by intros Ho s. Qed.

Lemma absorb_message_total records seq raw :
  blen raw ≤ isize_max → absorb_message records seq raw ≠ Panic.
Proof.
  intros Hb. unfold absorb_message. destruct (seq =? 1).
  - apply bind_not_panic; [by apply map_err_not_panic, ContainerHeader_total|]. intros [h n] _.
    destruct (negb _); [done|]. by destruct (negb _).
  - apply bind_not_panic; [by apply map_err_not_panic, (codec_total ContainerFrame_codec)|].
    intros [p n] Hp%map_err_Ok%(codec_sound ContainerFrame_codec). destruct Hp as [Hw _].
    assert (blen p ≤ isize_max) by (unfold frame_wf, u32_max, isize_max in *; lia).
    destruct (negb _); [done|].
    apply bind_not_panic; [by apply map_err_not_panic, OwnershipRecord_total|].
    intros [r m] Hd%map_err_Ok. destruct (negb _); [done|].
    apply absorb_record_total. intros v b ->. apply OwnershipRecord_descriptor_blen in Hd. lia.
Qed.

Lemma absorb_messages_total count name : ∀ seq records, total_on (absorb_messages count name seq records).
Proof.
  induction count as [|count IH]; intros seq records; [by intros s|]. cbn [absorb_messages].
  intros s. unfold request, mbind, eff_bind, lift.
  destruct (get_raw_message name seq s) as [[raw|err] s1] eqn:Hm; [|done].
  apply get_raw_message_law in Hm as [_ Hm]. destruct (Hm raw eq_refl) as [Hb _].
  pose proof (absorb_message_total records seq raw Hb).
  destruct (absorb_message records seq raw); [apply IH|done..].
Qed.

Lemma read_meta_records_total name : total_on (read_meta_records_async name).
Proof.
  intros s. unfold read_meta_records_async. destruct (get_stream name s) as [[[]|err] s1];
    [|by destruct (bool_decide _)].
  revert s1. change (total_on (read_meta_stream name)). unfold read_meta_stream.
  apply total_on_bind.
  { intros s1. unfold query_info, request. by destruct (stream_info name s1) as [[]]. }
  intros info. destruct (_ =? 0); [by apply total_on_lift|].
  destruct (1 <? _); [by apply total_on_lift|].
  apply absorb_messages_total.
Qed.

Lemma nats_authority_total e : total_on (nats_check_authority e).
Proof.
  unfold nats_check_authority. destruct (ne_uncertain e); [by apply total_on_lift|].
  apply total_on_bind; [apply read_meta_records_total|]. intros meta.
  destruct (outbound_pointer meta); [by apply total_on_lift|].
  apply total_on_bind; [apply total_on_lift; by destruct (latest_claim meta)|]. intros c.
  apply total_on_lift. by destruct (negb _).
Qed.

Lemma publish_block_total block e : (publish_block block e).1 ≠ Panic.
Proof.
  unfold publish_block. destruct (publish _ _ _) as [o s]. destruct o as [err|ack|err|].
  - by destruct (is_wrong_last_sequence err).
  - by case_bool_decide.
  - by destruct (is_wrong_last_sequence err).
  - done.
Qed.

Lemma nats_append_total block e : (nats_append_block block e).1 ≠ Panic.
Proof.
  unfold nats_append_block. pose proof (nats_authority_total e (server e)) as Ht.
  destruct (nats_check_authority e (server e)) as [[u|err|] s]; [|done..].
  destruct (ne_simulate_indeterminate _); [done|]. destruct (_ =? u64_max); [done|].
  apply publish_block_total.
Qed.

(** A diagnostic is kept exactly by uncertain engines. *)
Definition diagnosed e : Prop := ne_diagnostic e = if ne_uncertain e then Some tt else None.

Lemma append_diagnosed block e : diagnosed e → diagnosed (nats_append_block block e).2.
Proof.
  intros Hd. assert (∀ s, diagnosed (with_server s e)) as Hs by by destruct e.
  assert (∀ e, diagnosed (ne_mark_uncertain e)) as Hm by by intros [].
  unfold nats_append_block. destruct (nats_check_authority e (server e)) as [[u|err|] s].
  - destruct (ne_simulate_indeterminate _); [apply Hm|].
    destruct (_ =? u64_max); [apply Hs|].
    unfold publish_block. destruct (publish _ _ _) as [o s2].
    assert (with_server s2 (with_server s e) = with_server s2 e) as -> by by destruct e.
    destruct o as [err|ack|err|]; [destruct (is_wrong_last_sequence err); [apply Hm|apply Hs]| |
      destruct (is_wrong_last_sequence err); apply Hm|apply Hm].
    case_bool_decide; [apply Hm|]. specialize (Hs s2). by destruct e.
  - cbn [snd]. destruct (diverged _); [apply Hm|apply Hs].
  - apply Hs.
Qed.

(** The frames among the messages an engine counts on. *)
Definition payload_of (m : option bytes) : option bytes :=
  raw ← m;
  match ContainerFrame_decode raw with
  | Ok (p, _) => Some p
  | _ => None
  end.
Definition log_frames e : list bytes :=
  match stream_at (server e) (ne_data_stream_name e) with
  | Some st => omap payload_of (drop 1 (take (Z.to_nat (last_data_seq e)) (st_messages st)))
  | None => []
  end.
Definition nats_wf e : Prop :=
  (∃ ps, follows_log e (log_messages ps) ∧ Forall frame_wf ps) ∧ diagnosed e.

Lemma log_frames_follow e ps :
  follows_log e (log_messages ps) → Forall frame_wf ps → log_frames e = ps.
Proof.
  intros (Hl&st&rest&Hst&_&_&Hm) Hw. unfold log_frames. rewrite Hst, Hm, Hl.
  unfold blen. rewrite Nat2Z.id, take_app_le, take_ge by (by rewrite length_fmap).
  cbn. rewrite drop_0. clear Hl Hst Hm. induction Hw as [|p ps Hp Hw IH]; [done|].
  cbn [fmap list_fmap omap list_omap]. unfold payload_of at 1. simpl.
  pose proof (codec_complete ContainerFrame_codec p [] Hp) as Hd. rewrite app_nil_r in Hd.
  rewrite Hd. f_equal. exact IH.
Qed.

#[export] Instance NatsEngine_append_laws : AppendLaws NatsEngine.
Proof.
  refine {| stored := log_frames; engine_wf := nats_wf |}.
  - intros e [(ps&Hf&Hw) _]. by rewrite (log_frames_follow e ps).
  - intros e _. apply nats_authority_total.
  - intros e p r e' [(ps&Hf&Hw) Hd] Hp Ha. simpl in Ha.
    pose proof (nats_append_total (frame_image p) e) as Ht.
    pose proof (append_diagnosed (frame_image p) e Hd) as Hd'. rewrite Ha in Ht, Hd'. cbn [fst snd] in Ht, Hd'.
    destruct (append_block_result e _ _ _ _ Hf Ha) as (_&_&Hr). rewrite (log_frames_follow e ps) by done.
    assert (follows_log e' (log_messages ps) → nats_wf e' ∧ log_frames e' = ps) as Hsame.
    { intros Hf'. split; [split; [by exists ps|done]|by apply log_frames_follow]. }
    assert (log_messages ps ++ [frame_image p] = log_messages (ps ++ [p])) as Hsnoc
      by (unfold log_messages; by rewrite fmap_app).
    unfold append_result in Hr. destruct r as [[seq|c]|err|]; [| | |done].
    + destruct Hr as (_&Hu&Hu'&Hf'). rewrite Hsnoc in Hf'.
      assert (Forall frame_wf (ps ++ [p])) as Hw' by (apply Forall_app_2; [done|by apply Forall_singleton]).
      split; [split; [by exists (ps ++ [p])|done]|]. split; [by apply log_frames_follow|].
      simpl. by rewrite Hd, Hd', Hu, Hu'.
    + destruct Hr as (_&Hu&Hf'). destruct (Hsame Hf') as [? Hs]. split; [done|].
      split; [by left|]. simpl. by rewrite Hd', Hu.
    + destruct Hr as [Hf' _]. by apply Hsame.
Defined.
End reading.

Section session_properties.
Context `{Digests, !DigestLaws, JetStreamLaws}.
Implicit Types (e : NatsEngine).

(** The data stream of an engine, as creating it left it or as it has grown. *)
Definition owns_stream e : Prop := ∃ st,
  stream_at (server e) (ne_data_stream_name e) = Some st ∧ whole st ∧
  st_subjects st = [ne_data_subject e].

Lemma open_writer_follows e st :
  owns_stream e → diagnosed e → open_writer e = Ok st →
  ∃ fs, live st ∧ stored (engine st) = fs ∧ follows_log (engine st) (log_messages fs) ∧
    identity (engine st) = identity e.
Proof.
  intros (st0&Hst0&Hw0&Hs0) Hd. unfold open_writer. simpl.
  destruct (nats_recover_frames 64 writer_callback e _) as [[r e'] [rolling idx]] eqn:Hr.
  apply nats_recover_spec in Hr as Hrec. destruct r as [k|err|]; [|done..]. intros [= <-].
  destruct (recovered_follows _ _ _ _ _ _ _ Hst0 Hw0 Hs0 Hrec) as (fs&Hf&Hw&Hfeed).
  destruct Hrec as (Hi&Hu&Hdi&_). exists fs. cbn [engine].
  assert (diagnosed e') as Hd' by (unfold diagnosed; by rewrite Hu, Hdi).
  pose proof (log_frames_follow e' fs Hf Hw) as Hstored.
  pose proof (feed_writer 0 fs RollingCommitment_new SessionIndex_new Hw) as Hx.
  rewrite Hfeed in Hx. fold (build_from_frames fs) in Hx.
  destruct (build_from_frames fs) as [idx'|e0|] eqn:Hb;
    [destruct Hx as [n [= -> -> ->]]|by destruct Hx as [s [=]]..].
  split; [|done]. split; cbn [engine rolling_commitment fiber_index stored NatsEngine_append_laws].
  - split; [by exists fs|done].
  - by rewrite Hstored.
  - by rewrite Hstored.
Qed.

Lemma append_keeps_stream block e name :
  ne_data_stream_name e = name → ne_data_stream_name (nats_append_block block e).2 = name.
Proof.
  intros <-. unfold nats_append_block. destruct e as [s st mn dn ms ds ce c m a l d r t si u di].
  simpl. destruct (nats_check_authority _ s) as [[v|err|] s1]; simpl; [|by destruct (diverged _)|done].
  destruct si; [done|]. destruct (l =? u64_max); [done|].
  unfold publish_block. cbn. destruct (publish _ _ s1) as [[err|ack|err|] s2]; simpl.
  - by destruct (is_wrong_last_sequence err).
  - by case_bool_decide.
  - by destruct (is_wrong_last_sequence err).
  - done.
Qed.

(** Recovery counts on what it read. When recovering the data stream
    succeeds, for any chunk size and while other clients keep writing, the
    callback was fed, in order, frames that stand at the head of the stream behind
    the container header, and the engine counts on exactly these: the next
    publication expects their end. *)
Theorem recovery_follows_log {S} n (cb : FrameRecoveryCallback S) e s k e' s' :
  owns_stream e → nats_recover_frames n cb e s = (Ok k, e', s') →
  ∃ ps, follows_log e' (log_messages ps) ∧ Forall frame_wf ps ∧ feed cb 0 ps s = (Ok k, s') ∧
    grows (server e) (server e').
Proof.
  intros (st&Hst&Hw&Hs) Hr. apply nats_recover_spec in Hr.
  destruct (recovered_follows _ _ _ _ _ _ _ Hst Hw Hs Hr) as (ps&?&?&?). exists ps.
  split; [done|]. split; [done|]. split; [done|]. by destruct Hr as (_&_&_&?&_).
Qed.

(** C3: Sessions on JetStream keep their log. Open a writer on a stream and run
    any frame and fiber writes, while other clients write what they like and
    any call may fail or go unanswered: no write panics; the stream starts with
    the container header, the frames recovered on opening and those the writes
    reported landed, in order; and the index and the commitment in memory are
    those of exactly these frames. *)
Theorem nats_session_keeps_log e st ws rs st' :
  owns_stream e → diagnosed e → open_writer e = Ok st → run_writes ws st = (rs, st') →
  ∃ fs, let log := fs ++ landed_frames rs in
    follows_log (engine st) (log_messages fs) ∧
    Forall (λ r, r ≠ Panic) rs ∧
    (∃ strm rest, stream_at (server (engine st')) (ne_data_stream_name e) = Some strm ∧
       whole strm ∧ st_messages strm = (Some <$> log_messages log) ++ rest) ∧
    build_from_frames log = Ok (fiber_index st') ∧
    rolling_commitment st' = commit_frames RollingCommitment_new log.
Proof.
  intros Ho Hd Hopen Hr. destruct (open_writer_follows e st Ho Hd Hopen) as (fs&Hl&Hs&Hf&Hi).
  exists fs. intros log. split; [done|].
  destruct (run_writes_session ws st rs st' Hl Hr) as [Hp (Hw'&Hb&Hro&Hst)].
  rewrite Hs in Hb, Hro, Hst. fold log in Hb, Hro, Hst. split; [done|]. split; [|done].
  assert (ne_data_stream_name (engine st') = ne_data_stream_name e) as Hn.
  { pose proof (run_writes_keeps (λ x, ne_data_stream_name x = ne_data_stream_name e)
      (λ block x, append_keeps_stream block x _) ws st) as Hk. rewrite Hr in Hk. apply Hk. by injection Hi. }
  destruct Hw' as [(ps&Hf'&Hwf) _]. cbn [stored NatsEngine_append_laws] in Hst.
  rewrite (log_frames_follow _ ps Hf' Hwf) in Hst. destruct Hf' as (_&strm&rest&Hstrm&Hwh&_&Hm).
  rewrite Hn in Hstrm. destruct Hst as [->|(_&p&->)].
  - by exists strm, rest.
  - exists strm, (Some (frame_image p) :: rest). split; [done|]. split; [done|].
    rewrite Hm. unfold log_messages. rewrite fmap_app. cbn. by rewrite !fmap_app, <-!app_assoc.
Qed.
End session_properties.
