(* ===== verification/NatsAuthority.v ===== *)
(** * Authority on JetStream: [src/crates/pardosa-nats/src/adapter.rs]

    What a reading of the meta stream says, and with it which appends pass the
    fence of a writer. Other clients may write at any time; nothing is assumed but
    [JetStreamLaws]. *)

From S2P Require Export NatsSession.

Section meta.
Context `{Digests, !DigestLaws, JetStreamLaws}.
Implicit Types (ms : list bytes) (name : bytes).

(** The records a run of messages adds up to. *)
Fixpoint absorb_all (records : MetaRecords) (seq : Z) ms : outcome OperationFailure MetaRecords :=
  match ms with
  | [] => Ok records
  | raw :: ms =>
      records ← absorb_message records seq raw;
      absorb_all records (seq + 1) ms
  end.

(** From [seq] on the stream holds [ms]. *)
Definition messages_at s name (seq : Z) ms : Prop := ∀ i p, ms !! i = Some p →
  ∃ st, stream_at s name = Some st ∧ message st (seq + Z.of_nat i) = Some p.

(** A call that began on [s] and ended on [s'] saw the stream start with [ms]:
    all that was there when it began. *)
Definition seen_from s name s' ms : Prop := ∃ st rest,
  stream_at s' name = Some st ∧ st_first st = 1 ∧ st_messages st = (Some <$> ms) ++ rest ∧
  ∀ st0, stream_at s name = Some st0 → (length (st_messages st0) ≤ length ms)%nat.

Lemma messages_at_grows s s' name seq ms :
  grows s s' → messages_at s name seq ms → messages_at s' name seq ms.
Proof.
  intros Hg Hm i p Hp. destruct (Hm i p Hp) as (st&Hst&Hmsg).
  destruct (grows_stream _ _ _ _ _ Hg Hst) as (st'&?&?). exists st'. split; [done|].
  by apply (grown_message st).
Qed.

Lemma absorb_messages_inv count name : ∀ seq records s m s',
  absorb_messages count name seq records s = (Ok m, s') →
  ∃ ms, length ms = count ∧ messages_at s' name seq ms ∧ absorb_all records seq ms = Ok m.
Proof.
  induction count as [|count IH]; intros seq records s m s'; cbn [absorb_messages].
  { intros [= <- <-]. by exists []. }
  unfold request. intros (raw&s1&Hr&(r1&Ha&Hrest)%lift_inv)%bind_inv.
  destruct (get_raw_message name seq s) as [[p|err] s2] eqn:Hg; [|done]. injection Hr as -> ->.
  apply get_raw_message_law in Hg as [_ Hg]. destruct (Hg raw eq_refl) as (_&st&Hst&Hmsg).
  pose proof (growing_absorb_messages count name (seq + 1) r1 s1) as Hgr. rewrite Hrest in Hgr.
  apply IH in Hrest as (ms&<-&Hms&Hall). exists (raw :: ms). split; [done|].
  split; [|cbn [absorb_all]; by rewrite Ha].
  apply (messages_at_grows s1 s' name seq [raw]) in Hgr as Hhd.
  - intros [|i] q Hq; [by apply Hhd|]. destruct (Hms i q Hq) as (st'&?&Hq'). exists st'.
    split; [done|]. rewrite <-Hq'. f_equal. lia.
  - intros [|i] q Hq; [|done]. injection Hq as <-. exists st. by rewrite Z.add_0_r.
Qed.

(** Messages from the first on are a prefix of the stream. *)
Lemma messages_at_prefix s name st ms :
  stream_at s name = Some st → st_first st = 1 → messages_at s name 1 ms →
  ∃ rest, st_messages st = (Some <$> ms) ++ rest.
Proof.
  intros Hst Hf Hm. exists (drop (length ms) (st_messages st)).
  rewrite <-(take_drop (length ms) (st_messages st)) at 1. f_equal.
  apply list_eq. intros i. rewrite list_lookup_fmap.
  destruct (ms !! i) as [p|] eqn:Hp.
  - rewrite lookup_take_lt by by apply lookup_lt_Some in Hp.
    destruct (Hm i p Hp) as (st'&Hst'&Hmsg). assert (st' = st) as -> by congruence.
    revert Hmsg. unfold message. rewrite Hf. destruct (_ <? 1); [done|].
    replace (Z.to_nat _) with i by lia. destruct (st_messages st !! i); simpl; congruence.
  - apply lookup_ge_None in Hp. by rewrite lookup_take_ge by done.
Qed.

(** Reading the records of a stream. *)
Lemma read_meta_stream_inv name s m s' :
  read_meta_stream name s = (Ok m, s') →
  ∃ ms, seen_from s name s' ms ∧ absorb_all MetaRecords_default 1 ms = Ok m.
Proof.
  unfold read_meta_stream, query_info, request. intros (info&s1&Hi&Hr)%bind_inv.
  destruct (stream_info name s) as [[i|err] s2] eqn:Hq; [|done]. injection Hi as -> ->.
  apply stream_info_law in Hq as [Hg Hq]. destruct (Hq info eq_refl) as (st&Hst&->).
  cbn [info_messages info_first_sequence info_last_sequence info_of] in Hr.
  destruct (_ =? 0); [done|]. destruct (1 <? st_first st) eqn:Hf; [done|].
  pose proof (stream_wf _ _ _ Hst) as [Hw _]. assert (st_first st = 1) as Hf1 by lia.
  rewrite Hf1 in Hr. pose proof (growing_absorb_messages
    (Z.to_nat (last_sequence st - 1 + 1)) name 1 MetaRecords_default s1) as Hg2. rewrite Hr in Hg2.
  apply absorb_messages_inv in Hr as (ms&Hlen&Hms&Ha). exists ms. split; [|done].
  destruct (grows_stream _ _ _ _ _ Hg2 Hst) as (st'&Hst'&Hgr).
  assert (st_first st' = 1) as Hf' by (destruct Hgr as (_&Hx&_); congruence).
  destruct (messages_at_prefix _ _ _ _ Hst' Hf' Hms) as (rest&Hrest). exists st', rest.
  split; [done|]. split; [done|]. split; [done|]. intros st0 Hst0.
  destruct (grows_stream _ _ _ _ _ Hg Hst0) as (st''&Hst''&(_&_&more&Hmore)).
  assert (st'' = st) as -> by congruence.
  unfold last_sequence in Hlen. rewrite Hf1, Hmore, blen_app in Hlen. unfold blen in Hlen.
  rewrite Hlen. lia.
Qed.

Lemma seen_from_grows s0 s s' s'' name ms :
  grows s0 s → grows s' s'' → seen_from s name s' ms → seen_from s0 name s'' ms.
Proof.
  intros Hg1 Hg2 (st&rest&Hst&Hf&Hm&Hl).
  destruct (grows_stream _ _ _ _ _ Hg2 Hst) as (st2&Hst2&(_&Hf2&more&Hm2)).
  exists st2, (rest ++ (Some <$> more)). split; [done|]. split; [congruence|].
  split; [by rewrite Hm2, Hm, app_assoc|]. intros st0 Hst0.
  destruct (grows_stream _ _ _ _ _ Hg1 Hst0) as (st1&Hst1&(_&_&m1&Hm1)).
  specialize (Hl st1 Hst1). rewrite Hm1, length_app in Hl. lia.
Qed.

(** The records that were read are those of a prefix of the meta stream, or there
    is no stream. *)
Lemma read_meta_inv name s m s' :
  read_meta_records_async name s = (Ok m, s') →
  (stream_at s' name = None ∧ m = MetaRecords_default) ∨
  ∃ ms, seen_from s name s' ms ∧ absorb_all MetaRecords_default 1 ms = Ok m.
Proof.
  unfold read_meta_records_async. destruct (get_stream name s) as [[[]|err] s1] eqn:Hg;
    apply get_stream_law in Hg as [Hg Hr].
  - intros (ms&Hs&Ha)%read_meta_stream_inv. right. exists ms. split; [|done].
    apply (seen_from_grows _ s1 s'); [done|apply (grows_refl stream_at)|done].
  - destruct err as [[]|]; simpl; try done. intros [= <- <-]. by left.
Qed.

Lemma check_authority_inv e s s' :
  nats_check_authority e s = (Ok tt, s') →
  ∃ ms m c, seen_from s (ne_meta_stream_name e) s' ms ∧
    absorb_all MetaRecords_default 1 ms = Ok m ∧
    outbound_pointer m = None ∧ latest_claim m = Some c ∧ epoch c = ne_carried_epoch e.
Proof.
  unfold nats_check_authority. destruct (ne_uncertain e); [done|].
  intros (m&s1&Hm&Hr)%bind_inv. destruct (outbound_pointer m) as [|] eqn:Ho; [done|].
  revert Hr. intros (c&Hc&Hr)%lift_inv. destruct (latest_claim m) as [c'|] eqn:Hl; [|done].
  injection Hc as ->. injection Hr as Hep <-.
  destruct (epoch c =? ne_carried_epoch e) eqn:He; [|done].
  apply read_meta_inv in Hm as [[_ ->]|(ms&Hs&Ha)]; [done|]. exists ms, m, c.
  do 4 (split; [done|]). lia.
Qed.

(** ** Properties *)

(** C11: Every append that goes out was authorised by all that was on record. When
    an append lands or its landing stays open, the messages the meta stream held
    when the append began, possibly with some written since, form records that
    name no successor and whose last claim has the writer's epoch. A writer
    superseded or retired before it appends therefore lands nothing. *)
Theorem nats_writes_authorised block e v e' :
  nats_append_block block e = (Ok v, e') →
  ∃ ms m c, seen_from (server e) (ne_meta_stream_name e) (server e') ms ∧
    absorb_all MetaRecords_default 1 ms = Ok m ∧
    outbound_pointer m = None ∧ latest_claim m = Some c ∧ epoch c = ne_carried_epoch e.
Proof.
  unfold nats_append_block. destruct (nats_check_authority e (server e)) as [[[]|err|] s1] eqn:Ha;
    [|done..]. intros Hp.
  apply check_authority_inv in Ha as (ms&m&c&Hs&Hrest). exists ms, m, c. split; [|done].
  apply (seen_from_grows _ (server e) s1); [apply (grows_refl stream_at)| |done].
  destruct (with_server_fields s1 e) as (F1&_). set (e1 := with_server s1 e) in *. rewrite <-F1.
  destruct (ne_simulate_indeterminate e1).
  { injection Hp as _ <-. rewrite (proj1 (ne_mark_uncertain_fields e1)). apply (grows_refl stream_at). }
  destruct (_ =? u64_max); [done|]. apply (publish_block_grows block e1 (Ok v)). done.
Qed.
End meta.
