(* ===== verification/NatsAdapter.v ===== *)
(** * The JetStream adapter: [src/crates/pardosa-nats/src/adapter.rs],
    [NatsStorageAdapter]

    Creation, completion and opening of an artefact kept in two streams. The
    operations act on the server and on the subjects the adapter resolved last. A
    session that opens keeps the server in its engine. The connection, its URL and
    the runtime are not represented; the operations of the test configuration are
    in [NatsFixtures]. *)

From S2P Require Export NatsAuthority Locator.

Record ResolvedSubjects := mk_ResolvedSubjects {
  resolved_meta : option bytes;
  resolved_data : option bytes;
}.
Definition ResolvedSubjects_default : ResolvedSubjects := mk_ResolvedSubjects None None.

Inductive SubjectKind := SubjectKind_Meta | SubjectKind_Data.

Record NatsStorageAdapter := mk_NatsStorageAdapter {
  na_stem : bytes;
  na_locator : NatsLocator;
  na_meta_stream_name : bytes;
  na_data_stream_name : bytes;
  na_meta_subject : bytes;
  na_data_subject : bytes;
  custom_subjects_for_test : bool;
}.

(** [into_instance]: the adapter as its constructors leave it. *)
Definition into_instance (stem : bytes) (locator : NatsLocator) (meta_subject data_subject : bytes) :
    NatsStorageAdapter :=
  mk_NatsStorageAdapter stem locator (stem ++ str "_meta") (stem ++ str "_data")
    meta_subject data_subject false.
Definition from_client_internal {E} (stem : bytes) : outcome E NatsStorageAdapter :=
  '(locator, meta_subject, data_subject) ← subjects_for_stem stem;
  Ok (into_instance stem locator meta_subject data_subject).
Definition from_client_internal_with_locator (locator : NatsLocator) : NatsStorageAdapter :=
  into_instance (stream_stem locator) locator (loc_meta_subject locator) (loc_data_subject locator).

Section adapter.
Context `{Digests, JetStream}.

Definition nats_locator_id (a : NatsStorageAdapter) : bytes := take 16 (blake3 (na_stem a)).

(** ** Inspecting streams *)

Definition nats_try_presence (a : NatsStorageAdapter) : eff Server ArtefactPresence :=
  meta_exists ← stream_exists (na_meta_stream_name a);
  data_exists ← stream_exists (na_data_stream_name a);
  mret match meta_exists, data_exists with
       | false, false => ArtefactPresence_None
       | true, false => ArtefactPresence_OwnershipRecordOnly
       | false, true => ArtefactPresence_EventDataOnly
       | true, true => ArtefactPresence_Both
       end.

Definition inspect_stream_subject (stream_name canonical legacy : bytes) (kind : SubjectKind) :
    eff Server bytes :=
  _ ← open_stream stream_name;
  info ← query_info stream_name;
  let subjects := info_subjects info in
  lift
    (if bool_decide (subjects = [canonical]) then Ok canonical else
     if bool_decide (subjects = [legacy]) then Ok legacy else
     fail match kind with
          | SubjectKind_Meta => FailureCondition_OwnershipRecordUnreadable
          | SubjectKind_Data => broken
          end).

Definition resolve_open_subjects (a : NatsStorageAdapter) (presence : ArtefactPresence) :
    eff Server ResolvedSubjects :=
  if custom_subjects_for_test a
  then mret (mk_ResolvedSubjects (Some (na_meta_subject a)) (Some (na_data_subject a))) else
  meta_subject ←
    match presence with
    | ArtefactPresence_OwnershipRecordOnly | ArtefactPresence_Both =>
        subject ← inspect_stream_subject (na_meta_stream_name a) (na_meta_subject a)
                    (na_stem a ++ str "_meta") SubjectKind_Meta;
        mret (Some subject)
    | ArtefactPresence_None | ArtefactPresence_EventDataOnly => mret None
    end;
  data_subject ←
    match presence with
    | ArtefactPresence_Both | ArtefactPresence_EventDataOnly =>
        subject ← inspect_stream_subject (na_data_stream_name a) (na_data_subject a)
                    (na_stem a ++ str "_data") SubjectKind_Data;
        mret (Some subject)
    | ArtefactPresence_None | ArtefactPresence_OwnershipRecordOnly => mret None
    end;
  mret (mk_ResolvedSubjects meta_subject data_subject).

(** ** Operations, on the server and the subjects resolved *)

Definition remote {A} (m : eff Server A) : eff (Server * ResolvedSubjects) A := λ '(s, resolved),
  let '(r, s) := m s in (r, (s, resolved)).
Definition cache_resolved_subjects (resolved : ResolvedSubjects) :
    eff (Server * ResolvedSubjects) unit :=
  λ '(s, _), (Ok tt, (s, resolved)).
Definition resolved_meta_subject (a : NatsStorageAdapter) : eff (Server * ResolvedSubjects) bytes :=
  reading (λ '(_, resolved), Ok (default (na_meta_subject a) (resolved_meta resolved))).

(** A publication that must be message [expected + 1]: somebody else's message
    there means the artefact was created already. *)
Definition publish_at (c : FailureCondition) (subject name : bytes) (expected : Z)
    (payload : bytes) : eff Server PublishAck := λ s,
  let refuse err := if is_wrong_last_sequence err
                    then fail FailureCondition_StoreAlreadyExists else fail c in
  match publish None (mk_Publication subject (Some expected) name payload) s with
  | (publish_refused err, s) => (refuse err, s)
  | (ack_failed err, s) => (refuse err, s)
  | (ack_timed_out, s) => (fail c, s)
  | (acked ack, s) => (if bool_decide (ack_stream ack ≠ name) then fail c else Ok ack, s)
  end.

(** The engine of a session that opens. *)
Definition fresh_nats_engine (a : NatsStorageAdapter) (meta_subject data_subject : bytes)
    (epoch : Z) (claim : option OwnershipClaimRecord) (meta : MetaRecords) (adm : OpenAdmission)
    (last_data_seq : Z) (landed : bool) (s : Server) : NatsEngine :=
  mk_NatsEngine s (na_stem a) (na_meta_stream_name a) (na_data_stream_name a) meta_subject
    data_subject epoch claim meta adm last_data_seq landed 0 5000000000 false false None.

(** [open_writer] on it. When that fails the server is given back as it was before
    recovery, which only read. *)
Definition start_nats_writer (e : Server → NatsEngine) : eff Server (Store NatsEngine) := λ s,
  match open_writer (e s) with
  | Ok st => (Ok st, server (engine st))
  | Err err => (Err err, s)
  | Panic => (Panic, s)
  end.

(** The meta stream with its first three messages. *)
Definition create_meta_stream (a : NatsStorageAdapter) (claim : OwnershipClaimRecord)
    (d : AdmittedDescriptor) : eff Server unit :=
  let name := na_meta_stream_name a in
  let subject := na_meta_subject a in
  let put := publish_at FailureCondition_OwnershipRecordUnreadable subject name in
  _ ← request (create_stream name subject) (λ _, unreadable);
  _ ← put 0 (to_bytes ContainerHeader_new);
  claim_bytes ← lift (OwnershipRecord_encode (OwnershipRecord_OwnershipClaim claim) []);
  claim_frame ← lift (framed claim_bytes);
  _ ← put 1 claim_frame;
  desc_frame ← lift (framed (encoded_record d));
  _ ← put 2 desc_frame;
  mret tt.

(** The data stream with its header. *)
Definition create_data_stream (a : NatsStorageAdapter) (map : StreamError → OperationFailure) :
    eff Server PublishAck :=
  let name := na_data_stream_name a in
  _ ← request (create_stream name (na_data_subject a)) map;
  publish_at broken (na_data_subject a) name 0 (to_bytes ContainerHeader_new).

Definition nats_create_with_limit (a : NatsStorageAdapter) (initial_claim : OwnershipClaimRecord)
    (d : AdmittedDescriptor) (max_wire_len : Z) : eff Server (Store NatsEngine) :=
  presence ← nats_try_presence a;
  _ ← lift (admit_create presence);
  _ ← lift (compute_claim_wire_len_bounded (blen (operator_label initial_claim)) max_wire_len);
  _ ← create_meta_stream a initial_claim d;
  data_ack ← create_data_stream a (λ _, OperationFailure_new broken);
  start_nats_writer
    (fresh_nats_engine a (na_meta_subject a) (na_data_subject a) (epoch initial_claim)
       (Some initial_claim)
       (mk_MetaRecords (Some initial_claim) (Some (descriptor d)) None None None None None)
       OpenAdmission_Ready (ack_sequence data_ack) false).

Definition nats_create (a : NatsStorageAdapter) (initial_claim : OwnershipClaimRecord)
    (d : AdmittedDescriptor) : eff Server (Store NatsEngine) :=
  nats_create_with_limit a initial_claim d u32_max.

Definition nats_complete_creation (a : NatsStorageAdapter) (c : OwnershipClaimRecord) :
    eff (Server * ResolvedSubjects) (Store NatsEngine) :=
  presence ← remote (nats_try_presence a);
  _ ← lift match presence with
           | ArtefactPresence_OwnershipRecordOnly => Ok tt
           | ArtefactPresence_None => fail FailureCondition_NoArtefactExists
           | ArtefactPresence_EventDataOnly | ArtefactPresence_Both =>
               fail FailureCondition_StoreAlreadyExists
           end;
  resolved ← remote (resolve_open_subjects a presence);
  _ ← cache_resolved_subjects resolved;
  let meta_subject := default (na_meta_subject a) (resolved_meta resolved) in
  meta_records ← remote (read_meta_records_async (na_meta_stream_name a));
  _ ← lift (require_descriptor meta_records);
  durable_claim ← lift (ok_or (latest_claim meta_records) unreadable);
  _ ← lift (if bool_decide (durable_claim ≠ c)
            then fail FailureCondition_OwnershipUnestablished else Ok tt);
  data_ack ← remote (create_data_stream a map_completion_create_error);
  remote (start_nats_writer
    (fresh_nats_engine a meta_subject (na_data_subject a) (epoch c) (Some c) meta_records
       OpenAdmission_Ready (ack_sequence data_ack) false)).

(** Who may write: the last claim's epoch only. *)
Definition admit_writer (missing : OperationFailure) (meta : MetaRecords) (carried : Z) :
    outcome OperationFailure OwnershipClaimRecord :=
  c ← ok_or (latest_claim meta) missing;
  if negb (epoch c =? carried) then fail FailureCondition_StaleEpoch else Ok c.

Definition nats_open_write (a : NatsStorageAdapter) (carried : Z) :
    eff (Server * ResolvedSubjects) (Store NatsEngine) :=
  presence ← remote (nats_try_presence a);
  match presence with
  | ArtefactPresence_None => lift (fail FailureCondition_NoArtefactExists)
  | ArtefactPresence_EventDataOnly => lift (fail FailureCondition_OwnershipUnestablished)
  | ArtefactPresence_OwnershipRecordOnly =>
      meta ← remote (read_meta_records_async (na_meta_stream_name a));
      _ ← lift (if bool_decide (is_Some (outbound_pointer meta))
                then fail FailureCondition_RetiredMigrationSource else Ok tt);
      c ← lift (admit_writer (OperationFailure_new FailureCondition_OwnershipUnestablished) meta
                  carried);
      nats_complete_creation a c
  | ArtefactPresence_Both =>
      resolved ← remote (resolve_open_subjects a ArtefactPresence_Both);
      _ ← cache_resolved_subjects resolved;
      let meta_subject := default (na_meta_subject a) (resolved_meta resolved) in
      let data_subject := default (na_data_subject a) (resolved_data resolved) in
      meta ← remote (read_meta_records_async (na_meta_stream_name a));
      _ ← lift (if bool_decide (is_Some (outbound_pointer meta))
                then fail FailureCondition_RetiredMigrationSource else Ok tt);
      _ ← lift (require_descriptor meta);
      c ← lift (admit_writer unreadable meta carried);
      '(_, info) ← remote (open_data_stream (na_data_stream_name a));
      remote (start_nats_writer
        (fresh_nats_engine a meta_subject data_subject carried (Some c) meta OpenAdmission_Ready
           (info_last_sequence info) (1 <? info_messages info)))
  end.

Definition nats_open_read (a : NatsStorageAdapter) :
    eff (Server * ResolvedSubjects) (Store NatsEngine) :=
  presence ← remote (nats_try_presence a);
  _ ← lift match presence with
           | ArtefactPresence_None => fail FailureCondition_NoArtefactExists
           | _ => Ok tt
           end;
  meta ← remote (read_meta_records_async (na_meta_stream_name a));
  adm ← lift (admit_open presence (latest_claim meta) false);
  resolved ← remote (resolve_open_subjects a presence);
  _ ← cache_resolved_subjects resolved;
  let meta_subject := default (na_meta_subject a) (resolved_meta resolved) in
  let data_subject := default (na_data_subject a) (resolved_data resolved) in
  remote (λ s,
    match open_reader
            (fresh_nats_engine a meta_subject data_subject
               (match latest_claim meta with Some c => epoch c | None => 0 end)
               (latest_claim meta) meta adm 0 false s) with
    | Ok st => (Ok st, server (engine st))
    | Err err => (Err err, s)
    | Panic => (Panic, s)
    end).

(** ** Records and streams *)

Definition nats_read_meta_records (a : NatsStorageAdapter) : eff Server MetaRecords :=
  read_meta_records_async (na_meta_stream_name a).

Definition record_ownership_record_internal (a : NatsStorageAdapter) (record : OwnershipRecord) :
    eff (Server * ResolvedSubjects) unit :=
  meta_subject ← resolved_meta_subject a;
  record_bytes ← lift (OwnershipRecord_encode record []);
  record_frame ← lift (framed record_bytes);
  remote (λ s,
    let name := na_meta_stream_name a in
    match publish None (mk_Publication meta_subject None name record_frame) s with
    | (acked ack, s) =>
        (if bool_decide (ack_stream ack ≠ name) then Err unreadable else Ok tt, s)
    | (_, s) => (Err unreadable, s)
    end).

Definition nats_current_epoch (a : NatsStorageAdapter) : eff Server Z :=
  meta ← nats_read_meta_records a;
  mret match latest_claim meta with Some c => epoch c | None => 0 end.
Definition nats_outbound_pointer (a : NatsStorageAdapter) :
    eff Server (option OutboundPointerRecord) :=
  meta ← nats_read_meta_records a; mret (outbound_pointer meta).
Definition nats_inbound_pointer (a : NatsStorageAdapter) :
    eff Server (option InboundPointerRecord) :=
  meta ← nats_read_meta_records a; mret (inbound_pointer meta).
Definition nats_is_retired_source (a : NatsStorageAdapter) : eff Server bool :=
  meta ← nats_read_meta_records a; mret (bool_decide (is_Some (outbound_pointer meta))).

Definition delete_one (name : bytes) : eff Server unit := λ s,
  match delete_stream name s with
  | (inl _, s) => (Ok tt, s)
  | (inr err, s) => (map_nats_stream_delete_error err, s)
  end.
Definition delete_streams (a : NatsStorageAdapter) : eff Server unit :=
  _ ← delete_one (na_meta_stream_name a);
  delete_one (na_data_stream_name a).
End adapter.

(** ** Creation *)

Section creation.
Context `{Digests, !DigestLaws, JetStreamLaws}.
Implicit Types (a : NatsStorageAdapter) (ms : list bytes).

Lemma growing_Ok {A} (m : eff Server A) s r s' : growing m → m s = (r, s') → grows s s'.
Proof. intros Hm Hr. specialize (Hm s). by rewrite Hr in Hm. Qed.

Lemma stream_exists_spec name s b s' :
  stream_exists name s = (Ok b, s') →
  grows s s' ∧ if b : bool then is_Some (stream_at s' name) else stream_at s' name = None.
Proof.
  unfold stream_exists. destruct (get_stream name s) as [[[]|err] s1] eqn:Hg;
    apply get_stream_law in Hg as [Hg Hr]; [by intros [= <- <-]|].
  destruct err as [[]|]; simpl; try done. by intros [= <- <-].
Qed.

Lemma asking_presence a : asking (nats_try_presence a).
Proof. unfold nats_try_presence. asking. Qed.
Lemma growing_presence a : growing (nats_try_presence a).
Proof. apply growing_asking, asking_presence. Qed.

(** A stream seen absent at some time before. *)
Definition born_after s name : Prop := ∃ s0, stream_at s0 name = None ∧ grows s0 s.

Lemma born_after_grows s s' name : born_after s name → grows s s' → born_after s' name.
Proof. intros (s0&Hn&Hg) Hg'. exists s0. split; [done|]. by apply (grows_trans _ _ s). Qed.

Lemma presence_none a s s' :
  nats_try_presence a s = (Ok ArtefactPresence_None, s') →
  grows s s' ∧ born_after s' (na_meta_stream_name a) ∧ born_after s' (na_data_stream_name a).
Proof.
  unfold nats_try_presence.
  intros (m&s1&Hm&(d&s2&Hd&Hr)%bind_inv)%bind_inv.
  apply stream_exists_spec in Hm as [Hg1 Hm], Hd as [Hg2 Hd].
  destruct m, d; try done. injection Hr as <-.
  split; [by apply (grows_trans _ _ s1)|]. split; [by exists s1|].
  exists s2. split; [done|]. apply (grows_refl stream_at).
Qed.

(** Creating a stream that was absent leaves one to write from its start. *)
Lemma create_stream_starts name subject map s s' :
  born_after s name → request (create_stream name subject) map s = (Ok tt, s') →
  grows s s' ∧ starts_with s' name subject [].
Proof.
  intros (s0&Hn&Hg0). unfold request. destruct (create_stream name subject s) as [[[]|err] s1] eqn:Hc;
    [|done]. apply create_stream_law in Hc as [Hg Hc]. intros [= <-]. split; [done|].
  destruct (Hc eq_refl) as (st&Hst&Hsub). exists st, (st_messages st).
  split; [done|]. split; [|done].
  apply (grows_born stream_at s0 s1 name); [by apply (grows_trans _ _ s)|done|done].
Qed.

Lemma publish_at_extends c subject name ms p s ack s' :
  starts_with s name subject ms → publish_at c subject name (blen ms) p s = (Ok ack, s') →
  grows s s' ∧ ack_sequence ack = blen (ms ++ [p]) ∧ starts_with s' name subject (ms ++ [p]).
Proof.
  intros Hs. unfold publish_at. destruct (publish _ _ s) as [o s1] eqn:Hp.
  destruct o as [err|ack'|err|]; [by destruct (is_wrong_last_sequence err)| |
    by destruct (is_wrong_last_sequence err)|done].
  case_bool_decide; [done|]. intros [= <- <-].
  destruct (acked_extends _ _ _ _ _ _ _ _ Hs Hp) as (_&?&?). by apply publish_law in Hp as [].
Qed.

(** The first messages of the meta stream of a created artefact. *)
Definition creation_messages (c : OwnershipClaimRecord) (d : AdmittedDescriptor) : list bytes :=
  [to_bytes ContainerHeader_new;
   frame_image (record_image (OwnershipRecord_OwnershipClaim c));
   frame_image (encoded_record d)].

Lemma create_meta_spec a c d s s' :
  OwnershipRecord_wf (OwnershipRecord_OwnershipClaim c) →
  born_after s (na_meta_stream_name a) → create_meta_stream a c d s = (Ok tt, s') →
  grows s s' ∧ starts_with s' (na_meta_stream_name a) (na_meta_subject a) (creation_messages c d) ∧
  frame_wf (record_image (OwnershipRecord_OwnershipClaim c)) ∧ frame_wf (encoded_record d).
Proof.
  intros Hw Hborn. unfold create_meta_stream.
  intros ([]&s1&Hc&(a1&s2&Hp1&(cb&He&(cf&Hcf&(a2&s3&Hp2&(df&Hdf&(a3&s4&Hp3&Hr)%bind_inv)%lift_inv)%bind_inv)%lift_inv)%lift_inv)%bind_inv)%bind_inv.
  injection Hr as <-. rewrite OwnershipRecord_encode_spec in He by done. injection He as <-.
  apply framed_Ok in Hcf as [Hw1 ->].
  apply framed_Ok in Hdf as [Hw2 ->].
  apply create_stream_starts in Hc as [Hg1 Hs]; [|done].
  destruct (publish_at_extends _ _ _ [] _ _ _ _ Hs Hp1) as (Hg2&_&Hs2).
  destruct (publish_at_extends _ _ _ [_] _ _ _ _ Hs2 Hp2) as (Hg3&_&Hs3).
  destruct (publish_at_extends _ _ _ [_; _] _ _ _ _ Hs3 Hp3) as (Hg4&_&Hs4).
  split; [|done]. repeat (eapply grows_trans; [eassumption|]). apply (grows_refl stream_at).
Qed.

Lemma create_data_spec a map s ack s' :
  born_after s (na_data_stream_name a) → create_data_stream a map s = (Ok ack, s') →
  grows s s' ∧ ack_sequence ack = 1 ∧
  starts_with s' (na_data_stream_name a) (na_data_subject a) (log_messages []).
Proof.
  intros Hborn. unfold create_data_stream. intros ([]&s1&Hc&Hp)%bind_inv.
  apply create_stream_starts in Hc as [Hg1 Hs]; [|done].
  apply (publish_at_extends _ _ _ []) in Hp as (Hg2&Hq&Hs2); [|done].
  split; [by apply (grows_trans _ _ s1)|done].
Qed.

Lemma fresh_server a msub ds ep cl meta adm last landed s :
  server (fresh_nats_engine a msub ds ep cl meta adm last landed s) = s.
Proof. done. Qed.

Lemma growing_start e : (∀ s, server (e s) = s) → growing (start_nats_writer e).
Proof.
  intros He s. unfold start_nats_writer.
  destruct (open_writer (e s)) as [st| |] eqn:Ho; [|apply (grows_refl stream_at)..]. revert Ho.
  unfold open_writer. simpl. destruct (nats_recover_frames 64 writer_callback (e s) _) as
    [[r e'] [rolling idx]] eqn:Hr. apply nats_recover_spec in Hr as (_&_&_&Hg&_). rewrite He in Hg.
  by destruct r; [intros [= <-]|..].
Qed.

(** Starting a session on a stream of the adapter. *)
Lemma start_writer_spec a msub ds ep cl meta adm last landed s st s' ms :
  starts_with s (na_data_stream_name a) ds ms →
  start_nats_writer (fresh_nats_engine a msub ds ep cl meta adm last landed) s = (Ok st, s') →
  grows s s' ∧ server (engine st) = s' ∧ live st ∧ ne_carried_epoch (engine st) = ep ∧
  ∃ fs, follows_log (engine st) (log_messages fs) ∧ stored (engine st) = fs.
Proof.
  intros Hs Hw. split; [by apply (growing_Ok _ _ _ _ (growing_start _ (fresh_server _ _ _ _ _ _ _ _ _)) Hw)|].
  revert Hw. unfold start_nats_writer. set (e := fresh_nats_engine _ _ _ _ _ _ _ _ _ s).
  destruct (open_writer e) as [st'|err|] eqn:Ho; [|done..]. intros [= <- <-].
  assert (owns_stream e) as Hown by (destruct Hs as (strm&rest&?&?&?&_); by exists strm).
  destruct (open_writer_follows e st' Hown eq_refl Ho) as (fs&Hl&Hst&Hf&Hi).
  split; [done|]. split; [done|]. split; [by injection Hi|]. by exists fs.
Qed.

Lemma nats_create_spec a c d max s st s' :
  OwnershipRecord_wf (OwnershipRecord_OwnershipClaim c) →
  nats_create_with_limit a c d max s = (Ok st, s') →
  starts_with s' (na_meta_stream_name a) (na_meta_subject a) (creation_messages c d) ∧
  frame_wf (record_image (OwnershipRecord_OwnershipClaim c)) ∧ frame_wf (encoded_record d) ∧
  server (engine st) = s' ∧ live st ∧ ne_carried_epoch (engine st) = epoch c ∧
  ∃ fs, follows_log (engine st) (log_messages fs) ∧ stored (engine st) = fs.
Proof.
  intros Hw. unfold nats_create_with_limit.
  intros (pr&s1&Hp&([]&Had&(n&_&([]&s2&Hm&(ack&s3&Hd&Hst)%bind_inv)%bind_inv)%lift_inv)%lift_inv)%bind_inv.
  destruct pr; try done. apply presence_none in Hp as (_&Hbm&Hbd).
  apply create_meta_spec in Hm as (Hg2&Hsm&Hw1&Hw2); [|done..].
  apply create_data_spec in Hd as (Hg3&Hq&Hsd); [|by apply (born_after_grows s1)].
  apply (start_writer_spec _ _ _ _ _ _ _ _ _ _ _ _ _ Hsd) in Hst as (Hg4&Hsv&Hl&Hep&Hf).
  split; [|done]. by apply (starts_with_grows s3), (starts_with_grows s2).
Qed.

(** ** Opening for writing *)

Lemma remote_inv {A B} (m : eff Server A) (f : A → eff (Server * ResolvedSubjects) B) s res b x :
  (remote m ≫= f) (s, res) = (Ok b, x) →
  ∃ v s1, m s = (Ok v, s1) ∧ f v (s1, res) = (Ok b, x).
Proof.
  intros (v&y&Hm&Hf)%bind_inv. unfold remote in Hm. destruct (m s) as [r s1] eqn:Hr.
  injection Hm as -> <-. by exists v, s1.
Qed.

Lemma remote_Ok {A} (m : eff Server A) s res b s' res' :
  remote m (s, res) = (Ok b, (s', res')) → m s = (Ok b, s').
Proof. unfold remote. destruct (m s) as [r s1]. by intros [= -> -> _]. Qed.

Lemma inspect_spec name canonical legacy kind s subject s' :
  inspect_stream_subject name canonical legacy kind s = (Ok subject, s') →
  grows s s' ∧ ∃ strm, stream_at s' name = Some strm ∧ st_subjects strm = [subject].
Proof.
  unfold inspect_stream_subject. intros ([]&s1&Hs&(info&s2&Hi&Hr)%bind_inv)%bind_inv.
  apply (growing_Ok _ _ _ _ (growing_asking _ (asking_open_stream name))) in Hs.
  unfold query_info, request in Hi. destruct (stream_info name s1) as [[i|err] s3] eqn:Hq; [|done].
  injection Hi as <- <-. apply stream_info_law in Hq as [Hg Hi].
  destruct (Hi i eq_refl) as (strm&Hst&->). cbn [info_subjects info_of] in Hr.
  injection Hr as Hr <-. split; [by apply (grows_trans _ _ s1)|]. exists strm. split; [done|].
  case_bool_decide; [by injection Hr as <-|]. case_bool_decide; [by injection Hr as <-|done].
Qed.

(** The data subject a session uses is the one its stream binds. *)
Lemma resolve_spec a presence s res s' :
  custom_subjects_for_test a = false → resolve_open_subjects a presence s = (Ok res, s') →
  grows s s' ∧
  (presence = ArtefactPresence_Both → ∃ subject strm, resolved_data res = Some subject ∧
     stream_at s' (na_data_stream_name a) = Some strm ∧ st_subjects strm = [subject]).
Proof.
  intros Hc. unfold resolve_open_subjects. rewrite Hc.
  intros (ms&s1&Hm&(ds&s2&Hd&Hr)%bind_inv)%bind_inv. injection Hr as <- <-.
  assert (grows s s1) as Hg1.
  { destruct presence; try (injection Hm as _ <-; apply (grows_refl stream_at));
      apply bind_inv in Hm as (x&s3&Hi&[= _ <-]); by apply inspect_spec in Hi as []. }
  split; [apply (grows_trans _ _ s1); [done|]|].
  - destruct presence; try (injection Hd as _ <-; apply (grows_refl stream_at));
      apply bind_inv in Hd as (x&s3&Hi&[= _ <-]); by apply inspect_spec in Hi as [].
  - intros ->. apply bind_inv in Hd as (x&s3&Hi&[= <- <-]).
    apply inspect_spec in Hi as (_&strm&?&?). by exists x, strm.
Qed.

Lemma nats_recover_engine {S} n (cb : FrameRecoveryCallback S) e s k e' s' :
  nats_recover_frames n cb e s = (Ok k, e', s') →
  ∃ sv l, e' = with_last_data_seq l (with_server sv e).
Proof.
  unfold nats_recover_frames, on_server. destruct (open_data_stream _ _) as [[[h info]| |] sv]; [|done..].
  destruct (u64_checked_add _ 1) as [start|]; [|by intros [= _ <- _]; do 2 eexists].
  destruct (_ <? start); [by intros [= _ <- _]; do 2 eexists|].
  destruct (nats_recover_loop _ _ _ _ _ _ _ _ _) as [[[r| |] sv'] s2]; [|done..].
  intros [= _ <- _]. exists sv', (info_last_sequence info). by destruct e.
Qed.

Lemma open_writer_fields e st :
  open_writer e = Ok st → ne_claim (engine st) = ne_claim e ∧
  ne_meta_records (engine st) = ne_meta_records e.
Proof.
  unfold open_writer. simpl.
  destruct (nats_recover_frames 64 writer_callback e _) as [[[k| |] e'] [rolling idx]] eqn:Hr; [|done..].
  intros [= <-]. apply nats_recover_engine in Hr as (sv&l&->). by destruct e.
Qed.

(** The session that opens for an epoch. *)
Definition write_session carried (st : Store NatsEngine) s : Prop :=
  server (engine st) = s ∧ live st ∧ ne_carried_epoch (engine st) = carried ∧
  (∃ c, ne_claim (engine st) = Some c ∧ epoch c = carried ∧
     latest_claim (ne_meta_records (engine st)) = Some c ∧
     require_descriptor (ne_meta_records (engine st)) = Ok tt) ∧
  ∃ fs, follows_log (engine st) (log_messages fs) ∧ stored (engine st) = fs.

Lemma start_session a msub ds c meta adm last landed s st s' ms :
  starts_with s (na_data_stream_name a) ds ms →
  latest_claim meta = Some c → require_descriptor meta = Ok tt →
  start_nats_writer (fresh_nats_engine a msub ds (epoch c) (Some c) meta adm last landed) s =
    (Ok st, s') →
  write_session (epoch c) st s'.
Proof.
  intros Hs Hc Hd Hst.
  destruct (start_writer_spec _ _ _ _ _ _ _ _ _ _ _ _ _ Hs Hst) as (_&Hsv&Hl&Hep&Hf).
  do 3 (split; [done|]). split; [|done]. exists c. revert Hst. unfold start_nats_writer.
  destruct (open_writer _) as [st'| |] eqn:Ho; [|done..]. intros [= <- _].
  by destruct (open_writer_fields _ _ Ho) as [-> ->].
Qed.

Lemma complete_spec a c s res st s' res' :
  custom_subjects_for_test a = false →
  nats_complete_creation a c (s, res) = (Ok st, (s', res')) → write_session (epoch c) st s'.
Proof.
  intros Hcu. unfold nats_complete_creation.
  intros (pr&s1&Hp&([]&Hpr&(rs&s2&Hrs&([]&[s2' r2]&[= <- <-]&(m&s3&Hm&([]&Hd&(dc&Hdc&([]&Heq&
    (ack&s4&Hack&Hst)%remote_inv)%lift_inv)%lift_inv)%lift_inv)%remote_inv)%bind_inv)%remote_inv)%lift_inv)%remote_inv.
  apply remote_Ok in Hst. destruct pr; try done.
  assert (born_after s1 (na_data_stream_name a)) as Hborn.
  { unfold nats_try_presence in Hp. apply bind_inv in Hp as (b1&q1&Hb1&(b2&q2&Hb2&Hr)%bind_inv).
    apply stream_exists_spec in Hb2 as [_ Hb2]. destruct b1, b2; try done. injection Hr as <-.
    exists q2. split; [done|]. apply (grows_refl stream_at). }
  apply (resolve_spec _ _ _ _ _ Hcu) in Hrs as [Hg2 _].
  apply (growing_Ok _ _ _ _ (growing_read_meta _)) in Hm.
  apply create_data_spec in Hack as (_&Hq&Hs4);
    [|apply (born_after_grows s2); [by apply (born_after_grows s1)|done]].
  case_bool_decide as Hne; [done|]. subst dc.
  apply (start_session _ _ _ _ _ _ _ _ _ _ _ _ Hs4) in Hst; [done| |done].
  by destruct (latest_claim m); [injection Hdc as ->|].
Qed.

Lemma open_write_spec a carried s res st s' res' :
  custom_subjects_for_test a = false →
  (∀ strm, stream_at s (na_data_stream_name a) = Some strm → whole strm) →
  nats_open_write a carried (s, res) = (Ok st, (s', res')) → write_session carried st s'.
Proof.
  intros Hcu Hwhole. unfold nats_open_write. intros (pr&s1&Hp&Hrest)%remote_inv.
  assert (∀ m c err, admit_writer err m carried = Ok c → latest_claim m = Some c ∧ epoch c = carried) as Hadm.
  { intros m c err. unfold admit_writer. destruct (latest_claim m) as [c'|]; [|done]. cbn [ok_or].
    rewrite bind_of_Ok. destruct (epoch c' =? carried) eqn:He; [|done]. intros [= <-]. split; [done|lia]. }
  destruct pr; [done| |done|].
  - revert Hrest. intros (m&s2&Hm&(u&_&(c&Hc&Hcc)%lift_inv)%lift_inv)%remote_inv.
    apply Hadm in Hc as [_ <-]. by apply complete_spec in Hcc.
  - revert Hrest. intros (rs&s2&Hrs&([]&[s2' r2]&[= <- <-]&(m&s3&Hm&(u&_&([]&Hd&(c&Hc&
      ([h info]&s4&Ho&Hst)%remote_inv)%lift_inv)%lift_inv)%lift_inv)%remote_inv)%bind_inv)%remote_inv.
    apply remote_Ok in Hst. apply Hadm in Hc as [Hc <-].
    apply (growing_Ok _ _ _ _ (growing_open_data_stream _)) in Ho.
    apply (growing_Ok _ _ _ _ (growing_read_meta _)) in Hm.
    apply (resolve_spec _ _ _ _ _ Hcu) in Hrs as [Hg2 Hsub].
    destruct (Hsub eq_refl) as (subject&strm&Hds&Hstrm&Hsubs). rewrite Hds in Hst.
    assert (grows s s2) as Hg by (apply (grows_trans _ _ s1); [|done]; apply (growing_Ok _ _ _ _ (growing_presence a) Hp)).
    assert (starts_with s2 (na_data_stream_name a) subject []) as Hs2.
    { exists strm, (st_messages strm). split; [done|]. split; [|done].
      destruct (stream_at s (na_data_stream_name a)) as [strm0|] eqn:Hs0.
      - destruct (grows_stream _ _ _ _ _ Hg Hs0) as (strm'&Hst'&Hgr).
        assert (strm' = strm) as -> by congruence. by apply (grown_whole strm0), Hwhole.
      - by apply (grows_born _ _ _ _ _ Hg Hs0). }
    apply (start_session a _ _ _ _ _ _ _ _ _ _ []) in Hst; [done| |done|done].
    by apply (starts_with_grows s3), (starts_with_grows s2).
Qed.

(** ** Creation cut short *)

Lemma presence_sees a s pr s' :
  nats_try_presence a s = (Ok pr, s') → grows s s' ∧
  (is_Some (stream_at s (na_meta_stream_name a)) →
     pr = ArtefactPresence_OwnershipRecordOnly ∨ pr = ArtefactPresence_Both) ∧
  (is_Some (stream_at s (na_data_stream_name a)) →
     pr = ArtefactPresence_EventDataOnly ∨ pr = ArtefactPresence_Both).
Proof.
  unfold nats_try_presence.
  intros (m&s1&Hm&(d&s2&Hd&Hr)%bind_inv)%bind_inv. injection Hr as <- <-.
  apply stream_exists_spec in Hm as [Hg1 Hm], Hd as [Hg2 Hd].
  pose proof (grows_trans _ _ _ _ Hg1 Hg2) as Hg. split; [done|]. split; intros [strm Hs].
  - destruct (grows_stream _ _ _ _ _ Hg1 Hs) as (?&?&_). destruct m; [|congruence].
    destruct d; auto.
  - destruct (grows_stream _ _ _ _ _ Hg Hs) as (?&?&_). destruct d; [|congruence].
    destruct m; auto.
Qed.

Lemma growing_create_data a map : growing (create_data_stream a map).
Proof.
  apply growing_bind.
  - apply growing_request. intros s r s' Hc. by apply create_stream_law in Hc as [].
  - intros u s. unfold publish_at. destruct (publish _ _ s) as [o s1] eqn:Hp.
    apply publish_law in Hp as [Hg _]. by destruct o.
Qed.

(** A claim and no descriptor among the records. *)
Lemma absorb_header records seq :
  seq = 1 → absorb_message records seq (to_bytes ContainerHeader_new) = Ok records.
Proof. intros ->. unfold absorb_message. by vm_compute. Qed.

Lemma creation_cut_undescribed c d k m :
  OwnershipRecord_wf (OwnershipRecord_OwnershipClaim c) →
  frame_wf (record_image (OwnershipRecord_OwnershipClaim c)) → (k < 3)%nat →
  absorb_all MetaRecords_default 1 (take k (creation_messages c d)) = Ok m →
  require_descriptor m ≠ Ok tt.
Proof.
  intros Hw Hf Hk. assert (absorb_all MetaRecords_default 1 (take k (creation_messages c d)) = Ok m →
    schema_descriptor m = None) as Hm.
  - destruct k as [|k]; [by intros [= <-]|]. cbn [take creation_messages absorb_all].
    rewrite absorb_header, bind_of_Ok by done.
    destruct k as [|k]; [by intros [= <-]|]. destruct k; [|lia]. cbn [take absorb_all].
    unfold absorb_message. cbn [Z.eqb Z.add Pos.eqb Pos.add].
    pose proof (codec_complete ContainerFrame_codec _ [] Hf) as Hd1. rewrite app_nil_r in Hd1.
    rewrite Hd1, map_err_of_Ok, bind_of_Ok, Z.eqb_refl. cbn [negb].
    pose proof (OwnershipRecord_complete _ [] Hw (λ _ _ _, eq_refl)) as Hd.
    rewrite app_nil_r in Hd. rewrite Hd, map_err_of_Ok, bind_of_Ok, Z.eqb_refl. cbn [negb].
    by intros [= <-].
  - intros Ha. apply Hm in Ha. unfold require_descriptor. by rewrite Ha.
Qed.

(** Taking the artefact up while a stream of its is [strm]: creating it fails, and
    only asks; completing it or opening it for writing fails and only asks, unless
    asking finds that others wrote into the stream. *)
Definition stuck_at a s name strm : Prop :=
  (∀ c d limit r s', nats_create_with_limit a c d limit s = (r, s') →
     is_ok r = false ∧ queried s s') ∧
  (∀ c, heeds name strm s (nats_complete_creation a c)) ∧
  (∀ carried, heeds name strm s (nats_open_write a carried)).

Lemma nats_create_asks a s c d limit r s' :
  is_Some (stream_at s (na_meta_stream_name a)) ∨ is_Some (stream_at s (na_data_stream_name a)) →
  nats_create_with_limit a c d limit s = (r, s') → is_ok r = false ∧ queried s s'.
Proof.
  intros He. unfold nats_create_with_limit, mbind, eff_bind, lift. pose proof (asking_presence a s) as Hq.
  destruct (nats_try_presence a s) as [[pr|err|] s1] eqn:Hp; [|by intros [= <- <-]..].
  apply presence_sees in Hp as (_&Hm&Hd). assert (is_ok (admit_create pr) = false) as Had.
  { destruct He as [[]%Hm|[]%Hd]; by subst pr. }
  destruct (admit_create pr); [done|by intros [= <- <-]..].
Qed.

Lemma nats_create_refused a s c d limit st s' :
  is_Some (stream_at s (na_meta_stream_name a)) ∨ is_Some (stream_at s (na_data_stream_name a)) →
  nats_create_with_limit a c d limit s ≠ (Ok st, s').
Proof. intros He Hc. by apply nats_create_asks in Hc as []. Qed.

Lemma seen_from_still s name s' ms strm :
  stream_at s name = Some strm → seen_from s name s' ms → stream_at s' name = Some strm →
  st_messages strm = Some <$> ms.
Proof.
  intros Hs (st&rest&Hst&_&Hm&Hl) Hs'. assert (st = strm) as -> by congruence.
  specialize (Hl _ Hs). rewrite Hm, length_app, length_fmap in Hl.
  destruct rest; [by rewrite Hm, app_nil_r|]. simpl in Hl. lia.
Qed.

(** Whoever reads a descriptor, finds more than a creation cut short wrote. *)
Lemma described_read_differs a c d k s strm s1 m s2 :
  OwnershipRecord_wf (OwnershipRecord_OwnershipClaim c) →
  frame_wf (record_image (OwnershipRecord_OwnershipClaim c)) → (k < 3)%nat →
  stream_at s (na_meta_stream_name a) = Some strm →
  st_messages strm = Some <$> take k (creation_messages c d) →
  grows s s1 → read_meta_records_async (na_meta_stream_name a) s1 = (Ok m, s2) →
  require_descriptor m = Ok tt → stream_at s2 (na_meta_stream_name a) ≠ Some strm.
Proof.
  intros Hw Hf Hk Hs Hm Hg1 Hr Hd Hs'. apply read_meta_inv in Hr as [[Hn _]|(ms&Hseen&Ha)]; [congruence|].
  apply (seen_from_grows s _ _ s2) in Hseen; [|done|apply (grows_refl stream_at)].
  rewrite (seen_from_still _ _ _ _ _ Hs Hseen Hs') in Hm. apply (inj (fmap Some)) in Hm as ->.
  by apply (creation_cut_undescribed c d k m).
Qed.

Lemma asking_inspect name canonical legacy kind :
  asking (inspect_stream_subject name canonical legacy kind).
Proof. unfold inspect_stream_subject. asking. Qed.
#[local] Hint Resolve asking_inspect : asking.

Lemma asking_resolve a presence : asking (resolve_open_subjects a presence).
Proof. unfold resolve_open_subjects. asking. Qed.

Lemma heeds_remote_bind {A B} name strm s (m : eff Server A) (f : A → eff (Server * ResolvedSubjects) B) :
  asking m → (∀ v s1, m s = (Ok v, s1) → queried s s1 → heeds name strm s1 (f v)) →
  heeds name strm s (remote m ≫= f).
Proof.
  intros Hm Hf x r s' x'. unfold mbind, eff_bind, remote. specialize (Hm s).
  destruct (m s) as [[v|err|] s1] eqn:Hr; [|by intros [= <- <- _]; left..].
  by apply heeds_after, Hf.
Qed.

Lemma heeds_cache_bind {B} name strm s res (f : unit → eff (Server * ResolvedSubjects) B) :
  heeds name strm s (f tt) → heeds name strm s (cache_resolved_subjects res ≫= f).
Proof. intros Hf x. exact (Hf res). Qed.

(** Completion and opening, of an artefact whose records hold no descriptor while
    the stream is [strm]. *)
Section undescribed.
Context (a : NatsStorageAdapter) (s : Server) (name : bytes) (strm : Stream).
Context (Hmeta : ∀ s1 m s2, queried s s1 →
  read_meta_records_async (na_meta_stream_name a) s1 = (Ok m, s2) →
  require_descriptor m = Ok tt → stream_at s2 name ≠ Some strm).

Lemma complete_heeds c s1 : queried s s1 → heeds name strm s1 (nats_complete_creation a c).
Proof.
  intros Hq. apply heeds_remote_bind; [apply asking_presence|]. intros presence s2 _ Hq2.
  apply heeds_lift_bind. intros [] _.
  apply heeds_remote_bind; [apply asking_resolve|]. intros resolved s3 _ Hq3.
  apply heeds_cache_bind. apply heeds_remote_bind; [apply asking_read_meta|]. intros m s4 Hr _.
  apply heeds_lift_bind. intros [] Hd. apply heeds_changed. apply (Hmeta s3 m s4); [|done..].
  by apply (queried_trans s1), (queried_trans s2).
Qed.

Lemma open_write_heeds carried : heeds name strm s (nats_open_write a carried).
Proof.
  apply heeds_remote_bind; [apply asking_presence|]. intros presence s1 _ Hq1.
  destruct presence; [apply heeds_failed| |apply heeds_failed|].
  - apply heeds_remote_bind; [apply asking_read_meta|]. intros m s2 _ Hq2.
    apply heeds_lift_bind. intros [] _. apply heeds_lift_bind. intros c _.
    by apply complete_heeds, (queried_trans s1).
  - apply heeds_remote_bind; [apply asking_resolve|]. intros resolved s2 _ Hq2.
    apply heeds_cache_bind. apply heeds_remote_bind; [apply asking_read_meta|]. intros m s3 Hr _.
    apply heeds_lift_bind. intros [] _. apply heeds_lift_bind. intros [] Hd.
    apply heeds_changed, (Hmeta s2 m s3); [|done..]. by apply (queried_trans s1).
Qed.
End undescribed.

(** Completion and opening, of an artefact whose data stream has no header. *)
Section headless.
Context (a : NatsStorageAdapter) (s : Server) (strm : Stream).
Context (Hs : stream_at s (na_data_stream_name a) = Some strm) (Hnil : st_messages strm = []).

Lemma presence_sees_data pr s1 :
  nats_try_presence a s = (Ok pr, s1) →
  pr = ArtefactPresence_EventDataOnly ∨ pr = ArtefactPresence_Both.
Proof. intros (_&_&Hd)%presence_sees. apply Hd. by exists strm. Qed.

Lemma complete_heeds_data c : heeds (na_data_stream_name a) strm s (nats_complete_creation a c).
Proof.
  apply heeds_remote_bind; [apply asking_presence|]. intros presence s1 Hp _.
  apply heeds_lift_bind. by destruct (presence_sees_data _ _ Hp) as [->| ->].
Qed.

Lemma open_write_heeds_data carried :
  heeds (na_data_stream_name a) strm s (nats_open_write a carried).
Proof.
  apply heeds_remote_bind; [apply asking_presence|]. intros presence s1 Hp _.
  destruct (presence_sees_data _ _ Hp) as [->| ->]; [apply heeds_failed|].
  apply heeds_remote_bind; [apply asking_resolve|]. intros resolved s2 _ _.
  apply heeds_cache_bind. apply heeds_remote_bind; [apply asking_read_meta|]. intros m s3 _ _.
  do 2 (apply heeds_lift_bind; intros [] _). apply heeds_lift_bind. intros c _.
  apply heeds_remote_bind; [apply asking_open_data_stream|]. intros [h info] s4 Ho _.
  apply heeds_changed. apply open_data_stream_spec in Ho as (_&_&Ho).
  destruct (Ho h info eq_refl) as (_&_&q&stq&_&_&_&_&st'&Hst'&Hmsg). intros Hst.
  assert (st' = strm) as -> by congruence. revert Hmsg. unfold message.
  rewrite Hnil, lookup_nil. simpl. by destruct (1 <? st_first strm).
Qed.
End headless.
End creation.

Section adapter_properties.
Context `{Digests, !DigestLaws, JetStreamLaws}.
Implicit Types (a : NatsStorageAdapter).

Lemma starts_with_agree s name sub1 sub2 ms1 ms2 :
  starts_with s name sub1 ms1 → starts_with s name sub2 ms2 → length ms1 = length ms2 → ms1 = ms2.
Proof.
  intros (st1&r1&Hst1&_&_&Hm1) (st2&r2&Hst2&_&_&Hm2) Hl. assert (st1 = st2) as -> by congruence.
  rewrite Hm1 in Hm2. apply app_inj_1 in Hm2 as [Hm _]; [|by rewrite !length_fmap].
  by apply (inj (fmap Some)) in Hm.
Qed.

(** C18: An artefact is created once. When creating an artefact succeeds, whatever
    other clients do meanwhile, the meta stream starts with the container header,
    the given claim and the given descriptor, and the session is live over frames
    at the head of the data stream, with the claim's epoch. And any other
    creation of the same artefact that succeeds, at any time, was of the same
    claim and the same descriptor. *)
Theorem nats_creation_agreed a c d s st s' :
  OwnershipRecord_wf (OwnershipRecord_OwnershipClaim c) →
  nats_create a c d s = (Ok st, s') →
  starts_with s' (na_meta_stream_name a) (na_meta_subject a) (creation_messages c d) ∧
  live st ∧ server (engine st) = s' ∧ ne_carried_epoch (engine st) = epoch c ∧
  (∃ fs, follows_log (engine st) (log_messages fs)) ∧
  ∀ a2 c2 d2 sb st2 s2' later, na_meta_stream_name a2 = na_meta_stream_name a →
    OwnershipRecord_wf (OwnershipRecord_OwnershipClaim c2) →
    nats_create a2 c2 d2 sb = (Ok st2, s2') → grows s' later → grows s2' later →
    c2 = c ∧ encoded_record d2 = encoded_record d.
Proof.
  intros Hw Hc. destruct (nats_create_spec a c d _ _ _ _ Hw Hc) as (Hs&Hf1&Hf2&Hsv&Hl&He&fs&Hf&_).
  split; [done|]. split; [done|]. split; [done|]. split; [done|]. split; [by exists fs|].
  intros a2 c2 d2 sb st2 s2' later Hn Hw2 Hc2 Hg1 Hg2.
  destruct (nats_create_spec a2 c2 d2 _ _ _ _ Hw2 Hc2) as (Hs2&Hf12&Hf22&_). rewrite Hn in Hs2.
  apply (starts_with_grows _ later) in Hs, Hs2; [|done..].
  pose proof (starts_with_agree _ _ _ _ _ _ Hs2 Hs eq_refl) as Heq.
  pose proof (f_equal (λ l, nth 1 l []) Heq) as Hq1. pose proof (f_equal (λ l, nth 2 l []) Heq) as Hq2.
  cbn [nth creation_messages] in Hq1, Hq2.
  apply (codec_inj ContainerFrame_codec _ _ Hf12 Hf1) in Hq1.
  apply (codec_inj ContainerFrame_codec _ _ Hf22 Hf2) in Hq2. split; [|done].
  pose proof (OwnershipRecord_complete _ [] Hw (λ _ _ _, eq_refl)) as D1.
  pose proof (OwnershipRecord_complete _ [] Hw2 (λ _ _ _, eq_refl)) as D2.
  rewrite Hq1, D1 in D2. by injection D2.
Qed.

(** C37: A creation cut short stays unusable. When the creator stopped before the
    descriptor was in the meta stream, or before the header was in the data
    stream, creating the artefact again fails for everybody, having asked the
    server and written nothing. Completing it, as its claimant, and opening it for
    writing do the same, unless what they asked showed that the stream is no
    longer what it was before they wrote anything: then some other client wrote
    into it. None of the three repairs it. *)
Theorem nats_interrupted_creation_stuck a s strm :
  (∀ c d k, OwnershipRecord_wf (OwnershipRecord_OwnershipClaim c) →
     frame_wf (record_image (OwnershipRecord_OwnershipClaim c)) → (k < 3)%nat →
     stream_at s (na_meta_stream_name a) = Some strm →
     st_messages strm = Some <$> take k (creation_messages c d) →
     stuck_at a s (na_meta_stream_name a) strm) ∧
  (stream_at s (na_data_stream_name a) = Some strm → st_messages strm = [] →
     stuck_at a s (na_data_stream_name a) strm).
Proof.
  split.
  - intros c d k Hw Hf Hk Hs Hm. split; [intros *; apply nats_create_asks; left; by exists strm|].
    assert (∀ s1 m s2, queried s s1 → read_meta_records_async (na_meta_stream_name a) s1 = (Ok m, s2) →
      require_descriptor m = Ok tt → stream_at s2 (na_meta_stream_name a) ≠ Some strm) as Hr.
    { intros s1 m s2 Hq. by eapply described_read_differs, queried_grows. }
    split; intros; [by eapply complete_heeds, rtc_refl|by apply open_write_heeds].
  - intros Hs Hnil. split; [intros *; apply nats_create_asks; right; by exists strm|].
    split; intros; [by apply complete_heeds_data|by apply open_write_heeds_data].
Qed.

(** C19: Opening for writing admits only the epoch on record. When a writer opens
    for an epoch on an artefact nothing was deleted from, the last claim it read
    has that epoch, the descriptor it read is admissible, and the session is live
    over frames at the head of the data stream, which binds the subject the
    session publishes to. *)
Theorem nats_open_write_admits a carried s res st s' res' :
  custom_subjects_for_test a = false →
  (∀ strm, stream_at s (na_data_stream_name a) = Some strm → whole strm) →
  nats_open_write a carried (s, res) = (Ok st, (s', res')) →
  server (engine st) = s' ∧ live st ∧ ne_carried_epoch (engine st) = carried ∧
  (∃ c, ne_claim (engine st) = Some c ∧ epoch c = carried ∧
     latest_claim (ne_meta_records (engine st)) = Some c ∧
     require_descriptor (ne_meta_records (engine st)) = Ok tt) ∧
  ∃ fs, follows_log (engine st) (log_messages fs) ∧ stored (engine st) = fs.
Proof. intros Hcu Hw Ho. by apply (open_write_spec a carried s res st s' res'). Qed.
End adapter_properties.
