(* ===== verification/NatsScenarios.v ===== *)
(** * Sessions on a concrete JetStream server

    The properties of the JetStream engine and adapter at concrete inputs: an
    artefact created on the server in memory, over toy digests, with messages of
    other clients between the calls. *)

From S2P Require Export NatsAdapter.

#[local] Existing Instance toy_digests.
#[local] Existing Instance toy_digest_laws.

(** ** Samples *)

Definition sample_nats : NatsStorageAdapter :=
  from_client_internal_with_locator (locator_of [str "demo"; str "main"]).
Definition empty_server (script : list turn) : Server := mk_MemServer ∅ script.
Definition mem_creation (script : list turn) :
    outcome OperationFailure (Store NatsEngine) * Server :=
  nats_create sample_nats (sample_claim 3) sample_admitted (empty_server script).

(** The server after creating the artefact. *)
Definition created_server : Server := (mem_creation []).2.
Definition with_script (script : list turn) (s : Server) : Server :=
  mk_MemServer (mem_streams s) script.
(** An engine that just recovered the fresh artefact. *)
Definition mem_engine (script : list turn) : NatsEngine :=
  fresh_nats_engine sample_nats (na_meta_subject sample_nats) (na_data_subject sample_nats) 3
    (Some (sample_claim 3)) MetaRecords_default OpenAdmission_Ready 1 false
    (with_script script created_server).

Definition stream_of (s : MemServer) (name : bytes) : Stream :=
  default (mk_Stream [] 1 []) (mem_stream s name).

Lemma mem_engine_follows script : follows_log (mem_engine script) (log_messages []).
Proof.
  split; [reflexivity|]. exists (stream_of created_server (na_data_stream_name sample_nats)), [].
  split; [vm_compute; reflexivity|]. split.
  - split; [vm_compute; reflexivity|]. by (apply (bool_decide_unpack _); vm_compute).
  - split; [vm_compute; reflexivity|vm_compute; reflexivity].
Qed.

(** Unification is not to run the server. *)
#[local] Opaque created_server nats_append_block.

Lemma mem_engine_owns script : owns_stream (mem_engine script).
Proof.
  destruct (mem_engine_follows script) as (_&st&rest&Hst&Hw&Hs&_). exists st.
  split; [exact Hst|]. split; [exact Hw|exact Hs].
Qed.

(** ** The properties at concrete inputs *)

Lemma nats_creation_agreed_witness :
  match mem_creation [turn_ok; turn_other (str "unrelated") [x00]] with
  | (Ok st, s') =>
      starts_with s' (na_meta_stream_name sample_nats) (na_meta_subject sample_nats)
        (creation_messages (sample_claim 3) sample_admitted)
  | _ => False
  end.
Proof.
  destruct (mem_creation [turn_ok; turn_other (str "unrelated") [x00]]) as [r s'] eqn:Hc.
  assert (is_ok r = true) as Hr.
  { change r with (r, s').1. rewrite <-Hc. vm_compute. reflexivity. }
  destruct r as [st| |]; [|done..].
  apply (nats_creation_agreed sample_nats (sample_claim 3) sample_admitted
           (empty_server [turn_ok; turn_other (str "unrelated") [x00]]) st s'); [|done].
  by (apply (bool_decide_unpack _); vm_compute).
Defined.

(** One block lands, a timed out one does not, and the engine stops. *)
Definition sample_block : bytes := frame_image (str "event").
Definition reads : list turn := replicate 5 turn_ok.
Definition first_landing : NatsEngine :=
  (nats_append_block sample_block (mem_engine (reads ++ [turn_ok] ++ reads ++ [turn_lost]))).2.
Definition second_landing : NatsEngine := (nats_append_block [x01] first_landing).2.

Lemma first_landing_lands :
  nats_append_block sample_block (mem_engine (reads ++ [turn_ok] ++ reads ++ [turn_lost])) =
    (Ok (WriteLandingVerdict_Landed 2), first_landing).
Proof.
  apply injective_projections; [vm_compute; reflexivity|reflexivity].
Qed.

Lemma second_landing_lost :
  (nats_append_block [x01] first_landing).1 = Ok (WriteLandingVerdict_Undetermined 3).
Proof. vm_compute. reflexivity. Qed.

Lemma nats_appends_contiguous_witness :
  follows_log second_landing (log_messages [] ++ [sample_block]) ∧
  grows (server (mem_engine (reads ++ [turn_ok] ++ reads ++ [turn_lost]))) (server second_landing) ∧
  ne_uncertain second_landing = true.
Proof.
  destruct (nats_appends_contiguous (mem_engine (reads ++ [turn_ok] ++ reads ++ [turn_lost]))
    (log_messages []) [sample_block] second_landing) as (Hf&Hg&_).
  - apply mem_engine_follows.
  - apply (appends_landed _ sample_block 2 first_landing); [exact first_landing_lands|].
    apply (appends_not_landed _ [x01] (nats_append_block [x01] first_landing).1 second_landing);
      [apply surjective_pairing| |apply appends_done].
    intros seq. rewrite second_landing_lost. discriminate.
  - split; [exact Hf|]. split; [exact Hg|]. vm_compute. reflexivity.
Defined.

(** Another engine on the same artefact tries after the first landing. *)
Lemma one_writer_lands_witness :
  let e2 := with_server (server first_landing) (mem_engine []) in
  ∃ ls, appends e2 ls (nats_append_block sample_block e2).2 ∧ ls = [].
Proof.
  intros e2.
  assert (∃ ls, appends e2 ls (nats_append_block sample_block e2).2) as [ls Ha].
  { exists []. eapply appends_not_landed; [apply surjective_pairing| |apply appends_done].
    assert ((nats_append_block sample_block e2).1 = Ok (WriteLandingVerdict_Undetermined 3)) as ->
      by (vm_compute; reflexivity). discriminate. }
  exists ls. split; [exact Ha|].
  apply (one_writer_lands (mem_engine (reads ++ [turn_ok] ++ reads ++ [turn_lost]))
    (mem_engine (reads ++ [turn_ok] ++ reads ++ [turn_lost])) (log_messages []) sample_block []
    first_landing (server first_landing) ls (nats_append_block sample_block e2).2).
  - apply mem_engine_follows.
  - apply mem_engine_follows.
  - reflexivity.
  - apply (appends_landed _ sample_block 2 first_landing);
      [exact first_landing_lands|apply appends_done].
  - apply (grows_refl stream_at).
  - destruct (append_block_result _ _ sample_block _ _
      (mem_engine_follows (reads ++ [turn_ok] ++ reads ++ [turn_lost])) first_landing_lands) as (_&Hg&_).
    exact Hg.
  - exact Ha.
Defined.

Lemma second_writer_conflicts :
  let e2 := with_server (server first_landing) (mem_engine []) in
  let e2 := with_server (with_script [] (server first_landing)) e2 in
  (nats_append_block sample_block e2).1 = fail FailureCondition_ConcurrencyConflict.
Proof. vm_compute. reflexivity. Qed.

(** The landing was authorised by the records of the creation. *)
Lemma nats_writes_authorised_witness :
  ∃ ms m c, seen_from (server (mem_engine (reads ++ [turn_ok] ++ reads ++ [turn_lost])))
      (na_meta_stream_name sample_nats) (server first_landing) ms ∧
    absorb_all MetaRecords_default 1 ms = Ok m ∧
    outbound_pointer m = None ∧ latest_claim m = Some c ∧ epoch c = 3.
Proof.
  exact (nats_writes_authorised sample_block
    (mem_engine (reads ++ [turn_ok] ++ reads ++ [turn_lost])) (WriteLandingVerdict_Landed 2)
    first_landing first_landing_lands).
Defined.

(** ** Recovery and sessions *)

(** Two events on the stream, and another client about to write a third. *)
Definition event_frames : list bytes := envelope_image <$> sample_chain.
Definition chain_server (script : list turn) : Server :=
  with_script script
    (foldl (λ s p, mem_push (na_data_stream_name sample_nats) (frame_image p) s) created_server
       event_frames).
Definition chain_engine (script : list turn) : NatsEngine :=
  with_server (chain_server script) (mem_engine []).

Lemma chain_engine_owns script : owns_stream (chain_engine script).
Proof.
  exists (stream_of (chain_server []) (na_data_stream_name sample_nats)).
  split; [vm_compute; reflexivity|]. split.
  - split; [vm_compute; reflexivity|]. by (apply (bool_decide_unpack _); vm_compute).
  - vm_compute. reflexivity.
Qed.

Definition collect : FrameRecoveryCallback (list bytes) := λ _ frame seen, (Ok tt, seen ++ [frame]).
Definition noisy_engine : NatsEngine := chain_engine
  [turn_ok; turn_ok; turn_ok; turn_other (na_data_stream_name sample_nats) [x00]].
Definition chain_recovery := nats_recover_frames 1 collect noisy_engine [].

Lemma chain_recovery_run :
  nats_recover_frames 1 collect noisy_engine [] = (Ok 2, chain_recovery.1.2, chain_recovery.2).
Proof.
  fold chain_recovery.
  assert (chain_recovery.1.1 = Ok 2) as <- by (vm_compute; reflexivity).
  by destruct chain_recovery as [[r e] s].
Qed.

#[local] Opaque chain_engine nats_recover_frames.

Lemma recovery_follows_log_witness :
  ∃ ps, follows_log chain_recovery.1.2 (log_messages ps) ∧ Forall frame_wf ps ∧
    feed collect 0 ps [] = (Ok 2, chain_recovery.2) ∧
    grows (server noisy_engine) (server chain_recovery.1.2).
Proof.
  apply (recovery_follows_log 1 collect noisy_engine []).
  - apply chain_engine_owns.
  - exact chain_recovery_run.
Defined.

(** A session that appends, is refused a frame, and detaches without an answer. *)
Definition nats_writes : list write_op :=
  [write_fiber op_append (sample_id x02) (sample_id x05) [x2c]; write_frame [x00];
   write_fiber op_detach (sample_id x02) (sample_id x06) []].
Definition chain_store : Store NatsEngine :=
  match open_writer (chain_engine []) with
  | Ok st => st
  | _ => mk_Store (chain_engine []) RollingCommitment_new SessionIndex_new None true None
  end.
Definition chain_session := run_writes nats_writes chain_store.

Lemma chain_store_opens : open_writer (chain_engine []) = Ok chain_store.
Proof.
  assert (is_ok (open_writer (chain_engine [])) = true) as Hok by (vm_compute; reflexivity).
  unfold chain_store. by destruct (open_writer (chain_engine [])).
Qed.

#[local] Opaque chain_store.

Lemma nats_session_keeps_log_witness :
  ∃ fs, let log := fs ++ landed_frames chain_session.1 in
    follows_log (engine chain_store) (log_messages fs) ∧
    Forall (λ r, r ≠ Panic) chain_session.1 ∧
    (∃ strm rest,
       stream_at (server (engine chain_session.2)) (ne_data_stream_name (chain_engine [])) = Some strm ∧
       whole strm ∧ st_messages strm = (Some <$> log_messages log) ++ rest) ∧
    build_from_frames log = Ok (fiber_index chain_session.2) ∧
    rolling_commitment chain_session.2 = commit_frames RollingCommitment_new log.
Proof.
  apply (nats_session_keeps_log (chain_engine []) chain_store nats_writes).
  - apply chain_engine_owns.
  - vm_compute. reflexivity.
  - exact chain_store_opens.
  - apply surjective_pairing.
Defined.

Lemma chain_session_lands : length (landed_frames chain_session.1) = 2%nat.
Proof. vm_compute. reflexivity. Qed.

(** ** Opening *)

Definition reopening : outcome OperationFailure (Store NatsEngine) * (Server * ResolvedSubjects) :=
  nats_open_write sample_nats 3 (chain_server [], ResolvedSubjects_default).
Definition session_or (st : Store NatsEngine) (r : outcome OperationFailure (Store NatsEngine)) :
    Store NatsEngine :=
  match r with
  | Ok st => st
  | _ => st
  end.
Definition reopened : Store NatsEngine := session_or chain_store reopening.1.

Lemma reopening_run :
  nats_open_write sample_nats 3 (chain_server [], ResolvedSubjects_default) =
    (Ok reopened, (reopening.2.1, reopening.2.2)).
Proof.
  fold reopening. assert (is_ok reopening.1 = true) as Hok by (vm_compute; reflexivity).
  unfold reopened, session_or. by destruct reopening as [[st| |] [s res]].
Qed.

#[local] Opaque nats_open_write chain_server.

Lemma nats_open_write_admits_witness :
  server (engine reopened) = reopening.2.1 ∧ live reopened ∧ ne_carried_epoch (engine reopened) = 3 ∧
  (∃ c, ne_claim (engine reopened) = Some c ∧ epoch c = 3 ∧
     latest_claim (ne_meta_records (engine reopened)) = Some c ∧
     require_descriptor (ne_meta_records (engine reopened)) = Ok tt) ∧
  ∃ fs, follows_log (engine reopened) (log_messages fs) ∧ stored (engine reopened) = fs.
Proof.
  apply (nats_open_write_admits sample_nats 3 (chain_server []) ResolvedSubjects_default reopened
           reopening.2.1 reopening.2.2).
  - reflexivity.
  - intros strm Hs. destruct (chain_engine_owns []) as (strm'&Hs'&Hw&_).
    change (stream_at (chain_server []) (na_data_stream_name sample_nats) = Some strm') in Hs'.
    rewrite Hs in Hs'. by injection Hs' as ->.
  - exact reopening_run.
Defined.

(** ** What the adapter does not prevent *)

(** The servers of a race: the writer of epoch 3 has checked its authority; then
    epoch 4 is claimed; then the writer publishes. *)
Definition racing_engine : NatsEngine := with_server (with_script [] created_server) (mem_engine []).
Definition after_check : Server := (nats_check_authority racing_engine (server racing_engine)).2.
Definition after_claim : Server :=
  (record_ownership_record_internal sample_nats (OwnershipRecord_OwnershipClaim (sample_claim 4))
     (after_check, ResolvedSubjects_default)).2.1.

(** The fence is not where the write lands. The authority of a writer is
    checked before it publishes and on another stream: a writer that passed the
    check with epoch 3 lands its block after epoch 4 has been claimed and
    recorded, on a server where the same check already answers that its epoch is
    stale. *)
Theorem superseded_writer_may_land :
  ∃ e block seq e', ne_carried_epoch e = 3 ∧
    nats_check_authority e (server e) = (Ok tt, after_check) ∧
    (nats_current_epoch sample_nats after_claim).1 = Ok 4 ∧
    (nats_check_authority e after_claim).1 = fail FailureCondition_StaleEpoch ∧
    publish_block block (with_server after_claim e) =
      (Ok (WriteLandingVerdict_Landed seq), e').
Proof.
  exists racing_engine, sample_block, 2, (publish_block sample_block (with_server after_claim racing_engine)).2.
  split; [reflexivity|].
  split; [apply injective_projections; [vm_compute; reflexivity|reflexivity]|].
  split; [vm_compute; reflexivity|]. split; [vm_compute; reflexivity|].
  apply injective_projections; [vm_compute; reflexivity|reflexivity].
Qed.

(** What the three ways to take up an artefact for epoch 3 answer. *)
Definition answers (s : Server) : list FailureCondition :=
  omap (λ r, match r with Err err => Some (condition err) | _ => None end)
    [(nats_create sample_nats (sample_claim 3) sample_admitted s).1;
     (nats_complete_creation sample_nats (sample_claim 3) (s, ResolvedSubjects_default)).1;
     (nats_open_write sample_nats 3 (s, ResolvedSubjects_default)).1].

(** What a creator leaves that stops after so many calls. *)
Definition cut (n : nat) : Server := (mem_creation (replicate n turn_ok ++ [turn_down])).2.

(** Only the cut between the two streams is taken up. *)
Lemma cut_answers :
  let exists_already := FailureCondition_StoreAlreadyExists in
  let unreadable := FailureCondition_OwnershipRecordUnreadable in
  answers (cut 3%nat) = [exists_already; unreadable; unreadable] ∧
  answers (cut 4%nat) =
    [exists_already; FailureCondition_MissingSchemaDescriptor;
     FailureCondition_OwnershipUnestablished] ∧
  answers (cut 5%nat) =
    [exists_already; FailureCondition_MissingSchemaDescriptor;
     FailureCondition_MissingSchemaDescriptor] ∧
  answers (cut 6%nat) = [exists_already] ∧
  answers (cut 7%nat) = [exists_already; exists_already; broken].
Proof. vm_compute. by repeat split. Qed.

(** The claim is written and the descriptor is not. *)
Lemma nats_interrupted_creation_stuck_witness :
  let name := na_meta_stream_name sample_nats in
  stuck_at sample_nats (cut 5%nat) name (stream_of (cut 5%nat) name).
Proof.
  apply (nats_interrupted_creation_stuck sample_nats (cut 5%nat)) with (c := sample_claim 3)
    (d := sample_admitted) (k := 2%nat).
  - by (apply (bool_decide_unpack _); vm_compute).
  - by (apply (bool_decide_unpack _); vm_compute).
  - lia.
  - vm_compute. reflexivity.
  - vm_compute. reflexivity.
Defined.
