(* ===== verification/Migration.v ===== *)
(** * Migration: [src/crates/pardosa/src/migration.rs]

    The typed contract of a migration step, the two roles an adapter can play, and
    the manager. The release disables live migration: a manager cannot be made and
    its phases refuse, so what is left to prove is what a source promises, the
    reading of whole histories, broken ones included. *)

From S2P Require Export Adapter NatsAdapter Typed.
From S2P Require Import Scenarios.

(** ** Steps from one schema version to the next *)

(** [ADJACENCY_ASSERTION], evaluated when the type is instantiated: a failed
    assertion is a program that does not compile, here [Panic]. *)
Definition assert_adjacent {E} (source target : Z) : outcome E unit :=
  if negb (source <? u32_max) then Panic else
  if negb (target =? source + 1) then Panic else
  Ok tt.

(** [VersionMigration], with its two versions. *)
Record VersionMigration (SourceEvent TargetEvent Error : Type) := mk_VersionMigration {
  source_version : Z;
  target_version : Z;
  transform : SourceEvent → outcome Error TargetEvent;
}.
Arguments source_version {SourceEvent TargetEvent Error}.
Arguments target_version {SourceEvent TargetEvent Error}.
Arguments transform {SourceEvent TargetEvent Error}.

(** Keeping a migration whose versions are adjacent. *)
Definition AdjacentMigration_new {S T Error E} (m : VersionMigration S T Error) :
    outcome E (VersionMigration S T Error) :=
  _ ← assert_adjacent (source_version m) (target_version m);
  Ok m.
Definition AdjacentMigration_transform {S T Error} (m : VersionMigration S T Error) (event : S) :
    outcome Error T :=
  transform m event.

(** ** Sources and targets *)

Section roles.
Context `{Digests}.

Class MigrationSource (A W : Type) := {
  source_locator_id : A → bytes;
  source_current_epoch : A → eff W Z;
  read_envelopes : A → eff W (list EventEnvelope);
  source_read_meta : A → eff W MetaRecords;
}.
Class MigrationTarget (A W : Type) := {
  target_locator_id : A → bytes;
  target_current_epoch : A → eff W Z;
}.

(** A read on an open reader; the world afterwards is that of its engine. *)
Definition read_envelopes_with {E W} `{StorageEngine E} (world_of : E → W → W) (st : Store E) :
    eff W (list EventEnvelope) := λ w,
  let '(r, st) := read_all_envelopes_for_migration st in (r, world_of (engine st) w).

#[export] Instance FileStorageAdapter_source : MigrationSource FileStorageAdapter World := {
  source_locator_id := locator_id;
  source_current_epoch _ := reading current_epoch;
  read_envelopes _ := reader ← open_read; read_envelopes_with (λ e _, world e) reader;
  source_read_meta _ := reading read_meta;
}.
#[export] Instance FileStorageAdapter_target : MigrationTarget FileStorageAdapter World := {
  target_locator_id := locator_id;
  target_current_epoch _ := reading current_epoch;
}.

Context `{JetStream}.

Definition nats_read_envelopes (a : NatsStorageAdapter) :
    eff (Server * ResolvedSubjects) (list EventEnvelope) :=
  reader ← nats_open_read a;
  read_envelopes_with (λ e '(_, res), (server e, res)) reader.

#[export] Instance NatsStorageAdapter_source :
    MigrationSource NatsStorageAdapter (Server * ResolvedSubjects) := {
  source_locator_id := nats_locator_id;
  source_current_epoch a := remote (nats_current_epoch a);
  read_envelopes := nats_read_envelopes;
  source_read_meta a := remote (nats_read_meta_records a);
}.
#[export] Instance NatsStorageAdapter_target :
    MigrationTarget NatsStorageAdapter (Server * ResolvedSubjects) := {
  target_locator_id := nats_locator_id;
  target_current_epoch a := remote (nats_current_epoch a);
}.
End roles.

(** ** The manager *)

Inductive BrokenChainElection :=
  | BrokenChainElection_RefuseOnBreak
  | BrokenChainElection_PermitBrokenHistory.
Inductive MigrationPhase :=
  | MigrationPhase_Initial
  | MigrationPhase_Chase
  | MigrationPhase_Freeze
  | MigrationPhase_Completed.

Record CutoverSummary := mk_CutoverSummary {
  total_migrated_events : Z;
  surviving_fibers : Z;
  summary_source_locator_id : bytes;
  summary_target_locator_id : bytes;
  summary_prior_generation_epoch : Z;
  cutover_epoch : Z;
}.

Record MigrationManager (S T F : Type) := mk_MigrationManager {
  mm_source : S;
  mm_target : T;
  default_fiber_policy : FiberMigrationPolicy;
  fiber_policies : gmap bytes FiberMigrationPolicy;
  rescue_policy : RescuePolicy;
  rescue_policy_parameters : bytes;
  broken_chain_election : BrokenChainElection;
  transformer : F;
  source_generation : Z;
  target_generation : Z;
  phase : MigrationPhase;
}.
Arguments mk_MigrationManager {S T F}.
Arguments phase {S T F}.

(** "live migration is disabled in this release". *)
Definition migration_disabled {A} : outcome OperationFailure A :=
  fail FailureCondition_InvariantBreakingConfiguration.

Definition MigrationManager_new {S T F} (source : S) (target : T) :
    outcome OperationFailure (MigrationManager S T F) := migration_disabled.

Section manager.
Context {S T F : Type}.
Implicit Types (m : MigrationManager S T F).

Definition with_transformer {F2} m (transformer : F2) : MigrationManager S T F2 :=
  let 'mk_MigrationManager s t d fp rp rpp b _ sg tg ph := m in
  mk_MigrationManager s t d fp rp rpp b transformer sg tg ph.
Definition with_default_fiber_policy m (policy : FiberMigrationPolicy) : MigrationManager S T F :=
  let 'mk_MigrationManager s t _ fp rp rpp b f sg tg ph := m in
  mk_MigrationManager s t policy fp rp rpp b f sg tg ph.
Definition with_fiber_policy m (fid : bytes) (policy : FiberMigrationPolicy) :
    MigrationManager S T F :=
  let 'mk_MigrationManager s t d fp rp rpp b f sg tg ph := m in
  mk_MigrationManager s t d (<[fid := policy]> fp) rp rpp b f sg tg ph.
Definition with_rescue_policy m (policy : RescuePolicy) (parameters : bytes) :
    MigrationManager S T F :=
  let 'mk_MigrationManager s t d fp _ _ b f sg tg ph := m in
  mk_MigrationManager s t d fp policy parameters b f sg tg ph.
Definition with_broken_chain_election m (election : BrokenChainElection) :
    MigrationManager S T F :=
  let 'mk_MigrationManager s t d fp rp rpp _ f sg tg ph := m in
  mk_MigrationManager s t d fp rp rpp election f sg tg ph.
Definition with_generations m (source target : Z) : MigrationManager S T F :=
  let 'mk_MigrationManager s t d fp rp rpp b f _ _ ph := m in
  mk_MigrationManager s t d fp rp rpp b f source target ph.

Definition freeze m : outcome OperationFailure Z * MigrationManager S T F := (migration_disabled, m).
Definition cutover m : outcome OperationFailure CutoverSummary := migration_disabled.
Definition run_all m : outcome OperationFailure CutoverSummary := migration_disabled.
End manager.

(** ** Reading whole histories *)

Section whole_reads.
Context `{Digests, StorageEngine E, !AppendLaws E, !EngineLaws E}.
Implicit Types (st : Store E) (fs : list bytes).

Lemma absorb_commit fs : Forall frame_wf fs → ∀ r, absorb r fs = Ok (commit_frames r fs).
Proof.
  induction 1 as [|f fs Hf _ IH]; intros r; [done|]. cbn [absorb].
  by rewrite frame_of_image, bind_of_Ok, IH.
Qed.

Lemma decode_frames_all fs es :
  Forall2 (λ f e, decode_and_validate_frame f = Ok e) fs es → decode_frames fs = Ok es.
Proof. induction 1 as [|f e fs es Hf _ IH]; [done|]. cbn [decode_frames]. by rewrite Hf, IH. Qed.

Lemma process_frames_not_short fs : ∀ idx idx',
  process_frames idx fs = Ok idx' → existsb (λ f, blen f <? 85) fs = false.
Proof.
  induction fs as [|f fs IH]; intros idx idx'; [done|]. cbn [process_frames existsb].
  unfold process_frame. destruct (blen f <? 85); [done|]. destruct (match map_err _ _ with Ok _ => _ | _ => _ end)
    as [[u|err|] i]; [|done..]. intros Hp. by apply (IH i idx').
Qed.

Lemma open_reader_wf (e : E) st : engine_wf e → open_reader e = Ok st → engine_wf (engine st).
Proof.
  intros Hw. unfold open_reader.
  destruct (recover_frames 64 reader_callback e _) as [[r e'] [[rolling idx] err]] eqn:Hr.
  apply recover_frames_law in Hr as (Hw'&_); [|done]. intros Ho.
  assert (engine st = e') as ->; [|done].
  by repeat case_match; simplify_eq.
Qed.

(** What a whole read that the engine answers returns and leaves. *)
Lemma read_envelopes_body_spec b st fs e :
  engine_wf (engine st) → read_all (engine st) = (Ok fs, e) →
  fs = stored (engine st) ∧
  match build_from_frames fs with
  | Ok idx => ∃ es, Forall2 (λ f env, decode_and_validate_frame f = Ok env) fs es ∧
      index_of es idx ∧
      let read := mk_Store e (commit_frames RollingCommitment_new fs) (fiber_index st)
                    (broken_reader_cause st) (uncertain st) (store_diagnostic st) in
      read_envelopes_body b st =
        if negb b && has_broken_fibers idx then (fail broken, with_index idx read)
        else (Ok es, with_index idx read)
  | Err _ => ∃ err, (read_envelopes_body b st).1 = Err err
  | Panic => False
  end.
Proof.
  intros Hw Hr. destruct (read_all_law _ _ _ Hw Hr) as (_&_&Hfs&_). specialize (Hfs fs eq_refl).
  split; [done|]. pose proof (stored_total _ Hw) as Ht. rewrite <-Hfs in Ht.
  unfold read_envelopes_body, read_all_frames. rewrite Hr.
  rewrite absorb_commit by (rewrite Hfs; by apply stored_frames_wf).
  destruct (build_from_frames fs) as [idx|err|] eqn:Hb; [|destruct (existsb _ _); by eexists|done].
  apply process_frames_not_short in Hb as Hs. rewrite Hs.
  apply process_frames_index_of with (es := []) in Hb as (es&He&Hi); [|apply index_of_new].
  exists es. split; [done|]. split; [done|]. rewrite (decode_frames_all _ _ He).
  by destruct (negb b && has_broken_fibers idx).
Qed.

(** C26: A migration reads broken histories. Let a store stand over an engine that
    answers its read. If the stored frames are whole envelopes within the limits
    of a session, a migration source returns all of them, in order, whatever
    chains they break and whatever cause the store retains, and leaves a store
    with the index and the commitment of exactly these frames. The ordinary read
    leaves the same index and commitment when no cause is retained; it returns
    the envelopes if no fiber is broken, and otherwise fails and retains the
    break. With a cause retained it fails at once and leaves the store as it is.
    When the frames are not such envelopes, both fail. The engine stores what it
    did. *)
Theorem migration_reads_broken_history {W} (world_of : E → W → W) (w : W) st fs e :
  engine_wf (engine st) → read_all (engine st) = (Ok fs, e) →
  fs = stored (engine st) ∧ stored e = fs ∧
  match build_from_frames fs with
  | Ok idx => ∃ es, Forall2 (λ f env, decode_and_validate_frame f = Ok env) fs es ∧
      index_of es idx ∧
      let read cause := mk_Store e (commit_frames RollingCommitment_new fs) idx cause
                          (uncertain st) (store_diagnostic st) in
      read_all_envelopes_for_migration st = (Ok es, read (broken_reader_cause st)) ∧
      read_envelopes_with world_of st w = (Ok es, world_of e w) ∧
      read_all_envelopes st =
        match broken_reader_cause st with
        | Some cause => (fail cause, st)
        | None => if has_broken_fibers idx then (fail broken, read (Some broken))
                  else (Ok es, read None)
        end
  | Err _ => ¬ is_ok (read_envelopes_with world_of st w).1 ∧ ¬ is_ok (read_all_envelopes st).1
  | Panic => False
  end.
Proof.
  intros Hw Hr. destruct (read_all_law _ _ _ Hw Hr) as (_&Hst&_).
  destruct (read_envelopes_body_spec true st fs e Hw Hr) as [Hfs Ht].
  destruct (read_envelopes_body_spec false st fs e Hw Hr) as [_ Hf].
  split; [done|]. split; [congruence|].
  unfold read_envelopes_with, read_all_envelopes_for_migration, read_all_envelopes,
    read_all_envelopes_inner.
  destruct (build_from_frames fs) as [idx|err|]; [|..|done].
  - destruct Ht as (es&He&Hi&->). destruct Hf as (es'&He'&_&->). exists es.
    assert (es' = es) as ->.
    { apply decode_frames_all in He, He'. congruence. }
    split; [done|]. split; [done|]. split; [done|]. split; [done|].
    destruct (broken_reader_cause st) eqn:Hc; [done|]. by destruct (has_broken_fibers idx).
  - destruct Ht as [er Ht], Hf as [er' Hf].
    destruct (read_envelopes_body true st) as [r1 st1], (read_envelopes_body false st) as [r2 st2].
    simpl in Ht, Hf. subst r1 r2. split; [simpl; tauto|].
    destruct (broken_reader_cause st); simpl; tauto.
Qed.
End whole_reads.

(** ** A broken history *)

#[local] Existing Instance toy_digests.
#[local] Existing Instance toy_digest_laws.

(** The first event again behind the two of the sample: its identifier is reused
    and it chains to nothing. *)
Definition broken_log : list bytes := sample_log ++ take 1 sample_log.
Definition broken_engine : FileEngine :=
  mk_FileEngine
    (mk_World (Some (sample_meta [3])) (Some (container_image broken_log)) true None None [])
    true 3 None OpenAdmission_Ready MetaRecords_default FileExclusionPolicy_Standard true
    0 0 false None false false false None None None.
Definition broken_reader : Store FileEngine :=
  match open_reader broken_engine with
  | Ok st => st
  | _ => mk_Store broken_engine RollingCommitment_new SessionIndex_new None true None
  end.

Lemma broken_container : container_at (world broken_engine) broken_log [].
Proof.
  split; [by rewrite app_nil_r|]. split; [by (apply (bool_decide_unpack _); vm_compute)|].
  split; [by left|]. by (apply (bool_decide_unpack _); vm_compute).
Qed.

Lemma broken_engine_wf : file_wf broken_engine.
Proof.
  split; [|by (apply (bool_decide_unpack _); vm_compute)|done|].
  - intros _. eexists _, []. split; [apply broken_container|done].
  - by rewrite (file_frames_at broken_engine _ _ eq_refl broken_container).
Qed.

Lemma broken_reader_opens : open_reader broken_engine = Ok broken_reader.
Proof.
  assert (is_ok (open_reader broken_engine) = true) as Hok by (vm_compute; reflexivity).
  unfold broken_reader. by destruct (open_reader broken_engine).
Qed.

Lemma broken_reader_reads :
  read_all (engine broken_reader) = (Ok broken_log, (read_all (engine broken_reader)).2).
Proof.
  assert ((read_all (engine broken_reader)).1 = Ok broken_log) as <- by (vm_compute; reflexivity).
  apply surjective_pairing.
Qed.

Lemma broken_log_breaks :
  match build_from_frames broken_log with Ok idx => has_broken_fibers idx | _ => false end = true.
Proof. vm_compute. reflexivity. Qed.

Lemma broken_reader_refused : broken_reader_cause broken_reader = Some broken.
Proof. vm_compute. reflexivity. Qed.

(** Unification is not to run the engine. *)
#[local] Opaque broken_reader build_from_frames.

(** Three events are read for a migration, and none otherwise. *)
Lemma migration_reads_broken_history_witness :
  broken_log = stored (engine broken_reader) ∧
  stored (read_all (engine broken_reader)).2 = broken_log ∧
  match build_from_frames broken_log with
  | Ok idx => has_broken_fibers idx = true ∧ broken_reader_cause broken_reader = Some broken ∧
      is_ok (read_all_envelopes_for_migration broken_reader).1
  | _ => False
  end.
Proof.
  destruct (migration_reads_broken_history (λ _ (u : unit), u) tt broken_reader broken_log
              (read_all (engine broken_reader)).2) as (Hs&Hs'&Hr).
  - exact (open_reader_wf broken_engine broken_reader broken_engine_wf broken_reader_opens).
  - exact broken_reader_reads.
  - split; [exact Hs|]. split; [exact Hs'|].
    pose proof broken_log_breaks as Hb.
    destruct (build_from_frames broken_log) as [idx|err|]; [|discriminate Hb|discriminate Hb].
    destruct Hr as (es&_&_&Hm&_&_). rewrite Hm.
    split; [exact Hb|]. split; [exact broken_reader_refused|exact I].
Defined.
