(* ===== verification/TypedEvents.v ===== *)
(** * Typed events through the store

    A value of a payload root, from the encoder that [derive(PardosaSchema)]
    generates over the handle of its fiber and the engine to whoever reads the
    artefact: [pardosa-derive/src/lib.rs], [store/fiber_handle.rs],
    [store/pipeline.rs] and the contract of [store/engine.rs] together. *)

From S2P Require Export Migration DeriveLaws.
From S2P Require Import Scenarios.

Section typed_events.
Context `{Digests, StorageEngine E, !AppendLaws E, !EngineLaws E, !DigestLaws}.

(** Every whole read of the store that succeeds has [env] at position [i]. *)
Definition found_at (i : nat) (env : EventEnvelope) (st : Store E) : Prop :=
  ∀ es st', read_all_envelopes st = (Ok es, st') → es !! i = Some env.

(** The envelopes a whole read returns are those of the stored frames. *)
Lemma read_all_envelopes_stored (st : Store E) es st' :
  engine_wf (engine st) → read_all_envelopes st = (Ok es, st') →
  Forall2 (λ f env, decode_and_validate_frame f = Ok env) (stored (engine st)) es.
Proof.
  intros Hw. unfold read_all_envelopes, read_all_envelopes_inner.
  destruct (broken_reader_cause st); [done|].
  destruct (read_all (engine st)) as [[fs| |] e] eqn:Hr.
  - destruct (read_envelopes_body_spec false st fs e Hw Hr) as [-> Hb].
    destruct (build_from_frames _) as [idx| |]; [|destruct Hb as [err Hb]|done].
    + destruct Hb as (es0&H2&_&Hb). rewrite Hb. destruct (_ && _); [done|].
      by intros [= <- _].
    + destruct (read_envelopes_body false st) as [r ?]. cbn in Hb. by subst.
  - unfold read_envelopes_body, read_all_frames. by rewrite Hr.
  - unfold read_envelopes_body, read_all_frames. by rewrite Hr.
Qed.

(** What is stored stays where it is in a session. *)
Lemma writes_keep_stored ws (st : Store E) rs st' i f :
  live st → run_writes ws st = (rs, st') → stored (engine st) !! i = Some f →
  stored (engine st') !! i = Some f.
Proof.
  intros Hl Hr Hi. destruct (run_writes_session ws st rs st' Hl Hr) as [_ (_&_&_&Hs)].
  destruct Hs as [->|(_&p&->)]; rewrite ?lookup_app; by rewrite Hi.
Qed.

Lemma minted_payload op h eid p env h' : run_op op h eid p = (Ok env, h') → payload env = p.
Proof.
  intros Hr. destruct (run_op_cases op h eid p) as [[_ (s&_&Hm)]|[_ [c Hm]]]; rewrite Hr in Hm; [|done].
  by injection Hm as -> _.
Qed.

Context {syn : Syn} {syn_laws : SynLaws}.
Context (wf : ∀ f, field_carrier f → Prop) (image : ∀ f, field_carrier f → bytes).

(** C15: a typed event comes back. When the payload that a derived root encodes
    for a value lands on a fiber of a live store, it is the payload of the latest
    envelope of the fiber and decodes to the value; and whatever the session
    writes afterwards, any store over the same frames that reads the whole
    artefact finds the envelope at the position where it landed. *)
Theorem typed_event_comes_back input v vds x p op fid eid (st : Store E) env st' :
  schema_declared input v vds → Forall (field_laws wf image) (input_fields input) →
  enum_wf wf vds x → blen p ≤ isize_max →
  Derive.encode_payload (root_schema v (input_ident input) vds) x [] = Ok p →
  live st → is_array 16 fid → is_array 16 eid →
  store_op op fid eid p st = (Ok (WriteLandingVerdict_Landed env), st') →
  store_get_latest st' fid = Ok (Some env) ∧
  decode_payload (root_schema v (input_ident input) vds) (payload env) = Ok x ∧
  ∀ ws rs st'' reader, run_writes ws st' = (rs, st'') →
    engine_wf (engine reader) → stored (engine reader) = stored (engine st'') →
    found_at (length (stored (engine st))) env reader.
Proof.
  intros [Hi _ Hdecl _] HL Hx Hb He Hl Hfid Heid Hop.
  apply (input_fields_variants _ _ vds Hi) in HL.
  destruct (root_schema_laws wf image v (input_ident input) vds (well_declared_discs _ _ Hdecl) HL)
    as (Henc&Hdec&_).
  rewrite Henc in He by done. injection He as <-.
  destruct (landed_operation_visible _ _ _ _ _ _ _ Hl Hfid Heid Hop) as (Hl'&Hs&Hlat&h&h'&Hf&Hr&_).
  split; [done|]. split; [rewrite (minted_payload _ _ _ _ _ _ Hr); by apply Hdec|].
  intros ws rs st'' reader Hws Hw Hsr es reader' Hread.
  apply read_all_envelopes_stored in Hread; [|done].
  assert (stored (engine reader) !! length (stored (engine st)) = Some (envelope_image env)) as Hat.
  { rewrite Hsr. apply (writes_keep_stored ws st' rs); [done..|].
    rewrite Hs. by apply list_lookup_middle. }
  destruct (Forall2_lookup_l _ _ _ _ _ Hread Hat) as (env'&He'&Hd).
  rewrite He'. f_equal. unfold decode_and_validate_frame in Hd. ok_inv.
  match goal with Hc : negb (?n =? _) = false |- _ => assert (n = blen (envelope_image env)) as -> by lia end.
  apply decode_minted; [exact (minted_wf _ _ _ _ _ _ _ _ Hl Hf Hr Hfid Heid)|done].
Qed.
End typed_events.

(** ** The property at a concrete input *)

#[local] Existing Instance toy_digests.
#[local] Existing Instance toy_digest_laws.

(** [Placed { id: 7, note: Some(5) }] appended to a fiber of a store on files. *)
Definition placed_bytes : bytes := [x01; x00; x07; x00; x00; x00; x01; x05].
Definition placed_landing : outcome OperationFailure (WriteLandingVerdict EventEnvelope) * Store FileEngine :=
  store_op op_append (sample_id x02) (sample_id x05) placed_bytes (sample_store []).
Definition placed_event : EventEnvelope :=
  match placed_landing.1 with
  | Ok (WriteLandingVerdict_Landed env) => env
  | _ => sample_envelope []
  end.

Lemma sample_order_declared : @schema_declared toy_syn sample_order 3 sample_rows.
Proof. apply (@read_root_spec toy_syn toy_syn_laws). reflexivity. Qed.

Lemma sample_placed_wf : enum_wf wf_impl sample_rows sample_placed.
Proof.
  assert (wf_of (code_type Code_U32) 7) as Hid by (apply (wf_of_laws (proj1 (code_laws Code_U32))); done).
  assert (wf_of (code_type (Code_Option Code_U8)) (Some 5)) as Hnote
    by (apply (wf_of_laws (proj1 (code_laws (Code_Option Code_U8))) (Some 5)); done).
  exact (conj Hid (conj Hnote I)).
Qed.

Lemma placed_lands :
  placed_landing = (Ok (WriteLandingVerdict_Landed placed_event), placed_landing.2).
Proof.
  assert (placed_landing.1 = Ok (WriteLandingVerdict_Landed placed_event)) as <- by (vm_compute; reflexivity).
  apply surjective_pairing.
Qed.

Lemma placed_live : live placed_landing.2.
Proof.
  exact (proj1 (landed_operation_visible op_append (sample_id x02) (sample_id x05) placed_bytes
    (sample_store []) _ _ (sample_store_live []) eq_refl eq_refl placed_lands)).
Qed.

Lemma typed_event_comes_back_witness :
  store_get_latest placed_landing.2 (sample_id x02) = Ok (Some placed_event) ∧
  decode_payload (root_schema 3 (str "Order") sample_rows) (payload placed_event) = Ok sample_placed ∧
  ∃ es, (read_all_envelopes placed_landing.2).1 = Ok es ∧ es !! 2%nat = Some placed_event.
Proof.
  destruct (@typed_event_comes_back _ _ _ _ _ _ toy_syn toy_syn_laws wf_impl image_impl sample_order 3
    sample_rows sample_placed placed_bytes op_append (sample_id x02) (sample_id x05) (sample_store [])
    placed_event placed_landing.2) as (Hl&Hd&Hread).
  - exact sample_order_declared.
  - exact sample_order_laws.
  - exact sample_placed_wf.
  - by vm_compute.
  - reflexivity.
  - apply sample_store_live.
  - done.
  - done.
  - exact placed_lands.
  - split; [exact Hl|]. split; [exact Hd|].
    destruct (read_all_envelopes placed_landing.2) as [r reader'] eqn:Hr.
    assert (is_ok r = true) as Hok by (change r with (r, reader').1; rewrite <-Hr; vm_compute; reflexivity).
    destruct r as [es| |]; [|discriminate Hok..].
    exists es. split; [reflexivity|].
    assert (length (stored (engine (sample_store []))) = 2%nat) as <- by (vm_compute; reflexivity).
    refine (Hread [] [] placed_landing.2 placed_landing.2 eq_refl _ eq_refl es reader' Hr).
    exact (live_engine _ placed_live).
Defined.
