(* ===== verification/Text.v ===== *)
(** * Strings, decimal numbers and ordered maps of the standard library

    What the tools under src/scripts use of Rust's [str], of the conversions
    between numbers and text, and of [BTreeMap] and [BTreeSet]. A string is its
    UTF-8 bytes, as everywhere in the development. [Text.text_ind] is the
    induction principle for the scanners that look for a token made of a prefix
    and a run of digits. *)

From S2P Require Import Prelude.
From stdpp Require Export sorting.
#[local] Open Scope Z_scope.

(** ** Prefixes and pieces *)

(** [str::strip_prefix]. *)
Fixpoint strip_prefix (p s : bytes) : option bytes :=
  match p, s with
  | [], _ => Some s
  | a :: p, b :: s => if decide (a = b) then strip_prefix p s else None
  | _ :: _, [] => None
  end.

(** [str::split_once]: around the first occurrence of [pat]. *)
Fixpoint split_once (pat s : bytes) : option (bytes * bytes) :=
  match strip_prefix pat s with
  | Some r => Some ([], r)
  | None =>
      match s with
      | [] => None
      | b :: s => '(l, r) ← split_once pat s; Some (b :: l, r)
      end
  end.

(** [str::split] at a one-byte character: never empty. *)
Fixpoint split (c : byte) (s : bytes) : list bytes :=
  match s with
  | [] => [[]]
  | b :: s =>
      let pieces := split c s in
      if decide (b = c) then [] :: pieces
      else match pieces with
           | p :: ps => (b :: p) :: ps
           | [] => [[b]]
           end
  end.

(** [[str]::join]. *)
Fixpoint join_with (sep : bytes) (pieces : list bytes) : bytes :=
  match pieces with
  | [] => []
  | [p] => p
  | p :: ps => p ++ sep ++ join_with sep ps
  end.

Definition TAB : byte := x09.
Definition NL : byte := x0a.
Definition CR : byte := x0d.

(** The end of a line: [strip_suffix("\r")]. *)
Definition chomp_cr (l : bytes) : bytes :=
  match last l with
  | Some b => if decide (b = CR) then take (length l - 1) l else l
  | None => l
  end.

(** [str::lines]: what follows the last line feed is a line unless it is
    empty, and keeps its carriage return. *)
Fixpoint close_lines (pieces : list bytes) : list bytes :=
  match pieces with
  | [] => []
  | [p] => if is_empty p then [] else [p]
  | p :: ps => chomp_cr p :: close_lines ps
  end.
Definition lines (s : bytes) : list bytes := close_lines (split NL s).

(** ** White space: [char::is_whitespace] on the encodings of one, two and
    three bytes *)

Definition ws1 (b : byte) : bool := in_range 0x09 0x0D b || in_range 0x20 0x20 b.
Definition ws2 (b c : byte) : bool :=
  in_range 0xC2 0xC2 b && (in_range 0x85 0x85 c || in_range 0xA0 0xA0 c).
Definition ws3 (b c d : byte) : bool :=
  (in_range 0xE1 0xE1 b && in_range 0x9A 0x9A c && in_range 0x80 0x80 d)
  || (in_range 0xE2 0xE2 b && in_range 0x80 0x80 c
      && (in_range 0x80 0x8A d || in_range 0xA8 0xA9 d || in_range 0xAF 0xAF d))
  || (in_range 0xE2 0xE2 b && in_range 0x81 0x81 c && in_range 0x9F 0x9F d)
  || (in_range 0xE3 0xE3 b && in_range 0x80 0x80 c && in_range 0x80 0x80 d).

(** [str::trim_start]. *)
Fixpoint trim_start (s : bytes) : bytes :=
  match s with
  | [] => []
  | b :: s1 =>
      if ws1 b then trim_start s1 else
      match s1 with
      | [] => s
      | c :: s2 =>
          if ws2 b c then trim_start s2 else
          match s2 with
          | [] => s
          | d :: s3 => if ws3 b c d then trim_start s3 else s
          end
      end
  end.

(** [str::trim_end], from the last byte backwards. *)
Fixpoint trim_back (s : bytes) : bytes :=
  match s with
  | [] => []
  | d :: s1 =>
      if ws1 d then trim_back s1 else
      match s1 with
      | [] => s
      | c :: s2 =>
          if ws2 c d then trim_back s2 else
          match s2 with
          | [] => s
          | b :: s3 => if ws3 b c d then trim_back s3 else s
          end
      end
  end.
Definition trim_end (s : bytes) : bytes := rev (trim_back (rev s)).
Definition trim (s : bytes) : bytes := trim_end (trim_start s).

(** [str::chars().count()]: the bytes that begin a character. *)
Definition chars_count (s : bytes) : nat := length (filter (λ b, is_cont b = false) s).

(** ** Decimal numbers *)

(** [u8::is_ascii_digit]. *)
Definition is_ascii_digit : byte → bool := in_range 0x30 0x39.
Definition digit_value (b : byte) : Z := byte_to_Z b - 0x30.

(** The checked loop of [from_str_radix] in base ten. *)
Fixpoint parse_digits (max acc : Z) (s : bytes) : option Z :=
  match s with
  | [] => Some acc
  | b :: s =>
      if is_ascii_digit b then
        let acc := acc * 10 + digit_value b in
        if acc <=? max then parse_digits max acc s else None
      else None
  end.

(** [str::parse] for an unsigned type with largest value [max]: an empty text
    is refused, and one leading plus sign is not. *)
Definition parse_unsigned (max : Z) (s : bytes) : option Z :=
  match s with
  | [] => None
  | b :: s' =>
      if decide (b = x2b) then (if is_empty s' then None else parse_digits max 0 s')
      else parse_digits max 0 s
  end.
Definition parse_u32 : bytes → option Z := parse_unsigned u32_max.
Definition parse_u8 : bytes → option Z := parse_unsigned 255.

(** [Display] of an unsigned number: the digits, the last one first; twenty of
    them write every [u64]. *)
Fixpoint decimal_back (fuel : nat) (n : Z) : bytes :=
  match fuel with
  | O => []
  | S fuel =>
      byte_of_Z (0x30 + n mod 10) :: (if n / 10 =? 0 then [] else decimal_back fuel (n / 10))
  end.
Definition decimal (n : Z) : bytes := rev (decimal_back 20 n).
#[global] Arguments decimal : simpl never.

(** [Debug] of a vector of numbers. *)
Definition debug_numbers (l : list Z) : bytes :=
  str "[" ++ join_with (str ", ") (decimal <$> l) ++ str "]".

(** The span of digits a text begins with. *)
Fixpoint digit_run (s : bytes) : bytes :=
  match s with
  | b :: s => if is_ascii_digit b then b :: digit_run s else []
  | [] => []
  end.

(** ** Ordered maps

    [BTreeMap] is a [gmap]; its iteration goes in the order of the keys. *)

(** The order of [str]: bytewise. *)
Fixpoint bytes_leb (s t : bytes) : bool :=
  match s, t with
  | [], _ => true
  | _ :: _, [] => false
  | a :: s, b :: t =>
      (byte_to_Z a <? byte_to_Z b) || ((byte_to_Z a =? byte_to_Z b) && bytes_leb s t)
  end.
Definition bytes_le (s t : bytes) : Prop := bytes_leb s t = true.
#[global] Instance bytes_le_dec s t : Decision (bytes_le s t).
Proof. unfold bytes_le. apply _. Defined.

Definition in_key_order {K A} (R : relation K) `{∀ x y, Decision (R x y)} (l : list (K * A)) :
    list (K * A) :=
  merge_sort (λ x y, R x.1 y.1) l.

Section BTree.
Context {K : Type} `{Countable K} (R : relation K) `{∀ x y, Decision (R x y)}.

(** [BTreeMap::iter] and [BTreeSet::iter]. *)
Definition btree_iter {A} (m : gmap K A) : list (K * A) := in_key_order R (map_to_list m).
Definition btree_keys {A} (m : gmap K A) : list K := (btree_iter m).*1.
Definition btree_set_iter (s : gset K) : list K := merge_sort R (elements s).

(** [*m.entry(k).or_insert(0) += 1]. *)
Definition count_entry (m : gmap K nat) (k : K) : gmap K nat :=
  <[k := S (default 0%nat (m !! k))]> m.

Lemma elem_of_btree_iter {A} (m : gmap K A) k x : (k, x) ∈ btree_iter m ↔ m !! k = Some x.
Proof.
  unfold btree_iter, in_key_order. rewrite merge_sort_Permutation. apply elem_of_map_to_list.
Qed.

Lemma elem_of_btree_keys {A} (m : gmap K A) k : k ∈ btree_keys m ↔ is_Some (m !! k).
Proof.
  unfold btree_keys. rewrite list_elem_of_fmap. split.
  - intros ([k' x]&->&Hx). apply elem_of_btree_iter in Hx. eauto.
  - intros [x Hx]. exists (k, x). by rewrite elem_of_btree_iter.
Qed.

Lemma elem_of_btree_set_iter (s : gset K) k : k ∈ btree_set_iter s ↔ k ∈ s.
Proof. unfold btree_set_iter. rewrite merge_sort_Permutation. apply elem_of_elements. Qed.

(** Counting a list puts the number of its occurrences beside each key. *)
Definition occurrences (k : K) (l : list K) : nat := length (filter (k =.) l).

Lemma count_entries (l : list K) : ∀ m k,
  foldl count_entry m l !! k
  = if decide (k ∈ l) then Some (default 0 (m !! k) + occurrences k l)%nat else m !! k.
Proof.
  induction l as [|x l IH]; intros m k; cbn [foldl].
  { case_decide as Hk; [by apply not_elem_of_nil in Hk|done]. }
  rewrite IH. unfold count_entry, occurrences. rewrite filter_cons.
  destruct (decide (k = x)) as [->|Hne].
  - rewrite lookup_insert_eq. rewrite (decide_True (P:=x ∈ x :: l)) by set_solver. cbn.
    case_decide as Hx; [f_equal; lia|]. f_equal.
    assert (filter (x =.) l = []) as ->; [|cbn; lia].
    apply elem_of_nil_inv. intros y [-> Hy]%list_elem_of_filter. done.
  - rewrite lookup_insert_ne by done. cbn.
    destruct (decide (k ∈ l)); [rewrite decide_True by set_solver|rewrite decide_False by set_solver];
      done.
Qed.
End BTree.

Arguments occurrences {K _} k l.

(** ** What the tools share

    The only failure of a tool is to panic. *)
Abbreviation tool := (outcome Empty_set).

(** [Option::expect], [Result::expect] and the closures that panic. *)
Definition expect {A} (o : option A) : tool A := match o with Some a => Ok a | None => Panic end.

(** Lines that hold nothing, and comments. *)
Definition blank (line : bytes) : bool := is_empty (trim line).
Definition comment (line : bytes) : bool :=
  match strip_prefix (str "#") line with Some _ => true | None => false end.

(** [arg_value]: what follows the first occurrence of the flag; it must be
    there. *)
Fixpoint arg_value (args : list bytes) (flag : bytes) : tool (option bytes) :=
  match args with
  | [] => Ok None
  | a :: rest =>
      if decide (a = flag) then match rest with v :: _ => Ok (Some v) | [] => Panic end
      else arg_value rest flag
  end.

(** ** Laws of prefixes and digits *)

Lemma strip_prefix_Some p s r : strip_prefix p s = Some r ↔ s = p ++ r.
Proof.
  revert s. induction p as [|a p IH]; intros [|b s]; cbn; [naive_solver..|].
  case_decide as Hb; [subst; rewrite IH; naive_solver|naive_solver].
Qed.

Lemma strip_prefix_app p r : strip_prefix p (p ++ r) = Some r.
Proof. by apply strip_prefix_Some. Qed.

Definition starts_with_digit (s : bytes) : bool :=
  match s with b :: _ => is_ascii_digit b | [] => false end.
Definition all_digits (ds : bytes) : Prop := Forall (λ b, is_ascii_digit b = true) ds.

Lemma digit_run_spec s :
  ∃ r, s = digit_run s ++ r ∧ all_digits (digit_run s) ∧ starts_with_digit r = false.
Proof.
  induction s as [|b s (r&Hs&Hd&Hr)]; cbn; [by exists []; repeat constructor|].
  destruct (is_ascii_digit b) eqn:Hb.
  - exists r. cbn. rewrite <- Hs. repeat split; [by constructor|done].
  - exists (b :: s). cbn. by repeat constructor.
Qed.

Lemma digit_run_app ds r :
  all_digits ds → starts_with_digit r = false → digit_run (ds ++ r) = ds.
Proof.
  intros Hd Hr. induction Hd as [|b ds Hb _ IH]; cbn.
  - destruct r as [|b r]; [done|]. cbn in *. by rewrite Hr.
  - by rewrite Hb, IH.
Qed.

(** Induction over a text along the tokens made of [prefix] and a run of
    digits. *)
Lemma text_ind (prefix : bytes) (P : bytes → Prop) :
  prefix ≠ [] →
  P [] →
  (∀ ds r, all_digits ds → starts_with_digit r = false → P r → P (prefix ++ ds ++ r)) →
  (∀ b r, strip_prefix prefix (b :: r) = None → P r → P (b :: r)) →
  ∀ s, P s.
Proof.
  intros Hp Hnil Htok Hbyte s.
  remember (length s) as n eqn:Hn. revert s Hn.
  induction n as [n IH] using lt_wf_ind. intros s ->.
  destruct s as [|b s]; [done|].
  destruct (strip_prefix prefix (b :: s)) as [r|] eqn:Hs.
  - apply strip_prefix_Some in Hs. rewrite Hs in IH |- *. clear Hs.
    destruct (digit_run_spec r) as (r'&Hr&Hd&Hr'). revert Hr Hd. generalize (digit_run r).
    intros ds -> Hd. apply Htok; [done..|]. eapply IH; [|done]. rewrite !length_app. destruct prefix; [done|]. cbn. lia.
  - apply Hbyte; [done|]. eapply IH; [|done]. cbn. lia.
Qed.

(** ** Numbers read back *)

Lemma digit_of_value d : 0 ≤ d < 10 →
  is_ascii_digit (byte_of_Z (0x30 + d)) = true ∧ digit_value (byte_of_Z (0x30 + d)) = d.
Proof.
  intros Hd. unfold is_ascii_digit, in_range, digit_value.
  rewrite byte_to_of_Z, Z.mod_small; lia.
Qed.

Lemma all_digits_decimal n : 0 ≤ n → all_digits (decimal n).
Proof.
  intros Hn. apply Forall_rev. revert n Hn. generalize 20%nat.
  intros fuel. induction fuel as [|fuel IH]; intros n Hn; cbn; [constructor|].
  constructor; [apply digit_of_value, Z.mod_pos_bound; lia|].
  case_match; [constructor|]. apply IH, Z.div_pos; lia.
Qed.

Lemma decimal_not_nil n : decimal n ≠ [].
Proof. unfold decimal. cbn [decimal_back rev]. by destruct (rev _). Qed.

(** The number a run of digits stands for. *)
Definition digits_number (ds : bytes) : Z := foldl (λ acc b, acc * 10 + digit_value b) 0 ds.

Lemma digits_number_decimal n : 0 ≤ n < 10 ^ 20 → digits_number (decimal n) = n.
Proof.
  unfold decimal. revert n. change 20 with (Z.of_nat 20). generalize 20%nat.
  intros fuel. induction fuel as [|fuel IH]; intros n Hn; cbn [decimal_back rev].
  { change (10 ^ Z.of_nat 0) with 1 in Hn. by assert (n = 0) as -> by lia. }
  rewrite Nat2Z.inj_succ, Z.pow_succ_r in Hn by lia.
  pose proof (Z.div_mod n 10) as Hdm. pose proof (Z.mod_pos_bound n 10 eq_refl) as Hm.
  unfold digits_number in *. rewrite foldl_app. cbn [foldl].
  rewrite (proj2 (digit_of_value (n mod 10) Hm)).
  case_match; cbn [rev foldl]; [lia|]. rewrite IH; [lia|].
  split; [apply Z.div_pos; lia|apply Z.div_lt_upper_bound; lia].
Qed.

Lemma decimal_inj n m : 0 ≤ n < 10 ^ 20 → 0 ≤ m < 10 ^ 20 → decimal n = decimal m → n = m.
Proof.
  intros Hn Hm Heq. rewrite <- (digits_number_decimal n), <- (digits_number_decimal m) by done.
  by rewrite Heq.
Qed.

Lemma digits_fold_ge ds acc :
  all_digits ds → 0 ≤ acc → acc ≤ foldl (λ acc b, acc * 10 + digit_value b) acc ds.
Proof.
  intros Hd. revert acc. induction Hd as [|b ds Hb _ IH]; intros acc Ha; cbn; [lia|].
  unfold is_ascii_digit, in_range in Hb. unfold digit_value in *.
  specialize (IH (acc * 10 + (byte_to_Z b - 48))). lia.
Qed.

Lemma parse_digits_fold max ds : all_digits ds → ∀ acc, 0 ≤ acc →
  foldl (λ acc b, acc * 10 + digit_value b) acc ds ≤ max →
  parse_digits max acc ds = Some (foldl (λ acc b, acc * 10 + digit_value b) acc ds).
Proof.
  intros Hd. induction Hd as [|b ds Hb Hd IH]; intros acc Ha Hle; cbn in *; [done|].
  assert (0 ≤ digit_value b).
  { unfold is_ascii_digit, in_range in Hb. unfold digit_value. lia. }
  rewrite Hb. pose proof (digits_fold_ge ds (acc * 10 + digit_value b) Hd ltac:(lia)).
  rewrite (proj2 (Z.leb_le _ _)) by lia. apply IH; [lia|done].
Qed.

Lemma parse_unsigned_digits max ds :
  all_digits ds → ds ≠ [] → digits_number ds ≤ max →
  parse_unsigned max ds = Some (digits_number ds).
Proof.
  intros Hd Hne Hle. pose proof (parse_digits_fold max ds Hd 0 (Z.le_refl 0) Hle) as Hp.
  destruct Hd as [|b ds Hb Hd]; [done|]. unfold parse_unsigned.
  by rewrite decide_False by (intros ->; done).
Qed.

Lemma parse_u32_decimal n : 0 ≤ n ≤ u32_max → parse_u32 (decimal n) = Some n.
Proof.
  unfold u32_max. intros Hn.
  assert (digits_number (decimal n) = n) as Hd by (apply digits_number_decimal; lia).
  rewrite <- Hd at 2. apply parse_unsigned_digits.
  - apply all_digits_decimal. lia.
  - apply decimal_not_nil.
  - rewrite Hd. unfold u32_max. lia.
Qed.

(** ** UTF-8 by characters *)

Definition not_ascii (b : byte) : Prop := in_range 0 0x7F b = false.

(** A valid text begins with an ASCII character, or with an encoding of more
    bytes, none of which is ASCII. *)
Lemma utf8_cons_inv b s :
  utf8_valid (b :: s) = true →
  (in_range 0 0x7F b = true ∧ utf8_valid s = true)
  ∨ ∃ v r, b :: s = v ++ r ∧ v ≠ [] ∧ Forall not_ascii v ∧ utf8_valid v = true ∧ utf8_valid r = true.
Proof.
  assert (∀ lo hi c, 0x80 ≤ lo → in_range lo hi c = true → not_ascii c) as Hna.
  { unfold not_ascii, in_range. intros. lia. }
  assert (∀ c, is_cont c = true → not_ascii c) as Hc by (intros c; by apply Hna).
  intros H. cbn [utf8_valid] in H. destruct (in_range 0 0x7F b) eqn:Hb; [by left|]. right.
  destruct s as [|c1 s]; [done|].
  destruct (in_range 0xC2 0xDF b) eqn:H2.
  { apply andb_prop in H as [H1 Hs]. exists [b; c1], s. cbn [utf8_valid app].
    rewrite Hb, H2, H1. by repeat constructor; auto. }
  destruct s as [|c2 s]; [done|].
  destruct (in_range 0xE0 0xEF b) eqn:H3.
  { apply andb_prop in H as [H Hs]. apply andb_prop in H as [H1 Hk]. exists [b; c1; c2], s.
    cbn [utf8_valid app]. rewrite Hb, H2, H3, H1, Hk.
    split_and!; [done..| |done|done]. repeat apply Forall_cons_2; [done| |by apply Hc|done].
    revert H1. case_match; [by apply Hna|]. case_match; [by apply Hna|]. apply Hc. }
  destruct s as [|c3 s]; [done|].
  apply andb_prop in H as [H Hs]. apply andb_prop in H as [H Hk3]. apply andb_prop in H as [H Hk2].
  apply andb_prop in H as [H4 H1]. exists [b; c1; c2; c3], s.
  cbn [utf8_valid app]. rewrite Hb, H2, H3, H4, H1, Hk2, Hk3.
  split_and!; [done..| |done|done].
  repeat apply Forall_cons_2; [done| |by apply Hc|by apply Hc|done].
  revert H1. case_match; [by apply Hna|]. case_match; [by apply Hna|]. apply Hc.
Qed.

Lemma utf8_valid_ascii_app v r :
  Forall (λ b, in_range 0 0x7F b = true) v → utf8_valid (v ++ r) = utf8_valid r.
Proof. induction 1 as [|b v Hb _ IH]; [done|]. cbn [app]. by rewrite utf8_valid_ascii. Qed.

Lemma digits_ascii ds : all_digits ds → Forall (λ b, in_range 0 0x7F b = true) ds.
Proof.
  intros Hd. eapply Forall_impl; [exact Hd|]. unfold is_ascii_digit, in_range. cbn. intros b. lia.
Qed.

Lemma parse_digits_value max ds : ∀ acc v,
  parse_digits max acc ds = Some v → v = foldl (λ acc b, acc * 10 + digit_value b) acc ds.
Proof.
  induction ds as [|b ds IH]; cbn; intros acc v; [by intros [= ->]|].
  destruct (is_ascii_digit b); [|done]. case_match; [|done]. apply IH.
Qed.

Lemma parse_unsigned_value max ds v :
  all_digits ds → parse_unsigned max ds = Some v → v = digits_number ds.
Proof.
  intros Hd. destruct Hd as [|b ds Hb Hd]; [done|]. unfold parse_unsigned.
  rewrite decide_False by (by intros ->). apply parse_digits_value.
Qed.

Lemma split_once_Some p s : ∀ l r, split_once p s = Some (l, r) → s = l ++ p ++ r.
Proof.
  induction s as [|b s IH]; intros l r; cbn [split_once].
  - destruct (strip_prefix p []) as [r'|] eqn:Hp; [|done]. intros [= <- <-].
    by apply strip_prefix_Some in Hp.
  - destruct (strip_prefix p (b :: s)) as [r'|] eqn:Hp.
    + intros [= <- <-]. by apply strip_prefix_Some in Hp.
    + destruct (split_once p s) as [[l' r']|]; cbn; [|done]. intros [= <- <-].
      cbn. f_equal. by apply IH.
Qed.

(** ** Lists of offenders *)

Lemma is_empty_spec {A} (l : list A) : is_empty l = true ↔ ∀ x, x ∉ l.
Proof.
  destruct l as [|x l]; cbn; [|set_solver]. split; [intros _ x; apply not_elem_of_nil|done].
Qed.

Lemma is_empty_fmap {A B} (f : A → B) l : is_empty (f <$> l) = is_empty l.
Proof. by destruct l. Qed.

Lemma is_empty_filter {A} (P : A → Prop) `{∀ x, Decision (P x)} l :
  is_empty (filter P l) = true ↔ ∀ x, x ∈ l → ¬ P x.
Proof. rewrite is_empty_spec. setoid_rewrite list_elem_of_filter. naive_solver. Qed.

Lemma is_empty_bind {A B} (f : A → list B) l :
  is_empty (l ≫= f) = true ↔ ∀ x, x ∈ l → is_empty (f x) = true.
Proof.
  rewrite is_empty_spec. setoid_rewrite list_elem_of_bind. setoid_rewrite is_empty_spec.
  naive_solver.
Qed.

Lemma is_empty_btree_set_iter (s : gset Z) : is_empty (btree_set_iter Z.le s) = true ↔ ∀ n, n ∉ s.
Proof. rewrite is_empty_spec. by setoid_rewrite elem_of_btree_set_iter. Qed.

Lemma occurrences_filter (P : Z → bool) k l :
  P k = true → occurrences k (filter P l) = occurrences k l.
Proof.
  intros Hk. unfold occurrences. induction l as [|x l IH]; [done|]. rewrite !filter_cons.
  destruct (decide (P x)) as [Hx|Hx]; rewrite ?filter_cons;
    (destruct (decide (k = x)) as [->|Hne]; cbn; [|done]).
  - by rewrite IH.
  - rewrite Hk in Hx. by destruct Hx.
Qed.

Lemma occurrences_pos {K} `{EqDecision K} (k : K) l : k ∈ l ↔ (0 < occurrences k l)%nat.
Proof.
  unfold occurrences. split.
  - intros Hk. assert (k ∈ filter (k =.) l) as Hf by by apply list_elem_of_filter.
    destruct (filter _ l); [by apply not_elem_of_nil in Hf|cbn; lia].
  - intros Hp. destruct (filter (k =.) l) as [|x f] eqn:Hf; [cbn in Hp; lia|].
    assert (x ∈ filter (k =.) l) as Hx by (rewrite Hf; set_solver).
    apply list_elem_of_filter in Hx as [-> Hx]. done.
Qed.

Lemma occurrences_app {K} `{EqDecision K} (k : K) l l' :
  occurrences k (l ++ l') = (occurrences k l + occurrences k l')%nat.
Proof. unfold occurrences. by rewrite filter_app, length_app. Qed.

Lemma fmap_filter_by {A} (f : A → Z) (P : Z → bool) (l : list A) :
  f <$> filter (λ x, P (f x)) l = filter P (f <$> l).
Proof.
  induction l as [|x l IH]; [done|]. cbn [fmap list_fmap]. rewrite !filter_cons.
  case_decide; cbn; by rewrite <- IH.
Qed.

(** Splitting around one byte. *)
Lemma split_once_none b s : b ∉ s → split_once [b] s = None.
Proof.
  induction s as [|c s IH]; intros Hb; cbn; [done|]. rewrite not_elem_of_cons in Hb.
  rewrite decide_False by tauto. by rewrite IH by tauto.
Qed.

Lemma split_once_byte b l r : b ∉ l → split_once [b] (l ++ [b] ++ r) = Some (l, r).
Proof.
  induction l as [|c l IH]; intros Hb; cbn.
  - by rewrite decide_True.
  - rewrite not_elem_of_cons in Hb. rewrite decide_False by tauto. cbn in IH. by rewrite IH by tauto.
Qed.

Lemma split_no_byte c p : c ∉ p → split c p = [p].
Proof.
  induction p as [|b p IH]; intros Hc; cbn; [done|]. rewrite not_elem_of_cons in Hc.
  rewrite IH by tauto. by rewrite decide_False by naive_solver.
Qed.

Lemma split_app c p s : c ∉ p → split c (p ++ c :: s) = p :: split c s.
Proof.
  induction p as [|b p IH]; intros Hc; cbn; [by rewrite decide_True|].
  rewrite not_elem_of_cons in Hc. rewrite IH by tauto. by rewrite decide_False by naive_solver.
Qed.

(** [split] undoes [join]. *)
Lemma split_pieces c s : ∀ p, p ∈ split c s → c ∉ p.
Proof.
  induction s as [|b s IH]; cbn [split]; intros p.
  - intros ->%list_elem_of_singleton. apply not_elem_of_nil.
  - case_decide as Hb.
    + intros [->|Hp]%elem_of_cons; [apply not_elem_of_nil|by apply IH].
    + destruct (split c s) as [|q qs].
      * intros ->%list_elem_of_singleton. set_solver.
      * intros [->|Hp]%elem_of_cons; [|apply IH; set_solver].
        rewrite not_elem_of_cons. split; [done|]. apply IH. set_solver.
Qed.

Lemma split_join c ps : ps ≠ [] → Forall (λ p, c ∉ p) ps → split c (join_with [c] ps) = ps.
Proof.
  intros Hne Hps. induction Hps as [|p ps Hp Hps IH]; [done|]. cbn [join_with].
  destruct ps as [|q ps]; [by apply split_no_byte|]. cbn [app].
  rewrite split_app by done. f_equal. by apply IH.
Qed.

Lemma parse_digits_range max s : ∀ acc v,
  0 ≤ acc ≤ max → parse_digits max acc s = Some v → 0 ≤ v ≤ max.
Proof.
  induction s as [|b s IH]; cbn; intros acc v Ha; [by intros [= <-]|].
  destruct (is_ascii_digit b) eqn:Hb; [|done]. unfold is_ascii_digit, in_range in Hb.
  destruct (Z.leb_spec (acc * 10 + digit_value b) max) as [Hle|Hgt]; [|done].
  apply IH. unfold digit_value in *. lia.
Qed.

Lemma parse_u32_range s v : parse_u32 s = Some v → 0 ≤ v ≤ u32_max.
Proof.
  unfold parse_u32, parse_unsigned. destruct s as [|b s]; [done|].
  repeat case_match; try discriminate; apply parse_digits_range; unfold u32_max; lia.
Qed.
