(* ===== verification/Renumber.v ===== *)
(** * c4-split-renumber: renumbering the clauses of layer C4

    The tool of src/scripts/src/bin/c4-split-renumber.rs, which split one clause
    of a specification: it makes room for two new ones by renaming C4.11 to
    C4.22 by two, in the document and in its trace table, and reassigns three
    rows of the table. The renaming replaces one identifier after the other,
    from the last; the theorem says that this is the renaming of all of them at
    once. The scanners walk over indices; here [skip] counts the bytes the index
    has still to jump over. *)

From S2P Require Import Prelude Text.
#[local] Open Scope Z_scope.

(** ** Data *)

Record Reassignment := mk_Reassignment { ra_ruled_n : bytes; ra_new_ids : bytes }.

Definition REASSIGNMENTS : list Reassignment :=
  [mk_Reassignment (str "68") (str "C4.10;C4.11");
   mk_Reassignment (str "238") (str "C4.12");
   mk_Reassignment (str "239") (str "C4.12")].

Definition SHIFT_LOW : Z := 11.
Definition SHIFT_HIGH : Z := 22.
Definition SHIFT_DELTA : Z := 2.

(** ** Scanners *)

(** [find_clause_ids]: the numbers behind ["C4."], in order. *)
Fixpoint find_clause_ids_from (skip : nat) (src : bytes) : tool (list Z) :=
  match src with
  | [] => Ok []
  | b :: rest =>
      match skip with
      | S skip => find_clause_ids_from skip rest
      | O =>
          match strip_prefix (str "C4.") src with
          | Some after =>
              let digits := digit_run after in
              if is_empty digits then find_clause_ids_from 2 rest
              else
                match parse_u32 digits with
                | Some n => cons n <$> find_clause_ids_from (2 + length digits) rest
                | None => Panic
                end
          | None => find_clause_ids_from 0 rest
          end
      end
  end.
Definition find_clause_ids (src : bytes) : tool (list Z) := find_clause_ids_from 0 src.

(** The body of the loop of [other_clause_ids] for one prefix. *)
Fixpoint other_ids_from (prefix : bytes) (skip : nat) (src : bytes) : list bytes :=
  match src with
  | [] => []
  | b :: rest =>
      match skip with
      | S skip => other_ids_from prefix skip rest
      | O =>
          match strip_prefix prefix src with
          | Some after =>
              let digits := digit_run after in
              let next := (length prefix + length digits - 1)%nat in
              if is_empty digits then other_ids_from prefix next rest
              else (prefix ++ digits) :: other_ids_from prefix next rest
          | None => other_ids_from prefix 0 rest
          end
      end
  end.

Definition OTHER_PREFIXES : list bytes :=
  [str "C1."; str "C2."; str "C3."; str "C5."; str "C6."].
Definition other_clause_ids (src : bytes) : list bytes :=
  merge_sort bytes_le (mjoin ((λ p, other_ids_from p 0 src) <$> OTHER_PREFIXES)).

(** [replace_token_exact], before the bytes are made a string again. *)
Fixpoint replace_from (from to : bytes) (skip : nat) (src : bytes) : bytes * nat :=
  match src with
  | [] => ([], 0%nat)
  | b :: rest =>
      match skip with
      | S skip => replace_from from to skip rest
      | O =>
          match strip_prefix from src with
          | Some after =>
              if starts_with_digit after then
                let '(out, count) := replace_from from to 0 rest in (b :: out, count)
              else
                let '(out, count) := replace_from from to (length from - 1) rest in
                (to ++ out, S count)
          | None => let '(out, count) := replace_from from to 0 rest in (b :: out, count)
          end
      end
  end.
Definition replace_token_exact (src from to : bytes) : tool (bytes * nat) :=
  let '(out, count) := replace_from from to 0 src in
  if utf8_valid out then Ok (out, count) else Panic.

(** The loop of [shift_clause_ids], from [n] down to [SHIFT_LOW]; [remaining] is
    [n - SHIFT_LOW]. *)
Fixpoint shift_loop (remaining : nat) (current : bytes) (shifted : nat) : tool (bytes * nat) :=
  let n := SHIFT_LOW + Z.of_nat remaining in
  '(replaced, count) ←
    replace_token_exact current (str "C4." ++ decimal n) (str "C4." ++ decimal (n + SHIFT_DELTA));
  match remaining with
  | O => Ok (replaced, (shifted + count)%nat)
  | S remaining => shift_loop remaining replaced (shifted + count)
  end.
Definition shift_clause_ids (src : bytes) : tool (bytes * nat) :=
  shift_loop (Z.to_nat (SHIFT_HIGH - SHIFT_LOW)) src 0.

(** ** Rows of the trace table *)

Definition pending (r : Reassignment) (fields : list bytes) : bool :=
  match fields with
  | f0 :: _ :: f2 :: _ => bool_decide (f0 = ra_ruled_n r ∧ f2 = str "C4.10")
  | _ => false
  end.

Definition check_idempotence (spec_src trace_src : bytes) : tool () :=
  ids ← find_clause_ids spec_src;
  if existsb (λ n, (n =? 23) || (n =? 24)) ids then Panic else
  if existsb (λ r, existsb (λ line, pending r (split TAB line)) (lines trace_src)) REASSIGNMENTS
  then Ok tt else Panic.

Definition reassign_line (line : bytes) : bytes * nat :=
  let fields := split TAB line in
  match List.find (λ r, pending r fields) REASSIGNMENTS with
  | Some r => (join_with [TAB] (<[2%nat := ra_new_ids r]> fields), 1%nat)
  | None => (line, 0%nat)
  end.

Definition reassign_rows (trace_src : bytes) : bytes * nat :=
  let rows := reassign_line <$> lines trace_src in
  let out := join_with [NL] rows.*1 in
  (if decide (last trace_src = Some NL) then out ++ [NL] else out, sum_list rows.*2).

(** ** The tool

    [files] is what [std::fs::read_to_string] answers for a path; the result is
    the printed lines and the files written, in order. *)
Definition count_line (name : string) (count : nat) : bytes :=
  join_with [TAB] [str "COUNT"; str name; decimal (Z.of_nat count)].

Definition renumber_main (files : bytes → option bytes) (args : list bytes) :
    tool (list bytes * list (bytes * bytes)) :=
  let apply := existsb (λ a, bool_decide (a = str "--apply")) args in
  match filter (λ a, a ≠ str "--apply") args with
  | spec_path :: trace_path :: _ =>
      match files spec_path, files trace_path with
      | Some spec_src, Some trace_src =>
          _ ← check_idempotence spec_src trace_src;
          '(spec_out, spec_shifted) ← shift_clause_ids spec_src;
          '(trace_shifted, cells) ← shift_clause_ids trace_src;
          let '(trace_out, rows) := reassign_rows trace_shifted in
          if decide (other_clause_ids spec_src = other_clause_ids spec_out) then
            let counts :=
              [count_line "spec_headings_shifted" spec_shifted;
               count_line "trace_cells_shifted" cells;
               count_line "trace_rows_reassigned" rows] in
            if apply then
              Ok (counts ++ [join_with [TAB] [str "OK"; str "applied"; spec_path ++ str " " ++ trace_path]],
                  [(spec_path, spec_out); (trace_path, trace_out)])
            else
              Ok (counts ++ [join_with [TAB]
                               [str "OK"; str "dry-run"; str "no files written; pass --apply to write"]],
                  [])
          else Panic
      | _, _ => Panic
      end
  | _ => Panic
  end.

(** ** What the renaming should do: all identifiers at once *)

(** The numbers from [SHIFT_LOW] to [high], written without superfluous zeros. *)
Definition renames_below (high : Z) (ds : bytes) : bool :=
  let n := digits_number ds in
  bool_decide (ds = decimal n) && (SHIFT_LOW <=? n) && (n <=? high).
Definition shift_below (high : Z) (ds : bytes) : bytes :=
  if renames_below high ds then decimal (digits_number ds + SHIFT_DELTA) else ds.
Definition shift_number : bytes → bytes := shift_below SHIFT_HIGH.

Section Renaming.
Variable g : bytes → bytes.

(** [clause_map g] renames the number of every clause of layer 4 by [g]. *)
Fixpoint clause_map_from (skip : nat) (src : bytes) : bytes :=
  match src with
  | [] => []
  | b :: rest =>
      match skip with
      | S skip => clause_map_from skip rest
      | O =>
          match strip_prefix (str "C4.") src with
          | Some after =>
              str "C4." ++ g (digit_run after) ++ clause_map_from (2 + length (digit_run after)) rest
          | None => b :: clause_map_from 0 rest
          end
      end
  end.
Definition clause_map : bytes → bytes := clause_map_from 0.
End Renaming.

(** The numbers of the clauses of a text, as written. *)
Fixpoint clause_numbers_from (skip : nat) (src : bytes) : list bytes :=
  match src with
  | [] => []
  | b :: rest =>
      match skip with
      | S skip => clause_numbers_from skip rest
      | O =>
          match strip_prefix (str "C4.") src with
          | Some after => digit_run after :: clause_numbers_from (2 + length (digit_run after)) rest
          | None => clause_numbers_from 0 rest
          end
      end
  end.
Definition clause_numbers : bytes → list bytes := clause_numbers_from 0.

(** The tests of the source. *)
Example token_boundary :
  replace_token_exact (str "see C4.22 and C4.2 here") (str "C4.2") (str "C4.4")
  = Ok (str "see C4.22 and C4.4 here", 1%nat).
Proof. by vm_compute. Qed.

Example descending_shift :
  shift_clause_ids (str "C4.11 C4.12 C4.13") = Ok (str "C4.13 C4.14 C4.15", 3%nat).
Proof. by vm_compute. Qed.

Example reassign_rows_example :
  reassign_rows (mjoin [str "68"; [TAB]; str "x"; [TAB]; str "C4.10"; [TAB]; str "n"; [NL]])
  = (mjoin [str "68"; [TAB]; str "x"; [TAB]; str "C4.10;C4.11"; [TAB]; str "n"; [NL]], 1%nat).
Proof. by vm_compute. Qed.

(** ** The scanners, one token at a time *)

Definition not_C (b : byte) : Prop := b ≠ x43.

Lemma digits_not_C ds : all_digits ds → Forall not_C ds.
Proof. intros Hd. eapply Forall_impl; [exact Hd|]. by intros b Hb ->. Qed.

Lemma not_C_no_prefix w p b r : not_C b → p = x43 :: w → strip_prefix p (b :: r) = None.
Proof. intros Hb ->. cbn. by rewrite decide_False by (intros <-; by apply Hb). Qed.

Lemma C4_prefix r : strip_prefix (str "C4.") (x43 :: str "4." ++ r) = Some r.
Proof. exact (strip_prefix_app (str "C4.") r). Qed.

Section clause_map_laws.
Context (g : bytes → bytes).

Lemma clause_map_skip v r : clause_map_from g (length v) (v ++ r) = clause_map g r.
Proof. unfold clause_map. induction v as [|b v IH]; [by destruct r|done]. Qed.

Lemma clause_map_token ds r :
  all_digits ds → starts_with_digit r = false →
  clause_map g (str "C4." ++ ds ++ r) = str "C4." ++ g ds ++ clause_map g r.
Proof.
  intros Hd Hr. unfold clause_map at 1.
  change (str "C4." ++ ds ++ r) with (x43 :: str "4." ++ ds ++ r) at 1. cbn [clause_map_from].
  rewrite C4_prefix.
  rewrite digit_run_app by done. do 2 f_equal.
  rewrite (app_assoc (str "4.") ds r). exact (clause_map_skip (str "4." ++ ds) r).
Qed.

Lemma clause_map_byte b r :
  strip_prefix (str "C4.") (b :: r) = None → clause_map g (b :: r) = b :: clause_map g r.
Proof. intros Hb. unfold clause_map at 1. cbn [clause_map_from]. by rewrite Hb. Qed.

Lemma clause_map_not_C b r : not_C b → clause_map g (b :: r) = b :: clause_map g r.
Proof. intros Hb. by apply clause_map_byte, (not_C_no_prefix (str "4.")). Qed.

Lemma clause_map_plain v r : Forall not_C v → clause_map g (v ++ r) = v ++ clause_map g r.
Proof.
  induction 1 as [|b v Hb _ IH]; [done|]. cbn [app]. by rewrite clause_map_not_C, IH.
Qed.

Lemma clause_map_C r : ∃ r', clause_map g (x43 :: r) = x43 :: r'.
Proof.
  unfold clause_map. cbn [clause_map_from]. destruct (strip_prefix _ _); eexists; [|done].
  reflexivity.
Qed.

(** What follows a clause up to the next [C] is left as it is. *)
Lemma digit_run_map r : digit_run (clause_map g r) = digit_run r.
Proof.
  induction r as [|b r IH]; [done|]. destruct (decide (b = x43)) as [->|Hb].
  - by destruct (clause_map_C r) as [r' ->].
  - rewrite clause_map_not_C by done. cbn. by rewrite IH.
Qed.

Lemma digits_after_map w r : Forall not_C w →
  digit_run <$> strip_prefix w (clause_map g r) = digit_run <$> strip_prefix w r.
Proof.
  intros Hw. revert r. induction Hw as [|a w Ha _ IH]; intros r; cbn.
  { f_equal. apply digit_run_map. }
  destruct r as [|b r]; [done|]. destruct (decide (b = x43)) as [->|Hb].
  - destruct (clause_map_C r) as [r' ->]. cbn. by rewrite !decide_False by done.
  - rewrite clause_map_not_C by done. cbn. case_decide; [apply IH|done].
Qed.

Lemma no_token_map b r :
  strip_prefix (str "C4.") (b :: r) = None → strip_prefix (str "C4.") (b :: clause_map g r) = None.
Proof.
  change (strip_prefix (str "C4.") (b :: ?x)) with
    (if decide (x43 = b) then strip_prefix (str "4.") x else None).
  case_decide; [|done]. intros Hr. apply fmap_None with digit_run.
  rewrite digits_after_map, Hr; [done|]. by repeat constructor.
Qed.

Lemma starts_with_digit_map r : starts_with_digit (clause_map g r) = starts_with_digit r.
Proof.
  destruct r as [|b r]; [done|]. destruct (decide (b = x43)) as [->|Hb].
  - by destruct (clause_map_C r) as [r' ->].
  - by rewrite clause_map_not_C by done.
Qed.

Context (Hg : ∀ ds, all_digits ds → all_digits (g ds)).

Lemma utf8_valid_clause_map s : utf8_valid s = true → utf8_valid (clause_map g s) = true.
Proof.
  remember (length s) as n eqn:Hn. revert s Hn.
  induction n as [n IH] using lt_wf_ind. intros s -> Hs.
  destruct (strip_prefix (str "C4.") s) as [after|] eqn:Ht.
  - apply strip_prefix_Some in Ht as ->. destruct (digit_run_spec after) as (r&Hr&Hd&Hn).
    revert Hr Hd. generalize (digit_run after). intros ds -> Hd.
    rewrite clause_map_token by done. rewrite !app_assoc in *.
    rewrite utf8_valid_ascii_app in Hs |- * by (repeat constructor; auto using digits_ascii).
    apply (IH (length r)); [|done..]. rewrite !length_app. cbn. lia.
  - destruct s as [|b s]; [done|]. destruct (utf8_cons_inv b s Hs) as [[Hb Hv]|(v&r&Heq&Hne&Hv&Hvv&Hvr)].
    + rewrite clause_map_byte, utf8_valid_ascii by done. apply (IH (length s)); [cbn; lia|done..].
    + rewrite Heq in *. rewrite clause_map_plain.
      * rewrite utf8_valid_app by done. apply (IH (length r)); [|done..].
        destruct v; [done|]. rewrite length_app. cbn. lia.
      * eapply Forall_impl; [exact Hv|]. by intros c Hc ->.
Qed.
End clause_map_laws.

Lemma clause_ind (P : bytes → Prop) :
  P [] →
  (∀ ds r, all_digits ds → starts_with_digit r = false → P r → P (str "C4." ++ ds ++ r)) →
  (∀ b r, strip_prefix (str "C4.") (b :: r) = None → P r → P (b :: r)) →
  ∀ s, P s.
Proof. by apply text_ind. Qed.

(** Renaming twice is renaming by the composition, and renames the numbers. *)
Lemma clause_map_compose g h s :
  (∀ ds, all_digits ds → all_digits (g ds)) →
  clause_map h (clause_map g s) = clause_map (h ∘ g) s.
Proof.
  intros Hg. induction s as [|ds r Hd Hr IH|b r Hb IH] using clause_ind; [done..| |].
  - rewrite !clause_map_token; rewrite ?starts_with_digit_map; auto. by rewrite IH.
  - rewrite !(clause_map_byte _ b); auto using no_token_map. by rewrite IH.
Qed.

Lemma clause_numbers_token ds r :
  all_digits ds → starts_with_digit r = false →
  clause_numbers (str "C4." ++ ds ++ r) = ds :: clause_numbers r.
Proof.
  intros Hd Hr. unfold clause_numbers at 1.
  change (str "C4." ++ ds ++ r) with (x43 :: str "4." ++ ds ++ r) at 1. cbn [clause_numbers_from].
  rewrite C4_prefix, digit_run_app by done. f_equal.
  rewrite (app_assoc (str "4.") ds r). change (2 + length ds)%nat with (length (str "4." ++ ds)).
  unfold clause_numbers. induction (str "4." ++ ds) as [|b v IH]; [by destruct r|done].
Qed.

Lemma clause_numbers_byte b r :
  strip_prefix (str "C4.") (b :: r) = None → clause_numbers (b :: r) = clause_numbers r.
Proof. intros Hb. unfold clause_numbers at 1. cbn [clause_numbers_from]. by rewrite Hb. Qed.

Lemma clause_numbers_map g s :
  (∀ ds, all_digits ds → all_digits (g ds)) →
  clause_numbers (clause_map g s) = g <$> clause_numbers s.
Proof.
  intros Hg. induction s as [|ds r Hd Hr IH|b r Hb IH] using clause_ind; [done..| |].
  - rewrite clause_map_token, !clause_numbers_token; rewrite ?starts_with_digit_map; auto.
    cbn. by rewrite IH.
  - rewrite clause_map_byte, !clause_numbers_byte; auto using no_token_map.
Qed.

Lemma clause_map_ext g h s :
  (∀ ds, ds ∈ clause_numbers s → g ds = h ds) → clause_map g s = clause_map h s.
Proof.
  induction s as [|ds r Hd Hr IH|b r Hb IH] using clause_ind; [done..| |].
  - rewrite clause_numbers_token by done. intros Hgh. rewrite !clause_map_token by done.
    rewrite Hgh by set_solver. do 2 f_equal. set_solver.
  - rewrite clause_numbers_byte, !(clause_map_byte _ b) by done. intros Hgh. f_equal. auto.
Qed.

(** [replace_token_exact] renames one number. *)
Section replace.
Context (d e : bytes) (Hd : all_digits d).

Lemma replace_skip to from v r :
  replace_from from to (length v) (v ++ r) = replace_from from to 0 r.
Proof. induction v as [|b v IH]; [by destruct r|done]. Qed.

Lemma replace_plain v r : Forall not_C v →
  replace_from (str "C4." ++ d) (str "C4." ++ e) 0 (v ++ r)
  = (v ++ (replace_from (str "C4." ++ d) (str "C4." ++ e) 0 r).1,
     (replace_from (str "C4." ++ d) (str "C4." ++ e) 0 r).2).
Proof.
  induction 1 as [|b v Hb _ IH]; [apply surjective_pairing|].
  cbn [app replace_from]. rewrite (not_C_no_prefix (str "4." ++ d)) by done. by rewrite IH.
Qed.

(** A number matches exactly when it is the one looked for. *)
Lemma replace_match ds r :
  all_digits ds → starts_with_digit r = false →
  match strip_prefix d (ds ++ r) with
  | Some after => if starts_with_digit after then ds ≠ d else ds = d ∧ after = r
  | None => ds ≠ d
  end.
Proof.
  intros Hds Hr. revert ds Hds. induction Hd as [|a d' Ha Hd' IH]; intros [|b ds] Hds; cbn.
  - rewrite Hr. done.
  - inversion Hds as [|? ? Hb]. by rewrite Hb.
  - destruct r as [|b r]; [done|]. case_decide as Hab; [|done]. subst. cbn in Hr. congruence.
  - inversion Hds as [|? ? Hb Hds']. case_decide as Hab; [subst|congruence].
    specialize (IH Hd' ds Hds'). repeat case_match; naive_solver.
Qed.

Lemma strip_prefix_C4 s : strip_prefix (str "C4." ++ d) (str "C4." ++ s) = strip_prefix d s.
Proof. cbn. by rewrite !decide_True. Qed.

Definition rename_one (ds : bytes) : bytes := if decide (ds = d) then e else ds.

Lemma replace_renames s :
  replace_from (str "C4." ++ d) (str "C4." ++ e) 0 s
  = (clause_map rename_one s, length (filter (.= d) (clause_numbers s))).
Proof.
  induction s as [|ds r Hds Hr IH|b r Hb IH] using clause_ind; [done..| |].
  - rewrite clause_map_token, clause_numbers_token by done.
    pose proof (replace_match ds r Hds Hr) as Hm. rewrite <- strip_prefix_C4 in Hm.
    change (str "C4." ++ ds ++ r) with (x43 :: str "4." ++ ds ++ r). cbn [replace_from].
    change (x43 :: str "4." ++ ds ++ r) with (str "C4." ++ ds ++ r).
    assert (Forall not_C (str "4." ++ ds)) as Hn.
    { repeat constructor; [done..|]. by apply digits_not_C. }
    assert (replace_from (str "C4." ++ d) (str "C4." ++ e) 0 (str "4." ++ ds ++ r)
      = (str "4." ++ ds ++ clause_map rename_one r, length (filter (.= d) (clause_numbers r))))
      as Hw.
    { rewrite app_assoc, replace_plain, IH by done. by rewrite <- app_assoc. }
    rewrite filter_cons. unfold rename_one at 1.
    destruct (strip_prefix _ _) as [after|]; [destruct (starts_with_digit after)|].
    + rewrite !decide_False by done. by rewrite Hw.
    + destruct Hm as [-> ->]. rewrite !decide_True by done.
      change (length (str "C4." ++ d) - 1)%nat with (length (str "4." ++ d)).
      rewrite app_assoc, replace_skip, IH. by rewrite <- app_assoc.
    + rewrite !decide_False by done. by rewrite Hw.
  - rewrite clause_map_byte, clause_numbers_byte by done. cbn [replace_from].
    destruct (strip_prefix (str "C4." ++ d) (b :: r)) as [after|] eqn:Ha; [|by rewrite IH].
    apply strip_prefix_Some in Ha. rewrite <- app_assoc in Ha. rewrite Ha in Hb.
    by rewrite strip_prefix_app in Hb.
Qed.
End replace.

(** ** From the last identifier to the first *)

Lemma renames_below_step n ds : SHIFT_LOW < n ≤ SHIFT_HIGH →
  renames_below n ds = bool_decide (ds = decimal n) || renames_below (n - 1) ds.
Proof.
  intros Hn. unfold renames_below, SHIFT_LOW, SHIFT_HIGH in *.
  destruct (decide (ds = decimal n)) as [->|Hne].
  - rewrite (bool_decide_eq_true_2 (decimal n = decimal n)) by done.
    rewrite digits_number_decimal by lia. rewrite bool_decide_eq_true_2 by done. lia.
  - rewrite (bool_decide_eq_false_2 (ds = decimal n)) by done. case_bool_decide as Hd; [|done].
    assert (digits_number ds ≠ n) by congruence. lia.
Qed.

Lemma renames_below_low ds : renames_below SHIFT_LOW ds = bool_decide (ds = decimal SHIFT_LOW).
Proof.
  unfold renames_below. case_bool_decide as Hd; case_bool_decide as Hl; try done.
  - rewrite Hl. done.
  - assert (digits_number ds ≠ SHIFT_LOW) by congruence. lia.
  - rewrite Hl in Hd. by destruct Hd.
Qed.

Lemma shifted_not_renamed n : SHIFT_LOW < n ≤ SHIFT_HIGH →
  renames_below (n - 1) (decimal (n + SHIFT_DELTA)) = false.
Proof.
  unfold renames_below, SHIFT_LOW, SHIFT_HIGH, SHIFT_DELTA. intros Hn.
  rewrite digits_number_decimal by lia. lia.
Qed.

Lemma all_digits_rename d e ds : all_digits e → all_digits ds → all_digits (rename_one d e ds).
Proof. unfold rename_one. by case_decide. Qed.

Lemma shift_below_step n ds : SHIFT_LOW < n ≤ SHIFT_HIGH →
  shift_below (n - 1) (rename_one (decimal n) (decimal (n + SHIFT_DELTA)) ds) = shift_below n ds.
Proof.
  intros Hn. unfold rename_one, shift_below. rewrite (renames_below_step n ds) by done.
  case_decide as Hd.
  - rewrite bool_decide_eq_true_2, shifted_not_renamed by done. subst ds. cbn [orb].
    rewrite digits_number_decimal; [done|]. unfold SHIFT_LOW, SHIFT_HIGH in *. lia.
  - by rewrite bool_decide_eq_false_2.
Qed.

Lemma count_step n l : SHIFT_LOW < n ≤ SHIFT_HIGH →
  (length (filter (.= decimal n) l)
   + length (filter (renames_below (n - 1))
       (rename_one (decimal n) (decimal (n + SHIFT_DELTA)) <$> l)))%nat
  = length (filter (renames_below n) l).
Proof.
  intros Hn. induction l as [|ds l IH]; [done|]. cbn [fmap list_fmap].
  pose proof (renames_below_step n ds Hn) as Hs.
  destruct (decide (ds = decimal n)) as [->|Hd].
  - rewrite bool_decide_eq_true_2 in Hs by done.
    assert (rename_one (decimal n) (decimal (n + SHIFT_DELTA)) (decimal n)
            = decimal (n + SHIFT_DELTA)) as -> by (unfold rename_one; by rewrite decide_True).
    rewrite (filter_cons_False _ (decimal (n + SHIFT_DELTA))) by (rewrite shifted_not_renamed by done; by intros []).
    rewrite !filter_cons_True by (done || by rewrite Hs). cbn. lia.
  - rewrite bool_decide_eq_false_2 in Hs by done. cbn [orb] in Hs.
    assert (rename_one (decimal n) (decimal (n + SHIFT_DELTA)) ds = ds) as ->
      by (unfold rename_one; by rewrite decide_False).
    rewrite (filter_cons_False _ ds) by done. rewrite !filter_cons, Hs.
    destruct (decide (renames_below (n - 1) ds)); cbn; lia.
Qed.

Lemma replace_token_renames n s : SHIFT_LOW ≤ n ≤ SHIFT_HIGH → utf8_valid s = true →
  replace_token_exact s (str "C4." ++ decimal n) (str "C4." ++ decimal (n + SHIFT_DELTA))
  = Ok (clause_map (rename_one (decimal n) (decimal (n + SHIFT_DELTA))) s,
        length (filter (.= decimal n) (clause_numbers s))).
Proof.
  unfold SHIFT_LOW, SHIFT_HIGH, SHIFT_DELTA. intros Hn Hs. unfold replace_token_exact.
  rewrite replace_renames by (apply all_digits_decimal; lia).
  rewrite utf8_valid_clause_map; [done| |done].
  intros ds. apply all_digits_rename, all_digits_decimal. lia.
Qed.

Lemma shift_loop_renames k : (k <= Z.to_nat (SHIFT_HIGH - SHIFT_LOW))%nat → ∀ s acc,
  utf8_valid s = true →
  shift_loop k s acc
  = Ok (clause_map (shift_below (SHIFT_LOW + Z.of_nat k)) s,
        (acc + length (filter (renames_below (SHIFT_LOW + Z.of_nat k)) (clause_numbers s)))%nat).
Proof.
  induction k as [|k IH]; intros Hk s acc Hs; cbn [shift_loop];
    rewrite replace_token_renames by (done || unfold SHIFT_LOW, SHIFT_HIGH in *; lia);
    cbn [mbind outcome_bind].
  - change (SHIFT_LOW + Z.of_nat 0) with SHIFT_LOW.
    f_equal. f_equal.
    + apply clause_map_ext. intros ds _. unfold rename_one, shift_below.
      rewrite renames_below_low. case_decide as Hd.
      * by rewrite bool_decide_eq_true_2, Hd.
      * by rewrite bool_decide_eq_false_2.
    + do 2 f_equal. apply list_filter_iff. intros ds. rewrite renames_below_low.
      by rewrite bool_decide_spec.
  - assert (SHIFT_LOW < SHIFT_LOW + Z.of_nat (S k) ≤ SHIFT_HIGH) as Hn
      by (unfold SHIFT_LOW, SHIFT_HIGH in *; lia).
    assert (∀ ds, all_digits ds → all_digits (rename_one (decimal (SHIFT_LOW + Z.of_nat (S k)))
              (decimal (SHIFT_LOW + Z.of_nat (S k) + SHIFT_DELTA)) ds)) as Hg.
    { intros ds. apply all_digits_rename, all_digits_decimal.
      unfold SHIFT_LOW, SHIFT_DELTA in *. lia. }
    rewrite IH; [|lia|by apply utf8_valid_clause_map].
    replace (SHIFT_LOW + Z.of_nat k) with (SHIFT_LOW + Z.of_nat (S k) - 1) by lia.
    rewrite clause_map_compose, clause_numbers_map, <- (count_step _ (clause_numbers s)) by done.
    f_equal. f_equal; [|lia].
    apply clause_map_ext. intros ds _. cbn. by apply shift_below_step.
Qed.

(** ** The guard on the other identifiers *)

(** [other_ids_from] looks at every position on its own: what it jumps over
    holds no [C]. *)
Definition head_id (prefix src : bytes) : list bytes :=
  match strip_prefix prefix src with
  | Some after => if is_empty (digit_run after) then [] else [prefix ++ digit_run after]
  | None => []
  end.

Section other_ids.
Context (w : bytes) (Hw : Forall not_C w).
Abbreviation ids := (other_ids_from (x43 :: w)).

Lemma other_ids_plain v r : Forall not_C v → ids 0 (v ++ r) = ids 0 r.
Proof.
  induction 1 as [|b v Hb _ IH]; [done|]. cbn [app other_ids_from].
  by rewrite (not_C_no_prefix w).
Qed.

Lemma other_ids_skip v r : ids (length v) (v ++ r) = ids 0 r.
Proof. induction v as [|b v IH]; [by destruct r|done]. Qed.

Lemma other_ids_cons b r : ids 0 (b :: r) = head_id (x43 :: w) (b :: r) ++ ids 0 r.
Proof.
  cbn [other_ids_from]. unfold head_id.
  destruct (strip_prefix (x43 :: w) (b :: r)) as [after|] eqn:Ha; [|done].
  apply strip_prefix_Some in Ha. cbn in Ha. injection Ha as -> ->.
  destruct (digit_run_spec after) as (r&Hr&Hd&_). revert Hr Hd. generalize (digit_run after).
  intros ds -> Hd. rewrite app_assoc.
  replace (length (x43 :: w) + length ds - 1)%nat with (length (w ++ ds))
    by (rewrite length_app; cbn; lia).
  rewrite other_ids_skip, other_ids_plain; [by destruct (is_empty ds)|].
  apply Forall_app_2; [done|by apply digits_not_C].
Qed.

Lemma head_id_map g b r :
  head_id (x43 :: w) (b :: clause_map g r) = head_id (x43 :: w) (b :: r).
Proof.
  unfold head_id. cbn. case_decide; [|done].
  pose proof (digits_after_map g w r Hw) as Hm.
  destruct (strip_prefix w (clause_map g r)), (strip_prefix w r); cbn in Hm; [|done..].
  by injection Hm as ->.
Qed.

Lemma other_ids_map g s :
  (∀ ds, all_digits ds → all_digits (g ds)) →
  (∀ s, strip_prefix (x43 :: w) (str "C4." ++ s) = None) →
  ids 0 (clause_map g s) = ids 0 s.
Proof.
  intros Hg Hne.
  assert (∀ ds r, all_digits ds → ids 0 (str "C4." ++ ds ++ r) = ids 0 r) as Htok.
  { intros ds r Hd. change (str "C4." ++ ds ++ r) with (x43 :: str "4." ++ ds ++ r).
    rewrite other_ids_cons. unfold head_id. specialize (Hne (ds ++ r)).
    change (str "C4." ++ ds ++ r) with (x43 :: str "4." ++ ds ++ r) in Hne. rewrite Hne.
    rewrite app_assoc. apply other_ids_plain.
    repeat constructor; [done..|by apply digits_not_C]. }
  induction s as [|ds r Hd Hr IH|b r Hb IH] using clause_ind; [done..| |].
  - rewrite clause_map_token, !Htok by auto. done.
  - rewrite clause_map_byte by done. by rewrite !other_ids_cons, head_id_map, IH.
Qed.
End other_ids.

Lemma other_clause_ids_map g s :
  (∀ ds, all_digits ds → all_digits (g ds)) →
  other_clause_ids (clause_map g s) = other_clause_ids s.
Proof.
  intros Hg. unfold other_clause_ids. do 2 f_equal. apply list_fmap_ext. intros i p Hp.
  apply list_elem_of_lookup_2 in Hp. unfold OTHER_PREFIXES in Hp. rewrite !elem_of_cons in Hp.
  destruct Hp as [->|[->|[->|[->|[->|Hp]]]]]; [..|by apply not_elem_of_nil in Hp];
    (apply other_ids_map; [by repeat constructor|done|done]).
Qed.

Lemma all_digits_shift_number ds : all_digits ds → all_digits (shift_number ds).
Proof.
  unfold shift_number, shift_below. destruct (renames_below _ ds) eqn:Hr; [|done].
  intros _. apply all_digits_decimal. unfold renames_below, SHIFT_LOW, SHIFT_DELTA in *.
  apply andb_prop in Hr as [Hr _]. lia.
Qed.

(** ** What the idempotence guard rules out *)

Lemma find_clause_ids_plain v r : Forall not_C v →
  find_clause_ids_from 0 (v ++ r) = find_clause_ids_from 0 r.
Proof.
  induction 1 as [|b v Hb _ IH]; [done|]. cbn [app find_clause_ids_from].
  by rewrite (not_C_no_prefix (str "4.")).
Qed.

Lemma find_clause_ids_skip v r :
  find_clause_ids_from (length v) (v ++ r) = find_clause_ids_from 0 r.
Proof. induction v as [|b v IH]; [by destruct r|done]. Qed.

Lemma find_clause_ids_token ds r :
  all_digits ds → starts_with_digit r = false →
  find_clause_ids (str "C4." ++ ds ++ r)
  = if is_empty ds then find_clause_ids r
    else match parse_u32 ds with
         | Some n => cons n <$> find_clause_ids r
         | None => Panic
         end.
Proof.
  intros Hd Hr. unfold find_clause_ids at 1.
  change (str "C4." ++ ds ++ r) with (x43 :: str "4." ++ ds ++ r) at 1. cbn [find_clause_ids_from].
  rewrite C4_prefix, digit_run_app by done. rewrite (app_assoc (str "4.") ds r).
  change (2 + length ds)%nat with (length (str "4." ++ ds)). rewrite find_clause_ids_skip.
  destruct (is_empty ds) eqn:He; [|done]. destruct ds; [|done].
  exact (find_clause_ids_skip (str "4.") r).
Qed.

Lemma find_clause_ids_numbers s : ∀ ids ds,
  find_clause_ids s = Ok ids → ds ∈ clause_numbers s →
  all_digits ds ∧ (ds = [] ∨ digits_number ds ∈ ids).
Proof.
  induction s as [|es r Hd Hr IH|b r Hb IH] using clause_ind; intros ids ds.
  - intros _ Hin. by apply not_elem_of_nil in Hin.
  - rewrite find_clause_ids_token, clause_numbers_token by done.
    intros Hf [->|Hin]%elem_of_cons.
    + split; [done|]. destruct (is_empty es) eqn:He; [left; by destruct es|right].
      destruct (parse_u32 es) as [n|] eqn:Hn; [|done]. apply parse_unsigned_value in Hn as ->; [|done].
      destruct (find_clause_ids r); [|done..]. injection Hf as <-. set_solver.
    + destruct (is_empty es); [by apply IH|]. destruct (parse_u32 es); [|done].
      destruct (find_clause_ids r) as [ids'| |]; [|done..]. injection Hf as <-.
      destruct (IH ids' ds eq_refl Hin) as [? [?|?]]; set_solver.
  - rewrite clause_numbers_byte by done. unfold find_clause_ids. cbn [find_clause_ids_from].
    rewrite Hb. apply IH.
Qed.

Lemma guard_excludes spec trace ds :
  check_idempotence spec trace = Ok () → ds ∈ clause_numbers spec →
  ds = [] ∨ (digits_number ds ≠ 23 ∧ digits_number ds ≠ 24).
Proof.
  unfold check_idempotence. intros Hc Hin.
  destruct (find_clause_ids spec) as [ids| |] eqn:Hf; cbn in Hc; [|done..].
  destruct (find_clause_ids_numbers spec ids ds Hf Hin) as [_ [?|Hd]]; [by left|right].
  destruct (existsb _ ids) eqn:He; [done|].
  assert (¬ (digits_number ds = 23 ∨ digits_number ds = 24)); [|lia]. intros Hn.
  apply not_true_iff_false in He. apply He, existsb_exists. exists (digits_number ds).
  split; [by apply list_elem_of_In|lia].
Qed.

Lemma renames_below_range ds : renames_below SHIFT_HIGH ds = true →
  ds = decimal (digits_number ds) ∧ 11 ≤ digits_number ds ≤ 22.
Proof.
  unfold renames_below, SHIFT_LOW, SHIFT_HIGH. rewrite !andb_true_iff, bool_decide_eq_true.
  intros [[Hd Hl] Hh]. split; [done|lia].
Qed.

Lemma digits_number_shifted n : 11 ≤ n ≤ 22 → digits_number (decimal (n + 2)) = n + 2.
Proof. intros Hn. apply digits_number_decimal. lia. Qed.

(** What is not renamed is a target of the renaming only as 23 or 24. *)
Lemma target_taken n es :
  11 ≤ n ≤ 22 → es = decimal (n + 2) → renames_below SHIFT_HIGH es = false →
  digits_number es = 23 ∨ digits_number es = 24.
Proof.
  intros Hn -> Hes. rewrite digits_number_shifted by done.
  unfold renames_below, SHIFT_LOW, SHIFT_HIGH in Hes. rewrite digits_number_shifted in Hes by done.
  rewrite bool_decide_eq_true_2 in Hes by done. lia.
Qed.

(** Renaming merges no two identifiers unless 23 or 24 is taken. *)
Lemma shift_number_inj ds es :
  digits_number ds ≠ 23 ∧ digits_number ds ≠ 24 →
  digits_number es ≠ 23 ∧ digits_number es ≠ 24 →
  shift_number ds = shift_number es → ds = es.
Proof.
  unfold shift_number, shift_below, SHIFT_DELTA. intros Hd He.
  destruct (renames_below SHIFT_HIGH ds) eqn:Hds, (renames_below SHIFT_HIGH es) eqn:Hes;
    [| | |done]; intros Heq.
  - apply renames_below_range in Hds as [Hds Hdr], Hes as [Hes Her].
    apply (f_equal digits_number) in Heq. rewrite !digits_number_shifted in Heq by done.
    rewrite Hds, Hes. f_equal. lia.
  - apply renames_below_range in Hds as [_ Hdr].
    destruct (target_taken _ es Hdr (eq_sym Heq) Hes); naive_solver.
  - apply renames_below_range in Hes as [_ Her].
    destruct (target_taken _ ds Her Heq Hds); naive_solver.
Qed.

(** ** The property *)

Lemma shift_clause_ids_renames src :
  utf8_valid src = true →
  shift_clause_ids src
  = Ok (clause_map shift_number src,
        length (filter (renames_below SHIFT_HIGH) (clause_numbers src))).
Proof.
  intros Hs. unfold shift_clause_ids. rewrite shift_loop_renames by done.
  unfold SHIFT_HIGH, SHIFT_LOW. done.
Qed.

(** C40: On a document and a trace table that pass the guard, with both paths and
    [--apply] given, the tool never panics: its guard on the identifiers of the
    other layers holds, and what it writes are the two texts with every clause
    number from C4.11 to C4.22 raised by two, all at once (whatever the texts
    hold beside), the rows of the table then reassigned; the numbers of the
    result are the shifted ones, in place, and no two clauses of the document
    have been given the same identifier. *)
Theorem renumbering_is_simultaneous files spec_path trace_path spec trace :
  spec_path ≠ str "--apply" → trace_path ≠ str "--apply" →
  files spec_path = Some spec → files trace_path = Some trace →
  utf8_valid spec = true → utf8_valid trace = true →
  check_idempotence spec trace = Ok () →
  (∃ printed,
     renumber_main files [spec_path; trace_path; str "--apply"]
     = Ok (printed, [(spec_path, clause_map shift_number spec);
                     (trace_path, (reassign_rows (clause_map shift_number trace)).1)]))
  ∧ other_clause_ids (clause_map shift_number spec) = other_clause_ids spec
  ∧ clause_numbers (clause_map shift_number spec) = shift_number <$> clause_numbers spec
  ∧ ∀ ds es, ds ∈ clause_numbers spec → es ∈ clause_numbers spec →
      shift_number ds = shift_number es → ds = es.
Proof.
  intros Hsp Htp Hspec Htrace Hs Ht Hc.
  pose proof (other_clause_ids_map shift_number spec all_digits_shift_number) as Hids.
  split_and!; [|done| |].
  - unfold renumber_main. rewrite 2 filter_cons_True by done. rewrite Hspec, Htrace, Hc. cbn [mbind outcome_bind].
    rewrite !shift_clause_ids_renames by done. cbn [mbind outcome_bind].
    destruct (reassign_rows _) as [out rows]. rewrite decide_True by done.
    cbn [existsb]. rewrite (bool_decide_eq_true_2 (str "--apply" = str "--apply")) by done.
    rewrite !orb_true_r. by eexists.
  - apply clause_numbers_map, all_digits_shift_number.
  - intros ds es Hds Hes. apply shift_number_inj.
    + destruct (guard_excludes _ _ ds Hc Hds) as [->|]; [done|done].
    + destruct (guard_excludes _ _ es Hc Hes) as [->|]; [done|done].
Qed.

Definition sample_spec : bytes := str "#### C4.10 and C4.11, C4.22; see C5.11 and C4.111".
Definition sample_trace : bytes :=
  join_with [TAB] [str "68"; str "SPEC-BEARING"; str "C4.10"; str "C4.11"] ++ [NL].
Definition sample_files (path : bytes) : option bytes :=
  if decide (path = str "spec.md") then Some sample_spec
  else if decide (path = str "trace.tsv") then Some sample_trace else None.

Lemma renumbering_is_simultaneous_witness :
  clause_map shift_number sample_spec = str "#### C4.10 and C4.13, C4.24; see C5.11 and C4.111"
  ∧ (reassign_rows (clause_map shift_number sample_trace)).1
    = join_with [TAB] [str "68"; str "SPEC-BEARING"; str "C4.10;C4.11"; str "C4.13"] ++ [NL]
  ∧ ∃ printed,
      renumber_main sample_files [str "spec.md"; str "trace.tsv"; str "--apply"]
      = Ok (printed, [(str "spec.md", clause_map shift_number sample_spec);
                      (str "trace.tsv", (reassign_rows (clause_map shift_number sample_trace)).1)]).
Proof.
  split; [by vm_compute|]. split; [by vm_compute|].
  apply (renumbering_is_simultaneous sample_files (str "spec.md") (str "trace.tsv")
           sample_spec sample_trace); by vm_compute.
Defined.
