(* ===== verification/ClosedErrors.v ===== *)
(** * non-exhaustive-check: the gate that keeps error enums closed

    The tool of src/scripts/src/bin/non-exhaustive-check.rs: it walks the source
    directories of the crates, parses their files with [syn], and reports every
    public error enum marked [#[non_exhaustive]], except where a [cfg] predicate
    is false in every build that is not a test. The predicates are evaluated to
    one of three truth values. [cfg_attr], macros and the modules that name a file
    are not read, as the help of the tool says. There are no symbolic links. What
    [syn] parses is a value of [tree] or [Item];
    its parsing functions are the operations of the class [SynParse]. *)

From S2P Require Import Prelude Text.
#[local] Open Scope Z_scope.

(** ** What syn and proc_macro2 represent *)

(** Token trees; [raw] marks an identifier written with [r#], [paren] a group
    in parentheses. *)
Inductive tree :=
  | Ident (raw : bool) (name : bytes)
  | Punct (c : byte)
  | LitStr (value : bytes)
  | Literal
  | Group (paren : bool) (content : list tree).

(** [syn::Attribute]: its path where it is a single identifier, and what is
    between its parentheses. *)
Record Attribute := mk_Attribute { attr_path : option bytes; attr_args : option (list tree) }.

(** [syn::ItemEnum]; [ie_line] is the line of its identifier. *)
Record ItemEnum := mk_ItemEnum {
  ie_public : bool;
  ie_attrs : list Attribute;
  ie_ident : bytes;
  ie_line : Z;
}.

(** [syn::Item]. *)
Inductive Item :=
  | Item_Enum (e : ItemEnum)
  | Item_Mod (attrs : list Attribute) (content : option (list Item))
  | Item_other.

(** What the tool uses of [syn]. A parser is given the tokens left and returns
    what it leaves of them; [parse_any_ident] is [Ident::parse_any] with [unraw],
    [parse_token] a [peek] for a punctuation followed by its parsing,
    [parse_parens] the same for [parenthesized!], and [parse_paths] the names of
    the segments of a comma-separated list of paths. *)
Class SynParse := {
  peek_lit_bool : list tree → option (bool * list tree);
  parse_any_ident : list tree → option (bytes * list tree);
  parse_token : byte → list tree → option (list tree);
  parse_lit_str : list tree → option (list tree);
  parse_parens : list tree → option (list tree * list tree);
  parse_terminated : ∀ {A : Type}, (list tree → option (A * list tree)) → list tree → option (list A);
  parse_paths : list tree → option (list (list bytes));
  parse_file : bytes → option (list Item);
}.

Definition EQUALS : byte := x3d.
Definition COMMA : byte := x2c.

(** Values separated by commas up to the end of the tokens, with a trailing one
    allowed. *)
Fixpoint terminated {A} (parser : list tree → option (A * list tree)) (fuel : nat)
    (input : list tree) : option (list A) :=
  match fuel, input with
  | _, [] => Some []
  | O, _ => None
  | S fuel, _ =>
      '(value, rest) ← parser input;
      match rest with
      | [] => Some [value]
      | Punct c :: rest => if decide (c = COMMA) then cons value <$> terminated parser fuel rest else None
      | _ => None
      end
  end.

Class SynParseLaws `{SynParse} : Prop := {
  peek_lit_bool_spec ts : peek_lit_bool ts =
    match ts with
    | Ident false n :: rest =>
        if decide (n = str "true") then Some (true, rest)
        else if decide (n = str "false") then Some (false, rest) else None
    | _ => None
    end;
  parse_any_ident_spec ts : parse_any_ident ts =
    match ts with Ident _ n :: rest => Some (n, rest) | _ => None end;
  parse_token_spec c ts : parse_token c ts =
    match ts with Punct d :: rest => if decide (d = c) then Some rest else None | _ => None end;
  parse_lit_str_spec ts : parse_lit_str ts =
    match ts with LitStr _ :: rest => Some rest | _ => None end;
  parse_parens_spec ts : parse_parens ts =
    match ts with Group true content :: rest => Some (content, rest) | _ => None end;
  parse_terminated_spec {A} (parser : list tree → option (A * list tree)) ts :
    parse_terminated parser ts = terminated parser (length ts) ts;
}.

(** ** Truth values of predicates *)

Inductive CfgTruth := CfgTruth_False | CfgTruth_True | CfgTruth_Unknown.
#[global] Instance CfgTruth_eq_dec : EqDecision CfgTruth.
Proof. solve_decision. Defined.

(** The value of [all(...)], [any(...)] and [not(...)] from those between the
    parentheses. *)
Definition combine (name : bytes) (values : list CfgTruth) : option CfgTruth :=
  if decide (name = str "all" ∨ name = str "any") then
    let decisive := if decide (name = str "all") then CfgTruth_False else CfgTruth_True in
    Some (if decide (decisive ∈ values) then decisive
          else if decide (CfgTruth_Unknown ∈ values) then CfgTruth_Unknown
          else if decide (name = str "all") then CfgTruth_True else CfgTruth_False)
  else if decide (name = str "not") then
    match values with
    | [CfgTruth_False] => Some CfgTruth_True
    | [CfgTruth_True] => Some CfgTruth_False
    | [CfgTruth_Unknown] => Some CfgTruth_Unknown
    | _ => None
    end
  else None.

(** The nesting of groups, which bounds the recursion of the parser. *)
Fixpoint tree_depth (t : tree) : nat :=
  match t with
  | Group _ content => S (foldr (λ t n, tree_depth t `max` n)%nat 0%nat content)
  | _ => 0
  end.
Definition depth (ts : list tree) : nat := foldr (λ t n, tree_depth t `max` n)%nat 0%nat ts.

Section gate.
Context `{SynParse}.

(** [CfgTruth::parse]. *)
Fixpoint parse_cfg (fuel : nat) (input : list tree) : option (CfgTruth * list tree) :=
  match fuel with
  | O => None
  | S fuel =>
      match peek_lit_bool input with
      | Some (value, input) => Some (if value then CfgTruth_True else CfgTruth_False, input)
      | None =>
          '(name, input) ← parse_any_ident input;
          match parse_token EQUALS input with
          | Some input => input ← parse_lit_str input; Some (CfgTruth_Unknown, input)
          | None =>
              match parse_parens input with
              | Some (content, input) =>
                  values ← parse_terminated (parse_cfg fuel) content;
                  truth ← combine name values;
                  Some (truth, input)
              | None =>
                  Some (if decide (name = str "test") then CfgTruth_False else CfgTruth_Unknown, input)
              end
          end
      end
  end.

Definition attr_path_is (attr : Attribute) (name : bytes) : bool :=
  bool_decide (attr_path attr = Some name).

(** [parse_args_with] refuses an attribute without arguments, and tokens the
    parser leaves. *)
Definition is_cfg_disabled_without_test (attr : Attribute) : bool :=
  attr_path_is attr (str "cfg")
  && match attr_args attr with
     | Some input =>
         match parse_cfg (S (depth input)) input with
         | Some (CfgTruth_False, rest) => is_empty (default rest (parse_token COMMA rest))
         | _ => false
         end
     | None => false
     end.

Fixpoint collect_enums_of (item : Item) : list ItemEnum :=
  match item with
  | Item_Enum e => [e]
  | Item_Mod attrs content =>
      if existsb is_cfg_disabled_without_test attrs then []
      else match content with
           | Some inner_items => mjoin (collect_enums_of <$> inner_items)
           | None => []
           end
  | Item_other => []
  end.
Definition collect_enums (items : list Item) : list ItemEnum := mjoin (collect_enums_of <$> items).

Definition derive_idents (attr : Attribute) : list bytes :=
  if attr_path_is attr (str "derive") then
    match attr_args attr ≫= parse_paths with
    | Some paths => omap last paths
    | None => []
    end
  else [].

Definition is_violation (item_enum : ItemEnum) : bool :=
  if negb (ie_public item_enum) || existsb is_cfg_disabled_without_test (ie_attrs item_enum) then false
  else
    let has_non_exhaustive := existsb (λ attr, attr_path_is attr (str "non_exhaustive")) (ie_attrs item_enum) in
    let derives := ie_attrs item_enum ≫= derive_idents in
    let is_error_type := existsb (λ d, bool_decide (d = str "Error")) derives in
    is_error_type && has_non_exhaustive.

Definition enum_span_line (item_enum : ItemEnum) : option Z :=
  if ie_line item_enum =? 0 then None else Some (ie_line item_enum).

End gate.

(** ** Directories *)

(** A file whose content is absent cannot be read as text. *)
Inductive node :=
  | Dir (entries : list (bytes * node))
  | File (content : option bytes).

(** A path is the list of its components. *)
Abbreviation path := (list bytes).

Fixpoint lookup_path (n : node) (p : path) : option node :=
  match p with
  | [] => Some n
  | name :: p =>
      match n with
      | Dir entries =>
          (fix find_entry (entries : list (bytes * node)) : option node :=
             match entries with
             | [] => None
             | (k, n) :: entries => if decide (k = name) then lookup_path n p else find_entry entries
             end) entries
      | File _ => None
      end
  end.

Definition is_dir (o : option node) : bool := match o with Some (Dir _) => true | _ => false end.

(** [Path::extension]: what follows the last full stop, unless nothing precedes
    it. *)
Definition DOT : byte := x2e.
Definition extension (name : bytes) : option bytes :=
  if decide (name = [DOT; DOT]) then None else
  match rev (split DOT name) with
  | ext :: _ :: _ => if is_empty (take (length name - S (length ext)) name) then None else Some ext
  | _ => None
  end.

(** [collect_rs_files], in the order of the directory. *)
Fixpoint collect_rs_files (dir : path) (n : node) : list (path * option bytes) :=
  match n with
  | File _ => []
  | Dir entries =>
      mjoin ((λ '(name, entry),
        match entry with
        | Dir _ => if decide (name = str "target") then [] else collect_rs_files (dir ++ [name]) entry
        | File content =>
            if decide (extension name = Some (str "rs")) then [(dir ++ [name], content)] else []
        end) <$> entries)
  end.

(** The order of paths: component by component. *)
Fixpoint path_leb (p q : path) : bool :=
  match p, q with
  | [], _ => true
  | _ :: _, [] => false
  | a :: p, b :: q => if decide (a = b) then path_leb p q else bytes_leb a b
  end.

(** ** The tool *)

Record Violation := mk_Violation { v_path : path; v_line : option Z; v_enum_name : bytes }.

Definition violation_le (v w : Violation) : Prop :=
  if decide (v_path v = v_path w) then bytes_leb (v_enum_name v) (v_enum_name w) = true
  else path_leb (v_path v) (v_path w) = true.
#[global] Instance violation_le_dec v w : Decision (violation_le v w).
Proof. unfold violation_le. case_decide; apply _. Defined.
Definition file_le (f g : path * option bytes) : Prop := path_leb f.1 g.1 = true.
#[global] Instance file_le_dec f g : Decision (file_le f g).
Proof. unfold file_le. apply _. Defined.

Definition DEFAULT_CRATE_DIRS : list path :=
  [[str "crates"; str "pardosa"; str "src"]; [str "crates"; str "pardosa-derive"; str "src"];
   [str "crates"; str "pardosa-nats"; str "src"]].

Section main.
Context `{SynParse}.

(** One file: the number of its enums, and its violations. *)
Definition scan_file (file : path * option bytes) : tool (nat * list Violation) :=
  match file.2 ≫= parse_file with
  | Some items =>
      let enums := collect_enums items in
      Ok (length enums,
          (λ e, mk_Violation file.1 (enum_span_line e) (ie_ident e)) <$> filter is_violation enums)
  | None => Panic
  end.

Fixpoint scan_files (files : list (path * option bytes)) : tool (nat * list Violation) :=
  match files with
  | [] => Ok (0%nat, [])
  | file :: files =>
      '(n, vs) ← scan_file file;
      '(m, ws) ← scan_files files;
      Ok ((n + m)%nat, vs ++ ws)
  end.

(** One source directory. *)
Definition scan_dir (root : node) (src_dir : path) : tool (nat * list Violation) :=
  match lookup_path root src_dir with
  | Some (Dir entries as dir) =>
      let rs_files := merge_sort file_le (collect_rs_files src_dir dir) in
      if is_empty rs_files then Panic else scan_files rs_files
  | _ => Panic
  end.

Fixpoint scan_dirs (root : node) (dirs : list path) : tool (nat * list Violation) :=
  match dirs with
  | [] => Ok (0%nat, [])
  | dir :: dirs =>
      '(n, vs) ← scan_dir root dir;
      '(m, ws) ← scan_dirs root dirs;
      Ok ((n + m)%nat, vs ++ ws)
  end.

(** [default_root]: the first directory above one of the candidates whose
    manifest speaks of a workspace; [None] is a candidate the environment does
    not give. *)
Definition is_workspace (root : node) (p : path) : bool :=
  match lookup_path root (p ++ [str "Cargo.toml"]) with
  | Some (File content) =>
      match split_once (str "[workspace]") (default [] content) with Some _ => true | None => false end
  | _ => false
  end.
Fixpoint climb (root : node) (up : list bytes) : option path :=
  if is_workspace root (rev up) then Some (rev up)
  else match up with [] => None | _ :: up => climb root up end.
Definition default_root (root : node) (candidates : list (option path)) : tool path :=
  match omap (λ start, climb root (rev start)) (omap id candidates) with
  | p :: _ => Ok p
  | [] => Panic
  end.

(** An argument is a path from the root of [root], its components separated by
    slashes. *)
Definition source_dir (root : node) (arg : bytes) : path :=
  let p := split x2f arg in
  if is_dir (lookup_path root (p ++ [str "src"])) then p ++ [str "src"] else p.

Definition source_dirs (root : node) (candidates : list (option path)) (args : list bytes) :
    tool (list path) :=
  if is_empty args then (λ r, app r <$> DEFAULT_CRATE_DIRS) <$> default_root root candidates
  else Ok (source_dir root <$> args).

(** What [main] prints: the help, the number of crates and enums of a clean run
    (exit code 0), or the violations in order (exit code 1). *)
Inductive Report :=
  | Report_help
  | Report_ok (crates_scanned enums_scanned : nat)
  | Report_violations (crates_scanned enums_scanned : nat) (violations : list Violation).

Definition gate_main (root : node) (candidates : list (option path)) (args : list bytes) : tool Report :=
  if existsb (λ a, bool_decide (a = str "--help" ∨ a = str "-h")) args then Ok Report_help else
  dirs ← source_dirs root candidates args;
  '(enums_scanned, violations) ← scan_dirs root dirs;
  if is_empty violations then Ok (Report_ok (length dirs) enums_scanned)
  else Ok (Report_violations (length dirs) enums_scanned (merge_sort violation_le violations)).
End main.

(** ** What a predicate means

    The conditional compilation of the language: a build sets names and pairs of
    a name and a value. *)

Inductive pred :=
  | Pred_bool (b : bool)
  | Pred_option (name : bytes)
  | Pred_key_value (name value : bytes)
  | Pred_all (ps : list pred)
  | Pred_any (ps : list pred)
  | Pred_not (p : pred).

Record build := mk_build { option_set : bytes → bool; value_set : bytes → bytes → bool }.

Fixpoint holds (env : build) (p : pred) : bool :=
  match p with
  | Pred_bool b => b
  | Pred_option name => option_set env name
  | Pred_key_value name value => value_set env name value
  | Pred_all ps => forallb (holds env) ps
  | Pred_any ps => existsb (holds env) ps
  | Pred_not p => negb (holds env p)
  end.

(** The tokens that spell a predicate: [true] and [false] are literals unless
    they are raw identifiers, and a list may end in a comma. *)
Definition plain_name (raw : bool) (name : bytes) : Prop :=
  raw = true ∨ (name ≠ str "true" ∧ name ≠ str "false").

Inductive spells : pred → list tree → Prop :=
  | spells_true : spells (Pred_bool true) [Ident false (str "true")]
  | spells_false : spells (Pred_bool false) [Ident false (str "false")]
  | spells_option raw name : plain_name raw name → spells (Pred_option name) [Ident raw name]
  | spells_key_value raw name value : plain_name raw name →
      spells (Pred_key_value name value) [Ident raw name; Punct EQUALS; LitStr value]
  | spells_all raw ps content : spells_list ps content →
      spells (Pred_all ps) [Ident raw (str "all"); Group true content]
  | spells_any raw ps content : spells_list ps content →
      spells (Pred_any ps) [Ident raw (str "any"); Group true content]
  | spells_not raw p content : spells_list [p] content →
      spells (Pred_not p) [Ident raw (str "not"); Group true content]
with spells_list : list pred → list tree → Prop :=
  | spells_nil : spells_list [] []
  | spells_one p ts : spells p ts → spells_list [p] ts
  | spells_cons p ps ts ts' : spells p ts → spells_list ps ts' →
      spells_list (p :: ps) (ts ++ Punct COMMA :: ts').

Scheme spells_mut := Induction for spells Sort Prop
  with spells_list_mut := Induction for spells_list Sort Prop.

(** The three-valued reading of a predicate where only [test] is known. *)
Definition truth_of (b : bool) : CfgTruth := if b then CfgTruth_True else CfgTruth_False.
Fixpoint kleene (p : pred) : CfgTruth :=
  match p with
  | Pred_bool b => truth_of b
  | Pred_option name => if decide (name = str "test") then CfgTruth_False else CfgTruth_Unknown
  | Pred_key_value _ _ => CfgTruth_Unknown
  | Pred_all ps => default CfgTruth_Unknown (combine (str "all") (kleene <$> ps))
  | Pred_any ps => default CfgTruth_Unknown (combine (str "any") (kleene <$> ps))
  | Pred_not p => default CfgTruth_Unknown (combine (str "not") [kleene p])
  end.

Definition without_test (env : build) : Prop := option_set env (str "test") = false.

(** A truth value known without the other options is that of every build. *)
Definition agrees (t : CfgTruth) (b : bool) : Prop :=
  match t with CfgTruth_True => b = true | CfgTruth_False => b = false | CfgTruth_Unknown => True end.

Lemma pred_ind' (P : pred → Prop) :
  (∀ b, P (Pred_bool b)) → (∀ n, P (Pred_option n)) → (∀ n v, P (Pred_key_value n v)) →
  (∀ ps, Forall P ps → P (Pred_all ps)) → (∀ ps, Forall P ps → P (Pred_any ps)) →
  (∀ p, P p → P (Pred_not p)) → ∀ p, P p.
Proof.
  intros Hb Ho Hk Hall Hany Hnot. fix IH 1. intros [b|n|n v|ps|ps|p];
    [apply Hb|apply Ho|apply Hk| | |apply Hnot, IH].
  - apply Hall. induction ps; constructor; auto.
  - apply Hany. induction ps; constructor; auto.
Qed.

Definition combine_by (decisive other : CfgTruth) (ts : list CfgTruth) : CfgTruth :=
  if decide (decisive ∈ ts) then decisive
  else if decide (CfgTruth_Unknown ∈ ts) then CfgTruth_Unknown else other.

Lemma combine_all_eq ts :
  combine (str "all") ts = Some (combine_by CfgTruth_False CfgTruth_True ts).
Proof. reflexivity. Qed.

Lemma combine_any_eq ts :
  combine (str "any") ts = Some (combine_by CfgTruth_True CfgTruth_False ts).
Proof. reflexivity. Qed.

Lemma combine_by_all ts bs :
  Forall2 agrees ts bs → agrees (combine_by CfgTruth_False CfgTruth_True ts) (forallb id bs).
Proof.
  intros Hf. unfold combine_by. case_decide as Hd; [|case_decide as Hu; [done|]].
  - induction Hf as [|t b ts bs Ht _ IH]; [by apply not_elem_of_nil in Hd|].
    apply elem_of_cons in Hd as [<-|Hd]; cbn in *; [by rewrite Ht|].
    rewrite IH by done. by destruct b.
  - induction Hf as [|t b ts bs Ht _ IH]; [done|]. rewrite not_elem_of_cons in Hd, Hu.
    destruct t; [naive_solver| |naive_solver]. cbn in *. rewrite Ht. apply IH; tauto.
Qed.

Lemma combine_by_any ts bs :
  Forall2 agrees ts bs → agrees (combine_by CfgTruth_True CfgTruth_False ts) (existsb id bs).
Proof.
  intros Hf. unfold combine_by. case_decide as Hd; [|case_decide as Hu; [done|]].
  - induction Hf as [|t b ts bs Ht _ IH]; [by apply not_elem_of_nil in Hd|].
    apply elem_of_cons in Hd as [<-|Hd]; cbn in *; [by rewrite Ht|].
    rewrite IH by done. by destruct b.
  - induction Hf as [|t b ts bs Ht _ IH]; [done|]. rewrite not_elem_of_cons in Hd, Hu.
    destruct t; [|naive_solver|naive_solver]. cbn in *. rewrite Ht. apply IH; tauto.
Qed.

Lemma combine_not t b :
  agrees t b → agrees (default CfgTruth_Unknown (combine (str "not") [t])) (negb b).
Proof. by destruct t; cbn; intros; subst. Qed.

Lemma kleene_sound env p : without_test env → agrees (kleene p) (holds env p).
Proof.
  intros He. induction p as [b|n|n v|ps IH|ps IH|p IH] using pred_ind'; cbn [kleene holds].
  - by destruct b.
  - case_decide as Hn; [subst; done|done].
  - done.
  - replace (forallb (holds env) ps) with (forallb id (holds env <$> ps))
      by (clear IH; induction ps; cbn; congruence).
    rewrite combine_all_eq. apply combine_by_all. by induction IH; constructor.
  - replace (existsb (holds env) ps) with (existsb id (holds env <$> ps))
      by (clear IH; induction ps; cbn; congruence).
    rewrite combine_any_eq. apply combine_by_any. by induction IH; constructor.
  - by apply combine_not.
Qed.

(** ** Parsing evaluates what the tokens spell *)

Lemma depth_app ts ts' : depth (ts ++ ts') = (depth ts `max` depth ts')%nat.
Proof. unfold depth. induction ts as [|t ts IH]; cbn; lia. Qed.

Lemma group_depth raw name content fuel :
  (depth [Ident raw name; Group true content] < S fuel)%nat → (depth content < fuel)%nat.
Proof. unfold depth. cbn. lia. Qed.

Definition ends (rest : list tree) : Prop := rest = [] ∨ ∃ rest', rest = Punct COMMA :: rest'.

Section parsing.
Context `{SP : SynParse} {SL : SynParseLaws}.

Lemma no_literal raw name rest :
  plain_name raw name → peek_lit_bool (Ident raw name :: rest) = None.
Proof.
  rewrite peek_lit_bool_spec. destruct raw; [done|]. intros [|[Ht Hf]]; [done|].
  by rewrite !decide_False.
Qed.

Lemma plain_all raw : plain_name raw (str "all"). Proof. by right. Qed.
Lemma plain_any raw : plain_name raw (str "any"). Proof. by right. Qed.
Lemma plain_not raw : plain_name raw (str "not"). Proof. by right. Qed.
Hint Resolve plain_all plain_any plain_not : core.

(** The step for a name followed by parentheses. *)
Lemma parse_cfg_group fuel raw name content rest values truth :
  plain_name raw name →
  terminated (parse_cfg fuel) (length content) content = Some values →
  combine name values = Some truth →
  parse_cfg (S fuel) (Ident raw name :: Group true content :: rest) = Some (truth, rest).
Proof.
  intros Hn Hv Ht. cbn [parse_cfg]. rewrite no_literal by done.
  rewrite parse_any_ident_spec. cbn [mbind option_bind].
  rewrite parse_token_spec, parse_parens_spec, parse_terminated_spec, Hv. cbn. by rewrite Ht.
Qed.

Lemma parse_spells p ts : spells p ts → ∀ rest fuel,
  (depth ts < fuel)%nat → ends rest → parse_cfg fuel (ts ++ rest) = Some (kleene p, rest).
Proof.
  apply (spells_mut
    (λ p ts _, ∀ rest fuel, (depth ts < fuel)%nat → ends rest →
       parse_cfg fuel (ts ++ rest) = Some (kleene p, rest))
    (λ ps ts _, ∀ fuel n, (depth ts < fuel)%nat → (length ts <= n)%nat →
       terminated (parse_cfg fuel) n ts = Some (kleene <$> ps))); clear p ts.
  - intros rest [|fuel] Hd He; [lia|]. cbn [app parse_cfg]. by rewrite peek_lit_bool_spec.
  - intros rest [|fuel] Hd He; [lia|]. cbn [app parse_cfg]. by rewrite peek_lit_bool_spec.
  - intros raw name Hn rest [|fuel] Hd He; [lia|]. cbn [app parse_cfg kleene].
    rewrite no_literal, parse_any_ident_spec by done. cbn [mbind option_bind].
    rewrite parse_token_spec, parse_parens_spec.
    destruct He as [->|[rest' ->]]; [done|]. by rewrite decide_False.
  - intros raw name value Hn rest [|fuel] Hd He; [lia|]. cbn [app parse_cfg kleene].
    rewrite no_literal, parse_any_ident_spec by done. cbn [mbind option_bind].
    rewrite parse_token_spec, decide_True, parse_lit_str_spec by done. done.
  - intros raw ps content _ IH rest [|fuel] Hd He; [lia|]. apply group_depth in Hd.
    eapply parse_cfg_group; [auto|apply IH; [done|done]|by rewrite combine_all_eq].
  - intros raw ps content _ IH rest [|fuel] Hd He; [lia|]. apply group_depth in Hd.
    eapply parse_cfg_group; [auto|apply IH; [done|done]|by rewrite combine_any_eq].
  - intros raw p content _ IH rest [|fuel] Hd He; [lia|]. apply group_depth in Hd.
    eapply parse_cfg_group; [auto|apply IH; [done|done]|]. by destruct (kleene p) eqn:Hk; cbn; rewrite Hk.
  - by intros fuel [|n].
  - intros p ts Hs IH fuel n Hd Hl. specialize (IH [] fuel Hd (or_introl eq_refl)).
    rewrite app_nil_r in IH. destruct ts as [|t ts]; [by inversion Hs|].
    destruct n; [cbn in Hl; lia|]. cbn [terminated]. by rewrite IH.
  - intros p ps ts ts' Hs IH _ IHs fuel n Hd Hl. rewrite depth_app in Hd. cbn in Hd.
    rewrite length_app in Hl. cbn in Hl.
    specialize (IH (Punct COMMA :: ts') fuel ltac:(lia) (or_intror (ex_intro _ ts' eq_refl))).
    destruct ts as [|t ts]; [by inversion Hs|]. destruct n; [lia|]. cbn [app terminated] in *.
    rewrite IH. cbn [mbind option_bind]. rewrite decide_True by done.
    rewrite IHs by (unfold depth; lia). done.
Qed.

(** What [cfg(...)] holds: a predicate, possibly followed by a comma. *)
Definition cfg_pred (attr : Attribute) (p : pred) : Prop :=
  attr_path attr = Some (str "cfg") ∧
  ∃ ts, spells p ts ∧ (attr_args attr = Some ts ∨ attr_args attr = Some (ts ++ [Punct COMMA])).

Lemma cfg_disabled_exact attr p :
  cfg_pred attr p →
  is_cfg_disabled_without_test attr = bool_decide (kleene p = CfgTruth_False).
Proof.
  intros (Hp&ts&Hs&Ha). unfold is_cfg_disabled_without_test, attr_path_is.
  rewrite bool_decide_eq_true_2 by done. cbn [andb].
  destruct Ha as [-> | ->].
  - pose proof (parse_spells p ts Hs [] (S (depth ts)) ltac:(lia) (or_introl eq_refl)) as Hr.
    rewrite app_nil_r in Hr. rewrite Hr, parse_token_spec. by destruct (kleene p).
  - rewrite depth_app, (parse_spells p ts Hs [Punct COMMA]), parse_token_spec;
      [by destruct (kleene p)|cbn; lia|right; by exists []].
Qed.
End parsing.

(** ** Where enums are declared, and in which builds *)

(** [declared items outer e]: the enum is declared among the items, in modules
    that carry the attributes [outer]. *)
Inductive declared : list Item → list Attribute → ItemEnum → Prop :=
  | declared_here items e : Item_Enum e ∈ items → declared items [] e
  | declared_in items attrs inner outer e :
      Item_Mod attrs (Some inner) ∈ items → declared inner outer e → declared items (attrs ++ outer) e.

(** A file below a directory, outside of build directories. *)
Inductive file_in : node → path → option bytes → Prop :=
  | file_here entries name content :
      (name, File content) ∈ entries → file_in (Dir entries) [name] content
  | file_below entries name inner p content :
      (name, Dir inner) ∈ entries → name ≠ str "target" → file_in (Dir inner) p content →
      file_in (Dir entries) (name :: p) content.

Definition rust_file (p : path) : Prop := last p ≫= extension = Some (str "rs").

(** [dirs] is where the source files of a run are. *)
Definition source_file (root : node) (dirs : list path) (file : path) (content : option bytes) : Prop :=
  ∃ dir q entries, dir ∈ dirs ∧ lookup_path root dir = Some (Dir entries) ∧ file = dir ++ q
    ∧ file_in (Dir entries) q content ∧ rust_file q.

Section spec.
Context `{SP : SynParse}.

Definition marked_non_exhaustive (e : ItemEnum) : Prop :=
  ∃ attr, attr ∈ ie_attrs e ∧ attr_path attr = Some (str "non_exhaustive").
Definition derives_error (e : ItemEnum) : Prop :=
  ∃ attr args paths segments, attr ∈ ie_attrs e ∧ attr_path attr = Some (str "derive")
    ∧ attr_args attr = Some args ∧ parse_paths args = Some paths
    ∧ segments ∈ paths ∧ last segments = Some (str "Error").

(** An item is compiled in a build where all its predicates hold. *)
Definition compiled (env : build) (attrs : list Attribute) : Prop :=
  ∀ attr, attr ∈ attrs → attr_path attr = Some (str "cfg") →
    ∃ p, cfg_pred attr p ∧ holds env p = true.

Lemma elem_of_mjoin_fmap {A B} (f : A → list B) l y : y ∈ mjoin (f <$> l) ↔ ∃ x, x ∈ l ∧ y ∈ f x.
Proof. rewrite list_elem_of_join. setoid_rewrite list_elem_of_fmap. naive_solver. Qed.

Lemma existsb_elem {A} (f : A → bool) l : existsb f l = true ↔ ∃ x, x ∈ l ∧ f x = true.
Proof. rewrite existsb_exists. by setoid_rewrite list_elem_of_In. Qed.

Lemma existsb_none {A} (f : A → bool) l : (∀ x, x ∈ l → f x = false) → existsb f l = false.
Proof.
  intros Hf. apply not_true_iff_false. intros (x&Hx&Ht)%existsb_elem. rewrite Hf in Ht; done.
Qed.

Lemma collect_enums_complete items outer e :
  declared items outer e → existsb is_cfg_disabled_without_test outer = false → e ∈ collect_enums items.
Proof.
  induction 1 as [items e He|items attrs inner outer e Hm _ IH]; intros Ho; apply elem_of_mjoin_fmap.
  - exists (Item_Enum e). split; [done|]. cbn. set_solver.
  - rewrite existsb_app in Ho. apply orb_false_iff in Ho as [Ha Ho].
    exists (Item_Mod attrs (Some inner)). split; [done|]. cbn [collect_enums_of]. rewrite Ha. auto.
Qed.

Lemma item_ind' (P : Item → Prop) :
  (∀ e, P (Item_Enum e)) →
  (∀ attrs inner, Forall P inner → P (Item_Mod attrs (Some inner))) →
  (∀ attrs, P (Item_Mod attrs None)) → P Item_other → ∀ item, P item.
Proof.
  intros He Hm Hn Ho. fix IH 1. intros [e|attrs [inner|]|]; [apply He| |apply Hn|apply Ho].
  apply Hm. induction inner; constructor; auto.
Qed.

Lemma collect_enums_sound items e : e ∈ collect_enums items → ∃ outer, declared items outer e.
Proof.
  assert (∀ item items e, item ∈ items → e ∈ collect_enums_of item → ∃ outer, declared items outer e)
    as Hi; [|intros (item&Hin&He)%elem_of_mjoin_fmap; eauto].
  clear items e. intros item. induction item as [e'|attrs inner IH|attrs|] using item_ind';
    intros items e Hin; cbn [collect_enums_of].
  - intros ->%list_elem_of_singleton. exists []. by constructor.
  - case_match; [by intros ?%not_elem_of_nil|].
    intros (item&Hitem&He)%elem_of_mjoin_fmap. rewrite Forall_forall in IH.
    destruct (IH item Hitem inner e Hitem He) as [outer Ho]. exists (attrs ++ outer).
    by econstructor.
  - case_match; by intros ?%not_elem_of_nil.
  - by intros ?%not_elem_of_nil.
Qed.

Lemma is_violation_spec e :
  is_violation e = true ↔
    ie_public e = true ∧ existsb is_cfg_disabled_without_test (ie_attrs e) = false
    ∧ marked_non_exhaustive e ∧ derives_error e.
Proof.
  unfold is_violation. destruct (ie_public e); cbn [negb orb]; [|naive_solver].
  destruct (existsb is_cfg_disabled_without_test (ie_attrs e)); [naive_solver|].
  rewrite andb_true_iff, !existsb_elem. unfold marked_non_exhaustive, derives_error, attr_path_is.
  setoid_rewrite bool_decide_eq_true. setoid_rewrite list_elem_of_bind.
  unfold derive_idents, attr_path_is. split.
  - intros [(d&(attr&Hd&Ha)&->) Hn]. split_and!; [done..|].
    case_bool_decide as Hp; [|by apply not_elem_of_nil in Hd].
    destruct (attr_args attr) as [args|] eqn:Hargs; cbn in Hd; [|by apply not_elem_of_nil in Hd].
    destruct (parse_paths args) as [paths|] eqn:Hps; [|by apply not_elem_of_nil in Hd].
    apply list_elem_of_omap in Hd as (segments&Hs&Hl). by exists attr, args, paths, segments.
  - intros (_&_&Hn&(attr&args&paths&segments&Ha&Hp&Hargs&Hps&Hs&Hl)). split; [|done].
    exists (str "Error"). split; [|done]. exists attr. split; [|done].
    rewrite bool_decide_eq_true_2, Hargs by done. cbn. rewrite Hps.
    apply list_elem_of_omap. by exists segments.
Qed.
End spec.

(** ** The walk over the files *)

Lemma node_ind' (P : node → Prop) :
  (∀ content, P (File content)) →
  (∀ entries, Forall (λ e, P e.2) entries → P (Dir entries)) → ∀ n, P n.
Proof.
  intros Hf Hd. fix IH 1. intros [entries|content]; [|apply Hf]. apply Hd.
  induction entries as [|[k n] entries IHe]; constructor; [apply IH|exact IHe].
Qed.

Lemma collect_rs_files_complete n q content :
  file_in n q content → rust_file q → ∀ dir, (dir ++ q, content) ∈ collect_rs_files dir n.
Proof.
  induction 1 as [entries name content He|entries name inner p content He Hn Hin IH];
    intros Hr dir; apply elem_of_mjoin_fmap.
  - exists (name, File content). split; [done|]. unfold rust_file in Hr. cbn in Hr.
    rewrite decide_True by done. set_solver.
  - exists (name, Dir inner). split; [done|]. rewrite decide_False by done.
    replace (dir ++ name :: p) with ((dir ++ [name]) ++ p) by by rewrite <- app_assoc.
    apply IH. unfold rust_file in *. destruct p; [by inversion Hin|]. by rewrite last_cons_cons in Hr.
Qed.

Lemma collect_rs_files_sound n : ∀ dir file content,
  (file, content) ∈ collect_rs_files dir n →
  ∃ q, file = dir ++ q ∧ file_in n q content ∧ rust_file q.
Proof.
  induction n as [c|entries IH] using node_ind'; intros dir file content Hin; cbn in Hin.
  { by apply not_elem_of_nil in Hin. }
  apply elem_of_mjoin_fmap in Hin as ([name entry]&He&Hin). destruct entry as [inner|c].
  - case_decide as Hn; [by apply not_elem_of_nil in Hin|].
    rewrite Forall_forall in IH. destruct (IH _ He _ _ _ Hin) as (q&->&Hq&Hr). exists (name :: q). rewrite <- app_assoc.
    split_and!; [done|by econstructor|]. unfold rust_file in *.
    destruct q; [by inversion Hq|]. by rewrite last_cons_cons.
  - case_decide as Hn; [|by apply not_elem_of_nil in Hin].
    apply list_elem_of_singleton in Hin as [= -> ->]. exists [name].
    split_and!; [done|by constructor|done].
Qed.

Section scan.
Context `{SP : SynParse}.

(** The violation [v] is that of an enum of the file. *)
Definition reported (file : path) (content : option bytes) (v : Violation) : Prop :=
  ∃ text items e, content = Some text ∧ parse_file text = Some items ∧ e ∈ collect_enums items
    ∧ is_violation e = true ∧ v = mk_Violation file (enum_span_line e) (ie_ident e).

Definition readable (content : option bytes) : Prop :=
  ∃ text items, content = Some text ∧ parse_file text = Some items.

Lemma scan_files_spec files : ∀ n vs, scan_files files = Ok (n, vs) →
  (∀ file content, (file, content) ∈ files → readable content)
  ∧ ∀ v, v ∈ vs ↔ ∃ file content, (file, content) ∈ files ∧ reported file content v.
Proof.
  induction files as [|[file content] files IH]; intros n vs; cbn [scan_files].
  { intros [= <- <-]. split; [by intros ? ? ?%not_elem_of_nil|]. intros v. split.
    - by intros ?%not_elem_of_nil.
    - by intros (?&?&?%not_elem_of_nil&_). }
  unfold scan_file. cbn [fst snd].
  destruct (content ≫= parse_file) as [items|] eqn:Hc; cbn [mbind outcome_bind]; [|done].
  destruct (scan_files files) as [[m ws]| |]; cbn; [|done..]. intros [= <- <-].
  destruct (IH m ws eq_refl) as [Hr Hv]. clear IH.
  destruct content as [text|]; [|done]. cbn in Hc. split.
  - intros f c [[= -> ->]|Hf]%elem_of_cons; [by exists text, items|by eapply Hr].
  - intros v. rewrite elem_of_app, Hv, list_elem_of_fmap. setoid_rewrite list_elem_of_filter.
    setoid_rewrite elem_of_cons. unfold reported. split.
    + intros [(e&->&He&Hin)|(f&c&Hf&Hrep)]; [|naive_solver].
      exists file, (Some text). split; [by left|]. exists text, items, e.
      split_and!; [done..|by apply Is_true_true|done].
    + intros (f&c&[[= -> ->]|Hf]&Hrep); [left|right; eauto].
      destruct Hrep as (text'&items'&e&[= <-]&Hp&He&Hx&->). simplify_eq.
      exists e. by rewrite Is_true_true.
Qed.

Lemma scan_dir_spec root dir n vs : scan_dir root dir = Ok (n, vs) →
  (∃ entries, lookup_path root dir = Some (Dir entries))
  ∧ (∀ file content, source_file root [dir] file content → readable content)
  ∧ ∀ v, v ∈ vs ↔ ∃ file content, source_file root [dir] file content ∧ reported file content v.
Proof.
  unfold scan_dir. destruct (lookup_path root dir) as [[entries|]|] eqn:Hl; [|done..].
  case_match; [done|]. intros Hs. apply scan_files_spec in Hs as [Hr Hv].
  assert (∀ file content, source_file root [dir] file content
    ↔ (file, content) ∈ merge_sort file_le (collect_rs_files dir (Dir entries))) as Hf.
  { intros file content. rewrite merge_sort_Permutation. unfold source_file. split.
    - intros (d&q&entries'&->%list_elem_of_singleton&Hl'&->&Hq&Hrust). simplify_eq.
      by apply collect_rs_files_complete.
    - intros (q&->&Hq&Hrust)%collect_rs_files_sound. exists dir, q, entries.
      split_and!; [by apply list_elem_of_singleton|done..]. }
  setoid_rewrite Hf. split_and!; [by exists entries|exact Hr|exact Hv].
Qed.

Lemma source_file_cons root dir dirs file content :
  source_file root (dir :: dirs) file content
  ↔ source_file root [dir] file content ∨ source_file root dirs file content.
Proof. unfold source_file. setoid_rewrite elem_of_cons. setoid_rewrite elem_of_nil. naive_solver. Qed.

Lemma scan_dirs_spec root dirs : ∀ n vs, scan_dirs root dirs = Ok (n, vs) →
  (∀ dir, dir ∈ dirs → ∃ entries, lookup_path root dir = Some (Dir entries))
  ∧ (∀ file content, source_file root dirs file content → readable content)
  ∧ ∀ v, v ∈ vs ↔ ∃ file content, source_file root dirs file content ∧ reported file content v.
Proof.
  induction dirs as [|dir dirs IH]; intros n vs; cbn [scan_dirs].
  { intros [= <- <-].
    assert (∀ file content, ¬ source_file root [] file content) as Hno.
    { intros file content (d&?&?&Hd&_). by apply not_elem_of_nil in Hd. }
    split_and!; [by intros ? ?%not_elem_of_nil|by intros ? ? ?%Hno|].
    intros v. split; [by intros ?%not_elem_of_nil|by intros (?&?&?%Hno&_)]. }
  destruct (scan_dir root dir) as [[m us]| |] eqn:Hd; cbn; [|done..].
  destruct (scan_dirs root dirs) as [[k ws]| |]; cbn; [|done..]. intros [= <- <-].
  destruct (IH k ws eq_refl) as (Hdirs&Hr&Hv). apply scan_dir_spec in Hd as (He&Hr1&Hv1).
  setoid_rewrite source_file_cons. split_and!.
  - by intros d [->|Hin]%elem_of_cons; [|apply Hdirs].
  - intros file content [Hf|Hf]; eauto.
  - intros v. rewrite elem_of_app, Hv, Hv1. naive_solver.
Qed.
End scan.

(** ** The property *)

Section property.
Context `{SP : SynParse} {SL : SynParseLaws}.

(** What some build without tests compiles is not skipped. *)
Lemma compiled_not_disabled env attrs :
  without_test env → compiled env attrs → existsb is_cfg_disabled_without_test attrs = false.
Proof.
  intros He Hc. apply existsb_none. intros attr Ha.
  destruct (decide (attr_path attr = Some (str "cfg"))) as [Hp|Hp].
  - destruct (Hc attr Ha Hp) as (p&Hcp&Hh). rewrite (cfg_disabled_exact attr p Hcp).
    apply bool_decide_eq_false. intros Hk. pose proof (kleene_sound env p He) as Hs.
    rewrite Hk in Hs. cbn in Hs. congruence.
  - unfold is_cfg_disabled_without_test, attr_path_is. by rewrite bool_decide_eq_false_2.
Qed.

(** A violation [v] stands for the enum [e], a literal item of a source file,
    below inline modules with the attributes [outer]; it is public, one of its
    attributes is [derive] and names [Error], another is [non_exhaustive]. *)
Definition marked_enum root dirs (outer : list Attribute) (e : ItemEnum) (v : Violation) : Prop :=
  ∃ file text items, source_file root dirs file (Some text) ∧ parse_file text = Some items
  ∧ declared items outer e ∧ ie_public e = true ∧ derives_error e ∧ marked_non_exhaustive e
  ∧ v = mk_Violation file (enum_span_line e) (ie_ident e).

(** The violations are marked enums, and include all that a build without tests
    compiles. *)
Definition accounts_for root dirs (vs : list Violation) : Prop :=
  (∀ v, v ∈ vs → ∃ outer e, marked_enum root dirs outer e v)
  ∧ ∀ outer e v env, marked_enum root dirs outer e v → without_test env →
      compiled env (outer ++ ie_attrs e) → v ∈ vs.

Lemma scan_accounts root dirs n vs : scan_dirs root dirs = Ok (n, vs) → accounts_for root dirs vs.
Proof.
  intros (_&_&Hvs)%scan_dirs_spec. split.
  - intros v (file&content&Hf&text&items&e&->&Hp&Hin&Hviol&->)%Hvs.
    apply collect_enums_sound in Hin as [outer Hdecl].
    apply is_violation_spec in Hviol as (Hpub&_&Hne&Herr). by exists outer, e, file, text, items.
  - intros outer e v env (file&text&items&Hf&Hp&Hdecl&Hpub&Herr&Hne&->) Hwt Hc.
    pose proof (compiled_not_disabled env _ Hwt Hc) as Hx.
    rewrite existsb_app in Hx. apply orb_false_iff in Hx as [Ho Hx].
    apply Hvs. exists file, (Some text). split; [done|]. exists text, items, e.
    split_and!; [done..|by eapply collect_enums_complete|by apply is_violation_spec|done].
Qed.

(** C38: The verdict of the gate, on what it reads: enums that are literal items
    of the Rust files below its directories, outside of directories named
    target, with literal attributes. Unless it was asked for help, when the gate
    comes to a verdict, every directory exists, and every such file was read and
    parsed. If it passes, no public enum that derives [Error] and is marked
    [#[non_exhaustive]] has [cfg] predicates, on itself and the inline modules
    around it, that all hold in some build without tests. If not, it reports every
    such enum, and nothing but public enums that are marked and derive [Error]. An
    attribute within [cfg_attr] and an enum that a macro generates are not among
    what it reads. *)
Theorem gate_keeps_error_enums_closed root candidates args dirs report :
  source_dirs root candidates args = Ok dirs →
  gate_main root candidates args = Ok report →
  match report with
  | Report_help => str "--help" ∈ args ∨ str "-h" ∈ args
  | Report_ok crates _ | Report_violations crates _ _ =>
      crates = length dirs
      ∧ (∀ dir, dir ∈ dirs → ∃ entries, lookup_path root dir = Some (Dir entries))
      ∧ (∀ file content, source_file root dirs file content →
          ∃ text items, content = Some text ∧ parse_file text = Some items)
      ∧ match report with
        | Report_violations _ _ violations => violations ≠ [] ∧ accounts_for root dirs violations
        | _ => ∀ outer e v env, marked_enum root dirs outer e v → without_test env →
                 ¬ compiled env (outer ++ ie_attrs e)
        end
  end.
Proof.
  intros Hd. unfold gate_main. rewrite Hd.
  destruct (existsb _ args) eqn:Hh.
  { intros [= <-]. apply existsb_elem in Hh as (a&Ha&Hx%bool_decide_eq_true). naive_solver. }
  clear Hh. cbn [mbind outcome_bind].
  destruct (scan_dirs root dirs) as [[n vs]| |] eqn:Hs; cbn; [|done..].
  destruct (scan_dirs_spec root dirs n vs Hs) as (Hdirs&Hread&_).
  pose proof (scan_accounts root dirs n vs Hs) as [Hsound Hall].
  destruct (is_empty vs) eqn:He; intros [= <-]; (split; [done|]; split; [exact Hdirs|]; split; [exact Hread|]).
  - intros outer e v env Hm Hwt Hc. destruct vs; [|done].
    by apply (not_elem_of_nil v), (Hall outer e v env).
  - pose proof (merge_sort_Permutation violation_le vs) as Hperm. split; [|split].
    + intros Hnil. rewrite Hnil in Hperm. apply Permutation_nil in Hperm. by subst.
    + intros v. rewrite Hperm. apply Hsound.
    + intros outer e v env. rewrite Hperm. apply Hall.
Qed.
End property.

(** ** The property at a concrete input *)

(** A list of names separated by commas, as paths of one segment. *)
Fixpoint names_of (ts : list tree) : option (list (list bytes)) :=
  match ts with
  | [] => Some []
  | [Ident _ n] => Some [[n]]
  | Ident _ n :: Punct _ :: ts => cons [n] <$> names_of ts
  | _ => None
  end.

Definition name (s : string) : tree := Ident false (str s).
Definition attr (path : string) (args : list tree) : Attribute :=
  mk_Attribute (Some (str path)) (Some args).
Definition marked_error (attrs : list Attribute) : ItemEnum := {|
  ie_public := true;
  ie_attrs := attrs ++ [mk_Attribute (Some (str "non_exhaustive")) None;
                        attr "derive" [name "Debug"; Punct COMMA; name "Error"]];
  ie_ident := str "E";
  ie_line := 7;
|}.

(** [#[cfg(all(test, feature = "x"))]] and [#[cfg(any(test, unix))]]. *)
Definition only_tests : Attribute :=
  attr "cfg" [name "all"; Group true [name "test"; Punct COMMA; name "feature"; Punct EQUALS; LitStr (str "x")]].
Definition not_only_tests : Attribute :=
  attr "cfg" [name "any"; Group true [name "test"; Punct COMMA; name "unix"]].

(** A crate whose marked error is in a test module, and one that has another. *)
Definition clean_items : list Item :=
  [Item_Mod [only_tests] (Some [Item_Enum (marked_error [])]); Item_other].
Definition open_items : list Item := Item_Enum (marked_error [not_only_tests]) :: clean_items.

Definition toy_parse : SynParse := {|
  peek_lit_bool ts :=
    match ts with
    | Ident false n :: rest =>
        if decide (n = str "true") then Some (true, rest)
        else if decide (n = str "false") then Some (false, rest) else None
    | _ => None
    end;
  parse_any_ident ts := match ts with Ident _ n :: rest => Some (n, rest) | _ => None end;
  parse_token c ts :=
    match ts with Punct d :: rest => if decide (d = c) then Some rest else None | _ => None end;
  parse_lit_str ts := match ts with LitStr _ :: rest => Some rest | _ => None end;
  parse_parens ts := match ts with Group true content :: rest => Some (content, rest) | _ => None end;
  parse_terminated A parser ts := terminated parser (length ts) ts;
  parse_paths := names_of;
  parse_file text :=
    if decide (text = str "clean") then Some clean_items
    else if decide (text = str "open") then Some open_items else None;
|}.

Lemma toy_parse_laws : @SynParseLaws toy_parse.
Proof. by split. Qed.

Definition sample_tree : node :=
  Dir [(str "a", Dir [(str "src", Dir [(str "lib.rs", File (Some (str "clean")));
                                       (str "target", Dir [(str "x.rs", File None)])])]);
       (str "b", Dir [(str "lib.rs", File (Some (str "open"))); (str "notes.md", File None)])].

Lemma gate_keeps_error_enums_closed_witness :
  @gate_main toy_parse sample_tree [] [str "a"] = Ok (Report_ok 1 0)
  ∧ @gate_main toy_parse sample_tree [] [str "a"; str "b"]
    = Ok (Report_violations 2 1 [mk_Violation [str "b"; str "lib.rs"] (Some 7) (str "E")])
  ∧ (∀ dir, dir ∈ [[str "a"; str "src"]] → ∃ entries, lookup_path sample_tree dir = Some (Dir entries))
  ∧ @accounts_for toy_parse sample_tree [[str "a"; str "src"]; [str "b"]]
      [mk_Violation [str "b"; str "lib.rs"] (Some 7) (str "E")].
Proof.
  assert (@gate_main toy_parse sample_tree [] [str "a"] = Ok (Report_ok 1 0)) as Ha by by vm_compute.
  assert (@gate_main toy_parse sample_tree [] [str "a"; str "b"]
    = Ok (Report_violations 2 1 [mk_Violation [str "b"; str "lib.rs"] (Some 7) (str "E")])) as Hb
    by by vm_compute.
  split; [exact Ha|]. split; [exact Hb|]. split.
  - apply (@gate_keeps_error_enums_closed toy_parse toy_parse_laws sample_tree [] [str "a"]
             [[str "a"; str "src"]] (Report_ok 1 0)); [by vm_compute|exact Ha].
  - apply (@gate_keeps_error_enums_closed toy_parse toy_parse_laws sample_tree [] [str "a"; str "b"]
             [[str "a"; str "src"]; [str "b"]]
             (Report_violations 2 1 [mk_Violation [str "b"; str "lib.rs"] (Some 7) (str "E")]));
      [by vm_compute|exact Hb].
Defined.

(** The limit that the help of the tool states: [cfg_attr] is not read, so
    [#[cfg_attr(not(test), non_exhaustive)]] marks nothing. *)
Definition marked_by_cfg_attr : ItemEnum := {|
  ie_public := true;
  ie_attrs := [attr "cfg_attr" [name "not"; Group true [name "test"]; Punct COMMA; name "non_exhaustive"];
               attr "derive" [name "Debug"; Punct COMMA; name "Error"]];
  ie_ident := str "E";
  ie_line := 7;
|}.
Example cfg_attr_is_not_read : @is_violation toy_parse marked_by_cfg_attr = false.
Proof. by vm_compute. Qed.
