(* ===== verification/SpecCoverage.v ===== *)
(** * spec-coverage: the specification against its trace table

    The tool of src/scripts/src/bin/spec-coverage.rs: it reads the clauses of the
    specification, the table that traces rulings to clauses and the list of
    rulings, and runs nine checks. The regular expressions it compiles are the
    operations of the class [Regexes]; everything else, with the text of every
    report, is modelled. The theorem says which documents pass. *)

From S2P Require Import Prelude Text.
#[local] Open Scope Z_scope.

Definition LAYER_ORDER : list Z := [2; 3; 4; 5; 6; 8; 9; 10; 12].
Definition STATUS_OPEN : bytes := str "<!-- STATUS -->".
Definition STATUS_CLOSE : bytes := str "<!-- /STATUS -->".

Inductive Regime := Regime_Invariant | Regime_Surface.
#[global] Instance Regime_eq_dec : EqDecision Regime.
Proof. solve_decision. Defined.
Definition Regime_parse (s : bytes) : option Regime :=
  if decide (s = str "INVARIANT") then Some Regime_Invariant
  else if decide (s = str "SURFACE") then Some Regime_Surface else None.

Record Clause := mk_Clause {
  c_id : bytes;
  c_layer : Z;
  c_n : Z;
  c_regime : Regime;
  c_body : bytes;
}.

Inductive Disposition := Disposition_SpecBearing | Disposition_MapGovernance.
#[global] Instance Disposition_eq_dec : EqDecision Disposition.
Proof. solve_decision. Defined.
Definition Disposition_parse (s : bytes) : option Disposition :=
  if decide (s = str "SPEC-BEARING") then Some Disposition_SpecBearing
  else if decide (s = str "MAP-GOVERNANCE") then Some Disposition_MapGovernance else None.

Record TraceRow := mk_TraceRow {
  t_ruled_n : Z;
  t_disposition : Disposition;
  t_clause_ids : list bytes;
  t_note : bytes;
}.

Record CheckResult := mk_CheckResult { cr_name : string; cr_pass : bool; cr_detail : bytes }.
Abbreviation check := mk_CheckResult.

(** The regular expressions: the captures of a clause heading (layer, number,
    regime), whether a text holds a regime marker as a word, the clause
    identifiers in a text, and whether it cites a PGN token. *)
Class Regexes := {
  heading_captures : bytes → option (bytes * bytes * bytes);
  token_is_match : bytes → bool;
  ref_find_iter : bytes → list bytes;
  pgn_is_match : bytes → bool;
}.

(** The third group is an alternative of the two markers. *)
Class RegexLaws `{Regexes} : Prop := {
  heading_regime line l n r : heading_captures line = Some (l, n, r) → is_Some (Regime_parse r);
}.

(** ** Reading the three files *)

Definition clause_id (layer n : Z) : bytes := str "C" ++ decimal layer ++ str "." ++ decimal n.

Section reading.
Context `{Regexes}.

(** The lines up to the next heading of any level. *)
Fixpoint body_lines (lines : list bytes) : list bytes :=
  match lines with
  | line :: lines =>
      match strip_prefix (str "#") (trim_start line) with
      | Some _ => []
      | None => line :: body_lines lines
      end
  | [] => []
  end.

(** The loop of [parse_clauses]; [skip] lines belong to the clause before. *)
Fixpoint parse_clauses_from (skip : nat) (lines : list bytes) : tool (list Clause) :=
  match lines with
  | [] => Ok []
  | line :: rest =>
      match skip with
      | S skip => parse_clauses_from skip rest
      | O =>
          match heading_captures line with
          | Some (caps1, caps2, caps3) =>
              layer ← expect (parse_u32 caps1);
              n ← expect (parse_u32 caps2);
              regime ← expect (Regime_parse caps3);
              let body := body_lines rest in
              cons (mk_Clause (clause_id layer n) layer n regime (join_with [NL] body))
                <$> parse_clauses_from (length body) rest
          | None => parse_clauses_from 0 rest
          end
      end
  end.
Definition parse_clauses (doc : bytes) : tool (list Clause) := parse_clauses_from 0 (lines doc).

Definition find_status_block (doc : bytes) : option bytes :=
  '(_, after_open) ← split_once STATUS_OPEN doc;
  '(block, _) ← split_once STATUS_CLOSE after_open;
  Some block.

(** One row of the trace table; a malformed one leaves a message. *)
Definition line_message (lineno : Z) (text : bytes) : bytes :=
  str "line " ++ decimal lineno ++ str ": " ++ text.
Definition parse_trace_line (lineno : Z) (line : bytes) : TraceRow + bytes :=
  match split TAB line with
  | [f0; f1; f2; f3] =>
      match parse_u32 f0 with
      | None => inr (line_message lineno (str "ruled_n not a number: " ++ f0))
      | Some ruled_n =>
          match Disposition_parse f1 with
          | None => inr (line_message lineno (str "unknown disposition " ++ f1))
          | Some disposition =>
              inl (mk_TraceRow ruled_n disposition
                     (if decide (f2 = str "-") then [] else split x3b f2) f3)
          end
      end
  | fields =>
      inr (line_message lineno
             (str "expected 4 fields, found " ++ decimal (Z.of_nat (length fields))))
  end.

Fixpoint parse_trace_from (lineno : Z) (seen_header : bool) (lines : list bytes) :
    list TraceRow * list bytes :=
  match lines with
  | [] => ([], [])
  | line :: lines =>
      if blank line || comment line then parse_trace_from (lineno + 1) seen_header lines
      else if negb seen_header then parse_trace_from (lineno + 1) true lines
      else
        let '(rows, malformed) := parse_trace_from (lineno + 1) seen_header lines in
        match parse_trace_line lineno line with
        | inl row => (row :: rows, malformed)
        | inr message => (rows, message :: malformed)
        end
  end.
Definition parse_trace (text : bytes) : list TraceRow * list bytes :=
  parse_trace_from 1 false (lines text).

(** The number of a row of the meadows table. *)
Definition expected_n (line : bytes) : option Z :=
  if comment line || blank line then None else
  match split TAB line with
  | [f0; _; _; _; _] => parse_u32 f0
  | _ => None
  end.
Definition load_expected_ruled_ns (meadows_text : bytes) : gset Z :=
  list_to_set (omap expected_n (lines meadows_text)).

(** ** The checks *)

Definition within (range : Z * Z) (n : Z) : bool := (range.1 <=? n) && (n <=? range.2).

Definition listed (shown : list bytes) : bytes := join_with (str ",") shown.

Definition check_trace_complete (expected : gset Z) (trace : list TraceRow) (range : Z * Z) : CheckResult :=
  let expected_in_range := filter (λ n, within range n) expected in
  let counts :=
    foldl count_entry ∅ (t_ruled_n <$> filter (λ r, within range (t_ruled_n r)) trace) : gmap Z nat in
  let missing := btree_set_iter Z.le (expected_in_range ∖ dom counts) in
  let duplicates := filter (λ nc, (1 < nc.2)%nat) (btree_iter Z.le counts) in
  let pass := is_empty missing && is_empty duplicates in
  let missing_text :=
    if is_empty missing then [] else
    let shown := decimal <$> take 20 missing in
    str "missing " ++ decimal (Z.of_nat (length missing)) ++ str " (showing "
      ++ decimal (Z.of_nat (length shown)) ++ str "): " ++ listed shown ++ str "; " in
  let duplicate_text :=
    if is_empty duplicates then [] else
    let shown := (λ nc, decimal nc.1 ++ str "x" ++ decimal (Z.of_nat nc.2)) <$> take 20 duplicates in
    str "duplicate " ++ decimal (Z.of_nat (length duplicates)) ++ str " (showing "
      ++ decimal (Z.of_nat (length shown)) ++ str "): " ++ listed shown in
  check "trace_complete" pass
    (if pass then
       str "expected " ++ decimal (Z.of_nat (size expected_in_range))
         ++ str " rows in range, all present exactly once"
     else missing_text ++ duplicate_text).

Definition check_spec_bearing_has_clause (trace : list TraceRow) (range : Z * Z) : CheckResult :=
  let offenders :=
    t_ruled_n <$> filter (λ r, t_disposition r = Disposition_SpecBearing ∧ t_clause_ids r = [])
                    (filter (λ r, within range (t_ruled_n r)) trace) in
  let pass := is_empty offenders in
  check "spec_bearing_has_clause" pass
    (if pass then str "all SPEC-BEARING rows in range carry >=1 clause id"
     else str "SPEC-BEARING rows with no clause id: " ++ debug_numbers offenders).

Definition check_map_governance_shape (trace : list TraceRow) (range : Z * Z) : CheckResult :=
  let offenders :=
    t_ruled_n <$> filter (λ r, t_disposition r = Disposition_MapGovernance
                               ∧ (t_clause_ids r ≠ [] ∨ (chars_count (t_note r) < 20)%nat))
                    (filter (λ r, within range (t_ruled_n r)) trace) in
  let pass := is_empty offenders in
  check "map_governance_shape" pass
    (if pass then str "all MAP-GOVERNANCE rows in range have clause_ids=- and note>=20 chars"
     else str "MAP-GOVERNANCE rows violating shape: " ++ debug_numbers offenders).

Definition known_ids (clauses : list Clause) : gset bytes := list_to_set (c_id <$> clauses).

Definition check_clause_ids_resolve (trace : list TraceRow) (clauses : list Clause) : CheckResult :=
  let dangling :=
    trace ≫= λ row,
      (λ id, id ++ str " (ruled " ++ decimal (t_ruled_n row) ++ str ")")
        <$> filter (.∉ known_ids clauses) (t_clause_ids row) in
  let pass := is_empty dangling in
  check "clause_ids_resolve" pass
    (if pass then str "every cited clause id resolves to a spec clause heading"
     else str "dangling clause ids: " ++ join_with (str ", ") dangling).

Definition check_no_orphan_clause (trace : list TraceRow) (clauses : list Clause) : CheckResult :=
  let cited : gset bytes :=
    list_to_set (filter (λ r, t_disposition r = Disposition_SpecBearing) trace ≫= t_clause_ids) in
  let orphans := filter (.∉ cited) (c_id <$> clauses) in
  let pass := is_empty orphans in
  check "no_orphan_clause" pass
    (if pass then str "every clause heading is cited by >=1 SPEC-BEARING row"
     else str "orphan clauses: " ++ join_with (str ", ") orphans).

Definition check_regime_marker_unique (clauses : list Clause) (allow_regime_prose : list bytes) : CheckResult :=
  let offenders :=
    c_id <$> filter (λ c, c_id c ∉ allow_regime_prose ∧ token_is_match (c_body c)) clauses in
  let pass := is_empty offenders in
  check "regime_marker_unique" pass
    (if pass then str "no clause body restates a regime marker"
     else str "clause bodies with duplicate regime marker: " ++ join_with (str ", ") offenders).

Definition check_status_block (doc : bytes) (clauses : list Clause) : CheckResult :=
  match find_status_block doc with
  | None => check "status_block" false (str "STATUS block absent or malformed")
  | Some block =>
      let resolves := existsb (λ m, bool_decide (m ∈ known_ids clauses)) (ref_find_iter block) in
      let restates := token_is_match block in
      check "status_block" (resolves && negb restates)
        (match resolves, restates with
         | true, false => str "STATUS block present, references a real clause, no regime restatement"
         | false, _ => str "STATUS block has no reference resolving to a real clause"
         | true, true => str "STATUS block restates a regime marker token"
         end)
  end.

Definition check_no_pgn_normative (clauses : list Clause) : CheckResult :=
  let offenders := c_id <$> filter (λ c, pgn_is_match (c_body c)) clauses in
  let pass := is_empty offenders in
  check "no_pgn_normative" pass
    (if pass then str "no clause body cites a PGN-#### token"
     else str "clauses citing PGN normatively: " ++ join_with (str ", ") offenders).

(** ** The order of the clauses *)

(** [position]. *)
Fixpoint position (x : Z) (l : list Z) : option nat :=
  match l with
  | [] => None
  | y :: l => if x =? y then Some 0%nat else S <$> position x l
  end.
Definition layer_index (layer : Z) : option nat := position layer LAYER_ORDER.

(** The loop of [check_layer_sections_ordered]: the highest layer so far, the
    last number of each layer, and the offenders. *)
Fixpoint order_loop (last_layer_idx : option nat) (last_n_in_layer : gmap Z Z) (clauses : list Clause) :
    tool (list bytes) :=
  match clauses with
  | [] => Ok []
  | c :: clauses =>
      match layer_index (c_layer c) with
      | None =>
          app [c_id c ++ str " layer " ++ decimal (c_layer c) ++ str " not in allowed set"]
            <$> order_loop last_layer_idx last_n_in_layer clauses
      | Some idx =>
          let after :=
            match last_layer_idx with
            | Some last => if (idx <? last)%nat then [c_id c ++ str " appears after a higher layer section"] else []
            | None => []
            end in
          let last := default 0 (last_n_in_layer !! c_layer c) in
          if last =? u32_max then Panic else
          let expected_n := last + 1 in
          let gap :=
            if c_n c =? expected_n then [] else
            [c_id c ++ str " expected n=" ++ decimal expected_n ++ str " within layer "
               ++ decimal (c_layer c) ++ str " but found n=" ++ decimal (c_n c)] in
          app (after ++ gap)
            <$> order_loop (Some (idx `max` default idx last_layer_idx)%nat)
                  (<[c_layer c := c_n c `max` last]> last_n_in_layer) clauses
      end
  end.

Definition check_layer_sections_ordered (clauses : list Clause) : tool CheckResult :=
  offenders ← order_loop None ∅ clauses;
  let pass := is_empty offenders in
  Ok (check "layer_sections_ordered" pass
        (if pass then
           str "clause ids appear in non-decreasing layer order with dense per-layer numbering"
         else str "ordering defects: " ++ join_with (str "; ") offenders)).
(** ** The run *)

Record RunOutcome := mk_RunOutcome {
  ro_checks : list CheckResult;
  ro_ruled_total : nat;
  ro_spec_bearing : nat;
  ro_map_governance : nat;
  ro_clause_count : nat;
  ro_invariant_count : nat;
  ro_surface_count : nat;
}.

Definition run (doc trace_text meadows_text : bytes) (range : Z * Z) (allow_regime_prose : list bytes) :
    tool RunOutcome :=
  clauses ← parse_clauses doc;
  let '(trace_rows, _malformed) := parse_trace trace_text in
  let expected := load_expected_ruled_ns meadows_text in
  ordered ← check_layer_sections_ordered clauses;
  let checks :=
    [check_trace_complete expected trace_rows range;
     check_spec_bearing_has_clause trace_rows range;
     check_map_governance_shape trace_rows range;
     check_clause_ids_resolve trace_rows clauses;
     check_no_orphan_clause trace_rows clauses;
     check_regime_marker_unique clauses allow_regime_prose;
     check_status_block doc clauses;
     check_no_pgn_normative clauses;
     ordered] in
  Ok {| ro_checks := checks;
        ro_ruled_total := length trace_rows;
        ro_spec_bearing := length (filter (λ r, t_disposition r = Disposition_SpecBearing) trace_rows);
        ro_map_governance := length (filter (λ r, t_disposition r = Disposition_MapGovernance) trace_rows);
        ro_clause_count := length clauses;
        ro_invariant_count := length (filter (λ c, c_regime c = Regime_Invariant) clauses);
        ro_surface_count := length (filter (λ c, c_regime c = Regime_Surface) clauses) |}.

(** ** The command line *)

(** [arg_values]: what follows each occurrence. *)
Fixpoint arg_values (args : list bytes) (flag : bytes) : tool (list bytes) :=
  match args with
  | [] => Ok []
  | a :: rest =>
      if decide (a = flag) then
        match rest with v :: _ => cons v <$> arg_values rest flag | [] => Panic end
      else arg_values rest flag
  end.

Definition parse_range (s : bytes) : tool (Z * Z) :=
  '(lo, hi) ← expect (split_once (str "..") s);
  lo ← expect (parse_u32 lo);
  hi ← expect (parse_u32 hi);
  Ok (lo, hi).

Definition check_record (c : CheckResult) : bytes :=
  join_with [TAB] [str "CHECK"; str (cr_name c); str (if cr_pass c then "PASS" else "FAIL"); cr_detail c].
Definition summary_line (name : string) (value : bytes) : bytes :=
  join_with [TAB] [str "SUMMARY"; str name; value].

(** What the command line and the files make [main] check; a document or a
    trace table that cannot be read is empty. *)
Definition inputs (files : bytes → option bytes) (args : list bytes) :
    tool (bytes * bytes * bytes * (Z * Z) * list bytes) :=
  spec_path ← default (str "docs/spec/pardosa-1.0.md") <$> arg_value args (str "--spec");
  trace_path ← default (str "docs/spec/trace/ruled-trace.tsv") <$> arg_value args (str "--trace");
  meadows_path ← default (str "scripts/data/ruled-meadows.tsv") <$> arg_value args (str "--meadows");
  range_text ← arg_value args (str "--range");
  range ← match range_text with Some s => parse_range s | None => Ok (1, 244) end;
  allow_regime_prose ← arg_values args (str "--allow-regime-prose");
  meadows_text ← expect (files meadows_path);
  Ok (default [] (files spec_path), default [] (files trace_path), meadows_text, range,
      allow_regime_prose).

(** The printed lines and the exit code. *)
Definition coverage_main (files : bytes → option bytes) (args : list bytes) : tool (list bytes * Z) :=
  '(doc, trace_text, meadows_text, range, allow_regime_prose) ← inputs files args;
  outcome ← run doc trace_text meadows_text range allow_regime_prose;
  let any_fail := existsb (λ c, negb (cr_pass c)) (ro_checks outcome) in
  let count (n : nat) := decimal (Z.of_nat n) in
  Ok ((check_record <$> ro_checks outcome)
      ++ [summary_line "ruled_total" (count (ro_ruled_total outcome));
          summary_line "spec_bearing" (count (ro_spec_bearing outcome));
          summary_line "map_governance" (count (ro_map_governance outcome));
          summary_line "clauses" (count (ro_clause_count outcome));
          summary_line "invariant" (count (ro_invariant_count outcome));
          summary_line "surface" (count (ro_surface_count outcome));
          summary_line "verdict" (str (if any_fail then "FAIL" else "PASS"))],
      if any_fail then 1 else 0).
End reading.

(** ** What passes

    The declarative reading of the nine checks. *)
Section spec.
Context `{RX : Regexes}.

(** Every clause is in an allowed layer, no earlier one is in a later layer, and
    its number counts the clauses of its layer. *)
Definition well_ordered (clauses : list Clause) : Prop :=
  ∀ pre c post, clauses = pre ++ c :: post →
    (∃ idx, layer_index (c_layer c) = Some idx
      ∧ ∀ d, d ∈ pre → ∃ idx', layer_index (c_layer d) = Some idx' ∧ (idx' <= idx)%nat)
    ∧ c_n c = 1 + Z.of_nat (occurrences (c_layer c) (c_layer <$> pre)).

Definition cited_by (trace : list TraceRow) (id : bytes) : Prop :=
  ∃ row, row ∈ trace ∧ t_disposition row = Disposition_SpecBearing ∧ id ∈ t_clause_ids row.

Record covers (doc : bytes) (clauses : list Clause) (trace : list TraceRow) (expected : gset Z)
    (range : Z * Z) (allowed : list bytes) : Prop := {
  covers_expected n : n ∈ expected → range.1 ≤ n ≤ range.2 → n ∈ t_ruled_n <$> trace;
  covers_once n : range.1 ≤ n ≤ range.2 → (occurrences n (t_ruled_n <$> trace) <= 1)%nat;
  covers_spec_bearing row : row ∈ trace → range.1 ≤ t_ruled_n row ≤ range.2 →
    t_disposition row = Disposition_SpecBearing → t_clause_ids row ≠ [];
  covers_governance row : row ∈ trace → range.1 ≤ t_ruled_n row ≤ range.2 →
    t_disposition row = Disposition_MapGovernance →
    t_clause_ids row = [] ∧ (20 <= chars_count (t_note row))%nat;
  covers_resolves row id : row ∈ trace → id ∈ t_clause_ids row → id ∈ c_id <$> clauses;
  covers_cited c : c ∈ clauses → cited_by trace (c_id c);
  covers_markers c : c ∈ clauses → c_id c ∉ allowed → token_is_match (c_body c) = false;
  covers_status : ∃ before block after, doc = before ++ STATUS_OPEN ++ block ++ STATUS_CLOSE ++ after
    ∧ find_status_block doc = Some block
    ∧ (∃ m, m ∈ ref_find_iter block ∧ m ∈ c_id <$> clauses) ∧ token_is_match block = false;
  covers_pgn c : c ∈ clauses → pgn_is_match (c_body c) = false;
  covers_order : well_ordered clauses;
}.

Definition all_pass (outcome : RunOutcome) : bool := forallb cr_pass (ro_checks outcome).
End spec.

(** ** The checks one by one *)

Lemma within_spec range n : within range n = true ↔ range.1 ≤ n ≤ range.2.
Proof. unfold within. lia. Qed.

Section checks.
Context `{RX : Regexes}.

Lemma trace_complete_pass expected trace range :
  cr_pass (check_trace_complete expected trace range) = true ↔
    (∀ n, n ∈ expected → range.1 ≤ n ≤ range.2 → n ∈ t_ruled_n <$> trace)
    ∧ ∀ n, range.1 ≤ n ≤ range.2 → (occurrences n (t_ruled_n <$> trace) <= 1)%nat.
Proof.
  unfold check_trace_complete. cbn [cr_pass].
  assert (t_ruled_n <$> filter (λ r, within range (t_ruled_n r)) trace
          = filter (within range) (t_ruled_n <$> trace)) as ->.
  { apply fmap_filter_by. }
  generalize (t_ruled_n <$> trace). intros l.
  rewrite andb_true_iff, is_empty_btree_set_iter, is_empty_filter.
  set (counts := foldl count_entry ∅ (filter (within range) l)).
  assert (∀ k, counts !! k = if decide (k ∈ filter (within range) l)
                             then Some (occurrences k (filter (within range) l)) else None) as Hc.
  { intros k. unfold counts. by rewrite count_entries, lookup_empty. }
  assert (∀ n, n ∈ filter (within range) l ↔ range.1 ≤ n ≤ range.2 ∧ n ∈ l) as Hin.
  { intros n. by rewrite list_elem_of_filter, Is_true_true, within_spec. }
  split.
  - intros [Hm Hd]. split.
    + intros n Hn Hr. specialize (Hm n). destruct (decide (n ∈ l)) as [|Hno]; [done|].
      destruct Hm. apply elem_of_difference. split.
      * apply elem_of_filter. by rewrite Is_true_true, within_spec.
      * rewrite elem_of_dom, Hc, decide_False by (rewrite Hin; tauto). by intros [].
    + intros n Hr. destruct (decide (n ∈ l)) as [Hn|Hn].
      * specialize (Hd (n, occurrences n (filter (within range) l))). cbn in Hd.
        rewrite elem_of_btree_iter, Hc, decide_True in Hd by (by apply Hin).
        rewrite occurrences_filter in Hd by (by apply within_spec). specialize (Hd eq_refl). lia.
      * rewrite occurrences_pos in Hn. lia.
  - intros [Hm Hd]. split.
    + intros n [Hn Hno]%elem_of_difference. apply elem_of_filter in Hn as [Hr Hn].
      rewrite Is_true_true, within_spec in Hr. apply Hno, elem_of_dom. rewrite Hc, decide_True; [eauto|].
      apply Hin. split; [done|by apply Hm].
    + intros [n c] Hn. cbn. rewrite elem_of_btree_iter, Hc in Hn. case_decide as Hf; [|done].
      injection Hn as <-. apply Hin in Hf as [Hr _].
      rewrite occurrences_filter by (by apply within_spec). specialize (Hd n Hr). lia.
Qed.

Lemma spec_bearing_pass trace range :
  cr_pass (check_spec_bearing_has_clause trace range) = true ↔
    ∀ row, row ∈ trace → range.1 ≤ t_ruled_n row ≤ range.2 →
      t_disposition row = Disposition_SpecBearing → t_clause_ids row ≠ [].
Proof.
  unfold check_spec_bearing_has_clause. cbn [cr_pass]. rewrite is_empty_fmap, is_empty_filter.
  setoid_rewrite list_elem_of_filter. setoid_rewrite Is_true_true. setoid_rewrite within_spec.
  naive_solver.
Qed.

Lemma map_governance_pass trace range :
  cr_pass (check_map_governance_shape trace range) = true ↔
    ∀ row, row ∈ trace → range.1 ≤ t_ruled_n row ≤ range.2 →
      t_disposition row = Disposition_MapGovernance →
      t_clause_ids row = [] ∧ (20 <= chars_count (t_note row))%nat.
Proof.
  unfold check_map_governance_shape. cbn [cr_pass]. rewrite is_empty_fmap, is_empty_filter.
  setoid_rewrite list_elem_of_filter. setoid_rewrite Is_true_true. setoid_rewrite within_spec.
  split.
  - intros Hf row Hrow Hr Hd. specialize (Hf row (conj Hr Hrow)).
    destruct (decide (t_clause_ids row = [])); [|tauto].
    destruct (decide (chars_count (t_note row) < 20)%nat); [tauto|]. split; [done|lia].
  - intros Hf row [Hr Hrow] [Hd Hbad]. destruct (Hf row Hrow Hr Hd). destruct Hbad; [done|lia].
Qed.

Lemma known_ids_spec clauses id : id ∈ known_ids clauses ↔ id ∈ c_id <$> clauses.
Proof. apply elem_of_list_to_set. Qed.

Lemma clause_ids_resolve_pass trace clauses :
  cr_pass (check_clause_ids_resolve trace clauses) = true ↔
    ∀ row id, row ∈ trace → id ∈ t_clause_ids row → id ∈ c_id <$> clauses.
Proof.
  unfold check_clause_ids_resolve. cbn [cr_pass]. rewrite is_empty_bind.
  setoid_rewrite is_empty_fmap. setoid_rewrite is_empty_filter. setoid_rewrite known_ids_spec.
  split.
  - intros Hf row id Hrow Hid. specialize (Hf row Hrow id Hid). by apply dec_stable.
  - intros Hf row Hrow id Hid Hno. eauto.
Qed.

Lemma no_orphan_pass trace clauses :
  cr_pass (check_no_orphan_clause trace clauses) = true ↔
    ∀ c, c ∈ clauses → cited_by trace (c_id c).
Proof.
  unfold check_no_orphan_clause. cbn [cr_pass]. rewrite is_empty_filter.
  set (cited := list_to_set _ : gset bytes).
  assert (∀ id, id ∈ cited ↔ cited_by trace id) as Hcited.
  { intros id. unfold cited, cited_by. rewrite elem_of_list_to_set, list_elem_of_bind.
    setoid_rewrite list_elem_of_filter. naive_solver. }
  split.
  - intros Hf c Hc. apply Hcited, dec_stable, Hf, list_elem_of_fmap_2, Hc.
  - intros Hf id (c&->&Hc)%list_elem_of_fmap Hno. by apply Hno, Hcited, Hf.
Qed.

Lemma regime_marker_pass clauses allowed :
  cr_pass (check_regime_marker_unique clauses allowed) = true ↔
    ∀ c, c ∈ clauses → c_id c ∉ allowed → token_is_match (c_body c) = false.
Proof.
  unfold check_regime_marker_unique. cbn [cr_pass]. rewrite is_empty_fmap, is_empty_filter.
  split; intros Hf c Hc.
  - intros Ha. apply not_true_is_false. intros Ht. apply (Hf c Hc). by rewrite Ht.
  - intros [Ha Ht]. by rewrite (Hf c Hc Ha) in Ht.
Qed.

Lemma no_pgn_pass clauses :
  cr_pass (check_no_pgn_normative clauses) = true ↔
    ∀ c, c ∈ clauses → pgn_is_match (c_body c) = false.
Proof.
  unfold check_no_pgn_normative. cbn [cr_pass]. rewrite is_empty_fmap, is_empty_filter.
  split; intros Hf c Hc.
  - apply not_true_is_false. intros Ht. apply (Hf c Hc). by rewrite Ht.
  - rewrite (Hf c Hc). by intros [].
Qed.

Lemma find_status_block_Some doc block :
  find_status_block doc = Some block →
  ∃ before after, doc = before ++ STATUS_OPEN ++ block ++ STATUS_CLOSE ++ after.
Proof.
  unfold find_status_block. destruct (split_once STATUS_OPEN doc) as [[l r]|] eqn:Ho; cbn [mbind option_bind]; [|done].
  destruct (split_once STATUS_CLOSE r) as [[b a]|] eqn:Hc; cbn [mbind option_bind]; [|done]. intros [= <-].
  apply split_once_Some in Ho, Hc. exists l, a. by rewrite Ho, Hc.
Qed.

Lemma status_block_pass doc clauses :
  cr_pass (check_status_block doc clauses) = true ↔
    ∃ before block after, doc = before ++ STATUS_OPEN ++ block ++ STATUS_CLOSE ++ after
    ∧ find_status_block doc = Some block
    ∧ (∃ m, m ∈ ref_find_iter block ∧ m ∈ c_id <$> clauses) ∧ token_is_match block = false.
Proof.
  unfold check_status_block. destruct (find_status_block doc) as [block|] eqn:Hb; cbn [cr_pass].
  - rewrite andb_true_iff, negb_true_iff, existsb_exists.
    setoid_rewrite bool_decide_eq_true. setoid_rewrite known_ids_spec.
    setoid_rewrite <- list_elem_of_In. split.
    + intros [Hm Ht]. destruct (find_status_block_Some doc block Hb) as (before&after&Hd).
      by exists before, block, after.
    + intros (before&block'&after&Hd&[= <-]&Hm&Ht). done.
  - split; [done|]. by intros (?&?&?&_&?&_).
Qed.
End checks.

(** ** The order of the clauses *)

(** The clause [c] may follow the clauses [before]. *)
Definition in_order (before : list Clause) (c : Clause) : Prop :=
  (∃ idx, layer_index (c_layer c) = Some idx
    ∧ ∀ d, d ∈ before → ∃ idx', layer_index (c_layer d) = Some idx' ∧ (idx' <= idx)%nat)
  ∧ c_n c = 1 + Z.of_nat (occurrences (c_layer c) (c_layer <$> before)).

(** The state of the loop after clauses that are in order. *)
Definition summarises (before : list Clause) (last : option nat) (m : gmap Z Z) : Prop :=
  match last with
  | None => before = []
  | Some i =>
      (∃ d, d ∈ before ∧ layer_index (c_layer d) = Some i)
      ∧ ∀ d, d ∈ before → ∃ idx', layer_index (c_layer d) = Some idx' ∧ (idx' <= i)%nat
  end
  ∧ ∀ layer, default 0 (m !! layer) = Z.of_nat (occurrences layer (c_layer <$> before)).

Lemma summarises_snoc before last m c idx :
  summarises before last m → in_order before c → layer_index (c_layer c) = Some idx →
  summarises (before ++ [c]) (Some (idx `max` default idx last)%nat)
    (<[c_layer c := c_n c `max` default 0 (m !! c_layer c)]> m).
Proof.
  intros [Hl Hm] [(idx'&Hidx'&Hle) Hn] Hidx. assert (idx' = idx) as -> by congruence.
  assert (idx `max` default idx last = idx)%nat as ->.
  { destruct last as [i|]; cbn; [|lia]. destruct Hl as [(d&Hd&Hdi) _].
    destruct (Hle d Hd) as (i'&Hi'&Hle'). simplify_eq. lia. }
  split.
  - split; [exists c; set_solver|]. intros d [Hd|Hd%list_elem_of_singleton]%elem_of_app.
    + destruct (Hle d Hd) as (i'&Hi'&Hle'). eauto.
    + subst. eauto.
  - intros layer. rewrite fmap_app, occurrences_app. cbn [fmap list_fmap]. unfold occurrences at 2.
    rewrite filter_cons, filter_nil. destruct (decide (layer = c_layer c)) as [->|Hne].
    + rewrite lookup_insert_eq, Hm, Hn. cbn. lia.
    + rewrite lookup_insert_ne by done. rewrite Hm. cbn. lia.
Qed.

Lemma order_loop_spec clauses : ∀ before last m offenders,
  summarises before last m → order_loop last m clauses = Ok offenders →
  (offenders = [] ↔ ∀ pre c post, clauses = pre ++ c :: post → in_order (before ++ pre) c).
Proof.
  induction clauses as [|c clauses IH]; intros before last m offenders Hsum; cbn [order_loop].
  { intros [= <-]. split; [|done]. intros _ [|? ?] ? ? ?; discriminate. }
  destruct (layer_index (c_layer c)) as [idx|] eqn:Hidx.
  2:{ destruct (order_loop _ _ _) as [offs| |]; cbn; intros [= <-]. split; [done|]. intros Hall.
      destruct (Hall [] c clauses eq_refl) as [(idx&Hi&_) _]. congruence. }
  destruct Hsum as [Hl Hm]. rewrite Hm.
  destruct (Z.of_nat (occurrences (c_layer c) (c_layer <$> before)) =? u32_max); [done|].
  set (after := match last with None => [] | Some _ => _ end).
  set (gap := if c_n c =? _ then [] else _).
  assert (after ++ gap = [] ↔ in_order before c) as Hhead.
  { unfold in_order. rewrite Hidx. split.
    - intros [Ha Hg]%app_nil. split.
      + exists idx. split; [done|]. intros d Hd. unfold after in Ha.
        destruct last as [i|]; [|subst; by apply not_elem_of_nil in Hd].
        destruct (Nat.ltb_spec idx i); [done|]. destruct Hl as [_ Hl].
        destruct (Hl d Hd) as (i'&?&?). exists i'. split; [done|lia].
      + unfold gap in Hg. destruct (Z.eqb_spec (c_n c) (Z.of_nat (occurrences (c_layer c) (c_layer <$> before)) + 1)); [lia|done].
    - intros [(i0&[= <-]&Hle) Hn]. unfold after, gap.
      rewrite (proj2 (Z.eqb_eq _ _)) by lia. rewrite app_nil_r.
      destruct last as [i|]; [|done]. destruct Hl as [(d&Hd&Hdi) _].
      destruct (Hle d Hd) as (i'&Hi'&Hle'). simplify_eq.
      by rewrite (proj2 (Nat.ltb_ge _ _)). }
  destruct (order_loop (Some _) _ _) as [offs| |] eqn:Hloop; cbn [fmap outcome_fmap]; intros [= <-].
  split.
  - intros [Hag Hoffs]%app_nil. apply Hhead in Hag.
    assert (summarises (before ++ [c]) (Some (idx `max` default idx last)%nat)
      (<[c_layer c := c_n c `max` default 0 (m !! c_layer c)]> m)) as Hs
      by (by apply summarises_snoc).
    rewrite Hm in Hs. pose proof (proj1 (IH _ _ _ _ Hs Hloop) Hoffs) as Hrest.
    intros [|b pre] c' post [= <- ->]; [by rewrite app_nil_r|].
    specialize (Hrest pre c' post eq_refl). by rewrite <- app_assoc in Hrest.
  - intros Hall. assert (in_order before c) as Hc.
    { specialize (Hall [] c clauses eq_refl). by rewrite app_nil_r in Hall. }
    assert (summarises (before ++ [c]) (Some (idx `max` default idx last)%nat)
      (<[c_layer c := c_n c `max` default 0 (m !! c_layer c)]> m)) as Hs
      by (by apply summarises_snoc).
    rewrite Hm in Hs. apply Hhead in Hc as ->. cbn [app]. apply (IH _ _ _ _ Hs Hloop).
    intros pre c' post ->. specialize (Hall (c :: pre) c' post eq_refl). by rewrite <- app_assoc.
Qed.

(** The addition overflows only behind a clause numbered [u32::MAX]. *)
Lemma order_loop_total clauses : ∀ last m,
  (∀ layer, 0 ≤ default 0 (m !! layer) < u32_max) →
  Forall (λ c, c_n c < u32_max) clauses →
  ∃ offenders, order_loop last m clauses = Ok offenders.
Proof.
  induction clauses as [|c clauses IH]; intros last m Hm Hc; cbn [order_loop]; [by eexists|].
  inversion Hc as [|? ? Hcn Hcs].
  destruct (layer_index (c_layer c)) as [idx|].
  - pose proof (Hm (c_layer c)) as Hml.
    rewrite (proj2 (Z.eqb_neq _ _)) by lia.
    destruct (IH (Some (idx `max` default idx last)%nat)
      (<[c_layer c := c_n c `max` default 0 (m !! c_layer c)]> m)) as [offs ->]; [|done|by eexists].
    intros layer. destruct (decide (layer = c_layer c)) as [->|Hne].
    + rewrite lookup_insert_eq. cbn. lia.
    + by rewrite lookup_insert_ne.
  - destruct (IH last m Hm Hcs) as [offs ->]. by eexists.
Qed.

(** ** The property *)

Section property.
Context `{RX : Regexes}.

(** Reading the clauses panics only on numbers above 32 bits. *)
Lemma parse_clauses_total `{!RegexLaws} doc :
  (∀ line l n r, line ∈ lines doc → heading_captures line = Some (l, n, r) →
     is_Some (parse_u32 l) ∧ is_Some (parse_u32 n)) →
  ∃ clauses, parse_clauses doc = Ok clauses.
Proof.
  unfold parse_clauses. generalize 0%nat. generalize (lines doc). intros ls.
  induction ls as [|line ls IH]; intros skip Hp; cbn [parse_clauses_from]; [by eexists|].
  assert (∀ skip, ∃ clauses, parse_clauses_from skip ls = Ok clauses) as Hrest.
  { intros k. apply IH. intros line' l n r Hl. apply Hp. set_solver. }
  destruct skip; [|apply Hrest].
  destruct (heading_captures line) as [[[l n] r]|] eqn:Hh; [|apply Hrest].
  destruct (Hp line l n r) as [[lv ->] [nv ->]]; [set_solver|done|].
  destruct (heading_regime line l n r Hh) as [rv ->]. cbn.
  destruct (Hrest (length (body_lines ls))) as [cs ->]. by eexists.
Qed.

Lemma run_pass doc trace_text meadows_text range allowed clauses outcome :
  parse_clauses doc = Ok clauses →
  run doc trace_text meadows_text range allowed = Ok outcome →
  all_pass outcome = true ↔
    covers doc clauses (parse_trace trace_text).1 (load_expected_ruled_ns meadows_text) range allowed.
Proof.
  unfold run, all_pass. intros ->. cbn [mbind outcome_bind].
  destruct (parse_trace trace_text) as [trace malformed]. unfold check_layer_sections_ordered.
  destruct (order_loop None ∅ clauses) as [offs| |] eqn:Ho; cbn [mbind outcome_bind]; [|done..].
  intros [= <-]. cbn [ro_checks forallb fst].
  assert (offs = [] ↔ well_ordered clauses) as Hord.
  { apply (order_loop_spec clauses [] None ∅); [|done]. split; [done|].
    intros layer. by rewrite lookup_empty. }
  rewrite !andb_true_iff, trace_complete_pass, spec_bearing_pass, map_governance_pass,
    clause_ids_resolve_pass, no_orphan_pass, regime_marker_pass, status_block_pass, no_pgn_pass.
  cbn [cr_pass]. rewrite is_empty_spec. split.
  - intros ([He Hone]&Hsb&Hmg&Hres&Horph&Hreg&Hst&Hpgn&Hoff&_).
    split; try done. apply Hord. destruct offs as [|x offs]; [done|].
    destruct (Hoff x). set_solver.
  - intros []. split_and!; try done. by rewrite (proj2 Hord) by done; intros ? ?%not_elem_of_nil.
Qed.

(** C39: The exit code is 0 exactly when the rows of the table that parse cover the
    specification: every ruling that the list holds and the range admits has one
    row, and no ruling of the range has two; rows of the range that bear on the
    specification cite clauses, its other rows say at length why not; every cited
    clause exists and every clause is cited; no clause body restates a regime marker where that is
    not allowed or cites a PGN token; the status block is there, names a clause
    and restates no marker; and the clauses come in the order of the layers,
    numbered without gaps. An empty document never passes, nor a table without
    rows; an empty list of rulings asks for none, and may. A malformed line of the
    table has no part in any of this. No run panics once the numbers of the
    headings fit below [u32::MAX]. *)
Theorem coverage_verdict_exact files args doc trace_text meadows_text range allowed clauses :
  inputs files args = Ok (doc, trace_text, meadows_text, range, allowed) →
  parse_clauses doc = Ok clauses →
  (Forall (λ c, c_n c < u32_max) clauses → ∃ printed code, coverage_main files args = Ok (printed, code))
  ∧ ∀ printed code, coverage_main files args = Ok (printed, code) →
      (code = 0 ↔ covers doc clauses (parse_trace trace_text).1
                    (load_expected_ruled_ns meadows_text) range allowed)
      ∧ (doc = [] ∨ (parse_trace trace_text).1 = [] → code = 1).
Proof.
  intros Hin Hcl. unfold coverage_main. rewrite Hin. cbn [mbind outcome_bind]. split.
  - intros Hn. unfold run. rewrite Hcl. cbn [mbind outcome_bind].
    destruct (parse_trace trace_text) as [trace malformed]. unfold check_layer_sections_ordered.
    destruct (order_loop_total clauses None ∅) as [offs ->]; [|done|by do 2 eexists].
    intros layer. by rewrite lookup_empty.
  - intros printed code. destruct (run _ _ _ _ _) as [outcome| |] eqn:Hrun; cbn; [|done..].
    pose proof (run_pass _ _ _ _ _ _ _ Hcl Hrun) as Hpass. intros [= _ <-].
    assert (existsb (λ c, negb (cr_pass c)) (ro_checks outcome) = negb (all_pass outcome)) as ->.
    { unfold all_pass. induction (ro_checks outcome) as [|c cs IH]; [done|]. cbn. rewrite IH.
      by destruct (cr_pass c). }
    destruct (all_pass outcome); cbn [negb].
    + pose proof (proj1 Hpass eq_refl) as Hc. split; [done|]. intros Hempty. exfalso.
      destruct Hc as [_ _ _ _ _ Hcited _ (before&block&after&Hdoc&_&(m&_&Hm)&_) _ _].
      destruct Hempty as [Hd|Ht]; [rewrite Hd in Hdoc; by destruct before|].
      apply list_elem_of_fmap in Hm as (c&_&Hc). destruct (Hcited c Hc) as (row&Hrow&_).
      rewrite Ht in Hrow. by apply not_elem_of_nil in Hrow.
    + split; [|done]. split; [done|]. intros Hc. by apply Hpass in Hc.
Qed.
End property.

(** ** The property at a concrete input *)

(** The expressions, for single spaces and ASCII digits. *)
Definition toy_heading (line : bytes) : option (bytes * bytes * bytes) :=
  after ← strip_prefix (str "#### C") line;
  let l := digit_run after in
  after ← strip_prefix (l ++ str ".") after;
  let n := digit_run after in
  regime ← strip_prefix (n ++ str " — ") after;
  match Regime_parse regime with Some _ => Some (l, n, regime) | None => None end.

Fixpoint toy_refs (text : bytes) : list bytes :=
  match text with
  | [] => []
  | b :: rest =>
      let l := digit_run rest in
      match strip_prefix (l ++ str ".") rest with
      | Some after =>
          if bool_decide (b = x43) && negb (is_empty l) && negb (is_empty (digit_run after))
          then (str "C" ++ l ++ str "." ++ digit_run after) :: toy_refs rest
          else toy_refs rest
      | None => toy_refs rest
      end
  end.

Definition holds_text (pattern text : bytes) : bool :=
  match split_once pattern text with Some _ => true | None => false end.

Definition toy_regexes : Regexes := {|
  heading_captures := toy_heading;
  token_is_match text := holds_text (str "INVARIANT") text || holds_text (str "SURFACE") text;
  ref_find_iter := toy_refs;
  pgn_is_match := holds_text (str "PGN-");
|}.

Lemma toy_regex_laws : @RegexLaws toy_regexes.
Proof.
  split. intros line l n r. change (toy_heading line = Some (l, n, r) → is_Some (Regime_parse r)).
  unfold toy_heading.
  destruct (strip_prefix _ line) as [after|]; cbn [mbind option_bind]; [|done].
  destruct (strip_prefix _ after) as [after'|]; cbn [mbind option_bind]; [|done].
  destruct (strip_prefix _ after') as [regime|]; cbn [mbind option_bind]; [|done].
  destruct (Regime_parse regime) eqn:Hr; [|done]. intros [= <- <- <-]. by eexists.
Qed.

(** The valid document and table of the tests, the table with a line too long in
    it. *)
Definition sample_doc : bytes := join_with [NL]
  [STATUS_OPEN; str "See C2.1 for the current spine."; STATUS_CLOSE; [];
   str "#### C2.1 — INVARIANT"; str "Body text for clause one."; [];
   str "#### C3.1 — SURFACE"; str "Body text for clause two."].
Definition sample_rows (last : list bytes) : bytes := join_with [NL]
  ([str "ruled_n"] ++ (join_with [TAB] <$>
     [[str "1"; str "SPEC-BEARING"; str "C2.1"; str "-"]]) ++ last).
Definition second_row : bytes := join_with [TAB] [str "2"; str "SPEC-BEARING"; str "C3.1"; str "-"].
Definition malformed_row : bytes :=
  join_with [TAB] [str "2"; str "SPEC-BEARING"; str "C9.9"; str "-"; str "one field too many"].
Definition sample_meadows : bytes := join_with [NL]
  (join_with [TAB] <$> [[str "1"; str "2"; str "S"; str "x"; str "j"]; [str "2"; str "3"; str "S"; str "x"; str "j"]]).
Definition sample_files (trace : bytes) (p : bytes) : option bytes :=
  if decide (p = str "spec") then Some sample_doc
  else if decide (p = str "trace") then Some trace
  else if decide (p = str "meadows") then Some sample_meadows else None.
Definition sample_args : list bytes :=
  [str "--spec"; str "spec"; str "--trace"; str "trace"; str "--meadows"; str "meadows"].

Definition exit_code (t : tool (list bytes * Z)) : option Z :=
  match t with Ok (_, code) => Some code | _ => None end.

(** A table that misses a ruling fails; a malformed line does not. *)
Example missing_row_fails :
  exit_code (@coverage_main toy_regexes (sample_files (sample_rows [])) sample_args) = Some 1.
Proof. by vm_compute. Qed.

(** An empty list of rulings asks for no row. *)
Example empty_rulings_pass :
  load_expected_ruled_ns [] = ∅ ∧
  exit_code (@coverage_main toy_regexes
               (λ p, if decide (p = str "meadows") then Some [] else sample_files (sample_rows [second_row]) p)
               sample_args) = Some 0.
Proof. by vm_compute. Qed.

Lemma coverage_verdict_exact_witness :
  exit_code (@coverage_main toy_regexes (sample_files (sample_rows [second_row; malformed_row])) sample_args)
    = Some 0
  ∧ ∃ clauses, @covers toy_regexes sample_doc clauses
      (parse_trace (sample_rows [second_row; malformed_row])).1
      (load_expected_ruled_ns sample_meadows) (1, 244) [].
Proof.
  split; [by vm_compute|].
  destruct (@parse_clauses toy_regexes sample_doc) as [clauses| |] eqn:Hc;
    [|vm_compute in Hc; discriminate..].
  destruct (@coverage_main toy_regexes (sample_files (sample_rows [second_row; malformed_row])) sample_args)
    as [[printed code]| |] eqn:Hm; [|vm_compute in Hm; discriminate..].
  exists clauses.
  destruct (@coverage_verdict_exact toy_regexes (sample_files (sample_rows [second_row; malformed_row]))
              sample_args sample_doc (sample_rows [second_row; malformed_row]) sample_meadows (1, 244) []
              clauses ltac:(by vm_compute) Hc) as [_ Hx].
  apply (Hx printed code Hm). vm_compute in Hm. by injection Hm as _ <-.
Defined.
