(* ===== verification/Meadows.v ===== *)
(** * meadows-check: the table of rulings by layer

    The tool of src/scripts/src/bin/meadows-check.rs: every row of the table
    names a ruling, the layer and the tier it acts on, its owner and a reason;
    the layer determines the tier and a second table the owner; every ruling
    from 1 to 244 has one row, and no layer holds more than four fifths of them.
    Percentages are binary64 numbers, computed with the specification of floating
    point in the Standard Library. What the tool prints is given as data, its
    format strings are not modelled. *)

From S2P Require Import Prelude Text.
From Stdlib Require Import SpecFloat.
#[local] Open Scope Z_scope.

Definition EXPECTED_LO : Z := 1.
Definition EXPECTED_HI : Z := 244.
Definition FIELD_COUNT : nat := 5.

(** [usize as f64], and the percentage of a count in a total. *)
Definition f64_of (n : Z) : spec_float := binary_normalize 53 1024 n 0 false.
Definition DOMINANCE_THRESHOLD : spec_float := f64_of 80.
Definition percentage (count total : nat) : spec_float :=
  SFdiv 53 1024 (SFmul 53 1024 (f64_of 100) (f64_of (Z.of_nat count)))
    (f64_of (Z.of_nat (total `max` 1))).

Inductive Tier := Tier_S | Tier_A | Tier_B | Tier_C | Tier_D.
#[global] Instance Tier_eq_dec : EqDecision Tier.
Proof. solve_decision. Defined.

Definition Tier_parse (s : bytes) : option Tier :=
  if decide (s = str "S") then Some Tier_S
  else if decide (s = str "A") then Some Tier_A
  else if decide (s = str "B") then Some Tier_B
  else if decide (s = str "C") then Some Tier_C
  else if decide (s = str "D") then Some Tier_D else None.

(** A [Layer] is its number. *)
Definition Layer_parse (s : bytes) : option Z :=
  n ← parse_u8 s;
  if (1 <=? n) && (n <=? 12) then Some n else None.

Definition tier (layer : Z) : Tier :=
  if (1 <=? layer) && (layer <=? 3) then Tier_S
  else if layer =? 4 then Tier_A
  else if (layer =? 5) || (layer =? 6) then Tier_B
  else if (layer =? 7) || (layer =? 8) then Tier_C
  else Tier_D.

(** The order of [derive(Ord)]. *)
Definition Tier_rank (t : Tier) : Z :=
  match t with Tier_S => 0 | Tier_A => 1 | Tier_B => 2 | Tier_C => 3 | Tier_D => 4 end.

Record Row := mk_Row {
  r_ruled_n : Z;
  r_layer : Z;
  r_tier : Tier;
  r_owning_ticket : bytes;
  r_justification : bytes;
}.

Record OwnerRange := mk_OwnerRange { o_ticket : bytes; o_lo : Z; o_hi : Z }.

(** [arg_or]: the second of the first two neighbours that begin with the flag. *)
Fixpoint arg_or (args : list bytes) (flag default : bytes) : bytes :=
  match args with
  | a :: rest =>
      match rest with
      | v :: _ => if decide (a = flag) then v else arg_or rest flag default
      | [] => default
      end
  | [] => default
  end.

Definition load_owner (line : bytes) : tool OwnerRange :=
  match split TAB line with
  | [ticket; lo; hi] =>
      lo ← expect (parse_u32 lo);
      hi ← expect (parse_u32 hi);
      Ok (mk_OwnerRange ticket lo hi)
  | _ => Panic
  end.
Fixpoint load_owner_lines (lines : list bytes) : tool (list OwnerRange) :=
  match lines with
  | [] => Ok []
  | line :: lines => o ← load_owner line; cons o <$> load_owner_lines lines
  end.
Definition load_owners (text : bytes) : tool (list OwnerRange) :=
  load_owner_lines (filter (λ l, blank l = false ∧ comment l = false) (lines text)).

Definition owner_for (owners : list OwnerRange) (n : Z) : option bytes :=
  o_ticket <$> List.find (λ r, (o_lo r <=? n) && (n <=? o_hi r)) owners.

(** ** The rows *)

(** The FAIL records. *)
Inductive Failure :=
  | FAIL_FIELDCOUNT (lineno : Z) (found : nat)
  | FAIL_EMPTYFIELD (lineno : Z) (column : nat)
  | FAIL_RULEDN (lineno : Z) (text : bytes)
  | FAIL_LAYER (ruled_n : Z) (text : bytes)
  | FAIL_TIER (ruled_n : Z) (text : bytes)
  | FAIL_TIERMISMATCH (ruled_n layer : Z) (t : Tier)
  | FAIL_OWNER (ruled_n : Z) (expected found : bytes)
  | FAIL_OWNERMISSING (ruled_n : Z)
  | FAIL_JUSTIFICATION (ruled_n : Z)
  | FAIL_DUPLICATE (ruled_n : Z) (count : nat)
  | FAIL_GAP (ruled_n : Z)
  | FAIL_OUTOFRANGE (ruled_n : Z)
  | FAIL_DOMINANCE (layer : Z) (pct : spec_float).

Fixpoint first_empty (column : nat) (fields : list bytes) : option nat :=
  match fields with
  | [] => None
  | f :: fields => if blank f then Some column else first_empty (S column) fields
  end.

(** The body of the loop over the lines: the failures it reports and the row it
    keeps. *)
Definition check_line (owners : list OwnerRange) (lineno : Z) (line : bytes) : list Failure * option Row :=
  match split TAB line with
  | [f0; f1; f2; f3; f4] as fields =>
      match first_empty 1 fields with
      | Some column => ([FAIL_EMPTYFIELD lineno column], None)
      | None =>
          match parse_u32 f0 with
          | None => ([FAIL_RULEDN lineno f0], None)
          | Some ruled_n =>
              match Layer_parse f1 with
              | None => ([FAIL_LAYER ruled_n f1], None)
              | Some layer =>
                  match Tier_parse f2 with
                  | None => ([FAIL_TIER ruled_n f2], None)
                  | Some t =>
                      let mismatch := if decide (t = tier layer) then [] else [FAIL_TIERMISMATCH ruled_n layer t] in
                      let owner :=
                        match owner_for owners ruled_n with
                        | Some expected =>
                            if decide (expected = f3) then [] else [FAIL_OWNER ruled_n expected f3]
                        | None => [FAIL_OWNERMISSING ruled_n]
                        end in
                      let justification := if decide (TAB ∈ f4) then [FAIL_JUSTIFICATION ruled_n] else [] in
                      (mismatch ++ owner ++ justification, Some (mk_Row ruled_n layer t f3 f4))
                  end
              end
          end
      end
  | fields => ([FAIL_FIELDCOUNT lineno (length fields)], None)
  end.

Fixpoint check_lines (owners : list OwnerRange) (lineno : Z) (lines : list bytes) :
    list Failure * list Row :=
  match lines with
  | [] => ([], [])
  | line :: lines =>
      let '(failures, rows) := check_lines owners (lineno + 1) lines in
      if comment line || blank line then (failures, rows)
      else
        let '(fs, row) := check_line owners lineno line in
        (fs ++ failures, match row with Some row => row :: rows | None => rows end)
  end.

(** ** The table as a whole *)

Definition seen (rows : list Row) : gmap Z nat := foldl count_entry ∅ (r_ruled_n <$> rows).

Definition duplicates (rows : list Row) : list Failure :=
  (λ nc, FAIL_DUPLICATE nc.1 nc.2) <$> filter (λ nc, (1 < nc.2)%nat) (btree_iter Z.le (seen rows)).
Definition gaps (rows : list Row) : list Failure :=
  FAIL_GAP <$> filter (λ n, seen rows !! n = None) (seqZ EXPECTED_LO (EXPECTED_HI - EXPECTED_LO + 1)).
Definition outside (rows : list Row) : list Failure :=
  FAIL_OUTOFRANGE <$> filter (λ n, n < EXPECTED_LO ∨ EXPECTED_HI < n) (btree_keys Z.le (seen rows)).

Definition by_layer (rows : list Row) : gmap Z nat := foldl count_entry ∅ (r_layer <$> rows).
Definition by_tier (rows : list Row) : gmap Z nat :=
  foldl count_entry ∅ ((λ r, Tier_rank (r_tier r)) <$> rows).

(** [max_by_key]: of several largest counts, the last. *)
Definition larger (best : option (Z * nat)) (x : Z * nat) : option (Z * nat) :=
  match best with
  | Some b => if (x.2 <? b.2)%nat then Some b else Some x
  | None => Some x
  end.
Definition dominant_layer (rows : list Row) : option (Z * nat) :=
  foldl larger None (btree_iter Z.le (by_layer rows)).

Definition dominance (rows : list Row) : list Failure :=
  match dominant_layer rows with
  | Some (layer, count) =>
      let pct := percentage count (length rows) in
      if SFltb DOMINANCE_THRESHOLD pct then [FAIL_DOMINANCE layer pct] else []
  | None => []
  end.

(** The records [main] prints before the verdict. *)
Record MeadowsReport := mk_Report {
  rep_total : nat;
  rep_layers : list (Z * Tier * nat * spec_float);
  rep_tiers : list (Z * nat * spec_float);
  rep_owning_tickets : nat;
  rep_shortest : nat;
  rep_dominant : option (Z * nat * spec_float);
  rep_failures : list Failure;
}.

Fixpoint minimum (l : list nat) : option nat :=
  match l with
  | [] => None
  | n :: l => Some (match minimum l with Some m => n `min` m | None => n end)%nat
  end.

Definition report (rows : list Row) (failures : list Failure) : MeadowsReport :=
  let total := length rows in
  {| rep_total := total;
     rep_layers := (λ lc, (lc.1, tier lc.1, lc.2, percentage lc.2 total)) <$> btree_iter Z.le (by_layer rows);
     rep_tiers := (λ tc, (tc.1, tc.2, percentage tc.2 total)) <$> btree_iter Z.le (by_tier rows);
     rep_owning_tickets := size (list_to_set (r_owning_ticket <$> rows) : gset bytes);
     rep_shortest := default 0%nat (minimum ((λ r, chars_count (r_justification r)) <$> rows));
     rep_dominant := (λ lc, (lc.1, lc.2, percentage lc.2 total)) <$> dominant_layer rows;
     rep_failures := failures |}.

(** The report and the exit code. *)
Definition meadows_main (files : bytes → option bytes) (args : list bytes) : tool (MeadowsReport * Z) :=
  let meadows_path := arg_or args (str "--meadows") (str "scripts/data/ruled-meadows.tsv") in
  let owners_path := arg_or args (str "--owners") (str "scripts/data/ruled-owners.tsv") in
  owners_text ← expect (files owners_path);
  owners ← load_owners owners_text;
  text ← expect (files meadows_path);
  let '(line_failures, rows) := check_lines owners 1 (lines text) in
  let failures := line_failures ++ duplicates rows ++ gaps rows ++ outside rows ++ dominance rows in
  Ok (report rows failures, if is_empty failures then 0 else 1).

(** ** What passes *)

Definition content_line (line : bytes) : Prop := comment line = false ∧ blank line = false.
#[global] Instance content_line_dec line : Decision (content_line line).
Proof. unfold content_line. apply _. Defined.

(** A line holds five fields, none of them blank: a number, a layer, the tier of
    that layer, the owner of the number, and a reason. *)
Definition valid_row (owners : list OwnerRange) (line : bytes) (row : Row) : Prop :=
  ∃ f0 f1 f2, split TAB line = [f0; f1; f2; r_owning_ticket row; r_justification row]
  ∧ first_empty 1 [f0; f1; f2; r_owning_ticket row; r_justification row] = None
  ∧ parse_u32 f0 = Some (r_ruled_n row)
  ∧ Layer_parse f1 = Some (r_layer row)
  ∧ Tier_parse f2 = Some (r_tier row) ∧ r_tier row = tier (r_layer row)
  ∧ owner_for owners (r_ruled_n row) = Some (r_owning_ticket row).

(** The most rows of one layer that four fifths of 244 allow. *)
Definition LARGEST_LAYER : nat := 195.

(** ** The lines *)

(** The lines without failures are the valid rows. As no piece of a split holds
    the separator, the failure [JUSTIFICATION] is never reported. *)
Lemma check_line_valid owners lineno line row :
  check_line owners lineno line = ([], Some row) ↔ valid_row owners line row.
Proof.
  unfold check_line, valid_row. pose proof (split_pieces TAB line) as Hp. split.
  - destruct (split TAB line) as [|f0 [|f1 [|f2 [|f3 [|f4 [|? ?]]]]]]; try discriminate.
    destruct (first_empty 1 [f0; f1; f2; f3; f4]) eqn:He; [discriminate|].
    destruct (parse_u32 f0) as [n|] eqn:Hn; [|discriminate].
    destruct (Layer_parse f1) as [layer|] eqn:Hlayer; [|discriminate].
    destruct (Tier_parse f2) as [t|] eqn:Htier; [|discriminate].
    intros [= Hf <-]. exists f0, f1, f2. apply app_nil in Hf as [Ht Hf].
    apply app_nil in Hf as [Ho _]. revert Ht Ho.
    destruct (decide (t = tier layer)) as [->|]; [|done]. intros _.
    cbn [r_ruled_n r_layer r_tier r_owning_ticket r_justification].
    destruct (owner_for owners n) as [expected|]; [|by intros [=]].
    destruct (decide (expected = f3)) as [->|]; [done|by intros [=]].
  - intros (f0&f1&f2&Hs&He&Hn&Hlayer&Htier&Ht&Ho). rewrite Hs in *.
    rewrite He, Hn, Hlayer, Htier, Ho, !decide_True by done.
    rewrite decide_False by (apply Hp; rewrite !elem_of_cons; tauto). by destruct row.
Qed.

Lemma check_line_row owners lineno line fs :
  check_line owners lineno line = (fs, None) → fs ≠ [].
Proof.
  unfold check_line. repeat case_match; by intros [= <-].
Qed.

Lemma check_lines_valid owners ls : ∀ lineno failures rows,
  check_lines owners lineno ls = (failures, rows) →
  (failures = [] ↔ ∃ rows', Forall2 (valid_row owners) (filter content_line ls) rows')
  ∧ ∀ rows', Forall2 (valid_row owners) (filter content_line ls) rows' → rows' = rows.
Proof.
  induction ls as [|line ls IH]; intros lineno failures rows; cbn [check_lines].
  { intros [= <- <-]. split; [split; [|done]|].
    - intros _. exists []. constructor.
    - intros rows'. rewrite filter_nil. by inversion 1. }
  destruct (check_lines owners (lineno + 1) ls) as [fs' rows'] eqn:Hls.
  destruct (IH _ _ _ Hls) as [Hf Hr]. clear IH. rewrite filter_cons.
  destruct (comment line || blank line) eqn:Hc.
  { intros [= <- <-]. rewrite decide_False; [done|]. intros [Hco Hb]. by rewrite Hco, Hb in Hc. }
  rewrite decide_True by (by apply orb_false_iff in Hc).
  destruct (check_line owners lineno line) as [fs row] eqn:Hl. intros [= <- <-]. split.
  - rewrite app_nil, Hf. split.
    + intros [-> [rs Hrs]]. destruct row as [row|]; [|by apply check_line_row in Hl].
      exists (row :: rs). constructor; [by eapply check_line_valid|done].
    + intros [rs Hrs]. inversion Hrs as [|? row' ? rs' Hv Hvs]; subst.
      apply (check_line_valid _ lineno) in Hv. split; [congruence|by exists rs'].
  - intros rs Hrs. inversion Hrs as [|? row' ? rs' Hv Hvs]; subst.
    apply (check_line_valid _ lineno) in Hv. assert (row = Some row') as -> by congruence.
    f_equal. by apply Hr.
Qed.

(** ** The table *)

Lemma seen_lookup rows n :
  seen rows !! n = if decide (n ∈ r_ruled_n <$> rows)
                   then Some (occurrences n (r_ruled_n <$> rows)) else None.
Proof. unfold seen. by rewrite count_entries, lookup_empty. Qed.

Lemma occurrences_once {K} `{EqDecision K} (l : list K) :
  (∀ k, (occurrences k l <= 1)%nat) ↔ NoDup l.
Proof.
  induction l as [|x l IH].
  { split; [intros _; constructor|]. intros _ k. cbn. lia. }
  rewrite NoDup_cons, <- IH. setoid_rewrite (occurrences_app _ [x] l : occurrences _ (x :: l) = _).
  assert (∀ k, occurrences k [x] = if decide (k = x) then 1%nat else 0%nat) as Hx.
  { intros k. unfold occurrences. rewrite filter_cons. by case_decide. }
  setoid_rewrite Hx. rewrite (occurrences_pos x l). split.
  - intros Ho. split.
    + specialize (Ho x). rewrite decide_True in Ho by done. lia.
    + intros k. specialize (Ho k). lia.
  - intros [Hn Ho] k. specialize (Ho k). case_decide; subst; lia.
Qed.

Lemma table_complete rows :
  duplicates rows = [] ∧ gaps rows = [] ∧ outside rows = []
  ↔ r_ruled_n <$> rows ≡ₚ seqZ EXPECTED_LO (EXPECTED_HI - EXPECTED_LO + 1).
Proof.
  assert (∀ {A} (l : list A), l = [] ↔ is_empty l = true) as He by (intros A []; done).
  unfold duplicates, gaps, outside. rewrite !He, !is_empty_fmap, !is_empty_filter.
  setoid_rewrite elem_of_btree_keys. setoid_rewrite seen_lookup. split.
  - intros (Hd&Hg&Ho). apply NoDup_Permutation; [| |].
    + apply occurrences_once. intros n.
      destruct (decide (n ∈ r_ruled_n <$> rows)) as [Hn|Hn]; [|rewrite occurrences_pos in Hn; lia].
      specialize (Hd (n, occurrences n (r_ruled_n <$> rows))). cbn in Hd.
      rewrite elem_of_btree_iter, seen_lookup, decide_True in Hd by done. specialize (Hd eq_refl). lia.
    + apply NoDup_seqZ.
    + intros n. split.
      * intros Hn. specialize (Ho n). rewrite decide_True in Ho by done.
        specialize (Ho ltac:(by eexists)). apply elem_of_seqZ. lia.
      * intros Hn. specialize (Hg n Hn). by case_decide.
  - intros Hp. split_and!.
    + intros [n c] Hn. cbn. rewrite elem_of_btree_iter, seen_lookup in Hn. case_decide; [|done].
      injection Hn as <-.
      assert (NoDup (r_ruled_n <$> rows)) as Hnd by (rewrite Hp; apply NoDup_seqZ).
      pose proof (proj2 (occurrences_once _) Hnd n). lia.
    + intros n Hn. rewrite decide_True; [done|by rewrite Hp].
    + intros n [c Hc]. case_decide as Hn; [|done]. rewrite Hp, elem_of_seqZ in Hn. lia.
Qed.

(** ** Dominance *)

Lemma largest_spec l : ∀ b, foldl larger (Some b) l = Some b ∨ ∃ x, x ∈ l ∧ foldl larger (Some b) l = Some x.
Proof.
  induction l as [|y l IH]; intros b; cbn [foldl larger]; [by left|].
  destruct (y.2 <? b.2)%nat.
  - destruct (IH b) as [->|(x&Hx&->)]; [by left|right]. exists x. split; [set_solver|done].
  - right. destruct (IH y) as [->|(x&Hx&->)]; [exists y|exists x]; (split; [set_solver|done]).
Qed.

Lemma largest_ge l : ∀ b x, foldl larger (Some b) l = Some x →
  (b.2 <= x.2)%nat ∧ ∀ y, y ∈ l → (y.2 <= x.2)%nat.
Proof.
  induction l as [|z l IH]; intros b x; cbn [foldl larger].
  { intros [= ->]. split; [done|]. by intros y ?%not_elem_of_nil. }
  destruct (Nat.ltb_spec z.2 b.2); intros Hx; destruct (IH _ _ Hx) as [Hb Hall];
    (split; [lia|]); (intros y [->|Hy]%elem_of_cons; [lia|by apply Hall]).
Qed.

Lemma by_layer_lookup rows layer :
  by_layer rows !! layer = if decide (layer ∈ r_layer <$> rows)
                           then Some (occurrences layer (r_layer <$> rows)) else None.
Proof. unfold by_layer. by rewrite count_entries, lookup_empty. Qed.

(** Dividing in binary64 decides the threshold as the integers do. *)
Lemma threshold count : (count <= 244)%nat →
  SFltb DOMINANCE_THRESHOLD (percentage count 244) = (LARGEST_LAYER <? count)%nat.
Proof.
  intros Hc.
  assert (forallb (λ count, eqb (SFltb DOMINANCE_THRESHOLD (percentage count 244))
                              (LARGEST_LAYER <? count)%nat) (seq 0 245) = true) as Hall
    by by vm_compute.
  rewrite forallb_forall in Hall. apply eqb_prop, Hall, in_seq. lia.
Qed.

Lemma dominance_none rows : length rows = 244%nat →
  dominance rows = [] ↔ ∀ layer, (occurrences layer (r_layer <$> rows) <= LARGEST_LAYER)%nat.
Proof.
  intros Hlen. unfold dominance, dominant_layer.
  assert (∀ layer c, (layer, c) ∈ btree_iter Z.le (by_layer rows) ↔
    layer ∈ r_layer <$> rows ∧ c = occurrences layer (r_layer <$> rows)) as Hin.
  { intros layer c. rewrite elem_of_btree_iter, by_layer_lookup. case_decide; naive_solver. }
  assert (∀ layer, (occurrences layer (r_layer <$> rows) <= 244)%nat) as Hmax.
  { intros layer. rewrite <- Hlen, <- (length_fmap r_layer). apply length_filter. }
  destruct (btree_iter Z.le (by_layer rows)) as [|b l]; cbn [foldl larger].
  { split; [|done]. intros _ layer. destruct (decide (layer ∈ r_layer <$> rows)) as [Hl|Hl].
    - assert ((layer, occurrences layer (r_layer <$> rows)) ∈ []) as Hno by (by apply Hin).
      by apply not_elem_of_nil in Hno.
    - rewrite occurrences_pos in Hl. unfold LARGEST_LAYER. lia. }
  destruct (foldl larger (Some b) l) as [[layer c]|] eqn:Hbest.
  2:{ destruct (largest_spec l b) as [Hx|(x&_&Hx)]; congruence. }
  assert ((layer, c) ∈ b :: l) as Hb.
  { destruct (largest_spec l b) as [Hx|(x&Hl&Hx)]; rewrite Hbest in Hx; injection Hx as <-; set_solver. }
  destruct (largest_ge l b _ Hbest) as [Hge1 Hge2]. apply Hin in Hb as [Hlayer ->].
  rewrite Hlen, threshold by done.
  destruct (Nat.ltb_spec LARGEST_LAYER (occurrences layer (r_layer <$> rows))) as [Hlt|Hle].
  - split; [done|]. intros Hall. specialize (Hall layer). lia.
  - split; [|done]. intros _ layer'. destruct (decide (layer' ∈ r_layer <$> rows)) as [Hl|Hl].
    + assert ((layer', occurrences layer' (r_layer <$> rows)) ∈ b :: l) as Hx by (by apply Hin).
      apply elem_of_cons in Hx as [<-|Hx]; [|apply Hge2 in Hx]; cbn in *; lia.
    + rewrite occurrences_pos in Hl. lia.
Qed.

(** ** The property *)

(** On tables that can be read, with a well-formed table of owners, the check
    ends with exit code 0 exactly when every line that is neither blank nor a
    comment is a valid row, the rows hold every ruling from 1 to 244 once and no
    other, and no layer holds more than 195 of them: the floating-point
    percentage against its threshold is the exact comparison. *)
Theorem meadows_verdict_exact files args owners_text owners text :
  files (arg_or args (str "--owners") (str "scripts/data/ruled-owners.tsv")) = Some owners_text →
  load_owners owners_text = Ok owners →
  files (arg_or args (str "--meadows") (str "scripts/data/ruled-meadows.tsv")) = Some text →
  ∃ rep code, meadows_main files args = Ok (rep, code)
  ∧ (code = 0 ↔ ∃ rows, Forall2 (valid_row owners) (filter content_line (lines text)) rows
       ∧ r_ruled_n <$> rows ≡ₚ seqZ 1 244
       ∧ ∀ layer, (occurrences layer (r_layer <$> rows) <= LARGEST_LAYER)%nat).
Proof.
  intros Hot Howners Htext. unfold meadows_main. rewrite Hot, Htext. cbn [expect mbind outcome_bind].
  rewrite Howners. cbn [mbind outcome_bind].
  destruct (check_lines owners 1 (lines text)) as [fs rows] eqn:Hl.
  destruct (check_lines_valid owners (lines text) 1 fs rows Hl) as [Hf Hr].
  do 2 eexists. split; [done|].
  assert ((if is_empty (fs ++ duplicates rows ++ gaps rows ++ outside rows ++ dominance rows) then 0 else 1) = 0
    ↔ fs = [] ∧ duplicates rows = [] ∧ gaps rows = [] ∧ outside rows = [] ∧ dominance rows = []) as ->.
  { rewrite <- !app_nil. by destruct (fs ++ _). }
  assert (r_ruled_n <$> rows ≡ₚ seqZ 1 244 → length rows = 244%nat) as Hlen.
  { intros Hp. apply Permutation_length in Hp. by rewrite length_fmap, length_seqZ in Hp. }
  pose proof (table_complete rows) as Ht. change (EXPECTED_HI - EXPECTED_LO + 1) with 244 in Ht.
  change EXPECTED_LO with 1 in Ht. split.
  - intros (Hfs&Hd&Hg&Ho&Hdom). apply Hf in Hfs as [rows' Hv]. rewrite (Hr rows' Hv) in Hv.
    assert (r_ruled_n <$> rows ≡ₚ seqZ 1 244) as Hp by (by apply Ht).
    exists rows. split_and!; [done..|]. by apply dominance_none; [apply Hlen|].
  - intros (rows'&Hv&Hp&Hdom). pose proof (Hr rows' Hv) as ->.
    destruct (proj2 Ht Hp) as (?&?&?). split_and!; [|done..|].
    + apply Hf. by exists rows.
    + apply dominance_none; [by apply Hlen|done].
Qed.

(** A table of all rulings: [layer_of n] is the layer of ruling [n], all of them
    owned by one ticket. *)
Definition sample_table (layer_of : Z → Z) : bytes := join_with [NL]
  (str "# ruled_n layer tier owner why" ::
   ((λ n, join_with [TAB]
      [decimal n; decimal (layer_of n);
       match tier (layer_of n) with Tier_S => str "S" | Tier_A => str "A" | Tier_B => str "B"
                                  | Tier_C => str "C" | Tier_D => str "D" end;
       str "pardosa-jn1.1"; str "because"]) <$> seqZ 1 244)).
Definition sample_owners : bytes := join_with [TAB] [str "pardosa-jn1.1"; str "1"; str "244"].
Definition sample_files (table : bytes) (path : bytes) : option bytes :=
  if decide (path = str "scripts/data/ruled-owners.tsv") then Some sample_owners
  else if decide (path = str "scripts/data/ruled-meadows.tsv") then Some table else None.

Definition exit_code (t : tool (MeadowsReport * Z)) : option Z :=
  match t with Ok (_, code) => Some code | _ => None end.

(** 196 rulings of one layer are too many, 195 are not. *)
Example dominant_layer_fails :
  exit_code (meadows_main (sample_files (sample_table (λ n, if n <=? 196 then 5 else 3))) []) = Some 1.
Proof. by vm_compute. Qed.

Lemma meadows_verdict_exact_witness :
  exit_code (meadows_main (sample_files (sample_table (λ n, if n <=? 195 then 5 else 3))) []) = Some 0
  ∧ ∃ rep code, meadows_main (sample_files (sample_table (λ n, if n <=? 195 then 5 else 3))) [] = Ok (rep, code)
  ∧ (code = 0 ↔ ∃ rows,
       Forall2 (valid_row [mk_OwnerRange (str "pardosa-jn1.1") 1 244])
         (filter content_line (lines (sample_table (λ n, if n <=? 195 then 5 else 3)))) rows
       ∧ r_ruled_n <$> rows ≡ₚ seqZ 1 244
       ∧ ∀ layer, (occurrences layer (r_layer <$> rows) <= LARGEST_LAYER)%nat).
Proof.
  split; [by vm_compute|].
  apply (meadows_verdict_exact (sample_files (sample_table (λ n, if n <=? 195 then 5 else 3))) []
           sample_owners [mk_OwnerRange (str "pardosa-jn1.1") 1 244]
           (sample_table (λ n, if n <=? 195 then 5 else 3))); [reflexivity|by vm_compute|reflexivity].
Defined.
