(* ===== verification/RuledAudit.v ===== *)
(** * ruled-audit: citations of rulings against their owners

    The tool of src/scripts/src/bin/ruled-audit.rs: a table says which ticket
    owns which rulings; the tool prints the ranges of each ticket, the gaps and
    the overlaps, and compares every citation of a ruling in a corpus of tickets
    with the owner of the ruling. The corpus comes from the command [bd] or from
    a cache; these, the JSON parser and the two regular expressions are the
    operations of the class [Corpus]. *)

From S2P Require Import Prelude Text.
#[local] Open Scope Z_scope.

Inductive Verdict := Verdict_Ok | Verdict_Mismatch | Verdict_Unpaired | Verdict_OutOfRange.
#[global] Instance Verdict_eq_dec : EqDecision Verdict.
Proof. solve_decision. Defined.

Definition Verdict_as_str (v : Verdict) : bytes :=
  match v with
  | Verdict_Ok => str "OK"
  | Verdict_Mismatch => str "MISMATCH"
  | Verdict_Unpaired => str "UNPAIRED"
  | Verdict_OutOfRange => str "OUTOFRANGE"
  end.
Definition Verdict_parse (s : bytes) : tool Verdict :=
  if decide (s = str "OK") then Ok Verdict_Ok
  else if decide (s = str "MISMATCH") then Ok Verdict_Mismatch
  else if decide (s = str "UNPAIRED") then Ok Verdict_Unpaired
  else if decide (s = str "OUTOFRANGE") then Ok Verdict_OutOfRange
  else Panic.

Inductive FieldKind := FieldKind_Description | FieldKind_CloseReason | FieldKind_Comment.
#[global] Instance FieldKind_eq_dec : EqDecision FieldKind.
Proof. solve_decision. Defined.
Definition FieldKind_as_str (k : FieldKind) : bytes :=
  match k with
  | FieldKind_Description => str "description"
  | FieldKind_CloseReason => str "close_reason"
  | FieldKind_Comment => str "comment"
  end.
Definition parse_field_kind (s : bytes) : tool FieldKind :=
  if decide (s = str "description") then Ok FieldKind_Description
  else if decide (s = str "close_reason") then Ok FieldKind_CloseReason
  else if decide (s = str "comment") then Ok FieldKind_Comment
  else Panic.

Record Source := mk_Source { s_bead_id : bytes; s_fields : list (FieldKind * bytes) }.
Record ShowEntry := mk_ShowEntry {
  sh_id : bytes;
  sh_description : option bytes;
  sh_close_reason : option bytes;
}.
(** [CachedSource]: its kinds are strings. *)
Record CachedSource := mk_CachedSource { cs_bead_id : bytes; cs_fields : list (bytes * bytes) }.

(** What is outside: [bd args] is the exit status and the output of the command,
    [None] when it cannot be spawned; the JSON parsers; the matches of the two
    regular expressions, in order: where one begins, its length and the two
    numbers for a citation, where one ends and its two groups for a ticket. *)
Class Corpus := {
  bd : list bytes → option (bool * bytes);
  list_from_json : bytes → option (list bytes);
  show_from_json : bytes → option (list ShowEntry);
  comments_from_json : bytes → option (list bytes);
  cache_from_json : bytes → option (list CachedSource);
  cache_to_json : list CachedSource → bytes;
  ruled_captures : bytes → list (nat * nat * bytes * option bytes);
  ticket_captures : bytes → list (nat * option bytes * option bytes);
}.

(** ** The owners *)

(** The numbers from [lo] to [hi]. *)
Definition numbers (lo hi : Z) : list Z := seqZ lo (hi - lo + 1).

Abbreviation owners_map := (gmap Z (list bytes)).
Definition add_owner (ticket : bytes) (owners : owners_map) (n : Z) : owners_map :=
  <[n := default [] (owners !! n) ++ [ticket]]> owners.

Fixpoint load_owner_lines (owners : owners_map) (lines : list bytes) : tool owners_map :=
  match lines with
  | [] => Ok owners
  | line :: lines =>
      let line := trim line in
      if is_empty line || comment line then load_owner_lines owners lines
      else
        match split TAB line with
        | [ticket; lo; hi] =>
            lo ← expect (parse_u32 lo);
            hi ← expect (parse_u32 hi);
            if hi <? lo then Panic
            else load_owner_lines (foldl (add_owner ticket) owners (numbers lo hi)) lines
        | _ => Panic
        end
  end.
Definition load_owners (raw : bytes) : tool owners_map :=
  owners ← load_owner_lines ∅ (lines raw);
  if decide (owners = ∅) then Panic else Ok owners.

(** [sort_unstable] and [dedup]. *)
Fixpoint dedup (l : list Z) : list Z :=
  match l with
  | x :: rest =>
      match rest with
      | y :: _ => if x =? y then dedup rest else x :: dedup rest
      | [] => [x]
      end
  | [] => []
  end.

(** The runs of successive numbers: the inner loop of [collapse_to_ranges] moves
    [hi] on as long as the next number is its successor. *)
Fixpoint runs_from (lo hi : Z) (l : list Z) : list (Z * Z) :=
  match l with
  | [] => [(lo, hi)]
  | n :: l => if n =? hi + 1 then runs_from lo n l else (lo, hi) :: runs_from n n l
  end.
Definition runs (l : list Z) : list (Z * Z) :=
  match l with [] => [] | n :: l => runs_from n n l end.
Definition range_text (r : Z * Z) : bytes :=
  if r.1 =? r.2 then decimal r.1 else decimal r.1 ++ str "-" ++ decimal r.2.
Definition collapse_to_ranges (nums : list Z) : bytes :=
  join_with (str ",") (range_text <$> runs (dedup (merge_sort Z.le nums))).

(** ** The corpus *)

Section corpus.
Context `{Corpus}.

Definition bd_json (args : list bytes) : tool bytes :=
  match bd args with
  | Some (true, stdout) => if utf8_valid stdout then Ok stdout else Panic
  | _ => Panic
  end.

Definition fetch_show (id : bytes) : tool ShowEntry :=
  raw ← bd_json [str "show"; id; str "--json"];
  arr ← expect (show_from_json raw);
  expect (head arr).

(** A failure of the command or of the parser leaves no comments; one to spawn
    it panics. *)
Definition fetch_comments (id : bytes) : tool (list bytes) :=
  match bd [str "comments"; id; str "--json"] with
  | None => Panic
  | Some (false, _) => Ok []
  | Some (true, raw) => Ok (default [] (comments_from_json raw))
  end.

Definition optional_field (kind : FieldKind) (text : option bytes) : list (FieldKind * bytes) :=
  match text with Some t => [(kind, t)] | None => [] end.

Definition fetch_source (id : bytes) : tool Source :=
  show ← fetch_show id;
  comments ← fetch_comments id;
  Ok (mk_Source (sh_id show)
        (optional_field FieldKind_Description (sh_description show)
         ++ optional_field FieldKind_CloseReason (sh_close_reason show)
         ++ (pair FieldKind_Comment <$> comments))).

Fixpoint fetch_sources (ids : list bytes) : tool (list Source) :=
  match ids with
  | [] => Ok []
  | id :: ids => s ← fetch_source id; cons s <$> fetch_sources ids
  end.

Definition fetch_corpus (parent_id : bytes) : tool (list Source) :=
  list_raw ← bd_json [str "list"; str "--parent"; parent_id; str "--all"; str "--json"];
  ids ← expect (list_from_json list_raw);
  fetch_sources (ids ++ [parent_id]).

Definition cached (s : Source) : CachedSource :=
  mk_CachedSource (s_bead_id s) ((λ f, (FieldKind_as_str f.1, f.2)) <$> s_fields s).

Fixpoint uncache_fields (fields : list (bytes * bytes)) : tool (list (FieldKind * bytes)) :=
  match fields with
  | [] => Ok []
  | (kind, text) :: fields => k ← parse_field_kind kind; cons (k, text) <$> uncache_fields fields
  end.
Fixpoint uncache (sources : list CachedSource) : tool (list Source) :=
  match sources with
  | [] => Ok []
  | c :: sources =>
      fields ← uncache_fields (cs_fields c);
      cons (mk_Source (cs_bead_id c) fields) <$> uncache sources
  end.

(** ** Where a citation stands *)

(** The last boundary between characters at or before [target]. *)
Fixpoint boundary_at_or_before (text : bytes) (target : nat) : nat :=
  match target with
  | O => O
  | S t =>
      match text !! target with
      | Some b => if is_cont b then boundary_at_or_before text t else target
      | None => boundary_at_or_before text t
      end
  end.
(** The first one at or after [target] that begins a character, or the end. *)
Fixpoint skip_cont (text : bytes) : nat :=
  match text with b :: text => if is_cont b then S (skip_cont text) else 0%nat | [] => 0%nat end.
Definition boundary_at_or_after (text : bytes) (target : nat) : nat :=
  if (target <? length text)%nat then (target + skip_cont (drop target text))%nat else length text.

Definition normalize_ticket (jn1_capture abi_capture : option bytes) : tool bytes :=
  match abi_capture, jn1_capture with
  | Some abi, _ => Ok abi
  | None, Some jn1 => Ok (str "pardosa-" ++ jn1)
  | None, None => Panic
  end.

(** The ticket last mentioned within about 120 bytes before the position, and how
    far before. *)
Definition last_ticket_ref_before (text : bytes) (byte_pos : nat) : tool (option (bytes * nat)) :=
  let window_start := boundary_at_or_before text (byte_pos - 120) in
  let window := take (byte_pos - window_start) (drop window_start text) in
  match last (ticket_captures window) with
  | None => Ok None
  | Some (whole_end, jn1, abi) =>
      ticket ← normalize_ticket jn1 abi;
      Ok (Some (ticket, (length window - whole_end)%nat))
  end.

Definition context_60 (text : bytes) (byte_pos match_len : nat) : bytes :=
  let start := boundary_at_or_before text (byte_pos - 60) in
  let stop := boundary_at_or_after text (byte_pos + match_len + 60) in
  (λ b, if decide (b = NL ∨ b = TAB) then x20 else b) <$> take (stop - start) (drop start text).

(** ** Citations *)

Definition verdict (paired : option (bytes * nat)) (owner_set : option (list bytes)) : Verdict :=
  match paired, owner_set with
  | _, None => Verdict_OutOfRange
  | None, Some _ => Verdict_Unpaired
  | Some (p, _), Some owns => if decide (p ∈ owns) then Verdict_Ok else Verdict_Mismatch
  end.

(** [sort] and [dedup] of tickets. *)
Fixpoint dedup_tickets (l : list bytes) : list bytes :=
  match l with
  | x :: rest =>
      match rest with
      | y :: _ => if decide (x = y) then dedup_tickets rest else x :: dedup_tickets rest
      | [] => [x]
      end
  | [] => []
  end.
Definition owner_text (owner_set : option (list bytes)) : bytes :=
  match owner_set with
  | Some v => join_with (str ",") (dedup_tickets (merge_sort bytes_le v))
  | None => str "-"
  end.

Definition cite_line (v : Verdict) (bead_id : bytes) (kind : FieldKind) (paired : option (bytes * nat))
    (n : Z) (owner_set : option (list bytes)) (ctx : bytes) : bytes :=
  join_with [TAB]
    [str "CITE"; Verdict_as_str v; bead_id; FieldKind_as_str kind;
     match paired with Some (p, _) => p | None => str "-" end;
     match paired with Some (_, g) => decimal (Z.of_nat g) | None => str "-" end;
     decimal n; owner_text owner_set; ctx].

(** One match: a verdict and a line for every number of the range it cites. *)
Definition cite_match (owners : owners_map) (bead_id : bytes) (kind : FieldKind) (text : bytes)
    (cap : nat * nat * bytes * option bytes) : tool (list (Verdict * bytes)) :=
  let '(start, len, g1, g2) := cap in
  lo ← expect (parse_u32 g1);
  hi ← match g2 with Some m => expect (parse_u32 m) | None => Ok lo end;
  paired ← last_ticket_ref_before text start;
  let ctx := context_60 text start len in
  Ok ((λ n, let v := verdict paired (owners !! n) in
            (v, cite_line v bead_id kind paired n (owners !! n) ctx)) <$> numbers lo hi).

Fixpoint cite_matches (owners : owners_map) (bead_id : bytes) (kind : FieldKind) (text : bytes)
    (caps : list (nat * nat * bytes * option bytes)) : tool (list (Verdict * bytes)) :=
  match caps with
  | [] => Ok []
  | cap :: caps =>
      here ← cite_match owners bead_id kind text cap;
      app here <$> cite_matches owners bead_id kind text caps
  end.

Fixpoint cite_fields (owners : owners_map) (bead_id : bytes) (fields : list (FieldKind * bytes)) :
    tool (list (Verdict * bytes)) :=
  match fields with
  | [] => Ok []
  | (kind, text) :: fields =>
      here ← cite_matches owners bead_id kind text (ruled_captures text);
      app here <$> cite_fields owners bead_id fields
  end.

Fixpoint cite_sources (owners : owners_map) (sources : list Source) : tool (list (Verdict * bytes)) :=
  match sources with
  | [] => Ok []
  | s :: sources =>
      here ← cite_fields owners (s_bead_id s) (s_fields s);
      app here <$> cite_sources owners sources
  end.
(** ** The records *)

Definition push_owned (m : gmap bytes (list Z)) (t : bytes) (n : Z) : gmap bytes (list Z) :=
  <[t := default [] (m !! t) ++ [n]]> m.
(** [per_ticket_owned]. *)
Definition per_ticket_owned (owners : owners_map) : gmap bytes (list Z) :=
  foldl (λ m nt, foldl (λ m t, push_owned m t nt.1) m nt.2) ∅ (btree_iter Z.le owners).

Fixpoint least (l : list Z) : option Z :=
  match l with
  | [] => None
  | n :: l => Some (match least l with Some m => Z.min n m | None => n end)
  end.

Definition row_le (x y : Z * bytes * bytes) : Prop := x.1.1 ≤ y.1.1.
#[local] Instance row_le_dec x y : Decision (row_le x y).
Proof. unfold row_le. apply _. Defined.

Definition range_rows (owners : owners_map) : list (Z * bytes * bytes) :=
  merge_sort row_le
    ((λ tn, (default 0 (least tn.2), tn.1, collapse_to_ranges tn.2))
       <$> btree_iter bytes_le (per_ticket_owned owners)).

Definition range_lines (owners : owners_map) : list bytes :=
  (λ row, join_with [TAB] [str "RANGE"; row.1.2; row.2]) <$> range_rows owners.

Definition gap_lines (owners : owners_map) : list bytes :=
  let max_num := default 0 (last (btree_keys Z.le owners)) in
  (λ n, join_with [TAB] [str "RANGEGAP"; decimal n])
    <$> filter (λ n, owners !! n = None) (numbers 1 max_num).

(** The pairs of a list, in the order of two nested loops. *)
Fixpoint pairs (l : list bytes) : list (bytes * bytes) :=
  match l with [] => [] | x :: l => (pair x <$> l) ++ pairs l end.
Definition overlap_lines (owners : owners_map) : list bytes :=
  btree_iter Z.le owners ≫= λ nt,
    (λ p, join_with [TAB] [str "RANGEOVERLAP"; decimal nt.1; p.1; p.2]) <$> pairs nt.2.

(** The second field of a record. *)
Definition verdict_field (line : bytes) : bytes := default [] (split TAB line !! 1%nat).
Definition printed_cite (verdict_filter : option Verdict) (show_all : bool) (line : bytes) : bool :=
  match verdict_filter with
  | Some filter => bool_decide (verdict_field line = Verdict_as_str filter)
  | None => negb (bool_decide (verdict_field line = str "OK") && negb show_all)
  end.

Definition count_verdict (v : Verdict) (cites : list (Verdict * bytes)) : bytes :=
  decimal (Z.of_nat (length (filter (λ c, c.1 = v) cites))).
Definition summary_record (cites : list (Verdict * bytes)) : bytes :=
  join_with [TAB]
    [str "SUMMARY"; str "total_mentions=" ++ decimal (Z.of_nat (length cites));
     str "ok=" ++ count_verdict Verdict_Ok cites;
     str "mismatch=" ++ count_verdict Verdict_Mismatch cites;
     str "unpaired=" ++ count_verdict Verdict_Unpaired cites;
     str "outofrange=" ++ count_verdict Verdict_OutOfRange cites].

(** ** The tool

    [fs] is a path's presence and what reading it gives. The result is what is
    printed, and the cache written if there was none yet. *)
Definition audit_sources (fs : bytes → option (option bytes)) (cache_path : option bytes) :
    tool (list Source * option (bytes * bytes)) :=
  let parent_id := str "pardosa-jn1" in
  match cache_path with
  | None => sources ← fetch_corpus parent_id; Ok (sources, None)
  | Some path =>
      match fs path with
      | Some content =>
          raw ← expect content;
          cached ← expect (cache_from_json raw);
          sources ← uncache cached;
          Ok (sources, None)
      | None =>
          fetched ← fetch_corpus parent_id;
          Ok (fetched, Some (path, cache_to_json (cached <$> fetched)))
      end
  end.

(** The counters are of type [u32]. *)
Definition audit_main (fs : bytes → option (option bytes)) (args : list bytes) :
    tool (list bytes * option (bytes * bytes)) :=
  let show_all := existsb (λ a, bool_decide (a = str "--all")) args in
  filter_arg ← arg_value args (str "--verdict");
  verdict_filter ← match filter_arg with Some s => Some <$> Verdict_parse s | None => Ok None end;
  owners_path ← default (str "scripts/data/ruled-owners.tsv") <$> arg_value args (str "--owners");
  cache_path ← arg_value args (str "--cache");
  owners_raw ← expect (mjoin (fs owners_path));
  owners ← load_owners owners_raw;
  '(sources, written) ← audit_sources fs cache_path;
  cites ← cite_sources owners sources;
  if u32_max <? Z.of_nat (length cites) then Panic
  else
    Ok (range_lines owners ++ gap_lines owners ++ overlap_lines owners
        ++ filter (λ l, printed_cite verdict_filter show_all l) cites.*2 ++ [summary_record cites],
        written).
End corpus.

(** ** Ranges read back *)

(** What a reader of a RANGE record makes of its text. *)
Definition read_range (t : bytes) : option (list Z) :=
  match split_once (str "-") t with
  | Some (lo, hi) => lo ← parse_u32 lo; hi ← parse_u32 hi; Some (numbers lo hi)
  | None => n ← parse_u32 t; Some [n]
  end.
Definition read_ranges (text : bytes) : option (list Z) := mjoin <$> mapM read_range (split x2c text).

Lemma numbers_snoc lo hi : lo ≤ hi + 1 → numbers lo (hi + 1) = numbers lo hi ++ [hi + 1].
Proof.
  intros Hle. unfold numbers. replace (hi + 1 - lo + 1) with ((hi - lo + 1) + 1) by lia.
  rewrite seqZ_app, (seqZ_cons _ 1), (seqZ_nil _ (Z.pred 1)) by lia. do 2 f_equal. lia.
Qed.

Lemma numbers_one n : numbers n n = [n].
Proof.
  unfold numbers. replace (n - n + 1) with 1 by lia.
  by rewrite (seqZ_cons _ 1), (seqZ_nil _ (Z.pred 1)) by lia.
Qed.

Lemma runs_from_numbers l : ∀ lo hi, lo ≤ hi →
  mjoin ((λ r, numbers r.1 r.2) <$> runs_from lo hi l) = numbers lo hi ++ l.
Proof.
  induction l as [|n l IH]; intros lo hi Hle; cbn [runs_from].
  - cbn. by rewrite app_nil_r.
  - destruct (Z.eqb_spec n (hi + 1)) as [->|Hne].
    + rewrite IH, numbers_snoc, <- app_assoc by lia. done.
    + cbn. f_equal. rewrite IH, numbers_one by lia. done.
Qed.

Lemma runs_numbers l : mjoin ((λ r, numbers r.1 r.2) <$> runs l) = l.
Proof. destruct l as [|n l]; [done|]. cbn [runs]. by rewrite runs_from_numbers, numbers_one by lia. Qed.

Lemma runs_nil l : runs l = [] → l = [].
Proof. intros Hl. pose proof (runs_numbers l) as Hn. by rewrite Hl in Hn. Qed.

Lemma runs_from_range (P : Z → Prop) l : ∀ lo hi, P lo → P hi → lo ≤ hi → Forall P l →
  Forall (λ r, P r.1 ∧ P r.2 ∧ r.1 ≤ r.2) (runs_from lo hi l).
Proof.
  induction l as [|n l IH]; intros lo hi Hlo Hhi Hle Hl; cbn [runs_from].
  - by repeat constructor.
  - inversion Hl. case_match; [apply IH; auto; lia|]. constructor; [done|]. apply IH; auto. lia.
Qed.

Lemma decimal_no_byte b n : is_ascii_digit b = false → 0 ≤ n → b ∉ decimal n.
Proof.
  intros Hb Hn Hin. pose proof (all_digits_decimal n Hn) as Hd. unfold all_digits in Hd.
  rewrite Forall_forall in Hd. apply Hd in Hin. congruence.
Qed.

Lemma range_text_no_comma r : 0 ≤ r.1 → 0 ≤ r.2 → x2c ∉ range_text r.
Proof.
  intros H1 H2. unfold range_text. case_match.
  - by apply decimal_no_byte.
  - rewrite !not_elem_of_app. split_and!; [by apply decimal_no_byte| |by apply decimal_no_byte].
    cbn. by intros [?|?%not_elem_of_nil]%elem_of_cons.
Qed.

Lemma read_range_text r : 0 ≤ r.1 ≤ u32_max → 0 ≤ r.2 ≤ u32_max → r.1 ≤ r.2 →
  read_range (range_text r) = Some (numbers r.1 r.2).
Proof.
  intros H1 H2 Hle. unfold read_range, range_text. change (str "-") with [x2d]. destruct (Z.eqb_spec r.1 r.2) as [Heq|Hne].
  - rewrite split_once_none.
    + rewrite parse_u32_decimal by done. cbn. by rewrite Heq, numbers_one.
    + apply decimal_no_byte; [done|lia].
  - rewrite split_once_byte by (apply decimal_no_byte; [done|lia]). by rewrite !parse_u32_decimal.
Qed.

(** ** Sorting without duplicates *)

Lemma elem_of_dedup l n : n ∈ dedup l ↔ n ∈ l.
Proof.
  induction l as [|x [|y l] IH]; [done..|]. change (dedup (x :: y :: l)) with
    (if x =? y then dedup (y :: l) else x :: dedup (y :: l)).
  destruct (Z.eqb_spec x y) as [->|Hne]; rewrite ?elem_of_cons, IH, ?elem_of_cons; tauto.
Qed.

Lemma dedup_sorted l : StronglySorted Z.le l → StronglySorted Z.lt (dedup l).
Proof.
  induction 1 as [|x l Hl IH Hx]; [constructor|]. destruct l as [|y l]; [repeat constructor|].
  change (dedup (x :: y :: l)) with (if x =? y then dedup (y :: l) else x :: dedup (y :: l)).
  destruct (Z.eqb_spec x y) as [->|Hne]; [done|]. constructor; [done|].
  apply Forall_forall. intros n. rewrite elem_of_dedup. intros Hn.
  inversion Hl as [|? ? _ Hy]; subst. rewrite Forall_forall in Hx, Hy.
  specialize (Hx y ltac:(set_solver)). apply elem_of_cons in Hn as [->|Hn]; [lia|].
  specialize (Hy n Hn). lia.
Qed.

Definition distinct (nums : list Z) : list Z := dedup (merge_sort Z.le nums).

Lemma distinct_spec nums :
  StronglySorted Z.lt (distinct nums) ∧ ∀ n, n ∈ distinct nums ↔ n ∈ nums.
Proof.
  split.
  - apply dedup_sorted, StronglySorted_merge_sort; apply _.
  - intros n. unfold distinct. by rewrite elem_of_dedup, merge_sort_Permutation.
Qed.

(** The text of the ranges is read back as the numbers, sorted, each once. *)
Lemma collapse_roundtrip nums :
  nums ≠ [] → Forall (λ n, 0 ≤ n ≤ u32_max) nums →
  read_ranges (collapse_to_ranges nums) = Some (distinct nums).
Proof.
  intros Hne Hn. unfold read_ranges, collapse_to_ranges. fold (distinct nums).
  destruct (distinct_spec nums) as [_ Hin].
  assert (Forall (λ n, 0 ≤ n ≤ u32_max) (distinct nums)) as Hd.
  { rewrite Forall_forall in Hn |- *. intros n. rewrite Hin. apply Hn. }
  assert (Forall (λ r, 0 ≤ r.1 ≤ u32_max ∧ 0 ≤ r.2 ≤ u32_max ∧ r.1 ≤ r.2) (runs (distinct nums))) as Hr.
  { unfold runs. destruct (distinct nums) as [|n l]; [constructor|]. inversion Hd.
    by apply (runs_from_range (λ n, 0 ≤ n ≤ u32_max)). }
  assert (runs (distinct nums) ≠ []) as Hruns.
  { intros Hnil%runs_nil. destruct nums as [|n nums]; [done|].
    apply (not_elem_of_nil n). rewrite <- Hnil, Hin. set_solver. }
  change (str ",") with [x2c]. rewrite split_join.
  - rewrite <- (runs_numbers (distinct nums)) at 2.
    assert (mapM read_range (range_text <$> runs (distinct nums))
            = Some ((λ r, numbers r.1 r.2) <$> runs (distinct nums))) as ->; [|done].
    apply mapM_Some. rewrite Forall2_fmap. apply Forall_Forall2_diag.
    eapply Forall_impl; [exact Hr|]. intros r (?&?&?). by apply read_range_text.
  - intros Hx. by apply fmap_nil_inv in Hx.
  - apply Forall_fmap. eapply Forall_impl; [exact Hr|]. intros r (?&?&?). cbn.
    apply range_text_no_comma; lia.
Qed.

(** ** The ranges of a ticket *)

Definition owns (owners : owners_map) (t : bytes) (n : Z) : Prop :=
  ∃ ts, owners !! n = Some ts ∧ t ∈ ts.

Lemma push_all_owned n ts : ∀ m t k,
  k ∈ default [] (foldl (λ m t, push_owned m t n) m ts !! t)
  ↔ k ∈ default [] (m !! t) ∨ (k = n ∧ t ∈ ts).
Proof.
  induction ts as [|t' ts IH]; intros m t k; cbn [foldl].
  - rewrite elem_of_nil. tauto.
  - rewrite IH, elem_of_cons. unfold push_owned. destruct (decide (t = t')) as [->|Hne].
    + rewrite lookup_insert_eq. cbn. rewrite elem_of_app, list_elem_of_singleton. tauto.
    + rewrite lookup_insert_ne by done. naive_solver.
Qed.

Lemma push_entries_owned l : ∀ m t k,
  k ∈ default [] (foldl (λ m nt, foldl (λ m t, push_owned m t nt.1) m nt.2) m l !! t)
  ↔ k ∈ default [] (m !! t) ∨ ∃ ts, (k, ts) ∈ l ∧ t ∈ ts.
Proof.
  induction l as [|[n ts] l IH]; intros m t k; cbn [foldl fst snd].
  - setoid_rewrite elem_of_nil. naive_solver.
  - rewrite IH, push_all_owned. setoid_rewrite elem_of_cons. naive_solver.
Qed.

Lemma per_ticket_owned_spec owners t n :
  n ∈ default [] (per_ticket_owned owners !! t) ↔ owns owners t n.
Proof.
  unfold per_ticket_owned, owns. rewrite push_entries_owned, lookup_empty. cbn.
  rewrite elem_of_nil. setoid_rewrite elem_of_btree_iter. naive_solver.
Qed.

(** Tickets that own nothing are not in the map. *)
Definition all_own (m : gmap bytes (list Z)) : Prop := map_Forall (λ _ nums, nums ≠ []) m.

Lemma per_ticket_nonempty owners : all_own (per_ticket_owned owners).
Proof.
  unfold per_ticket_owned. generalize (btree_iter Z.le owners). intros l.
  assert (∀ ts n m, all_own m → all_own (foldl (λ m t, push_owned m t n) m ts)) as Hts.
  { induction ts as [|t ts IH]; intros n m Hm; [done|]. apply IH. unfold push_owned.
    apply map_Forall_insert_2; [|done]. by destruct (default [] (m !! t)). }
  assert (∀ m, all_own m → all_own (foldl (λ m nt, foldl (λ m t, push_owned m t nt.1) m nt.2) m l)) as Hl;
    [|apply Hl, map_Forall_empty].
  induction l as [|[n ts] l IH]; intros m Hm; [done|]. apply IH, Hts, Hm.
Qed.

Lemma least_spec l n : n ∈ l → ∃ m, least l = Some m ∧ m ∈ l ∧ ∀ k, k ∈ l → m ≤ k.
Proof.
  revert n. induction l as [|x l IH]; intros n Hn; [by apply not_elem_of_nil in Hn|].
  cbn [least]. destruct l as [|y l].
  - exists x. split_and!; [done|set_solver|]. intros k ->%list_elem_of_singleton. lia.
  - destruct (IH y ltac:(set_solver)) as (m&->&Hm&Hle). exists (Z.min x m). split_and!; [done| |].
    + destruct (Z.min_spec x m) as [[_ ->]|[_ ->]]; set_solver.
    + intros k [->|Hk]%elem_of_cons; [lia|]. specialize (Hle k Hk). lia.
Qed.

Definition in_u32 (owners : owners_map) : Prop := ∀ n, is_Some (owners !! n) → 0 ≤ n ≤ u32_max.

Lemma load_owner_lines_range ls : ∀ owners owners',
  in_u32 owners → load_owner_lines owners ls = Ok owners' → in_u32 owners'.
Proof.
  induction ls as [|line ls IH]; intros owners owners' Ho; cbn [load_owner_lines].
  { by intros [= <-]. }
  destruct (is_empty (trim line) || comment (trim line)); [by apply IH|].
  destruct (split TAB (trim line)) as [|ticket [|lo [|hi [|? ?]]]]; try discriminate.
  destruct (parse_u32 lo) as [l|] eqn:Hlo; cbn [expect mbind outcome_bind]; [|discriminate].
  destruct (parse_u32 hi) as [h|] eqn:Hhi; cbn [expect mbind outcome_bind]; [|discriminate].
  destruct (h <? l); [discriminate|]. apply IH.
  apply parse_u32_range in Hlo, Hhi.
  assert (Forall (λ n, 0 ≤ n ≤ u32_max) (numbers l h)) as Hn.
  { apply Forall_forall. intros n Hn. apply elem_of_seqZ in Hn. lia. }
  revert owners Ho. induction Hn as [|n ns Hn _ IHn]; intros owners Ho; [done|]. cbn [foldl].
  apply IHn. intros k. unfold add_owner. destruct (decide (k = n)) as [->|Hne]; [done|].
  rewrite lookup_insert_ne by done. apply Ho.
Qed.

(** The RANGE records are one per ticket that owns a ruling; read back, each lists
    exactly the rulings of its ticket, ascending, the least of which is the key
    the records are sorted by. *)
Theorem range_records_exact raw owners :
  load_owners raw = Ok owners →
  (∀ t n, owns owners t n → ∃ min text, (min, t, text) ∈ range_rows owners)
  ∧ (∀ min t text, (min, t, text) ∈ range_rows owners →
      ∃ nums, read_ranges text = Some nums ∧ StronglySorted Z.lt nums
      ∧ (∀ n, n ∈ nums ↔ owns owners t n) ∧ min ∈ nums ∧ ∀ n, n ∈ nums → min ≤ n)
  ∧ Sorted row_le (range_rows owners).
Proof.
  unfold load_owners. intros Hload.
  assert (in_u32 owners) as Hu.
  { destruct (load_owner_lines ∅ (lines raw)) as [o| |] eqn:Hl; cbn in Hload; [|done..].
    case_decide; [done|]. injection Hload as <-. eapply load_owner_lines_range; [|exact Hl].
    intros n. rewrite lookup_empty. by intros []. }
  clear Hload.
  assert (∀ min t text, (min, t, text) ∈ range_rows owners ↔ ∃ nums,
    per_ticket_owned owners !! t = Some nums ∧ min = default 0 (least nums)
    ∧ text = collapse_to_ranges nums) as Hrow.
  { intros min t text. unfold range_rows. rewrite merge_sort_Permutation, list_elem_of_fmap. split.
    - intros ([t' nums]&[= -> -> ->]&Hin). apply elem_of_btree_iter in Hin. eauto.
    - intros (nums&Hin&->&->). exists (t, nums). by rewrite elem_of_btree_iter. }
  setoid_rewrite Hrow. split_and!.
  - intros t n Hn%per_ticket_owned_spec.
    destruct (per_ticket_owned owners !! t) as [nums|];
      [by eexists _, _, nums|by apply not_elem_of_nil in Hn].
  - intros min t text (nums&Ht&->&->).
    pose proof (per_ticket_owned_spec owners t) as Hn. rewrite Ht in Hn. cbn in Hn.
    pose proof (per_ticket_nonempty owners t nums Ht) as Hne. cbn in Hne.
    destruct (distinct_spec nums) as [Hs Hin]. exists (distinct nums).
    destruct nums as [|n nums]; [done|].
    destruct (least_spec (n :: nums) n ltac:(set_solver)) as (m&Hm&Hmin&Hle). rewrite Hm. cbn [default].
    split_and!; [|done|by setoid_rewrite Hin|by apply Hin|by setoid_rewrite Hin].
    apply collapse_roundtrip; [done|]. apply Forall_forall. intros k Hk.
    apply Hn in Hk as (ts&Hk&_). apply Hu. by exists ts.
  - apply Sorted_merge_sort. intros x y. unfold row_le. lia.
Qed.

(** ** The corpus and its cache, and the counters *)

Lemma uncache_cached sources : uncache (cached <$> sources) = Ok sources.
Proof.
  induction sources as [|[id fields] sources IH]; [done|]. cbn [fmap list_fmap uncache].
  assert (uncache_fields (cs_fields (cached (mk_Source id fields))) = Ok fields) as ->.
  { cbn. induction fields as [|[k t] fields IHf]; [done|]. cbn. rewrite IHf. by destruct k. }
  cbn. by rewrite IH.
Qed.

(** A run that reads the cache an earlier one wrote sees the same corpus. *)
Lemma cache_roundtrip `{Corpus} (fs fs' : bytes → option (option bytes)) path sources text :
  (∀ cs, cache_from_json (cache_to_json cs) = Some cs) →
  audit_sources fs (Some path) = Ok (sources, Some (path, text)) →
  fs' path = Some (Some text) →
  audit_sources fs' (Some path) = Ok (sources, None).
Proof.
  intros Hjson. unfold audit_sources. destruct (fs path) as [content|].
  - destruct (expect content) as [raw| |]; cbn; [|done..].
    destruct (expect (cache_from_json raw)) as [cs| |]; cbn; [|done..].
    destruct (uncache cs) as [ss| |]; cbn; done.
  - destruct (fetch_corpus _) as [fetched| |]; cbn; [|done..]. intros [= <- <-] ->. cbn.
    rewrite Hjson. cbn. by rewrite uncache_cached.
Qed.

(** Every citation is counted under one verdict. *)
Lemma counters_add_up (cites : list (Verdict * bytes)) :
  length cites = (length (filter (λ c, c.1 = Verdict_Ok) cites)
    + length (filter (λ c, c.1 = Verdict_Mismatch) cites)
    + length (filter (λ c, c.1 = Verdict_Unpaired) cites)
    + length (filter (λ c, c.1 = Verdict_OutOfRange) cites))%nat.
Proof.
  induction cites as [|[v l] cites IH]; [done|]. rewrite !filter_cons. cbn [fst].
  destruct v; repeat (case_decide; try done); cbn [length]; lia.
Qed.

(** ** A run *)

(** A corpus of one ticket that cites two rulings behind another ticket. *)
Definition toy_corpus : Corpus := {|
  bd args := if decide (args !! 0%nat = Some (str "comments")) then Some (false, []) else Some (true, str "json");
  list_from_json _ := Some [];
  show_from_json _ := Some [mk_ShowEntry (str "pardosa-jn1") (Some (str "see jn1.2 RULED 3-4")) None];
  comments_from_json _ := None;
  cache_from_json _ := None;
  cache_to_json _ := [];
  ruled_captures _ := [(10%nat, 9%nat, str "3", Some (str "4"))];
  ticket_captures window :=
    match split_once (str "jn1.2") window with
    | Some (before, _) => [((length before + 5)%nat, Some (str "jn1.2"), None)]
    | None => []
    end;
|}.

Definition sample_owners : bytes := join_with [NL] (join_with [TAB] <$>
  [[str "pardosa-jn1.1"; str "1"; str "2"]; [str "pardosa-jn1.2"; str "2"; str "3"];
   [str "pardosa-jn1.1"; str "5"; str "5"]]).
Definition sample_fs (path : bytes) : option (option bytes) :=
  if decide (path = str "scripts/data/ruled-owners.tsv") then Some (Some sample_owners) else None.

Example audit_run :
  @audit_main toy_corpus sample_fs [str "--all"] = Ok
    (join_with [TAB] <$>
      [[str "RANGE"; str "pardosa-jn1.1"; str "1-2,5"];
       [str "RANGE"; str "pardosa-jn1.2"; str "2-3"];
       [str "RANGEGAP"; str "4"];
       [str "RANGEOVERLAP"; str "2"; str "pardosa-jn1.1"; str "pardosa-jn1.2"];
       [str "CITE"; str "OK"; str "pardosa-jn1"; str "description"; str "pardosa-jn1.2"; str "1"; str "3";
        str "pardosa-jn1.2"; str "see jn1.2 RULED 3-4"];
       [str "CITE"; str "OUTOFRANGE"; str "pardosa-jn1"; str "description"; str "pardosa-jn1.2"; str "1";
        str "4"; str "-"; str "see jn1.2 RULED 3-4"];
       [str "SUMMARY"; str "total_mentions=2"; str "ok=1"; str "mismatch=0"; str "unpaired=0";
        str "outofrange=1"]],
     None).
Proof. by vm_compute. Qed.

Lemma range_records_exact_witness :
  load_owners sample_owners ≠ Panic
  ∧ ∃ owners, load_owners sample_owners = Ok owners
    ∧ (∀ t n, owns owners t n → ∃ min text, (min, t, text) ∈ range_rows owners)
    ∧ range_rows owners
      = [(1, str "pardosa-jn1.1", str "1-2,5"); (2, str "pardosa-jn1.2", str "2-3")].
Proof.
  destruct (load_owners sample_owners) as [owners| |] eqn:Ho; [|vm_compute in Ho; discriminate..].
  split; [done|]. exists owners. split; [done|]. split.
  - apply (range_records_exact sample_owners owners Ho).
  - vm_compute in Ho. injection Ho as <-. by vm_compute.
Defined.
