(* ===== verification/FilePaths.v ===== *)
(** * Names of the files: file.rs, [FileStorageAdapter::new]

    The adapter derives the paths of its two files from a base path. A path is
    its components, as [std::path] compares paths on Unix; its bytes are UTF-8,
    on which [to_string_lossy] is the identity. The adapter of [Adapter] has the
    stem; what it opens are the files named here. *)

From S2P Require Import Prelude Adapter Text.
#[local] Open Scope Z_scope.

(** ** [std::path] *)

Definition SLASH : byte := x2f.
Definition DOT : byte := x2e.
Definition CUR_DIR : bytes := [DOT].
Definition PARENT_DIR : bytes := [DOT; DOT].

Record Path := mk_Path { has_root : bool; components : list bytes }.

Definition Path_is_empty (p : Path) : bool := negb (has_root p) && is_empty (components p).

(** [Path::components]: no empty ones, and a dot only in front. *)
Definition named (piece : bytes) : Prop := piece ≠ [] ∧ piece ≠ CUR_DIR.
#[global] Instance named_dec piece : Decision (named piece).
Proof. unfold named. apply _. Defined.

Definition Path_new (s : bytes) : Path :=
  let pieces := split SLASH s in
  mk_Path (bool_decide (head s = Some SLASH))
    ((if bool_decide (head pieces = Some CUR_DIR) then [CUR_DIR] else []) ++ filter named pieces).

Definition Path_parent (p : Path) : option Path :=
  match components p with
  | [] => None
  | comps => Some (mk_Path (has_root p) (removelast comps))
  end.

(** The last component, when it names something. *)
Definition Path_file_name (p : Path) : option bytes :=
  name ← last (components p);
  if bool_decide (name = CUR_DIR ∨ name = PARENT_DIR) then None else Some name.

(** [rsplit_file_at_dot]: up to the last dot, which must not be in front. *)
Definition stem_of (name : bytes) : bytes :=
  match split_once [DOT] (rev name) with
  | Some (_, before) => if is_empty before then name else rev before
  | None => name
  end.
Definition Path_file_stem (p : Path) : option bytes := stem_of <$> Path_file_name p.

Definition Path_join (p q : Path) : Path :=
  if has_root q then q
  else mk_Path (has_root p)
         (components p ++ (if Path_is_empty p then components q
                           else filter (λ c, c ≠ CUR_DIR) (components q))).

(** ** The adapter's files *)

Record ArtefactFiles := mk_ArtefactFiles {
  meta_path : Path;
  pgno_path : Path;
}.

(** The directory and stem [new] takes a base path for. *)
Definition base_of (base : Path) : Path * bytes :=
  match Path_parent base, Path_file_stem base with
  | Some p, Some s => (p, s)
  | None, Some s => (Path_new [], s)
  | _, _ => (Path_new [], str "artefact")
  end.

Definition FileStorageAdapter_new (base : Path) : ArtefactFiles * FileStorageAdapter :=
  let '(parent, stem) := base_of base in
  let place name := if Path_is_empty parent then Path_new name else Path_join parent (Path_new name) in
  (mk_ArtefactFiles (place (stem ++ str ".meta")) (place (stem ++ str ".pgno")),
   mk_FileStorageAdapter stem FileExclusionPolicy_Standard).

Definition with_exclusion_policy (policy : FileExclusionPolicy) (a : FileStorageAdapter) :
    FileStorageAdapter := mk_FileStorageAdapter (stem a) policy.

(** ** Facts *)

Definition plain (name : bytes) : Prop := SLASH ∉ name ∧ named name ∧ name ≠ PARENT_DIR.

Lemma Path_new_name name : plain name → Path_new name = mk_Path false [name].
Proof.
  intros (Hs&Hn&_). unfold Path_new. rewrite split_no_byte by done. cbn [head].
  rewrite (bool_decide_eq_false_2 (Some name = _)) by (intros [= ->]; by destruct Hn).
  rewrite filter_cons_True, filter_nil by done.
  rewrite bool_decide_eq_false_2; [done|]. destruct name; [done|]. intros [= ->].
  apply Hs. by left.
Qed.

(** A stem is not empty, and has no separator. *)
Lemma stem_of_cases name : stem_of name = name ∨ ∃ e, name = stem_of name ++ [DOT] ++ e ∧ stem_of name ≠ [].
Proof.
  unfold stem_of. destruct (split_once [DOT] (rev name)) as [[e before]|] eqn:Hs; [|by left].
  destruct before as [|b before]; [by left|right]. cbn [is_empty].
  apply split_once_Some in Hs. exists (rev e).
  assert (name = rev (b :: before) ++ [DOT] ++ rev e) as Hn.
  { rewrite <-(rev_involutive name), Hs, !rev_app_distr. simpl. by rewrite <-!app_assoc. }
  split; [exact Hn|]. simpl. by destruct (rev before).
Qed.

Lemma stem_of_ext s e : s ≠ [] → DOT ∉ e → stem_of (s ++ [DOT] ++ e) = s.
Proof.
  intros Hs He. unfold stem_of. rewrite !rev_app_distr. simpl. rewrite <-app_assoc.
  rewrite split_once_byte.
  - destruct (rev s) as [|b r] eqn:Hr; [|cbn [is_empty]; by rewrite <-Hr, rev_involutive].
    by rewrite <-(rev_involutive s), Hr in Hs.
  - by rewrite list_elem_of_In, <-in_rev, <-list_elem_of_In.
Qed.

Lemma stem_of_plain name : SLASH ∉ name → name ≠ [] → SLASH ∉ stem_of name ∧ stem_of name ≠ [].
Proof.
  intros Hs Hn. destruct (stem_of_cases name) as [->|(e&He&?)]; [done|]. split; [|done].
  rewrite He in Hs. set_solver.
Qed.

Lemma plain_file s e : SLASH ∉ s → s ≠ [] → SLASH ∉ e → e ≠ [] → plain (s ++ [DOT] ++ e).
Proof.
  intros Hs Hn He Hne. split; [rewrite !not_elem_of_app; split; [done|]; split; [|done]|].
  - by intros ?%list_elem_of_singleton.
  - destruct s as [|b s]; [done|]. destruct e as [|c e]; [done|].
    split; [split; [done|]|]; intros Heq%(f_equal length); cbn in Heq;
      rewrite length_app in Heq; cbn in Heq; lia.
Qed.

(** A file in a directory. *)
Definition placed (p : Path) (name : bytes) : Path := mk_Path (has_root p) (components p ++ [name]).

Lemma join_plain p name : plain name → Path_join p (Path_new name) = placed p name.
Proof.
  intros Hp. rewrite Path_new_name by done. unfold Path_join, placed. cbn [has_root components].
  destruct (Path_is_empty p); [done|]. rewrite filter_cons_True, filter_nil; [done|]. apply Hp.
Qed.

Lemma place_plain p name :
  plain name → (if Path_is_empty p then Path_new name else Path_join p (Path_new name)) = placed p name.
Proof.
  intros Hp. destruct (Path_is_empty p) eqn:He; [|by apply join_plain].
  rewrite Path_new_name by done. destruct p as [[] [|c cs]]; done.
Qed.

Lemma base_of_placed p s e :
  SLASH ∉ s → s ≠ [] → SLASH ∉ e → e ≠ [] → DOT ∉ e → base_of (placed p (s ++ [DOT] ++ e)) = (p, s).
Proof.
  intros Hs Hn He Hne Hd. pose proof (plain_file s e Hs Hn He Hne) as (_&[_ Hc]&Hp).
  unfold base_of, Path_file_stem, Path_file_name, Path_parent, placed. cbn [has_root components].
  rewrite last_snoc. cbn [mbind option_bind]. rewrite bool_decide_eq_false_2 by tauto.
  cbn [fmap option_fmap option_map]. rewrite stem_of_ext by done.
  destruct (components p ++ _) as [|c cs] eqn:Hcs; [by destruct (components p)|].
  rewrite <-Hcs, removelast_last. by destruct p.
Qed.

Lemma base_stem_plain s : let st := (base_of (Path_new s)).2 in SLASH ∉ st ∧ st ≠ [].
Proof.
  unfold base_of. destruct (Path_file_stem (Path_new s)) as [st|] eqn:Hst.
  - assert (SLASH ∉ st ∧ st ≠ []) as Hgoal; [|by destruct (Path_parent _)]. revert Hst.
    unfold Path_file_stem, Path_file_name. destruct (last (components (Path_new s))) as [name|] eqn:Hl; [|done].
    cbn [mbind option_bind]. case_bool_decide as Hd; [done|]. intros [= <-].
    apply stem_of_plain; apply last_Some_elem_of in Hl; unfold Path_new in Hl; cbn [components] in Hl;
      (apply elem_of_app in Hl as [Hl|Hl]; [by case_bool_decide; [apply list_elem_of_singleton in Hl as ->|];
        (apply not_elem_of_nil in Hl || (destruct Hd; by left))|]);
      apply list_elem_of_filter in Hl as [[Hn _] Hin]; [|done].
    by apply (split_pieces SLASH s).
  - assert (SLASH ∉ str "artefact" ∧ str "artefact" ≠ []) as Hgoal; [|by destruct (Path_parent _)].
    by split; [apply (bool_decide_unpack _); vm_compute|].
Qed.

Lemma adapter_of_base base p s :
  base_of base = (p, s) → SLASH ∉ s → s ≠ [] →
  FileStorageAdapter_new base =
    (mk_ArtefactFiles (placed p (s ++ str ".meta")) (placed p (s ++ str ".pgno")),
     mk_FileStorageAdapter s FileExclusionPolicy_Standard).
Proof.
  intros Hb Hs Hn. unfold FileStorageAdapter_new. rewrite Hb.
  rewrite !place_plain; [done|..]; [apply (plain_file s (str "pgno"))|apply (plain_file s (str "meta"))];
    try done; by apply (bool_decide_unpack _); vm_compute.
Qed.

Lemma extension_plain e : e = str "meta" ∨ e = str "pgno" → SLASH ∉ e ∧ e ≠ [] ∧ DOT ∉ e.
Proof. intros [->| ->]; by apply (bool_decide_unpack _); vm_compute. Qed.

(** ** Properties *)

(** Either file names the artefact: an adapter made from the path of the
    metadata file, or of the container, of an adapter is that adapter. *)
Theorem artefact_files_name_it s :
  let '(files, a) := FileStorageAdapter_new (Path_new s) in
  FileStorageAdapter_new (meta_path files) = (files, a) ∧
  FileStorageAdapter_new (pgno_path files) = (files, a).
Proof.
  pose proof (base_stem_plain s) as Hst. destruct (base_of (Path_new s)) as [p st] eqn:Hb.
  cbn in Hst. destruct Hst as [Hs Hn]. rewrite (adapter_of_base _ p st Hb Hs Hn). cbn [meta_path pgno_path].
  split; apply adapter_of_base; try done;
    [destruct (extension_plain (str "meta")) as (?&?&?)|destruct (extension_plain (str "pgno")) as (?&?&?)];
    auto; by apply base_of_placed.
Qed.

(** Every extension is dropped: whatever follows the last dot of the name, the
    base path is taken for the same two files and the same locator. *)
Theorem extensions_name_one_artefact p name e :
  SLASH ∉ name → name ≠ [] → SLASH ∉ e → e ≠ [] → DOT ∉ e →
  FileStorageAdapter_new (Path_join p (Path_new (name ++ [DOT] ++ e))) =
    FileStorageAdapter_new (Path_join p (Path_new (name ++ str ".meta"))).
Proof.
  intros Hs Hn He Hne Hd. destruct (extension_plain (str "meta")) as (?&?&?); [by left|].
  change (name ++ str ".meta") with (name ++ [DOT] ++ str "meta").
  rewrite !join_plain by by apply plain_file.
  by rewrite !(adapter_of_base _ p name) by (by apply base_of_placed || done).
Qed.

Lemma extensions_name_one_artefact_witness :
  FileStorageAdapter_new (Path_join (Path_new (str "/var/pardosa")) (Path_new (str "orders.v1"))) =
  FileStorageAdapter_new (Path_join (Path_new (str "/var/pardosa")) (Path_new (str "orders.meta"))).
Proof.
  by apply (extensions_name_one_artefact (Path_new (str "/var/pardosa")) (str "orders") (str "v1"));
    apply (bool_decide_unpack _); vm_compute.
Defined.

Example base_paths :
  base_of (Path_new (str "/var//pardosa/./orders.meta")) = (Path_new (str "/var/pardosa"), str "orders") ∧
  base_of (Path_new (str "a.b.pgno")) = (Path_new [], str "a.b") ∧
  base_of (Path_new (str "./.hidden")) = (Path_new (str "."), str ".hidden") ∧
  base_of (Path_new (str "dir/..")) = (Path_new [], str "artefact") ∧
  base_of (Path_new (str "/")) = (Path_new [], str "artefact").
Proof. repeat split; vm_compute; reflexivity. Qed.
