(* ===== verification/FileFixtures.v ===== *)
(** * Artefacts made by hand: file.rs, the operations of
    [unstable-test-support]

    Builds with that feature can write a part of an artefact: a record without
    its descriptor, a frame nobody validated, any record. They are the steps that
    the strict operations take, out of their order; the theorems say what they
    leave for the strict ones to find. *)

From S2P Require Import Scenarios.

Section fixtures.
Context `{Digests}.

Definition create_with_claim_bound (a : FileStorageAdapter) (initial_claim : OwnershipClaimRecord)
    (d : AdmittedDescriptor) (max_wire_len : Z) : io (Store FileEngine) :=
  create_with_limit a initial_claim d max_wire_len.

Definition append_unvalidated_frame_for_test (payload : bytes) : io Z :=
  frame_buf ← lift (framed payload);
  _ ← reading (λ w, if pgno_exists w then Ok tt else fail FailureCondition_NoArtefactExists);
  _ ← call FailureCondition_NoArtefactExists;
  _ ← call FailureCondition_TransportUnavailable;
  _ ← (λ w, let '(ok, w) := write_pgno frame_buf w in
            (if ok then Ok tt else fail FailureCondition_TransportUnavailable, w));
  _ ← call FailureCondition_TransportUnavailable;
  scan ← reading scan_pgno;
  mret (blen (scan_frames scan)).

Definition create_incomplete_meta_only (claim : OwnershipClaimRecord) : io unit :=
  _ ← create_meta;
  _ ← write_meta (to_bytes ContainerHeader_new);
  claim_bytes ← lift (OwnershipRecord_encode (OwnershipRecord_OwnershipClaim claim) []);
  frame_buf ← lift (framed claim_bytes);
  _ ← write_meta frame_buf;
  call FailureCondition_OwnershipRecordUnreadable.

Definition record_meta_record_for_test (record : OwnershipRecord) : io unit :=
  append_meta_record record.
Definition record_ownership_claim_for_test (claim : OwnershipClaimRecord) : io unit :=
  record_meta_record_for_test (OwnershipRecord_OwnershipClaim claim).
Definition record_outbound_pointer_for_test (pointer : OutboundPointerRecord) : io unit :=
  record_meta_record_for_test (OwnershipRecord_OutboundPointer pointer).
Definition record_inbound_pointer (pointer : InboundPointerRecord) : io unit :=
  append_meta_record (OwnershipRecord_InboundPointer pointer).
End fixtures.

(** ** Facts *)

Section facts.
Context `{Digests, !DigestLaws}.

Lemma triple_meta_record r m p Q :
  meta_record_wf r →
  (∀ w k, holds (Some (m ++ take k (frame_image (record_image r)))) p w → Q w) →
  triple (holds (Some m) p) (append_meta_record r)
    (λ _, holds (Some (m ++ frame_image (record_image r))) p) Q.
Proof.
  intros Hr HQ. assert (∀ w, holds (Some m) p w → Q w) as HQ0
    by (intros w Hw; apply (HQ w 0%nat); by rewrite take_0, app_nil_r).
  apply triple_reading_bind; [intros w _; by destruct (meta_exists w)|done|]. intros [].
  eapply triple_pre; [by intros w [Hw _]; exact Hw|].
  eapply triple_bind; [apply triple_call|done|]. intros [].
  unfold meta_frame. rewrite OwnershipRecord_encode_spec by apply Hr. rewrite bind_of_Ok. simpl app.
  rewrite framed_record by done. apply triple_lift_bind; [done|done|]. intros fb [= <-].
  eapply triple_bind; [apply triple_write_meta|by intros w [k Hk]; apply (HQ w k)|]. intros [].
  eapply triple_weaken; [apply triple_call|done|done|]. intros w Hw.
  apply (HQ w (length (frame_image (record_image r)))). by rewrite firstn_all.
Qed.

Lemma triple_incomplete c d :
  creatable c d →
  triple (holds None None) (create_incomplete_meta_only c)
    (λ _, holds (Some (meta_image [OwnershipRecord_OwnershipClaim c])) None)
    (in_creation c (descriptor d)).
Proof.
  intros Hc. pose proof (Forall_inv (creation_records_wf c d Hc)) as Hclaim.
  pose proof (creation_meta_split c (descriptor d)) as Hsplit.
  eapply triple_bind; [apply triple_create_meta|by intros w [? ?]; left|].
  intros []. eapply triple_bind; [apply triple_write_meta| |].
  { intros w Hw. eapply in_creation_meta; [|right; exact Hw]. rewrite Hsplit. by eexists. }
  intros []. rewrite OwnershipRecord_encode_spec by apply Hc.
  assert (∀ w, holds (Some ([] ++ to_bytes ContainerHeader_new)) None w →
    in_creation c (descriptor d) w) as Hheader.
  { intros w Hw. eapply (in_creation_meta _ _ _ []); [|left; exact Hw]. rewrite Hsplit, app_nil_r.
    by eexists. }
  apply triple_lift_bind; [done|done|]. intros cb [= <-]. simpl app.
  rewrite framed_record by done. apply triple_lift_bind; [done|done|]. intros fb [= <-].
  eapply triple_bind; [apply triple_write_meta| |].
  { intros w Hw. eapply in_creation_meta; [|right; exact Hw]. rewrite Hsplit.
    apply prefix_app. by eexists. }
  intros []. eapply triple_weaken; [apply triple_call|done|..].
  - intros [] w Hw. unfold meta_image, container_image. cbn [fmap list_fmap].
    rewrite frames_image_cons. change (frames_image []) with (@nil byte). by rewrite app_nil_r.
  - intros w Hw. eapply (in_creation_meta _ _ _ []); [|left; exact Hw]. rewrite Hsplit, app_nil_r.
    apply prefix_app. by eexists.
Qed.

(** The container after an unvalidated append, whole or cut. *)
Lemma triple_write_frame fs p c :
  frame_wf p →
  triple (λ w, container_at w fs [])
    (λ w, let '(ok, w) := write_pgno (frame_image p) w in (if ok then Ok tt else fail c, w))
    (λ _ w, container_at w (fs ++ [p]) [])
    (λ w, (∃ t, container_at w fs t) ∨ container_at w (fs ++ [p]) []).
Proof.
  intros Hp w Hc. destruct (write_pgno (frame_image p) w) as [ok w'] eqn:Hw.
  apply write_pgno_cases in Hw as (k&Hw'&Hk&Hfit). pose proof Hc as (Hw&Hfs&_&_).
  rewrite app_nil_r in Hw. destruct Hfit as [Hnil|Hfit].
  - destruct ok; [|left; exists []; eapply container_at_same; [exact Hc|];
      by rewrite Hw', Hnil, app_nil_r].
    specialize (Hk eq_refl). rewrite take_ge in Hnil by done. apply (f_equal blen) in Hnil.
    rewrite blen_frame_image in Hnil. pose proof (blen_nonneg p). by change (blen []) with 0 in Hnil; lia.
  - rewrite Hw in Hfit, Hw'. destruct ok; [|by destruct (container_partial w' fs p k); [..|left; eexists|right]].
    specialize (Hk eq_refl). rewrite take_ge, <-container_image_snoc in Hw' by done.
    unfold container_at. rewrite app_nil_r. split; [done|].
    split; [apply Forall_app_2; [done|by apply Forall_singleton]|]. split; [by left|].
    by rewrite container_image_snoc, blen_app.
Qed.

Lemma triple_call_at fs t c :
  triple (λ w, container_at w fs t) (call c) (λ _ w, container_at w fs t) (λ w, container_at w fs t).
Proof.
  intros w Hw. unfold call. pose proof (syscall_pgno w) as Hs.
  assert (container_at (syscall w).2 fs t) by by eapply container_at_same.
  by destruct (syscall w) as [[] w'].
Qed.
End facts.

(** ** Properties *)

Section properties.
Context `{Digests, !DigestLaws}.

(** The two steps of a fixture are a creation that stopped between the files.
    Writing the record without its descriptor, and then the descriptor as an
    arbitrary record, never panics; when both succeed the metadata file is the one
    [create] writes and there is no container, so that completing it resumes;
    otherwise the files are those of an interrupted creation. *)
Theorem record_by_hand_is_interrupted_creation c d w :
  creatable c d → holds None None w →
  let image := node_image levels0 (root (descriptor d)) in
  let steps :=
    _ ← create_incomplete_meta_only c;
    record_meta_record_for_test (OwnershipRecord_SchemaDescriptor (version (descriptor d)) image) in
  match steps w with
  | (Ok _, w') => holds (Some (creation_meta c (descriptor d))) None w'
  | (Err _, w') => creation_state c (descriptor d) (meta_file w') (pgno_file w')
  | (Panic, _) => False
  end.
Proof.
  intros Hc Hw image steps.
  pose proof (Forall_inv (Forall_inv_tail (creation_records_wf c d Hc))) as Hdesc.
  assert (creation_meta c (descriptor d) = meta_image [OwnershipRecord_OwnershipClaim c] ++
    frame_image (record_image (OwnershipRecord_SchemaDescriptor (version (descriptor d)) image))) as Hsplit
    by (unfold creation_meta, meta_image, creation_records; cbn [fmap list_fmap];
        apply (container_image_snoc [_])).
  apply (triple_bind _ _ _ _ (λ _, holds (Some (creation_meta c (descriptor d))) None) _
           (in_creation c (descriptor d)) (triple_incomplete c d Hc)); [done| |exact Hw].
  intros _. rewrite Hsplit. apply triple_meta_record; [exact Hdesc|].
  intros w' k Hk. eapply in_creation_meta; [|right; by exists k]. by rewrite Hsplit.
Qed.

(** An unvalidated frame lands as any other. On a container in order, appending
    a payload never panics; if it succeeds, the payload is the last frame, and
    the result counts the frames; if not, the container is as it was, has a torn
    frame at its end, or the frame. A payload too long for a frame is refused. *)
Theorem unvalidated_frame_lands payload fs w :
  container_at w fs [] →
  match append_unvalidated_frame_for_test payload w with
  | (Ok n, w') => container_at w' (fs ++ [payload]) [] ∧ n = blen fs + 1
  | (Err _, w') => (∃ t, container_at w' fs t) ∨ container_at w' (fs ++ [payload]) []
  | (Panic, _) => False
  end.
Proof.
  intros Hc.
  set (at_rest w := container_at w fs []).
  set (left_over w := (∃ t, container_at w fs t) ∨ container_at w (fs ++ [payload]) []).
  assert (∀ w, at_rest w → left_over w) as Hrest by (intros u Hu; left; exists []; exact Hu).
  cut (triple at_rest (append_unvalidated_frame_for_test payload)
    (λ n w, container_at w (fs ++ [payload]) [] ∧ n = blen fs + 1) left_over); [intros Ht; exact (Ht w Hc)|].
  apply triple_lift_bind; [apply framed_not_panic|exact Hrest|]. intros fb [Hp ->]%framed_Ok.
  apply triple_reading_bind; [intros u _; by destruct (pgno_exists u)|exact Hrest|]. intros [].
  apply (triple_pre at_rest); [by intros u [Hu _]|].
  set (landed u := container_at u (fs ++ [payload]) []).
  assert (∀ u, landed u → left_over u) as Hland by (by right).
  do 2 (apply (triple_bind at_rest _ _ (λ _, at_rest) _ at_rest);
    [exact (triple_call_at fs [] _)|exact Hrest|intros []]).
  apply (triple_bind at_rest _ _ (λ _, landed) _ left_over);
    [exact (triple_write_frame fs payload _ Hp)|done|intros []].
  apply (triple_bind landed _ _ (λ _, landed) _ landed);
    [exact (triple_call_at (fs ++ [payload]) [] _)|exact Hland|intros []].
  apply triple_reading_bind; [intros u Hu; by apply (scan_pgno_not_panic u (fs ++ [payload]) [])|exact Hland|].
  intros scan. apply triple_ret. intros u [Hu Hs]. split; [done|].
  rewrite (proj1 (scan_pgno_Ok u _ [] scan Hu Hs)). by rewrite blen_app.
Qed.
End properties.

(** ** At concrete inputs *)

#[local] Existing Instance toy_digests.
#[local] Existing Instance toy_digest_laws.

(** A record by hand with the descriptor in it is what [create] writes; a write
    cut short after five bytes leaves a creation that stopped. *)
Lemma record_by_hand_is_interrupted_creation_witness :
  let w := sample_files None None [] in
  let image := node_image levels0 (root sample_descriptor) in
  let steps :=
    _ ← create_incomplete_meta_only (sample_claim 3);
    record_meta_record_for_test (OwnershipRecord_SchemaDescriptor (version sample_descriptor) image) in
  (steps w).1 = Ok tt ∧ holds (Some sample_creation) None (steps w).2.
Proof.
  intros w image steps.
  assert ((steps w).1 = Ok tt) as Hok by (vm_compute; reflexivity). split; [exact Hok|].
  pose proof (record_by_hand_is_interrupted_creation (sample_claim 3) sample_admitted w
    sample_creatable (conj eq_refl eq_refl)) as Ht.
  change (match steps w with
          | (Ok _, w') => holds (Some sample_creation) None w'
          | (Err _, w') => creation_state (sample_claim 3) sample_descriptor (meta_file w') (pgno_file w')
          | (Panic, _) => False
          end) in Ht.
  destruct (steps w) as [r w']. cbn [fst snd] in *. subst r. exact Ht.
Defined.

Lemma unvalidated_frame_lands_witness :
  let w := world (sample_engine [3] []) in
  let r := append_unvalidated_frame_for_test (str "anything") w in
  r.1 = Ok 3 ∧ container_at r.2 (sample_log ++ [str "anything"]) [].
Proof.
  intros w r. assert (r.1 = Ok 3) as Hok by (vm_compute; reflexivity). split; [exact Hok|].
  pose proof (unvalidated_frame_lands (str "anything") sample_log w (sample_container [3] [])) as Ht.
  change (match r with
          | (Ok n, w') => container_at w' (sample_log ++ [str "anything"]) [] ∧ n = blen sample_log + 1
          | (Err _, w') => (∃ t, container_at w' sample_log t) ∨
                           container_at w' (sample_log ++ [str "anything"]) []
          | (Panic, _) => False
          end) in Ht.
  destruct r as [o w']. cbn [fst snd] in *. subst o. apply Ht.
Defined.
