(* ===== verification/NatsFixtures.v ===== *)
(** * Artefacts made by hand on JetStream: adapter.rs, the operations of
    [unstable-test-support]

    The counterpart of [FileFixtures] for the JetStream adapter: a meta stream
    without its descriptor, a message of the data stream that no session
    validated, any record, and subjects of the caller's choice. *)

From S2P Require Import NatsScenarios.

Definition with_subjects_for_test (a : NatsStorageAdapter) (meta_subject data_subject : bytes) :
    NatsStorageAdapter :=
  mk_NatsStorageAdapter (na_stem a) (na_locator a) (na_meta_stream_name a) (na_data_stream_name a)
    meta_subject data_subject true.

Section fixtures.
Context `{Digests, JetStream}.

Definition nats_create_with_claim_bound (a : NatsStorageAdapter)
    (initial_claim : OwnershipClaimRecord) (d : AdmittedDescriptor) (max_wire_len : Z) :
    eff Server (Store NatsEngine) :=
  nats_create_with_limit a initial_claim d max_wire_len.

Definition nats_create_incomplete_meta_only (a : NatsStorageAdapter)
    (claim : OwnershipClaimRecord) : eff Server unit :=
  presence ← nats_try_presence a;
  _ ← lift match presence with
           | ArtefactPresence_None => Ok tt
           | _ => fail FailureCondition_StoreAlreadyExists
           end;
  let name := na_meta_stream_name a in
  let subject := na_meta_subject a in
  let put := publish_at FailureCondition_OwnershipRecordUnreadable subject name in
  _ ← request (create_stream name subject) (λ _, unreadable);
  _ ← put 0 (to_bytes ContainerHeader_new);
  claim_bytes ← lift (OwnershipRecord_encode (OwnershipRecord_OwnershipClaim claim) []);
  claim_frame ← lift (framed claim_bytes);
  _ ← put 1 claim_frame;
  mret tt.

(** No sequence is expected, and the answer's stream is not compared. *)
Definition nats_append_unvalidated_frame_for_test (a : NatsStorageAdapter) (payload : bytes) :
    eff Server Z :=
  frame_buf ← lift (framed payload);
  ((λ s, match publish None
                (mk_Publication (na_data_subject a) None (na_data_stream_name a) frame_buf) s with
         | (acked ack, s) => (Ok (ack_sequence ack), s)
         | (_, s) => (fail FailureCondition_TransportUnavailable, s)
         end) : eff Server Z).

Definition nats_record_meta_record_for_test (a : NatsStorageAdapter) (record : OwnershipRecord) :
    eff (Server * ResolvedSubjects) unit := record_ownership_record_internal a record.
Definition nats_record_ownership_record (a : NatsStorageAdapter) (record : OwnershipRecord) :
    eff (Server * ResolvedSubjects) unit := record_ownership_record_internal a record.
Definition nats_record_ownership_claim_for_test (a : NatsStorageAdapter)
    (claim : OwnershipClaimRecord) : eff (Server * ResolvedSubjects) unit :=
  record_ownership_record_internal a (OwnershipRecord_OwnershipClaim claim).
Definition nats_record_outbound_pointer_for_test (a : NatsStorageAdapter)
    (pointer : OutboundPointerRecord) : eff (Server * ResolvedSubjects) unit :=
  record_ownership_record_internal a (OwnershipRecord_OutboundPointer pointer).
Definition nats_record_inbound_pointer (a : NatsStorageAdapter)
    (pointer : InboundPointerRecord) : eff (Server * ResolvedSubjects) unit :=
  record_ownership_record_internal a (OwnershipRecord_InboundPointer pointer).
End fixtures.

(** ** Properties *)

Section properties.
Context `{Digests, !DigestLaws, JetStreamLaws}.

(** The fixture is a creation that stopped before the descriptor. When it
    succeeds, whatever other clients do, the meta stream starts with the first
    two messages of a creation with its claim, no descriptor given, and nobody
    creates the artefact from then on. *)
Theorem nats_fixture_cuts_creation a c d s s' :
  OwnershipRecord_wf (OwnershipRecord_OwnershipClaim c) →
  nats_create_incomplete_meta_only a c s = (Ok tt, s') →
  grows s s' ∧
  starts_with s' (na_meta_stream_name a) (na_meta_subject a) (take 2 (creation_messages c d)) ∧
  ∀ later c' d' limit st server', grows s' later → nats_create_with_limit a c' d' limit later ≠ (Ok st, server').
Proof.
  intros Hw. unfold nats_create_incomplete_meta_only.
  intros (pr&s1&Hp&([]&Hnone&([]&s2&Hc&(a1&s3&Hp1&(cb&He&(cf&Hcf&(a2&s4&Hp2&Hr)%bind_inv)%lift_inv)
    %lift_inv)%bind_inv)%bind_inv)%lift_inv)%bind_inv.
  injection Hr as <-. rewrite OwnershipRecord_encode_spec in He by done. injection He as <-.
  apply framed_Ok in Hcf as [_ ->]. destruct pr; try done. apply presence_none in Hp as (Hg0&Hborn&_).
  apply create_stream_starts in Hc as [Hg1 Hs]; [|done].
  destruct (publish_at_extends _ _ _ [] _ _ _ _ Hs Hp1) as (Hg2&_&Hs2).
  destruct (publish_at_extends _ _ _ [_] _ _ _ _ Hs2 Hp2) as (Hg3&_&Hs3).
  split; [repeat (eapply grows_trans; [eassumption|]); apply (grows_refl stream_at)|].
  split; [exact Hs3|]. intros later c' d' limit st server' Hg. apply nats_create_refused. left.
  destruct (starts_with_grows _ _ _ _ _ Hg Hs3) as (strm&_&Hst&_). by exists strm.
Qed.

(** An unvalidated frame stands where the server said, behind everything that
    stood in the data stream before. *)
Theorem nats_unvalidated_frame_lands a payload s n s' :
  nats_append_unvalidated_frame_for_test a payload s = (Ok n, s') →
  grows s s' ∧ frame_wf payload ∧
  ∃ strm, stream_at s' (na_data_stream_name a) = Some strm ∧
    message strm n = Some (frame_image payload) ∧
    ∀ before, stream_at s (na_data_stream_name a) = Some before → last_sequence before < n.
Proof.
  unfold nats_append_unvalidated_frame_for_test. intros (fb&[Hf ->]%framed_Ok&Hp)%lift_inv.
  destruct (publish _ _ s) as [[err|ack|err|] s1] eqn:Hpub; try done. injection Hp as <- <-.
  apply publish_law in Hpub as [Hg Hack]. split; [done|]. split; [done|].
  destruct (Hack ack eq_refl) as (Hn&strm&Hst&Hm&Hlt&_). cbn in Hn, Hm. rewrite Hn in Hst, Hlt.
  by exists strm.
Qed.
End properties.

(** ** At concrete inputs *)

#[local] Existing Instance toy_digests.
#[local] Existing Instance toy_digest_laws.

Lemma nats_fixture_cuts_creation_witness :
  match nats_create_incomplete_meta_only sample_nats (sample_claim 3)
          (empty_server [turn_ok; turn_other (str "unrelated") [x00]]) with
  | (Ok _, s') =>
      starts_with s' (na_meta_stream_name sample_nats) (na_meta_subject sample_nats)
        (take 2 (creation_messages (sample_claim 3) sample_admitted))
  | _ => False
  end.
Proof.
  destruct (nats_create_incomplete_meta_only sample_nats (sample_claim 3)
    (empty_server [turn_ok; turn_other (str "unrelated") [x00]])) as [r s'] eqn:Hc.
  assert (r = Ok tt) as ->.
  { change r with (r, s').1. rewrite <-Hc. vm_compute. reflexivity. }
  apply (nats_fixture_cuts_creation sample_nats (sample_claim 3) sample_admitted
           (empty_server [turn_ok; turn_other (str "unrelated") [x00]]) s'); [|done].
  by (apply (bool_decide_unpack _); vm_compute).
Defined.

Lemma nats_unvalidated_frame_lands_witness :
  match nats_append_unvalidated_frame_for_test sample_nats (str "anything") created_server with
  | (Ok n, s') => n = 2 ∧ ∃ strm, stream_at s' (na_data_stream_name sample_nats) = Some strm ∧
      message strm 2 = Some (frame_image (str "anything"))
  | _ => False
  end.
Proof.
  destruct (nats_append_unvalidated_frame_for_test sample_nats (str "anything") created_server)
    as [r s'] eqn:Hc.
  assert (r = Ok 2) as ->.
  { change r with (r, s').1. rewrite <-Hc. vm_compute. reflexivity. }
  apply nats_unvalidated_frame_lands in Hc as (_&_&strm&Hst&Hm&_). split; [done|]. by exists strm.
Defined.
